(* ===== verification/_CoqProject ===== *)
-Q . S2P
Prelude.v
GoStrings.v
Netip.v
AddrText.v
GoFloat.v
GoTime.v
Regexp.v
Rules.v
Policy.v
Limits.v
DnsCache.v
AddrFacts.v
HostFacts.v
HostPort.v
PatternFacts.v
RuleSetFacts.v
PolicyFacts.v
SubnetFacts.v
FloatFacts.v
LimitsFacts.v
TrackerFacts.v
BucketFacts.v
DnsCacheFacts.v
DnsCacheRuns.v
CacheSpec.v
Dial.v
DialFacts.v
Config.v
ConfigFacts.v
Upstream.v
UpstreamFacts.v
Http.v
Proxy.v
ProxyFacts.v
HeaderFacts.v
AdmissionFacts.v
LogFacts.v
ResolvedFacts.v
Tunnel.v
TunnelFacts.v
Relay.v
Main.v
MainFacts.v
