(* ===== verification/Prelude.v ===== *)
(** * proxy-acl: a verification of a forward proxy with an ACL

    proxy-acl is a forward HTTP/HTTPS proxy. A client's subnet, found from its
    IP address, decides which destinations it may reach; the proxy resolves
    names itself, checks the addresses it got and connects to those addresses
    only. The program is small and every part of it carries part of the
    promise, so the development follows its packages.

    ** The program and the files that model it

    - internal/acl/rules.go: destinations, patterns, compiled rule sets, port
      ranges, public addresses. Modelled in [Rules], with the part of the Go
      library it rests on in [GoStrings] (strings, strconv), [Netip]
      (net/netip) and [Regexp] (regexp). Theorems in [AddrFacts], [HostFacts],
      [PatternFacts] and [RuleSetFacts].
    - internal/acl/policy.go: subnets, the choice of a client's subnet, the
      decision on a request. Modelled in [Policy]; theorems in [PolicyFacts]
      and [SubnetFacts]. The resolver is the type class [Policy.Resolver], as
      acl.Resolver is an interface in the source.
    - internal/limits/limits.go: per-client connection slots, token buckets and
      log budgets. Modelled in [Limits] over a heap of shared entries, with
      times and floating-point numbers in [GoFloat]. Theorems in [LimitsFacts],
      [TrackerFacts] and [BucketFacts], the last on the rounding errors of
      binary64 arithmetic in [FloatFacts].
    - internal/dnscache/dnscache.go: the caching resolver, a concurrent program.
      Modelled in [DnsCache] as a transition system with one step per critical
      section, channel operation or answer of the resolver underneath; theorems
      in [DnsCacheFacts] and [DnsCacheRuns]. [CacheSpec] has the abstract cache
      that it refines and the class [CacheSpec.Cached], which makes it a
      [Policy.Resolver].
    - internal/proxy/dial.go: connecting to the vetted addresses. Modelled in
      [Dial] as a transition system of the two racing goroutines; theorems in
      [DialFacts]. The texts of addresses and of host:port pairs, which pass
      between the parts, are in [AddrText] and [HostPort].
    - internal/config/config.go and store.go: the config file, its defaults and
      limits, hot reload. Modelled in [Config], with [time.ParseDuration] in
      [GoTime], and Watch in [Main]; theorems in [ConfigFacts] and [MainFacts].
    - internal/proxy/upstream.go: pools of upstream connections. Modelled in
      [Upstream]; theorems in [UpstreamFacts].
    - internal/proxy/proxy.go, log.go and listener.go: request handling, the
      access log, admission of connections. Modelled in [Proxy], with the part
      of net/http it uses in [Http]. Theorems in [ProxyFacts] (what is dialed
      and who may ask for it), [ResolvedFacts] (where the dialed addresses come
      from), [HeaderFacts] (header rewriting), [AdmissionFacts] (the listener)
      and [LogFacts] (the access log). Response bodies, and the client
      connection as a writer, are in [Relay] with their theorems.
    - internal/proxy/tunnel.go: copying between two connections. Modelled in
      [Tunnel] as a transition system of two pipes; theorems in [TunnelFacts].
    - cmd/proxy-acl/main.go, Proxy.Serve and maintain: starting the parts and
      letting them run. Modelled in [Main]; theorems in [MainFacts].

    A connection is admitted by [Proxy.Proxy_admit] (which asks [Policy.SubnetOf],
    [Config.ClientLimits] and [Limits.Acquire]); each request on it goes through
    [Proxy.ServeHTTP] to [Proxy.check], which asks [Limits.Allow] and
    [Policy.Check]; an approved one becomes a [Dial.vetted] destination, dialed
    for a tunnel ([Dial.dial], then [Tunnel.tunnelCopy]) or through a pooled
    transport ([Upstream.roundTrip]). All of them share one state, [Proxy.Proxy].
    Its small steps are [ProxyFacts.act]; a handler runs with any such steps of
    other goroutines in between, which are the functions in [Proxy.around].
    [MainFacts.program_reach] adds the watch loop, [Main.maintain] and
    [Main.serve_step] around that state: these are the states of the program.

    This file holds what all of them share: Go strings as byte lists, errors
    and results, the tactics and the generic lemmas.

    ** Conventions

    A definition has the name of the Go function it translates; where one Go
    function has nested loops or closures, each is a definition of its own and
    the function composes them. [(T, error)] is [result T]; a run-time panic is
    the error [EPanic], so that its absence can be stated. Integers are [Z];
    those that could leave their width are bounded by theorems (ports, prefix
    lengths) or wrapped or saturated where the library does so ([GoFloat.Sub]).
    A Go map is a [gmap]; where the order of an iteration can matter, the order
    is an argument and the theorems hold for all orders. A pointer that is
    compared or shared is a heap location or an identity field. The clock is an
    argument of every operation that reads it.

    ** What the theorems show

    - Decisions ([PolicyFacts], [RuleSetFacts], [PatternFacts], [HostFacts],
      [AddrFacts]): a request is allowed exactly when the configuration's text
      says so, stated with a reference meaning of patterns that mentions no
      maps and no regular expressions and with what the text of the port list
      names; the compiled rule set refines a plain scan of the rules; hosts
      have one normal form; ports and public addresses are characterised
      numerically. One theorem shows that an operator's regular expression with
      unbalanced parentheses escapes its anchors.
    - Subnets ([SubnetFacts]): a compiled policy is well formed and a client
      belongs to the unique subnet with the longest matching prefix, whatever
      the order of the config.
    - Limits ([TrackerFacts], [BucketFacts]): after any sequence of operations
      the counters are exact, the limits hold, clients do not disturb each
      other, suppressed lines are conserved and the tables are bounded; a
      bucket, computed in binary64, admits at most its burst and its rate up to
      a rounding that is stated with it; in exact arithmetic it keeps the bound
      without rounding and never starves a client that keeps to the rate;
      forgetting an idle entry refills its bucket.
    - DNS cache ([DnsCacheRuns]): in every reachable state lookups are bounded
      in all and per client, no name is looked up twice at once, answers belong
      to the name asked for, no waiter is left behind, and the cache is bounded
      and serves nothing past its time. Used by one caller at a time, a call
      ends, in whatever way it runs, as a map with expiry times in front of the
      resolver underneath allows ([CacheSpec]).
    - Dialing ([DialFacts]): only checked addresses are dialed, no connection
      leaks, a call ends, and it fails only when every address does.
    - Config ([ConfigFacts]): limits are inherited and overridden as intended
      and always usable; the active config is the last that loaded; reloads are
      debounced and none is forgotten.
    - Pools ([UpstreamFacts]): a pooled transport serves only requests that were
      approved for exactly its addresses, and there are at most 1024.
    - The proxy ([ProxyFacts]): putting decisions, pools and dialing together,
      every connection made for a request is to an address and port that the
      client's subnet allows, and nothing gets past the checks: exactly the
      requests that were not approved are refused. With the cache
      as the resolver, the address is one that the resolver underneath gave for
      the requested name ([ResolvedFacts]).
    - The program ([MainFacts]): it serves only with a config that was accepted
      and is watched; whatever the watch loop does, the proxy runs with the
      last accepted config and its states are those of the theorems above;
      it ends without an error only by a shutdown.
    - Response bodies ([Relay]): a body is passed on unchanged, or logged as cut
      short where the debug level is enabled, streams at once, and the wrapper around a client connection keeps the contract of the
      connection it wraps.
    - Headers ([HeaderFacts]): exactly the hop-by-hop headers are kept back.
    - Admission ([AdmissionFacts]): connections are admitted exactly under the
      limits; through requests, sweeps and reloads the open connections stay
      within the largest limits of the configs (within twice that for a client
      that has an entry of its own beside its network's shared one) and do not
      grow while a limit in force is reached; a slot is freed once, and the handlers see the client that was admitted.
    - The access log ([LogFacts]): every line is written or counted.
    - Tunnels ([TunnelFacts]): byte counts are exact, both connections are
      closed once, a closed tunnel ends; what the idle timeout guarantees, and a
      run in which it cuts a tunnel that carried data.

    ** Bounds and fuel

    Recursion is structural nearly everywhere. [Regexp.parse] has fuel, and the
    theorems about generated and well-formed expressions show that the fuel it
    is called with suffices. Transition systems have no fuel: their theorems
    are about all reachable states. The tables of the program have their real
    bounds as constants (100000 clients, 10000 cached names, ...).

    ** What is not modelled

    Regular expressions outside the fragment of [Regexp] are compiled by the
    parameter [engine]. The operating system's resolver, the network and the
    operating system's [io.Copy] answer arbitrarily; the YAML decoder and
    zerolog's level parser are parameters of [Config.Parse]. Of net/http, the
    server decides when handlers run and whether a connection can be taken over
    and the file watcher which events it reports, which are arguments; a
    transport is its settings. What Shutdown does to open connections is
    net/http's. The policy's resolver is any instance of [Policy.Resolver] whose
    addresses fit their width ([ProxyFacts.wf_resolver]), which every instance
    of [CacheSpec.Cached] is. In [Tunnel], wall clock and monotonic clock are
    one. A float64 expression is computed with a rounding after every operation,
    as on amd64; Go may fuse a product and a sum on other architectures. Which
    log levels are enabled is an argument of each operation that logs, and
    does not change during one. Of log lines outside the access log, [Proxy.log_line] keeps the message
    and the error. Flags are parsed by the library; the time formats of the log
    are zerolog's. *)

From Stdlib Require Import ZArith NArith Ascii String Lia Bool List.
From stdpp Require Import base tactics list gmap strings option countable.

Set Default Goal Selector "!".

(** ** Go strings

    A Go string is an immutable sequence of bytes. It is modelled as a list of
    8-bit characters; [str] turns a literal into such a list. *)

Abbreviation gostring := (list ascii).

Definition str (s : String.string) : gostring := String.list_ascii_of_string s.
Arguments str !s / : simpl nomatch.

Declare Scope go_scope.
Delimit Scope go_scope with go.
Notation "@@ s" := (str s%string) (at level 1, s at level 0, only parsing) : go_scope.
Open Scope go_scope.

(** The numeric value of a byte, in [0, 255]. *)
Definition code (c : ascii) : Z := Z.of_N (N_of_ascii c).

Lemma code_range c : (0 <= code c < 256)%Z.
Proof. unfold code. pose proof (N_ascii_bounded c). lia. Qed.

Lemma code_inj c d : code c = code d -> c = d.
Proof.
  unfold code. intros H. apply (f_equal Z.to_N) in H. rewrite !N2Z.id in H.
  rewrite <- (ascii_N_embedding c), <- (ascii_N_embedding d). by rewrite H.
Qed.

(** ** Errors and results

    Go functions that return [(T, error)] are modelled by [result T]: the
    source never uses the value when the error is non-nil. Errors keep the
    structure the program inspects ([errors.Is], [errors.As]) and otherwise
    the literal text of the source. *)
Inductive error :=
| ENew (msg : gostring)                  (* errors.New(msg) *)
| EWrap (ctx : gostring) (e : error)     (* fmt.Errorf("ctx: %w", e) *)
| EInvalidChar (c : ascii)               (* fmt.Errorf("invalid character %q", c) *)
| EHostBits                              (* fmt.Errorf("host bits set (did you mean ...)") *)
| ENetip (input msg : gostring)          (* an error of net/netip's parsers *)
| ERegexp (expr : gostring)              (* an error of regexp.Compile *)
| EDns (not_found : bool) (id : nat)     (* *net.DNSError with IsNotFound *)
| EOther (id : nat)                      (* an error of code outside the program *)
| ECanceled                              (* context.Canceled *)
| EDeadline                              (* context.DeadlineExceeded, os.ErrDeadlineExceeded *)
| EClosed                                (* net.ErrClosed *)
| EJoin (es : list error)                (* errors.Join(es...) *)
| EPanic.                                (* a run-time panic, not an error value *)

(** [errors.Is] for a target that is recognized by [p]. *)
Fixpoint errors_Is (p : error -> bool) (e : error) : bool :=
  p e || match e with EWrap _ e => errors_Is p e | EJoin es => existsb (errors_Is p) es | _ => false end.

Inductive result (A : Type) :=
| Ok (a : A)
| Err (e : error).
Arguments Ok {A} a.
Arguments Err {A} e.

Definition rbind {A B} (r : result A) (k : A -> result B) : result B :=
  match r with Ok a => k a | Err e => Err e end.

(** [if err != nil { return fmt.Errorf("ctx: %w", err) }] *)
Definition rwrap {A} (ctx : gostring) (r : result A) : result A :=
  match r with Ok a => Ok a | Err e => Err (EWrap ctx e) end.

Notation "'let*' x := r 'in' k" := (rbind r (fun x => k))
  (at level 10, x pattern, r at level 100, k at level 200) : go_scope.

Definition is_ok {A} (r : result A) : bool := match r with Ok _ => true | Err _ => false end.

(** Go's [for _, x := range xs { y, err := f(x); ...; out = append(out, y) }]. *)
Fixpoint mapM_result {A B} (f : A -> result B) (xs : list A) : result (list B) :=
  match xs with
  | [] => Ok []
  | x :: xs => let* y := f x in let* ys := mapM_result f xs in Ok (y :: ys)
  end.

Lemma mapM_result_Ok {A B} (f : A -> result B) xs ys :
  mapM_result f xs = Ok ys <-> Forall2 (fun x y => f x = Ok y) xs ys.
Proof.
  split.
  - revert ys. induction xs as [|x xs IH]; intros ys; simpl.
    + intros [= <-]. constructor.
    + destruct (f x) eqn:Hf; simpl; [|done].
      destruct (mapM_result f xs) eqn:Hm; simpl; [|done].
      intros [= <-]. constructor; auto.
  - induction 1 as [|x y xs ys Hf _ IH]; simpl; [done|]. by rewrite Hf; simpl; rewrite IH.
Qed.

Lemma rbind_Ok {A B} (r : result A) (k : A -> result B) b :
  rbind r k = Ok b <-> exists a, r = Ok a /\ k a = Ok b.
Proof. destruct r; simpl; naive_solver. Qed.

Lemma rwrap_Ok {A} ctx (r : result A) a : rwrap ctx r = Ok a <-> r = Ok a.
Proof. destruct r; simpl; naive_solver. Qed.

(** ** Proof automation *)

Create HintDb goacl.

(** Inverts a chain of [let*] that returned [Ok]. *)
Ltac inv_ok :=
  repeat match goal with
  | H : rbind _ _ = Ok _ |- _ => apply rbind_Ok in H; destruct H as (? & ? & H)
  | H : rwrap _ _ = Ok _ |- _ => apply rwrap_Ok in H
  | H : Ok _ = Ok _ |- _ => injection H as H; try subst
  | H : Err _ = Ok _ |- _ => discriminate H
  | H : Ok _ = Err _ |- _ => discriminate H
  end.

(** Splits boolean conjunctions in hypotheses. *)
Ltac split_bools :=
  repeat match goal with
  | H : (_ && _)%bool = true |- _ => apply andb_true_iff in H; destruct H
  | H : (_ || _)%bool = false |- _ => apply orb_false_iff in H; destruct H
  | H : negb _ = true |- _ => apply negb_true_iff in H
  | H : negb _ = false |- _ => apply negb_false_iff in H
  end.

(** ** Generic lemmas on lists *)

Section list_lemmas.
Context {A : Type}.
Implicit Types (l : list A) (f : A -> bool).

Lemma existsb_false_Forall f l : existsb f l = false <-> Forall (fun x => f x = false) l.
Proof.
  induction l as [|x l IH]; simpl; [split; [constructor|done]|].
  by rewrite orb_false_iff, Forall_cons_iff, IH.
Qed.

Lemma find_Some_iff f l x :
  List.find f l = Some x <-> exists l1 l2, l = l1 ++ x :: l2 /\ f x = true /\ Forall (fun y => f y = false) l1.
Proof.
  split.
  - induction l as [|y l IH]; simpl; [done|].
    destruct (f y) eqn:Hf.
    + intros [= ->]. exists [], l. split_and!; [done..|constructor].
    + intros (l1 & l2 & -> & Hx & Hl)%IH. exists (y :: l1), l2. split_and!; [done..|by constructor].
  - intros (l1 & l2 & -> & Hx & Hl). induction Hl as [|y l1 Hy _ IH]; simpl; [by rewrite Hx|].
    by rewrite Hy.
Qed.

Lemma find_is_Some f l : is_Some (List.find f l) <-> exists x, x ∈ l /\ f x = true.
Proof.
  split.
  - intros [x Hx]. apply List.find_some in Hx as [Hin Hf]. exists x. by rewrite list_elem_of_In.
  - intros (x & Hin & Hf). destruct (List.find f l) eqn:E; [eauto|].
    rewrite list_elem_of_In in Hin. by rewrite (List.find_none _ _ E _ Hin) in Hf.
Qed.

Lemma head_Some_cons l x : head l = Some x <-> exists t, l = x :: t.
Proof. destruct l; simpl; naive_solver. Qed.
End list_lemmas.

(** Corresponding lists have a corresponding element. *)
Lemma Forall2_exists_iff {A B} (R : A -> B -> Prop) (P : A -> Prop) (Q : B -> Prop) xs ys :
  Forall2 R xs ys -> (forall x y, R x y -> P x <-> Q y) -> (exists x, x ∈ xs /\ P x) <-> (exists y, y ∈ ys /\ Q y).
Proof.
  intros H HR. split; intros (z & [i Hi]%list_elem_of_lookup & Hz).
  - destruct (Forall2_lookup_l _ _ _ _ _ H Hi) as (y & Hy & Hr). exists y. rewrite <- (HR _ _ Hr).
    eauto using list_elem_of_lookup_2.
  - destruct (Forall2_lookup_r _ _ _ _ _ H Hi) as (x & Hx & Hr). exists x. rewrite (HR _ _ Hr).
    eauto using list_elem_of_lookup_2.
Qed.
