(* ===== verification/GoStrings.v ===== *)
(** * The part of Go's [strings] and [strconv] packages the program uses

    Every function works on byte lists and keeps the name it has in Go. The
    file also proves what the other files need of them: the characterisation
    of prefixes and of splitting at a separator, and the round trip between
    decimal printing and parsing. *)

From Stdlib Require Import ZArith NArith Ascii String Lia Bool List.
From stdpp Require Import base tactics list strings option sets.
From S2P Require Import Prelude.

Local Open Scope Z_scope.

(** ** Character classes *)

(** [lo <= c && c <= hi] on byte values. *)
Definition in_range (lo hi c : ascii) : bool := (code lo <=? code c) && (code c <=? code hi).

Definition is_digit (c : ascii) : bool := in_range "0" "9" c.
Definition is_lower (c : ascii) : bool := in_range "a" "z" c.
Definition is_upper (c : ascii) : bool := in_range "A" "Z" c.

(** Case split on all 256 bytes, for facts that are decided by evaluation. *)
Ltac all_bytes c := destruct c as [[] [] [] [] [] [] [] []].

(** [unicode.ToLower] on an ASCII byte; other bytes are kept. The program
    lowercases only strings that [checkHostChars] has accepted, which are
    ASCII. *)
Definition to_lower_byte (c : ascii) : ascii :=
  if is_upper c then ascii_of_N (N_of_ascii c + 32) else c.
Definition ToLower (s : gostring) : gostring := to_lower_byte <$> s.

Lemma to_lower_byte_idemp c : to_lower_byte (to_lower_byte c) = to_lower_byte c.
Proof. by all_bytes c. Qed.

Lemma ToLower_idemp s : ToLower (ToLower s) = ToLower s.
Proof. unfold ToLower. rewrite <- list_fmap_compose. apply list_fmap_ext. intros ???. apply to_lower_byte_idemp. Qed.

Lemma ToLower_app s t : ToLower (s ++ t) = ToLower s ++ ToLower t.
Proof. apply fmap_app. Qed.

Lemma length_ToLower s : length (ToLower s) = length s.
Proof. apply length_fmap. Qed.

(** ** Prefixes, suffixes and cutting *)

(** [strings.CutPrefix]: the rest of [s] after [p], if [s] starts with it. *)
Fixpoint CutPrefix (s p : gostring) {struct p} : option gostring :=
  match p, s with
  | [], _ => Some s
  | a :: p, b :: s => if Ascii.eqb a b then CutPrefix s p else None
  | _ :: _, [] => None
  end.

Definition HasPrefix (s p : gostring) : bool :=
  match CutPrefix s p with Some _ => true | None => false end.

Definition CutSuffix (s p : gostring) : option gostring :=
  rev (A:=ascii) <$> CutPrefix (rev s) (rev p).

(** [strings.TrimSuffix]: removes one trailing [p]. *)
Definition TrimSuffix (s p : gostring) : gostring :=
  match CutSuffix s p with Some r => r | None => s end.

Lemma CutPrefix_Some s p r : CutPrefix s p = Some r <-> s = p ++ r.
Proof.
  revert s. induction p as [|a p IH]; intros s; simpl; [naive_solver|].
  destruct s as [|b s]; [naive_solver|].
  destruct (Ascii.eqb_spec a b) as [->|Hne]; [|naive_solver].
  rewrite IH. naive_solver.
Qed.

Lemma CutPrefix_app p r : CutPrefix (p ++ r) p = Some r.
Proof. by apply CutPrefix_Some. Qed.

Lemma CutPrefix_None s p : CutPrefix s p = None <-> forall r, s <> p ++ r.
Proof.
  destruct (CutPrefix s p) as [r|] eqn:E.
  - apply CutPrefix_Some in E. naive_solver.
  - split; [|done]. intros _ r ->. by rewrite CutPrefix_app in E.
Qed.

Lemma HasPrefix_true s p : HasPrefix s p = true <-> exists r, s = p ++ r.
Proof.
  unfold HasPrefix. destruct (CutPrefix s p) as [r|] eqn:E.
  - apply CutPrefix_Some in E. naive_solver.
  - rewrite CutPrefix_None in E. naive_solver.
Qed.

Lemma CutSuffix_Some s p r : CutSuffix s p = Some r <-> s = r ++ p.
Proof.
  unfold CutSuffix. rewrite fmap_Some. setoid_rewrite CutPrefix_Some. split.
  - intros (x & Hs & ->). rewrite <- (rev_involutive s), Hs, rev_app_distr. by rewrite rev_involutive.
  - intros ->. exists (rev r). by rewrite rev_app_distr, rev_involutive.
Qed.

Lemma TrimSuffix_app s p : TrimSuffix (s ++ p) p = s.
Proof. unfold TrimSuffix. by rewrite (proj2 (CutSuffix_Some _ _ s)). Qed.

Lemma TrimSuffix_cases s p : s = TrimSuffix s p ++ p \/ (TrimSuffix s p = s /\ forall r, s <> r ++ p).
Proof.
  unfold TrimSuffix. destruct (CutSuffix s p) as [r|] eqn:E.
  - left. by apply CutSuffix_Some.
  - right. split; [done|]. intros r Hr. by rewrite (proj2 (CutSuffix_Some _ _ r) Hr) in E.
Qed.

(** ** Searching for a byte *)

(** [strings.IndexByte], with [None] for -1. *)
Fixpoint IndexByte (s : gostring) (c : ascii) : option nat :=
  match s with
  | [] => None
  | a :: s => if Ascii.eqb a c then Some O else S <$> IndexByte s c
  end.

(** [strings.Contains(s, string(c))] for a one-byte needle. *)
Definition ContainsByte (s : gostring) (c : ascii) : bool := existsb (Ascii.eqb c) s.

Definition ContainsAny (s chars : gostring) : bool := existsb (ContainsByte s) chars.

Lemma ContainsByte_true s c : ContainsByte s c = true <-> c ∈ s.
Proof.
  unfold ContainsByte. rewrite existsb_exists. setoid_rewrite Ascii.eqb_eq.
  rewrite list_elem_of_In. naive_solver.
Qed.

Lemma ContainsByte_false s c : ContainsByte s c = false <-> c ∉ s.
Proof. rewrite <- ContainsByte_true. by destruct (ContainsByte s c). Qed.

Lemma IndexByte_Some s c i :
  IndexByte s c = Some i <-> exists l r, s = l ++ c :: r /\ length l = i /\ c ∉ l.
Proof.
  revert i. induction s as [|a s IH]; intros i; simpl.
  - split; [done|]. intros (l & r & Hl & _). by destruct l.
  - destruct (Ascii.eqb_spec a c) as [->|Hne].
    + split.
      * intros [= <-]. exists [], s. split_and!; [done..|apply not_elem_of_nil].
      * intros (l & r & Hl & <- & Hin). destruct l as [|x l]; [done|].
        injection Hl as -> _. exfalso. apply Hin. left.
    + rewrite fmap_Some. setoid_rewrite IH. split.
      * intros (j & (l & r & -> & <- & Hin) & ->). exists (a :: l), r. split_and!; [done..|].
        apply not_elem_of_cons. naive_solver.
      * intros (l & r & Hl & <- & Hin). destruct l as [|x l]; [naive_solver|].
        injection Hl as -> ->. apply not_elem_of_cons in Hin as [_ Hin]. exists (length l). naive_solver.
Qed.

Lemma IndexByte_None s c : IndexByte s c = None <-> c ∉ s.
Proof.
  destruct (IndexByte s c) as [i|] eqn:E.
  - apply IndexByte_Some in E as (l & r & -> & _). split; [done|]. intros []. apply elem_of_app. right. left.
  - split; [|done]. intros _ (l & r & Hs & Hin)%list_elem_of_split_l.
    by rewrite (proj2 (IndexByte_Some s c (length l))) in E by eauto.
Qed.

(** [strings.Cut(s, string(c))]: before, after, found. *)
Definition Cut (s : gostring) (c : ascii) : gostring * gostring * bool :=
  match IndexByte s c with
  | Some i => (take i s, drop (S i) s, true)
  | None => (s, [], false)
  end.

(** ** Splitting at a one-byte separator *)

(** [strings.Split(s, string(c))]. *)
Fixpoint Split (s : gostring) (c : ascii) : list gostring :=
  match s with
  | [] => [[]]
  | a :: s =>
      if Ascii.eqb a c then [] :: Split s c
      else match Split s c with
           | l :: ls => (a :: l) :: ls
           | [] => [[a]]
           end
  end.

(** [strings.Join(ls, string(c))]. *)
Fixpoint Join (ls : list gostring) (c : ascii) : gostring :=
  match ls with
  | [] => []
  | [l] => l
  | l :: ls => l ++ c :: Join ls c
  end.

Lemma Split_nonempty s c : Split s c <> [].
Proof. destruct s as [|a s]; simpl; [done|]. destruct (Ascii.eqb a c); [done|]. by destruct (Split s c). Qed.

Lemma Join_cons l ls c : ls <> [] -> Join (l :: ls) c = l ++ c :: Join ls c.
Proof. by destruct ls. Qed.

Lemma Join_Split s c : Join (Split s c) c = s.
Proof.
  induction s as [|a s IH]; [done|]. cbn [Split].
  destruct (Ascii.eqb_spec a c) as [->|Hne].
  - rewrite Join_cons by apply Split_nonempty. simpl. by rewrite IH.
  - destruct (Split s c) as [|l ls] eqn:E; [by apply Split_nonempty in E|].
    destruct ls as [|l' ls].
    + simpl in *. by rewrite IH.
    + rewrite Join_cons in IH by done. rewrite Join_cons by done. by rewrite <- IH.
Qed.

Lemma Split_no_sep s c l : l ∈ Split s c -> c ∉ l.
Proof.
  revert l. induction s as [|a s IH]; intros l; simpl.
  - intros ->%list_elem_of_singleton. apply not_elem_of_nil.
  - destruct (Ascii.eqb_spec a c) as [->|Hne].
    + intros [->|Hin]%elem_of_cons; [apply not_elem_of_nil|auto].
    + destruct (Split s c) as [|l' ls].
      * intros ->%list_elem_of_singleton. set_solver.
      * intros [->|Hin]%elem_of_cons.
        -- apply not_elem_of_cons. split; [done|]. apply IH. left.
        -- apply IH. by right.
Qed.

Lemma Split_app_sep l s c : c ∉ l -> Split (l ++ c :: s) c = l :: Split s c.
Proof.
  induction l as [|a l IH]; intros Hin; simpl.
  - by rewrite Ascii.eqb_refl.
  - apply not_elem_of_cons in Hin as [Hne Hin]. rewrite (IH Hin).
    destruct (Ascii.eqb_spec a c) as [->|_]; [done|done].
Qed.

Lemma Split_no_occ l c : c ∉ l -> Split l c = [l].
Proof.
  induction l as [|a l IH]; intros Hin; simpl; [done|].
  apply not_elem_of_cons in Hin as [Hne Hin]. rewrite (IH Hin).
  by destruct (Ascii.eqb_spec a c) as [->|_].
Qed.

Lemma Split_Join ls c : ls <> [] -> Forall (fun l => c ∉ l) ls -> Split (Join ls c) c = ls.
Proof.
  intros Hne Hall. induction Hall as [|l ls Hl Hall IH]; [done|].
  destruct ls as [|l' ls]; [by apply Split_no_occ|].
  rewrite Join_cons by done. rewrite Split_app_sep by done. by rewrite IH.
Qed.

(** ** Replacing *)

(** [strings.ReplaceAll(s, old, new)] for a non-empty [old]: non-overlapping
    occurrences from the left. [skip] counts the bytes of an occurrence that
    remain to be passed over. *)
Fixpoint replace_from (old new : gostring) (skip : nat) (s : gostring) : gostring :=
  match s with
  | [] => []
  | a :: s' =>
      match skip with
      | S k => replace_from old new k s'
      | O => if HasPrefix s old then new ++ replace_from old new (pred (length old)) s'
             else a :: replace_from old new O s'
      end
  end.
Definition ReplaceAll (s old new : gostring) : gostring := replace_from old new O s.

(** ** White space *)

(** The UTF-8 encodings of the code points for which [unicode.IsSpace] holds. *)
Definition byte (n : N) : ascii := ascii_of_N n.
Definition space_runes : list gostring :=
  [[byte 9]; [byte 10]; [byte 11]; [byte 12]; [byte 13]; [byte 32];
   [byte 0xC2; byte 0x85]; [byte 0xC2; byte 0xA0]; [byte 0xE1; byte 0x9A; byte 0x80]] ++
  ((fun i => [byte 0xE2; byte 0x80; byte (0x80 + N.of_nat i)]) <$> seq 0 11) ++
  [[byte 0xE2; byte 0x80; byte 0xA8]; [byte 0xE2; byte 0x80; byte 0xA9];
   [byte 0xE2; byte 0x80; byte 0xAF]; [byte 0xE2; byte 0x81; byte 0x9F];
   [byte 0xE3; byte 0x80; byte 0x80]].

Fixpoint strip_one (runes : list gostring) (s : gostring) : option gostring :=
  match runes with
  | [] => None
  | r :: runes => match CutPrefix s r with Some t => Some t | None => strip_one runes s end
  end.

(** Removing a rune shortens the string, so [length s] rounds are enough. *)
Fixpoint trim_runes (fuel : nat) (runes : list gostring) (s : gostring) : gostring :=
  match fuel with
  | O => s
  | S n => match strip_one runes s with Some t => trim_runes n runes t | None => s end
  end.

Definition TrimLeft_space (s : gostring) : gostring := trim_runes (length s) space_runes s.
Definition TrimRight_space (s : gostring) : gostring :=
  rev (trim_runes (length s) (rev (A:=ascii) <$> space_runes) (rev s)).
Definition TrimSpace (s : gostring) : gostring := TrimRight_space (TrimLeft_space s).

(** ** Decimal numbers *)

Definition digit_char (d : Z) : ascii := ascii_of_N (48 + Z.to_N d).
Definition digit_val (c : ascii) : Z := code c - 48.

Fixpoint itoa_digits (fuel : nat) (n : Z) (acc : gostring) : gostring :=
  match fuel with
  | O => acc
  | S f => let acc := digit_char (n mod 10) :: acc in
           if n <? 10 then acc else itoa_digits f (n / 10) acc
  end.

(** [strconv.Itoa]; 20 digits cover every 64-bit integer. *)
Definition Itoa (n : Z) : gostring :=
  if n <? 0 then "-"%char :: itoa_digits 20 (- n) [] else itoa_digits 20 n [].

(** [strconv.Atoi] on a string of decimal digits (its fast path, for strings
    short enough not to overflow). *)
Definition atoi_digits (s : gostring) : Z :=
  fold_left (fun n c => n * 10 + digit_val c) s 0.

Lemma is_digit_spec c : is_digit c = true <-> 0 <= digit_val c < 10.
Proof.
  unfold is_digit, in_range, digit_val. change (code "0") with 48. change (code "9") with 57.
  rewrite andb_true_iff, !Z.leb_le. lia.
Qed.

Lemma digit_char_val c : is_digit c = true -> digit_char (digit_val c) = c.
Proof. all_bytes c; done. Qed.

Lemma digit_val_char d : 0 <= d < 10 -> digit_val (digit_char d) = d.
Proof.
  intros Hd. unfold digit_val, digit_char, code. rewrite N_ascii_embedding by lia. lia.
Qed.

Lemma digit_char_is_digit d : 0 <= d < 10 -> is_digit (digit_char d) = true.
Proof. intros Hd. apply is_digit_spec. rewrite digit_val_char by done. lia. Qed.

Lemma atoi_digits_snoc s c : atoi_digits (s ++ [c]) = atoi_digits s * 10 + digit_val c.
Proof. unfold atoi_digits. by rewrite fold_left_app. Qed.

Lemma itoa_digits_app f n acc : itoa_digits f n acc = itoa_digits f n [] ++ acc.
Proof.
  revert n acc. induction f as [|f IH]; intros n acc; cbn -[Z.modulo Z.div Z.ltb]; [done|].
  destruct (n <? 10); [done|].
  rewrite (IH _ (_ :: acc)), (IH _ [_]). by rewrite <- app_assoc.
Qed.

Lemma itoa_digits_S f n :
  itoa_digits (S f) n [] =
  (if n <? 10 then [] else itoa_digits f (n / 10) []) ++ [digit_char (n mod 10)].
Proof. cbn -[Z.modulo Z.div Z.ltb]. destruct (n <? 10); [done|]. apply itoa_digits_app. Qed.

(** [n] is the value of a digit string without leading zero. *)
Definition canonical_digits (s : gostring) : Prop :=
  s <> [] /\ Forall (fun c => is_digit c = true) s /\ (head s = Some "0"%char -> s = ["0"%char]).

Lemma atoi_itoa f n : 0 <= n < 10 ^ Z.of_nat f -> atoi_digits (itoa_digits f n []) = n.
Proof.
  revert n. induction f as [|f IH]; intros n Hn; [cbn in *; lia|].
  rewrite itoa_digits_S, atoi_digits_snoc, digit_val_char by (apply Z.mod_pos_bound; lia).
  destruct (Z.ltb_spec n 10).
  - cbn. rewrite Z.mod_small; lia.
  - rewrite IH; [pose proof (Z.div_mod n 10); lia|].
    rewrite Nat2Z.inj_succ, Z.pow_succ_r in Hn by lia. split; [apply Z.div_pos; lia|].
    apply Z.div_lt_upper_bound; lia.
Qed.

Lemma itoa_digits_all f n : 0 <= n -> Forall (fun c => is_digit c = true) (itoa_digits f n []).
Proof.
  revert n. induction f as [|f IH]; intros n Hn; [constructor|].
  rewrite itoa_digits_S. apply Forall_app_2.
  - destruct (n <? 10); [constructor|]. apply IH. apply Z.div_pos; lia.
  - repeat constructor. apply digit_char_is_digit, Z.mod_pos_bound. lia.
Qed.

Lemma itoa_digits_head f n : 0 < n -> head (itoa_digits (S f) n []) <> Some "0"%char \/ 10 ^ Z.of_nat (S f) <= n.
Proof.
  revert n. induction f as [|f IH]; intros n Hn; rewrite itoa_digits_S; destruct (Z.ltb_spec n 10) as [Hlt|Hge].
  1,3: left; rewrite Z.mod_small by lia; assert (n = 1 \/ n = 2 \/ n = 3 \/ n = 4 \/ n = 5 \/ n = 6 \/ n = 7 \/ n = 8 \/ n = 9)
    as [->|[->|[->|[->|[->|[->|[->|[->| ->]]]]]]]] by lia; done.
  - right. simpl. lia.
  - destruct (IH (n / 10)) as [Hh|Hb]; [apply Z.div_str_pos; lia| |].
    + left. rewrite itoa_digits_S in *. by destruct (if n / 10 <? 10 then _ else _).
    + right. rewrite Nat2Z.inj_succ, Z.pow_succ_r by lia.
      pose proof (Z.mul_div_le n 10). lia.
Qed.

Lemma itoa_atoi s :
  canonical_digits s ->
  forall f, (length s <= f)%nat -> itoa_digits f (atoi_digits s) [] = s /\ (s <> ["0"%char] -> 0 < atoi_digits s).
Proof.
  induction s as [|c s IH] using rev_ind; intros (Hne & Hall & Hz) f Hf; [done|].
  rewrite length_app in Hf. simpl in Hf. destruct f as [|f]; [lia|].
  apply Forall_app in Hall as [Hs Hc]. inversion Hc as [|? ? Hc1 _]; subst; clear Hc; rename Hc1 into Hc.
  pose proof (proj1 (is_digit_spec c) Hc) as Hcv.
  rewrite atoi_digits_snoc, itoa_digits_S.
  destruct s as [|d s].
  - change (atoi_digits []) with 0. rewrite Z.mul_0_l, Z.add_0_l, (proj2 (Z.ltb_lt _ _)) by lia.
    rewrite Z.mod_small, digit_char_val by (done || lia). split; [done|]. intros Hne0. assert (digit_val c <> 0); [|lia].
    intros H0. apply Hne0. by rewrite <- (digit_char_val c Hc), H0.
  - assert (Hd : d <> "0"%char) by (intros ->; specialize (Hz eq_refl); by destruct s).
    destruct (IH ltac:(split_and!; [done..|intros [= ->]; done]) f ltac:(simpl in *; lia)) as [IH1 IH2].
    specialize (IH2 ltac:(intros [= ->]; done)).
    rewrite (proj2 (Z.ltb_ge _ _)) by lia.
    rewrite Z.mul_comm, Z.add_comm, Z.mul_comm, Z.div_add, Z.div_small, Z.add_0_l, IH1 by lia.
    rewrite Z.mod_add, Z.mod_small, digit_char_val by (done || lia). split; [done|lia].
Qed.

(** Decimal printing and parsing are inverse on canonical digit strings. *)
Lemma Itoa_atoi s : canonical_digits s -> (length s <= 20)%nat -> Itoa (atoi_digits s) = s.
Proof.
  intros Hs Hlen. destruct (itoa_atoi s Hs 20 Hlen) as [Heq Hpos]. unfold Itoa.
  rewrite (proj2 (Z.ltb_ge _ _)); [done|].
  destruct (decide (s = ["0"%char])) as [->|Hne]; [done|]. specialize (Hpos Hne). lia.
Qed.

Lemma atoi_Itoa n : 0 <= n < 10 ^ 20 -> atoi_digits (Itoa n) = n.
Proof. intros Hn. unfold Itoa. rewrite (proj2 (Z.ltb_ge _ _)) by lia. by apply atoi_itoa. Qed.

Lemma Itoa_inj n m : 0 <= n < 10 ^ 20 -> 0 <= m < 10 ^ 20 -> Itoa n = Itoa m -> n = m.
Proof. intros Hn Hm E. rewrite <- (atoi_Itoa n Hn), <- (atoi_Itoa m Hm). by rewrite E. Qed.

Lemma Itoa_digits n : 0 <= n -> Forall (fun c => is_digit c = true) (Itoa n).
Proof. intros Hn. unfold Itoa. rewrite (proj2 (Z.ltb_ge _ _)) by lia. by apply itoa_digits_all. Qed.

Lemma Itoa_head n : 0 < n < 10 ^ 20 -> head (Itoa n) <> Some "0"%char.
Proof.
  intros Hn. unfold Itoa. rewrite (proj2 (Z.ltb_ge _ _)) by lia.
  destruct (itoa_digits_head 19 n) as [H|H]; [lia|done|]. simpl in H. lia.
Qed.

Lemma itoa_digits_length f n k : (k < f)%nat -> 0 <= n < 10 ^ Z.of_nat (S k) -> (1 <= length (itoa_digits f n []) <= S k)%nat.
Proof.
  revert n k. induction f as [|f IH]; intros n k Hk Hn; [lia|].
  rewrite itoa_digits_S, length_app. simpl. destruct (Z.ltb_spec n 10); [simpl; lia|].
  destruct k as [|k]; [simpl in Hn; lia|].
  destruct (IH (n / 10) k) as [H1 H2]; [lia| |lia].
  rewrite Nat2Z.inj_succ, Z.pow_succ_r in Hn by lia. split; [apply Z.div_pos; lia|].
  apply Z.div_lt_upper_bound; lia.
Qed.

Lemma Itoa_length n k : (k < 20)%nat -> 0 <= n < 10 ^ Z.of_nat (S k) -> (1 <= length (Itoa n) <= S k)%nat.
Proof. intros Hk Hn. unfold Itoa. rewrite (proj2 (Z.ltb_ge _ _)) by lia. by apply itoa_digits_length. Qed.
