(* ===== verification/Netip.v ===== *)
(** * The part of Go's [net/netip] the program uses

    [Addr] is an IPv4 address, an IPv6 address with an optional zone, or the
    zero value; [Prefix] is an address and a prefix length. The parsers follow
    the control flow of the library's [parseIPv4Fields] and [parseIPv6]; the
    two forms of [Prefix.Contains] (shift for IPv4, mask for IPv6) are kept and
    shown to mean the same thing. *)

From Stdlib Require Import ZArith NArith Ascii String Lia Bool List.
From stdpp Require Import base tactics list strings option sets countable.
From S2P Require Import Prelude GoStrings.

Local Open Scope Z_scope.

(** ** Addresses *)

Inductive Addr :=
| AddrZero                               (* the zero Addr, not valid *)
| Addr4 (v : Z)                          (* 32 bits *)
| Addr6 (v : Z) (zone : gostring).       (* 128 bits; the empty zone is none *)

#[global] Instance Addr_eq_dec : EqDecision Addr.
Proof. solve_decision. Defined.

#[global] Instance Addr_countable : Countable Addr.
Proof.
  refine (inj_countable'
    (fun a => match a with AddrZero => inl tt | Addr4 v => inr (inl v) | Addr6 v z => inr (inr (v, z)) end)
    (fun x => match x with inl _ => AddrZero | inr (inl v) => Addr4 v | inr (inr (v, z)) => Addr6 v z end) _).
  by intros [].
Defined.

(** The integer an address stands for fits its width. *)
Definition wf_addr (a : Addr) : bool :=
  match a with
  | AddrZero => true
  | Addr4 v => (0 <=? v) && (v <? 2 ^ 32)
  | Addr6 v _ => (0 <=? v) && (v <? 2 ^ 128)
  end.

Definition IsValid (a : Addr) : bool := match a with AddrZero => false | _ => true end.
Definition Is4 (a : Addr) : bool := match a with Addr4 _ => true | _ => false end.
Definition Is6 (a : Addr) : bool := match a with Addr6 _ _ => true | _ => false end.
Definition Zone (a : Addr) : gostring := match a with Addr6 _ z => z | _ => [] end.
Definition withoutZone (a : Addr) : Addr := match a with Addr6 v _ => Addr6 v [] | _ => a end.
Definition BitLen (a : Addr) : Z := match a with AddrZero => 0 | Addr4 _ => 32 | Addr6 _ _ => 128 end.
Definition addr_val (a : Addr) : Z := match a with AddrZero => 0 | Addr4 v => v | Addr6 v _ => v end.

Definition Is4In6 (a : Addr) : bool :=
  match a with Addr6 v _ => Z.shiftr v 32 =? 0xffff | _ => false end.

(** IPv4-mapped IPv6 addresses become plain IPv4 addresses (the zone goes). *)
Definition Unmap (a : Addr) : Addr :=
  match a with
  | Addr6 v _ => if Z.shiftr v 32 =? 0xffff then Addr4 (Z.land v (Z.ones 32)) else a
  | _ => a
  end.

(** ** Parsing addresses *)

Definition netip_err {A} (input : gostring) (msg : String.string) : result A := Err (ENetip input (str msg)).

(** The loop of [parseIPv4Fields]: [prev] is the byte before the current one,
    [fields] the octets already read. *)
Fixpoint parse_v4_loop (inp s : gostring) (prev : option ascii) (val digLen : Z) (fields : list Z) : result (list Z) :=
  match s with
  | [] => if (length fields <? 3)%nat then netip_err inp "IPv4 address too short" else Ok (fields ++ [val])
  | c :: rest =>
      if is_digit c then
        if (digLen =? 1) && (val =? 0) then netip_err inp "IPv4 field has octet with leading zero"
        else let val := val * 10 + digit_val c in
             if 255 <? val then netip_err inp "IPv4 field has value >255"
             else parse_v4_loop inp rest (Some c) val (digLen + 1) fields
      else if Ascii.eqb c "." then
        if match prev, rest with
           | None, _ | _, [] => true
           | Some p, _ => Ascii.eqb p "."
           end then netip_err inp "IPv4 field must have at least one digit"
        else if (length fields =? 3)%nat then netip_err inp "IPv4 address too long"
        else parse_v4_loop inp rest (Some c) 0 0 (fields ++ [val])
      else netip_err inp "unexpected character"
  end.

Definition parseIPv4Fields (inp s : gostring) : result (list Z) := parse_v4_loop inp s None 0 0 [].

(** Big-endian value of a byte list. *)
Definition be_val (bs : list Z) : Z := fold_left (fun n b => n * 256 + b) bs 0.

Definition parseIPv4 (s : gostring) : result Addr :=
  let* f := parseIPv4Fields s s in Ok (Addr4 (be_val f)).

Definition hex_val (c : ascii) : option Z :=
  if is_digit c then Some (code c - 48)
  else if in_range "a" "f" c then Some (code c - 97 + 10)
  else if in_range "A" "F" c then Some (code c - 65 + 10)
  else None.

(** The inner loop of [parseIPv6]: accumulator, digits read, rest. *)
Fixpoint hex_run (inp s : gostring) (off acc : Z) : result (Z * Z * gostring) :=
  match s with
  | [] => Ok (acc, off, s)
  | c :: rest =>
      match hex_val c with
      | None => Ok (acc, off, s)
      | Some d =>
          let acc := acc * 16 + d in
          if 3 <? off then netip_err inp "each group must have 4 or less digits"
          else if 65535 <? acc then netip_err inp "IPv6 field has value >=2^16"
          else hex_run inp rest (off + 1) acc
      end
  end.

(** The outer loop of [parseIPv6]. Every round that continues appends two of
    the sixteen bytes, so eight rounds are enough. [ell] is the byte position
    of the "::". *)
Fixpoint parse_v6_loop (fuel : nat) (inp s : gostring) (ip : list Z) (ell : option nat)
    : result (list Z * option nat * gostring) :=
  match fuel with
  | O => Ok (ip, ell, s)
  | S fuel =>
      let* (acc, off, rest) := hex_run inp s 0 0 in
      if off =? 0 then netip_err inp "each colon-separated field must have at least one digit" else
      let ip2 := ip ++ [Z.shiftr acc 8; Z.land acc 255] in
      match rest with
      | [] => Ok (ip2, ell, [])
      | c :: rest =>
          if Ascii.eqb c "." then
            if negb (bool_decide (is_Some ell)) && negb (length ip =? 12)%nat
            then netip_err inp "embedded IPv4 address must replace the final 2 fields of the address"
            else if (16 <? length ip + 4)%nat
            then netip_err inp "too many hex fields to fit an embedded IPv4 at the end of the address"
            else let* f := parseIPv4Fields inp s in Ok (ip ++ f, ell, [])
          else if negb (Ascii.eqb c ":") then netip_err inp "unexpected character, want colon"
          else match rest with
               | [] => netip_err inp "colon must be followed by more characters"
               | c2 :: rest2 =>
                   if negb (Ascii.eqb c2 ":") then parse_v6_loop fuel inp rest ip2 ell
                   else match ell, rest2 with
                        | Some _, _ => netip_err inp "multiple :: in address"
                        | None, [] => Ok (ip2, Some (length ip2), [])
                        | None, _ => parse_v6_loop fuel inp rest2 ip2 (Some (length ip2))
                        end
               end
      end
  end.

(** The end of [parseIPv6]: the whole string must have been used, and the "::"
    stands for the missing bytes. *)
Definition finish_v6 (inp : gostring) (zone : gostring) (st : list Z * option nat * gostring) : result Addr :=
  let '(ip, ell, s) := st in
  match s with
  | _ :: _ => netip_err inp "trailing garbage after address"
  | [] =>
      if (length ip <? 16)%nat then
        match ell with
        | None => netip_err inp "address string too short"
        | Some e => Ok (Addr6 (be_val (take e ip ++ replicate (16 - length ip) 0 ++ drop e ip)) zone)
        end
      else match ell with
           | Some _ => netip_err inp "the :: must expand to at least one field of zeros"
           | None => Ok (Addr6 (be_val ip) zone)
           end
  end.

Definition parse_v6_body (inp s zone : gostring) : result Addr :=
  match CutPrefix s (str "::") with
  | Some [] => Ok (Addr6 0 zone)
  | Some s => let* st := parse_v6_loop 8 inp s [] (Some O) in finish_v6 inp zone st
  | None => let* st := parse_v6_loop 8 inp s [] None in finish_v6 inp zone st
  end.

Definition parseIPv6 (inp : gostring) : result Addr :=
  match Cut inp "%" with
  | (s, [], true) => netip_err inp "zone must be a non-empty string"
  | (s, zone, _) => parse_v6_body inp s zone
  end.

(** [netip.ParseAddr] dispatches on the first of '.', ':' and '%'. *)
Fixpoint parse_addr_scan (inp s : gostring) : result Addr :=
  match s with
  | [] => netip_err inp "unable to parse IP"
  | c :: s =>
      if Ascii.eqb c "." then parseIPv4 inp
      else if Ascii.eqb c ":" then parseIPv6 inp
      else if Ascii.eqb c "%" then netip_err inp "missing IPv6 address"
      else parse_addr_scan inp s
  end.
Definition ParseAddr (s : gostring) : result Addr := parse_addr_scan s s.

(** ** Printing addresses *)

Definition v4_octets (v : Z) : list Z :=
  [Z.shiftr v 24; Z.land (Z.shiftr v 16) 255; Z.land (Z.shiftr v 8) 255; Z.land v 255].
Definition string4 (v : Z) : gostring := Join (Itoa <$> v4_octets v) ".".

Definition hex_char (d : Z) : ascii := if d <? 10 then digit_char d else ascii_of_N (97 + Z.to_N (d - 10)).

(** [appendHex]: a 16-bit group without leading zeros. *)
Definition appendHex (x : Z) : gostring :=
  (if 0x1000 <=? x then [hex_char (Z.shiftr x 12)] else []) ++
  (if 0x100 <=? x then [hex_char (Z.land (Z.shiftr x 8) 15)] else []) ++
  (if 0x10 <=? x then [hex_char (Z.land (Z.shiftr x 4) 15)] else []) ++
  [hex_char (Z.land x 15)].

Definition v6_group (v : Z) (i : nat) : Z := Z.land (Z.shiftr v (112 - 16 * Z.of_nat i)) 0xffff.
Definition v6_groups (v : Z) : list Z := v6_group v <$> seq 0 8.

(** Length of the run of zero groups at the start of a list. *)
Fixpoint zero_run (gs : list Z) : nat :=
  match gs with g :: gs => if g =? 0 then S (zero_run gs) else O | [] => O end.

(** The first longest run of at least two zero groups: start and end. *)
Fixpoint best_run (gs : list Z) (i : nat) (best : option (nat * nat)) : option (nat * nat) :=
  match gs with
  | [] => best
  | _ :: gs' =>
      let l := zero_run gs in
      let cur := match best with Some (s, e) => (e - s)%nat | None => O end in
      best_run gs' (S i) (if (2 <=? l)%nat && (cur <? l)%nat then Some (i, (i + l)%nat) else best)
  end.

Definition hex_groups (gs : list Z) : gostring := Join (appendHex <$> gs) ":".

Definition string6 (v : Z) : gostring :=
  let gs := v6_groups v in
  match best_run gs 0 None with
  | None => hex_groups gs
  | Some (s, e) => hex_groups (take s gs) ++ str "::" ++ hex_groups (drop e gs)
  end.

Definition addr_string (a : Addr) : gostring :=
  match a with
  | AddrZero => str "invalid IP"
  | Addr4 v => string4 v
  | Addr6 v z =>
      (if Is4In6 a then str "::ffff:" ++ string4 (Z.land v (Z.ones 32)) else string6 v) ++
      match z with [] => [] | _ => "%"%char :: z end
  end.

(** ** Prefixes *)

(** A prefix length of -1 stands for the invalid prefix ([bitsPlusOne = 0]). *)
Record Prefix := mkPrefix { pfx_addr : Addr; pfx_bits : Z }.

#[global] Instance Prefix_eq_dec : EqDecision Prefix.
Proof. solve_decision. Defined.

#[global] Instance Prefix_countable : Countable Prefix.
Proof.
  refine (inj_countable' (fun p => (pfx_addr p, pfx_bits p)) (fun x => mkPrefix (fst x) (snd x)) _).
  by intros [].
Defined.

Definition Prefix_zero : Prefix := mkPrefix AddrZero (-1).
Definition Prefix_IsValid (p : Prefix) : bool := 0 <=? pfx_bits p.

Definition PrefixFrom (ip : Addr) (bits : Z) : Prefix :=
  mkPrefix (withoutZone ip)
    (if IsValid ip && (0 <=? bits) && (bits <=? BitLen ip) then bits else -1).

(** The mask of the first [bits] of [w] bits. *)
Definition mask (w bits : Z) : Z := Z.shiftl (Z.ones bits) (w - bits).

(** [Addr.Prefix(b)], with the error result dropped by the callers here. *)
Definition Addr_Prefix (ip : Addr) (b : Z) : Prefix :=
  match ip with
  | AddrZero => Prefix_zero
  | Addr4 v => if (b <? 0) || (32 <? b) then Prefix_zero else PrefixFrom (Addr4 (Z.land v (mask 32 b))) b
  | Addr6 v z => if (b <? 0) || (128 <? b) then Prefix_zero else PrefixFrom (Addr6 (Z.land v (mask 128 b)) z) b
  end.

Definition Masked (p : Prefix) : Prefix := Addr_Prefix (pfx_addr p) (pfx_bits p).

Definition Contains (p : Prefix) (ip : Addr) : bool :=
  if negb (Prefix_IsValid p) || bool_decide (Zone ip <> []) then false else
  match pfx_addr p, ip with
  | Addr4 pv, Addr4 v => Z.shiftr (Z.lxor v pv) (32 - pfx_bits p) =? 0
  | Addr6 pv _, Addr6 v _ => Z.land (Z.lxor v pv) (mask 128 (pfx_bits p)) =? 0
  | _, _ => false
  end.

(** Position of the last [c] in [s]: the part before and the part after. *)
Definition cut_last (s : gostring) (c : ascii) : option (gostring * gostring) :=
  match IndexByte (rev s) c with
  | Some i => Some (rev (drop (S i) (rev s)), rev (take i (rev s)))
  | None => None
  end.

Definition ParsePrefix (s : gostring) : result Prefix :=
  match cut_last s "/" with
  | None => netip_err s "no '/'"
  | Some (ipS, bitsStr) =>
      let* ip := ParseAddr ipS in
      if bool_decide (Zone ip <> []) then netip_err s "IPv6 zones cannot be present in a prefix"
      else if (1 <? length bitsStr)%nat && negb (match bitsStr with c :: _ => in_range "1" "9" c | [] => false end)
      then netip_err s "bad bits after slash"
      else if bool_decide (bitsStr = []) || negb (forallb is_digit bitsStr)
      then netip_err s "bad bits after slash"
      else let bits := atoi_digits bitsStr in
           if (if Is6 ip then 128 else 32) <? bits then netip_err s "prefix length out of range"
           else Ok (PrefixFrom ip bits)
  end.

(** ** Well-formedness of parsed addresses *)

Definition is_byte (b : Z) : Prop := 0 <= b < 256.

Lemma be_val_app l b : be_val (l ++ [b]) = be_val l * 256 + b.
Proof. unfold be_val. by rewrite fold_left_app. Qed.

Lemma be_val_bound l : Forall is_byte l -> 0 <= be_val l < 256 ^ Z.of_nat (length l).
Proof.
  induction l as [|b l IH] using rev_ind; intros Hl; [cbn; lia|].
  apply Forall_app in Hl as [Hl Hb]. apply Forall_cons_iff in Hb as [Hb _].
  rewrite be_val_app, length_app, Nat2Z.inj_add. cbn [length].
  rewrite Z.pow_add_r by lia. change (256 ^ Z.of_nat 1) with 256.
  specialize (IH Hl). unfold is_byte in Hb. nia.
Qed.

Lemma parse_v4_loop_bytes inp s prev val digLen fields f :
  parse_v4_loop inp s prev val digLen fields = Ok f ->
  is_byte val -> Forall is_byte fields -> (length fields <= 3)%nat ->
  length f = 4%nat /\ Forall is_byte f.
Proof.
  revert prev val digLen fields. induction s as [|c s IH]; intros prev val digLen fields; simpl.
  - destruct (Nat.ltb_spec (length fields) 3); [done|]. intros [= <-] Hv Hf Hl.
    rewrite length_app. simpl. split; [lia|]. apply Forall_app_2; [done|by constructor].
  - intros H Hv Hf Hl. destruct (is_digit c) eqn:Hd.
    + case_match; [done|]. destruct (Z.ltb_spec 255 (val * 10 + digit_val c)); [done|].
      apply IH in H; [done| |done..]. apply is_digit_spec in Hd. unfold is_byte in *. lia.
    + destruct (Ascii.eqb c "."); [|done]. case_match; [done|].
      destruct (Nat.eqb_spec (length fields) 3); [done|].
      apply IH in H; [done|unfold is_byte; lia|by apply Forall_app_2; [|constructor]|].
      rewrite length_app. simpl. lia.
Qed.

Lemma parseIPv4Fields_bytes inp s f : parseIPv4Fields inp s = Ok f -> length f = 4%nat /\ Forall is_byte f.
Proof. intros H. eapply parse_v4_loop_bytes; [exact H|unfold is_byte; lia|constructor|simpl; lia]. Qed.

Lemma hex_val_range c d : hex_val c = Some d -> 0 <= d < 16.
Proof. unfold hex_val. all_bytes c; cbv; naive_solver. Qed.

Lemma hex_run_bound inp s off acc acc' off' rest :
  hex_run inp s off acc = Ok (acc', off', rest) -> 0 <= acc <= 65535 -> 0 <= acc' <= 65535.
Proof.
  revert off acc. induction s as [|c s IH]; intros off acc; simpl; [naive_solver|].
  destruct (hex_val c) as [d|] eqn:Hd; [|naive_solver].
  destruct (3 <? off); [done|]. destruct (Z.ltb_spec 65535 (acc * 16 + d)); [done|].
  intros H' Ha. apply IH in H'; [done|]. apply hex_val_range in Hd. lia.
Qed.

Lemma split16_bytes acc : 0 <= acc <= 65535 -> is_byte (Z.shiftr acc 8) /\ is_byte (Z.land acc 255).
Proof.
  intros Ha. rewrite Z.shiftr_div_pow2 by lia. change 255 with (Z.ones 8). rewrite Z.land_ones by lia.
  unfold is_byte. split; [|apply Z.mod_pos_bound; lia].
  split; [apply Z.div_pos; lia|apply Z.div_lt_upper_bound; lia].
Qed.

Lemma parse_v6_loop_bytes fuel inp s ip ell ip' ell' s' :
  parse_v6_loop fuel inp s ip ell = Ok (ip', ell', s') ->
  Forall is_byte ip -> (length ip + 2 * fuel = 16)%nat ->
  match ell with Some e => (e <= length ip)%nat | None => True end ->
  Forall is_byte ip' /\ (length ip' <= 16)%nat /\
  match ell' with Some e => (e <= length ip')%nat | None => True end.
Proof.
  revert s ip ell. induction fuel as [|fuel IH]; intros s ip ell H Hb Hl He; cbn [parse_v6_loop] in H.
  - injection H as <- <- <-. split_and!; [done|lia|done].
  - inv_ok. destruct x as [[acc off] rest]. destruct (off =? 0); [done|].
    match goal with Hr : hex_run _ _ _ _ = Ok _ |- _ => apply hex_run_bound in Hr as Hacc; [|lia] end.
    apply split16_bytes in Hacc as [Hhi Hlo].
    assert (Hb2 : Forall is_byte (ip ++ [Z.shiftr acc 8; Z.land acc 255])).
    { apply Forall_app_2; [done|]. by repeat apply Forall_cons_2. }
    assert (Hl2 : length (ip ++ [Z.shiftr acc 8; Z.land acc 255]) = (length ip + 2)%nat) by by rewrite length_app.
    set (ip2 := ip ++ [_; _]) in *.
    assert (He2 : match ell with Some e => (e <= length ip2)%nat | None => True end) by (destruct ell; [lia|done]).
    destruct rest as [|c rest]; [injection H as <- <- <-; split_and!; [done|lia|done]|].
    destruct (Ascii.eqb c ".").
    { destruct (negb (bool_decide (is_Some ell)) && _); [done|].
      destruct (Nat.ltb_spec 16 (length ip + 4)); [done|]. inv_ok.
      match goal with Hf : parseIPv4Fields _ _ = Ok _ |- _ => apply parseIPv4Fields_bytes in Hf as [Hf1 Hf2] end.
      simplify_eq. rewrite length_app. split_and!; [by apply Forall_app_2|lia|destruct ell'; [lia|done]]. }
    destruct (negb (Ascii.eqb c ":")); [done|]. destruct rest as [|c2 rest2]; [done|].
    destruct (negb (Ascii.eqb c2 ":")); [eapply IH; [exact H|done|lia|done]|].
    destruct ell; [done|]. destruct rest2 as [|c3 rest3].
    + injection H as <- <- <-. split_and!; [done|lia|lia].
    + eapply IH; [exact H|done|lia|simpl; lia].
Qed.

Lemma finish_v6_wf inp zone ip ell s a :
  finish_v6 inp zone (ip, ell, s) = Ok a -> Forall is_byte ip -> (length ip <= 16)%nat ->
  match ell with Some e => (e <= length ip)%nat | None => True end ->
  wf_addr a = true /\ Is6 a = true /\ Zone a = zone.
Proof.
  unfold finish_v6. destruct s; [|done]. intros H Hb Hl He.
  assert (Hfull : forall l, Forall is_byte l -> length l = 16%nat -> (0 <=? be_val l) && (be_val l <? 2 ^ 128) = true).
  { intros l Hlb Hll. apply be_val_bound in Hlb. rewrite Hll in Hlb.
    change (256 ^ Z.of_nat 16) with (2 ^ 128) in Hlb. apply andb_true_iff. rewrite Z.leb_le, Z.ltb_lt. lia. }
  destruct (Nat.ltb_spec (length ip) 16).
  - destruct ell as [e|]; [|done]. injection H as <-. cbn [wf_addr]. split_and!; [|done..].
    apply Hfull.
    + apply Forall_app_2; [by apply Forall_take|]. apply Forall_app_2; [|by apply Forall_drop].
      apply Forall_replicate. unfold is_byte. lia.
    + rewrite !length_app, length_take, length_drop, length_replicate. lia.
  - destruct ell; [done|]. injection H as <-. cbn [wf_addr]. split_and!; [|done..]. apply Hfull; [done|lia].
Qed.

Lemma parse_v6_body_wf inp s zone a :
  parse_v6_body inp s zone = Ok a -> wf_addr a = true /\ Is6 a = true /\ Zone a = zone.
Proof.
  unfold parse_v6_body. intros H.
  assert (Hrun : forall s ell st, parse_v6_loop 8 inp s [] ell = Ok st -> finish_v6 inp zone st = Ok a ->
            (ell = None \/ ell = Some O) -> wf_addr a = true /\ Is6 a = true /\ Zone a = zone).
  { intros s0 ell [[ip ell'] s'] Hl Hf Hell. apply parse_v6_loop_bytes in Hl as (Hb & Hlen & He).
    - by eapply finish_v6_wf.
    - constructor.
    - done.
    - by destruct Hell as [-> | ->]; [|simpl; lia]. }
  destruct (CutPrefix s (str "::")) as [[|c r]|].
  - by injection H as <-.
  - inv_ok. eauto.
  - inv_ok. eauto.
Qed.

Lemma parseIPv4_wf s a : parseIPv4 s = Ok a -> wf_addr a = true /\ Is4 a = true.
Proof.
  unfold parseIPv4. intros H. inv_ok.
  match goal with Hf : parseIPv4Fields _ _ = Ok _ |- _ => apply parseIPv4Fields_bytes in Hf as [Hl Hb] end.
  split; [|done]. apply be_val_bound in Hb. rewrite Hl in Hb. change (256 ^ Z.of_nat 4) with (2 ^ 32) in Hb.
  cbn [wf_addr]. apply andb_true_iff. rewrite Z.leb_le, Z.ltb_lt. lia.
Qed.

(** A parsed address is valid and fits its width. *)
Lemma ParseAddr_wf s a : ParseAddr s = Ok a -> wf_addr a = true /\ IsValid a = true.
Proof.
  unfold ParseAddr. generalize s at 2. induction s0 as [|c s0 IH]; simpl; [done|].
  destruct (Ascii.eqb c "."); [intros [? Ha]%parseIPv4_wf; split; [done|by destruct a]|].
  destruct (Ascii.eqb c ":"); [|destruct (Ascii.eqb c "%"); [done|auto]].
  unfold parseIPv6. destruct (Cut s "%") as [[t zone] found].
  assert (Hgo : parse_v6_body s t zone = Ok a -> wf_addr a = true /\ IsValid a = true).
  { intros (Hwf & H6 & _)%parse_v6_body_wf. split; [done|by destruct a]. }
  destruct zone; [destruct found; [done|]|]; exact Hgo.
Qed.

(** ** What prefixes contain *)

Lemma land_mask w b x : 0 <= b <= w -> 0 <= x < 2 ^ w -> Z.land x (mask w b) = x / 2 ^ (w - b) * 2 ^ (w - b).
Proof.
  intros Hb Hx. unfold mask. rewrite <- Z.shiftr_div_pow2, <- Z.shiftl_mul_pow2 by lia.
  apply Z.bits_inj'. intros i Hi. rewrite Z.land_spec, !Z.shiftl_spec by done.
  destruct (Z.ltb_spec i (w - b)).
  - by rewrite (Z.testbit_neg_r _ (i - _)), (Z.testbit_neg_r _ (i - _)), andb_false_r by lia.
  - rewrite Z.shiftr_spec by lia. replace (i - (w - b) + (w - b)) with i by lia.
    destruct (Z.ltb_spec (i - (w - b)) b).
    + rewrite Z.ones_spec_low by lia. apply andb_true_r.
    + rewrite Z.ones_spec_high, andb_false_r by lia. symmetry.
      rewrite <- (Z.mod_small x (2 ^ w)) by lia. apply Z.mod_pow2_bits_high. lia.
Qed.

Lemma lxor_shift_eq a b k : 0 <= k -> Z.shiftr (Z.lxor a b) k = 0 <-> a / 2 ^ k = b / 2 ^ k.
Proof.
  intros Hk. rewrite Z.shiftr_lxor, !Z.shiftr_div_pow2 by lia. split; [apply Z.lxor_eq|].
  intros ->. apply Z.lxor_nilpotent.
Qed.

Lemma lxor_range w a b : 0 <= w -> 0 <= a < 2 ^ w -> 0 <= b < 2 ^ w -> 0 <= Z.lxor a b < 2 ^ w.
Proof.
  intros Hw Ha Hb. split; [apply Z.lxor_nonneg; lia|].
  apply Z.lt_nge. intros Hge.
  assert (Hsh : Z.shiftr (Z.lxor a b) w = 0) by (apply lxor_shift_eq; [done|rewrite !Z.div_small by lia; done]).
  rewrite Z.shiftr_div_pow2 in Hsh by lia.
  assert (1 <= Z.lxor a b / 2 ^ w) by (apply Z.div_le_lower_bound; lia). lia.
Qed.

(** A well-formed prefix: what [PrefixFrom] builds from a well-formed address. *)
Definition wf_prefix (p : Prefix) : bool :=
  wf_addr (pfx_addr p) && bool_decide (Zone (pfx_addr p) = []) &&
  (-1 <=? pfx_bits p) && (pfx_bits p <=? BitLen (pfx_addr p)).

Definition host_bits (p : Prefix) : Z := BitLen (pfx_addr p) - pfx_bits p.

(** The address family and the leading bits of [ip] are those of [p]. *)
Definition in_prefix (p : Prefix) (ip : Addr) : Prop :=
  0 <= pfx_bits p /\ BitLen ip <> 0 /\ BitLen ip = BitLen (pfx_addr p) /\ Zone ip = [] /\
  addr_val ip / 2 ^ host_bits p = addr_val (pfx_addr p) / 2 ^ host_bits p.

Lemma wf_addr_range a : wf_addr a = true -> 0 <= addr_val a < 2 ^ BitLen a.
Proof. destruct a; simpl; rewrite ?andb_true_iff, ?Z.leb_le, ?Z.ltb_lt; lia. Qed.

Lemma wf_prefix_spec p :
  wf_prefix p = true ->
  wf_addr (pfx_addr p) = true /\ Zone (pfx_addr p) = [] /\ -1 <= pfx_bits p <= BitLen (pfx_addr p).
Proof.
  unfold wf_prefix. rewrite !andb_true_iff, bool_decide_eq_true, !Z.leb_le. naive_solver.
Qed.

(** Both forms of [Contains] compare the family and the leading bits. *)
Lemma Contains_spec p ip : wf_prefix p = true -> wf_addr ip = true -> Contains p ip = true <-> in_prefix p ip.
Proof.
  intros (Hpa & Hpz & Hbits)%wf_prefix_spec Hip%wf_addr_range. apply wf_addr_range in Hpa.
  unfold Contains, in_prefix, Prefix_IsValid, host_bits.
  destruct (Z.leb_spec 0 (pfx_bits p)); simpl; [|split; [done|lia]].
  case_bool_decide as Hz; simpl; [naive_solver|].
  destruct (pfx_addr p) as [|pv|pv pz], ip as [|v|v z]; simpl in *; try (split; [done|naive_solver lia]).
  - rewrite Z.eqb_eq, lxor_shift_eq by lia. naive_solver lia.
  - rewrite Z.eqb_eq, land_mask by (done || lia || (apply lxor_range; lia)).
    rewrite Z.eq_mul_0, <- Z.shiftr_div_pow2, lxor_shift_eq by lia.
    pose proof (Z.pow_pos_nonneg 2 (128 - pfx_bits p)). naive_solver lia.
Qed.

Lemma PrefixFrom_wf ip bits : wf_addr ip = true -> wf_prefix (PrefixFrom ip bits) = true.
Proof.
  intros Hip. unfold wf_prefix, PrefixFrom; simpl.
  destruct ip; simpl in *; rewrite ?Hip, ?bool_decide_eq_true_2 by done; simpl.
  - done.
  - destruct (Z.leb_spec 0 bits), (Z.leb_spec bits 32); simpl; try done. rewrite !andb_true_iff, !Z.leb_le. lia.
  - destruct (Z.leb_spec 0 bits), (Z.leb_spec bits 128); simpl; try done. rewrite !andb_true_iff, !Z.leb_le. lia.
Qed.

Lemma ParsePrefix_wf s p : ParsePrefix s = Ok p -> wf_prefix p = true /\ Prefix_IsValid p = true.
Proof.
  unfold ParsePrefix. destruct (cut_last s "/") as [[ipS bitsStr]|]; [|done]. intros H. inv_ok.
  apply ParseAddr_wf in H0 as [Hwf Hv].
  destruct (bool_decide (Zone x ≠ [])); [done|]. destruct ((1 <? _)%nat && _); [done|].
  destruct (bool_decide (bitsStr = []) || negb (forallb is_digit bitsStr)) eqn:Hd; [done|]. apply orb_false_iff in Hd as [_ Hd].
  apply negb_false_iff in Hd. destruct (Z.ltb_spec (if Is6 x then 128 else 32) (atoi_digits bitsStr)); [done|].
  injection H as <-. split; [by apply PrefixFrom_wf|].
  assert (Hnn : forall s n, 0 <= n -> forallb is_digit s = true -> 0 <= fold_left (fun n c => n * 10 + digit_val c) s n).
  { induction s0 as [|c s0 IH]; intros n Hn; simpl; [done|]. rewrite andb_true_iff, is_digit_spec.
    intros [Hc Hs]. apply IH; [lia|done]. }
  specialize (Hnn bitsStr 0 ltac:(lia) Hd). fold (atoi_digits bitsStr) in Hnn.
  unfold Prefix_IsValid, PrefixFrom; simpl. destruct x; simpl in *; [done|..];
    rewrite (proj2 (Z.leb_le 0 (atoi_digits _))), (proj2 (Z.leb_le (atoi_digits _) _)) by lia; simpl; by apply Z.leb_le.
Qed.

(** [p == p.Masked()] means that no host bit is set. *)
Lemma Masked_fixed p :
  wf_prefix p = true -> Prefix_IsValid p = true ->
  Masked p = p <-> IsValid (pfx_addr p) = true /\ addr_val (pfx_addr p) mod 2 ^ host_bits p = 0.
Proof.
  intros (Hpa & Hpz & Hbits)%wf_prefix_spec Hv%Z.leb_le. apply wf_addr_range in Hpa as Hr.
  destruct p as [a b]. unfold Masked, host_bits. simpl in *.
  assert (Hm : forall w v, 0 <= b <= w -> 0 <= v < 2 ^ w -> Z.land v (mask w b) = v <-> v mod 2 ^ (w - b) = 0).
  { intros w v Hb Hvw. rewrite land_mask by done. pose proof (Z.pow_pos_nonneg 2 (w - b)).
    pose proof (Z.div_mod v (2 ^ (w - b))). nia. }
  destruct a as [|v|v z]; simpl in *.
  - split; [|naive_solver]. intros [= Hb]. lia.
  - rewrite (proj2 (Z.ltb_ge _ _)), (proj2 (Z.ltb_ge _ _)) by lia. simpl. unfold PrefixFrom. simpl.
    rewrite (proj2 (Z.leb_le _ _)), (proj2 (Z.leb_le _ _)) by lia. simpl. rewrite <- (Hm 32 v) by lia. naive_solver congruence.
  - rewrite (proj2 (Z.ltb_ge _ _)), (proj2 (Z.ltb_ge _ _)) by lia. simpl. unfold PrefixFrom. simpl.
    rewrite (proj2 (Z.leb_le _ _)), (proj2 (Z.leb_le _ _)) by lia. simpl. subst z. rewrite <- (Hm 128 v) by lia. naive_solver congruence.
Qed.

(** Two masked prefixes of the same length that share an address are equal. *)
Lemma masked_contains_unique p q ip :
  wf_prefix p = true -> wf_prefix q = true -> wf_addr ip = true -> Masked p = p -> Masked q = q ->
  pfx_bits p = pfx_bits q -> Contains p ip = true -> Contains q ip = true -> p = q.
Proof.
  intros Hp Hq Hip Hmp Hmq Hb Hcp Hcq.
  apply Contains_spec in Hcp as (Hp0 & Hn & Hpl & Hz & Hpe); [|done..].
  apply Contains_spec in Hcq as (Hq0 & _ & Hql & _ & Hqe); [|done..].
  apply Masked_fixed in Hmp as [_ Hmp]; [|done|by apply Z.leb_le].
  apply Masked_fixed in Hmq as [_ Hmq]; [|done|by apply Z.leb_le].
  apply wf_prefix_spec in Hp as (_ & Hpz & _), Hq as (_ & Hqz & _).
  unfold host_bits in *. rewrite <- Hpl in *. rewrite <- Hql in *. rewrite Hb in *.
  set (k := 2 ^ (BitLen ip - pfx_bits q)) in *.
  assert (Hval : addr_val (pfx_addr p) = addr_val (pfx_addr q)).
  { pose proof (Z_div_mod_eq_full (addr_val (pfx_addr p)) k) as E1.
    pose proof (Z_div_mod_eq_full (addr_val (pfx_addr q)) k) as E2.
    rewrite Hmp in E1. rewrite Hmq in E2. rewrite E1, E2. by rewrite <- Hpe, <- Hqe. }
  destruct p as [[|pv|pv pz] pb], q as [[|qv|qv qz] qb]; simpl in *; try congruence.
Qed.

(** ** Printing and parsing IPv4 addresses *)

Lemma Itoa_octet n :
  is_byte n ->
  (n < 10 /\ Itoa n = [digit_char n]) \/
  (exists a b, 0 < a < 10 /\ 0 <= b < 10 /\ n = a * 10 + b /\ Itoa n = [digit_char a; digit_char b]) \/
  (exists a b c, 0 < a < 10 /\ 0 <= b < 10 /\ 0 <= c < 10 /\ n = (a * 10 + b) * 10 + c /\
     Itoa n = [digit_char a; digit_char b; digit_char c]).
Proof.
  intros Hn. unfold is_byte in Hn. unfold Itoa. rewrite (proj2 (Z.ltb_ge n 0)) by lia. rewrite itoa_digits_S.
  destruct (Z.ltb_spec n 10); [left; split; [done|by rewrite Z.mod_small by lia]|right].
  rewrite itoa_digits_S. destruct (Z.ltb_spec (n / 10) 10).
  - left. exists (n / 10), (n mod 10). rewrite (Z.mod_small (n / 10)) by (split; [apply Z.div_pos|]; lia).
    Z.div_mod_to_equations. split_and!; [lia..|done].
  - right. rewrite itoa_digits_S. exists (n / 10 / 10), ((n / 10) mod 10), (n mod 10).
    assert (n / 10 / 10 < 10) by (Z.div_mod_to_equations; lia).
    rewrite (proj2 (Z.ltb_lt (n / 10 / 10) 10)), (Z.mod_small (n / 10 / 10)) by (Z.div_mod_to_equations; lia).
    Z.div_mod_to_equations. split_and!; [lia..|done].
Qed.

(** One step of the loops on a decimal digit. *)
Lemma parse_v4_digit inp d rest prev val dl fields :
  0 <= d < 10 -> (dl = 1 -> val <> 0) -> val * 10 + d <= 255 ->
  parse_v4_loop inp (digit_char d :: rest) prev val dl fields =
  parse_v4_loop inp rest (Some (digit_char d)) (val * 10 + d) (dl + 1) fields.
Proof.
  intros Hd Hz Hv. cbn [parse_v4_loop]. rewrite digit_char_is_digit, digit_val_char by done.
  rewrite (proj2 (Z.ltb_ge 255 _)) by lia.
  destruct (Z.eqb_spec dl 1), (Z.eqb_spec val 0); simpl; try done. naive_solver.
Qed.

Lemma hex_val_digit d : 0 <= d < 10 -> hex_val (digit_char d) = Some d.
Proof.
  intros Hd. unfold hex_val. rewrite digit_char_is_digit by done. f_equal. by apply digit_val_char.
Qed.

Lemma parse_v4_octet inp n rest prev fields :
  is_byte n ->
  exists c dl, is_digit c = true /\
    parse_v4_loop inp (Itoa n ++ rest) prev 0 0 fields = parse_v4_loop inp rest (Some c) n dl fields.
Proof.
  intros Hn. unfold is_byte in Hn.
  destruct (Itoa_octet n Hn) as [[Hs ->]|[(a & b & Ha & Hb & Heq & ->)|(a & b & c & Ha & Hb & Hc & Heq & ->)]]; cbn [app].
  - rewrite parse_v4_digit by lia. exists (digit_char n). eexists. split; [apply digit_char_is_digit; lia|done].
  - rewrite !parse_v4_digit by lia. exists (digit_char b). eexists. split; [by apply digit_char_is_digit|].
    by replace ((0 * 10 + a) * 10 + b) with n by lia.
  - rewrite !parse_v4_digit by lia. exists (digit_char c). eexists. split; [by apply digit_char_is_digit|].
    by replace (((0 * 10 + a) * 10 + b) * 10 + c) with n by lia.
Qed.

Lemma hex_run_octet inp n rest :
  is_byte n -> exists acc off, off <> 0 /\
    hex_run inp (Itoa n ++ "."%char :: rest) 0 0 = Ok (acc, off, "."%char :: rest).
Proof.
  intros Hn. unfold is_byte in Hn.
  destruct (Itoa_octet n Hn) as [[Hs ->]|[(a & b & Ha & Hb & Heq & ->)|(a & b & c & Ha & Hb & Hc & Heq & ->)]];
    cbn [app hex_run]; rewrite !hex_val_digit by lia; cbn -[Z.ltb Z.add Z.mul];
    rewrite ?(proj2 (Z.ltb_ge 65535 _)) by lia; cbn -[Z.ltb Z.add Z.mul]; eexists _, _; (split; [|reflexivity]); lia.
Qed.

Lemma parse_v4_dot inp c n dl fields c2 rest :
  is_digit c = true -> (length fields < 3)%nat ->
  parse_v4_loop inp ("."%char :: c2 :: rest) (Some c) n dl fields =
  parse_v4_loop inp (c2 :: rest) (Some "."%char) 0 0 (fields ++ [n]).
Proof.
  intros Hc Hl. cbn [parse_v4_loop is_digit]. change (is_digit ".") with false. cbn iota.
  rewrite Ascii.eqb_refl. destruct (Ascii.eqb_spec c ".") as [->|_]; [done|].
  by rewrite (proj2 (Nat.eqb_neq (length fields) 3)) by lia.
Qed.

Lemma Itoa_octet_cons n : is_byte n -> exists c s, Itoa n = c :: s /\ is_digit c = true.
Proof.
  intros Hn. pose proof (Itoa_digits n ltac:(unfold is_byte in Hn; lia)) as Hd.
  pose proof (Itoa_length n 2 ltac:(lia) ltac:(unfold is_byte in Hn; cbn; lia)) as Hl.
  destruct (Itoa n) as [|c s]; [simpl in Hl; lia|]. exists c, s. by apply Forall_cons_iff in Hd as [Hd _].
Qed.

Lemma parseIPv4Fields_print inp a b c d :
  is_byte a -> is_byte b -> is_byte c -> is_byte d ->
  parseIPv4Fields inp (Join (Itoa <$> [a; b; c; d]) ".") = Ok [a; b; c; d].
Proof.
  intros Ha Hb Hc Hd. unfold parseIPv4Fields. cbn [fmap list_fmap Join].
  destruct (parse_v4_octet inp a ("."%char :: Itoa b ++ "."%char :: Itoa c ++ "."%char :: Itoa d) None [] Ha) as (xa & la & Hxa & ->).
  destruct (Itoa_octet_cons b Hb) as (b1 & bs & Eb & _). rewrite Eb. cbn [app]. rewrite parse_v4_dot by (done || simpl; lia).
  change (b1 :: bs ++ ?r) with ((b1 :: bs) ++ r). rewrite <- Eb.
  destruct (parse_v4_octet inp b ("."%char :: Itoa c ++ "."%char :: Itoa d) (Some "."%char) ([] ++ [a]) Hb) as (xb & lb & Hxb & ->).
  destruct (Itoa_octet_cons c Hc) as (c1 & cs & Ec & _). rewrite Ec. cbn [app]. rewrite parse_v4_dot by (done || simpl; lia).
  change (c1 :: cs ++ ?r) with ((c1 :: cs) ++ r). rewrite <- Ec.
  destruct (parse_v4_octet inp c ("."%char :: Itoa d) (Some "."%char) ([a] ++ [b]) Hc) as (xc & lc & Hxc & ->).
  destruct (Itoa_octet_cons d Hd) as (d1 & ds & Ed & _). rewrite Ed. rewrite parse_v4_dot by (done || simpl; lia).
  rewrite <- Ed, <- (app_nil_r (Itoa d)).
  by destruct (parse_v4_octet inp d [] (Some "."%char) (([a] ++ [b]) ++ [c]) Hd) as (xd & ld & Hxd & ->).
Qed.

Lemma v4_octets_bytes v : 0 <= v < 2 ^ 32 -> Forall is_byte (v4_octets v) /\ be_val (v4_octets v) = v.
Proof.
  intros Hv. unfold v4_octets, be_val, is_byte. change 255 with (Z.ones 8).
  rewrite !Z.land_ones, !Z.shiftr_div_pow2 by lia. cbn [fold_left].
  change (2 ^ 24) with 16777216. change (2 ^ 16) with 65536. change (2 ^ 8) with 256. change (2 ^ 32) with 4294967296 in Hv.
  split; [repeat apply Forall_cons_2; try apply Forall_nil_2|]; Z.div_mod_to_equations; lia.
Qed.

Lemma parse_addr_scan_digits inp s rest :
  Forall (fun c => is_digit c = true) s -> parse_addr_scan inp (s ++ rest) = parse_addr_scan inp rest.
Proof.
  induction 1 as [|c s Hc _ IH]; [done|]. cbn [app parse_addr_scan].
  by all_bytes c.
Qed.

(** IPv4 addresses survive printing and parsing. *)
Lemma ParseAddr_string4 v : 0 <= v < 2 ^ 32 -> ParseAddr (string4 v) = Ok (Addr4 v).
Proof.
  intros Hv. destruct (v4_octets_bytes v Hv) as [Hb Hval].
  assert (Hscan : ParseAddr (string4 v) = parseIPv4 (string4 v)).
  { unfold ParseAddr. generalize (string4 v) at 1 3. intros inp. unfold string4, v4_octets. cbn [fmap list_fmap Join].
    rewrite parse_addr_scan_digits; [done|]. apply Itoa_digits. by apply Forall_cons_iff in Hb as [[? _] _]. }
  rewrite Hscan. unfold parseIPv4, string4.
  unfold v4_octets in *. repeat match goal with H : Forall _ (_ :: _) |- _ => apply Forall_cons_iff in H as [? H] end.
  rewrite parseIPv4Fields_print by done. cbn [rbind]. by rewrite Hval.
Qed.

(** The dotted form holds no '%' and starts with a digit. *)
Lemma string4_chars v c : 0 <= v < 2 ^ 32 -> c ∈ string4 v -> is_digit c = true \/ c = "."%char.
Proof.
  intros Hv. destruct (v4_octets_bytes v Hv) as [Hb _]. unfold string4. revert Hb.
  generalize (v4_octets v). intros l Hb. induction Hb as [|n l Hn Hl IH]; [set_solver|].
  assert (Hdig : forall x, x ∈ Itoa n -> is_digit x = true).
  { pose proof (Itoa_digits n ltac:(unfold is_byte in Hn; lia)) as Hd. intros x Hx.
    apply list_elem_of_In in Hx. exact (proj1 (List.Forall_forall _ _) Hd x Hx). }
  destruct l as [|m l]; cbn [fmap list_fmap] in *; [cbn; naive_solver|].
  rewrite Join_cons by done. rewrite elem_of_app, elem_of_cons. naive_solver.
Qed.

Lemma string4_cons v : 0 <= v < 2 ^ 32 -> exists a rest, is_byte a /\ string4 v = Itoa a ++ "."%char :: rest.
Proof.
  intros Hv. destruct (v4_octets_bytes v Hv) as [Hb _]. unfold string4, v4_octets in *.
  apply Forall_cons_iff in Hb as [Ha _]. cbn [fmap list_fmap Join]. eauto.
Qed.

Lemma parseIPv4Fields_string4 inp v : 0 <= v < 2 ^ 32 -> parseIPv4Fields inp (string4 v) = Ok (v4_octets v).
Proof.
  intros Hv. destruct (v4_octets_bytes v Hv) as [Hb _]. unfold string4, v4_octets in *.
  repeat match goal with H : Forall _ (_ :: _) |- _ => apply Forall_cons_iff in H as [? H] end.
  by rewrite parseIPv4Fields_print.
Qed.

(** The loop on an embedded IPv4 address after a "::". *)
Lemma parse_v6_loop_v4 fuel inp v ip e :
  0 <= v < 2 ^ 32 -> (length ip + 4 <= 16)%nat ->
  parse_v6_loop (S fuel) inp (string4 v) ip (Some e) = Ok (ip ++ v4_octets v, Some e, []).
Proof.
  intros Hv Hl. cbn [parse_v6_loop].
  destruct (string4_cons v Hv) as (a & rest & Ha & E). rewrite E.
  destruct (hex_run_octet inp a rest Ha) as (acc & off & Hoff & ->). cbn [rbind].
  rewrite (proj2 (Z.eqb_neq _ _) Hoff), Ascii.eqb_refl, bool_decide_eq_true_2 by eauto. cbn [negb andb].
  rewrite (proj2 (Nat.ltb_ge _ _)) by lia. rewrite <- E, parseIPv4Fields_string4 by done. done.
Qed.

Lemma parse_v6_ffff fuel inp c s :
  c <> ":"%char ->
  parse_v6_loop (S fuel) inp (str "ffff" ++ ":"%char :: c :: s) [] (Some O) =
  parse_v6_loop fuel inp (c :: s) [255; 255] (Some O).
Proof. intros Hc. simpl. by rewrite (proj2 (Ascii.eqb_neq c ":") Hc). Qed.

(** An IPv4-mapped address in its usual notation. *)
Lemma ParseAddr_mapped v :
  0 <= v < 2 ^ 32 -> ParseAddr (str "::ffff:" ++ string4 v) = Ok (Addr6 (0xffff * 2 ^ 32 + v) []).
Proof.
  intros Hv. unfold ParseAddr. set (inp := str "::ffff:" ++ string4 v). unfold inp at 2.
  cbn [str String.list_ascii_of_string app parse_addr_scan Ascii.eqb Bool.eqb].
  unfold parseIPv6, Cut.
  assert (Hno : IndexByte inp "%" = None).
  { apply IndexByte_None. unfold inp. rewrite elem_of_app. intros [Hin|Hin]; [by compute in Hin; set_solver|].
    destruct (string4_chars v _ Hv Hin); done. }
  rewrite Hno. unfold parse_v6_body, inp at 1. change (str "::ffff:") with (str "::" ++ str "ffff:").
  rewrite <- app_assoc, CutPrefix_app.
  assert (Hstep : parse_v6_loop 8 inp (str "ffff" ++ ":"%char :: string4 v) [] (Some O)
     = parse_v6_loop 7 inp (string4 v) [255; 255] (Some O)).
  { destruct (string4_cons v Hv) as (a & rest & Ha & E).
    destruct (Itoa_octet_cons a Ha) as (c & s & Ea & Hc). rewrite E, Ea. apply parse_v6_ffff.
    by intros ->. }
  cbn [str String.list_ascii_of_string app] in Hstep |- *.
  rewrite Hstep, parse_v6_loop_v4 by (done || simpl; lia). cbn [rbind finish_v6].
  destruct (v4_octets_bytes v Hv) as [_ Hval]. unfold be_val in *. cbn -[Z.shiftr Z.land] in Hval |- *.
  do 2 f_equal. lia.
Qed.

Lemma Unmap_wf a : wf_addr a = true -> wf_addr (Unmap a) = true.
Proof.
  destruct a as [|v|v z]; [done..|]. cbn [Unmap]. destruct (_ =? _); [|done]. intros _. cbn [wf_addr].
  rewrite Z.land_ones by lia. pose proof (Z.mod_pos_bound v (2 ^ 32)). apply andb_true_iff. rewrite Z.leb_le, Z.ltb_lt. lia.
Qed.
