(* ===== verification/AddrText.v ===== *)
(** * The text of an address identifies it

    Printing an address and parsing the text gives the address back, for IPv4,
    IPv4-mapped and IPv6 addresses with their "::". The proxy compares and
    stores addresses as text in several places (pool keys, remote addresses of
    requests), and this is why that is sound. *)

From Stdlib Require Import ZArith NArith Ascii String Lia Bool List.
From stdpp Require Import base tactics list strings option sets.
From S2P Require Import Prelude GoStrings Netip.

Local Open Scope Z_scope.

(** ** Groups *)

Definition is_group (x : Z) : Prop := 0 <= x < 65536.

Lemma hex_val_char_inv d : 0 <= d < 16 -> hex_val (hex_char d) = Some d.
Proof.
  intros Hd. assert (Hc : In d [0;1;2;3;4;5;6;7;8;9;10;11;12;13;14;15]) by (simpl; lia). clear Hd.
  simpl in Hc. repeat destruct Hc as [<-|Hc]; try (vm_compute; reflexivity). done.
Qed.

(** The four digits of a group. *)
Lemma group_digits x :
  is_group x ->
  let a := Z.shiftr x 12 in let b := Z.land (Z.shiftr x 8) 15 in let c := Z.land (Z.shiftr x 4) 15 in let d := Z.land x 15 in
  x = ((a * 16 + b) * 16 + c) * 16 + d /\ 0 <= a < 16 /\ 0 <= b < 16 /\ 0 <= c < 16 /\ 0 <= d < 16.
Proof.
  unfold is_group. intros Hx. cbv zeta. change 15 with (Z.ones 4). rewrite !Z.land_ones, !Z.shiftr_div_pow2 by lia.
  change (2 ^ 12) with 4096. change (2 ^ 8) with 256. change (2 ^ 4) with 16. Z.div_mod_to_equations. lia.
Qed.

(** A rest that ends a run of hexadecimal digits. *)
Definition stops (rest : gostring) : Prop := match rest with [] => True | c :: _ => hex_val c = None end.

Lemma hex_run_digit inp d rest off acc :
  0 <= d < 16 -> off <= 3 -> acc * 16 + d <= 65535 ->
  hex_run inp (hex_char d :: rest) off acc = hex_run inp rest (off + 1) (acc * 16 + d).
Proof.
  intros Hd Ho Ha. cbn [hex_run]. rewrite hex_val_char_inv by done.
  rewrite (proj2 (Z.ltb_ge 3 off)), (proj2 (Z.ltb_ge 65535 _)) by lia. done.
Qed.

Lemma hex_run_stop inp rest off acc : stops rest -> hex_run inp rest off acc = Ok (acc, off, rest).
Proof. destruct rest as [|c rest]; cbn [hex_run stops]; [done|]. by intros ->. Qed.

Lemma hex_run_group inp x rest :
  is_group x -> stops rest -> exists off, off <> 0 /\ hex_run inp (appendHex x ++ rest) 0 0 = Ok (x, off, rest).
Proof.
  intros Hx Hr. pose proof (group_digits x Hx) as (E & Ha & Hb & Hc & Hd). cbv zeta in *. unfold is_group in Hx. unfold appendHex.
  destruct (Z.leb_spec 0x1000 x), (Z.leb_spec 0x100 x), (Z.leb_spec 0x10 x); try lia; cbn [app];
    rewrite !hex_run_digit by lia; rewrite hex_run_stop by done; eexists; (split; [|do 2 f_equal]); try lia; f_equal; lia.
Qed.

Lemma appendHex_cons x : is_group x -> exists c s, appendHex x = c :: s /\ is_Some (hex_val c).
Proof.
  intros Hx. pose proof (group_digits x Hx) as (E & Ha & Hb & Hc & Hd). cbv zeta in *. unfold appendHex.
  destruct (0x1000 <=? x), (0x100 <=? x), (0x10 <=? x); cbn [app]; eexists _, _; (split; [reflexivity|]);
    rewrite hex_val_char_inv by done; eauto.
Qed.

Lemma appendHex_chars x c : is_group x -> c ∈ appendHex x -> is_Some (hex_val c).
Proof.
  intros Hx. pose proof (group_digits x Hx) as (E & Ha & Hb & Hc & Hd). cbv zeta in *. unfold appendHex.
  rewrite !elem_of_app, list_elem_of_singleton.
  repeat match goal with |- context [if ?b then _ else _] => destruct b end; rewrite ?list_elem_of_singleton, ?elem_of_nil;
    intros Hin; destruct_or?; subst; try done; rewrite hex_val_char_inv by done; eauto.
Qed.

(** ** Lists of groups *)

(** The two bytes of each group. *)
Definition group_bytes (gs : list Z) : list Z := gs ≫= fun x => [Z.shiftr x 8; Z.land x 255].

Lemma length_group_bytes gs : length (group_bytes gs) = (2 * length gs)%nat.
Proof. induction gs as [|g gs IH]; [done|]. cbn. unfold group_bytes in IH. rewrite IH. lia. Qed.

Lemma group_bytes_app gs hs : group_bytes (gs ++ hs) = group_bytes gs ++ group_bytes hs.
Proof. apply bind_app. Qed.

Lemma hex_groups_cons x y gs : hex_groups (x :: y :: gs) = appendHex x ++ ":"%char :: hex_groups (y :: gs).
Proof. done. Qed.

Lemma hex_groups_head x gs : is_group x -> exists c s, hex_groups (x :: gs) = c :: s /\ is_Some (hex_val c).
Proof.
  intros Hx. destruct (appendHex_cons x Hx) as (c & s & E & Hc). unfold hex_groups.
  destruct gs; cbn [fmap list_fmap Join]; rewrite E; eexists _, _; done.
Qed.

Lemma hex_not_colon c : is_Some (hex_val c) -> c <> ":"%char /\ c <> "."%char /\ c <> "%"%char.
Proof. intros [d Hd]. split_and!; intros ->; by vm_compute in Hd. Qed.

(** The loop over groups that end the string. *)
Lemma loop_groups fuel inp gs ip ell :
  gs <> [] -> Forall is_group gs -> (length gs <= fuel)%nat ->
  parse_v6_loop fuel inp (hex_groups gs) ip ell = Ok (ip ++ group_bytes gs, ell, []).
Proof.
  revert gs ip. induction fuel as [|fuel IH]; intros gs ip Hne Hg Hl; [by destruct gs; [|simpl in Hl; lia]|].
  destruct gs as [|x gs]; [done|]. apply Forall_cons_iff in Hg as [Hx Hg]. destruct gs as [|y gs].
  - cbn [parse_v6_loop]. change (hex_groups [x]) with (appendHex x). rewrite <- (app_nil_r (appendHex x)).
    destruct (hex_run_group inp x [] Hx I) as (off & Hoff & ->). cbn [rbind]. by rewrite (proj2 (Z.eqb_neq _ _) Hoff).
  - cbn [parse_v6_loop]. rewrite hex_groups_cons.
    destruct (hex_run_group inp x (":"%char :: hex_groups (y :: gs)) Hx) as (off & Hoff & ->); [done|]. cbn [rbind].
    rewrite (proj2 (Z.eqb_neq _ _) Hoff). cbn [Ascii.eqb Bool.eqb negb].
    destruct (hex_groups_head y gs) as (c & s & E & Hc); [by apply Forall_cons_iff in Hg as [? _]|]. rewrite E.
    rewrite (proj2 (Ascii.eqb_neq c ":")) by (by apply hex_not_colon). cbn [negb]. rewrite <- E, IH; [|done|done|simpl in *; lia].
    by rewrite <- app_assoc.
Qed.

(** The loop over groups that are followed by "::". *)
Lemma loop_groups_ellipsis fuel inp gs hs ip :
  gs <> [] -> Forall is_group gs -> Forall is_group hs -> (length gs + length hs <= fuel)%nat ->
  parse_v6_loop fuel inp (hex_groups gs ++ str "::" ++ hex_groups hs) ip None =
  Ok (ip ++ group_bytes gs ++ group_bytes hs, Some (length ip + 2 * length gs)%nat, []).
Proof.
  revert gs ip. induction fuel as [|fuel IH]; intros gs ip Hne Hg Hh Hl; [by destruct gs; [|simpl in Hl; lia]|].
  destruct gs as [|x gs]; [done|]. apply Forall_cons_iff in Hg as [Hx Hg]. cbn [parse_v6_loop]. destruct gs as [|y gs].
  - change (hex_groups [x]) with (appendHex x).
    destruct (hex_run_group inp x (str "::" ++ hex_groups hs) Hx) as (off & Hoff & ->); [done|]. cbn [rbind].
    rewrite (proj2 (Z.eqb_neq _ _) Hoff). cbn [str String.list_ascii_of_string app Ascii.eqb Bool.eqb negb].
    rewrite length_app. cbn [length]. destruct hs as [|h hs].
    + cbn [hex_groups fmap list_fmap Join group_bytes]. done.
    + destruct (hex_groups_head h hs) as (c & s & E & _); [by apply Forall_cons_iff in Hh as [? _]|]. rewrite E.
      rewrite <- E, loop_groups; [|done|done|simpl in *; lia]. by rewrite <- app_assoc.
  - rewrite hex_groups_cons. rewrite <- app_assoc. cbn [app].
    destruct (hex_run_group inp x (":"%char :: hex_groups (y :: gs) ++ str "::" ++ hex_groups hs) Hx) as (off & Hoff & ->); [done|]. cbn [rbind].
    rewrite (proj2 (Z.eqb_neq _ _) Hoff). cbn [Ascii.eqb Bool.eqb negb].
    destruct (hex_groups_head y gs) as (c & s & E & Hc); [by apply Forall_cons_iff in Hg as [? _]|]. rewrite E. cbn [app].
    rewrite (proj2 (Ascii.eqb_neq c ":")) by (by apply hex_not_colon). cbn [negb]. rewrite app_comm_cons, <- E.
    rewrite IH; [|done|done|done|simpl in *; lia]. rewrite length_app. cbn [length]. rewrite <- !app_assoc. do 4 f_equal. lia.
Qed.

(** ** The groups of an address *)

Lemma v6_group_range v i : is_group (v6_group v i).
Proof. unfold v6_group, is_group. change 0xffff with (Z.ones 16). rewrite Z.land_ones by lia. apply Z.mod_pos_bound. lia. Qed.

Lemma v6_groups_range v : Forall is_group (v6_groups v).
Proof. unfold v6_groups. apply List.Forall_forall. intros x Hx%list_elem_of_In. apply list_elem_of_fmap in Hx as (i & -> & _). apply v6_group_range. Qed.

Lemma be_val_group l x : is_group x -> be_val (l ++ [Z.shiftr x 8; Z.land x 255]) = be_val l * 65536 + x.
Proof.
  intros Hx. change [Z.shiftr x 8; Z.land x 255] with ([Z.shiftr x 8] ++ [Z.land x 255]). rewrite app_assoc, !be_val_app.
  change 255 with (Z.ones 8). rewrite Z.land_ones, Z.shiftr_div_pow2 by lia. change (2 ^ 8) with 256. unfold is_group in Hx.
  Z.div_mod_to_equations. lia.
Qed.

Lemma be_val_groups v k :
  0 <= v < 2 ^ 128 -> (k <= 8)%nat -> be_val (group_bytes (v6_group v <$> seq 0 k)) = v / 2 ^ (128 - 16 * Z.of_nat k).
Proof.
  intros Hv. induction k as [|k IH]; intros Hk; [symmetry; apply Z.div_small; lia|].
  rewrite seq_S, fmap_app, group_bytes_app. cbn [fmap list_fmap]. unfold group_bytes at 2. cbn [mbind list_bind]. rewrite app_nil_r.
  rewrite be_val_group by apply v6_group_range. rewrite IH by lia. unfold v6_group. change 0xffff with (Z.ones 16).
  rewrite Z.land_ones, Z.shiftr_div_pow2 by lia. replace (0 + k)%nat with k by lia.
  set (e := 112 - 16 * Z.of_nat k). replace (128 - 16 * Z.of_nat (S k)) with e by lia.
  replace (128 - 16 * Z.of_nat k) with (e + 16) by lia. rewrite Z.pow_add_r by lia. rewrite <- Z.div_div by lia.
  change (2 ^ 16) with 65536. pose proof (Z.div_mod (v / 2 ^ e) 65536). lia.
Qed.

Lemma be_val_v6_groups v : 0 <= v < 2 ^ 128 -> be_val (group_bytes (v6_groups v)) = v.
Proof. intros Hv. unfold v6_groups. rewrite be_val_groups by (done || lia). apply Z.div_1_r. Qed.

(** ** The run of zeros that is left out *)

Lemma zero_run_split gs : exists r, gs = replicate (zero_run gs) 0 ++ r.
Proof.
  induction gs as [|g gs [r IH]]; [by exists []|]. cbn [zero_run]. destruct (Z.eqb_spec g 0) as [->|]; [|by exists (g :: gs)].
  exists r. cbn [replicate app]. by f_equal.
Qed.

Definition good_run (gs : list Z) (run : option (nat * nat)) : Prop :=
  match run with
  | None => True
  | Some (s, e) => (s + 2 <= e <= length gs)%nat /\ gs = take s gs ++ replicate (e - s) 0 ++ drop e gs
  end.

Lemma best_run_good all gs i best :
  gs = drop i all -> (i <= length all)%nat -> good_run all best -> good_run all (best_run gs i best).
Proof.
  revert i best. induction gs as [|g gs IH]; intros i best Hgs Hi Hb; [done|]. cbn [best_run].
  assert (Hlt : (i < length all)%nat) by (apply (f_equal length) in Hgs; rewrite length_drop in Hgs; simpl in Hgs; lia).
  apply IH; [|done|].
  - apply (f_equal (drop 1)) in Hgs. rewrite drop_drop in Hgs. by rewrite Nat.add_comm in Hgs.
  - destruct (Nat.leb_spec 2 (zero_run (g :: gs))) as [Hz|]; [|done]. cbn [andb]. destruct (_ <? _)%nat; [|done].
    destruct (zero_run_split (g :: gs)) as [r Hr]. set (l := zero_run (g :: gs)) in *. rewrite Hgs in Hr. split.
    + apply (f_equal length) in Hr. rewrite length_app, length_replicate, length_drop in Hr. lia.
    + replace (i + l - i)%nat with l by lia. rewrite <- drop_drop, Hr, drop_app_length' by (by rewrite length_replicate).
      rewrite <- Hr. by rewrite take_drop.
Qed.

Lemma string6_runs v : good_run (v6_groups v) (best_run (v6_groups v) 0 None).
Proof. by apply best_run_good; [|simpl; lia|]. Qed.

(** ** Round trip *)

Lemma hex_groups_chars gs c : Forall is_group gs -> c ∈ hex_groups gs -> is_Some (hex_val c) \/ c = ":"%char.
Proof.
  intros Hg. unfold hex_groups. induction Hg as [|x gs Hx Hg IH]; [set_solver|].
  destruct gs as [|y gs]; [cbn; eauto using appendHex_chars|]. change (Join _ _) with (appendHex x ++ ":"%char :: hex_groups (y :: gs)).
  rewrite elem_of_app, elem_of_cons. intros [H|[->|H]]; [left; by eapply appendHex_chars|by right|by apply IH].
Qed.

Lemma string6_chars v c : c ∈ string6 v -> is_Some (hex_val c) \/ c = ":"%char.
Proof.
  unfold string6. pose proof (v6_groups_range v) as Hg. destruct (best_run _ 0 None) as [[s e]|]; [|by apply hex_groups_chars].
  rewrite !elem_of_app. intros [H|[H|H]].
  - eapply hex_groups_chars; [|exact H]. by apply Forall_take.
  - right. cbn in H. set_solver.
  - eapply hex_groups_chars; [|exact H]. by apply Forall_drop.
Qed.

(** A text of hexadecimal digits and colons is read as IPv6. *)
Lemma parse_addr_scan_v6 inp s :
  Forall (fun c => is_Some (hex_val c) \/ c = ":"%char) s -> ":"%char ∈ s -> parse_addr_scan inp s = parseIPv6 inp.
Proof.
  induction 1 as [|c s Hc _ IH]; [set_solver|]. intros Hin. cbn [parse_addr_scan].
  destruct Hc as [Hc| ->]; [|done]. destruct (hex_not_colon c Hc) as (H1 & H2 & H3).
  rewrite (proj2 (Ascii.eqb_neq _ _) H1), (proj2 (Ascii.eqb_neq _ _) H2), (proj2 (Ascii.eqb_neq _ _) H3). apply IH. set_solver.
Qed.

Lemma string6_colon v : ":"%char ∈ string6 v.
Proof.
  unfold string6. destruct (best_run _ 0 None) as [[s e]|].
  - rewrite !elem_of_app. right. left. cbn. left.
  - unfold v6_groups. cbn [seq fmap list_fmap]. rewrite hex_groups_cons. rewrite elem_of_app. right. left.
Qed.

(** The bytes around the "::", with the zeros put back. *)
Lemma finish_run inp gs s e :
  (s + 2 <= e <= length gs)%nat -> length gs = 8%nat -> gs = take s gs ++ replicate (e - s) 0 ++ drop e gs ->
  finish_v6 inp [] (group_bytes (take s gs) ++ group_bytes (drop e gs), Some (2 * s)%nat, []) = Ok (Addr6 (be_val (group_bytes gs)) []).
Proof.
  intros He Hl Hgs. unfold finish_v6. rewrite length_app, !length_group_bytes, length_take, length_drop.
  rewrite (proj2 (Nat.ltb_lt _ _)) by lia. rewrite take_app_length', drop_app_length' by (rewrite length_group_bytes, length_take; lia).
  do 3 f_equal. transitivity (group_bytes (take s gs ++ replicate (e - s) 0 ++ drop e gs)); [|by rewrite <- Hgs].
  rewrite !group_bytes_app. f_equal. f_equal.
  assert (Hz : forall n, group_bytes (replicate n 0) = replicate (2 * n) 0).
  { induction n as [|n IH]; [done|]. cbn [replicate]. replace (2 * S n)%nat with (S (S (2 * n))) by lia. cbn [replicate].
    rewrite <- IH. done. }
  rewrite Hz. f_equal. lia.
Qed.

Lemma parse_v6_body_string6 inp v : 0 <= v < 2 ^ 128 -> parse_v6_body inp (string6 v) [] = Ok (Addr6 v []).
Proof.
  intros Hv. pose proof (string6_runs v) as Hr. pose proof (v6_groups_range v) as Hg. pose proof (be_val_v6_groups v Hv) as Hval.
  assert (Hl : length (v6_groups v) = 8%nat) by done. unfold string6. destruct (best_run _ 0 None) as [[s e]|]; cbn [good_run] in Hr.
  - destruct Hr as [He Hgs]. unfold parse_v6_body. assert (Hgt : Forall is_group (take s (v6_groups v))) by (by apply Forall_take).
    assert (Hgd : Forall is_group (drop e (v6_groups v))) by (by apply Forall_drop). pose proof (finish_run inp _ s e He Hl Hgs) as Hf.
    rewrite Hval in Hf. destruct (decide (s = 0%nat)) as [->|Hs].
    + cbn [take hex_groups fmap list_fmap Join]. rewrite app_nil_l, CutPrefix_app. cbn [take] in Hf.
      destruct (drop e (v6_groups v)) as [|h hs] eqn:Ed.
      * cbn [hex_groups fmap list_fmap Join]. f_equal. f_equal. rewrite <- Hval, Hgs. cbn [take]. rewrite app_nil_l, app_nil_r.
        replace (e - 0)%nat with 8%nat by (apply (f_equal length) in Ed; rewrite length_drop in Ed; simpl in Ed; lia). done.
      * destruct (hex_groups_head h hs) as (c & t & E & _); [by apply Forall_cons_iff in Hgd as [? _]|]. rewrite E, <- E.
        rewrite loop_groups; [|done|done|apply (f_equal length) in Ed; rewrite length_drop in Ed; simpl in *; lia]. exact Hf.
    + destruct (take s (v6_groups v)) as [|g gs] eqn:Et; [apply (f_equal length) in Et; rewrite length_take in Et; simpl in Et; lia|].
      destruct (hex_groups_head g gs) as (c & t & E & Hc); [by apply Forall_cons_iff in Hgt as [? _]|].
      assert (Hnp : CutPrefix (hex_groups (g :: gs) ++ str "::" ++ hex_groups (drop e (v6_groups v))) (str "::") = None).
      { apply CutPrefix_None. intros r. rewrite E. intros [= -> _]. by apply hex_not_colon in Hc as [? _]. }
      rewrite Hnp, loop_groups_ellipsis; [|done|done|done|].
      * cbn [rbind]. rewrite app_nil_l. replace (length [] + 2 * length (g :: gs))%nat with (2 * s)%nat; [exact Hf|].
        apply (f_equal length) in Et. rewrite length_take in Et. simpl in *. lia.
      * apply (f_equal length) in Et. rewrite length_take in Et. rewrite length_drop. simpl in *. lia.
  - unfold parse_v6_body. destruct (v6_groups v) as [|g gs] eqn:Eg; [done|].
    destruct (hex_groups_head g gs) as (c & t & E & Hc); [by apply Forall_cons_iff in Hg as [? _]|].
    assert (Hnp : CutPrefix (hex_groups (g :: gs)) (str "::") = None).
    { apply CutPrefix_None. intros r. rewrite E. intros [= -> _]. by apply hex_not_colon in Hc as [? _]. }
    rewrite Hnp, loop_groups; [|done|done|lia]. cbn [rbind app]. unfold finish_v6.
    rewrite (proj2 (Nat.ltb_ge _ _)) by (rewrite length_group_bytes, Hl; lia). by rewrite Hval.
Qed.

Lemma ParseAddr_string6 v : 0 <= v < 2 ^ 128 -> ParseAddr (string6 v) = Ok (Addr6 v []).
Proof.
  intros Hv. unfold ParseAddr. assert (Hc : Forall (fun c => is_Some (hex_val c) \/ c = ":"%char) (string6 v)).
  { apply List.Forall_forall. intros c Hc%list_elem_of_In. by eapply string6_chars. }
  rewrite parse_addr_scan_v6; [|done|apply string6_colon]. unfold parseIPv6, Cut.
  assert (Hno : IndexByte (string6 v) "%" = None).
  { apply IndexByte_None. intros H%string6_chars. destruct H as [[d Hd]|]; [by vm_compute in Hd|done]. }
  rewrite Hno. by apply parse_v6_body_string6.
Qed.

Lemma mapped_value v : 0 <= v < 2 ^ 128 -> Z.shiftr v 32 = 0xffff -> v = 0xffff * 2 ^ 32 + Z.land v (Z.ones 32).
Proof. intros Hv. rewrite Z.land_ones, Z.shiftr_div_pow2 by lia. pose proof (Z.div_mod v (2 ^ 32)). lia. Qed.

(** Addresses without a zone. *)
Definition plain_addr (a : Addr) : Prop := wf_addr a = true /\ IsValid a = true /\ Zone a = [].

Lemma wf_bounds4 v : wf_addr (Addr4 v) = true -> 0 <= v < 2 ^ 32.
Proof. cbn [wf_addr]. rewrite andb_true_iff, Z.leb_le, Z.ltb_lt. done. Qed.

Lemma wf_bounds6 v z : wf_addr (Addr6 v z) = true -> 0 <= v < 2 ^ 128.
Proof. cbn [wf_addr]. rewrite andb_true_iff, Z.leb_le, Z.ltb_lt. done. Qed.

Lemma low32 v : 0 <= Z.land v (Z.ones 32) < 2 ^ 32.
Proof. rewrite Z.land_ones by lia. apply Z.mod_pos_bound. lia. Qed.

(** Parsing the text of an address gives the address back. *)
Lemma ParseAddr_addr_string a : plain_addr a -> ParseAddr (addr_string a) = Ok a.
Proof.
  intros (Hwf & Hv & Hz). destruct a as [|v|v z]; [done| |].
  - apply ParseAddr_string4. by apply wf_bounds4.
  - simpl in Hz. subst z. apply wf_bounds6 in Hwf. unfold addr_string. cbn [Is4In6].
    destruct (Z.eqb_spec (Z.shiftr v 32) 0xffff) as [E|]; rewrite app_nil_r.
    + rewrite ParseAddr_mapped by apply low32. by rewrite <- mapped_value.
    + by apply ParseAddr_string6.
Qed.

Lemma addr_string_inj a b : plain_addr a -> plain_addr b -> addr_string a = addr_string b -> a = b.
Proof. intros Ha%ParseAddr_addr_string Hb%ParseAddr_addr_string E. congruence. Qed.

(** The characters an address is written with. *)
Definition addr_text_char (c : ascii) : Prop := is_Some (hex_val c) \/ c = ":"%char \/ c = "."%char.

Lemma addr_string_chars a c : plain_addr a -> c ∈ addr_string a -> addr_text_char c.
Proof.
  assert (H4 : forall v, 0 <= v < 2 ^ 32 -> c ∈ string4 v -> addr_text_char c).
  { intros v Hv Hc. destruct (string4_chars v c Hv Hc) as [Hd| ->]; [|by right; right]. left. unfold hex_val. rewrite Hd. eauto. }
  intros (Hwf & Hv & Hz). destruct a as [|v|v z]; [done|apply H4; by apply wf_bounds4|]. simpl in Hz. subst z.
  unfold addr_string. rewrite app_nil_r. destruct (Is4In6 _).
  - rewrite elem_of_app. intros [Hc|Hc]; [|eapply H4; [apply low32|done]]. cbn in Hc. rewrite !elem_of_cons, elem_of_nil in Hc.
    destruct_or?; subst; (by left; vm_compute; eauto) || (by right; left) || done.
  - intros [Hc|Hc]%string6_chars; [by left|by right; left].
Qed.

Lemma addr_string_nonempty a : plain_addr a -> addr_string a <> [].
Proof. intros Ha E. apply ParseAddr_addr_string in Ha. by rewrite E in Ha. Qed.
