(* ===== verification/GoFloat.v ===== *)
(** * Times, durations and floating-point numbers

    Times are nanoseconds on the monotonic clock and durations 64-bit
    nanoseconds. The program computes with float64 in one place, the token
    buckets; the operations it uses are a type class with two instances:
    IEEE 754 binary64, which is what the program runs on, and exact rational
    numbers. *)

From Stdlib Require Import ZArith QArith Lia Bool SpecFloat Qminmax Lqa.
From stdpp Require Import base tactics.
From S2P Require Import Prelude.

Local Open Scope Z_scope.

(** ** Durations *)

Definition Second : Z := 1000000000.
Definition Millisecond : Z := 1000000.
Definition Minute : Z := 60 * Second.

Definition min_duration : Z := - 2 ^ 63.
Definition max_duration : Z := 2 ^ 63 - 1.

(** [t.Sub(u)]: saturates at the extreme durations. *)
Definition Sub (t u : Z) : Z := Z.max min_duration (Z.min max_duration (t - u)).

Lemma Sub_exact t u : min_duration <= t - u <= max_duration -> Sub t u = t - u.
Proof. unfold Sub. lia. Qed.

Lemma Sub_le t u : 0 <= t - u -> 0 <= Sub t u <= t - u.
Proof. unfold Sub, min_duration, max_duration. lia. Qed.

(** ** Floating-point numbers *)

Class GoFloat (F : Type) := {
  of_int : Z -> F;
  fadd : F -> F -> F;
  fsub : F -> F -> F;
  fmul : F -> F -> F;
  fdiv : F -> F -> F;
  fmin : F -> F -> F;
  flt : F -> F -> bool;
  fle : F -> F -> bool
}.

(** [d.Seconds()]: whole seconds and the remaining nanoseconds apart. *)
Definition Seconds {F} `{!GoFloat F} (d : Z) : F :=
  fadd (of_int (Z.quot d Second)) (fdiv (of_int (Z.rem d Second)) (of_int Second)).

(** *** Binary64 *)

Definition float64 : Type := spec_float.

Definition float64_min (x y : float64) : float64 :=
  match x, y with
  | S754_nan, _ | _, S754_nan => S754_nan
  | _, _ => if SFltb y x then y else x
  end.

#[export] Instance float64_ops : GoFloat float64 := {|
  of_int z := binary_normalize 53 1024 z 0 false;
  fadd := SFadd 53 1024;
  fsub := SFsub 53 1024;
  fmul := SFmul 53 1024;
  fdiv := SFdiv 53 1024;
  fmin := float64_min;
  flt := SFltb;
  fle := SFleb
|}.

(** *** Exact arithmetic *)

#[export] Instance rational_ops : GoFloat Q := {|
  of_int := inject_Z;
  fadd := Qplus;
  fsub := Qminus;
  fmul := Qmult;
  fdiv := Qdiv;
  fmin := Qmin;
  flt x y := negb (Qle_bool y x);
  fle := Qle_bool
|}.

Lemma Qlt_ops (x y : Q) : flt x y = true <-> (x < y)%Q.
Proof.
  cbn. rewrite negb_true_iff. destruct (Qle_bool y x) eqn:E.
  - apply Qle_bool_iff in E. split; [done|]. intros H. by apply Qle_not_lt in E.
  - split; [|done]. intros _. apply Qnot_le_lt. intros H%Qle_bool_iff. congruence.
Qed.

Lemma Qle_ops (x y : Q) : fle x y = true <-> (x <= y)%Q.
Proof. apply Qle_bool_iff. Qed.

(** Seconds are exact on rational numbers. *)
Lemma Seconds_exact d : (Seconds (F := Q) d == inject_Z d / inject_Z Second)%Q.
Proof.
  unfold Seconds. cbn [fadd fdiv of_int rational_ops].
  assert (E : d = (Z.quot d Second * Second + Z.rem d Second)%Z) by (rewrite Z.mul_comm; apply Z.quot_rem').
  rewrite E at 3. rewrite inject_Z_plus, inject_Z_mult. field. discriminate.
Qed.
