(* ===== verification/GoTime.v ===== *)
(** * Parsing durations: Go's [time.ParseDuration]

    The function follows the library, with the wrap-around of its unsigned
    accumulators written out and fractions computed in binary64. *)

From Stdlib Require Import ZArith NArith Ascii String Lia Bool List SpecFloat.
From stdpp Require Import base tactics list strings option.
From S2P Require Import Prelude GoStrings GoFloat.

Local Open Scope Z_scope.

Definition u64 (x : Z) : Z := x mod 2 ^ 64.
Definition i64 (x : Z) : Z := (x + 2 ^ 63) mod 2 ^ 64 - 2 ^ 63.

Lemma i64_range x : min_duration <= i64 x <= max_duration.
Proof. unfold i64, min_duration, max_duration. pose proof (Z.mod_pos_bound (x + 2 ^ 63) (2 ^ 64)). lia. Qed.

(** [uint64(x)] for a non-negative float. *)
Definition float_trunc (x : float64) : Z :=
  match x with
  | S754_finite false m e => if 0 <=? e then Z.pos m * 2 ^ e else Z.pos m / 2 ^ (- e)
  | _ => 0
  end.

(** [leadingInt]: the number and the rest, or an overflow. *)
Fixpoint leadingInt (s : gostring) (x : Z) : option (Z * gostring) :=
  match s with
  | [] => Some (x, [])
  | c :: rest =>
      if is_digit c then
        if 2 ^ 63 / 10 <? x then None
        else let x := x * 10 + digit_val c in
             if 2 ^ 63 <? x then None else leadingInt rest x
      else Some (x, s)
  end.

(** [leadingFraction]: digits past the precision are read and ignored. *)
Fixpoint leadingFraction (s : gostring) (x : Z) (scale : float64) (overflow : bool) : Z * float64 * gostring :=
  match s with
  | [] => (x, scale, [])
  | c :: rest =>
      if is_digit c then
        if overflow then leadingFraction rest x scale true
        else if (2 ^ 63 - 1) / 10 <? x then leadingFraction rest x scale true
        else let y := x * 10 + digit_val c in
             if 2 ^ 63 <? y then leadingFraction rest x scale true
             else leadingFraction rest y (fmul scale (of_int 10)) false
      else (x, scale, s)
  end.

(** The text of a unit: everything up to a digit or a period. *)
Definition is_number_char (c : ascii) : bool := Ascii.eqb c "." || is_digit c.
Fixpoint span_unit (s : gostring) : gostring * gostring :=
  match s with
  | [] => ([], [])
  | c :: rest => if is_number_char c then ([], s) else let '(u, r) := span_unit rest in (c :: u, r)
  end.

Definition unitMap (u : gostring) : option Z :=
  if bool_decide (u = str "ns") then Some 1
  else if bool_decide (u = str "us" \/ u = [byte 194; byte 181; "s"%char] \/ u = [byte 206; byte 188; "s"%char]) then Some 1000
  else if bool_decide (u = str "ms") then Some Millisecond
  else if bool_decide (u = str "s") then Some Second
  else if bool_decide (u = str "m") then Some Minute
  else if bool_decide (u = str "h") then Some (60 * Minute)
  else None.

Definition invalid_duration {A} (orig : gostring) : result A := Err (EWrap (str "time: invalid duration") (ENew orig)).

(** One round of the loop: the nanoseconds it adds and the rest. *)
Definition duration_term (orig s : gostring) : result (Z * gostring) :=
  match s with
  | [] => invalid_duration orig
  | c :: _ =>
      if negb (is_number_char c) then invalid_duration orig else
      match leadingInt s 0 with
      | None => invalid_duration orig
      | Some (v, s1) =>
          let pre := negb (length s =? length s1)%nat in
          let '(f, scale, s2, post) :=
            match s1 with
            | d :: s1' => if Ascii.eqb d "." then
                            let '(f, scale, s2) := leadingFraction s1' 0 (of_int 1) false in
                            (f, scale, s2, negb (length s1' =? length s2)%nat)
                          else (0, of_int 1, s1, false)
            | [] => (0, of_int 1, s1, false)
            end in
          if negb pre && negb post then invalid_duration orig else
          let '(u, s3) := span_unit s2 in
          if bool_decide (u = []) then Err (EWrap (str "time: missing unit in duration") (ENew orig)) else
          match unitMap u with
          | None => Err (EWrap (str "time: unknown unit") (ENew u))
          | Some unit =>
              if 2 ^ 63 / unit <? v then invalid_duration orig else
              let v := v * unit in
              let v' := if 0 <? f then v + float_trunc (fmul (of_int f) (fdiv (of_int unit) scale)) else v in
              if (0 <? f) && (2 ^ 63 <? v') then invalid_duration orig else Ok (v', s3)
          end
      end
  end.

(** The loop. A round that succeeds shortens the string, so its length is
    enough fuel. *)
Fixpoint duration_loop (fuel : nat) (orig s : gostring) (d : Z) : result Z :=
  match s with
  | [] => Ok d
  | _ :: _ =>
      match fuel with
      | O => Err EPanic
      | S fuel =>
          let* (v, s) := duration_term orig s in
          let d := u64 (d + v) in
          if 2 ^ 63 <? d then invalid_duration orig else duration_loop fuel orig s d
      end
  end.

Definition ParseDuration (orig : gostring) : result Z :=
  let '(neg, s) := match orig with
                   | c :: rest => if Ascii.eqb c "-" || Ascii.eqb c "+" then (Ascii.eqb c "-", rest) else (false, orig)
                   | [] => (false, orig)
                   end in
  if bool_decide (s = str "0") then Ok 0
  else if bool_decide (s = []) then invalid_duration orig
  else
    let* d := duration_loop (length s) orig s 0 in
    if neg then Ok (i64 (- i64 d))
    else if 2 ^ 63 - 1 <? d then invalid_duration orig else Ok d.

Example ParseDuration_ex :
  ParseDuration (str "1h30m") = Ok (90 * Minute) /\ ParseDuration (str "1.5s") = Ok (1500 * Millisecond) /\
  ParseDuration (str "-2m") = Ok (- (2 * Minute)) /\ is_ok (ParseDuration (str "90")) = false /\ ParseDuration (str "0") = Ok 0.
Proof. split_and!; vm_compute; reflexivity. Qed.

(** ** Termination and bounds *)

Lemma leadingInt_rest s x v r : leadingInt s x = Some (v, r) -> (length r <= length s)%nat.
Proof.
  revert x. induction s as [|c s IH]; intros x; cbn [leadingInt]; [by intros [= _ <-]|].
  destruct (is_digit c); [|by intros [= _ <-]]. destruct (_ <? x); [done|]. destruct (_ <? _); [done|].
  intros H%IH. simpl. lia.
Qed.

Lemma leadingFraction_rest s x scale o : (length (snd (leadingFraction s x scale o)) <= length s)%nat.
Proof.
  revert x scale o. induction s as [|c s IH]; intros x scale o; cbn [leadingFraction]; [done|].
  destruct (is_digit c); [|done]. destruct o; [etrans; [apply IH|simpl; lia]|].
  repeat destruct (_ <? _); (etrans; [apply IH|simpl; lia]).
Qed.

Lemma span_unit_rest s u r : span_unit s = (u, r) -> s = u ++ r.
Proof.
  revert u. induction s as [|c s IH]; intros u; cbn [span_unit]; [by intros [= <- <-]|].
  destruct (is_number_char c); [by intros [= <- <-]|]. destruct (span_unit s) as [u' r'] eqn:E. intros [= <- <-].
  simpl. f_equal. by apply IH.
Qed.

Lemma duration_term_shrinks orig s v r : duration_term orig s = Ok (v, r) -> (length r < length s)%nat.
Proof.
  unfold duration_term. destruct s as [|c s]; [done|]. destruct (negb (is_number_char c)); [done|].
  destruct (leadingInt (c :: s) 0) as [[n s1]|] eqn:E1; [|done]. apply leadingInt_rest in E1.
  assert (Hfrac : forall f scale s2 post,
    (match s1 with
     | d :: s1' => if Ascii.eqb d "." then let '(f, scale, s2) := leadingFraction s1' 0 (of_int 1) false in
                     (f, scale, s2, negb (length s1' =? length s2)%nat) else (0, of_int 1, s1, false)
     | [] => (0, of_int 1, s1, false) end) = (f, scale, s2, post) -> (length s2 <= length s1)%nat).
  { intros f scale s2 post. destruct s1 as [|d s1']; [by intros [= _ _ <- _]|]. destruct (Ascii.eqb d "."); [|by intros [= _ _ <- _]].
    pose proof (leadingFraction_rest s1' 0 (of_int 1) false). destruct (leadingFraction _ _ _ _) as [[f' sc'] s2'].
    intros [= _ _ <- _]. simpl in *. lia. }
  destruct (match s1 with [] => _ | _ => _ end) as [[[f scale] s2] post]. specialize (Hfrac _ _ _ _ eq_refl).
  destruct (negb _ && negb post); [done|]. destruct (span_unit s2) as [u s3] eqn:E3. apply span_unit_rest in E3.
  case_bool_decide as Hu; [done|]. destruct (unitMap u) as [unit|]; [|done]. destruct (_ <? n); [done|].
  destruct (_ && _); [done|]. intros [= _ <-]. rewrite E3, length_app in Hfrac. destruct u; [done|]. simpl in *. lia.
Qed.

Lemma duration_term_error orig s : duration_term orig s <> Err EPanic.
Proof.
  unfold duration_term. repeat (case_match; try done).
Qed.

Lemma duration_loop_fuel fuel orig s d : (length s <= fuel)%nat -> duration_loop fuel orig s d <> Err EPanic.
Proof.
  revert s d. induction fuel as [|fuel IH]; intros [|c s] d Hf; cbn [duration_loop]; try done; [simpl in Hf; lia|].
  destruct (duration_term orig (c :: s)) as [[v r]|e] eqn:E; cbn [rbind].
  - destruct (_ <? _); [done|]. apply IH. apply duration_term_shrinks in E. simpl in *. lia.
  - intros [= ->]. by apply duration_term_error in E.
Qed.

Lemma duration_loop_range fuel orig s d n : 0 <= d <= 2 ^ 63 -> duration_loop fuel orig s d = Ok n -> 0 <= n <= 2 ^ 63.
Proof.
  revert s d. induction fuel as [|fuel IH]; intros [|c s] d Hd; cbn [duration_loop]; try (by intros [= <-]); try done.
  destruct (duration_term orig (c :: s)) as [[v r]|e]; cbn [rbind]; [|done].
  destruct (Z.ltb_spec (2 ^ 63) (u64 (d + v))) as [|Hle]; [done|]. apply IH. unfold u64 in *.
  pose proof (Z.mod_pos_bound (d + v) (2 ^ 64)). lia.
Qed.

(** The loop never runs out of fuel, and the result is a 64-bit duration. *)
Lemma ParseDuration_total s : ParseDuration s <> Err EPanic.
Proof.
  unfold ParseDuration. destruct (match s with [] => _ | _ => _ end) as [neg t].
  case_bool_decide; [done|]. case_bool_decide; [done|]. pose proof (duration_loop_fuel (length t) s t 0 (le_n _)) as H'.
  destruct (duration_loop _ _ _ _) as [d|e]; cbn [rbind]; [|congruence]. destruct neg; [done|]. by destruct (_ <? d).
Qed.

Lemma ParseDuration_range s d : ParseDuration s = Ok d -> min_duration <= d <= max_duration.
Proof.
  unfold ParseDuration. destruct (match s with [] => _ | _ => _ end) as [neg t].
  case_bool_decide; [intros [= <-]; unfold min_duration, max_duration; lia|]. case_bool_decide; [done|].
  destruct (duration_loop _ _ _ _) as [n|] eqn:E; cbn [rbind]; [|done]. apply duration_loop_range in E; [|lia].
  destruct neg; [intros [= <-]; apply i64_range|]. destruct (Z.ltb_spec (2 ^ 63 - 1) n); [done|].
  intros [= <-]. unfold min_duration, max_duration. lia.
Qed.

(** ** A unit is required *)

Lemma leadingInt_digits s x v r : Forall (fun c => is_digit c = true) s -> leadingInt s x = Some (v, r) -> r = [].
Proof.
  intros Hs. revert x. induction Hs as [|c s Hc _ IH]; intros x; cbn [leadingInt]; [by intros [= _ <-]|].
  rewrite Hc. destruct (_ <? x); [done|]. destruct (_ <? _); [done|]. apply IH.
Qed.

Lemma bare_number_rejected s : Forall (fun c => is_digit c = true) s -> s <> str "0" -> is_ok (ParseDuration s) = false.
Proof.
  intros Hs H0. unfold ParseDuration.
  assert (E : (match s with c :: rest => if Ascii.eqb c "-" || Ascii.eqb c "+" then (Ascii.eqb c "-", rest) else (false, s) | [] => (false, s) end) = (false, s)).
  { destruct Hs as [|c s Hc _]; [done|]. destruct (Ascii.eqb_spec c "-") as [->|]; [done|]. by destruct (Ascii.eqb_spec c "+") as [->|]. }
  rewrite E. rewrite bool_decide_false by done. case_bool_decide as Hn; [done|].
  destruct s as [|c s]; [done|]. cbn [length duration_loop].
  assert (Ht : is_ok (duration_term (c :: s) (c :: s)) = false).
  { unfold duration_term. destruct (negb (is_number_char c)); [done|].
    destruct (leadingInt (c :: s) 0) as [[v r]|] eqn:El; [|done]. rewrite (leadingInt_digits _ _ _ _ Hs El). done. }
  by destruct (duration_term (c :: s) (c :: s)).
Qed.
