(* ===== verification/Regexp.v ===== *)
(** * The part of Go's [regexp] package the program uses

    The program compiles two kinds of expressions: those it generates itself
    for wildcard patterns, and those an operator writes after "~". The
    generated ones lie in the fragment of the syntax that [parse] covers
    (literals, escapes, classes, groups, [(?i)], alternation, repetition and
    the two anchors, with the meaning of Go's default flags), so their
    behaviour is fully modelled. Expressions outside the fragment are passed
    to [engine], the rest of [regexp.Compile], which is a parameter.

    Subjects are host names, which are ASCII, so a byte is a character. *)

From Stdlib Require Import ZArith NArith Ascii String Lia Bool List.
From stdpp Require Import base tactics list strings option sets.
From S2P Require Import Prelude GoStrings.

(** ** Syntax and meaning *)

Definition ranges := list (ascii * ascii).

Inductive re :=
| RVoid
| REps
| RBol                                         (* ^ : start of the text *)
| REol                                         (* $ : end of the text *)
| RChr (fold neg : bool) (rs : ranges)         (* one character of a class *)
| RCat (r1 r2 : re)
| RAlt (r1 r2 : re)
| RStar (r : re).

#[global] Instance re_eq_dec : EqDecision re.
Proof. solve_decision. Defined.

Definition RPlus (r : re) : re := RCat r (RStar r).
Definition ROpt (r : re) : re := RAlt r REps.
Definition RLit (fold : bool) (c : ascii) : re := RChr fold false [(c, c)].
(** Any character at all: what surrounds an unanchored match. *)
Definition RAny : re := RChr false true [].

Definition to_upper_byte (c : ascii) : ascii :=
  if is_lower c then ascii_of_N (N_of_ascii c - 32) else c.

Definition in_ranges (rs : ranges) (c : ascii) : bool := existsb (fun r => in_range (fst r) (snd r) c) rs.

(** [c] matches a class; with [fold] in either case, and the class is negated last. *)
Definition chr_match (fold neg : bool) (rs : ranges) (c : ascii) : bool :=
  xorb neg (in_ranges rs c || (fold && (in_ranges rs (to_lower_byte c) || in_ranges rs (to_upper_byte c)))).

(** [M b e r w]: [r] matches exactly [w], where [b] and [e] tell whether [w]
    starts at the start and ends at the end of the text. *)
Inductive M : bool -> bool -> re -> gostring -> Prop :=
| M_eps b e : M b e REps []
| M_bol e : M true e RBol []
| M_eol b : M b true REol []
| M_chr b e fold neg rs c : chr_match fold neg rs c = true -> M b e (RChr fold neg rs) [c]
| M_cat b e r1 r2 w1 w2 :
    M b (e && bool_decide (w2 = [])) r1 w1 -> M (b && bool_decide (w1 = [])) e r2 w2 ->
    M b e (RCat r1 r2) (w1 ++ w2)
| M_alt_l b e r1 r2 w : M b e r1 w -> M b e (RAlt r1 r2) w
| M_alt_r b e r1 r2 w : M b e r2 w -> M b e (RAlt r1 r2) w
| M_star_nil b e r : M b e (RStar r) []
| M_star_cons b e r c w1 w2 :
    M b (e && bool_decide (w2 = [])) r (c :: w1) -> M false e (RStar r) w2 ->
    M b e (RStar r) ((c :: w1) ++ w2).

(** [MatchString] searches for a match anywhere in the text. *)
Definition matches (r : re) (s : gostring) : Prop :=
  exists pre w post, s = pre ++ w ++ post /\ M (bool_decide (pre = [])) (bool_decide (post = [])) r w.

(** ** Executable matching by derivatives *)

Fixpoint nullable (b e : bool) (r : re) : bool :=
  match r with
  | RVoid => false
  | REps => true
  | RBol => b
  | REol => e
  | RChr _ _ _ => false
  | RCat r1 r2 => nullable b e r1 && nullable b e r2
  | RAlt r1 r2 => nullable b e r1 || nullable b e r2
  | RStar _ => true
  end.

(** Smart constructors keep derivatives small. *)
Definition mkCat (r1 r2 : re) : re :=
  match r1, r2 with
  | RVoid, _ => RVoid
  | REps, _ => r2
  | _, RVoid => RVoid
  | _, _ => RCat r1 r2
  end.
Definition mkAlt (r1 r2 : re) : re :=
  match r1, r2 with
  | RVoid, _ => r2
  | _, RVoid => r1
  | _, _ => if bool_decide (r1 = r2) then r1 else RAlt r1 r2
  end.

(** What remains of [r] after the character [c], read at the start of the text
    if [b]. *)
Fixpoint der (b : bool) (c : ascii) (r : re) : re :=
  match r with
  | RVoid | REps | RBol | REol => RVoid
  | RChr fold neg rs => if chr_match fold neg rs c then REps else RVoid
  | RCat r1 r2 =>
      mkAlt (mkCat (der b c r1) r2) (if nullable b false r1 then der b c r2 else RVoid)
  | RAlt r1 r2 => mkAlt (der b c r1) (der b c r2)
  | RStar r => mkCat (der b c r) (RStar r)
  end.

Fixpoint match_from (b : bool) (r : re) (s : gostring) : bool :=
  match s with
  | [] => nullable b true r
  | c :: s => match_from false (der b c r) s
  end.

Definition MatchString (r : re) (s : gostring) : bool :=
  match_from true (RCat (RStar RAny) (RCat r (RStar RAny))) s.

(** ** Parsing *)

Inductive parsed := POk (r : re) | PErr | POut.

(** An open group: finished alternatives, items of the current one (both in
    reverse), and the fold flag to restore when it closes. *)
Record frame := mkFrame { f_alts : list re; f_items : list re; f_saved : bool }.

Definition seq_of (items : list re) : re := foldr RCat REps (rev items).
Definition close (f : frame) : re := fold_left (fun acc a => RAlt a acc) (f_alts f) (seq_of (f_items f)).
Definition push (r : re) (f : frame) : frame := mkFrame (f_alts f) (r :: f_items f) (f_saved f).
Definition new_alt (f : frame) : frame := mkFrame (seq_of (f_items f) :: f_alts f) [] (f_saved f).

Definition is_alnum (c : ascii) : bool := is_digit c || is_lower c || is_upper c.
Definition is_ascii (c : ascii) : bool := (code c <? 128)%Z.

Definition digit_ranges : ranges := [("0", "9")]%char.
Definition word_ranges : ranges := [("0", "9"); ("A", "Z"); ("_", "_"); ("a", "z")]%char.
Definition space_ranges : ranges :=
  [(ascii_of_N 9, ascii_of_N 10); (ascii_of_N 12, ascii_of_N 13); (" ", " ")]%char.

(** Perl classes: negated or not, and their ranges. *)
Definition perl_class (c : ascii) : option (bool * ranges) :=
  if Ascii.eqb c "d" then Some (false, digit_ranges)
  else if Ascii.eqb c "w" then Some (false, word_ranges)
  else if Ascii.eqb c "s" then Some (false, space_ranges)
  else if Ascii.eqb c "D" then Some (true, digit_ranges)
  else if Ascii.eqb c "W" then Some (true, word_ranges)
  else if Ascii.eqb c "S" then Some (true, space_ranges)
  else None.

Inductive class_parsed := CErr | COut | COk (rs : ranges) (rest : gostring).

(** One class character: a plain one or an escaped punctuation character. *)
Definition class_char (s : gostring) : option (option (ascii * gostring)) :=
  match s with
  | [] => Some None                                   (* missing closing ] *)
  | c :: s =>
      if Ascii.eqb c "\" then
        match s with
        | [] => Some None                             (* trailing backslash *)
        | d :: s => if is_ascii d && negb (is_alnum d) then Some (Some (d, s)) else None
        end
      else Some (Some (c, s))
  end.

(** A Perl class inside a class: [c] and what follows it. *)
Definition class_perl (c : ascii) (s : gostring) : option (bool * ranges * gostring) :=
  if Ascii.eqb c "\" then
    match s with
    | d :: s => match perl_class d with Some (neg, rs) => Some (neg, rs, s) | None => None end
    | [] => None
    end
  else None.

(** The body of a class after "[" or "[^". *)
Fixpoint parse_class (fuel : nat) (first : bool) (rs : ranges) (s : gostring) : class_parsed :=
  match fuel with
  | O => CErr
  | S fuel =>
      match s with
      | [] => CErr
      | c :: s' =>
          if Ascii.eqb c "]" && negb first then COk rs s'
          else if negb (is_ascii c) then COut
          else if HasPrefix s (str "[:") then COut
          else
            match class_perl c s' with
            | Some (false, prs, s'') => parse_class fuel false (prs ++ rs) s''
            | Some (true, _, _) => COut
            | None =>
                match class_char s with
                | None => COut
                | Some None => CErr
                | Some (Some (lo, t)) =>
                    match t with
                    | dash :: x :: t' =>
                        if Ascii.eqb dash "-" && negb (Ascii.eqb x "]") then
                          match class_char (x :: t') with
                          | None => COut
                          | Some None => CErr
                          | Some (Some (hi, t'')) =>
                              if negb (is_ascii hi) then COut
                              else if (code hi <? code lo)%Z then CErr
                              else parse_class fuel false ((lo, hi) :: rs) t''
                          end
                        else parse_class fuel false ((lo, lo) :: rs) t
                    | _ => parse_class fuel false ((lo, lo) :: rs) t
                    end
                end
            end
      end
  end.

(** Nested groups deeper than this are left to [engine] (Go rejects very deep
    expressions). *)
Definition max_depth : nat := 200.

(** [*], [+] and [?] *)
Definition is_repeat (c : ascii) : bool := Ascii.eqb c "*" || Ascii.eqb c "+" || Ascii.eqb c "?".
Definition repeat_of (c : ascii) (r : re) : re :=
  if Ascii.eqb c "*" then RStar r else if Ascii.eqb c "+" then RPlus r else ROpt r.

(** The parser: [cur] is the innermost open group, [stk] the enclosing ones,
    [rep] tells that the last item was a repetition (two in a row are an
    error). Every round reads at least one character. *)
Fixpoint parse_loop (lim fuel : nat) (s : gostring) (fold : bool) (cur : frame) (stk : list frame) (rep : bool) : parsed :=
  match fuel with
  | O => POut
  | S fuel =>
      match s with
      | [] => match stk with [] => POk (close cur) | _ => PErr end
      | c :: s =>
          if negb (is_ascii c) then POut
          else if Ascii.eqb c "{" then POut
          else if Ascii.eqb c "|" then parse_loop lim fuel s fold (new_alt cur) stk false
          else if Ascii.eqb c ")" then
            match stk with
            | [] => PErr
            | f :: stk => parse_loop lim fuel s (f_saved cur) (push (close cur) f) stk false
            end
          else if Ascii.eqb c "(" then
            if (lim <=? length stk)%nat then POut else
            match CutPrefix s (str "?:"), CutPrefix s (str "?i)"), CutPrefix s (str "?i:") with
            | Some s, _, _ => parse_loop lim fuel s fold (mkFrame [] [] fold) (cur :: stk) false
            | _, Some s, _ => parse_loop lim fuel s true cur stk false
            | _, _, Some s => parse_loop lim fuel s true (mkFrame [] [] fold) (cur :: stk) false
            | None, None, None =>
                if HasPrefix s (str "?") then POut
                else parse_loop lim fuel s fold (mkFrame [] [] fold) (cur :: stk) false
            end
          else if is_repeat c then
            match f_items cur with
            | [] => PErr
            | r :: items =>
                if rep then PErr else
                let cur := mkFrame (f_alts cur) (repeat_of c r :: items) (f_saved cur) in
                match s with
                | q :: s' => if Ascii.eqb q "?" then parse_loop lim fuel s' fold cur stk true
                             else parse_loop lim fuel s fold cur stk true
                | [] => parse_loop lim fuel s fold cur stk true
                end
            end
          else if Ascii.eqb c "^" then parse_loop lim fuel s fold (push RBol cur) stk false
          else if Ascii.eqb c "$" then parse_loop lim fuel s fold (push REol cur) stk false
          else if Ascii.eqb c "." then
            parse_loop lim fuel s fold (push (RChr false true [(ascii_of_N 10, ascii_of_N 10)]) cur) stk false
          else if Ascii.eqb c "[" then
            let '(neg, s) := match CutPrefix s (str "^") with Some s => (true, s) | None => (false, s) end in
            match parse_class (S (length s)) true [] s with
            | CErr => PErr
            | COut => POut
            | COk rs s => parse_loop lim fuel s fold (push (RChr fold neg rs) cur) stk false
            end
          else if Ascii.eqb c "\" then
            match s with
            | [] => PErr
            | d :: s =>
                match perl_class d with
                | Some (neg, rs) => parse_loop lim fuel s fold (push (RChr fold neg rs) cur) stk false
                | None => if is_ascii d && negb (is_alnum d)
                          then parse_loop lim fuel s fold (push (RLit fold d) cur) stk false
                          else POut
                end
            end
          else parse_loop lim fuel s fold (push (RLit fold c) cur) stk false
      end
  end.

Definition parse_from (lim : nat) (fold : bool) (s : gostring) : parsed :=
  parse_loop lim (S (length s)) s fold (mkFrame [] [] fold) [] false.
Definition parse (s : gostring) : parsed := parse_from max_depth false s.

(** [regexp.Compile]; [engine] is its behaviour outside the fragment. *)
Definition Compile (engine : gostring -> option (gostring -> bool)) (s : gostring) : result (gostring -> bool) :=
  match parse s with
  | POk r => Ok (MatchString r)
  | PErr => Err (ERegexp s)
  | POut => match engine s with Some m => Ok m | None => Err (ERegexp s) end
  end.

(** [regexp.QuoteMeta] escapes the characters of [\.+*?()|[]{}^$]. *)
Definition special (c : ascii) : bool := ContainsByte (str "\.+*?()|[]{}^$") c.
Definition QuoteMeta (s : gostring) : gostring :=
  concat ((fun c => if special c then ["\"%char; c] else [c]) <$> s).

(** ** The matcher computes the meaning *)

Lemma M_void b e w : ~ M b e RVoid w.
Proof. inversion 1. Qed.

Lemma M_eps_iff b e w : M b e REps w <-> w = [].
Proof. split; [by inversion 1|]. intros ->. constructor. Qed.

Lemma M_chr_iff b e fold neg rs w :
  M b e (RChr fold neg rs) w <-> exists c, w = [c] /\ chr_match fold neg rs c = true.
Proof. split; [inversion 1; eauto|]. intros (c & -> & H). by constructor. Qed.

Lemma M_cat_iff b e r1 r2 w :
  M b e (RCat r1 r2) w <-> exists w1 w2, w = w1 ++ w2 /\
    M b (e && bool_decide (w2 = [])) r1 w1 /\ M (b && bool_decide (w1 = [])) e r2 w2.
Proof. split; [inversion 1; subst; eauto 10|]. intros (w1 & w2 & -> & H1 & H2). by constructor. Qed.

Lemma M_alt_iff b e r1 r2 w : M b e (RAlt r1 r2) w <-> M b e r1 w \/ M b e r2 w.
Proof. split; [inversion 1; auto|]. intros [H|H]; [by constructor|by apply M_alt_r]. Qed.

Lemma M_star_iff b e r w :
  M b e (RStar r) w <-> w = [] \/ exists c w1 w2, w = (c :: w1) ++ w2 /\
    M b (e && bool_decide (w2 = [])) r (c :: w1) /\ M false e (RStar r) w2.
Proof.
  split; [inversion 1; subst; eauto 10|].
  intros [->|(c & w1 & w2 & -> & H1 & H2)]; [apply M_star_nil|by apply M_star_cons].
Qed.

Lemma nullable_spec b e r : nullable b e r = true <-> M b e r [].
Proof.
  revert b e. induction r as [| | | |fold neg rs|r1 IH1 r2 IH2|r1 IH1 r2 IH2|r IH]; intros b e; simpl.
  - split; [done|inversion 1].
  - split; [constructor|done].
  - split; [intros ->; constructor|by inversion 1].
  - split; [intros ->; constructor|by inversion 1].
  - split; [done|inversion 1].
  - rewrite andb_true_iff, IH1, IH2, M_cat_iff. split.
    + intros [H1 H2]. exists [], []. rewrite !bool_decide_eq_true_2, !andb_true_r by done. done.
    + intros (w1 & w2 & Hw & H1 & H2). symmetry in Hw. apply app_eq_nil in Hw as [-> ->].
      rewrite !bool_decide_eq_true_2, !andb_true_r in * by done. done.
  - by rewrite orb_true_iff, IH1, IH2, M_alt_iff.
  - split; [intros _; apply M_star_nil|done].
Qed.

Lemma mkCat_spec b e r1 r2 w : M b e (mkCat r1 r2) w <-> M b e (RCat r1 r2) w.
Proof.
  assert (Hv1 : forall r, M b e (RCat RVoid r) w <-> False) by (intros r; rewrite M_cat_iff; split; [intros (? & ? & _ & H & _); by inversion H|done]).
  assert (Hv2 : forall r, M b e (RCat r RVoid) w <-> False) by (intros r; rewrite M_cat_iff; split; [intros (? & ? & _ & _ & H); by inversion H|done]).
  assert (He : forall r, M b e (RCat REps r) w <-> M b e r w).
  { intros r. rewrite M_cat_iff. setoid_rewrite M_eps_iff. split.
    - intros (w1 & w2 & -> & -> & H). by rewrite bool_decide_eq_true_2, andb_true_r in H.
    - intros H. exists [], w. by rewrite bool_decide_eq_true_2, andb_true_r. }
  assert (Hvoid : M b e RVoid w <-> False) by (split; [inversion 1|done]).
  destruct r1; simpl; rewrite ?Hv1, ?He, ?Hvoid; try done; destruct r2; rewrite ?Hv2, ?Hvoid; done.
Qed.

Lemma mkAlt_spec b e r1 r2 w : M b e (mkAlt r1 r2) w <-> M b e (RAlt r1 r2) w.
Proof.
  assert (Hvoid : M b e RVoid w <-> False) by (split; [inversion 1|done]).
  assert (Hgen : M b e (if bool_decide (r1 = r2) then r1 else RAlt r1 r2) w <-> M b e (RAlt r1 r2) w).
  { case_bool_decide as Heq; [|done]. subst. rewrite M_alt_iff. tauto. }
  rewrite M_alt_iff in *. unfold mkAlt. destruct r1; try (rewrite Hvoid; tauto); destruct r2; rewrite ?Hvoid; tauto.
Qed.

Lemma der_spec b e c r w : M false e (der b c r) w <-> M b e r (c :: w).
Proof.
  revert b e w. induction r as [| | | |fold neg rs|r1 IH1 r2 IH2|r1 IH1 r2 IH2|r IH]; intros b e w; simpl.
  - split; inversion 1.
  - split; inversion 1.
  - split; inversion 1.
  - split; inversion 1.
  - rewrite M_chr_iff. destruct (chr_match fold neg rs c) eqn:Hc.
    + rewrite M_eps_iff. split; [intros ->; eauto|]. intros (c' & Hw & _). by injection Hw.
    + split; [inversion 1|]. intros (c' & Hw & Hm). injection Hw as -> ->. congruence.
  - rewrite mkAlt_spec, M_alt_iff, mkCat_spec, !M_cat_iff. setoid_rewrite IH1. split.
    + intros [(w1 & w2 & -> & H1 & H2)|H].
      * exists (c :: w1), w2. split; [done|]. split; [done|]. by rewrite andb_false_r.
      * destruct (nullable b false r1) eqn:Hn; [|by inversion H]. apply nullable_spec in Hn. apply IH2 in H.
        exists [], (c :: w). split; [done|]. by rewrite andb_false_r, andb_true_r.
    + intros (w1 & w2 & Hw & H1 & H2). destruct w1 as [|c' w1]; simplify_eq/=.
      * right. rewrite andb_false_r in H1. apply nullable_spec in H1. rewrite H1.
        apply IH2. by rewrite andb_true_r in H2.
      * left. exists w1, w2. split; [done|]. split; [done|]. by rewrite andb_false_r in H2.
  - by rewrite mkAlt_spec, !M_alt_iff, IH1, IH2.
  - rewrite mkCat_spec, M_cat_iff, M_star_iff. setoid_rewrite IH. split.
    + intros (w1 & w2 & -> & H1 & H2). right. exists c, w1, w2. done.
    + intros [?|(c' & w1 & w2 & Hw & H1 & H2)]; [done|]. simplify_eq/=. exists w1, w2. done.
Qed.

Lemma match_from_spec b r s : match_from b r s = true <-> M b true r s.
Proof.
  revert b r. induction s as [|c s IH]; intros b r; simpl; [apply nullable_spec|].
  by rewrite IH, der_spec.
Qed.

Lemma M_any_star b e w : M b e (RStar RAny) w.
Proof.
  revert b. induction w as [|c w IH]; intros b; [apply M_star_nil|].
  apply (M_star_cons b e RAny c [] w); [by constructor|apply IH].
Qed.

(** [MatchString] finds a match anywhere in the text, if there is one. *)
Lemma MatchString_spec r s : MatchString r s = true <-> matches r s.
Proof.
  unfold MatchString, matches. rewrite match_from_spec, M_cat_iff. setoid_rewrite M_cat_iff. split.
  - intros (pre & rest & -> & _ & w & post & -> & H & _). exists pre, w, post. done.
  - intros (pre & w & post & -> & H). exists pre, (w ++ post). split; [done|]. split; [apply M_any_star|].
    exists w, post. split; [done|]. split; [done|apply M_any_star].
Qed.

(** Anchored at both ends, an expression must match the whole text. *)
Lemma matches_anchored r s : matches (RCat RBol (RCat r (RCat REol REps))) s <-> M true true r s.
Proof.
  unfold matches. split.
  - intros (pre & w & post & -> & H). apply M_cat_iff in H as (w1 & w2 & -> & H1 & H2).
    inversion H1 as [|e Hb He Hw| | | | | | |]; subst. case_bool_decide as Hp; [subst pre|done].
    apply M_cat_iff in H2 as (w1 & w3 & -> & H2 & H3). apply M_cat_iff in H3 as (w4 & w5 & -> & H4 & H5).
    apply M_eps_iff in H5 as ->. inversion H4 as [| |b Hb' He'| | | | | |]; subst.
    rewrite bool_decide_eq_true_2, andb_true_r in * by done.
    case_bool_decide as Hpost; [subst post|done]. simpl. rewrite !app_nil_r. done.
  - intros H. exists [], s, []. split; [by rewrite app_nil_r|].
    apply M_cat_iff. exists [], s. split; [done|]. split; [constructor|].
    apply M_cat_iff. exists s, []. rewrite app_nil_r, !andb_true_r. split; [done|]. split; [done|].
    apply M_cat_iff. exists [], []. split; [done|]. split; [constructor|constructor].
Qed.

(** ** Facts about the parser *)

Lemma CutPrefix_length s p r : CutPrefix s p = Some r -> length s = (length p + length r)%nat.
Proof. intros ->%CutPrefix_Some. apply length_app. Qed.

Lemma class_char_length s d t : class_char s = Some (Some (d, t)) -> (length t < length s)%nat.
Proof.
  unfold class_char. destruct s as [|c s]; [done|]. destruct (Ascii.eqb c "\").
  - destruct s as [|c' s]; [done|]. case_match; [|done]. intros [= <- <-]. simpl. lia.
  - intros [= <- <-]. simpl. lia.
Qed.

Lemma parse_class_length fuel first rs s rs' rest :
  parse_class fuel first rs s = COk rs' rest -> (length rest < length s)%nat.
Proof.
  revert first rs s. induction fuel as [|fuel IH]; intros first rs s; cbn [parse_class]; [done|].
  destruct s as [|c s]; [done|]. destruct (Ascii.eqb c "]" && negb first).
  { intros [= _ <-]. simpl. lia. }
  destruct (negb (is_ascii c)); [done|]. destruct (HasPrefix (c :: s) (str "[:")); [done|].
  destruct (class_perl c s) as [[[[] prs] s'']|] eqn:E; [done|..].
  { intros H%IH. unfold class_perl in E. destruct (Ascii.eqb c "\"); [|done].
    destruct s as [|d s]; [done|]. destruct (perl_class d) as [[neg rs0]|]; [|done].
    injection E as _ _ ->. simpl. lia. }
  destruct (class_char (c :: s)) as [[[lo t]|]|] eqn:Ec; [|done..].
  apply class_char_length in Ec. cbn [length] in Ec |- *.
  destruct t as [|dash [|x t]]; [intros H%IH; simpl in *; lia..|].
  destruct (Ascii.eqb dash "-" && negb (Ascii.eqb x "]")); [|intros H%IH; simpl in *; lia].
  destruct (class_char (x :: t)) as [[[hi t'']|]|] eqn:Eh; [|done..]. apply class_char_length in Eh.
  destruct (negb (is_ascii hi)); [done|]. destruct (code hi <? code lo)%Z; [done|]. intros H%IH. simpl in *. lia.
Qed.

(** Any fuel above the length of the input gives the same result. *)
Lemma parse_loop_fuel lim f1 f2 s fold cur stk rep :
  (length s < f1)%nat -> (length s < f2)%nat ->
  parse_loop lim f1 s fold cur stk rep = parse_loop lim f2 s fold cur stk rep.
Proof.
  revert f2 s fold cur stk rep. induction f1 as [|f1 IH]; intros f2 s fold cur stk rep H1 H2; [lia|].
  destruct f2 as [|f2]; [lia|]. cbn [parse_loop].
  destruct s as [|c s]; [done|]. cbn [length] in H1, H2.
  repeat (case_match; try done);
    repeat match goal with
    | H : CutPrefix _ _ = Some _ |- _ => apply CutPrefix_length in H
    | H : parse_class _ _ _ _ = COk _ _ |- _ => apply parse_class_length in H
    end; simplify_eq/=; try (apply IH; simpl in *; lia).
Qed.

(** The parser with as much fuel as it needs. *)
Definition run (lim : nat) (s : gostring) (fold : bool) (cur : frame) (stk : list frame) (rep : bool) : parsed :=
  parse_loop lim (S (length s)) s fold cur stk rep.

Lemma run_fuel lim f s fold cur stk rep :
  (length s < f)%nat -> parse_loop lim f s fold cur stk rep = run lim s fold cur stk rep.
Proof. intros H. apply parse_loop_fuel; lia. Qed.

(** A character that stands for itself. *)
Definition plain (c : ascii) : bool := is_ascii c && negb (special c).

Lemma loop_plain lim f c s fold cur stk rep :
  plain c = true ->
  parse_loop lim (S f) (c :: s) fold cur stk rep = parse_loop lim f s fold (push (RLit fold c) cur) stk false.
Proof. intros Hc. all_bytes c; first [discriminate Hc | reflexivity]. Qed.

Lemma loop_escaped lim f c s fold cur stk rep :
  special c = true ->
  parse_loop lim (S f) ("\"%char :: c :: s) fold cur stk rep = parse_loop lim f s fold (push (RLit fold c) cur) stk false.
Proof. intros Hc. all_bytes c; first [discriminate Hc | reflexivity]. Qed.

Lemma loop_not_dot lim f s fold cur stk rep :
  parse_loop lim (S f) (str "[^.]" ++ s) fold cur stk rep =
  parse_loop lim f s fold (push (RChr fold true [("."%char, "."%char)]) cur) stk false.
Proof. by destruct s. Qed.

Lemma run_plain lim c s fold cur stk rep :
  plain c = true -> run lim (c :: s) fold cur stk rep = run lim s fold (push (RLit fold c) cur) stk false.
Proof. intros Hc. unfold run. by rewrite loop_plain. Qed.

Lemma run_escaped lim c s fold cur stk rep :
  special c = true -> run lim ("\"%char :: c :: s) fold cur stk rep = run lim s fold (push (RLit fold c) cur) stk false.
Proof. intros Hc. unfold run at 1. rewrite loop_escaped by done. apply run_fuel. simpl. lia. Qed.

Lemma run_bol lim s fold cur stk rep : run lim ("^"%char :: s) fold cur stk rep = run lim s fold (push RBol cur) stk false.
Proof. done. Qed.

Lemma run_eol lim s fold cur stk rep : run lim ("$"%char :: s) fold cur stk rep = run lim s fold (push REol cur) stk false.
Proof. done. Qed.

(** "[^.]" *)
Definition RNotDot (fold : bool) : re := RChr fold true [("."%char, "."%char)].

Lemma run_not_dot lim s fold cur stk rep :
  run lim (str "[^.]" ++ s) fold cur stk rep = run lim s fold (push (RNotDot fold) cur) stk false.
Proof. unfold run at 1. rewrite loop_not_dot. apply run_fuel. simpl. lia. Qed.

(** "*" after an item, not followed by "?" *)
Lemma run_star lim s fold alts r items saved stk :
  head s <> Some "?"%char ->
  run lim ("*"%char :: s) fold (mkFrame alts (r :: items) saved) stk false =
  run lim s fold (mkFrame alts (RStar r :: items) saved) stk true.
Proof.
  intros Hs. unfold run. cbn [length]. destruct s as [|q s]; [done|]. cbn -[parse_loop] in *.
  assert (Hq : Ascii.eqb q "?" = false) by (apply Ascii.eqb_neq; congruence).
  cbn [parse_loop]. cbn -[parse_loop]. by rewrite Hq.
Qed.

Lemma run_plus lim s fold alts r items saved stk :
  head s <> Some "?"%char ->
  run lim ("+"%char :: s) fold (mkFrame alts (r :: items) saved) stk false =
  run lim s fold (mkFrame alts (RPlus r :: items) saved) stk true.
Proof.
  intros Hs. unfold run. cbn [length]. destruct s as [|q s]; [done|]. cbn -[parse_loop] in *.
  assert (Hq : Ascii.eqb q "?" = false) by (apply Ascii.eqb_neq; congruence).
  cbn [parse_loop]. cbn -[parse_loop]. by rewrite Hq.
Qed.

(** ** Equivalence of expressions *)

(** Two expressions with the same matches in every context. *)
Definition re_equiv (r1 r2 : re) : Prop := forall b e w, M b e r1 w <-> M b e r2 w.
#[global] Instance re_equiv_equiv : Equiv re := re_equiv.

#[global] Instance re_equiv_equivalence : Equivalence (≡@{re}).
Proof.
  split.
  - intros r b e w. done.
  - intros r1 r2 H b e w. symmetry. apply H.
  - intros r1 r2 r3 H1 H2 b e w. rewrite (H1 b e w). apply H2.
Qed.

#[global] Instance RCat_proper : Proper ((≡) ==> (≡) ==> (≡@{re})) RCat.
Proof. intros r1 r1' H1 r2 r2' H2 b e w. rewrite !M_cat_iff. by setoid_rewrite (H1 _ _ _); setoid_rewrite (H2 _ _ _). Qed.

#[global] Instance RAlt_proper : Proper ((≡) ==> (≡) ==> (≡@{re})) RAlt.
Proof. intros r1 r1' H1 r2 r2' H2 b e w. by rewrite !M_alt_iff, (H1 b e w), (H2 b e w). Qed.

#[global] Instance RStar_proper : Proper ((≡) ==> (≡@{re})) RStar.
Proof.
  assert (Hone : forall r1 r2, r1 ≡ r2 -> forall b e w, M b e (RStar r1) w -> M b e (RStar r2) w).
  { intros r1 r2 H b e w HM. remember (RStar r1) as r eqn:Er. revert Er.
    induction HM as [| | | | | | |b e r|b e r c w1 w2 H1 _ _ IH2]; intros [= ->]; [apply M_star_nil|].
    apply M_star_cons; [by apply H|by apply IH2]. }
  intros r1 r2 H b e w. split; apply Hone; [done|by symmetry].
Qed.

#[global] Instance matches_proper : Proper ((≡) ==> (=) ==> iff) matches.
Proof. intros r1 r2 H s ? <-. unfold matches. by setoid_rewrite (H _ _ _). Qed.

Lemma RCat_eps_l r : RCat REps r ≡ r.
Proof. intros b e w. rewrite <- mkCat_spec. done. Qed.

Lemma RCat_assoc r1 r2 r3 : RCat (RCat r1 r2) r3 ≡ RCat r1 (RCat r2 r3).
Proof.
  intros b e w. rewrite !M_cat_iff. setoid_rewrite M_cat_iff. split.
  - intros (w12 & w3 & -> & (w1 & w2 & -> & H1 & H2) & H3). exists w1, (w2 ++ w3). rewrite app_assoc. split; [done|].
    split.
    + replace (bool_decide (w2 ++ w3 = [])) with (bool_decide (w3 = []) && bool_decide (w2 = [])); [by rewrite andb_assoc|].
      by destruct w2, w3.
    + exists w2, w3. split; [done|]. split; [done|].
      replace (bool_decide (w1 ++ w2 = [])) with (bool_decide (w1 = []) && bool_decide (w2 = [])) in H3 by by destruct w1, w2.
      by rewrite andb_assoc in H3.
  - intros (w1 & w23 & -> & H1 & w2 & w3 & -> & H2 & H3). exists (w1 ++ w2), w3. rewrite app_assoc. split; [done|].
    split.
    + exists w1, w2. split; [done|]. split; [|done].
      replace (bool_decide (w2 ++ w3 = [])) with (bool_decide (w3 = []) && bool_decide (w2 = [])) in H1 by by destruct w2, w3.
      by rewrite andb_assoc in H1.
    + replace (bool_decide (w1 ++ w2 = [])) with (bool_decide (w1 = []) && bool_decide (w2 = [])) by by destruct w1, w2.
      by rewrite andb_assoc.
Qed.

(** A sequence of items. *)
Definition cats (l : list re) : re := foldr RCat REps l.

Lemma cats_app l1 l2 : cats (l1 ++ l2) ≡ RCat (cats l1) (cats l2).
Proof.
  induction l1 as [|r l1 IH]; simpl; [by rewrite RCat_eps_l|].
  fold (cats (l1 ++ l2)). fold (cats l1). by rewrite IH, RCat_assoc.
Qed.

Lemma M_cats_single b e r w : M b e (cats [r]) w <-> M b e r w.
Proof.
  unfold cats. simpl. rewrite M_cat_iff. split.
  - intros (u & v & -> & Hu & Hv%M_eps_iff). subst v. rewrite app_nil_r. destruct e; exact Hu.
  - intros H. exists w, []. rewrite app_nil_r, M_eps_iff. destruct e; eauto.
Qed.

Lemma matches_anchored_seq l s : matches (cats (RBol :: l ++ [REol])) s <-> M true true (cats l) s.
Proof.
  rewrite <- matches_anchored. change (cats (RBol :: l ++ [REol])) with (RCat RBol (cats (l ++ [REol]))).
  by rewrite cats_app.
Qed.

Lemma close_single items saved : close (mkFrame [] items saved) = cats (rev items).
Proof. done. Qed.

(** ** Parsing an expression inside a group

    If [s] parses on its own, then inside a group it parses to the same
    expression, whatever follows the closing parenthesis. *)

Lemma class_char_app s d t u : class_char s = Some (Some (d, t)) -> class_char (s ++ u) = Some (Some (d, t ++ u)).
Proof.
  unfold class_char. destruct s as [|c s]; [done|]. simpl. destruct (Ascii.eqb c "\"); [|by intros [= <- <-]].
  destruct s as [|x s]; [done|]. simpl. destruct (is_ascii x && negb (is_alnum x)); [|done]. by intros [= <- <-].
Qed.

Lemma parse_class_nil fuel first rs : parse_class fuel first rs [] = CErr.
Proof. by destruct fuel. Qed.

Lemma parse_class_app fuel fuel' first rs s rs' rest u :
  parse_class fuel first rs s = COk rs' rest -> (fuel <= fuel')%nat ->
  parse_class fuel' first rs (s ++ u) = COk rs' (rest ++ u).
Proof.
  revert fuel' first rs s. induction fuel as [|fuel IH]; intros fuel' first rs s; cbn [parse_class]; [done|].
  destruct fuel' as [|fuel']; [lia|]. intros H Hf. destruct s as [|c s]; [done|]. cbn [app parse_class].
  destruct (Ascii.eqb c "]" && negb first); [by injection H as -> ->|].
  destruct (negb (is_ascii c)); [done|].
  destruct (HasPrefix (c :: s) (str "[:")) eqn:Hp; [done|].
  assert (Hne : s <> []).
  { intros ->. unfold class_perl in H. destruct (Ascii.eqb c "\") eqn:Hc; simpl in H; rewrite Hc in H; [done|].
    by rewrite parse_class_nil in H. }
  assert (Hp' : HasPrefix (c :: s ++ u) (str "[:") = false).
  { destruct s as [|x s]; [done|]. unfold HasPrefix in *.
    cbn [str String.list_ascii_of_string CutPrefix app] in *.
    destruct (Ascii.eqb "[" c); [|done]. by destruct (Ascii.eqb ":" x). }
  rewrite Hp'.
  assert (Hcp : class_perl c (s ++ u) = match class_perl c s with Some (n, r, t) => Some (n, r, t ++ u) | None => None end).
  { unfold class_perl. destruct (Ascii.eqb c "\"); [|done]. destruct s as [|x s]; [done|]. simpl.
    by destruct (perl_class x) as [[]|]. }
  rewrite Hcp. destruct (class_perl c s) as [[[[] prs] s'']|]; [done|apply IH; [done|lia]|].
  destruct (class_char (c :: s)) as [[[lo t]|]|] eqn:Ec; [|done..].
  apply (class_char_app _ _ _ u) in Ec. cbn [app] in Ec. rewrite Ec.
  destruct t as [|dash [|x t]]; cbn [app].
  - by rewrite parse_class_nil in H.
  - assert (Hd : Ascii.eqb dash "-" = false).
    { apply Ascii.eqb_neq. intros ->. destruct fuel as [|fuel]; [done|]. cbn in H.
      by rewrite parse_class_nil in H. }
    specialize (IH fuel' _ _ _ H ltac:(lia)). cbn [app] in IH. by destruct u; rewrite ?Hd.
  - destruct (Ascii.eqb dash "-" && negb (Ascii.eqb x "]")).
    + destruct (class_char (x :: t)) as [[[hi t'']|]|] eqn:Eh; [|done..].
      apply (class_char_app _ _ _ u) in Eh. cbn [app] in Eh. rewrite Eh.
      destruct (negb (is_ascii hi)); [done|]. destruct (code hi <? code lo)%Z; [done|]. apply IH; [done|lia].
    + apply (IH _ _ _ (dash :: x :: t)); [done|lia].
Qed.

(** The fold flag that holds again once all groups are closed. *)
Fixpoint bottom_saved (cur : frame) (stk : list frame) : bool :=
  match stk with [] => f_saved cur | f :: stk => bottom_saved f stk end.

Lemma bottom_saved_cur cur cur' stk : f_saved cur = f_saved cur' -> bottom_saved cur stk = bottom_saved cur' stk.
Proof. by destruct stk. Qed.

Lemma CutPrefix_app_Some s p r u : CutPrefix s p = Some r -> CutPrefix (s ++ u) p = Some (r ++ u).
Proof. intros ->%CutPrefix_Some. apply CutPrefix_Some. by rewrite app_assoc. Qed.

Lemma CutPrefix_head c s d p : c <> d -> CutPrefix (c :: s) (d :: p) = None.
Proof. intros Hne. cbn. by destruct (Ascii.eqb_spec d c). Qed.

Lemma loop_group lim f f' s fold cur stk rep r f0 t :
  parse_loop lim f s fold cur stk rep = POk r -> (length (s ++ ")"%char :: t) < f')%nat ->
  parse_loop (S lim) f' (s ++ ")"%char :: t) fold cur (stk ++ [f0]) rep =
  run (S lim) t (bottom_saved cur stk) (push r f0) [] false.
Proof.
  revert f' s fold cur stk rep. induction f as [|f IH]; intros f' s fold cur stk rep H Hf; [done|].
  destruct f' as [|f']; [lia|]. destruct s as [|c s].
  { cbn [parse_loop] in H. destruct stk; [|done]. injection H as <-. simpl in Hf.
    rewrite <- (run_fuel (S lim) f') by lia. done. }
  cbn [app length] in Hf. cbn [parse_loop app] in H |- *.
  destruct (negb (is_ascii c)); [done|]. destruct (Ascii.eqb c "{"); [done|].
  destruct (Ascii.eqb c "|").
  { erewrite IH; [|exact H|lia]. by erewrite bottom_saved_cur. }
  destruct (Ascii.eqb c ")").
  { destruct stk as [|fr stk]; [done|]. cbn [app]. erewrite IH; [|exact H|lia]. simpl. by erewrite bottom_saved_cur. }
  destruct (Ascii.eqb c "(").
  { assert (Hlim : (S lim <=? length (stk ++ [f0]))%nat = (lim <=? length stk)%nat).
    { rewrite length_app. simpl. by rewrite Nat.add_1_r. }
    rewrite Hlim. destruct (lim <=? length stk)%nat; [done|].
    change (cur :: stk ++ [f0]) with ((cur :: stk) ++ [f0]).
    destruct (CutPrefix s (str "?:")) as [s1|] eqn:E1.
    { rewrite (CutPrefix_app_Some _ _ _ _ E1). apply CutPrefix_length in E1.
      erewrite IH; [done|exact H|rewrite length_app in *; simpl in *; lia]. }
    destruct (CutPrefix s (str "?i)")) as [s2|] eqn:E2.
    { apply CutPrefix_Some in E2 as ->.
      cbn [str String.list_ascii_of_string app CutPrefix Ascii.eqb Bool.eqb] in H, Hf |- *.
      apply IH; [exact H|cbn [length] in Hf; lia]. }
    destruct (CutPrefix s (str "?i:")) as [s3|] eqn:E3.
    { apply CutPrefix_Some in E3 as ->.
      cbn [str String.list_ascii_of_string app CutPrefix Ascii.eqb Bool.eqb] in H, Hf |- *.
      apply (IH _ s3 true _ (cur :: stk)); [exact H|cbn [length] in Hf; lia]. }
    destruct (HasPrefix s (str "?")) eqn:E4; [done|].
    destruct s as [|x s].
    { exfalso. clear -H. destruct f; done. }
    assert (Hx : x <> "?"%char).
    { intros ->. assert (HasPrefix ("?"%char :: s) (str "?") = true); [|congruence]. apply HasPrefix_true. by exists s. }
    cbn [app str String.list_ascii_of_string]. unfold HasPrefix. rewrite !CutPrefix_head by done.
    apply (IH _ (x :: s) _ _ (cur :: stk)); [done|cbn in *; lia]. }
  destruct (is_repeat c).
  { destruct (f_items cur) as [|it items]; [done|]. destruct rep; [done|].
    destruct s as [|q s]; cbn [app].
    - erewrite (IH f' []); [|exact H|cbn in *; lia]. by erewrite bottom_saved_cur.
    - destruct (Ascii.eqb q "?").
      + erewrite IH; [|exact H|cbn in *; lia]. by erewrite bottom_saved_cur.
      + erewrite (IH f' (q :: s)); [|exact H|cbn in *; lia]. by erewrite bottom_saved_cur. }
  destruct (Ascii.eqb c "^"). { erewrite IH; [|exact H|lia]. by erewrite bottom_saved_cur. }
  destruct (Ascii.eqb c "$"). { erewrite IH; [|exact H|lia]. by erewrite bottom_saved_cur. }
  destruct (Ascii.eqb c "."). { erewrite IH; [|exact H|lia]. by erewrite bottom_saved_cur. }
  destruct (Ascii.eqb c "[").
  { destruct (CutPrefix s (str "^")) as [s1|] eqn:E1.
    - rewrite (CutPrefix_app_Some _ _ _ _ E1). apply CutPrefix_length in E1. rewrite length_app in Hf.
      destruct (parse_class (S (length s1)) true [] s1) as [| |rs s2] eqn:Ec; [done..|].
      pose proof (parse_class_length _ _ _ _ _ _ Ec).
      rewrite (parse_class_app _ _ _ _ _ _ _ _ Ec) by (rewrite length_app; lia).
      erewrite IH; [|exact H|rewrite length_app in *; simpl in *; lia]. by erewrite bottom_saved_cur.
    - destruct s as [|x s]; [done|].
      assert (E2 : CutPrefix ((x :: s) ++ ")"%char :: t) (str "^") = None).
      { cbn [str String.list_ascii_of_string CutPrefix app] in *. by destruct (Ascii.eqb "^" x). }
      rewrite E2. rewrite length_app in Hf.
      destruct (parse_class (S (length (x :: s))) true [] (x :: s)) as [| |rs s2] eqn:Ec; [done..|].
      pose proof (parse_class_length _ _ _ _ _ _ Ec).
      rewrite (parse_class_app _ _ _ _ _ _ _ _ Ec) by (rewrite length_app; lia).
      erewrite IH; [|exact H|rewrite length_app in *; simpl in *; lia]. by erewrite bottom_saved_cur. }
  destruct (Ascii.eqb c "\").
  { destruct s as [|d s]; [done|]. cbn [app].
    destruct (perl_class d) as [[neg rs]|].
    - erewrite IH; [|exact H|cbn in *; lia]. by erewrite bottom_saved_cur.
    - destruct (is_ascii d && negb (is_alnum d)); [|done].
      erewrite IH; [|exact H|cbn in *; lia]. by erewrite bottom_saved_cur. }
  erewrite IH; [|exact H|lia]. by erewrite bottom_saved_cur.
Qed.

Lemma run_group lim s fold r f0 t :
  parse_from lim fold s = POk r ->
  run (S lim) (s ++ ")"%char :: t) fold (mkFrame [] [] fold) [f0] false = run (S lim) t fold (push r f0) [] false.
Proof. intros H. unfold run at 1. apply (loop_group lim _ _ _ _ _ [] _ _ f0 _ H). lia. Qed.

Lemma run_end lim fold items saved rep : run lim [] fold (mkFrame [] items saved) [] rep = POk (cats (rev items)).
Proof. reflexivity. Qed.
