(* ===== verification/Rules.v ===== *)
(** * Rules: internal/acl/rules.go

    Destinations, compiled rule sets and the parsers of hosts, patterns,
    prefixes and ports. Definitions keep the names of the source; the regular
    expression engine outside the fragment of [Regexp] is the parameter
    [engine]. *)

From Stdlib Require Import ZArith NArith Ascii String Lia Bool List.
From stdpp Require Import base tactics list gmap strings option sets.
From S2P Require Import Prelude GoStrings Netip Regexp.

Local Open Scope Z_scope.

(** ** Data *)

(** A validated request target: a hostname or an IP literal, never both. *)
Record destination := mkDest { d_name : gostring; d_addr : Addr }.

Record nameRule := mkNameRule { nr_pattern : gostring; nr_match : gostring -> bool }.
Record addrRule := mkAddrRule { ar_pattern : gostring; ar_prefix : Prefix }.

Record ruleSet := mkRuleSet {
  rs_exact : gmap gostring gostring;      (* hostname -> pattern *)
  rs_suffix : gmap gostring gostring;     (* domain -> pattern, for ".example.com" rules *)
  rs_names : list nameRule;               (* wildcards and regexes, in config order *)
  rs_any : gostring;                      (* the "*" pattern, if present *)
  rs_addrs : list addrRule
}.
Definition ruleSet_zero : ruleSet := mkRuleSet ∅ ∅ [] [] [].

(** ** Matching *)

(** The loop over the parent domains of [d]; each round drops a label, so
    [length d + 1] rounds are enough. *)
Fixpoint suffix_loop (fuel : nat) (m : gmap gostring gostring) (d : gostring) : option gostring :=
  match fuel with
  | O => None
  | S fuel =>
      match m !! d with
      | Some p => Some p
      | None => match IndexByte d "." with
                | None => None
                | Some i => suffix_loop fuel m (drop (S i) d)
                end
      end
  end.

Definition names_loop (rules : list nameRule) (n : gostring) : option gostring :=
  nr_pattern <$> List.find (fun r => nr_match r n) rules.

Definition matchName (rs : ruleSet) (n : gostring) : option gostring :=
  match rs_exact rs !! n with
  | Some p => Some p
  | None =>
      match (if (0 <? size (rs_suffix rs))%nat then suffix_loop (S (length n)) (rs_suffix rs) n else None) with
      | Some p => Some p
      | None =>
          match names_loop (rs_names rs) n with
          | Some p => Some p
          | None => if bool_decide (rs_any rs = []) then None else Some (rs_any rs)
          end
      end
  end.

Definition matchAddr (rs : ruleSet) (a : Addr) : option gostring :=
  ar_pattern <$> List.find (fun r => Contains (ar_prefix r) a) (rs_addrs rs).

Definition rs_match (rs : ruleSet) (d : destination) : option gostring :=
  if IsValid (d_addr d) then matchAddr rs (d_addr d) else matchName rs (d_name d).

(** ** Host names *)

Definition host_char (wildcard : bool) (c : ascii) : bool :=
  in_range "a" "z" c || in_range "A" "Z" c || in_range "0" "9" c ||
  Ascii.eqb c "-" || Ascii.eqb c "_" || Ascii.eqb c "." || (Ascii.eqb c "*" && wildcard).

(** [checkHostChars]: the error, if any. *)
Fixpoint checkHostChars (s : gostring) (wildcard : bool) : option error :=
  match s with
  | [] => None
  | c :: s => if host_char wildcard c then checkHostChars s wildcard else Some (EInvalidChar c)
  end.

(** Decimal, octal or hex numbers. *)
Definition isNumeric (l : gostring) : bool :=
  match CutPrefix l (str "0x") with
  | Some [] => true
  | Some h => forallb (fun c => in_range "0" "9" c || in_range "a" "f" c) h
  | None => forallb is_digit l && negb (bool_decide (l = []))
  end.

(** The loop of [validateHostname] over the labels, threading [allNumeric]. *)
Fixpoint check_labels (labels : list gostring) (wildcard allNumeric : bool) : error + bool :=
  match labels with
  | [] => inr allNumeric
  | l :: labels =>
      if bool_decide (l = []) then inl (ENew (str "empty label"))
      else if (63 <? length l)%nat then inl (ENew (str "label too long"))
      else if ContainsByte l "*" && negb wildcard then inl (ENew (str "* not allowed here"))
      else if bool_decide (head l = Some "-"%char) || bool_decide (last l = Some "-"%char)
      then inl (ENew (str "label starts or ends with a hyphen"))
      else check_labels labels wildcard
             (if negb (isNumeric l) && negb (bool_decide (l = str "*")) then false else allNumeric)
  end.

(** [validateHostname]: the error, if any. *)
Definition validateHostname (name : gostring) (wildcard : bool) : option error :=
  if bool_decide (name = []) then Some (ENew (str "empty hostname"))
  else if (253 <? length name)%nat then Some (ENew (str "hostname too long"))
  else
    let labels := Split name "." in
    match check_labels labels wildcard true with
    | inl e => Some e
    | inr allNumeric =>
        if isNumeric (default [] (last labels))
        then Some (ENew (str "numeric top-level label (IP addresses must be in standard notation)"))
        else if wildcard && allNumeric
        then Some (ENew (str "looks like an IP wildcard; use CIDR notation such as 192.168.1.0/24"))
        else None
    end.

(** [if err := f(); err != nil { return err }] *)
Definition guard_err {A} (e : option error) (k : result A) : result A :=
  match e with Some e => Err e | None => k end.

Definition parseHost (h : gostring) : result destination :=
  match ParseAddr h with
  | Ok a => if bool_decide (Zone a <> []) then Err (ENew (str "zoned address"))
            else Ok (mkDest [] (Unmap a))
  | Err _ =>
      guard_err (checkHostChars h false) (
      let name := ToLower (TrimSuffix h (str ".")) in
      guard_err (validateHostname name false) (
      Ok (mkDest name AddrZero)))
  end.

(** ** Patterns *)

Inductive patternKind := exactName | domainSuffix | anyName | wildcard.

Fixpoint TrimLeft_star (s : gostring) : gostring :=
  match s with c :: s' => if Ascii.eqb c "*" then TrimLeft_star s' else s | [] => [] end.

(** The regular expression a wildcard pattern is translated to. *)
Definition wildcard_expr (p : gostring) : gostring :=
  let '(expr, rest) := match CutPrefix p (str "*.") with
                       | Some r => (str "^(?:[^.]+\.)+", r)
                       | None => (str "^", p)
                       end in
  expr ++ ReplaceAll (QuoteMeta rest) (str "\*") (str "[^.]*") ++ str "$".

Section with_engine.
Context (engine : gostring -> option (gostring -> bool)).

(** [regexp.MustCompile(expr).MatchString]; a compile error is a panic. *)
Definition MustCompile (expr : gostring) : result (gostring -> bool) :=
  match Compile engine expr with Ok m => Ok m | Err _ => Err EPanic end.

Definition no_match : gostring -> bool := fun _ => false.

Definition compileNamePattern (p : gostring) : result (patternKind * gostring * (gostring -> bool)) :=
  guard_err (checkHostChars p true) (
  let p := ToLower (TrimSuffix p (str ".")) in
  if bool_decide (p = str "*") then Ok (anyName, [], no_match) else
  match CutPrefix p (str ".") with
  | Some base => guard_err (validateHostname base false) (Ok (domainSuffix, base, no_match))
  | None =>
      if negb (ContainsByte p "*") then
        guard_err (validateHostname p false) (Ok (exactName, p, no_match))
      else if bool_decide (head p = Some "*"%char) && negb (HasPrefix p (str "*.")) then
        Err (ENew (str "a leading * must be followed by . (did you mean *." ++ TrimLeft_star p ++ str "?)"))
      else
        guard_err (validateHostname p true) (
        let* m := MustCompile (wildcard_expr p) in
        Ok (wildcard, [], m))
  end).

Definition isIPLike (s : gostring) : bool := is_ok (ParseAddr s).

(** A CIDR or a bare address, with no host bits set. *)
Definition parsePrefix (s0 : gostring) : result Prefix :=
  let s := TrimSpace s0 in
  let* pfx :=
    (if ContainsByte s "/" then ParsePrefix s
     else
       let* a := ParseAddr s in
       if bool_decide (Zone a <> []) then Err (ENew (str "zoned addresses are not supported"))
       else Ok (PrefixFrom a (BitLen a))) in
  if Is4In6 (pfx_addr pfx) then Err (ENew (str "use plain IPv4 notation instead of IPv4-mapped IPv6"))
  else if bool_decide (pfx <> Masked pfx) then Err EHostBits
  else Ok pfx.

(** [m[k] = v] unless [k] is present. *)
Definition insert_new (m : gmap gostring gostring) (k v : gostring) : gmap gostring gostring :=
  match m !! k with Some _ => m | None => <[k := v]> m end.

Definition add (rs : ruleSet) (pattern : gostring) : result ruleSet :=
  let p := TrimSpace pattern in
  if bool_decide (p = []) then Err (ENew (str "empty pattern")) else
  match CutPrefix p (str "~") with
  | Some expr =>
      if bool_decide (expr = []) then Err (ENew (str "empty regex")) else
      let* m := Compile engine (str "(?i)^(?:" ++ expr ++ str ")$") in
      Ok (mkRuleSet (rs_exact rs) (rs_suffix rs) (rs_names rs ++ [mkNameRule p m]) (rs_any rs) (rs_addrs rs))
  | None =>
      if ContainsAny p (str ":/") || isIPLike p then
        let* pfx := rwrap (str "not a valid IP or CIDR (hostname patterns can't include a scheme, port or path)") (parsePrefix p) in
        Ok (mkRuleSet (rs_exact rs) (rs_suffix rs) (rs_names rs) (rs_any rs) (rs_addrs rs ++ [mkAddrRule p pfx]))
      else
        let* (kind, name, m) := compileNamePattern p in
        Ok (match kind with
            | exactName => mkRuleSet (insert_new (rs_exact rs) name p) (rs_suffix rs) (rs_names rs) (rs_any rs) (rs_addrs rs)
            | domainSuffix => mkRuleSet (rs_exact rs) (insert_new (rs_suffix rs) name p) (rs_names rs) (rs_any rs) (rs_addrs rs)
            | anyName => mkRuleSet (rs_exact rs) (rs_suffix rs) (rs_names rs) (if bool_decide (rs_any rs = []) then p else rs_any rs) (rs_addrs rs)
            | wildcard => mkRuleSet (rs_exact rs) (rs_suffix rs) (rs_names rs ++ [mkNameRule p m]) (rs_any rs) (rs_addrs rs)
            end)
  end.

(** The loop of [compileRules]. *)
Fixpoint compile_loop (rs : ruleSet) (patterns : list gostring) : result ruleSet :=
  match patterns with
  | [] => Ok rs
  | p :: patterns => let* rs := rwrap p (add rs p) in compile_loop rs patterns
  end.
Definition compileRules (patterns : list gostring) : result ruleSet := compile_loop ruleSet_zero patterns.

End with_engine.

(** ** Ports *)

Record portRange := mkPortRange { pr_lo : Z; pr_hi : Z }.

Definition pr_contains (r : portRange) (p : Z) : bool := (pr_lo r <=? p) && (p <=? pr_hi r).

(** Canonical decimal ports only. *)
Definition parsePort (s : gostring) : result Z :=
  if bool_decide (s = []) || (5 <? length s)%nat || bool_decide (head s = Some "0"%char)
  then Err (ENew (str "invalid port"))
  else if negb (forallb is_digit s) then Err (ENew (str "invalid port"))
  else let n := atoi_digits s in
       if (n <? 1) || (65535 <? n) then Err (ENew (str "port out of range"))
       else Ok (n mod 65536).

Definition parsePortRange (s0 : gostring) : result portRange :=
  let s := TrimSpace s0 in
  let '(loS, hiS, isRange) := Cut s "-" in
  let* lo := parsePort loS in
  if isRange then
    let* hi := parsePort hiS in
    if hi <? lo then Err (ENew (str "range end before start"))
    else Ok (mkPortRange lo hi)
  else Ok (mkPortRange lo lo).

(** ** Public addresses *)

Definition nonPublic_cidrs : list String.string := [
  "0.0.0.0/8"; "10.0.0.0/8"; "100.64.0.0/10"; "127.0.0.0/8"; "169.254.0.0/16"; "172.16.0.0/12";
  "192.0.0.0/24"; "192.88.99.0/24"; "192.168.0.0/16"; "198.18.0.0/15"; "224.0.0.0/4"; "240.0.0.0/4";
  "::/96"; "::ffff:0:0/96"; "64:ff9b::/96"; "64:ff9b:1::/48"; "2001::/32"; "2002::/16";
  "fc00::/7"; "fe80::/10"; "fec0::/10"; "ff00::/8"]%string.

(** [netip.MustParsePrefix] for literals of the source. *)
Definition MustParsePrefix (s : gostring) : Prefix :=
  match ParsePrefix s with Ok p => p | Err _ => Prefix_zero end.

Definition nonPublic : list Prefix := (fun s => MustParsePrefix (str s)) <$> nonPublic_cidrs.

Definition isPublic (a : Addr) : bool := negb (existsb (fun p => Contains p a) nonPublic).
