(* ===== verification/Policy.v ===== *)
(** * Policy: internal/acl/policy.go

    Compiled subnets, the selection of a client's subnet and the decision on a
    request. The resolver is an interface of the program ([acl.Resolver]); here
    it is a type class over the state it keeps, so that decisions are stated
    for any resolver and the DNS cache is one of them. *)

From Stdlib Require Import ZArith NArith Ascii String Lia Bool List.
From stdpp Require Import base tactics list gmap strings option sets.
From S2P Require Import Prelude GoStrings Netip GoFloat Regexp Rules.

Local Open Scope Z_scope.

(** ** Contexts and resolvers *)

(** What the program puts into a [context.Context]: the client a lookup is
    made for, and the time left before the context expires. *)
Record Ctx := mkCtx { ctx_client : option Addr; ctx_left : option Z }.

Definition WithTimeout (ctx : Ctx) (d : Z) : Ctx :=
  mkCtx (ctx_client ctx) (Some (match ctx_left ctx with Some l => Z.min l d | None => d end)).

(** [dnscache.WithClient] *)
Definition WithClient (ctx : Ctx) (client : Addr) : Ctx := mkCtx (Some client) (ctx_left ctx).

(** [LookupNetIP(ctx, network, host)] on a resolver with state [St]. *)
Class Resolver (St : Type) := LookupNetIP : Ctx -> gostring -> gostring -> St -> St * result (list Addr).

(** ** Data *)

Definition defaultPorts : list portRange := [mkPortRange 80 80; mkPortRange 443 443].
Definition resolveTimeout : Z := 5 * Second.

Record SubnetSpec := mkSpec {
  ss_name : gostring;
  ss_cidrs : list gostring;
  ss_ports : list gostring;
  ss_allow : list gostring;
  ss_deny : list gostring
}.

(** A compiled subnet. [sn_id] is the identity of the Go pointer: the position
    of the subnet in the config. *)
Record Subnet := mkSubnet {
  sn_id : nat;
  sn_name : gostring;
  sn_prefixes : list Prefix;
  sn_ports : list portRange;
  sn_allow : ruleSet;
  sn_deny : ruleSet
}.

Record Policy := mkPolicy { subnets : list Subnet }.

(** The texts of [Decision.Reason]; embedded errors and addresses are kept as
    values. *)
Inductive reason :=
| RText (s : gostring)
| RInvalidHost (e : error)              (* "invalid host: " + err *)
| RDnsFailed (e : error)                (* "dns lookup failed: " + err *)
| RAddrDenied (a : Addr)                (* "address %s matched deny rule" *)
| RNonPublic (a : Addr)                 (* "non-public address %s not explicitly allowed" *)
| RScheme (s : gostring).               (* "unsupported scheme " + strconv.Quote(s) *)

Record Decision := mkDecision {
  Allow : bool;
  dSubnet : gostring;
  Rule : gostring;
  Reason : reason;
  Addrs : list Addr;
  Port : Z
}.

(** A decision that only carries a reason: [Decision{Subnet: s, Reason: r}]. *)
Definition denied (subnet rule : gostring) (r : reason) : Decision := mkDecision false subnet rule r [] 0.

(** ** Compilation *)

Section with_engine.
Context (engine : gostring -> option (gostring -> bool)).

Definition compileSubnet (id : nat) (spec : SubnetSpec) : result Subnet :=
  if bool_decide (ss_cidrs spec = []) then Err (ENew (str "no cidrs defined")) else
  let* prefixes := mapM_result (fun c => rwrap c (parsePrefix c)) (ss_cidrs spec) in
  let* ports := (if bool_decide (ss_ports spec = []) then Ok defaultPorts
                 else mapM_result (fun p => rwrap p (parsePortRange p)) (ss_ports spec)) in
  let* allow := rwrap (str "allow") (compileRules engine (ss_allow spec)) in
  let* deny := rwrap (str "deny") (compileRules engine (ss_deny spec)) in
  (* in a deny list "*" means everything, IP addresses included *)
  let deny :=
    if bool_decide (rs_any deny = []) then deny
    else mkRuleSet (rs_exact deny) (rs_suffix deny) (rs_names deny) (rs_any deny)
           (rs_addrs deny ++ [mkAddrRule (rs_any deny) (MustParsePrefix (str "0.0.0.0/0"));
                              mkAddrRule (rs_any deny) (MustParsePrefix (str "::/0"))]) in
  Ok (mkSubnet id (ss_name spec) prefixes ports allow deny).

(** The loop over a subnet's prefixes in [New]: the owner map, or the clash. *)
Fixpoint claim_prefixes (owner : gmap Prefix gostring) (name : gostring) (pfxs : list Prefix) : result (gmap Prefix gostring) :=
  match pfxs with
  | [] => Ok owner
  | p :: pfxs =>
      match owner !! p with
      | Some other => Err (EWrap name (EWrap other (ENew (str "cidr already used by subnet"))))
      | None => claim_prefixes (<[p := name]> owner) name pfxs
      end
  end.

(** The loop of [New]: index, names seen, prefix owners, subnets so far. *)
Fixpoint new_loop (i : nat) (names : gset gostring) (owner : gmap Prefix gostring) (specs : list SubnetSpec) (acc : list Subnet)
    : result (list Subnet) :=
  match specs with
  | [] => Ok acc
  | spec :: specs =>
      let name := if bool_decide (ss_name spec = []) then str "subnet[" ++ Itoa (Z.of_nat i) ++ str "]" else ss_name spec in
      let spec := mkSpec name (ss_cidrs spec) (ss_ports spec) (ss_allow spec) (ss_deny spec) in
      if bool_decide (name ∈ names) then Err (EWrap name (ENew (str "duplicate subnet name"))) else
      let* s := rwrap name (compileSubnet i spec) in
      let* owner := claim_prefixes owner (sn_name s) (sn_prefixes s) in
      new_loop (S i) ({[name]} ∪ names) owner specs (acc ++ [s])
  end.

Definition New (specs : list SubnetSpec) : result Policy :=
  if bool_decide (specs = []) then Err (ENew (str "no subnets defined"))
  else let* ss := new_loop 0 ∅ ∅ specs [] in Ok (mkPolicy ss).
End with_engine.

(** ** The client's subnet *)

(** The two nested loops of [SubnetOf], with the state [(best, bestBits)]. *)
Definition best_prefix (client : Addr) (s : Subnet) (st : option Subnet * Z) (pfx : Prefix) : option Subnet * Z :=
  if (snd st <? pfx_bits pfx) && Contains pfx client then (Some s, pfx_bits pfx) else st.
Definition best_subnet (client : Addr) (st : option Subnet * Z) (s : Subnet) : option Subnet * Z :=
  fold_left (best_prefix client s) (sn_prefixes s) st.
Definition SubnetOf (p : Policy) (client : Addr) : option Subnet :=
  fst (fold_left (best_subnet (Unmap client)) (subnets p) (None, -1)).

(** ** Decisions *)

Section check.
Context {St : Type} `{!Resolver St}.

(** The addresses of a lookup, unmapped and usable. *)
Fixpoint usable_addrs (found : list Addr) : result (list Addr) :=
  match found with
  | [] => Ok []
  | a :: found =>
      let a := Unmap a in
      if negb (IsValid a) || bool_decide (Zone a <> []) then Err (EWrap (str "unusable address") (ENew (addr_string a)))
      else let* addrs := usable_addrs found in Ok (a :: addrs)
  end.

Definition resolve (ctx : Ctx) (name : gostring) (st : St) : St * result (list Addr) :=
  let '(st, r) := LookupNetIP (WithTimeout ctx resolveTimeout) (str "ip") name st in
  (st, let* found := r in
       if bool_decide (found = []) then Err (ENew (str "no addresses")) else usable_addrs found).

Definition allowsPort (s : Subnet) (port : Z) : bool := existsb (fun r => pr_contains r port) (sn_ports s).

(** The loop over the addresses: the first one that denies the request. *)
Fixpoint check_addrs (s : Subnet) (addrs : list Addr) : option (reason * gostring) :=
  match addrs with
  | [] => None
  | a :: addrs =>
      match matchAddr (sn_deny s) a with
      | Some r => Some (RAddrDenied a, r)
      | None =>
          if negb (isPublic a) && negb (bool_decide (is_Some (matchAddr (sn_allow s) a)))
          then Some (RNonPublic a, [])
          else check_addrs s addrs
      end
  end.

(** [Subnet.Check] *)
Definition Check (s : Subnet) (ctx : Ctx) (host port : gostring) (st : St) : St * Decision :=
  let deny r rule := denied (sn_name s) rule r in
  match parseHost host with
  | Err e => (st, deny (RInvalidHost e) [])
  | Ok dst =>
  match parsePort port with
  | Err _ => (st, deny (RText (str "invalid port")) [])
  | Ok portNum =>
  match rs_match (sn_deny s) dst with
  | Some r => (st, deny (RText (str "deny rule matched")) r)
  | None =>
  match rs_match (sn_allow s) dst with
  | None => (st, deny (RText (str "no allow rule matched")) [])
  | Some allowRule =>
  if negb (allowsPort s portNum) then (st, deny (RText (str "port not allowed")) [])
  else
    let '(st, addrs) := if bool_decide (d_name dst = []) then (st, Ok [d_addr dst]) else resolve ctx (d_name dst) st in
    match addrs with
    | Err e => (st, deny (RDnsFailed e) [])
    | Ok addrs =>
        match check_addrs s addrs with
        | Some (r, rule) => (st, deny r rule)
        | None => (st, mkDecision true (sn_name s) allowRule (RText (str "allow rule matched")) addrs portNum)
        end
    end
  end end end end.

(** [Policy.Check] *)
Definition Policy_Check (p : Policy) (ctx : Ctx) (client : Addr) (host port : gostring) (st : St) : St * Decision :=
  match SubnetOf p client with
  | None => (st, denied [] [] (RText (str "client not in any subnet")))
  | Some s => Check s ctx host port st
  end.
End check.
