(* ===== verification/Limits.v ===== *)
(** * Limits: internal/limits/limits.go

    Per-client connection slots, request rates and access-log budgets. Entries
    are shared through pointers: a release function holds the entry it was
    created for, and several addresses may share one overflow entry, so the
    entries live in a heap and the maps hold locations. Every operation runs
    under the tracker's mutex and is one atomic step. *)

From Stdlib Require Import ZArith NArith Ascii String Lia Bool List.
From stdpp Require Import base tactics list gmap strings option countable sets.
From S2P Require Import Prelude GoStrings Netip GoFloat.

Local Open Scope Z_scope.

(** ** Data *)

Record SuppressedKey := mkKey { k_Action : gostring; k_Host : gostring }.

#[export] Instance SuppressedKey_eq_dec : EqDecision SuppressedKey.
Proof. solve_decision. Defined.
#[export] Instance SuppressedKey_countable : Countable SuppressedKey.
Proof. by refine (inj_countable' (fun k => (k_Action k, k_Host k)) (fun p => mkKey (fst p) (snd p)) _); intros []. Defined.

Definition ErrTotalConnections : error := ENew (str "proxy connection limit reached").
Definition ErrClientConnections : error := ENew (str "client connection limit reached").

Definition logRate : Z := 20.
Definition logBurst : Z := 200.
Definition maxSuppressedKeys : nat := 16.
Definition maxClients : Z := 100000.
Definition forgetAfter : Z := 5 * Minute.

Section with_float.
Context {F : Type} `{!GoFloat F}.

(** [Client]: the limits applied to each client. *)
Record Client := mkLimits {
  MaxConnections : Z;
  RequestsPerSecond : F;
  RequestBurst : Z;
  TunnelIdleTimeout : Z
}.

Record bucket := mkBucket { tokens : F; last_take : Z; primed : bool }.
Definition bucket_zero : bucket := mkBucket (of_int 0) 0 false.

(** [client]: one entry. A nil map of suppressed lines is an empty one. *)
Record client := mkClient {
  conns : Z;
  seen : Z;
  requests : bucket;
  logs : bucket;
  suppressed : gmap SuppressedKey Z;
  other : Z
}.
Definition client_zero : client := mkClient 0 0 bucket_zero bucket_zero ∅ 0.

Record Suppressed := mkSuppressed {
  s_Client : Addr;
  s_Prefix : Prefix;
  s_Unknown : bool;
  s_Counts : gmap SuppressedKey Z;
  s_Other : Z
}.

Abbreviation loc := nat.

(** [Tracker], with the heap of entries and the release functions handed out:
    each holds its entry and whether its [sync.Once] has run. *)
Record Tracker := mkTracker {
  heap : gmap loc client;
  clients : gmap Addr loc;
  overflow : gmap Prefix loc;
  unknown : client;
  total : Z;
  releases : list (loc * bool)
}.

Definition NewTracker : Tracker := mkTracker ∅ ∅ ∅ client_zero 0 [].

(** ** Token buckets *)

Definition take (b : bucket) (now : Z) (rate : F) (burst : Z) : bucket * bool :=
  if fle rate (of_int 0) then (b, true)
  else
    let capacity := of_int (Z.max burst 1) in
    let tk := if primed b then fmin capacity (fadd (tokens b) (fmul (Seconds (Sub now (last_take b))) rate))
              else capacity in
    if flt tk (of_int 1) then (mkBucket tk now true, false)
    else (mkBucket (fsub tk (of_int 1)) now true, true).

(** ** Entries *)

Definition the_entry (t : Tracker) (l : loc) : client := default client_zero (heap t !! l).
Definition set_entry (t : Tracker) (l : loc) (c : client) : Tracker :=
  mkTracker (<[l := c]> (heap t)) (clients t) (overflow t) (unknown t) (total t) (releases t).

Definition set_conns (c : client) (n : Z) : client := mkClient n (seen c) (requests c) (logs c) (suppressed c) (other c).
Definition set_seen (c : client) (now : Z) : client := mkClient (conns c) now (requests c) (logs c) (suppressed c) (other c).
Definition set_requests (c : client) (b : bucket) : client := mkClient (conns c) (seen c) b (logs c) (suppressed c) (other c).

(** [&client{}] *)
Definition alloc (t : Tracker) : loc := fresh (dom (heap t)).

Definition overflowPrefix (ip : Addr) : Prefix :=
  Addr_Prefix ip (if Is6 ip then 64 else 24).

(** The entry of [ip], created if needed, with [seen] set. *)
Definition get (t : Tracker) (ip : Addr) (now : Z) : Tracker * loc :=
  let '(t, l) :=
    match clients t !! ip with
    | Some l => (t, l)
    | None =>
        if Z.of_nat (size (clients t)) <? maxClients then
          let l := alloc t in
          (mkTracker (<[l := client_zero]> (heap t)) (<[ip := l]> (clients t)) (overflow t) (unknown t) (total t) (releases t), l)
        else
          let p := overflowPrefix ip in
          match overflow t !! p with
          | Some l => (t, l)
          | None =>
              let l := alloc t in
              (mkTracker (<[l := client_zero]> (heap t)) (clients t) (<[p := l]> (overflow t)) (unknown t) (total t) (releases t), l)
          end
    end in
  (set_entry t l (set_seen (the_entry t l) now), l).

(** ** Connections *)

(** [Acquire]: the index of the release function, or the error. *)
Definition Acquire (t : Tracker) (now : Z) (ip : Addr) (lim : Client) (maxTotal : Z) : Tracker * result nat :=
  if (0 <? maxTotal) && (maxTotal <=? total t) then (t, Err ErrTotalConnections) else
  let '(t, l) := get t ip now in
  let c := the_entry t l in
  if (0 <? MaxConnections lim) && (MaxConnections lim <=? conns c) then (t, Err ErrClientConnections) else
  let t := set_entry t l (set_conns c (conns c + 1)) in
  (mkTracker (heap t) (clients t) (overflow t) (unknown t) (total t + 1) (releases t ++ [(l, false)]),
   Ok (length (releases t))).

(** Calling the [i]-th release function. *)
Definition release (t : Tracker) (now : Z) (i : nat) : Tracker :=
  match releases t !! i with
  | Some (l, false) =>
      let c := the_entry t l in
      let t := set_entry t l (set_seen (set_conns c (conns c - 1)) now) in
      mkTracker (heap t) (clients t) (overflow t) (unknown t) (total t - 1) (<[i := (l, true)]> (releases t))
  | _ => t
  end.

(** ** Requests and log lines *)

Definition Allow (t : Tracker) (now : Z) (ip : Addr) (lim : Client) : Tracker * bool :=
  let '(t, l) := get t ip now in
  let c := the_entry t l in
  let '(b, ok) := take (requests c) now (RequestsPerSecond lim) (RequestBurst lim) in
  (set_entry t l (set_requests c b), ok).

(** [client.log] *)
Definition log (c : client) (now : Z) (k : SuppressedKey) : client * bool :=
  let '(b, ok) := take (logs c) now (of_int logRate) logBurst in
  let c := mkClient (conns c) (seen c) (requests c) b (suppressed c) (other c) in
  if ok then (c, true)
  else if bool_decide (is_Some (suppressed c !! k)) || (size (suppressed c) <? maxSuppressedKeys)%nat
  then (mkClient (conns c) (seen c) (requests c) (logs c) (<[k := default 0 (suppressed c !! k) + 1]> (suppressed c)) (other c), false)
  else (mkClient (conns c) (seen c) (requests c) (logs c) (suppressed c) (other c + 1), false).

Definition Log (t : Tracker) (now : Z) (ip : Addr) (action host : gostring) : Tracker * bool :=
  let '(t, l) := get t ip now in
  let '(c, ok) := log (the_entry t l) now (mkKey action host) in
  (set_entry t l c, ok).

Definition LogUnknown (t : Tracker) (now : Z) (ip : Addr) : Tracker * bool :=
  let '(c, ok) := log (unknown t) now (mkKey (str "deny") (addr_string ip)) in
  (mkTracker (heap t) (clients t) (overflow t) c (total t) (releases t), ok).

(** ** Sweeping *)

(** The closure [take] of [Sweep] on one entry: the reset entry and the
    summary, if there is anything to report. *)
Definition take_summary (c : client) (s : Suppressed) : client * list Suppressed :=
  if (0 <? size (suppressed c))%nat || (0 <? other c)
  then (mkClient (conns c) (seen c) (requests c) (logs c) ∅ 0,
        [mkSuppressed (s_Client s) (s_Prefix s) (s_Unknown s) (suppressed c) (other c)])
  else (c, []).

Definition idle (c : client) (now : Z) : bool := (conns c =? 0) && (forgetAfter <? Sub now (seen c)).

(** One round of the loop over the clients. *)
Definition sweep_client (now : Z) (st : Tracker * list Suppressed) (e : Addr * loc) : Tracker * list Suppressed :=
  let '(t, out) := st in
  let '(ip, l) := e in
  let '(c, o) := take_summary (the_entry t l) (mkSuppressed ip Prefix_zero false ∅ 0) in
  let t := set_entry t l c in
  ((if idle c now then mkTracker (heap t) (delete ip (clients t)) (overflow t) (unknown t) (total t) (releases t) else t), out ++ o).

Definition sweep_overflow (now : Z) (st : Tracker * list Suppressed) (e : Prefix * loc) : Tracker * list Suppressed :=
  let '(t, out) := st in
  let '(p, l) := e in
  let '(c, o) := take_summary (the_entry t l) (mkSuppressed AddrZero p false ∅ 0) in
  let t := set_entry t l c in
  ((if idle c now then mkTracker (heap t) (clients t) (delete p (overflow t)) (unknown t) (total t) (releases t) else t), out ++ o).

(** Go iterates over a map in an order of its choice: [cs] and [os] are the
    entries of the two maps in that order. *)
Definition Sweep (t : Tracker) (now : Z) (cs : list (Addr * loc)) (os : list (Prefix * loc)) : Tracker * list Suppressed :=
  let '(t, out) := fold_left (sweep_overflow now) os (fold_left (sweep_client now) cs (t, [])) in
  let '(c, o) := take_summary (unknown t) (mkSuppressed AddrZero Prefix_zero true ∅ 0) in
  (mkTracker (heap t) (clients t) (overflow t) c (total t) (releases t), out ++ o).

(** ** Observers *)

Definition Connections (t : Tracker) (ip : Addr) : Z * Z :=
  let l := match clients t !! ip with Some l => Some l | None => overflow t !! overflowPrefix ip end in
  (match l with Some l => conns (the_entry t l) | None => 0 end, total t).

Definition Tracked (t : Tracker) : nat := size (clients t).
End with_float.
