(* ===== verification/DnsCache.v ===== *)
(** * DnsCache: internal/dnscache/dnscache.go

    The caching resolver as a concurrent program. The state that goroutines
    share is a record; a goroutine is a value of [thread], which says where in
    [LookupNetIP], [acquireClient] or [run] it stands. A step of the system is
    one critical section under [r.mu], one channel operation, or one call of
    the underlying resolver finishing; contexts may be done at any moment. *)

From Stdlib Require Import ZArith NArith Ascii String Lia Bool List.
From stdpp Require Import base tactics list gmap strings option countable sets fin_maps.
From S2P Require Import Prelude GoStrings Netip GoFloat.

Local Open Scope Z_scope.

(** ** Constants *)

Definition ttl : Z := 30 * Second.
Definition negativeTTL : Z := 5 * Second.
Definition failureTTL : Z := 3 * Second.
Definition lookupTimeout : Z := 5 * Second.
Definition maxEntries : nat := Z.to_nat 10000.
Definition maxConcurrent : nat := 256.
Definition maxPerClient : nat := 32.

(** ** Data *)

(** A cached answer: addresses or an error. *)
Record entry := mkEntry { e_res : result (list Addr); e_expires : Z }.

(** A lookup in progress: its channel is closed or not, and its result.
    [fl_key] records the key it was started for and is not part of the
    program. *)
Record flight := mkFlight { fl_key : gostring; fl_done : bool; fl_res : result (list Addr) }.

Record clientSlots := mkSlots { sem : nat; users : Z }.

(** [Resolver]: the two kinds of pointers are positions in lists; [history]
    records the answers of the underlying resolver and is not part of the
    program. *)
Record Resolver := mkResolver {
  global : nat;
  entries : gmap gostring entry;
  flights : gmap gostring nat;
  clients : gmap Addr nat;
  flight_heap : list flight;
  slots_heap : list clientSlots;
  history : list (gostring * result (list Addr))
}.

Definition New : Resolver := mkResolver 0 ∅ ∅ ∅ [] [] [].

(** The slot a goroutine has to give back: the client and its [clientSlots]. *)
Definition slot := (Addr * nat)%type.

(** ** Sequential operations *)

Definition cache_key (network host : gostring) : gostring := network ++ str "|" ++ host.

(** [findLocked]: the flight, or a fresh entry, or neither. *)
Definition findLocked (r : Resolver) (now : Z) (key : gostring) : option nat * option entry :=
  match entries r !! key with
  | Some e => if now <? e_expires e then (None, Some e) else (flights r !! key, None)
  | None => (flights r !! key, None)
  end.

(** [errors.As(err, &dnsErr) && dnsErr.IsNotFound] *)
Fixpoint as_dns (e : error) : option bool :=
  match e with
  | EDns nf _ => Some nf
  | EWrap _ e => as_dns e
  | EJoin es => (fix go (es : list error) : option bool :=
      match es with [] => None | e :: es => match as_dns e with Some b => Some b | None => go es end end) es
  | _ => None
  end.

(** The entry that [store] makes of an answer, if any. *)
Definition entry_of (now : Z) (res : result (list Addr)) : option entry :=
  match res with
  | Ok [] => None
  | Ok addrs => Some (mkEntry (Ok addrs) (now + ttl))
  | Err e => Some (mkEntry (Err e) (now + match as_dns e with Some true => negativeTTL | _ => failureTTL end))
  end.

(** The two eviction loops of [store]; [order] is the order in which Go visits
    the keys that are left. *)
Fixpoint evict (order : list gostring) (m : gmap gostring entry) : gmap gostring entry :=
  match order with
  | [] => m
  | k :: order => if (size m <? maxEntries)%nat then m else evict order (delete k m)
  end.
Definition drop_expired (now : Z) (m : gmap gostring entry) : gmap gostring entry :=
  filter (fun ke => now < e_expires (snd ke)) m.
Definition store_entries (order : list gostring) (now : Z) (m : gmap gostring entry) (key : gostring) (e : entry) : gmap gostring entry :=
  <[key := e]> (if (maxEntries <=? size m)%nat then evict order (drop_expired now m) else m).

(** ** Goroutines *)

(** What a caller does after giving back its slot: wait for a flight, or
    return. *)
Inductive resume := KWait (f : nat) | KReturn (res : result (list Addr)).

Inductive thread :=
(* LookupNetIP and acquireClient *)
| TFind (client : option Addr) (key : gostring)                    (* before the first look at the cache *)
| TEnter (a : Addr) (key : gostring)                               (* before registering with the client's slots *)
| TSem (s : slot) (key : gostring)                                 (* waiting for a slot *)
| TFind2 (s : option slot) (key : gostring)                        (* before the second look *)
| TRelease (s : slot) (key : gostring) (k : resume)                (* in release: before <-cs.sem *)
| TLeave (s : slot) (key : gostring) (k : resume)                  (* before leave() *)
| TWait (key : gostring) (f : nat)                                 (* in wait *)
| TReturn (key : gostring) (res : result (list Addr))              (* returned *)
(* run *)
| RStart (s : option slot) (key : gostring) (f : nat)
| RSelect (s : option slot) (key : gostring) (f : nat) (deadline : Z)
| RLookup (s : option slot) (key : gostring) (f : nat)             (* in r.next.LookupNetIP *)
| RGot (s : option slot) (key : gostring) (f : nat) (res : result (list Addr))   (* before <-r.global *)
| RStore (s : option slot) (key : gostring) (f : nat) (res : result (list Addr)) (* in store *)
| RPut (s : option slot) (key : gostring) (f : nat) (e : entry)    (* before the lock of store *)
| RDelete (s : option slot) (key : gostring) (f : nat)             (* before delete(r.flights, key) *)
| RClose (s : option slot) (key : gostring) (f : nat)              (* before close(f.done) *)
| RRelease (s : slot)
| RLeave (s : slot)
| RDone.

(** After the runner's last step on the flight. *)
Definition after_close (s : option slot) : thread := match s with Some s => RRelease s | None => RDone end.

(** ** Updates of the shared state *)

Definition with_flight (r : Resolver) (f : nat) (fl : flight) : Resolver :=
  mkResolver (global r) (entries r) (flights r) (clients r) (<[f := fl]> (flight_heap r)) (slots_heap r) (history r).
Definition with_slots (r : Resolver) (i : nat) (cs : clientSlots) : Resolver :=
  mkResolver (global r) (entries r) (flights r) (clients r) (flight_heap r) (<[i := cs]> (slots_heap r)) (history r).

(** [acquireClient] up to its select: the client's slots, created if needed,
    with one more user. *)
Definition enter (r : Resolver) (a : Addr) : Resolver * nat :=
  match clients r !! a with
  | Some i => match slots_heap r !! i with
              | Some cs => (with_slots r i (mkSlots (sem cs) (users cs + 1)), i)
              | None => (r, i)
              end
  | None =>
      let i := length (slots_heap r) in
      (mkResolver (global r) (entries r) (flights r) (<[a := i]> (clients r)) (flight_heap r) (slots_heap r ++ [mkSlots 0 1]) (history r), i)
  end.

(** [leave] *)
Definition leave (r : Resolver) (s : slot) : Resolver :=
  match slots_heap r !! snd s with
  | Some cs =>
      let r := with_slots r (snd s) (mkSlots (sem cs) (users cs - 1)) in
      if users cs - 1 =? 0
      then mkResolver (global r) (entries r) (flights r) (delete (fst s) (clients r)) (flight_heap r) (slots_heap r) (history r)
      else r
  | None => r
  end.

(** [<-cs.sem] *)
Definition free_slot (r : Resolver) (s : slot) : Resolver :=
  match slots_heap r !! snd s with
  | Some cs => with_slots r (snd s) (mkSlots (pred (sem cs)) (users cs))
  | None => r
  end.

(** A new flight for [key]. *)
Definition start_flight (r : Resolver) (key : gostring) : Resolver * nat :=
  let f := length (flight_heap r) in
  (mkResolver (global r) (entries r) (<[key := f]> (flights r)) (clients r) (flight_heap r ++ [mkFlight key false (Ok [])]) (slots_heap r) (history r), f).

(** What [ctx.Err()] returns once [ctx.Done()] is closed, which may be at any
    moment. *)
Definition ctx_err (e : error) : Prop := e = ECanceled \/ e = EDeadline.

(** ** Steps of one goroutine

    [tstep now r x r' x' new]: at time [now], goroutine [x] takes one step in
    shared state [r]; [new] are the goroutines it starts. *)
Inductive tstep (now : Z) (r : Resolver) : thread -> Resolver -> thread -> list thread -> Prop :=
| t_find_flight c key f :
    fst (findLocked r now key) = Some f -> tstep now r (TFind c key) r (TWait key f) []
| t_find_cached c key e :
    findLocked r now key = (None, Some e) -> tstep now r (TFind c key) r (TReturn key (e_res e)) []
| t_find_none c key :
    findLocked r now key = (None, None) ->
    tstep now r (TFind c key) r (match c with Some a => TEnter a key | None => TFind2 None key end) []
| t_enter a key r' i :
    enter r a = (r', i) -> tstep now r (TEnter a key) r' (TSem (a, i) key) []
| t_sem s key cs :
    slots_heap r !! snd s = Some cs -> (sem cs < maxPerClient)%nat ->
    tstep now r (TSem s key) (with_slots r (snd s) (mkSlots (S (sem cs)) (users cs))) (TFind2 (Some s) key) []
| t_sem_done s key e :
    ctx_err e -> tstep now r (TSem s key) r (TLeave s key (KReturn (Err e))) []
| t_find2_flight s key f :
    fst (findLocked r now key) = Some f ->
    tstep now r (TFind2 s key) r (match s with Some s => TRelease s key (KWait f) | None => TWait key f end) []
| t_find2_cached s key e :
    findLocked r now key = (None, Some e) ->
    tstep now r (TFind2 s key) r (match s with Some s => TRelease s key (KReturn (e_res e)) | None => TReturn key (e_res e) end) []
| t_find2_none s key r' f :
    findLocked r now key = (None, None) -> start_flight r key = (r', f) ->
    tstep now r (TFind2 s key) r' (TWait key f) [RStart s key f]
| t_release s key k :
    tstep now r (TRelease s key k) (free_slot r s) (TLeave s key k) []
| t_leave s key k :
    tstep now r (TLeave s key k) (leave r s) (match k with KWait f => TWait key f | KReturn res => TReturn key res end) []
| t_wait_done key f fl :
    flight_heap r !! f = Some fl -> fl_done fl = true -> tstep now r (TWait key f) r (TReturn key (fl_res fl)) []
| t_wait_ctx key f e :
    ctx_err e -> tstep now r (TWait key f) r (TReturn key (Err e)) []
| t_start s key f : tstep now r (RStart s key f) r (RSelect s key f (now + lookupTimeout)) []
| t_select s key f d :
    (global r < maxConcurrent)%nat ->
    tstep now r (RSelect s key f d)
      (mkResolver (S (global r)) (entries r) (flights r) (clients r) (flight_heap r) (slots_heap r) (history r)) (RLookup s key f) []
| t_select_timeout s key f d :
    d <= now -> tstep now r (RSelect s key f d) (with_flight r f (mkFlight key false (Err EDeadline))) (RDelete s key f) []
| t_lookup s key f res :
    tstep now r (RLookup s key f)
      (mkResolver (global r) (entries r) (flights r) (clients r) (<[f := mkFlight key false res]> (flight_heap r)) (slots_heap r) (history r ++ [(key, res)]))
      (RGot s key f res) []
| t_got s key f res :
    tstep now r (RGot s key f res)
      (mkResolver (pred (global r)) (entries r) (flights r) (clients r) (flight_heap r) (slots_heap r) (history r)) (RStore s key f res) []
| t_store s key f res e : entry_of now res = Some e -> tstep now r (RStore s key f res) r (RPut s key f e) []
| t_put s key f e order :
    order ≡ₚ fst <$> map_to_list (drop_expired now (entries r)) ->
    tstep now r (RPut s key f e)
      (mkResolver (global r) (store_entries order now (entries r) key e) (flights r) (clients r) (flight_heap r) (slots_heap r) (history r))
      (RDelete s key f) []
| t_store_none s key f res :
    entry_of now res = None -> tstep now r (RStore s key f res) r (RDelete s key f) []
| t_delete s key f :
    tstep now r (RDelete s key f)
      (mkResolver (global r) (entries r) (delete key (flights r)) (clients r) (flight_heap r) (slots_heap r) (history r)) (RClose s key f) []
| t_close s key f fl :
    flight_heap r !! f = Some fl ->
    tstep now r (RClose s key f) (with_flight r f (mkFlight key true (fl_res fl))) (after_close s) []
| t_rrelease s : tstep now r (RRelease s) (free_slot r s) (RLeave s) []
| t_rleave s : tstep now r (RLeave s) (leave r s) RDone [].

(** ** The system *)

Record system := mkSys { clock : Z; res : Resolver; threads : list thread }.

Inductive sys_step : system -> system -> Prop :=
| s_tick σ now : clock σ <= now -> sys_step σ (mkSys now (res σ) (threads σ))
| s_call σ c network host :
    sys_step σ (mkSys (clock σ) (res σ) (threads σ ++ [TFind c (cache_key network host)]))
| s_thread σ i x r' x' new :
    threads σ !! i = Some x -> tstep (clock σ) (res σ) x r' x' new ->
    sys_step σ (mkSys (clock σ) r' (<[i := x']> (threads σ) ++ new)).

Inductive reachable : system -> Prop :=
| reach_init now : reachable (mkSys now New [])
| reach_step σ σ' : reachable σ -> sys_step σ σ' -> reachable σ'.
