(* ===== verification/AddrFacts.v ===== *)
(** * Ports, prefixes and public addresses of internal/acl/rules.go

    What the parsers of ports and CIDRs guarantee, and the meaning of the list
    of non-public ranges as numeric intervals. *)

From Stdlib Require Import ZArith NArith Ascii String Lia Bool List.
From stdpp Require Import base tactics list gmap strings option sets.
From S2P Require Import Prelude GoStrings Netip Regexp Rules.

Local Open Scope Z_scope.

(** ** Ports *)

Lemma forallb_digits s : forallb is_digit s = true <-> Forall (fun c => is_digit c = true) s.
Proof. rewrite forallb_forall, List.Forall_forall. done. Qed.

Lemma parsePort_sound s n : parsePort s = Ok n -> 1 <= n <= 65535 /\ s = Itoa n.
Proof.
  unfold parsePort. destruct (_ || _ || _) eqn:Hg; [done|]. split_bools.
  rewrite bool_decide_eq_false in *. destruct (forallb is_digit s) eqn:Hd; [|done]. apply forallb_digits in Hd.
  cbn [negb]. destruct (_ || _) eqn:Hr; [done|]. split_bools. intros [= <-].
  rewrite Z.ltb_ge, Nat.ltb_ge in *. rewrite Z.mod_small by lia. split; [lia|]. symmetry.
  apply Itoa_atoi; [|lia]. split_and!; [done..|]. naive_solver.
Qed.

Lemma parsePort_print n : 1 <= n <= 65535 -> parsePort (Itoa n) = Ok n.
Proof.
  intros Hn.
  pose proof (Itoa_length n 4 ltac:(lia) ltac:(cbn; lia)) as Hlen.
  pose proof (Itoa_digits n ltac:(lia)) as Hdig. apply forallb_digits in Hdig.
  pose proof (Itoa_head n ltac:(lia)) as Hhead.
  unfold parsePort. rewrite Hdig, atoi_Itoa by lia.
  rewrite (bool_decide_eq_false_2 (Itoa n = [])) by (intros E; rewrite E in Hlen; simpl in Hlen; lia).
  rewrite (bool_decide_eq_false_2 (head _ = _)) by done.
  rewrite (proj2 (Nat.ltb_ge _ _)), (proj2 (Z.ltb_ge n 1)), (proj2 (Z.ltb_ge 65535 n)) by lia.
  cbn [orb negb]. by rewrite Z.mod_small by lia.
Qed.

Lemma parsePort_bounds s n : parsePort s = Ok n -> 1 <= n <= 65535.
Proof. by intros [H _]%parsePort_sound. Qed.

(** A port string is accepted exactly when it is the canonical decimal form of a number between 1 and 65535, and the result is that number: no two spellings name the same port, so the port that is checked is the one that gets dialed. *)
Theorem parsePort_canonical s n : parsePort s = Ok n <-> 1 <= n <= 65535 /\ s = Itoa n.
Proof. split; [apply parsePort_sound|]. intros [Hn ->]. by apply parsePort_print. Qed.

(** A compiled range is a non-empty interval of valid ports. *)
Definition wf_portRange (r : portRange) : Prop := 1 <= pr_lo r /\ pr_lo r <= pr_hi r /\ pr_hi r <= 65535.

Lemma parsePortRange_wf s r : parsePortRange s = Ok r -> wf_portRange r.
Proof.
  unfold parsePortRange, wf_portRange. destruct (Cut (TrimSpace s) "-") as [[loS hiS] isRange]. intros H. inv_ok.
  match goal with H : parsePort _ = Ok _ |- _ => apply parsePort_bounds in H end.
  destruct isRange; inv_ok.
  - match goal with H : parsePort _ = Ok _ |- _ => apply parsePort_bounds in H end.
    destruct (Z.ltb_spec x0 x); inv_ok; simpl; lia.
  - simpl; lia.
Qed.

Lemma digits_no_dash s : Forall (fun c => is_digit c = true) s -> "-"%char ∉ s.
Proof. intros Hs Hin. apply list_elem_of_In in Hin. by apply (proj1 (List.Forall_forall _ _) Hs) in Hin. Qed.

Lemma Cut_app l r c : c ∉ l -> Cut (l ++ c :: r) c = (l, r, true).
Proof.
  intros Hl. unfold Cut. rewrite (proj2 (IndexByte_Some _ _ (length l))) by eauto.
  rewrite take_app_length. f_equal. f_equal. change (S (length l)) with (1 + length l)%nat.
  rewrite Nat.add_comm, <- drop_drop, drop_app_length. done.
Qed.

(** A range is read back as the two ports it was written with. *)
Lemma parsePortRange_print lo hi :
  1 <= lo -> lo <= hi -> hi <= 65535 -> TrimSpace (Itoa lo ++ "-"%char :: Itoa hi) = Itoa lo ++ "-"%char :: Itoa hi ->
  parsePortRange (Itoa lo ++ "-"%char :: Itoa hi) = Ok (mkPortRange lo hi).
Proof.
  intros Hlo Hle Hhi Htrim. unfold parsePortRange. rewrite Htrim, Cut_app by (apply digits_no_dash, Itoa_digits; lia).
  rewrite (parsePort_print lo) by lia. cbn [rbind].
  rewrite (parsePort_print hi) by lia. cbn [rbind].
  by rewrite (proj2 (Z.ltb_ge _ _)) by lia.
Qed.

Lemma Cut_none s c : c ∉ s -> Cut s c = (s, [], false).
Proof. intros Hs. unfold Cut. by rewrite (proj2 (IndexByte_None _ _)). Qed.

Lemma Cut_true s c l r : Cut s c = (l, r, true) -> s = l ++ c :: r.
Proof.
  unfold Cut. destruct (IndexByte s c) as [i|] eqn:E; [|done]. intros [= <- <-]. apply IndexByte_Some in E as (l & r & -> & <- & _).
  symmetry. apply take_drop_middle. by apply list_lookup_middle.
Qed.

Lemma Cut_false s c l r : Cut s c = (l, r, false) -> s = l.
Proof. unfold Cut. by destruct (IndexByte s c); intros [= <- _]. Qed.

(** The ports an entry of a port list names: one, or those between two. *)
Definition port_text (text : gostring) (n : Z) : Prop :=
  exists lo hi, 1 <= lo /\ lo <= n <= hi /\ hi <= 65535 /\
    (TrimSpace text = Itoa lo /\ hi = lo \/ TrimSpace text = Itoa lo ++ "-"%char :: Itoa hi).

Lemma parsePortRange_text text r n : parsePortRange text = Ok r -> pr_lo r <= n <= pr_hi r <-> port_text text n.
Proof.
  intros Hr. split.
  - intros Hn. exists (pr_lo r), (pr_hi r). pose proof (parsePortRange_wf _ _ Hr) as (H1 & H2 & H3). split_and!; try lia.
    revert Hr. unfold parsePortRange. destruct (Cut _ _) as [[loS hiS] []] eqn:Ec; intros H; inv_ok;
      repeat match goal with H : parsePort _ = Ok _ |- _ => apply parsePort_sound in H as [_ H] end.
    + apply Cut_true in Ec as ->. right. destruct (Z.ltb_spec x0 x); inv_ok. cbn [pr_lo pr_hi] in *. congruence.
    + apply Cut_false in Ec as ->. left. split; [|done]. cbn [pr_lo]. congruence.
  - intros (lo & hi & H1 & Hn & H3 & Ht). assert (E : parsePortRange text = Ok (mkPortRange lo hi)).
    { unfold parsePortRange. destruct Ht as [[-> ->]| ->].
      - rewrite Cut_none by (apply digits_no_dash, Itoa_digits; lia). by rewrite parsePort_print by lia.
      - rewrite Cut_app by (apply digits_no_dash, Itoa_digits; lia). rewrite !parsePort_print by lia. cbn [rbind]. by rewrite (proj2 (Z.ltb_ge _ _)) by lia. }
    rewrite Hr in E. injection E as ->. done.
Qed.

(** ** Prefixes *)

(** What [parsePrefix] guarantees: a valid prefix that fits its family, is not
    an IPv4-mapped one, and has no host bits set. *)
Definition good_prefix (p : Prefix) : Prop :=
  wf_prefix p = true /\ Prefix_IsValid p = true /\ IsValid (pfx_addr p) = true /\
  Is4In6 (pfx_addr p) = false /\ Masked p = p.

Lemma parsePrefix_good s p : parsePrefix s = Ok p -> good_prefix p.
Proof.
  unfold parsePrefix. intros H. inv_ok. rename x into q.
  destruct (Is4In6 (pfx_addr q)) eqn:H46; [done|]. case_bool_decide as Hm; [done|]. inv_ok.
  assert (Hq : wf_prefix p = true /\ Prefix_IsValid p = true).
  { destruct (ContainsByte (TrimSpace s) "/"); [by apply ParsePrefix_wf in H0|].
    inv_ok. apply ParseAddr_wf in H as [Hwf Hv]. case_bool_decide; [done|]. inv_ok.
    split; [by apply PrefixFrom_wf|]. unfold PrefixFrom, Prefix_IsValid. by destruct x. }
  destruct Hq as [Hwf Hv]. split_and!; [done..| |done|done].
  apply (Masked_fixed p Hwf Hv). done.
Qed.

(** The addresses of a prefix without host bits form an interval. *)
Lemma Contains_range p a :
  wf_prefix p = true -> Masked p = p -> Prefix_IsValid p = true -> wf_addr a = true ->
  Contains p a = true <->
  BitLen a = BitLen (pfx_addr p) /\ Zone a = [] /\
  addr_val (pfx_addr p) <= addr_val a < addr_val (pfx_addr p) + 2 ^ host_bits p.
Proof.
  intros Hp Hm Hv Ha. rewrite Contains_spec by done. unfold in_prefix.
  apply Masked_fixed in Hm as [Hpv Hmod]; [|done..]. apply wf_prefix_spec in Hp as (_ & _ & Hb). apply Z.leb_le in Hv.
  assert (Hpos : 0 < 2 ^ host_bits p) by (apply Z.pow_pos_nonneg; unfold host_bits; lia).
  set (k := 2 ^ host_bits p) in *.
  assert (Hq : addr_val (pfx_addr p) = k * (addr_val (pfx_addr p) / k)).
  { pose proof (Z_div_mod_eq_full (addr_val (pfx_addr p)) k). lia. }
  assert (Hbl : BitLen (pfx_addr p) <> 0) by by destruct (pfx_addr p).
  pose proof (Z_div_mod_eq_full (addr_val a) k). pose proof (Z.mod_pos_bound (addr_val a) k Hpos).
  split.
  - intros (_ & _ & Hl & Hz & He). rewrite <- He in Hq. split_and!; [done..|lia|lia].
  - intros (Hl & Hz & Hr). split_and!; [done|congruence|done..|].
    apply Z.le_antisymm; nia.
Qed.

(** ** Public addresses

    The reference: the reserved ranges written out as intervals. *)
Definition ip4 (a b c d : Z) : Z := ((a * 256 + b) * 256 + c) * 256 + d.

Definition reserved4 : list (Z * Z) := [
  (ip4 0 0 0 0, ip4 0 255 255 255); (ip4 10 0 0 0, ip4 10 255 255 255); (ip4 100 64 0 0, ip4 100 127 255 255);
  (ip4 127 0 0 0, ip4 127 255 255 255); (ip4 169 254 0 0, ip4 169 254 255 255); (ip4 172 16 0 0, ip4 172 31 255 255);
  (ip4 192 0 0 0, ip4 192 0 0 255); (ip4 192 88 99 0, ip4 192 88 99 255); (ip4 192 168 0 0, ip4 192 168 255 255);
  (ip4 198 18 0 0, ip4 198 19 255 255); (ip4 224 0 0 0, ip4 255 255 255 255)].

Definition reserved6 : list (Z * Z) := [
  (0, 2 ^ 32 - 1);                                          (* ::/96 *)
  (0xffff * 2 ^ 32, 0x10000 * 2 ^ 32 - 1);                  (* ::ffff:0:0/96 *)
  (0x64ff9b * 2 ^ 96, 0x64ff9b * 2 ^ 96 + 2 ^ 32 - 1);      (* 64:ff9b::/96 *)
  (0x64ff9b0001 * 2 ^ 80, 0x64ff9b0002 * 2 ^ 80 - 1);       (* 64:ff9b:1::/48 *)
  (0x20010000 * 2 ^ 96, 0x20010001 * 2 ^ 96 - 1);           (* 2001::/32 *)
  (0x2002 * 2 ^ 112, 0x2003 * 2 ^ 112 - 1);                 (* 2002::/16 *)
  (0xfc00 * 2 ^ 112, 0xfe00 * 2 ^ 112 - 1);                 (* fc00::/7 *)
  (0xfe80 * 2 ^ 112, 2 ^ 128 - 1)].                         (* fe80::/10 to ff00::/8 *)

Definition in_table (t : list (Z * Z)) (v : Z) : Prop := Exists (fun r => fst r <= v <= snd r) t.

Definition plain_prefix (p : Prefix) : bool := wf_prefix p && Prefix_IsValid p && bool_decide (Masked p = p).

Lemma plain_prefix_range p a :
  plain_prefix p = true -> wf_addr a = true ->
  Contains p a = true <->
  BitLen a = BitLen (pfx_addr p) /\ Zone a = [] /\
  addr_val (pfx_addr p) <= addr_val a < addr_val (pfx_addr p) + 2 ^ host_bits p.
Proof.
  unfold plain_prefix. intros Hp Ha. split_bools. rewrite bool_decide_eq_true in *. by apply Contains_range.
Qed.

(** The parsed list: family, first address and size of every range. *)
Lemma nonPublic_value :
  forallb plain_prefix nonPublic = true /\
  (fun p => (BitLen (pfx_addr p), addr_val (pfx_addr p), 2 ^ host_bits p)) <$> nonPublic =
  [(32, ip4 0 0 0 0, 2 ^ 24); (32, ip4 10 0 0 0, 2 ^ 24); (32, ip4 100 64 0 0, 2 ^ 22); (32, ip4 127 0 0 0, 2 ^ 24);
   (32, ip4 169 254 0 0, 2 ^ 16); (32, ip4 172 16 0 0, 2 ^ 20); (32, ip4 192 0 0 0, 2 ^ 8); (32, ip4 192 88 99 0, 2 ^ 8);
   (32, ip4 192 168 0 0, 2 ^ 16); (32, ip4 198 18 0 0, 2 ^ 17); (32, ip4 224 0 0 0, 2 ^ 28); (32, ip4 240 0 0 0, 2 ^ 28);
   (128, 0, 2 ^ 32); (128, 0xffff * 2 ^ 32, 2 ^ 32); (128, 0x64ff9b * 2 ^ 96, 2 ^ 32); (128, 0x64ff9b0001 * 2 ^ 80, 2 ^ 80);
   (128, 0x20010000 * 2 ^ 96, 2 ^ 96); (128, 0x2002 * 2 ^ 112, 2 ^ 112); (128, 0xfc00 * 2 ^ 112, 2 ^ 121);
   (128, 0xfe80 * 2 ^ 112, 2 ^ 118); (128, 0xfec0 * 2 ^ 112, 2 ^ 118); (128, 0xff00 * 2 ^ 112, 2 ^ 120)].
Proof. split; vm_compute; reflexivity. Qed.

(** Not public means: in one of the listed intervals of the family. *)
Lemma isPublic_false a :
  wf_addr a = true ->
  isPublic a = false <->
  Zone a = [] /\ Exists (fun r => BitLen a = fst (fst r) /\ snd (fst r) <= addr_val a < snd (fst r) + snd r)
    ((fun p => (BitLen (pfx_addr p), addr_val (pfx_addr p), 2 ^ host_bits p)) <$> nonPublic).
Proof.
  intros Ha. unfold isPublic. rewrite negb_false_iff, existsb_exists, Exists_exists.
  pose proof (proj1 nonPublic_value) as Hg. rewrite forallb_forall in Hg. split.
  - intros (p & Hin & Hc). pose proof (Hg p Hin) as Hp. apply plain_prefix_range in Hc as (Hb & Hz & Hr); [|done..].
    split; [done|]. eexists. split; [apply list_elem_of_fmap; eexists; split; [reflexivity|by apply list_elem_of_In]|done].
  - intros (Hz & r & Hin & Hb & Hr). apply list_elem_of_fmap in Hin as (p & -> & Hin%list_elem_of_In).
    exists p. split; [done|]. apply plain_prefix_range; [by apply Hg|done|done].
Qed.

(** C39: an address is treated as public exactly when it lies outside the reserved IPv4 and IPv6 ranges, written out here as numeric intervals. *)
Theorem isPublic_ranges a :
  wf_addr a = true -> Zone a = [] ->
  isPublic a = false <->
  match a with
  | AddrZero => False
  | Addr4 v => in_table reserved4 v
  | Addr6 v _ => in_table reserved6 v
  end.
Proof.
  intros Ha Hz. rewrite isPublic_false by done. rewrite (proj2 nonPublic_value). unfold in_table, reserved4, reserved6, ip4.
  destruct a as [|v|v z]; simpl BitLen; simpl addr_val; rewrite ?Exists_cons, ?Exists_nil; cbn [fst snd].
  - split; [|done]. intros [_ H]. decompose [or] H; lia.
  - split; [intros [_ H]|intros H; split; [done|]]; decompose [or] H; clear H; lia.
  - apply andb_true_iff in Ha. rewrite Z.leb_le, Z.ltb_lt in Ha.
    split; [intros [_ H]|intros H; split; [done|]]; decompose [or] H; clear H; lia.
Qed.

Lemma isPublic_ranges_witness :
  isPublic (Addr4 (ip4 10 1 2 3)) = false <-> in_table reserved4 (ip4 10 1 2 3).
Proof. apply (isPublic_ranges (Addr4 (ip4 10 1 2 3))); reflexivity. Defined.
