(* ===== verification/HostFacts.v ===== *)
(** * Host names of internal/acl/rules.go

    [checkHostChars], [validateHostname] and [parseHost] against a declarative
    description of valid host names, and the stability of the normal form. *)

From Stdlib Require Import ZArith NArith Ascii String Lia Bool List.
From stdpp Require Import base tactics list gmap strings option sets.
From S2P Require Import Prelude GoStrings Netip Regexp Rules.

(** ** The reference: valid host names *)

(** A label: 1 to 63 characters, no hyphen at either end, and "*" only where
    wildcards are allowed. *)
Definition valid_label (wild : bool) (l : gostring) : Prop :=
  l <> [] /\ length l <= 63 /\ (wild = false -> "*"%char ∉ l) /\
  head l <> Some "-"%char /\ last l <> Some "-"%char.

(** A name: 1 to 253 characters, valid labels, and a last label that is not a
    number (decimal, octal or hexadecimal). *)
Definition valid_name (wild : bool) (name : gostring) : Prop :=
  name <> [] /\ length name <= 253 /\ Forall (valid_label wild) (Split name ".") /\
  isNumeric (default [] (last (Split name "."))) = false.

Lemma checkHostChars_None s w : checkHostChars s w = None <-> Forall (fun c => host_char w c = true) s.
Proof.
  induction s as [|c s IH]; simpl; [split; [constructor|done]|].
  rewrite Forall_cons_iff, <- IH. destruct (host_char w c); naive_solver.
Qed.

Lemma check_labels_inr labels w allNum b :
  check_labels labels w allNum = inr b <->
  Forall (valid_label w) labels /\
  b = allNum && forallb (fun l => isNumeric l || bool_decide (l = str "*")) labels.
Proof.
  revert allNum. induction labels as [|l labels IH]; intros allNum; cbn [check_labels forallb].
  { rewrite andb_true_r. split; [intros [= <-]; split; [constructor|done]|by intros [_ ->]]. }
  rewrite Forall_cons_iff. unfold valid_label at 1.
  case_bool_decide as Hne; [naive_solver|].
  destruct (Nat.ltb_spec 63 (length l)) as [Hlen|Hlen]; [naive_solver lia|].
  destruct (ContainsByte l "*" && negb w) eqn:Hstar.
  { split_bools. rewrite ContainsByte_true in *. naive_solver. }
  assert (Hst : w = false -> "*"%char ∉ l).
  { intros ->. rewrite andb_true_r in Hstar. by apply ContainsByte_false. }
  do 2 (case_bool_decide; [naive_solver|]). cbn [orb].
  rewrite IH.
  assert (Hb : (if negb (isNumeric l) && negb (bool_decide (l = str "*")) then false else allNum)
     = allNum && (isNumeric l || bool_decide (l = str "*"))) by (destruct (isNumeric l), (bool_decide (l = str "*")), allNum; done).
  rewrite Hb, <- andb_assoc. naive_solver.
Qed.

Lemma validateHostname_None name w :
  validateHostname name w = None <->
  valid_name w name /\ (w = true -> forallb (fun l => isNumeric l || bool_decide (l = str "*")) (Split name ".") = false).
Proof.
  unfold validateHostname, valid_name. case_bool_decide as Hne; [naive_solver|].
  destruct (Nat.ltb_spec 253 (length name)); [naive_solver lia|].
  destruct (check_labels (Split name ".") w true) as [e|b] eqn:E.
  { split; [done|]. intros [(_ & _ & Hl & _) _].
    rewrite (proj2 (check_labels_inr _ _ _ _) (conj Hl eq_refl)) in E. done. }
  apply check_labels_inr in E as [Hl ->]. cbn [andb].
  destruct (isNumeric (default [] (last (Split name ".")))); [naive_solver|].
  destruct w, (forallb _ _) eqn:Hf; cbn [andb]; naive_solver.
Qed.

(** ** Parsing a requested host *)

(** The normal form of a name: lower case, no trailing dot. *)
Definition normal (h : gostring) : gostring := ToLower (TrimSuffix h (str ".")).

Lemma parseHost_iff h d :
  parseHost h = Ok d <->
  (exists a, ParseAddr h = Ok a /\ Zone a = [] /\ d = mkDest [] (Unmap a)) \/
  (is_ok (ParseAddr h) = false /\ Forall (fun c => host_char false c = true) h /\
   valid_name false (normal h) /\ d = mkDest (normal h) AddrZero).
Proof.
  unfold parseHost, guard_err. fold (normal h).
  destruct (ParseAddr h) as [a|e]; cbn [is_ok].
  - case_bool_decide as Hz; naive_solver.
  - destruct (checkHostChars h false) as [e1|] eqn:E1.
    { split; [done|]. intros [(a & Ha & _)|(_ & Hc & _)]; [done|]. apply checkHostChars_None in Hc. congruence. }
    apply checkHostChars_None in E1.
    destruct (validateHostname (normal h) false) as [e2|] eqn:E2.
    { split; [done|]. intros [(a & Ha & _)|(_ & _ & Hv & _)]; [done|].
      rewrite (proj2 (validateHostname_None _ false)) in E2; [done|]. split; [done|done]. }
    apply validateHostname_None in E2 as [Hv _].
    split; [intros [= <-]; right; done|]. intros [(a & Ha & _)|(_ & _ & _ & ->)]; done.
Qed.

(** The two shapes of a parsed destination. *)
Lemma parseHost_shape h d :
  parseHost h = Ok d ->
  (d_name d = [] /\ IsValid (d_addr d) = true /\ Zone (d_addr d) = [] /\ wf_addr (d_addr d) = true) \/
  (d_name d <> [] /\ d_addr d = AddrZero).
Proof.
  intros [(a & Ha & Hz & ->)|(_ & _ & Hv & ->)]%parseHost_iff; simpl; [left|right].
  - apply ParseAddr_wf in Ha as [Hwf Hv]. split; [done|].
    split_and!; [| |by apply Unmap_wf]; destruct a as [|v|v z]; try done; cbn [Unmap]; by destruct (_ =? _)%Z.
  - by destruct Hv as [Hne _].
Qed.

(** C38: a requested host is accepted exactly when it is an IP literal without a zone (then its unmapped address is the destination) or else consists of ASCII host characters and its normal form, lower case and without the trailing dot, is a valid name with a non-numeric last label (then that name is the destination); a destination is a name or an address, never both and never neither. *)
Theorem parseHost_accepts h d :
  (parseHost h = Ok d <->
   (exists a, ParseAddr h = Ok a /\ Zone a = [] /\ d = mkDest [] (Unmap a)) \/
   (is_ok (ParseAddr h) = false /\ Forall (fun c => host_char false c = true) h /\
    valid_name false (normal h) /\ d = mkDest (normal h) AddrZero)) /\
  (parseHost h = Ok d -> d_name d = [] <-> IsValid (d_addr d) = true).
Proof.
  split; [apply parseHost_iff|]. intros [(Hn & Hv & _)|(Hn & Ha)]%parseHost_shape; [tauto|]. rewrite Ha. simpl. naive_solver.
Qed.

(** ** Stability of the normal form *)

Lemma Split_elem s c l x : l ∈ Split s c -> x ∈ l -> x ∈ s.
Proof.
  revert l. induction s as [|a s IH]; intros l; simpl.
  { intros ->%list_elem_of_singleton Hx. by apply elem_of_nil in Hx. }
  rewrite (elem_of_cons s x a). destruct (Ascii.eqb a c).
  { intros [->|Hl]%elem_of_cons Hx; [by apply elem_of_nil in Hx|eauto]. }
  pose proof (Split_nonempty s c) as Hne. destruct (Split s c) as [|l' ls]; [done|].
  intros [->|Hl]%elem_of_cons Hx.
  - apply elem_of_cons in Hx as [->|Hx]; [by left|]. right. eapply IH; [by left|done].
  - right. eapply IH; [by right|done].
Qed.

Lemma Split_snoc_sep r c : Split (r ++ [c]) c = Split r c ++ [[]].
Proof.
  induction r as [|a r IH]; simpl; [by rewrite Ascii.eqb_refl|].
  rewrite IH. destruct (Ascii.eqb a c); [done|].
  pose proof (Split_nonempty r c) as Hne. by destruct (Split r c).
Qed.

Lemma valid_name_last w n : valid_name w n -> exists l, last (Split n ".") = Some l /\ l ∈ Split n "." /\ l <> [].
Proof.
  intros (_ & _ & Hl & _). destruct (last (Split n ".")) as [l|] eqn:E.
  - exists l. split; [done|]. apply last_Some in E as [l' E]. assert (Hin : l ∈ Split n ".") by (rewrite E; set_solver).
    split; [done|]. apply list_elem_of_In in Hin. by apply (proj1 (List.Forall_forall _ _) Hl) in Hin as [? _].
  - apply last_None in E. by apply Split_nonempty in E.
Qed.

Lemma valid_name_no_trailing_dot w n r : valid_name w n -> n <> r ++ str ".".
Proof.
  intros Hv ->. destruct (valid_name_last _ _ Hv) as (l & Hlast & _ & Hne). cbn [str String.list_ascii_of_string] in Hlast.
  rewrite Split_snoc_sep, last_snoc in Hlast. congruence.
Qed.

Lemma normal_stable w h : valid_name w (normal h) -> normal (normal h) = normal h.
Proof.
  intros Hv. unfold normal at 1. destruct (TrimSuffix_cases (normal h) (str ".")) as [E|[-> _]].
  - exfalso. exact (valid_name_no_trailing_dot _ _ _ Hv E).
  - apply ToLower_idemp.
Qed.

Lemma parse_v4_loop_chars inp s prev val dl fields f :
  parse_v4_loop inp s prev val dl fields = Ok f -> Forall (fun c => is_digit c = true \/ c = "."%char) s.
Proof.
  revert prev val dl fields. induction s as [|c s IH]; intros prev val dl fields; simpl; [constructor|].
  intros H. constructor.
  - destruct (is_digit c); [by left|]. destruct (Ascii.eqb_spec c "."); [by right|done].
  - destruct (is_digit c).
    + destruct (_ && _); [done|]. destruct (255 <? _)%Z; [done|]. by apply IH in H.
    + destruct (Ascii.eqb c "."); [|done]. destruct (match prev with None => true | Some p => _ end); [done|].
      destruct (length fields =? 3); [done|]. by apply IH in H.
Qed.

(** An address in host characters is an IPv4 address. *)
Lemma ParseAddr_host_chars h a :
  Forall (fun c => host_char false c = true) h -> ParseAddr h = Ok a ->
  Forall (fun c => is_digit c = true \/ c = "."%char) h.
Proof.
  unfold ParseAddr. intros Hh. assert (Hs : Forall (fun c => host_char false c = true) h) by done. revert Hs.
  generalize h at 1 3. intros s Hs. induction Hs as [|c s Hc _ IH]; simpl; [done|].
  destruct (Ascii.eqb_spec c ".") as [->|_].
  { unfold parseIPv4, parseIPv4Fields. intros H. inv_ok. by eapply parse_v4_loop_chars. }
  destruct (Ascii.eqb_spec c ":") as [->|_]; [done|]. destruct (Ascii.eqb_spec c "%") as [->|_]; [done|]. done.
Qed.

Lemma TrimSuffix_elem s p x : x ∈ TrimSuffix s p -> x ∈ s.
Proof. destruct (TrimSuffix_cases s p) as [->|[-> _]]; [|done]. rewrite TrimSuffix_app. set_solver. Qed.

Lemma normal_elem h x : x ∈ normal h -> exists y, y ∈ h /\ x = to_lower_byte y.
Proof. unfold normal, ToLower. intros (y & -> & Hy)%list_elem_of_fmap. eauto using TrimSuffix_elem. Qed.

Lemma not_addr_and_name h :
  Forall (fun c => host_char false c = true) h -> is_ok (ParseAddr h) = true -> ~ valid_name false (normal h).
Proof.
  intros Hh Ha Hv. destruct (ParseAddr h) as [a|] eqn:E; [|done]. apply ParseAddr_host_chars in E; [|done].
  destruct (valid_name_last _ _ Hv) as (l & Hlast & Hin & Hne). destruct Hv as (_ & _ & _ & Hnum).
  rewrite Hlast in Hnum. simpl in Hnum.
  assert (Hdig : forall x, x ∈ l -> is_digit x = true).
  { intros x Hx. pose proof (Split_elem _ _ _ _ Hin Hx) as Hxn. pose proof (Split_no_sep _ _ _ Hin) as Hdot.
    apply normal_elem in Hxn as (y & Hy & ->). apply list_elem_of_In in Hy.
    apply (proj1 (List.Forall_forall _ _) E) in Hy as [Hd| ->]; [by all_bytes y|done]. }
  unfold isNumeric in Hnum. destruct (CutPrefix l (str "0x")) as [r|] eqn:Ec.
  - apply CutPrefix_Some in Ec as ->. specialize (Hdig "x"%char ltac:(simpl; set_solver)). done.
  - rewrite bool_decide_eq_false_2, andb_true_r in Hnum by done.
    assert (forallb is_digit l = true); [|congruence].
    apply forallb_forall. intros x Hx. apply Hdig. by apply list_elem_of_In.
Qed.

Lemma normal_host_chars h :
  Forall (fun c => host_char false c = true) h -> Forall (fun c => host_char false c = true) (normal h).
Proof.
  intros Hh. apply List.Forall_forall. intros x Hx%list_elem_of_In. apply normal_elem in Hx as (y & Hy & ->).
  apply list_elem_of_In in Hy. apply (proj1 (List.Forall_forall _ _) Hh) in Hy. by all_bytes y.
Qed.

(** All spellings of a host name are one destination: once [h] is accepted as a name, every string of host characters with the same normal form (other letter case, with or without the trailing dot), and the normal form itself, is accepted as the same destination. *)
Theorem parseHost_spelling h h' d :
  parseHost h = Ok d -> d_name d <> [] ->
  Forall (fun c => host_char false c = true) h' -> normal h' = d_name d ->
  parseHost h' = Ok d /\ parseHost (d_name d) = Ok d.
Proof.
  intros Hp Hne Hh' Hn'. apply parseHost_iff in Hp as [(a & _ & _ & ->)|(_ & Hh & Hv & ->)]; [done|]. simpl in *.
  assert (Hgo : forall s, Forall (fun c => host_char false c = true) s -> normal s = normal h ->
            parseHost s = Ok (mkDest (normal h) AddrZero)).
  { intros s Hs Hns. apply parseHost_iff. right. rewrite Hns. split_and!; [|done..].
    destruct (is_ok (ParseAddr s)) eqn:E; [|done]. apply not_addr_and_name in E; [|done]. by rewrite Hns in E. }
  split; [by apply Hgo|]. apply Hgo; [by apply normal_host_chars|by eapply normal_stable].
Qed.

Lemma Unmap_mapped v : (0 <= v < 2 ^ 32)%Z -> Unmap (Addr6 (0xffff * 2 ^ 32 + v) []) = Addr4 v.
Proof.
  intros Hv. cbn [Unmap]. rewrite Z.shiftr_div_pow2, Z.add_comm, Z.div_add, Z.div_small, Z.add_0_l, Z.eqb_refl by lia.
  by rewrite Z.land_ones, Z.mod_add, Z.mod_small by lia.
Qed.

(** The IPv4-mapped IPv6 spelling of an IPv4 address is the same destination as the dotted form, so address rules cannot be evaded by "::ffff:a.b.c.d". *)
Theorem parseHost_mapped v :
  (0 <= v < 2 ^ 32)%Z ->
  parseHost (string4 v) = Ok (mkDest [] (Addr4 v)) /\
  parseHost (str "::ffff:" ++ string4 v) = Ok (mkDest [] (Addr4 v)).
Proof.
  intros Hv. unfold parseHost. rewrite ParseAddr_string4, ParseAddr_mapped by done. split; [done|].
  cbn [Zone]. rewrite bool_decide_eq_false_2 by (intros []; done). by rewrite Unmap_mapped.
Qed.

Lemma parseHost_accepts_witness :
  parseHost (str "WWW.Example.com.") = Ok (mkDest (str "www.example.com") AddrZero) /\
  (str "www.example.com" = [] <-> IsValid AddrZero = true).
Proof.
  split; [reflexivity|].
  exact (proj2 (parseHost_accepts (str "WWW.Example.com.") (mkDest (str "www.example.com") AddrZero)) eq_refl).
Defined.
