(* ===== verification/HostPort.v ===== *)
(** * The part of Go's [net] package that splits and joins addresses

    [SplitHostPort] and [JoinHostPort] follow the control flow of the library;
    [AddrPort_String] is the text of a [netip.AddrPort]. The file shows that
    joining and splitting are inverse on everything the proxy joins: hosts
    that [parseHost] accepts and decimal ports. *)

From Stdlib Require Import ZArith NArith Ascii String Lia Bool List.
From stdpp Require Import base tactics list gmap strings option sets.
From S2P Require Import Prelude GoStrings Netip AddrText Regexp Rules HostFacts.

Local Open Scope Z_scope.

(** ** Definitions *)

(** [bytealg.LastIndexByteString] *)
Fixpoint LastIndexByte (s : gostring) (c : ascii) : option nat :=
  match s with
  | [] => None
  | d :: s => match LastIndexByte s c with
              | Some i => Some (S i)
              | None => if Ascii.eqb c d then Some O else None
              end
  end.

Definition addrErr {A} (addr : gostring) (why : String.string) : result A := Err (EWrap addr (ENew (str why))).

Definition SplitHostPort (hostport : gostring) : result (gostring * gostring) :=
  match LastIndexByte hostport ":" with
  | None => addrErr hostport "missing port in address"
  | Some i =>
      let finish (j k : nat) (host : gostring) : result (gostring * gostring) :=
        if ContainsByte (drop j hostport) "[" then addrErr hostport "unexpected '[' in address"
        else if ContainsByte (drop k hostport) "]" then addrErr hostport "unexpected ']' in address"
        else Ok (host, drop (S i) hostport) in
      if bool_decide (head hostport = Some "["%char) then
        match IndexByte hostport "]" with
        | None => addrErr hostport "missing ']' in address"
        | Some e =>
            if (S e =? length hostport)%nat then addrErr hostport "missing port in address"
            else if (S e =? i)%nat then finish 1%nat (S e) (drop 1 (take e hostport))
            else if bool_decide (hostport !! S e = Some ":"%char) then addrErr hostport "too many colons in address"
            else addrErr hostport "missing port in address"
        end
      else
        let host := take i hostport in
        if ContainsByte host ":" then addrErr hostport "too many colons in address" else finish 0%nat 0%nat host
  end.

Definition JoinHostPort (host port : gostring) : gostring :=
  if ContainsByte host ":" then str "[" ++ host ++ str "]:" ++ port else host ++ str ":" ++ port.

(** [netip.AddrPortFrom(a, port).String()] *)
Definition AddrPort_String (a : Addr) (port : Z) : gostring :=
  match a with
  | AddrZero => str "invalid AddrPort"
  | Addr4 _ => addr_string a ++ str ":" ++ Itoa port
  | Addr6 _ _ => str "[" ++ addr_string a ++ str "]:" ++ Itoa port
  end.

(** ** Splitting what was joined *)

Lemma LastIndexByte_None s c : LastIndexByte s c = None <-> c ∉ s.
Proof.
  induction s as [|d s IH]; simpl; [set_solver|]. rewrite not_elem_of_cons, <- IH.
  destruct (LastIndexByte s c); [naive_solver|]. destruct (Ascii.eqb_spec c d); naive_solver.
Qed.

Lemma LastIndexByte_app s c t : c ∉ t -> LastIndexByte (s ++ c :: t) c = Some (length s).
Proof.
  intros Ht. induction s as [|d s IH]; simpl; [|by rewrite IH].
  rewrite (proj2 (LastIndexByte_None t c) Ht). by rewrite Ascii.eqb_refl.
Qed.

(** Strings that can stand in a host:port text. *)
Definition no_brackets (s : gostring) : Prop := "["%char ∉ s /\ "]"%char ∉ s.
Definition no_special (s : gostring) : Prop := no_brackets s /\ ":"%char ∉ s.

Lemma IndexByte_app s c t : c ∉ s -> IndexByte (s ++ c :: t) c = Some (length s).
Proof.
  intros Hs. apply IndexByte_Some. by exists s, t.
Qed.

Lemma Split_Join_bracket host port :
  no_brackets host -> no_special port -> SplitHostPort (str "[" ++ host ++ str "]:" ++ port) = Ok (host, port).
Proof.
  intros [Ho Hc] [[Po Pc] Pn]. unfold SplitHostPort.
  replace (str "[" ++ host ++ str "]:" ++ port) with (("["%char :: host ++ ["]"%char]) ++ ":"%char :: port)
    by (cbn [str String.list_ascii_of_string app]; f_equal; by rewrite <- app_assoc).
  rewrite LastIndexByte_app by done. cbn [app head]. rewrite bool_decide_true by done.
  assert (E : IndexByte ("["%char :: (host ++ ["]"%char]) ++ ":"%char :: port) "]" = Some (S (length host))).
  { rewrite <- app_assoc. cbn [app]. apply (IndexByte_app ("["%char :: host)). rewrite not_elem_of_cons. by split. }
  rewrite E. cbn [length]. rewrite !length_app. cbn [length].
  destruct (Nat.eqb_spec (S (S (length host))) (S (length host + 1 + S (length port)))); [lia|].
  rewrite (proj2 (Nat.eqb_eq _ _)) by lia.
  rewrite (proj2 (ContainsByte_false _ _)).
  2:{ cbn [drop]. set_solver. }
  rewrite (proj2 (ContainsByte_false _ _)).
  2:{ cbn [drop]. rewrite drop_app_ge by (rewrite length_app; simpl; lia). rewrite length_app. simpl.
      replace (S (length host) - (length host + 1))%nat with 0%nat by lia. cbn [drop]. set_solver. }
  f_equal. f_equal.
  - cbn [take drop]. rewrite drop_0, <- app_assoc. apply take_app_length.
  - cbn [drop]. rewrite drop_app_ge by (rewrite length_app; simpl; lia). rewrite length_app. simpl.
    by replace (S (length host + 1) - (length host + 1))%nat with 1%nat by lia.
Qed.

Lemma Split_Join_plain host port :
  no_special host -> no_special port -> SplitHostPort (host ++ str ":" ++ port) = Ok (host, port).
Proof.
  intros [[Ho Hc] Hn] [[Po Pc] Pn]. unfold SplitHostPort. cbn [str String.list_ascii_of_string app].
  rewrite LastIndexByte_app by done.
  rewrite bool_decide_false.
  2:{ destruct host as [|c host]; simpl; [done|]. intros [= ->]. apply Ho. left. }
  rewrite take_app_length. rewrite (proj2 (ContainsByte_false _ _) Hn).
  rewrite !drop_0. rewrite (proj2 (ContainsByte_false _ _)) by set_solver.
  rewrite (proj2 (ContainsByte_false _ _)) by set_solver. f_equal. f_equal.
  rewrite drop_app_ge by lia. by replace (S (length host) - length host)%nat with 1%nat by lia.
Qed.

Lemma SplitHostPort_Join host port :
  no_brackets host -> no_special port -> SplitHostPort (JoinHostPort host port) = Ok (host, port).
Proof.
  intros Hh Hp. unfold JoinHostPort. destruct (ContainsByte host ":") eqn:E.
  - by apply Split_Join_bracket.
  - apply Split_Join_plain; [|done]. split; [done|]. by apply ContainsByte_false.
Qed.

Lemma digits_no_special s : Forall (fun c => is_digit c = true) s -> no_special s.
Proof.
  intros Hs. rewrite List.Forall_forall in Hs. unfold no_special, no_brackets.
  split_and!; intros Hin%list_elem_of_In; by apply Hs in Hin.
Qed.

Lemma Itoa_no_special n : 0 <= n -> no_special (Itoa n).
Proof. intros Hn. by apply digits_no_special, Itoa_digits. Qed.

(** ** Hosts the parsers accept *)

Definition addr_char (c : ascii) : Prop := c <> "["%char /\ c <> "]"%char /\ c <> "|"%char.

Lemma hex_val_char c d : hex_val c = Some d -> addr_char c.
Proof. intros H. split_and!; intros ->; by vm_compute in H. Qed.

Lemma hex_run_chars inp s off acc acc' off' rest :
  hex_run inp s off acc = Ok (acc', off', rest) -> Forall addr_char rest -> Forall addr_char s.
Proof.
  revert off acc. induction s as [|c s IH]; intros off acc; cbn [hex_run]; [naive_solver|].
  destruct (hex_val c) as [d|] eqn:Hd; [|naive_solver].
  destruct (3 <? off); [done|]. destruct (65535 <? _); [done|]. intros H Hr. constructor; [by eapply hex_val_char|by eapply IH].
Qed.

Lemma v4_chars inp s f : parseIPv4Fields inp s = Ok f -> Forall addr_char s.
Proof.
  intros H%parse_v4_loop_chars. eapply Forall_impl; [exact H|]. intros c [Hd| ->]; [|done].
  split_and!; intros ->; by vm_compute in Hd.
Qed.

Lemma parse_v6_loop_chars fuel inp s ip ell ip' ell' s' :
  parse_v6_loop fuel inp s ip ell = Ok (ip', ell', s') -> Forall addr_char s' -> Forall addr_char s.
Proof.
  revert s ip ell. induction fuel as [|fuel IH]; intros s ip ell H Hs; cbn [parse_v6_loop] in H; [naive_solver|].
  inv_ok. destruct x as [[acc off] rest]. destruct (off =? 0); [done|].
  destruct rest as [|c rest]; [by eapply hex_run_chars|].
  destruct (Ascii.eqb_spec c ".") as [->|_].
  { destruct (negb _ && _); [done|]. destruct (_ <? _)%nat; [done|]. inv_ok. by eapply v4_chars. }
  destruct (Ascii.eqb_spec c ":") as [->|_]; cbn [negb] in H; [|done].
  eapply hex_run_chars; [done|]. constructor; [done|]. destruct rest as [|c2 rest2]; [done|].
  destruct (Ascii.eqb_spec c2 ":") as [->|_]; cbn [negb] in H; [|by eapply IH].
  destruct ell; [done|]. constructor; [done|]. destruct rest2; [by constructor|by eapply IH].
Qed.

Lemma parse_v6_body_chars inp s zone a : parse_v6_body inp s zone = Ok a -> Forall addr_char s.
Proof.
  unfold parse_v6_body. intros H.
  assert (Hrun : forall s ell st, parse_v6_loop 8 inp s [] ell = Ok st -> finish_v6 inp zone st = Ok a -> Forall addr_char s).
  { intros s0 ell [[ip ell'] s'] Hl Hf. eapply parse_v6_loop_chars; [exact Hl|]. by destruct s'. }
  destruct (CutPrefix s (str "::")) as [r|] eqn:E.
  - apply CutPrefix_Some in E as ->. apply Forall_app_2; [by repeat constructor|]. destruct r as [|c r]; [constructor|]. inv_ok. eauto.
  - inv_ok. eauto.
Qed.

Lemma ParseAddr_chars h a : ParseAddr h = Ok a -> Zone a = [] -> Forall addr_char h.
Proof.
  unfold ParseAddr. generalize h at 2. intros s. induction s as [|c s IH]; cbn [parse_addr_scan]; [done|].
  destruct (Ascii.eqb c "."); [unfold parseIPv4; intros H; inv_ok; intros _; by eapply v4_chars|].
  destruct (Ascii.eqb c ":"); [|by destruct (Ascii.eqb c "%"); [|apply IH]].
  unfold parseIPv6, Cut. destruct (IndexByte h "%") as [i|] eqn:E; cbn [fst snd].
  - destruct (drop (S i) h) as [|z zs]; [done|]. intros H Hz. by apply parse_v6_body_wf in H as (_ & _ & H); rewrite Hz in H.
  - intros H _. by eapply parse_v6_body_chars.
Qed.

(** A host that [parseHost] accepts has no brackets and no bar. *)
Lemma parseHost_chars h d : parseHost h = Ok d -> Forall addr_char h.
Proof.
  intros [(a & Ha & Hz & _)|(_ & Hh & _)]%parseHost_iff; [by eapply ParseAddr_chars|].
  eapply Forall_impl; [exact Hh|]. intros c Hc. split_and!; intros ->; by vm_compute in Hc.
Qed.

Lemma parseHost_no_brackets h d : parseHost h = Ok d -> no_brackets h.
Proof.
  intros Hh%parseHost_chars. rewrite List.Forall_forall in Hh. split; intros Hin%list_elem_of_In; by apply Hh in Hin as (? & ? & ?).
Qed.

Lemma parseHost_no_bar h d : parseHost h = Ok d -> "|"%char ∉ h.
Proof. intros Hh%parseHost_chars. rewrite List.Forall_forall in Hh. intros Hin%list_elem_of_In. by apply Hh in Hin as (? & ? & ?). Qed.

(** ** [netip.ParseAddrPort]

    Only the address is used by the program. *)

Definition ParseAddrPort_addr (s : gostring) : result Addr :=
  match LastIndexByte s ":" with
  | None => netip_err s "not an ip:port"
  | Some i =>
      let ip := take i s in
      let port := drop (S i) s in
      if bool_decide (ip = []) then netip_err s "no IP"
      else if bool_decide (port = []) then netip_err s "no port"
      else
        let* (ip, v6) := (if bool_decide (head ip = Some "["%char) then
                            if (length ip <? 2)%nat || negb (bool_decide (last ip = Some "]"%char)) then netip_err s "missing ]"
                            else Ok (drop 1 (take (length ip - 1) ip), true)
                          else Ok (ip, false)) in
        if negb (forallb is_digit port) || (65535 <? atoi_digits port) then netip_err s "invalid port"
        else
          let* a := ParseAddr ip in
          if v6 && Is4 a then netip_err s "square brackets can only be used with IPv6 addresses"
          else if negb v6 && Is6 a then netip_err s "IPv6 addresses must be surrounded by square brackets"
          else Ok a
  end.

Lemma port_text port : 0 <= port <= 65535 -> forallb is_digit (Itoa port) = true /\ atoi_digits (Itoa port) = port /\ Itoa port <> [] /\ ":"%char ∉ Itoa port.
Proof.
  intros Hp. pose proof (Itoa_digits port ltac:(lia)) as Hd. split_and!.
  - apply forallb_forall. by apply List.Forall_forall.
  - apply atoi_Itoa. lia.
  - pose proof (Itoa_length port 4 ltac:(lia) ltac:(cbn; lia)) as Hl. by destruct (Itoa port); [simpl in Hl; lia|].
  - apply Itoa_no_special. lia.
Qed.

(** The text of an address and port gives the address back. *)
Lemma ParseAddrPort_string a port :
  plain_addr a -> 0 <= port <= 65535 -> ParseAddrPort_addr (AddrPort_String a port) = Ok a.
Proof.
  intros Ha Hp. destruct (port_text port Hp) as (Hdig & Hval & Hne & Hnc). pose proof (ParseAddr_addr_string a Ha) as Hrt.
  pose proof (addr_string_nonempty a Ha) as Hnil. pose proof (addr_string_chars a "["%char Ha) as Hbr.
  unfold ParseAddrPort_addr. destruct a as [|v|v z]; [by destruct Ha as (_ & ? & _)| |]; unfold AddrPort_String; cbn [str String.list_ascii_of_string].
  - cbn [app]. rewrite LastIndexByte_app, take_app_length by done.
    rewrite (drop_app_ge _ _ (S _)) by lia. replace (S (length (addr_string (Addr4 v))) - length (addr_string (Addr4 v)))%nat with 1%nat by lia. cbn [drop].
    rewrite drop_0, (bool_decide_false (addr_string _ = [])), (bool_decide_false (Itoa _ = [])) by done. rewrite bool_decide_false.
    2:{ destruct (addr_string (Addr4 v)) as [|c s]; [done|]. intros [= ->]. destruct Hbr as [[d Hd]|[?|?]]; [left|by vm_compute in Hd|done..]. }
    cbn [rbind]. rewrite Hdig, Hval, (proj2 (Z.ltb_ge _ _)) by lia. cbn [negb orb]. rewrite Hrt. done.
  - set (s := addr_string (Addr6 v z)) in *.
    replace (["["%char] ++ s ++ ["]"%char; ":"%char] ++ Itoa port) with ((["["%char] ++ s ++ ["]"%char]) ++ ":"%char :: Itoa port) by (by rewrite <- !app_assoc).
    rewrite LastIndexByte_app, take_app_length by done.
    rewrite (drop_app_ge _ _ (S _)) by lia. replace (S (length (["["%char] ++ s ++ ["]"%char])) - length (["["%char] ++ s ++ ["]"%char]))%nat with 1%nat by lia. cbn [drop].
    rewrite drop_0, (bool_decide_false (_ ++ _ = [])), (bool_decide_false (Itoa _ = [])) by done. cbn [app head]. rewrite (bool_decide_true (Some "["%char = _)) by done.
    rewrite (bool_decide_true (last _ = _)) by (rewrite app_comm_cons; apply last_snoc). cbn [length]. rewrite length_app. cbn [length].
    rewrite (proj2 (Nat.ltb_ge _ _)) by lia. cbn [orb negb rbind]. replace (S (length s + 1) - 1)%nat with (S (length s)) by lia.
    cbn [take drop]. rewrite drop_0, take_app_length, Hdig, Hval, (proj2 (Z.ltb_ge _ _)) by lia. cbn [negb orb]. rewrite Hrt. done.
Qed.
