(* ===== verification/PatternFacts.v ===== *)
(** * Patterns of internal/acl/rules.go

    The domain-suffix loop, the regular expressions generated for wildcard
    patterns and the anchoring of operator expressions, each against a
    reference definition that does not mention maps or regular expressions. *)

From Stdlib Require Import ZArith NArith Ascii String Lia Bool List.
From stdpp Require Import base tactics list gmap strings option sets.
From S2P Require Import Prelude GoStrings Netip Regexp Rules HostFacts.

(** ** Domain suffixes *)

(** [n] is the domain [d] or lies below it. *)
Definition under_domain (d n : gostring) : Prop := n = d \/ exists pre, n = pre ++ "."%char :: d.

Lemma under_domain_step d l r :
  "."%char ∉ l -> under_domain d (l ++ "."%char :: r) <-> d = l ++ "."%char :: r \/ under_domain d r.
Proof.
  intros Hl. unfold under_domain. split.
  - intros [->|[pre E]]; [by left|]. right.
    revert l Hl E. induction pre as [|a pre IH]; intros l Hl E.
    + destruct l as [|b l]; [injection E as ->; by left|]. injection E as -> _. by exfalso; apply Hl; left.
    + destruct l as [|b l].
      * injection E as <- ->. right. by exists pre.
      * injection E as -> E. apply not_elem_of_cons in Hl as [_ Hl]. by apply (IH l).
  - intros [->|[->|[pre ->]]]; [by left|right; by exists l|].
    right. exists (l ++ "."%char :: pre). by rewrite <- app_assoc.
Qed.

Lemma under_domain_no_dot d n : "."%char ∉ n -> under_domain d n <-> d = n.
Proof.
  intros Hn. unfold under_domain. split; [|by left]. intros [->|[pre ->]]; [done|].
  exfalso. apply Hn, elem_of_app. right. left.
Qed.

Lemma under_domain_length d n : under_domain d n -> length d <= length n.
Proof. intros [->|[pre ->]]; [done|]. rewrite length_app. simpl. lia. Qed.

Lemma under_domain_same_length d d' n : under_domain d n -> under_domain d' n -> length d = length d' -> d = d'.
Proof.
  assert (Hsuf : forall d, under_domain d n -> d `suffix_of` n).
  { intros e [->|[pre ->]]; [done|]. exists (pre ++ str "."). by rewrite <- app_assoc. }
  intros [k Hk]%Hsuf [k' Hk']%Hsuf Hl. rewrite Hk in Hk'. by apply app_inj_2 in Hk' as [_ ?].
Qed.

(** One round of the loop: stop, or go on with what follows the first dot. *)
Lemma suffix_loop_S fuel m n :
  suffix_loop (S fuel) m n =
  match m !! n with
  | Some p => Some p
  | None => match IndexByte n "." with None => None | Some i => suffix_loop fuel m (drop (S i) n) end
  end.
Proof. done. Qed.

Lemma drop_after_sep {A} (l : list A) x r : drop (S (length l)) (l ++ x :: r) = r.
Proof. induction l as [|y l IH]; [done|]. exact IH. Qed.

Lemma suffix_loop_None fuel m n :
  length n < fuel -> suffix_loop fuel m n = None <-> forall d, under_domain d n -> m !! d = None.
Proof.
  revert n. induction fuel as [|fuel IH]; intros n Hf; [lia|]. rewrite suffix_loop_S.
  destruct (m !! n) as [p|] eqn:E.
  { split; [done|]. intros H. specialize (H n (or_introl eq_refl)). congruence. }
  destruct (IndexByte n ".") as [i|] eqn:Ei.
  - apply IndexByte_Some in Ei as (l & r & -> & <- & Hl). rewrite drop_after_sep.
    rewrite length_app in Hf. simpl in Hf. rewrite IH by lia. setoid_rewrite (under_domain_step _ l r Hl). naive_solver.
  - apply IndexByte_None in Ei. setoid_rewrite (under_domain_no_dot _ n Ei). naive_solver.
Qed.

Lemma suffix_loop_Some fuel m n p :
  length n < fuel ->
  suffix_loop fuel m n = Some p <->
  exists d, under_domain d n /\ m !! d = Some p /\
    forall d', under_domain d' n -> is_Some (m !! d') -> length d' <= length d.
Proof.
  revert n. induction fuel as [|fuel IH]; intros n Hf; [lia|]. rewrite suffix_loop_S.
  destruct (m !! n) as [q|] eqn:E.
  { split.
    - intros [= ->]. exists n. split; [by left|]. split; [done|]. intros d' Hd' _. by apply under_domain_length.
    - intros (d & Hd & Hp & Hmax). specialize (Hmax n (or_introl eq_refl) ltac:(by rewrite E)).
      destruct Hd as [->|[pre ->]]; [congruence|]. rewrite length_app in Hmax. simpl in Hmax. lia. }
  destruct (IndexByte n ".") as [i|] eqn:Ei.
  - apply IndexByte_Some in Ei as (l & r & -> & <- & Hl). rewrite drop_after_sep.
    rewrite length_app in Hf. simpl in Hf. rewrite IH by lia. setoid_rewrite (under_domain_step _ l r Hl).
    split; intros (d & Hd & Hp & Hmax); exists d.
    + split; [by right|]. split; [done|]. intros d' [->|Hd'] Hs; [|by apply Hmax]. destruct Hs as [? ?]. congruence.
    + destruct Hd as [->|Hd]; [congruence|]. split; [done|]. split; [done|]. intros d' Hd' Hs. apply Hmax; [by right|done].
  - apply IndexByte_None in Ei. setoid_rewrite (under_domain_no_dot _ n Ei). split; [done|].
    intros (d & -> & Hp & _). congruence.
Qed.

(** ** Wildcard patterns

    The reference: "*" stands for any characters but dots; a leading "*."
    stands for one or more whole labels. *)
Fixpoint glob (p : gostring) (n : gostring) : bool :=
  match p with
  | [] => match n with [] => true | _ => false end
  | c :: p =>
      if Ascii.eqb c "*" then
        (fix star (n : gostring) : bool :=
           glob p n || (match n with [] => false | d :: n => andb (negb (Ascii.eqb d ".")) (star n) end)) n
      else match n with [] => false | d :: n => Ascii.eqb c d && glob p n end
  end.

Lemma glob_star p n :
  glob ("*"%char :: p) n = true <-> exists a b, n = a ++ b /\ ("."%char ∉ a) /\ glob p b = true.
Proof.
  induction n as [|d n IH].
  - simpl. rewrite orb_false_r. split.
    + intros H. exists [], []. split_and!; [done|apply not_elem_of_nil|done].
    + intros (a & b & E & _ & H). symmetry in E. by apply app_eq_nil in E as [-> ->].
  - change (glob ("*"%char :: p) (d :: n)) with (glob p (d :: n) || (negb (Ascii.eqb d ".") && glob ("*"%char :: p) n)).
    rewrite orb_true_iff, andb_true_iff, negb_true_iff, Ascii.eqb_neq, IH. split.
    + intros [H|[Hd (a & b & -> & Ha & H)]].
      * exists [], (d :: n). split_and!; [done|apply not_elem_of_nil|done].
      * exists (d :: a), b. split_and!; [done| |done]. by apply not_elem_of_cons.
    + intros (a & b & E & Ha & H). destruct a as [|d' a]; [left; simpl in E; by subst b|].
      injection E as <- ->. apply not_elem_of_cons in Ha as [Hd Ha]. right. split; [done|]. eauto.
Qed.

Lemma glob_char c p n : c <> "*"%char -> glob (c :: p) n = true <-> exists m, n = c :: m /\ glob p m = true.
Proof.
  intros Hc. cbn [glob]. rewrite (proj2 (Ascii.eqb_neq c "*") Hc). destruct n as [|d n].
  - split; [done|]. by intros (m & ? & _).
  - rewrite andb_true_iff, Ascii.eqb_eq. split; [intros [-> H]; eauto|]. intros (m & E & H). injection E as -> ->. done.
Qed.

(** One or more whole labels, each followed by a dot. *)
Definition label_run (w : gostring) : Prop :=
  exists ls, ls <> [] /\ Forall (fun l => l <> [] /\ "."%char ∉ l) ls /\ w = concat ((fun l => l ++ str ".") <$> ls).

Definition wildcard_match (p n : gostring) : Prop :=
  match CutPrefix p (str "*.") with
  | Some rest => exists w m, n = w ++ m /\ label_run w /\ glob rest m = true
  | None => glob p n = true
  end.

(** *** The generated expression *)

(** The characters of a wildcard pattern. *)
Definition pattern_char (c : ascii) : bool := host_char true c.

Definition item_text (c : ascii) : gostring :=
  if Ascii.eqb c "*" then str "[^.]*" else if Ascii.eqb c "." then str "\." else [c].
Definition item_re (c : ascii) : re :=
  if Ascii.eqb c "*" then RStar (RNotDot false) else RLit false c.

Lemma pattern_char_cases c :
  pattern_char c = true -> c = "*"%char \/ c = "."%char \/ (plain c = true /\ c <> "*"%char /\ c <> "."%char /\ c <> "\"%char).
Proof. unfold pattern_char. all_bytes c; intros H; try discriminate H; auto; right; right; repeat split; discriminate. Qed.

Lemma replace_quoted p :
  Forall (fun c => pattern_char c = true) p ->
  ReplaceAll (QuoteMeta p) (str "\*") (str "[^.]*") = concat (item_text <$> p).
Proof.
  unfold ReplaceAll. induction 1 as [|c p Hc _ IH]; [done|].
  unfold QuoteMeta in *. cbn [fmap list_fmap concat] in *.
  destruct (pattern_char_cases c Hc) as [-> |[-> |(Hp & Hs & Hd & Hb)]].
  - cbn -[QuoteMeta replace_from]. cbn [replace_from].
    change (HasPrefix ("\"%char :: "*"%char :: ?s) _) with true. cbn. f_equal. do 4 f_equal. exact IH.
  - cbn -[QuoteMeta replace_from]. cbn [replace_from].
    change (HasPrefix ("\"%char :: "."%char :: ?s) _) with false.
    change (HasPrefix ("."%char :: ?s) _) with false. cbn. do 2 f_equal. exact IH.
  - unfold item_text. rewrite (proj2 (Ascii.eqb_neq c "*") Hs), (proj2 (Ascii.eqb_neq c ".") Hd).
    unfold plain in Hp. apply andb_true_iff in Hp as [_ Hp%negb_true_iff]. rewrite Hp. cbn [app replace_from].
    unfold HasPrefix. cbn [str String.list_ascii_of_string]. rewrite CutPrefix_head by done. f_equal. exact IH.
Qed.

Lemma items_head p t :
  Forall (fun c => pattern_char c = true) p -> head (concat (item_text <$> p) ++ "$"%char :: t) <> Some "?"%char.
Proof.
  destruct 1 as [|c p Hc _]; [done|]. cbn [fmap list_fmap concat].
  destruct (pattern_char_cases c Hc) as [-> |[-> |(Hp & Hs & Hd & _)]]; [done..|].
  unfold item_text. rewrite (proj2 (Ascii.eqb_neq c "*") Hs), (proj2 (Ascii.eqb_neq c ".") Hd). cbn. intros [= ->]. done.
Qed.

Ltac frames := unfold push; cbn [app f_alts f_items f_saved].

(** Parsing the generated items up to the final "$". *)
Lemma run_items lim p t alts items saved stk rep :
  Forall (fun c => pattern_char c = true) p ->
  run lim (concat (item_text <$> p) ++ "$"%char :: t) false (mkFrame alts items saved) stk rep =
  run lim t false (mkFrame alts (REol :: rev (item_re <$> p) ++ items) saved) stk false.
Proof.
  intros Hp. revert items rep. induction Hp as [|c p Hc Hp IH]; intros items rep; [apply run_eol|].
  cbn [fmap list_fmap concat rev]. rewrite <- !app_assoc.
  destruct (pattern_char_cases c Hc) as [-> |[-> |(Hpl & Hs & Hd & _)]].
  - change (item_text "*") with (str "[^.]" ++ ["*"%char]). rewrite <- app_assoc, run_not_dot.
    frames. rewrite run_star by by apply items_head. rewrite IH. done.
  - change (item_text ".") with ["\"%char; "."%char]. cbn [app]. rewrite run_escaped by done.
    frames. by rewrite IH.
  - unfold item_text, item_re. rewrite (proj2 (Ascii.eqb_neq c "*") Hs), (proj2 (Ascii.eqb_neq c ".") Hd).
    cbn [app]. rewrite run_plain by done. frames. by rewrite IH.
Qed.

(** "(?:[^.]+\.)+" *)
Definition RLabels : re := RPlus (cats [RPlus (RNotDot false); RLit false "."]).

Lemma loop_open lim f s fold cur stk rep :
  length stk < lim ->
  parse_loop lim (S f) (str "(?:" ++ s) fold cur stk rep = parse_loop lim f s fold (mkFrame [] [] fold) (cur :: stk) false.
Proof. intros Hl. cbn -[Nat.leb]. by rewrite (proj2 (Nat.leb_gt _ _)) by lia. Qed.

Lemma loop_fold lim f s fold cur stk rep :
  length stk < lim -> parse_loop lim (S f) (str "(?i)" ++ s) fold cur stk rep = parse_loop lim f s true cur stk false.
Proof. intros Hl. cbn -[Nat.leb]. by rewrite (proj2 (Nat.leb_gt _ _)) by lia. Qed.

Lemma run_open lim s fold cur stk rep :
  length stk < lim ->
  run lim (str "(?:" ++ s) fold cur stk rep = run lim s fold (mkFrame [] [] fold) (cur :: stk) false.
Proof. intros Hl. unfold run at 1. rewrite loop_open by done. apply run_fuel. simpl. lia. Qed.

Lemma run_fold lim s fold cur stk rep :
  length stk < lim -> run lim (str "(?i)" ++ s) fold cur stk rep = run lim s true cur stk false.
Proof. intros Hl. unfold run at 1. rewrite loop_fold by done. apply run_fuel. simpl. lia. Qed.

Lemma run_labels lim s fold cur stk :
  (length stk < lim) -> head s <> Some "?"%char -> fold = false ->
  run lim (str "(?:[^.]+\.)+" ++ s) fold cur stk false = run lim s fold (push RLabels cur) stk true.
Proof.
  intros Hl Hs ->.
  change (str "(?:[^.]+\.)+" ++ s) with (str "(?:" ++ str "[^.]" ++ "+"%char :: "\"%char :: "."%char :: ")"%char :: "+"%char :: s).
  rewrite run_open, run_not_dot by done. frames. rewrite run_plus, run_escaped by done.
  frames.
  change (run lim (")"%char :: "+"%char :: s) false ?f (cur :: stk) false)
    with (run lim ("+"%char :: s) false (push (close f) cur) stk false).
  unfold push. by rewrite run_plus.
Qed.

(** The whole generated expression parses to the expected sequence. *)
Lemma parse_wildcard p :
  Forall (fun c => pattern_char c = true) p ->
  parse (wildcard_expr p) = POk (cats (RBol ::
    (match CutPrefix p (str "*.") with
     | Some r => RLabels :: (item_re <$> r)
     | None => item_re <$> p
     end) ++ [REol])).
Proof.
  intros Hp. unfold parse, parse_from. fold (run max_depth (wildcard_expr p) false (mkFrame [] [] false) [] false).
  assert (Hend : forall items, run max_depth [] false (mkFrame [] (REol :: items) false) [] false = POk (cats (rev items ++ [REol]))) by done.
  unfold wildcard_expr. destruct (CutPrefix p (str "*.")) as [r|] eqn:E.
  - apply CutPrefix_Some in E as ->. apply Forall_app in Hp as [_ Hr]. rewrite replace_quoted by done.
    change (str "^(?:[^.]+\.)+" ++ ?s) with ("^"%char :: str "(?:[^.]+\.)+" ++ s).
    change (str "$") with ["$"%char]. rewrite run_bol, run_labels; [|simpl; unfold max_depth; lia|by apply items_head|done].
    frames. rewrite run_items, Hend by done. f_equal.
    rewrite rev_app_distr, rev_involutive. simpl. done.
  - rewrite replace_quoted by done. change (str "^" ++ ?s) with ("^"%char :: s). change (str "$") with ["$"%char].
    rewrite run_bol. frames. rewrite run_items, Hend by done. f_equal.
    rewrite rev_app_distr, rev_involutive. simpl. done.
Qed.

(** *** Its meaning *)

Lemma in_range_same c d : in_range c c d = true <-> d = c.
Proof.
  unfold in_range. rewrite andb_true_iff, !Z.leb_le. split; [|intros ->; lia].
  intros [H1 H2]. apply code_inj. lia.
Qed.

Lemma chr_match_one neg c d : chr_match false neg [(c, c)] d = xorb neg (in_range c c d).
Proof. unfold chr_match, in_ranges. cbn [existsb fst snd andb]. by rewrite !orb_false_r. Qed.

Lemma M_lit b e c w : M b e (RLit false c) w <-> w = [c].
Proof.
  unfold RLit. rewrite M_chr_iff. setoid_rewrite chr_match_one. split.
  - intros (d & -> & H). destruct (in_range c c d) eqn:E; [|done]. by apply in_range_same in E as ->.
  - intros ->. exists c. by rewrite (proj2 (in_range_same c c)).
Qed.

Lemma M_notdot b e w : M b e (RNotDot false) w <-> exists c, w = [c] /\ c <> "."%char.
Proof.
  unfold RNotDot. rewrite M_chr_iff. setoid_rewrite chr_match_one.
  split; intros (c & -> & H); exists c; (split; [done|]).
  - intros ->. done.
  - destruct (in_range "." "." c) eqn:E; [|done]. by apply in_range_same in E.
Qed.

Lemma M_notdot_star b e w : M b e (RStar (RNotDot false)) w <-> "."%char ∉ w.
Proof.
  revert b. induction w as [|c w IH]; intros b; rewrite M_star_iff.
  - split; [intros _; apply not_elem_of_nil|by left].
  - rewrite not_elem_of_cons. split.
    + intros [?|(c' & w1 & w2 & E & H1 & H2)]; [done|]. apply M_notdot in H1 as (x & Hx & Hne).
      injection Hx as -> ->. injection E as -> ->. apply IH in H2. split; [congruence|done].
    + intros [Hc Hw]. right. exists c, [], w. split; [done|]. split; [apply M_notdot; exists c; split; congruence|by apply IH].
Qed.

Lemma M_items b e p w : M b e (cats (item_re <$> p)) w <-> glob p w = true.
Proof.
  revert b w. induction p as [|c p IH]; intros b w.
  - cbn. rewrite M_eps_iff. by destruct w.
  - cbn [fmap list_fmap cats foldr]. fold (cats (list_fmap _ _ item_re p)).
    change (list_fmap _ _ item_re p) with (item_re <$> p). rewrite M_cat_iff. unfold item_re at 1.
    destruct (Ascii.eqb_spec c "*") as [->|Hc].
    + rewrite glob_star. setoid_rewrite M_notdot_star. by setoid_rewrite IH.
    + rewrite glob_char by done. setoid_rewrite M_lit. setoid_rewrite IH. split.
      * intros (w1 & w2 & -> & -> & H). by exists w2.
      * intros (m & -> & H). by exists [c], m.
Qed.

(** One label with its dot: "[^.]+\." *)
Lemma M_label b e w :
  M b e (cats [RPlus (RNotDot false); RLit false "."]) w <-> exists l, l <> [] /\ ("."%char ∉ l) /\ w = l ++ str ".".
Proof.
  cbn [cats foldr]. unfold RPlus. rewrite M_cat_iff. setoid_rewrite M_cat_iff. setoid_rewrite M_lit.
  setoid_rewrite M_eps_iff. setoid_rewrite M_notdot_star. setoid_rewrite M_notdot. split.
  - intros (w1 & w2 & -> & (u1 & u2 & -> & (c & -> & Hc) & Hu) & v1 & v2 & -> & -> & ->).
    exists (c :: u2). split; [done|]. split; [by apply not_elem_of_cons|done].
  - intros (l & Hne & Hl & ->). destruct l as [|c l]; [done|]. apply not_elem_of_cons in Hl as [Hc Hl].
    exists (c :: l), (str "."). split; [done|]. split.
    + exists [c], l. split; [done|]. split; [by exists c|done].
    + exists (str "."), []. done.
Qed.

Lemma M_labels_star b e w :
  M b e (RStar (cats [RPlus (RNotDot false); RLit false "."])) w <->
  exists ls, Forall (fun l => l <> [] /\ "."%char ∉ l) ls /\ w = concat ((fun l => l ++ str ".") <$> ls).
Proof.
  split.
  - intros H. remember (RStar _) as r eqn:Er. revert Er.
    induction H as [| | | | | | |b e r|b e r c w1 w2 H1 _ _ IH2]; intros [= ->].
    + exists []. split; [constructor|done].
    + apply M_label in H1 as (l & Hne & Hl & E). destruct (IH2 eq_refl) as (ls & Hls & ->).
      exists (l :: ls). split; [by constructor|]. by rewrite E.
  - intros (ls & Hls & ->). revert b. induction Hls as [|l ls [Hne Hl] _ IH]; intros b; [apply M_star_nil|].
    destruct l as [|c l]; [done|]. cbn [fmap list_fmap concat].
    apply (M_star_cons b e _ c (l ++ str ".")); [|apply IH]. apply M_label. by exists (c :: l).
Qed.

Lemma M_RLabels b e w : M b e RLabels w <-> label_run w.
Proof.
  unfold RLabels, RPlus at 1, label_run. rewrite M_cat_iff. setoid_rewrite M_label. setoid_rewrite M_labels_star. split.
  - intros (w1 & w2 & -> & (l & Hne & Hl & ->) & ls & Hls & ->). exists (l :: ls). split; [done|]. split; [by constructor|done].
  - intros (ls & Hne & Hls & ->). destruct Hls as [|l ls [Hl1 Hl2] Hls]; [done|].
    exists (l ++ str "."), (concat ((fun l => l ++ str ".") <$> ls)). split; [done|]. split; eauto.
Qed.

(** The compiled expression of a wildcard pattern, through its text, the parser
    and the matcher, decides the reference matching. *)
Lemma wildcard_expr_correct p n :
  Forall (fun c => pattern_char c = true) p ->
  exists r, parse (wildcard_expr p) = POk r /\ (MatchString r n = true <-> wildcard_match p n).
Proof.
  intros Hp. eexists. split; [by apply parse_wildcard|]. rewrite MatchString_spec, matches_anchored_seq.
  unfold wildcard_match. destruct (CutPrefix p (str "*.")) as [r|]; [|apply M_items].
  change (cats (RLabels :: (item_re <$> r))) with (RCat RLabels (cats (item_re <$> r))).
  rewrite M_cat_iff. setoid_rewrite M_RLabels. by setoid_rewrite M_items.
Qed.

(** *** Label by label *)

Lemma Split_app_no_sep a b c : c ∉ a -> Split (a ++ b) c = match Split b c with hd :: tl => (a ++ hd) :: tl | [] => [a] end.
Proof.
  induction a as [|x a IH]; intros Ha; simpl; [by destruct (Split b c) eqn:E; [apply Split_nonempty in E|]|].
  apply not_elem_of_cons in Ha as [Hx Ha]. rewrite (IH Ha). destruct (Ascii.eqb_spec x c) as [->|_]; [done|].
  pose proof (Split_nonempty b c). by destruct (Split b c).
Qed.

Lemma Split_inj s t c : Split s c = Split t c -> s = t.
Proof. intros E. rewrite <- (Join_Split s c), <- (Join_Split t c). by rewrite E. Qed.

Lemma glob_nil n : glob [] n = true <-> n = [].
Proof. by destruct n. Qed.

(** Taking a prefix off the first label. *)
Lemma Split_first n c a b ls :
  Split n c = (a ++ b) :: ls -> n = a ++ Join (b :: ls) c /\ Split (Join (b :: ls) c) c = b :: ls.
Proof.
  intros E. split.
  - rewrite <- (Join_Split n c), E. destruct ls; [done|]. rewrite !Join_cons by done. by rewrite <- app_assoc.
  - apply Split_Join; [done|]. apply List.Forall_forall. intros x Hx%list_elem_of_In. apply elem_of_cons in Hx as [->|Hx].
    + assert (Hin : a ++ b ∈ Split n c) by (rewrite E; left). apply Split_no_sep in Hin.
      rewrite elem_of_app in Hin. tauto.
    + apply (Split_no_sep n). rewrite E. by right.
Qed.

(** A pattern without leading "*." matches label by label: the "*" of a label
    never crosses a dot. *)
Lemma glob_labels p n :
  glob p n = true <-> Forall2 (fun lp ln => glob lp ln = true) (Split p ".") (Split n ".").
Proof.
  revert n. induction p as [|c p IH]; intros n.
  { rewrite glob_nil. cbn [Split]. split; [intros ->; repeat constructor|].
    inversion 1 as [|? l ? ls Hl Hls E1 E2]; subst. inversion Hls; subst.
    apply glob_nil in Hl as ->. by apply (Split_inj n [] "."). }
  pose proof (Split_nonempty p ".") as Hne. cbn [Split].
  destruct (Ascii.eqb_spec c ".") as [->|Hdot].
  { rewrite glob_char by done. split.
    - intros (m & -> & Hm%IH). by constructor.
    - inversion 1 as [|? l ? ls Hl Hls E1 E2]; subst. apply glob_nil in Hl as ->.
      destruct ls as [|l ls]; [by inversion Hls; destruct (Split p ".")|].
      destruct (Split_first n "." [] [] (l :: ls)) as [En _]; [done|].
      exists (Join (l :: ls) "."). split; [exact En|]. apply IH. rewrite Split_Join; [done..|].
      apply List.Forall_forall. intros x Hx%list_elem_of_In. apply (Split_no_sep n). rewrite <- E2. by right. }
  destruct (Split p ".") as [|lp lps] eqn:Ep; [done|].
  destruct (Ascii.eqb_spec c "*") as [->|Hstar].
  - rewrite glob_star. split.
    + intros (a & b & -> & Ha & Hb%IH). rewrite Split_app_no_sep by done. inversion Hb as [|? l ? ls Hl Hls E1 E2]; subst.
      constructor; [|done]. apply glob_star. eauto.
    + inversion 1 as [|? l ? ls Hl Hls E1 E2]; subst. apply glob_star in Hl as (a & b & -> & Ha & Hb).
      destruct (Split_first n "." a b ls) as [En Es]; [done|]. exists a, (Join (b :: ls) ".").
      split; [done|]. split; [done|]. apply IH. rewrite Es. by constructor.
  - rewrite glob_char by done. split.
    + intros (m & -> & Hm%IH). change (c :: m) with ([c] ++ m).
      rewrite Split_app_no_sep by (rewrite list_elem_of_singleton; congruence).
      inversion Hm as [|? l ? ls Hl Hls E1 E2]; subst. constructor; [|done]. apply glob_char; [done|]. eauto.
    + inversion 1 as [|? l ? ls Hl Hls E1 E2]; subst. apply glob_char in Hl as (m & -> & Hm); [|done].
      destruct (Split_first n "." [c] m ls) as [En Es]; [done|]. exists (Join (m :: ls) ".").
      split; [done|]. apply IH. rewrite Es. by constructor.
Qed.

Lemma lower_pattern_chars p :
  Forall (fun c => host_char true c = true) p -> Forall (fun c => pattern_char c = true) (normal p).
Proof.
  intros Hp. apply List.Forall_forall. intros x Hx%list_elem_of_In. apply normal_elem in Hx as (y & Hy & ->).
  apply list_elem_of_In in Hy. apply (proj1 (List.Forall_forall _ _) Hp) in Hy. unfold pattern_char. by all_bytes y.
Qed.

Section with_engine.
Context (engine : gostring -> option (gostring -> bool)).

(** The expression of a valid wildcard pattern always compiles, to a matcher
    for the reference. *)
Lemma MustCompile_wildcard p :
  Forall (fun c => pattern_char c = true) p ->
  exists m, MustCompile engine (wildcard_expr p) = Ok m /\ forall n, m n = true <-> wildcard_match p n.
Proof.
  intros Hp. destruct (wildcard_expr_correct p [] Hp) as (r & Hr & _). exists (MatchString r).
  unfold MustCompile, Compile. rewrite Hr. split; [done|]. intros n.
  destruct (wildcard_expr_correct p n Hp) as (r' & Hr' & Hn). congruence.
Qed.

(** C9: the matcher of a wildcard pattern, built through the text of a regular expression, matches exactly the intended names: with a leading "*." one or more whole labels and then the rest of the pattern, otherwise label by label, where a "*" stands for any characters within its own label. *)
Theorem wildcard_correct p nm m n :
  compileNamePattern engine p = Ok (wildcard, nm, m) ->
  (m n = true <-> wildcard_match (normal p) n) /\
  (CutPrefix (normal p) (str "*.") = None ->
   (m n = true <-> Forall2 (fun lp ln => glob lp ln = true) (Split (normal p) ".") (Split n "."))).
Proof.
  unfold compileNamePattern, guard_err. fold (normal p). intros H.
  destruct (checkHostChars p true) eqn:Hc; [done|]. apply checkHostChars_None, lower_pattern_chars in Hc.
  case_bool_decide; [done|]. destruct (CutPrefix (normal p) (str ".")); [by destruct (validateHostname _ _)|].
  destruct (negb (ContainsByte (normal p) "*")); [by destruct (validateHostname _ _)|].
  destruct (_ && _); [done|]. destruct (validateHostname _ _); [done|].
  destruct (MustCompile_wildcard (normal p) Hc) as (m' & Hm & Hspec). rewrite Hm in H. injection H as <- <-.
  split; [apply Hspec|]. intros Hno. rewrite Hspec, <- glob_labels. unfold wildcard_match. by rewrite Hno.
Qed.

(** Compiling a pattern never panics: the expression generated for a wildcard pattern is always a valid regular expression. *)
Theorem compileNamePattern_no_panic p : compileNamePattern engine p <> Err EPanic.
Proof.
  unfold compileNamePattern, guard_err. fold (normal p).
  destruct (checkHostChars p true) as [e|] eqn:Hc.
  { intros [= ->]. clear -Hc. induction p as [|c p IH]; simpl in Hc; [done|]. destruct (host_char true c); [auto|done]. }
  apply checkHostChars_None, lower_pattern_chars in Hc.
  assert (Hval : forall s w, validateHostname s w <> Some EPanic).
  { intros s w. unfold validateHostname. case_bool_decide; [done|]. destruct (253 <? length s); [done|].
    assert (Hlab : forall ls a, check_labels ls w a <> inl EPanic).
    { induction ls as [|l ls IH]; intros a; cbn [check_labels]; [done|].
      repeat (case_match; [done|]). apply IH. }
    destruct (check_labels (Split s ".") w true) as [e|b] eqn:E; [intros [= ->]; by apply Hlab in E|].
    repeat (case_match; [done|]). done. }
  case_bool_decide; [done|].
  destruct (CutPrefix (normal p) (str ".")) as [base|].
  { destruct (validateHostname base false) eqn:E; [|done]. intros [= ->]. by apply Hval in E. }
  destruct (negb (ContainsByte (normal p) "*")).
  { destruct (validateHostname (normal p) false) eqn:E; [|done]. intros [= ->]. by apply Hval in E. }
  destruct (_ && _); [done|]. destruct (validateHostname (normal p) true) eqn:E; [intros [= ->]; by apply Hval in E|].
  by destruct (MustCompile_wildcard (normal p) Hc) as (m & -> & _).
Qed.

(** ** Operator expressions *)

(** The text compiled for "~expr". *)
Definition anchored_expr (expr : gostring) : gostring := str "(?i)^(?:" ++ expr ++ str ")$".

Lemma parse_run s : parse s = run max_depth s false (mkFrame [] [] false) [] false.
Proof. reflexivity. Qed.

Lemma parse_anchored expr r :
  parse_from (pred max_depth) true expr = POk r -> parse (anchored_expr expr) = POk (cats [RBol; r; REol]).
Proof.
  intros Hr.
  assert (E : anchored_expr expr = str "(?i)" ++ "^"%char :: str "(?:" ++ expr ++ ")"%char :: ["$"%char]) by done.
  rewrite parse_run, E. clear E.
  rewrite run_fold, run_bol, run_open by (unfold max_depth; simpl; lia).
  change max_depth with (S (pred max_depth)). rewrite (run_group _ _ _ _ _ _ Hr).
  rewrite run_eol. apply run_end.
Qed.

(** An operator expression that is well formed on its own matches a name only as a whole and regardless of case: the anchors put around it bind the entire expression, whatever alternatives it has. *)
Theorem regex_anchored expr r :
  parse_from (pred max_depth) true expr = POk r ->
  exists m, Compile engine (anchored_expr expr) = Ok m /\ forall n, m n = true <-> M true true r n.
Proof.
  intros Hr. exists (MatchString (cats [RBol; r; REol])). unfold Compile. rewrite (parse_anchored _ _ Hr). split; [done|].
  intros n. rewrite MatchString_spec, (matches_anchored_seq [r]). apply M_cats_single.
Qed.
End with_engine.

Lemma wildcard_correct_witness :
  exists nm m, compileNamePattern (fun _ => None) (str "api-*.Test.org") = Ok (wildcard, nm, m) /\
    (m (str "api-7.test.org") = true <-> wildcard_match (str "api-*.test.org") (str "api-7.test.org")).
Proof.
  assert (H : match compileNamePattern (fun _ => None) (str "api-*.Test.org") with Ok (wildcard, _, _) => true | _ => false end = true)
    by (vm_compute; reflexivity).
  destruct (compileNamePattern (fun _ => None) (str "api-*.Test.org")) as [[[[] nm] m]|] eqn:E; try discriminate H.
  exists nm, m. split; [reflexivity|].
  exact (proj1 (wildcard_correct (fun _ => None) _ _ _ (str "api-7.test.org") E)).
Defined.

(** How the rule of an operator expression is added. *)
Lemma add_regex engine rs p expr r :
  TrimSpace p = "~"%char :: expr -> expr <> [] -> parse (anchored_expr expr) = POk r ->
  add engine rs p =
    Ok (mkRuleSet (rs_exact rs) (rs_suffix rs) (rs_names rs ++ [mkNameRule ("~"%char :: expr) (MatchString r)]) (rs_any rs) (rs_addrs rs)).
Proof.
  intros Hp Hne Hr. unfold add. rewrite Hp.
  assert (CutPrefix ("~"%char :: expr) (str "~") = Some expr) as -> by (by apply CutPrefix_Some).
  rewrite bool_decide_false by done. rewrite bool_decide_false by done.
  fold (anchored_expr expr). unfold Compile. by rewrite Hr.
Qed.

(** An expression with unbalanced parentheses escapes from the anchors: "a\.com)|(?:b\.com" is not a regular expression on its own, yet the rule "~a\.com)|(?:b\.com" compiles, and matches "a.com.evil.net" and "xb.com". *)
Theorem regex_escape engine :
  Compile engine (str "a\.com)|(?:b\.com") = Err (ERegexp (str "a\.com)|(?:b\.com")) /\
  exists rs, compileRules engine [str "~a\.com)|(?:b\.com"] = Ok rs /\
    is_Some (rs_match rs (mkDest (str "a.com.evil.net") AddrZero)) /\ is_Some (rs_match rs (mkDest (str "xb.com") AddrZero)).
Proof.
  split; [by vm_compute|].
  destruct (parse (anchored_expr (str "a\.com)|(?:b\.com"))) as [r| |] eqn:E; [|by vm_compute in E..].
  exists (mkRuleSet ∅ ∅ [mkNameRule (str "~a\.com)|(?:b\.com") (MatchString r)] [] []). split.
  - unfold compileRules. cbn [compile_loop]. by rewrite (add_regex _ _ (str "~a\.com)|(?:b\.com") (str "a\.com)|(?:b\.com") r eq_refl ltac:(discriminate) E).
  - vm_compute in E. injection E as <-. split; by eexists; vm_compute.
Qed.
