(* ===== verification/RuleSetFacts.v ===== *)
(** * Rule sets of internal/acl/rules.go

    A compiled [ruleSet] keeps exact names and domains in maps, so that their
    number does not slow down matching. Here it is shown to refine a plain
    list of rules that is scanned from front to back, and the list is related
    to the text of the patterns. *)

From Stdlib Require Import ZArith NArith Ascii String Lia Bool List.
From stdpp Require Import base tactics list gmap strings option sets.
From S2P Require Import Prelude GoStrings Netip Regexp Rules HostFacts PatternFacts.

(** ** The abstract rule set: a list of rules *)

Inductive rule_kind :=
| KExact (n : gostring)
| KDomain (d : gostring)
| KName (m : gostring -> bool)
| KAny
| KAddr (p : Prefix).

Record rule := mkRule { r_pattern : gostring; r_kind : rule_kind }.

Definition under_domainb (d n : gostring) : bool := bool_decide (n = d \/ is_Some (CutSuffix n ("."%char :: d))).

Lemma under_domainb_true d n : under_domainb d n = true <-> under_domain d n.
Proof.
  unfold under_domainb, under_domain. rewrite bool_decide_eq_true. unfold is_Some. by setoid_rewrite CutSuffix_Some.
Qed.

(** What a rule matches: names for the first four kinds, addresses for the last. *)
Definition kind_matches (k : rule_kind) (d : destination) : bool :=
  match k with
  | KExact n => negb (IsValid (d_addr d)) && bool_decide (d_name d = n)
  | KDomain b => negb (IsValid (d_addr d)) && under_domainb b (d_name d)
  | KName m => negb (IsValid (d_addr d)) && m (d_name d)
  | KAny => negb (IsValid (d_addr d))
  | KAddr p => IsValid (d_addr d) && Contains p (d_addr d)
  end.

(** The first rule of a list that satisfies a test. *)
Definition first_rule (f : rule_kind -> bool) (rules : list rule) : option gostring :=
  r_pattern <$> List.find (fun r => f (r_kind r)) rules.

Definition is_exact (n : gostring) (k : rule_kind) : bool := match k with KExact m => bool_decide (n = m) | _ => false end.
Definition is_domain (d : gostring) (k : rule_kind) : bool := match k with KDomain e => bool_decide (d = e) | _ => false end.
Definition is_name (n : gostring) (k : rule_kind) : bool := match k with KName m => m n | _ => false end.
Definition is_any (k : rule_kind) : bool := match k with KAny => true | _ => false end.
Definition is_addr (a : Addr) (k : rule_kind) : bool := match k with KAddr p => Contains p a | _ => false end.

(** One step of a scan for the longest domain above [n]; the first one wins
    among equals. *)
Definition longer_domain (n : gostring) (best : option (gostring * gostring)) (r : rule) : option (gostring * gostring) :=
  match r_kind r with
  | KDomain d =>
      if under_domainb d n && (match best with None => true | Some (d', _) => (length d' <? length d)%nat end)
      then Some (d, r_pattern r) else best
  | _ => best
  end.
Definition longest_domain (n : gostring) (rules : list rule) : option (gostring * gostring) :=
  fold_left (longer_domain n) rules None.

(** The rule a list of rules reports for a destination: an exact name, then
    the longest domain, then wildcards and expressions in order, then "*". *)
Definition list_match (rules : list rule) (d : destination) : option gostring :=
  if IsValid (d_addr d) then first_rule (is_addr (d_addr d)) rules
  else
    let n := d_name d in
    first_rule (is_exact n) rules ∪ (snd <$> longest_domain n rules) ∪ first_rule (is_name n) rules ∪ first_rule is_any rules.

(** ** Lists of rules grow at the end *)

Lemma option_union_None_r {A} (o : option A) : o ∪ None = o.
Proof. by destruct o. Qed.

Lemma option_union_Some_iff {A} (o o' : option A) x : o ∪ o' = Some x <-> o = Some x \/ o = None /\ o' = Some x.
Proof. destruct o, o'; naive_solver. Qed.

Lemma option_union_is_Some {A} (o o' : option A) : is_Some (o ∪ o') <-> is_Some o \/ is_Some o'.
Proof. destruct o, o'; split; unfold is_Some; naive_solver. Qed.

Lemma first_rule_snoc f rules r :
  first_rule f (rules ++ [r]) = first_rule f rules ∪ (if f (r_kind r) then Some (r_pattern r) else None).
Proof.
  unfold first_rule. induction rules as [|x rules IH]; simpl; [by destruct (f (r_kind r))|].
  destruct (f (r_kind x)); [by destruct (f (r_kind r))|exact IH].
Qed.

Lemma first_rule_is_Some f rules : is_Some (first_rule f rules) <-> exists r, r ∈ rules /\ f (r_kind r) = true.
Proof. unfold first_rule. rewrite fmap_is_Some. apply find_is_Some. Qed.

Lemma longest_domain_snoc n rules r : longest_domain n (rules ++ [r]) = longer_domain n (longest_domain n rules) r.
Proof. unfold longest_domain. by rewrite fold_left_app. Qed.

(** [o] is a longest domain above [n] among the domains that [first] knows,
    with its pattern. *)
Definition is_longest (n : gostring) (first : gostring -> option gostring) (o : option (gostring * gostring)) : Prop :=
  match o with
  | None => forall d, under_domain d n -> first d = None
  | Some (d, p) => under_domain d n /\ first d = Some p /\
      forall d', under_domain d' n -> is_Some (first d') -> length d' <= length d
  end.

Lemma is_longest_ext n f g o : (forall d, under_domain d n -> f d = g d) -> is_longest n f o -> is_longest n g o.
Proof.
  intros E. unfold is_longest. destruct o as [[d p]|].
  - intros (Hd & Hp & Hmax). rewrite <- (E d) by done. split_and!; [done..|].
    intros d' Hd'. rewrite <- (E d') by done. auto.
  - intros H d Hd. rewrite <- (E d) by done. auto.
Qed.

(** Both are unique: two longest domains above a name are equal. *)
Lemma is_longest_unique n f o o' : is_longest n f o -> is_longest n f o' -> o = o'.
Proof.
  unfold is_longest. destruct o as [[d p]|], o' as [[d' p']|]; [|naive_solver..|done].
  intros (Hd & Hp & Hmax) (Hd' & Hp' & Hmax').
  assert (length d = length d').
  { specialize (Hmax d' Hd' ltac:(by rewrite Hp')). specialize (Hmax' d Hd ltac:(by rewrite Hp)). lia. }
  assert (d = d') by (by eapply under_domain_same_length). subst d'. congruence.
Qed.

Lemma is_longest_snoc n f e p o :
  is_longest n f o -> under_domain e n ->
  is_longest n (fun d => f d ∪ (if bool_decide (d = e) then Some p else None))
    (if match o with None => true | Some (d', _) => (length d' <? length e)%nat end then Some (e, p) else o).
Proof.
  intros Ho He. destruct o as [[d q]|]; simpl in *.
  - destruct Ho as (Hd & Hq & Hmax). destruct (Nat.ltb_spec (length d) (length e)) as [Hlt|Hge]; simpl.
    + assert (Hnone : f e = None).
      { destruct (f e) eqn:E; [|done]. specialize (Hmax e He ltac:(by rewrite E)). lia. }
      rewrite Hnone, bool_decide_true by done. split_and!; [done..|]. intros d' Hd'.
      case_bool_decide; [by subst|]. rewrite option_union_None_r. intros Hs. specialize (Hmax d' Hd' Hs). lia.
    + rewrite Hq. split_and!; [done|by case_bool_decide|]. intros d' Hd'. case_bool_decide; [by subst|].
      rewrite option_union_None_r. auto.
  - rewrite Ho, bool_decide_true by done. split_and!; [done..|]. intros d' Hd'.
    case_bool_decide; [by subst|]. rewrite Ho by done. by intros [? ?].
Qed.

(** The scan finds a longest domain above [n], and its first rule. *)
Lemma longest_domain_spec n rules :
  is_longest n (fun d => first_rule (is_domain d) rules) (longest_domain n rules).
Proof.
  induction rules as [|r rules IH] using rev_ind; [done|]. rewrite longest_domain_snoc. unfold longer_domain.
  destruct (r_kind r) as [|e| | |] eqn:Ek;
    try (eapply is_longest_ext, IH; intros d _; rewrite first_rule_snoc, Ek; cbn [is_domain]; by rewrite option_union_None_r).
  destruct (under_domainb e n) eqn:He.
  - apply under_domainb_true in He. eapply is_longest_ext, (is_longest_snoc _ _ _ (r_pattern r) _ IH He).
    intros d _. by rewrite first_rule_snoc, Ek.
  - eapply is_longest_ext, IH. intros d Hd. rewrite first_rule_snoc, Ek. cbn [is_domain].
    rewrite bool_decide_false, option_union_None_r; [done|]. intros ->. apply under_domainb_true in Hd. congruence.
Qed.

(** ** Refinement *)

(** The compiled set [rs] answers every lookup as the list [rules] does. *)
Record refines (rs : ruleSet) (rules : list rule) : Prop := {
  ref_exact : forall n, rs_exact rs !! n = first_rule (is_exact n) rules;
  ref_suffix : forall d, rs_suffix rs !! d = first_rule (is_domain d) rules;
  ref_names : forall n, names_loop (rs_names rs) n = first_rule (is_name n) rules;
  ref_any : rs_any rs = default [] (first_rule is_any rules);
  ref_addrs : forall a, ar_pattern <$> List.find (fun r => Contains (ar_prefix r) a) (rs_addrs rs) = first_rule (is_addr a) rules;
  ref_pattern : Forall (fun r => r_pattern r <> []) rules
}.

Lemma suffix_loop_longest m n o :
  is_longest n (fun d => m !! d) o -> suffix_loop (S (length n)) m n = snd <$> o.
Proof.
  intros Ho. destruct o as [[d p]|]; simpl in Ho; cbn [fmap option_fmap option_map snd].
  - apply suffix_loop_Some; [lia|]. by exists d.
  - apply suffix_loop_None; [lia|done].
Qed.

(** Skipping the loop for an empty map changes nothing. *)
Lemma suffix_loop_guard m n :
  (if (0 <? size m)%nat then suffix_loop (S (length n)) m n else None) = suffix_loop (S (length n)) m n.
Proof.
  destruct (Nat.ltb_spec 0 (size m)) as [_|Hs]; [done|]. symmetry. apply suffix_loop_None; [lia|]. intros d _.
  assert (m = ∅) as -> by (apply map_size_empty_iff; lia). apply lookup_empty.
Qed.

Lemma first_rule_nonempty f rules p :
  Forall (fun r => r_pattern r <> []) rules -> first_rule f rules = Some p -> p <> [].
Proof.
  unfold first_rule. rewrite fmap_Some. intros Hp (r & Hr & ->). apply List.find_some in Hr as [Hin _].
  by apply (proj1 (List.Forall_forall _ _) Hp) in Hin.
Qed.

Lemma refines_match rs rules d : refines rs rules -> rs_match rs d = list_match rules d.
Proof.
  intros [He Hs Hn Ha Haddr Hp]. unfold rs_match, list_match. destruct (IsValid (d_addr d)); [apply Haddr|].
  unfold matchName. rewrite He, suffix_loop_guard, Hn, Ha.
  rewrite (suffix_loop_longest _ _ (longest_domain (d_name d) rules)).
  2: { eapply is_longest_ext; [|apply longest_domain_spec]. intros e _. by rewrite Hs. }
  destruct (first_rule (is_any) rules) as [q|] eqn:Eq; simpl.
  - rewrite bool_decide_false by (by eapply first_rule_nonempty).
    by destruct (first_rule (is_exact _) _), (longest_domain _ _), (first_rule (is_name _) _).
  - by destruct (first_rule (is_exact _) _), (longest_domain _ _), (first_rule (is_name _) _).
Qed.

Lemma find_snoc {A} (f : A -> bool) l x :
  List.find f (l ++ [x]) = List.find f l ∪ (if f x then Some x else None).
Proof. induction l as [|y l IH]; simpl; [by destruct (f x)|]. destruct (f y); [by destruct (f x)|exact IH]. Qed.

Lemma names_loop_snoc rules r n :
  names_loop (rules ++ [r]) n = names_loop rules n ∪ (if nr_match r n then Some (nr_pattern r) else None).
Proof.
  unfold names_loop. rewrite find_snoc. by destruct (List.find _ _), (nr_match r n).
Qed.

Lemma insert_new_lookup m k v i :
  insert_new m k v !! i = (m !! i) ∪ (if bool_decide (i = k) then Some v else None).
Proof.
  unfold insert_new. case_bool_decide as E.
  - subst i. destruct (m !! k) eqn:Em; [by rewrite Em|]. by rewrite lookup_insert_eq.
  - rewrite option_union_None_r. destruct (m !! k); [done|]. by rewrite lookup_insert_ne.
Qed.

(** The lookups of a set and of a list after one more rule. *)
Ltac snoc_rule :=
  cbn [rs_exact rs_suffix rs_names rs_any rs_addrs]; intros;
  rewrite ?first_rule_snoc, ?insert_new_lookup, ?names_loop_snoc;
  cbn [r_kind r_pattern is_exact is_domain is_name is_any is_addr nr_match nr_pattern];
  rewrite ?option_union_None_r.

Section with_engine.
Context (engine : gostring -> option (gostring -> bool)).

(** The rule of one pattern. *)
Definition classify (pattern : gostring) : result rule :=
  let p := TrimSpace pattern in
  if bool_decide (p = []) then Err (ENew (str "empty pattern")) else
  let* k :=
    match CutPrefix p (str "~") with
    | Some expr =>
        if bool_decide (expr = []) then Err (ENew (str "empty regex")) else
        let* m := Compile engine (anchored_expr expr) in Ok (KName m)
    | None =>
        if ContainsAny p (str ":/") || isIPLike p then
          let* pfx := rwrap (str "not a valid IP or CIDR (hostname patterns can't include a scheme, port or path)") (parsePrefix p) in
          Ok (KAddr pfx)
        else
          let* (kind, name, m) := compileNamePattern engine p in
          Ok (match kind with exactName => KExact name | domainSuffix => KDomain name | anyName => KAny | wildcard => KName m end)
    end in
  Ok (mkRule p k).

Lemma add_refines rs rules pattern :
  refines rs rules ->
  match classify pattern with
  | Ok r => exists rs', add engine rs pattern = Ok rs' /\ refines rs' (rules ++ [r])
  | Err e => add engine rs pattern = Err e
  end.
Proof.
  intros [He Hs Hn Ha Haddr Hp]. unfold classify, add.
  case_bool_decide as Hne; [done|].
  assert (Hp' : forall k, Forall (fun r => r_pattern r <> []) (rules ++ [mkRule (TrimSpace pattern) k])).
  { intros k. apply Forall_app. split; [done|]. by repeat constructor. }
  destruct (CutPrefix (TrimSpace pattern) (str "~")) as [expr|].
  { case_bool_decide; [done|]. unfold anchored_expr. destruct (Compile engine _) as [m|]; simpl; [|done].
    eexists. split; [done|]. constructor; snoc_rule; auto. by rewrite Hn. }
  destruct (_ || _).
  { destruct (parsePrefix _) as [pfx|]; simpl; [|done]. eexists. split; [done|].
    constructor; snoc_rule; auto. rewrite <- Haddr, find_snoc. cbn [ar_prefix]. by destruct (List.find _ _), (Contains pfx a). }
  destruct (compileNamePattern engine _) as [[[kind name] m]|]; simpl; [|done].
  eexists. split; [done|].
  destruct kind; constructor; snoc_rule; auto.
  - by rewrite He.
  - by rewrite Hs.
  - rewrite Ha. destruct (first_rule is_any rules) eqn:E; simpl; [|done].
    rewrite bool_decide_false; [done|]. by eapply first_rule_nonempty.
  - by rewrite Hn.
Qed.

Lemma refines_zero : refines ruleSet_zero [].
Proof. by constructor. Qed.

(** Compiling a list of patterns succeeds exactly when each pattern is valid
    on its own. *)
Lemma compile_loop_refines ps rs rules :
  refines rs rules ->
  match mapM_result classify ps with
  | Ok rules' => exists rs', compile_loop engine rs ps = Ok rs' /\ refines rs' (rules ++ rules')
  | Err _ => is_ok (compile_loop engine rs ps) = false
  end.
Proof.
  revert rs rules. induction ps as [|p ps IH]; intros rs rules Hr; simpl.
  { exists rs. by rewrite app_nil_r. }
  pose proof (add_refines rs rules p Hr) as Hadd. destruct (classify p) as [r|e]; simpl in *; [|by rewrite Hadd].
  destruct Hadd as (rs1 & -> & H1). simpl. specialize (IH _ _ H1).
  destruct (mapM_result classify ps) as [rules'|]; simpl; [|done].
  destruct IH as (rs' & -> & H'). exists rs'. split; [done|]. by rewrite <- app_assoc in H'.
Qed.

Lemma compileRules_refines ps rs :
  compileRules engine ps = Ok rs <-> exists rules, mapM_result classify ps = Ok rules /\ compileRules engine ps = Ok rs /\ refines rs rules.
Proof.
  split; [|naive_solver]. intros H. pose proof (compile_loop_refines ps _ _ refines_zero) as Hc.
  unfold compileRules in *. destruct (mapM_result classify ps) as [rules|].
  - exists rules. destruct Hc as (rs' & E & Hr). split; [done|]. split; [done|]. by rewrite E in H; simplify_eq.
  - by rewrite H in Hc.
Qed.

(** ** What the text of a pattern means *)

Definition is_host (d : destination) : Prop := IsValid (d_addr d) = false.

(** A host name pattern, in its normal form [p]. *)
Definition name_pattern_matches (p n : gostring) : Prop :=
  p = str "*" \/
  (exists base, p = "."%char :: base /\ under_domain base n) \/
  (p <> str "*" /\ head p <> Some "."%char /\ wildcard_match p n).

Definition pattern_matches (pattern : gostring) (d : destination) : Prop :=
  let p := TrimSpace pattern in
  match CutPrefix p (str "~") with
  | Some expr => is_host d /\ exists m, Compile engine (anchored_expr expr) = Ok m /\ m (d_name d) = true
  | None =>
      if ContainsAny p (str ":/") || isIPLike p
      then ~ is_host d /\ exists pfx, parsePrefix p = Ok pfx /\ Contains pfx (d_addr d) = true
      else is_host d /\ name_pattern_matches (normal p) (d_name d)
  end.

Lemma glob_plain p n : ContainsByte p "*" = false -> glob p n = true <-> n = p.
Proof.
  revert n. induction p as [|c p IH]; intros n Hp; [rewrite glob_nil; done|].
  apply ContainsByte_false in Hp. apply not_elem_of_cons in Hp as [Hc Hp]. rewrite glob_char by congruence.
  apply ContainsByte_false in Hp. setoid_rewrite (fun m => IH m Hp). naive_solver.
Qed.

Lemma compileNamePattern_matches p kind name m n :
  compileNamePattern engine p = Ok (kind, name, m) ->
  match kind with
  | exactName => n = name
  | domainSuffix => under_domain name n
  | anyName => True
  | wildcard => m n = true
  end <-> name_pattern_matches (normal p) n.
Proof.
  unfold compileNamePattern, guard_err. fold (normal p).
  destruct (checkHostChars p true) eqn:Hc; [done|]. apply checkHostChars_None, lower_pattern_chars in Hc.
  intros H. case_bool_decide as Hany.
  { inv_ok. split; [by left|done]. }
  destruct (CutPrefix (normal p) (str ".")) as [base|] eqn:Ecut.
  { destruct (validateHostname base false); [done|]. inv_ok. apply CutPrefix_Some in Ecut. rewrite Ecut. unfold name_pattern_matches. simpl.
    split; [intros Hn; right; left; eauto|]. intros [[=]|[(b & [= ->] & Hb)|(_ & [] & _)]]; done. }
  assert (Hhead : head (normal p) <> Some "."%char).
  { intros (t & E)%head_Some_cons. rewrite E in Ecut. by apply (proj1 (CutPrefix_None _ _) Ecut t). }
  assert (Hw : name_pattern_matches (normal p) n <-> wildcard_match (normal p) n).
  { unfold name_pattern_matches. split; [|naive_solver]. intros [E|[(b & E & _)|(_ & _ & ?)]]; [done| |done].
    by rewrite E in Hhead. }
  rewrite Hw. destruct (ContainsByte (normal p) "*") eqn:Estar; simpl in H.
  - destruct (_ && _); [done|]. destruct (validateHostname (normal p) true); [done|].
    destruct (MustCompile_wildcard engine (normal p) Hc) as (m' & Hm & Hspec). rewrite Hm in H. simpl in H. inv_ok. by rewrite Hspec.
  - destruct (validateHostname (normal p) false); [done|]. inv_ok. unfold wildcard_match.
    destruct (CutPrefix _ (str "*.")) as [q|] eqn:E; [|by rewrite glob_plain].
    apply CutPrefix_Some in E. rewrite E in Estar. done.
Qed.

Lemma classify_matches pattern r d :
  classify pattern = Ok r -> r_pattern r = TrimSpace pattern /\ (kind_matches (r_kind r) d = true <-> pattern_matches pattern d).
Proof.
  unfold classify, pattern_matches, is_host. case_bool_decide; [done|]. intros Hc. inv_ok. cbn [r_kind r_pattern]. split; [done|].
  destruct (CutPrefix _ (str "~")) as [expr|].
  { case_bool_decide; [done|]. inv_ok. simpl. rewrite andb_true_iff, negb_true_iff.
    split; [intros []; eauto|]. intros (? & m & Hm & ?). split; congruence. }
  destruct (_ || _).
  { inv_ok. simpl. rewrite andb_true_iff, not_false_iff_true.
    split; [intros []; eauto|]. intros (? & q & Hq & ?). split; congruence. }
  destruct (compileNamePattern engine _) as [[[kind name] m]|] eqn:E; [|done]. simpl in *. inv_ok.
  rewrite <- (compileNamePattern_matches _ _ _ _ (d_name d) E).
  destruct kind; simpl; rewrite ?andb_true_iff, ?negb_true_iff, ?bool_decide_eq_true, ?under_domainb_true; tauto.
Qed.

(** The reported rule is one of the list and matches; one is reported
    whenever some rule matches. *)
Lemma list_match_Some rules d p :
  list_match rules d = Some p -> exists r, r ∈ rules /\ r_pattern r = p /\ kind_matches (r_kind r) d = true.
Proof.
  assert (Hfirst : forall f q, first_rule f rules = Some q -> exists r, r ∈ rules /\ r_pattern r = q /\ f (r_kind r) = true).
  { intros f q (r & Hr & ->)%fmap_Some. apply List.find_some in Hr as [Hin Hf]. exists r. by rewrite list_elem_of_In. }
  unfold list_match. destruct (IsValid (d_addr d)) eqn:Ev.
  { intros (r & Hin & Hp & Hf)%Hfirst. exists r. split_and!; [done..|]. destruct (r_kind r); simpl in *; [done..|by rewrite Ev]. }
  assert (Hk : forall f q, (forall k, f k = true -> kind_matches k d = true) -> first_rule f rules = Some q ->
            exists r, r ∈ rules /\ r_pattern r = q /\ kind_matches (r_kind r) d = true).
  { intros f q Hf (r & Hin & Hp & Hr)%Hfirst. eauto 10. }
  intros H. rewrite !option_union_Some_iff in H. destruct H as [[[H|[_ H]]|[_ H]]|[_ H]].
  - apply (Hk _ _) in H; [done|]. intros [] Hf; simpl in *; try done. by rewrite Ev.
  - apply fmap_Some in H as ([e q] & Hd & ->). pose proof (longest_domain_spec (d_name d) rules) as Hl. rewrite Hd in Hl.
    destruct Hl as (Hu & Hq & _). destruct (Hfirst _ _ Hq) as (r & Hin & Hp & Hr). exists r. split_and!; [done..|].
    destruct (r_kind r); simpl in *; try done. rewrite Ev. case_bool_decide; [|done]. subst. by apply under_domainb_true.
  - apply (Hk _ _) in H; [done|]. intros [] Hf; simpl in *; try done. by rewrite Ev.
  - apply (Hk _ _) in H; [done|]. intros [] Hf; simpl in *; try done. by rewrite Ev.
Qed.

Lemma list_match_is_Some rules d :
  is_Some (list_match rules d) <-> exists r, r ∈ rules /\ kind_matches (r_kind r) d = true.
Proof.
  split. { intros [p (r & Hin & _ & Hr)%list_match_Some]. eauto. }
  intros (r & Hin & Hr). unfold list_match. destruct (IsValid (d_addr d)) eqn:Ev.
  { apply first_rule_is_Some. exists r. split; [done|]. destruct (r_kind r); simpl in *; rewrite ?Ev in Hr; try done. }
  assert (Hf : forall f, f (r_kind r) = true -> is_Some (first_rule f rules)) by (intros; apply first_rule_is_Some; eauto).
  rewrite !option_union_is_Some. destruct (r_kind r) as [n|e|m| |p]; simpl in Hr; rewrite Ev in Hr; simpl in Hr.
  - left; left; left. by apply Hf.
  - left; left; right. apply under_domainb_true in Hr. pose proof (longest_domain_spec (d_name d) rules) as Hl.
    destruct (longest_domain (d_name d) rules); [done|]. specialize (Hl e Hr).
    specialize (Hf (is_domain e)). simpl in Hf. rewrite bool_decide_true in Hf by done.
    rewrite Hl in Hf. by destruct (Hf eq_refl).
  - left; right. by apply Hf.
  - right. by apply Hf.
  - done.
Qed.

Lemma compileRules_is_Some ps rs d :
  compileRules engine ps = Ok rs -> is_Some (rs_match rs d) <-> exists p, p ∈ ps /\ pattern_matches p d.
Proof.
  intros (rules & Hm & _ & Hr)%compileRules_refines. apply mapM_result_Ok in Hm.
  rewrite (refines_match _ _ _ Hr), list_match_is_Some. symmetry.
  eapply Forall2_exists_iff; [exact Hm|]. intros p r Hpr. symmetry. by apply (classify_matches _ _ d).
Qed.
(** C8: the compiled rule set, with its maps and its early exits, reports for every destination exactly the rule that a plain scan of the list of rules reports: an exact name, then the longest domain suffix, then wildcards and expressions in config order, then "*"; and a list of patterns is rejected exactly when one of them is invalid on its own. *)
Theorem ruleSet_refines_list ps :
  match mapM_result classify ps with
  | Ok rules => exists rs, compileRules engine ps = Ok rs /\ forall d, rs_match rs d = list_match rules d
  | Err _ => exists e, compileRules engine ps = Err e
  end.
Proof.
  pose proof (compile_loop_refines ps _ _ refines_zero) as Hc. unfold compileRules.
  destruct (mapM_result classify ps) as [rules|].
  - destruct Hc as (rs & E & Hr). exists rs. split; [done|]. intros d. by apply refines_match.
  - destruct (compile_loop engine ruleSet_zero ps) as [|e0]; [done|]. by exists e0.
Qed.

(** A compiled list matches a destination exactly when one of its patterns does by the meaning of its text, and the rule it reports is the text of a matching pattern: host patterns never match addresses, address patterns never match names. *)
Theorem compileRules_meaning ps rs d :
  compileRules engine ps = Ok rs ->
  (is_Some (rs_match rs d) <-> exists p, p ∈ ps /\ pattern_matches p d) /\
  (forall t, rs_match rs d = Some t -> exists p, p ∈ ps /\ TrimSpace p = t /\ pattern_matches p d).
Proof.
  intros Hc. split; [by apply compileRules_is_Some|]. intros t.
  apply compileRules_refines in Hc as (rules & Hm & _ & Hr). apply mapM_result_Ok in Hm.
  rewrite (refines_match _ _ _ Hr). intros (r & Hin & <- & Hk)%list_match_Some.
  apply list_elem_of_lookup in Hin as [i Hi]. destruct (Forall2_lookup_r _ _ _ _ _ Hm Hi) as (p & Hp & Hcl).
  apply (classify_matches _ _ d) in Hcl as [-> Hcl]. exists p. split; [by eapply list_elem_of_lookup_2|]. tauto.
Qed.

(** Whether a list matches does not depend on the order or the repetition of its patterns. *)
Theorem compileRules_order ps ps' rs rs' d :
  (forall p, p ∈ ps <-> p ∈ ps') -> compileRules engine ps = Ok rs -> compileRules engine ps' = Ok rs' ->
  is_Some (rs_match rs d) <-> is_Some (rs_match rs' d).
Proof. intros Hp H H'. rewrite (compileRules_is_Some _ _ _ H), (compileRules_is_Some _ _ _ H'). by setoid_rewrite Hp. Qed.
End with_engine.

(** Two lists for the witnesses. *)
Definition example_patterns : list gostring :=
  str <$> [" .Example.com"; "api-*.test.org"; "10.0.0.0/8"; "*.corp.net"; "example.com"]%string.

(** Evaluates a test on a compiled list. *)
Definition compiled_test (ps : list gostring) (f : ruleSet -> bool) : bool :=
  match compileRules (fun _ => None) ps with Ok rs => f rs | Err _ => false end.

Lemma compiled_test_true ps f : compiled_test ps f = true -> exists rs, compileRules (fun _ => None) ps = Ok rs /\ f rs = true.
Proof. unfold compiled_test. destruct (compileRules _ ps) as [rs|]; [eauto|done]. Qed.

(** ** The pattern for any name *)

Definition is_star (pattern : gostring) : Prop := normal (TrimSpace pattern) = str "*".

Lemma normal_star p : normal p = str "*" -> p = str "*" \/ p = str "*.".
Proof.
  assert (Hlow : forall q, ToLower q = str "*" -> q = str "*").
  { intros [|c [|d q]]; [done| |done]. cbn. intros [= H]. f_equal. revert H. by all_bytes c. }
  unfold normal. intros H%Hlow. destruct (TrimSuffix_cases p (str ".")) as [E|[E _]]; rewrite H in E; [by right|by left].
Qed.

Lemma classify_star engine p r : classify engine p = Ok r -> r_kind r = KAny <-> is_star p.
Proof.
  unfold is_star. intros Hc. split.
  - revert Hc. unfold classify. case_bool_decide; [done|]. intros Hc. inv_ok. cbn [r_kind]. intros ->.
    destruct (CutPrefix _ (str "~")). { case_bool_decide; inv_ok. done. }
    destruct (_ || _); [by inv_ok|]. destruct (compileNamePattern engine _) as [[[kind name] m]|] eqn:E; [|done]. simpl in *. inv_ok.
    revert E. unfold compileNamePattern, guard_err. destruct (checkHostChars _ true); [done|]. fold (normal (TrimSpace p)).
    case_bool_decide; [done|]. destruct (CutPrefix _ _); [destruct (validateHostname _ _); [done|by intros; simplify_eq]|].
    destruct (negb _); [destruct (validateHostname _ _); [done|by intros; simplify_eq]|].
    destruct (_ && _); [done|]. destruct (validateHostname _ _); [done|]. destruct (MustCompile _ _); [|done]. by intros; simplify_eq/=.
  - unfold classify in Hc. by intros [E|E]%normal_star; rewrite E in Hc; vm_compute in Hc; injection Hc as <-.
Qed.

Lemma compileRules_any engine ps rs :
  compileRules engine ps = Ok rs -> rs_any rs <> [] <-> exists p, p ∈ ps /\ is_star p.
Proof.
  intros (rules & Hm & _ & Hr)%compileRules_refines. apply mapM_result_Ok in Hm. rewrite (ref_any _ _ Hr).
  pose proof (ref_pattern _ _ Hr) as Hp. clear Hr.
  transitivity (is_Some (first_rule is_any rules)).
  { destruct (first_rule is_any rules) eqn:E; simpl; [|split; [done|by intros [? ?]]].
    split; [eauto|]. intros _. by eapply first_rule_nonempty. }
  rewrite first_rule_is_Some. symmetry. eapply Forall2_exists_iff; [exact Hm|]. intros p r Hpr.
  rewrite <- (classify_star _ _ _ Hpr). by destruct (r_kind r).
Qed.
