(* ===== verification/PolicyFacts.v ===== *)
(** * Decisions of internal/acl/policy.go

    Compilation of subnets, the choice of a client's subnet and the decision
    on a request, each against a declarative description in terms of the
    configuration's text. *)

From Stdlib Require Import ZArith NArith Ascii String Lia Bool List.
From stdpp Require Import base tactics list gmap strings option sets.
From S2P Require Import Prelude GoStrings Netip GoFloat Regexp Rules Policy AddrFacts HostFacts PatternFacts RuleSetFacts.

Local Open Scope Z_scope.

(** ** The decision of one subnet *)

Section check.
Context {St : Type} `{!Resolver St}.

(** What a lookup has to return for its addresses to be used. *)
Definition usable (a : Addr) : Prop := IsValid a = true /\ Zone a = [].

Lemma usable_addrs_Ok found addrs :
  usable_addrs found = Ok addrs <-> addrs = Unmap <$> found /\ Forall usable addrs.
Proof.
  revert addrs. induction found as [|a found IH]; intros addrs; simpl.
  { split; [intros [= <-]; by split; [|constructor]|by intros [-> _]]. }
  destruct (negb (IsValid (Unmap a)) || bool_decide (Zone (Unmap a) <> [])) eqn:E.
  - split; [done|]. intros [-> [[Hv Hz] _]%Forall_cons_iff]. rewrite Hv, Hz in E. done.
  - split_bools. apply bool_decide_eq_false in H0.
    assert (Hu : usable (Unmap a)) by (split; [done|by destruct (decide (Zone (Unmap a) = []))]).
    rewrite rbind_Ok. split.
    + intros (l & [-> Hl]%IH & [= <-]). split; [done|]. by constructor.
    + intros [-> [_ Hl]%Forall_cons_iff]. exists (Unmap <$> found). split; [by apply IH|done].
Qed.

(** The addresses a destination stands for: itself, or what its name
    resolves to. *)
Definition addresses (ctx : Ctx) (dst : destination) (st : St) : result (list Addr) :=
  if bool_decide (d_name dst = []) then Ok [d_addr dst] else snd (resolve ctx (d_name dst) st).

(** An address may be connected to: no deny rule covers it, and it is public
    or covered by an allow rule. *)
Definition addr_ok (s : Subnet) (a : Addr) : Prop :=
  matchAddr (sn_deny s) a = None /\ (isPublic a = true \/ is_Some (matchAddr (sn_allow s) a)).

Lemma check_addrs_None s addrs : check_addrs s addrs = None <-> Forall (addr_ok s) addrs.
Proof.
  induction addrs as [|a addrs IH]; simpl; [split; [constructor|done]|]. rewrite Forall_cons_iff, <- IH. unfold addr_ok.
  destruct (matchAddr (sn_deny s) a); [naive_solver|].
  destruct (isPublic a); simpl; [tauto|]. case_bool_decide; simpl; naive_solver.
Qed.

(** The rules a request must pass before any name is resolved. *)
Definition rules_pass (s : Subnet) (host port : gostring) (dst : destination) (n : Z) (rule : gostring) : Prop :=
  parseHost host = Ok dst /\ parsePort port = Ok n /\ rs_match (sn_deny s) dst = None /\
  rs_match (sn_allow s) dst = Some rule /\ Exists (fun r => pr_lo r <= n <= pr_hi r) (sn_ports s).

Lemma allowsPort_true s n : allowsPort s n = true <-> Exists (fun r => pr_lo r <= n <= pr_hi r) (sn_ports s).
Proof.
  unfold allowsPort. rewrite existsb_exists, Exists_exists. unfold pr_contains.
  setoid_rewrite andb_true_iff. setoid_rewrite Z.leb_le. by setoid_rewrite list_elem_of_In.
Qed.

(** Either the rules pass, and the rest of the decision depends on the
    addresses only, or the request is denied without touching the resolver. *)
Lemma Check_cases s ctx host port st :
  (exists dst n rule, rules_pass s host port dst n rule /\
     fst (Check s ctx host port st) = (if bool_decide (d_name dst = []) then st else fst (resolve ctx (d_name dst) st)) /\
     snd (Check s ctx host port st) =
       match addresses ctx dst st with
       | Err e => denied (sn_name s) [] (RDnsFailed e)
       | Ok addrs =>
           match check_addrs s addrs with
           | Some (r, rule) => denied (sn_name s) rule r
           | None => mkDecision true (sn_name s) rule (RText (str "allow rule matched")) addrs n
           end
       end) \/
  ((forall dst n rule, ~ rules_pass s host port dst n rule) /\
   exists r rule, Check s ctx host port st = (st, denied (sn_name s) rule r)).
Proof.
  unfold Check, rules_pass, addresses.
  destruct (parseHost host) as [dst|e]; [|right; naive_solver].
  destruct (parsePort port) as [n|e]; [|right; naive_solver].
  destruct (rs_match (sn_deny s) dst) as [r|] eqn:Ed; [right; split; [|by eauto]; intros ??? (E & _ & E' & _); simplify_eq; congruence|].
  destruct (rs_match (sn_allow s) dst) as [rule|] eqn:Ea;
    [|right; split; [|by eauto]; intros ??? (E & _ & _ & E' & _); simplify_eq; congruence].
  destruct (allowsPort s n) eqn:Ep; simpl.
  - left. apply allowsPort_true in Ep. exists dst, n, rule. split; [by split_and!|].
    case_bool_decide; [|destruct (resolve ctx (d_name dst) st) as [st' [addrs|e]]]; cbn [fst snd]; try done;
      by destruct (check_addrs s _) as [[]|].
  - right. split; [|by eauto]. intros ??? (_ & E & _ & _ & E'). simplify_eq. apply allowsPort_true in E'. congruence.
Qed.

(** A request is allowed exactly when its host and port parse, no deny rule and some allow rule matches the destination, the port is in the subnet's list, the name resolves to usable addresses, and every one of them is covered by no deny rule and is public or explicitly allowed. The decision then carries all of these addresses and this port, and only these. *)
Theorem Check_allows_iff s ctx host port st rule addrs n :
  snd (Check s ctx host port st) = mkDecision true (sn_name s) rule (RText (str "allow rule matched")) addrs n <->
  exists dst, rules_pass s host port dst n rule /\ addresses ctx dst st = Ok addrs /\ Forall (addr_ok s) addrs.
Proof.
  destruct (Check_cases s ctx host port st) as [(dst & n' & rule' & Hp & _ & ->)|[Hno (r & rl & ->)]].
  - setoid_rewrite <- check_addrs_None. split.
    + intros H. exists dst. destruct (addresses ctx dst st) as [l|e]; [|done].
      destruct (check_addrs s l) as [[]|] eqn:E; [done|]. by simplify_eq.
    + intros (dst' & Hp' & Ha & Hc). destruct Hp as (Eh & En & _ & Er & _), Hp' as (Eh' & En' & _ & Er' & _).
      assert (dst' = dst) as -> by congruence. rewrite Ha, Hc. congruence.
  - split; [done|]. intros (dst & Hp & _). by apply Hno in Hp.
Qed.

Lemma Check_allow s ctx host port st :
  Allow (snd (Check s ctx host port st)) = true ->
  exists dst n rule addrs, rules_pass s host port dst n rule /\ addresses ctx dst st = Ok addrs /\ Forall (addr_ok s) addrs /\
    snd (Check s ctx host port st) = mkDecision true (sn_name s) rule (RText (str "allow rule matched")) addrs n.
Proof.
  destruct (Check_cases s ctx host port st) as [(dst & n & rule & Hp & _ & ->)|[_ (r & rl & ->)]]; [|done].
  setoid_rewrite <- check_addrs_None. destruct (addresses ctx dst st) as [l|e] eqn:Ea; [|done].
  destruct (check_addrs s l) as [[]|] eqn:E; [done|]. intros _. by exists dst, n, rule, l.
Qed.

Lemma addresses_usable ctx host dst st addrs :
  parseHost host = Ok dst -> addresses ctx dst st = Ok addrs -> addrs <> [] /\ Forall usable addrs.
Proof.
  unfold addresses, resolve. intros [(Hn & Hv & Hz & _)|(Hn & _)]%parseHost_shape.
  - rewrite bool_decide_true by done. intros [= <-]. split; [done|]. by repeat constructor.
  - rewrite bool_decide_false by done. destruct (LookupNetIP _ _ _ _) as [st' [found|]]; simpl; [|done].
    case_bool_decide; [done|]. intros [-> Hu]%usable_addrs_Ok. split; [|done]. by destruct found.
Qed.

(** A decision is either an allow that carries at least one address, all of them valid, unmapped-checked and without zone, and a port between 1 and 65535, or a denial that carries no address and no port to dial. *)
Theorem Check_shape s ctx host port st :
  let d := snd (Check s ctx host port st) in
  dSubnet d = sn_name s /\
  if Allow d then Addrs d <> [] /\ Forall usable (Addrs d) /\ 1 <= Port d <= 65535
  else Addrs d = [] /\ Port d = 0.
Proof.
  intros d. destruct (Allow d) eqn:Ea.
  - subst d. apply Check_allow in Ea as (dst & n & rule & addrs & (Hh & Hp & _) & Ha & _ & ->). simpl.
    destruct (addresses_usable _ _ _ _ _ Hh Ha). eauto using parsePort_bounds.
  - revert Ea. subst d. destruct (Check_cases s ctx host port st) as [(dst & n & rule & _ & _ & ->)|[_ (r & rl & ->)]]; [|done].
    destruct (addresses ctx dst st) as [l|e]; [|done]. by destruct (check_addrs s l) as [[]|].
Qed.

(** At most one lookup is made. *)
Lemma Check_state s ctx host port st :
  fst (Check s ctx host port st) = st \/ exists ctx' name, fst (Check s ctx host port st) = fst (LookupNetIP ctx' (str "ip") name st).
Proof.
  destruct (Check_cases s ctx host port st) as [(dst & n & rule & Hp & Hst & _)|[_ (r & rl & ->)]]; [|by left].
  rewrite Hst. case_bool_decide; [by left|right]. exists (WithTimeout ctx resolveTimeout), (d_name dst). unfold resolve. by destruct (LookupNetIP _ _ _ _).
Qed.

(** C5: names are resolved only for requests that the rules would allow, and then once: a request that the host, port, deny, allow or port rules reject, or that names an IP literal, leaves the resolver untouched; otherwise its state is the one after a single lookup of the validated name, under a deadline of at most five seconds. *)
Theorem Check_lookups s ctx host port st :
  fst (Check s ctx host port st) = st \/
  exists dst n rule, rules_pass s host port dst n rule /\ d_name dst <> [] /\
    exists ctx', ctx_client ctx' = ctx_client ctx /\ (exists l, ctx_left ctx' = Some l /\ l <= 5 * Second) /\
    fst (Check s ctx host port st) = fst (LookupNetIP ctx' (str "ip") (d_name dst) st).
Proof.
  destruct (Check_cases s ctx host port st) as [(dst & n & rule & Hp & Hst & _)|[_ (r & rl & ->)]]; [|by left].
  rewrite Hst. case_bool_decide as Hn; [by left|]. right. exists dst, n, rule. split; [done|]. split; [done|].
  exists (WithTimeout ctx resolveTimeout). split; [done|]. split.
  - simpl. destruct (ctx_left ctx) as [l|]; eexists; (split; [done|]); unfold resolveTimeout; lia.
  - unfold resolve. by destruct (LookupNetIP _ _ _ _).
Qed.
End check.

(** ** Compiled subnets *)

Lemma compileSubnet_Ok engine id spec s :
  compileSubnet engine id spec = Ok s ->
  sn_id s = id /\ sn_name s = ss_name spec /\
  Forall2 (fun c p => parsePrefix c = Ok p) (ss_cidrs spec) (sn_prefixes s) /\ sn_prefixes s <> [] /\
  Forall wf_portRange (sn_ports s) /\
  compileRules engine (ss_allow spec) = Ok (sn_allow s) /\
  exists deny, compileRules engine (ss_deny spec) = Ok deny /\
    if bool_decide (rs_any deny = []) then sn_deny s = deny
    else rs_exact (sn_deny s) = rs_exact deny /\ rs_suffix (sn_deny s) = rs_suffix deny /\ rs_names (sn_deny s) = rs_names deny /\
         rs_any (sn_deny s) = rs_any deny /\
         rs_addrs (sn_deny s) = rs_addrs deny ++ [mkAddrRule (rs_any deny) (MustParsePrefix (str "0.0.0.0/0"));
                                                  mkAddrRule (rs_any deny) (MustParsePrefix (str "::/0"))].
Proof.
  unfold compileSubnet. case_bool_decide as Hc; [done|]. intros H. inv_ok. apply mapM_result_Ok in H0.
  cbn [sn_id sn_name sn_prefixes sn_ports sn_allow sn_deny]. split_and!; try done.
  - eapply Forall2_impl; [exact H0|]. intros c p. apply rwrap_Ok.
  - by destruct H0.
  - case_bool_decide; inv_ok.
    + repeat constructor; simpl; lia.
    + apply mapM_result_Ok in H1. clear -H1. induction H1 as [|c p cs ps Hp _ IH]; constructor; [|done].
      apply rwrap_Ok in Hp. by eapply parsePortRange_wf.
  - eexists. split; [done|]. match goal with |- context [bool_decide (rs_any ?d = [])] => destruct (decide (rs_any d = [])) end.
    + by rewrite !bool_decide_true.
    + by rewrite !bool_decide_false.
Qed.

Definition denies_all (spec : SubnetSpec) : Prop := exists p, p ∈ ss_deny spec /\ is_star p.

Lemma all_v4 : MustParsePrefix (str "0.0.0.0/0") = mkPrefix (Addr4 0) 0.
Proof. by vm_compute. Qed.

Lemma all_v6 : MustParsePrefix (str "::/0") = mkPrefix (Addr6 0 []) 0.
Proof. by vm_compute. Qed.

Lemma contains_all_v4 v : wf_addr (Addr4 v) = true -> Contains (MustParsePrefix (str "0.0.0.0/0")) (Addr4 v) = true.
Proof.
  rewrite all_v4. unfold wf_addr, Contains. rewrite andb_true_iff, Z.leb_le, Z.ltb_lt. intros Hv. cbn [pfx_addr pfx_bits].
  apply Z.eqb_eq. rewrite Z.lxor_0_r, Z.shiftr_div_pow2 by lia. apply Z.div_small. lia.
Qed.

Lemma contains_all_v6 v : Contains (MustParsePrefix (str "::/0")) (Addr6 v []) = true.
Proof. rewrite all_v6. unfold Contains. cbn [pfx_addr pfx_bits]. apply Z.eqb_eq. change (mask 128 0) with 0. apply Z.land_0_r. Qed.

(** A deny list with "*" matches every destination a request can name. *)
Lemma denies_all_match engine id spec s host dst :
  compileSubnet engine id spec = Ok s -> denies_all spec -> parseHost host = Ok dst ->
  is_Some (rs_match (sn_deny s) dst).
Proof.
  intros (_ & _ & _ & _ & _ & _ & deny & Hd & Hs)%compileSubnet_Ok Hall Hh.
  apply (compileRules_any _ _ _ Hd) in Hall. rewrite bool_decide_false in Hs by done.
  destruct Hs as (_ & _ & _ & Hany & Haddrs).
  apply parseHost_shape in Hh as [(_ & Hv & Hz & Hwf)|(_ & Ha)]; unfold rs_match.
  - rewrite Hv. unfold matchAddr. apply fmap_is_Some, find_is_Some. rewrite Haddrs.
    destruct (d_addr dst) as [|v|v z]; [done| |].
    + eexists. split; [apply elem_of_app; right; left|]. by apply contains_all_v4.
    + simpl in Hz. subst z. eexists. split; [apply elem_of_app; right; right; left|]. apply contains_all_v6.
  - rewrite Ha. cbn [IsValid]. unfold matchName. rewrite Hany, suffix_loop_guard. rewrite bool_decide_false by done.
    destruct (rs_exact _ !! _); [by eauto|]. destruct (suffix_loop _ _ _); [by eauto|]. destruct (names_loop _ _); by eauto.
Qed.

Section text.
Context {St : Type} `{!Resolver St} (engine : gostring -> option (gostring -> bool)).

(** Some pattern of a list matches. *)
Definition listed (ps : list gostring) (d : destination) : Prop := exists p, p ∈ ps /\ pattern_matches engine p d.

(** [addr_ok] in terms of the configuration. *)
Definition addr_ok_text (spec : SubnetSpec) (a : Addr) : Prop :=
  ~ listed (ss_deny spec) (mkDest [] a) /\ (isPublic a = true \/ listed (ss_allow spec) (mkDest [] a)).

(** [rules_pass] in terms of the configuration, for a list without "*". *)
Definition rules_pass_text (spec : SubnetSpec) (dst : destination) : Prop :=
  listed (ss_allow spec) dst /\ ~ listed (ss_deny spec) dst.

(** The ports of the configuration: 80 and 443 unless it lists others. *)
Definition port_listed (spec : SubnetSpec) (n : Z) : Prop :=
  if bool_decide (ss_ports spec = []) then n = 80 \/ n = 443 else exists text, text ∈ ss_ports spec /\ port_text text n.

Lemma compiled_ports id spec s n : compileSubnet engine id spec = Ok s -> allowsPort s n = true <-> port_listed spec n.
Proof.
  unfold compileSubnet, port_listed. case_bool_decide as Hc; [done|]. intros H. inv_ok. rewrite allowsPort_true. cbn [sn_ports].
  case_bool_decide as Hp; inv_ok.
  - unfold defaultPorts. rewrite !Exists_cons, Exists_nil. cbn [pr_lo pr_hi]. lia.
  - match goal with H : mapM_result _ (ss_ports spec) = Ok _ |- _ => apply mapM_result_Ok in H; clear -H; induction H as [|text r texts rs Hr _ IH] end.
    { rewrite Exists_nil. split; [done|]. by intros (text & Ht%not_elem_of_nil & _). }
    apply rwrap_Ok in Hr. rewrite Exists_cons, (parsePortRange_text _ _ n Hr), IH. setoid_rewrite elem_of_cons. naive_solver.
Qed.

Lemma matchAddr_listed ps rs a :
  compileRules engine ps = Ok rs -> usable a -> is_Some (matchAddr rs a) <-> listed ps (mkDest [] a).
Proof.
  intros Hc [Hv _]. unfold listed. rewrite <- (compileRules_is_Some _ _ _ _ Hc). unfold rs_match. simpl. by rewrite Hv.
Qed.

Lemma not_is_Some {A} (o : option A) : o = None <-> ~ is_Some o.
Proof. by rewrite eq_None_not_Some. Qed.

Lemma compiled_deny id spec s :
  compileSubnet engine id spec = Ok s -> ~ denies_all spec -> compileRules engine (ss_deny spec) = Ok (sn_deny s).
Proof.
  intros (_ & _ & _ & _ & _ & _ & deny & Hd & Hs)%compileSubnet_Ok Hall.
  unfold denies_all in Hall. rewrite <- (compileRules_any _ _ _ Hd) in Hall.
  rewrite bool_decide_true in Hs by (by destruct (decide (rs_any deny = []))). by rewrite Hs.
Qed.

Lemma rules_pass_text_iff id spec s host port dst n :
  compileSubnet engine id spec = Ok s -> ~ denies_all spec ->
  (exists rule, rules_pass s host port dst n rule) <->
  parseHost host = Ok dst /\ parsePort port = Ok n /\ port_listed spec n /\ rules_pass_text spec dst.
Proof.
  intros Hs Hall. pose proof (compiled_deny _ _ _ Hs Hall) as Hd. rewrite <- (compiled_ports _ _ _ n Hs).
  apply compileSubnet_Ok in Hs as (_ & _ & _ & _ & _ & Ha & _).
  unfold rules_pass, rules_pass_text, listed. rewrite allowsPort_true.
  rewrite <- (compileRules_is_Some _ _ _ _ Ha), <- (compileRules_is_Some _ _ _ _ Hd), <- not_is_Some. unfold is_Some. naive_solver.
Qed.

Lemma addr_ok_text_iff id spec s addrs :
  compileSubnet engine id spec = Ok s -> ~ denies_all spec -> Forall usable addrs ->
  Forall (addr_ok s) addrs <-> Forall (addr_ok_text spec) addrs.
Proof.
  intros Hs Hall Hu. pose proof (compiled_deny _ _ _ Hs Hall) as Hd.
  apply compileSubnet_Ok in Hs as (_ & _ & _ & _ & _ & Ha & _).
  assert (Hiff : forall a, usable a -> addr_ok s a <-> addr_ok_text spec a).
  { intros a Ha'. unfold addr_ok, addr_ok_text. rewrite not_is_Some, (matchAddr_listed _ _ _ Hd Ha'), (matchAddr_listed _ _ _ Ha Ha'). done. }
  induction Hu as [|a addrs Hua _ IH]; [done|]. by rewrite !Forall_cons_iff, IH, Hiff.
Qed.

(** C4: the whole decision in terms of the configuration's text: a request is allowed exactly when the deny list has no "*", its host parses, its port is written as the decimal form of a number between 1 and 65535 that the port list names (as a single port or in a range; 80 and 443 when there is no list), some allow pattern and no deny pattern matches the destination, it resolves to usable addresses, and each of them is matched by no deny pattern and is public or matched by an allow pattern. *)
Theorem Check_text_iff id spec s ctx host port st :
  compileSubnet engine id spec = Ok s ->
  Allow (snd (Check s ctx host port st)) = true <->
  ~ denies_all spec /\
  exists dst n addrs, parseHost host = Ok dst /\ port = Itoa n /\ 1 <= n <= 65535 /\ port_listed spec n /\
    rules_pass_text spec dst /\ addresses ctx dst st = Ok addrs /\ Forall (addr_ok_text spec) addrs.
Proof.
  intros Hs. split.
  - intros (dst & n & rule & addrs & Hp & Ha & Hok & _)%Check_allow.
    assert (Hall : ~ denies_all spec).
    { intros Hall. destruct Hp as (Hh & _ & Hd & _). destruct (denies_all_match _ _ _ _ _ _ Hs Hall Hh). congruence. }
    split; [done|]. exists dst, n, addrs.
    assert (Hu : Forall usable addrs) by (by eapply addresses_usable; [apply Hp|]).
    rewrite <- (addr_ok_text_iff _ _ _ _ Hs Hall Hu).
    destruct (proj1 (rules_pass_text_iff _ _ _ host port dst n Hs Hall)) as (? & [? ?]%parsePort_sound & ? & ?); eauto 12.
  - intros (Hall & dst & n & addrs & Hh & -> & Hn' & Hn & Hr & Ha & Hok). pose proof (parsePort_print n Hn') as Hp.
    assert (Hu : Forall usable addrs) by (by eapply addresses_usable).
    rewrite <- (addr_ok_text_iff _ _ _ _ Hs Hall Hu), <- check_addrs_None in Hok.
    destruct (proj2 (rules_pass_text_iff _ _ _ host (Itoa n) dst n Hs Hall)) as (rule & Hrp); [by split_and!|].
    destruct (Check_cases s ctx host (Itoa n) st) as [(dst' & n' & rule' & (Hh' & _) & _ & ->)|[Hno _]]; [|by apply Hno in Hrp].
    assert (dst' = dst) as -> by congruence. by rewrite Ha, Hok.
Qed.

(** In a deny list "*" denies everything: no request is allowed, whether it names a host or an IP literal, whatever the allow list says. *)
Theorem deny_star_denies_all id spec s ctx host port st :
  compileSubnet engine id spec = Ok s -> denies_all spec -> Allow (snd (Check s ctx host port st)) = false.
Proof.
  intros Hs Hall. apply not_true_is_false. intros (dst & n & rule & addrs & (Hh & _ & Hd & _) & _)%Check_allow.
  destruct (denies_all_match _ _ _ _ _ _ Hs Hall Hh). congruence.
Qed.
End text.

(** ** A concrete resolver for the witnesses: it knows two names and keeps a
    log of what it was asked. *)
Definition logging_resolver : Resolver (list gostring) := fun _ _ host log =>
  (log ++ [host],
   if bool_decide (host = str "www.example.com") then Ok [Addr4 (ip4 93 184 215 14)]
   else if bool_decide (host = str "in.example.com") then Ok [Addr6 (0xffff * 2 ^ 32 + ip4 10 1 2 3) []]
   else Err (EDns true 0)).

Definition example_spec : SubnetSpec :=
  mkSpec (str "office") [str "192.168.1.0/24"] [] [str "*.example.com"] [str "bad.example.com"].

Definition subnet_test (spec : SubnetSpec) (f : Subnet -> bool) : bool :=
  match compileSubnet (fun _ => None) 0 spec with Ok s => f s | Err _ => false end.

Lemma subnet_test_true spec f :
  subnet_test spec f = true -> exists s, compileSubnet (fun _ => None) 0 spec = Ok s /\ f s = true.
Proof. unfold subnet_test. destruct (compileSubnet _ 0 spec) as [s|]; [eauto|done]. Qed.

Definition example_check (s : Subnet) (host : String.string) : list gostring * Decision :=
  Check (Resolver0 := logging_resolver) s (mkCtx None None) (str host) (str "443") [].

(** The name that resolves to a private address behind an IPv4-mapped one is
    denied, and the denied name is never looked up. *)
Example example_checks :
  subnet_test example_spec (fun s =>
    Allow (snd (example_check s "WWW.example.com."))
    && bool_decide (Addrs (snd (example_check s "WWW.example.com.")) = [Addr4 (ip4 93 184 215 14)])
    && negb (Allow (snd (example_check s "in.example.com")))
    && bool_decide (fst (example_check s "bad.example.com") = [])
    && bool_decide (fst (example_check s "in.example.com") = [str "in.example.com"])) = true.
Proof. vm_compute. reflexivity. Qed.

Lemma Check_text_iff_witness :
  exists s, compileSubnet (fun _ => None) 0 example_spec = Ok s /\
    Allow (snd (example_check s "www.example.com")) = true /\
    exists dst, parseHost (str "www.example.com") = Ok dst /\ rules_pass_text (fun _ => None) example_spec dst.
Proof.
  destruct (subnet_test_true example_spec (fun s => Allow (snd (example_check s "www.example.com"))))
    as (s & Hs & Ha); [vm_compute; reflexivity|].
  exists s. split; [exact Hs|]. split; [exact Ha|].
  destruct (proj1 (Check_text_iff (fun _ => None) 0 example_spec s _ _ _ _ Hs) Ha)
    as (_ & dst & n & addrs & Hh & _ & _ & _ & Hr & _).
  exists dst. split; [exact Hh|exact Hr].
Defined.

Definition deny_star_spec : SubnetSpec :=
  mkSpec (str "locked") [str "10.0.0.0/8"] [] [str "*"; str "0.0.0.0/0"] [str "*"].
