(* ===== verification/SubnetFacts.v ===== *)
(** * Policies of internal/acl/policy.go

    The invariant that [New] establishes, and the client's subnet as the owner
    of the longest matching prefix. *)

From Stdlib Require Import ZArith NArith Ascii String Lia Bool List.
From stdpp Require Import base tactics list gmap strings option sets.
From S2P Require Import Prelude GoStrings Netip GoFloat Regexp Rules Policy AddrFacts PolicyFacts.

Local Open Scope Z_scope.

(** ** The invariant of a policy *)

Definition all_prefixes (ss : list Subnet) : list Prefix := concat (sn_prefixes <$> ss).

Definition wf_subnet (s : Subnet) : Prop :=
  sn_prefixes s <> [] /\ Forall good_prefix (sn_prefixes s) /\ Forall wf_portRange (sn_ports s).

Record wf_subnets (ss : list Subnet) : Prop := {
  wf_each : Forall wf_subnet ss;
  wf_names : NoDup (sn_name <$> ss);
  wf_prefixes : NoDup (all_prefixes ss);
  wf_ids : sn_id <$> ss = seq 0 (length ss)
}.

Definition wf_policy (p : Policy) : Prop := subnets p <> [] /\ wf_subnets (subnets p).

Lemma claim_prefixes_Ok owner name pfxs owner' :
  claim_prefixes owner name pfxs = Ok owner' ->
  NoDup pfxs /\ (forall p, p ∈ pfxs -> owner !! p = None) /\
  forall p, is_Some (owner' !! p) <-> is_Some (owner !! p) \/ p ∈ pfxs.
Proof.
  revert owner. induction pfxs as [|q pfxs IH]; intros owner; simpl.
  { intros [= <-]. split_and!; [constructor| |].
    - intros p Hp. by apply not_elem_of_nil in Hp.
    - intros p. rewrite elem_of_nil. tauto. }
  destruct (owner !! q) eqn:E; [done|]. intros (Hnd & Hnone & Hdom)%IH. split_and!.
  - constructor; [|done]. intros Hq%Hnone. by rewrite lookup_insert_eq in Hq.
  - intros p [->|Hp]%elem_of_cons; [done|]. specialize (Hnone p Hp).
    destruct (decide (p = q)) as [->|Hne]; [done|]. by rewrite lookup_insert_ne in Hnone.
  - intros p. rewrite Hdom, elem_of_cons. destruct (decide (p = q)) as [->|Hne].
    + rewrite lookup_insert_eq. split; [tauto|eauto].
    + rewrite lookup_insert_ne by done. tauto.
Qed.

(** The loop's variables describe the subnets compiled so far. *)
Record loop_inv (i : nat) (names : gset gostring) (owner : gmap Prefix gostring) (acc : list Subnet) : Prop := {
  inv_wf : wf_subnets acc;
  inv_index : i = length acc;
  inv_names : forall n, n ∈ names <-> n ∈ sn_name <$> acc;
  inv_owner : forall p, is_Some (owner !! p) <-> p ∈ all_prefixes acc
}.

Lemma compileSubnet_wf engine id spec s : compileSubnet engine id spec = Ok s -> wf_subnet s.
Proof.
  intros (_ & _ & Hpfx & Hne & Hports & _)%compileSubnet_Ok. split_and!; [done| |done].
  clear Hne Hports. induction Hpfx as [|c p cs ps Hp _ IH]; constructor; [|done]. by eapply parsePrefix_good.
Qed.

Lemma all_prefixes_snoc ss s : all_prefixes (ss ++ [s]) = all_prefixes ss ++ sn_prefixes s.
Proof. unfold all_prefixes. rewrite fmap_app, concat_app. simpl. by rewrite app_nil_r. Qed.

Lemma loop_inv_step engine i names owner acc spec s owner' :
  loop_inv i names owner acc -> (ss_name spec ∉ names) ->
  compileSubnet engine i spec = Ok s -> claim_prefixes owner (sn_name s) (sn_prefixes s) = Ok owner' ->
  loop_inv (S i) ({[ss_name spec]} ∪ names) owner' (acc ++ [s]).
Proof.
  intros [[Hwf Hnames Hpfx Hids] Hi Hn Ho] Hnew Hs (Hnd & Hnone & Hdom)%claim_prefixes_Ok.
  pose proof (compileSubnet_wf _ _ _ _ Hs) as Hws. apply compileSubnet_Ok in Hs as (Hid & Hname & _).
  constructor; [constructor| | |].
  - apply Forall_app. split; [done|]. by constructor.
  - rewrite fmap_app. apply NoDup_app. split_and!; [done| |apply NoDup_singleton].
    intros x Hx ->%list_elem_of_singleton. apply Hn in Hx. by rewrite Hname in Hx.
  - rewrite all_prefixes_snoc. apply NoDup_app. split_and!; [done| |done].
    intros p Hp Hp'%Hnone. apply Ho in Hp. rewrite Hp' in Hp. by destruct Hp.
  - rewrite fmap_app, length_app, seq_app, Hids. simpl. by rewrite Hid, Hi.
  - rewrite length_app. simpl. lia.
  - intros n. rewrite fmap_app. change (sn_name <$> [s]) with [sn_name s]. rewrite elem_of_app, elem_of_union, elem_of_singleton, Hn, list_elem_of_singleton, Hname. tauto.
  - intros p. rewrite Hdom, Ho, all_prefixes_snoc, elem_of_app. done.
Qed.

(** An entry of the config with the name it gets by default. *)
Definition named (i : nat) (spec : SubnetSpec) : SubnetSpec :=
  mkSpec (if bool_decide (ss_name spec = []) then str "subnet[" ++ Itoa (Z.of_nat i) ++ str "]" else ss_name spec)
    (ss_cidrs spec) (ss_ports spec) (ss_allow spec) (ss_deny spec).

(** A subnet is the compiled form of an entry. *)
Definition compiled (engine : gostring -> option (gostring -> bool)) (spec : SubnetSpec) (s : Subnet) : Prop :=
  compileSubnet engine (sn_id s) (named (sn_id s) spec) = Ok s.

Lemma new_loop_inv engine i names owner specs acc ss :
  loop_inv i names owner acc -> new_loop engine i names owner specs acc = Ok ss ->
  wf_subnets ss /\ exists new, ss = acc ++ new /\ Forall2 (compiled engine) specs new.
Proof.
  revert i names owner acc. induction specs as [|spec specs IH]; intros i names owner acc Hinv; cbn [new_loop].
  { intros [= <-]. split; [apply Hinv|]. exists []. by rewrite app_nil_r. }
  case_bool_decide as Hdup; [done|]. intros H. inv_ok. fold (named i spec) in H0.
  pose proof (loop_inv_step engine _ _ _ _ (named i spec) _ _ Hinv Hdup H0 H1) as Hinv'.
  destruct (IH _ _ _ _ Hinv' H) as [Hwf (new & -> & Hnew)]. split; [done|].
  exists (x :: new). rewrite <- app_assoc. split; [done|]. constructor; [|done].
  unfold compiled. by rewrite (proj1 (compileSubnet_Ok _ _ _ _ H0)).
Qed.

Lemma New_Ok engine specs p : New engine specs = Ok p -> wf_policy p /\ Forall2 (compiled engine) specs (subnets p).
Proof.
  unfold New. case_bool_decide as Hne; [done|]. intros H. inv_ok.
  destruct (new_loop_inv engine 0 ∅ ∅ specs [] x) as [Hwf (new & -> & Hnew)]; [|done|].
  - constructor; [by repeat constructor|done| |].
    + intros n. by rewrite elem_of_empty, elem_of_nil.
    + intros q. rewrite lookup_empty, elem_of_nil. split; [by intros []|done].
  - split; [|done]. split; [|done]. simpl. by destruct Hnew.
Qed.

(** C11: a compiled policy is well formed: its subnets are the compiled entries of the config in order, with distinct names (a default name where the entry has none), each with at least one CIDR; no CIDR is listed twice anywhere, all prefixes are canonical (valid, not IPv4-mapped, no host bits) and all port ranges are non-empty intervals within 1..65535. *)
Theorem New_wf engine specs p :
  New engine specs = Ok p ->
  Forall2 (compiled engine) specs (subnets p) /\ subnets p <> [] /\ NoDup (sn_name <$> subnets p) /\
  NoDup (all_prefixes (subnets p)) /\
  Forall (fun s => sn_prefixes s <> [] /\ Forall good_prefix (sn_prefixes s) /\ Forall wf_portRange (sn_ports s)) (subnets p).
Proof. intros [[Hne [Hwf Hn Hp _]] Hc]%New_Ok. by split_and!. Qed.

(** ** The client's subnet *)

(** All pairs of a subnet and one of its prefixes, in the order of the loops. *)
Definition pairs (ss : list Subnet) : list (Subnet * Prefix) := concat ((fun s => pair s <$> sn_prefixes s) <$> ss).

Definition better (client : Addr) (st : option Subnet * Z) (sp : Subnet * Prefix) : option Subnet * Z :=
  best_prefix client (fst sp) st (snd sp).

Lemma SubnetOf_pairs p client :
  SubnetOf p client = fst (fold_left (better (Unmap client)) (pairs (subnets p)) (None, -1)).
Proof.
  unfold SubnetOf, pairs. f_equal. generalize (@None Subnet, -1). induction (subnets p) as [|s ss IH]; intros st; simpl; [done|].
  rewrite fold_left_app, IH. f_equal. unfold best_subnet. generalize st. clear.
  induction (sn_prefixes s) as [|q qs IH]; intros st; simpl; [done|]. apply IH.
Qed.

Lemma elem_of_pairs s q ss : (s, q) ∈ pairs ss <-> s ∈ ss /\ q ∈ sn_prefixes s.
Proof.
  unfold pairs. rewrite list_elem_of_In, in_concat. split.
  - intros (l & Hl & Hq). apply list_elem_of_In in Hl, Hq. apply list_elem_of_fmap in Hl as (t & -> & Ht).
    apply list_elem_of_fmap in Hq as (r & [= -> ->] & Hr). done.
  - intros [Hs Hq]. exists (pair s <$> sn_prefixes s). split; apply list_elem_of_In.
    + apply list_elem_of_fmap. eauto.
    + apply list_elem_of_fmap. eauto.
Qed.

(** The state of the search: nothing found, or a pair no seen pair beats. *)
Definition search_inv (client : Addr) (seen : list (Subnet * Prefix)) (st : option Subnet * Z) : Prop :=
  match st with
  | (None, b) => b = -1 /\ forall s q, (s, q) ∈ seen -> Contains q client = false
  | (Some s, b) => exists q, (s, q) ∈ seen /\ Contains q client = true /\ pfx_bits q = b /\
      forall s' q', (s', q') ∈ seen -> Contains q' client = true -> pfx_bits q' <= b
  end.

Lemma better_inv client seen st s q :
  0 <= pfx_bits q -> search_inv client seen st -> search_inv client (seen ++ [(s, q)]) (better client st (s, q)).
Proof.
  intros Hq Hinv. unfold better, best_prefix. simpl. destruct st as [[t|] b]; simpl in *.
  - destruct Hinv as (r & Hin & Hc & Hb & Hmax). destruct (Z.ltb_spec b (pfx_bits q)), (Contains q client) eqn:Ec; simpl.
    1: { exists q. split_and!; [apply elem_of_app; right; left|done|done|].
         intros s' q' [Hin'|[= -> ->]%list_elem_of_singleton]%elem_of_app Hc'; [|lia]. specialize (Hmax _ _ Hin' Hc'). lia. }
    all: exists r; split_and!; [by apply elem_of_app; left|done|done|];
      intros s' q' [Hin'|[= -> ->]%list_elem_of_singleton]%elem_of_app Hc'; [by eapply Hmax|congruence || lia].
  - destruct Hinv as [-> Hnone]. rewrite (proj2 (Z.ltb_lt _ _)) by lia. destruct (Contains q client) eqn:Ec; simpl.
    + exists q. split_and!; [apply elem_of_app; right; left|done|done|].
      intros s' q' [Hin'|[= -> ->]%list_elem_of_singleton]%elem_of_app Hc'; [|lia]. apply Hnone in Hin'. congruence.
    + split; [done|]. intros s' q' [Hin'|[= -> ->]%list_elem_of_singleton]%elem_of_app; [by eapply Hnone|done].
Qed.

Lemma search_correct client l :
  Forall (fun sp => 0 <= pfx_bits (snd sp)) l -> search_inv client l (fold_left (better client) l (None, -1)).
Proof.
  induction l as [|[s q] l IH] using rev_ind; intros Hl.
  { split; [done|]. intros s q Hin. by apply not_elem_of_nil in Hin. }
  apply Forall_app in Hl as [Hl [Hq _]%Forall_cons_iff]. rewrite fold_left_app. simpl. apply better_inv; [done|auto].
Qed.

Lemma owner_unique ss s s' q :
  NoDup (all_prefixes ss) -> s ∈ ss -> s' ∈ ss -> q ∈ sn_prefixes s -> q ∈ sn_prefixes s' -> s = s'.
Proof.
  assert (Hin : forall ss t, t ∈ ss -> q ∈ sn_prefixes t -> q ∈ all_prefixes ss).
  { intros l t Ht Hq. apply list_elem_of_In, in_concat. exists (sn_prefixes t).
    split; apply list_elem_of_In; [apply list_elem_of_fmap; eauto|done]. }
  induction ss as [|t ss IH]; intros Hnd Hs Hs' Hq Hq'; [by apply not_elem_of_nil in Hs|].
  unfold all_prefixes in Hnd. simpl in Hnd. apply NoDup_app in Hnd as (_ & Hdis & Hnd).
  apply elem_of_cons in Hs as [->|Hs], Hs' as [->|Hs']; [done| | |by apply IH].
  - destruct (Hdis q); [done|]. by eapply Hin.
  - destruct (Hdis q); [done|]. by eapply Hin.
Qed.

(** [q] is a longest prefix of the policy that contains [client]. *)
Definition longest_for (ss : list Subnet) (client : Addr) (s : Subnet) : Prop :=
  s ∈ ss /\ exists q, q ∈ sn_prefixes s /\ Contains q (Unmap client) = true /\
    forall s' q', s' ∈ ss -> q' ∈ sn_prefixes s' -> Contains q' (Unmap client) = true -> pfx_bits q' <= pfx_bits q.

Lemma wf_subnets_prefix ss s q : wf_subnets ss -> s ∈ ss -> q ∈ sn_prefixes s -> good_prefix q.
Proof.
  intros [Hwf _ _ _] Hs Hq. rewrite List.Forall_forall in Hwf. apply list_elem_of_In in Hs, Hq.
  destruct (Hwf s Hs) as (_ & Hg & _). rewrite List.Forall_forall in Hg. auto.
Qed.

Lemma good_prefix_bits q : good_prefix q -> 0 <= pfx_bits q.
Proof. intros (_ & Hv & _). by apply Z.leb_le in Hv. Qed.

Lemma longest_unique ss client s s' :
  wf_subnets ss -> wf_addr client = true -> longest_for ss client s -> longest_for ss client s' -> s = s'.
Proof.
  intros Hwf Hc (Hs & q & Hq & Hcq & Hmax) (Hs' & q' & Hq' & Hcq' & Hmax').
  pose proof (wf_subnets_prefix _ _ _ Hwf Hs Hq) as (Hw & _ & _ & _ & Hm).
  pose proof (wf_subnets_prefix _ _ _ Hwf Hs' Hq') as (Hw' & _ & _ & _ & Hm').
  assert (q = q') as ->.
  { apply (masked_contains_unique _ _ (Unmap client)); try done; [by apply Unmap_wf|].
    specialize (Hmax _ _ Hs' Hq' Hcq'). specialize (Hmax' _ _ Hs Hq Hcq). lia. }
  by eapply owner_unique; [apply Hwf|..].
Qed.

Lemma SubnetOf_spec p client :
  wf_subnets (subnets p) ->
  match SubnetOf p client with
  | None => forall s q, s ∈ subnets p -> q ∈ sn_prefixes s -> Contains q (Unmap client) = false
  | Some s => longest_for (subnets p) client s
  end.
Proof.
  intros Hwf. rewrite SubnetOf_pairs.
  assert (Hpos : Forall (fun sp => 0 <= pfx_bits (snd sp)) (pairs (subnets p))).
  { apply List.Forall_forall. intros [s' q'] [Hs Hq]%list_elem_of_In%elem_of_pairs.
    by eapply good_prefix_bits, wf_subnets_prefix. }
  pose proof (search_correct (Unmap client) _ Hpos) as Hinv.
  destruct (fold_left _ _ _) as [[s|] b]; cbn [fst]; unfold search_inv in Hinv.
  all: setoid_rewrite elem_of_pairs in Hinv.
  - destruct Hinv as (q & [Hs Hq] & Hc & <- & Hmax). split; [done|]. exists q. split_and!; [done..|]. eauto.
  - destruct Hinv as [_ Hnone]. eauto.
Qed.

(** C10: a client belongs to the subnet that owns the longest prefix containing its (unmapped) address, if any prefix contains it; this subnet is unique. *)
Theorem SubnetOf_longest engine specs p client s :
  New engine specs = Ok p -> wf_addr client = true ->
  (SubnetOf p client = Some s <-> longest_for (subnets p) client s) /\
  (SubnetOf p client = None <-> forall s q, s ∈ subnets p -> q ∈ sn_prefixes s -> Contains q (Unmap client) = false).
Proof.
  intros [[_ Hwf] _]%New_Ok Hc. pose proof (SubnetOf_spec p client Hwf) as H. destruct (SubnetOf p client) as [t|] eqn:E.
  - split.
    + split; [by intros [= ->]|]. intros Hs. f_equal. by eapply longest_unique.
    + split; [done|]. intros Hnone. destruct H as (Ht & q & Hq & Hcq & _). rewrite (Hnone t q) in Hcq; done.
  - split; [|done]. split; [done|]. intros (Hs & q & Hq & Hcq & _). rewrite (H s q) in Hcq; done.
Qed.

(** ** Independence of the order of the config *)

Lemma compiled_same engine spec s s' :
  ss_name spec <> [] -> compiled engine spec s -> compiled engine spec s' ->
  sn_name s = sn_name s' /\ sn_prefixes s = sn_prefixes s'.
Proof.
  unfold compiled, named. intros Hne (_ & Hn & Hp & _)%compileSubnet_Ok (_ & Hn' & Hp' & _)%compileSubnet_Ok.
  rewrite bool_decide_false in * by done. simpl in *. split; [congruence|].
  clear -Hp Hp'. revert Hp'. generalize (sn_prefixes s'). induction Hp as [|c q cs qs Hq _ IH]; intros l Hl.
  - by inversion Hl.
  - inversion Hl as [|? q' ? ? Hq' Hl']; subst. rewrite (IH _ Hl'). congruence.
Qed.

Lemma compiled_counterpart engine specs specs' p p' s :
  Forall2 (compiled engine) specs (subnets p) -> Forall2 (compiled engine) specs' (subnets p') ->
  (forall spec, spec ∈ specs -> spec ∈ specs') -> Forall (fun spec => ss_name spec <> []) specs -> s ∈ subnets p ->
  exists s', s' ∈ subnets p' /\ sn_name s' = sn_name s /\ sn_prefixes s' = sn_prefixes s.
Proof.
  intros H H' Hsub Hne [i Hi]%list_elem_of_lookup. destruct (Forall2_lookup_r _ _ _ _ _ H Hi) as (spec & Hspec & Hc).
  assert (Hin : spec ∈ specs) by (by eapply list_elem_of_lookup_2).
  destruct (proj1 (list_elem_of_lookup _ _) (Hsub _ Hin)) as [j Hj].
  destruct (Forall2_lookup_l _ _ _ _ _ H' Hj) as (s' & Hs' & Hc'). exists s'. split; [by eapply list_elem_of_lookup_2|].
  apply (compiled_same engine spec); [|done..]. apply list_elem_of_In in Hin. by apply (proj1 (List.Forall_forall _ _) Hne) in Hin.
Qed.

Lemma longest_transfer ss ss' client s s' :
  (forall t, t ∈ ss' -> exists t', t' ∈ ss /\ sn_prefixes t' = sn_prefixes t) ->
  s' ∈ ss' -> sn_prefixes s' = sn_prefixes s -> longest_for ss client s -> longest_for ss' client s'.
Proof.
  intros Hback Hs' E (_ & q & Hq & Hc & Hmax). split; [done|]. exists q. rewrite E. split_and!; [done..|].
  intros t q' Ht Hq' Hc'. destruct (Hback t Ht) as (t' & Ht' & Et). apply (Hmax t'); [done| |done]. by rewrite Et.
Qed.

(** The order of the subnets in the config does not matter: a policy compiled from the same named entries in any other order assigns every client to a subnet of the same name, or to none. *)
Theorem SubnetOf_order engine specs specs' p p' client :
  New engine specs = Ok p -> New engine specs' = Ok p' -> (forall spec, spec ∈ specs <-> spec ∈ specs') ->
  Forall (fun spec => ss_name spec <> []) specs -> wf_addr client = true ->
  sn_name <$> SubnetOf p client = sn_name <$> SubnetOf p' client.
Proof.
  intros [[_ Hwf] Hc]%New_Ok [[_ Hwf'] Hc']%New_Ok Hiff Hne Hcl.
  assert (Hne' : Forall (fun spec => ss_name spec <> []) specs').
  { apply List.Forall_forall. intros spec Hin%list_elem_of_In%Hiff%list_elem_of_In. by apply (proj1 (List.Forall_forall _ _) Hne) in Hin. }
  assert (Hto : forall s, s ∈ subnets p -> exists s', s' ∈ subnets p' /\ sn_name s' = sn_name s /\ sn_prefixes s' = sn_prefixes s).
  { intros s. apply (compiled_counterpart engine specs specs'); [done..| |done]. by intros spec; apply Hiff. }
  assert (Hfrom : forall s, s ∈ subnets p' -> exists s', s' ∈ subnets p /\ sn_name s' = sn_name s /\ sn_prefixes s' = sn_prefixes s).
  { intros s. apply (compiled_counterpart engine specs' specs); [done..| |done]. by intros spec; apply Hiff. }
  pose proof (SubnetOf_spec p client Hwf) as H. pose proof (SubnetOf_spec p' client Hwf') as H'.
  destruct (SubnetOf p client) as [s|], (SubnetOf p' client) as [s'|]; simpl; [|exfalso..|done].
  - destruct (Hto s (proj1 H)) as (t & Ht & Hn & Hp). rewrite <- Hn. do 2 f_equal.
    apply (longest_unique (subnets p') client); [done|done| |done]. apply (longest_transfer (subnets p) _ _ s); [|done..].
    intros u Hu. destruct (Hfrom u Hu) as (u' & ? & _ & ?). eauto.
  - destruct H as (Hs & q & Hq & Hcq & _). destruct (Hto s Hs) as (t & Ht & _ & Hp). rewrite (H' t q) in Hcq; [done|done|congruence].
  - destruct H' as (Hs & q & Hq & Hcq & _). destruct (Hfrom s' Hs) as (t & Ht & _ & Hp). rewrite (H t q) in Hcq; [done|done|congruence].
Qed.

(** ** Witnesses: a /32 entry that overrides the /24 it belongs to. *)
Definition office_spec : SubnetSpec := mkSpec (str "office") [str "192.168.1.0/24"] [] [str "*"] [].
Definition printer_spec : SubnetSpec := mkSpec (str "printer") [str "192.168.1.7"] [str "80"] [str "update.example.com"] [].

Definition policy_test (specs : list SubnetSpec) (f : Policy -> bool) : bool :=
  match New (fun _ => None) specs with Ok p => f p | Err _ => false end.

Lemma policy_test_true specs f :
  policy_test specs f = true -> exists p, New (fun _ => None) specs = Ok p /\ f p = true.
Proof. unfold policy_test. destruct (New _ specs) as [p|]; [eauto|done]. Qed.

Definition client_of (p : Policy) (v : Z) : option gostring := sn_name <$> SubnetOf p (Addr4 v).

Lemma New_wf_witness :
  exists p, New (fun _ => None) [office_spec; printer_spec] = Ok p /\ NoDup (all_prefixes (subnets p)).
Proof.
  destruct (policy_test_true [office_spec; printer_spec] (fun _ => true)) as (p & Hp & _); [vm_compute; reflexivity|].
  exists p. split; [exact Hp|]. destruct (New_wf _ _ _ Hp) as (_ & _ & _ & Hnd & _). exact Hnd.
Defined.

Lemma SubnetOf_longest_witness :
  exists p s, New (fun _ => None) [office_spec; printer_spec] = Ok p /\ sn_name s = str "printer" /\
    longest_for (subnets p) (Addr6 (0xffff * 2 ^ 32 + ip4 192 168 1 7) []) s.
Proof.
  destruct (policy_test_true [office_spec; printer_spec]
    (fun p => bool_decide (sn_name <$> SubnetOf p (Addr6 (0xffff * 2 ^ 32 + ip4 192 168 1 7) []) = Some (str "printer"))))
    as (p & Hp & Hn); [vm_compute; reflexivity|].
  apply bool_decide_eq_true in Hn. apply fmap_Some in Hn as (s & Hs & Hn).
  exists p, s. split; [exact Hp|]. split; [symmetry; exact Hn|].
  refine (proj1 (proj1 (SubnetOf_longest _ _ _ _ s Hp _)) Hs). reflexivity.
Defined.
