(* ===== verification/FloatFacts.v ===== *)
(** * Rounding errors of binary64

    The operations of [GoFloat] on binary64 numbers that the token buckets use,
    with the error bound of each: a result is at most the exact one times
    [1 + eps], plus [eta]. Only numbers that are not negative matter, and only
    upper bounds. *)

From Stdlib Require Import ZArith QArith Lia Bool SpecFloat Qminmax Lqa Qpower.
From stdpp Require Import base tactics.
From S2P Require Import Prelude GoFloat.

Local Open Scope Z_scope.

(** ** Powers of two *)

Definition bpow (e : Z) : Q := Qpower 2 e.

Lemma bpow_pos e : (0 < bpow e)%Q.
Proof. apply Qpower_0_lt. reflexivity. Qed.

Lemma bpow_add a b : (bpow (a + b) == bpow a * bpow b)%Q.
Proof. apply Qpower_plus. discriminate. Qed.

Lemma bpow_Z n : 0 <= n -> (bpow n == inject_Z (2 ^ n))%Q.
Proof. intros Hn. unfold bpow. change 2%Q with (inject_Z 2). by rewrite Zpower_Qpower. Qed.

Lemma bpow_le a b : a <= b -> (bpow a <= bpow b)%Q.
Proof.
  intros H. replace b with (a + (b - a)) by lia. rewrite bpow_add, (bpow_Z (b - a)) by lia.
  rewrite <- (Qmult_1_r (bpow a)) at 1. apply Qmult_le_l; [apply bpow_pos|]. change 1%Q with (inject_Z 1). rewrite <- Zle_Qle.
  pose proof (Z.pow_pos_nonneg 2 (b - a)). lia.
Qed.

(** The value of a mantissa and an exponent. *)
Definition mval (m e : Z) : Q := inject_Z m * bpow e.

Lemma mval_shift m e n : 0 <= n -> (mval (m * 2 ^ n) (e - n) == mval m e)%Q.
Proof.
  intros Hn. unfold mval. rewrite inject_Z_mult, <- bpow_Z by done. rewrite <- Qmult_assoc, <- bpow_add. by replace (n + (e - n)) with e by lia.
Qed.

Lemma mval_le m m' e : m <= m' -> (mval m e <= mval m' e)%Q.
Proof. intros H. unfold mval. apply Qmult_le_compat_r; [by rewrite <- Zle_Qle|]. apply Qlt_le_weak, bpow_pos. Qed.

Lemma mval_lt m m' e : m < m' -> (mval m e < mval m' e)%Q.
Proof. intros H. unfold mval. apply Qmult_lt_r; [apply bpow_pos|]. by rewrite <- Zlt_Qlt. Qed.

Lemma mval_nonneg m e : 0 <= m -> (0 <= mval m e)%Q.
Proof. intros H. unfold mval. apply Qmult_le_0_compat; [by change 0%Q with (inject_Z 0); rewrite <- Zle_Qle|apply Qlt_le_weak, bpow_pos]. Qed.

Lemma mval_pow n e : 0 <= n -> (mval (2 ^ n) e == bpow (n + e))%Q.
Proof. intros Hn. unfold mval. by rewrite <- bpow_Z, bpow_add. Qed.

(** ** Digits *)

Lemma digits2_log2 p : Zpos (digits2_pos p) = Z.log2 (Zpos p) + 1.
Proof.
  induction p as [p IH|p IH|]; cbn [digits2_pos]; [| |done].
  - rewrite Pos2Z.inj_succ, IH. change (Zpos p~1) with (2 * Zpos p + 1). rewrite Z.log2_succ_double by lia. lia.
  - rewrite Pos2Z.inj_succ, IH. change (Zpos p~0) with (2 * Zpos p). rewrite Z.log2_double by lia. lia.
Qed.

Lemma Zdigits2_log2 m : 0 < m -> Zdigits2 m = Z.log2 m + 1.
Proof. intros Hm. destruct m as [|p|p]; [lia| |lia]. apply digits2_log2. Qed.

Definition fexp64 (e : Z) : Z := Z.max (e - 53) (-1074).
Lemma fexp_64 e : fexp 53 1024 e = fexp64 e.
Proof. reflexivity. Qed.

(** ** Rounding *)

Lemma iter_shr p mrs : 0 <= shr_m mrs -> shr_m (iter_pos shr_1 p mrs) = shr_m mrs / 2 ^ Zpos p /\ 0 <= shr_m (iter_pos shr_1 p mrs).
Proof.
  assert (H1 : forall mrs, 0 <= shr_m mrs -> shr_m (shr_1 mrs) = shr_m mrs / 2).
  { intros [m r s] Hm. cbn [shr_m] in *. unfold shr_1. destruct m as [|[p'|p'|]|p']; cbn [shr_m]; [done|..|lia].
    - change (Zpos p'~1) with (2 * Zpos p' + 1). rewrite Z.mul_comm, Z.div_add_l by lia. rewrite (Z.div_small 1 2) by lia. lia.
    - change (Zpos p'~0) with (2 * Zpos p'). by rewrite Z.mul_comm, Z.div_mul by lia.
    - done. }
  revert mrs. induction p as [p IH|p IH|]; intros mrs Hm; cbn [iter_pos].
  - assert (Hs : 0 <= shr_m (shr_1 mrs)) by (rewrite H1 by done; apply Z.div_pos; lia).
    destruct (IH _ Hs) as [E1 P1]. destruct (IH _ P1) as [E2 P2]. split; [|done]. rewrite E2, E1, H1 by done.
    rewrite !Z.div_div by lia. f_equal. replace (Zpos p~1) with (Zpos p + Zpos p + 1) by lia. rewrite !Z.pow_add_r by lia. lia.
  - destruct (IH _ Hm) as [E1 P1]. destruct (IH _ P1) as [E2 P2]. split; [|done]. rewrite E2, E1, Z.div_div by lia. f_equal.
    replace (Zpos p~0) with (Zpos p + Zpos p) by lia. rewrite Z.pow_add_r by lia. lia.
  - rewrite H1 by done. split; [done|]. apply Z.div_pos; lia.
Qed.

(** One shift of [binary_round_aux]: to the exponent of the format, dropping
    bits. *)
Lemma shr_fexp_spec m e l :
  0 <= m -> e <= fexp64 (Zdigits2 m + e) ->
  let '(mrs, e') := shr_fexp 53 1024 m e l in e' = fexp64 (Zdigits2 m + e) /\ shr_m mrs = m / 2 ^ (e' - e) /\ (e' = e -> mrs = shr_record_of_loc m l).
Proof.
  intros Hm He. unfold shr_fexp. rewrite fexp_64. set (e' := fexp64 _) in *. unfold shr. destruct (e' - e) as [|p|p] eqn:E.
  - split_and!; [lia| |done]. replace (e - e) with 0 by lia. rewrite Z.pow_0_r, Z.div_1_r. by destruct l as [|[]].
  - assert (H0 : shr_m (shr_record_of_loc m l) = m) by (by destruct l as [|[]]).
    destruct (iter_shr p (shr_record_of_loc m l)) as [-> _]; [by rewrite H0|]. rewrite H0. split_and!; [lia|f_equal; f_equal; lia|lia].
  - lia.
Qed.

Lemma round_up m l : m <= round_nearest_even m l <= m + 1.
Proof. destruct l as [|[]]; cbn [round_nearest_even]; [lia| |lia..]. destruct (Z.even m); lia. Qed.

(** Mantissas and exponents of the format's numbers that are not zero. *)
Definition canon (m e : Z) : Prop := 0 < m < 2 ^ 53 /\ (e = -1074 \/ 2 ^ 52 <= m) /\ -1074 <= e <= 971.

(** Numbers of the format that are not negative, with infinity. *)
Definition good (x : float64) : Prop :=
  match x with S754_zero _ | S754_infinity false => True | S754_finite false m e => canon (Zpos m) e | _ => False end.

(** The value of such a number; infinity counts as the first power of two beyond. *)
Definition val (x : float64) : Q :=
  match x with S754_finite _ m e => mval (Zpos m) e | S754_infinity _ => bpow 1024 | _ => 0 end.

Definition eps : Q := bpow (-52).
Definition eta : Q := bpow (-1074).

Lemma log2_bound m n : 0 < m -> 0 <= n -> Z.log2 m + 1 <= n <-> m < 2 ^ n.
Proof. intros Hm Hn. rewrite Z.log2_lt_pow2 by done. lia. Qed.

(** The exponent of a canonical number is the format's. *)
Lemma fexp_canon m e : 0 < m < 2 ^ 53 -> e = -1074 \/ 2 ^ 52 <= m -> -1074 <= e -> fexp64 (Zdigits2 m + e) = e.
Proof.
  intros Hm Hn He. rewrite Zdigits2_log2 by lia. unfold fexp64. pose proof (proj2 (log2_bound m 53 (proj1 Hm) ltac:(lia)) (proj2 Hm)).
  destruct Hn as [->|Hn]; [lia|]. pose proof (proj1 (Z.log2_le_pow2 m 52 (proj1 Hm)) Hn). lia.
Qed.

(** The last step of a rounding: the mantissa [m] has at most 53 digits, or is
    [2 ^ 53]. *)
Lemma finish_round m e :
  0 <= m <= 2 ^ 53 -> e = -1074 \/ 2 ^ 52 <= m -> -1074 <= e ->
  let '(mrs, e') := shr_fexp 53 1024 m e loc_Exact in
  let r := match shr_m mrs with Z0 => S754_zero false | Zpos m' => if e' <=? 971 then S754_finite false m' e' else S754_infinity false | _ => S754_nan end in
  good r /\ (val r <= mval m e)%Q /\ (0 < m < 2 ^ 53 -> e <= 971 -> r = S754_finite false (Z.to_pos m) e).
Proof.
  intros Hm Hn He. destruct (Z.eq_dec m 0) as [->|H0].
  { assert (H : shr_fexp 53 1024 0 e loc_Exact = (shr_record_of_loc 0 loc_Exact, e) \/ exists p, shr_fexp 53 1024 0 e loc_Exact = (iter_pos shr_1 p (shr_record_of_loc 0 loc_Exact), e + Zpos p)).
    { unfold shr_fexp, shr. destruct (_ - _); eauto. }
    destruct H as [->|[p ->]]; [cbn [shr_record_of_loc shr_m good val]; split_and!; [done|by apply mval_nonneg|lia]|].
    destruct (iter_shr p (shr_record_of_loc 0 loc_Exact)) as [-> _]; [done|]. cbn [shr_record_of_loc shr_m]. rewrite Z.div_0_l by lia.
    cbn [good val]. split_and!; [done|by apply mval_nonneg|lia]. }
  destruct (Z.eq_dec m (2 ^ 53)) as [->|H1].
  - assert (Hd : Zdigits2 (2 ^ 53) = 54) by reflexivity. pose proof (shr_fexp_spec (2 ^ 53) e loc_Exact) as Hs. rewrite Hd in Hs.
    specialize (Hs ltac:(lia) ltac:(unfold fexp64; lia)). destruct (shr_fexp 53 1024 (2 ^ 53) e loc_Exact) as [mrs e']. destruct Hs as (He' & Hs & _).
    assert (e' = e + 1) as -> by (unfold fexp64 in He'; lia). rewrite Hs. replace (e + 1 - e) with 1 by lia. change (2 ^ 53 / 2 ^ 1) with (2 ^ 52).
    change (2 ^ 52) with (Zpos 4503599627370496). destruct (Z.leb_spec (e + 1) 971) as [Hb|Hb]; cbn [good val]; (split_and!; [|..|lia]).
    + split_and!; [lia..|right; lia|lia|lia].
    + change (Zpos 4503599627370496) with (2 ^ 52). rewrite !mval_pow by lia. apply bpow_le. lia.
    + done.
    + rewrite mval_pow by lia. apply bpow_le. lia.
  - assert (Hf : fexp64 (Zdigits2 m + e) = e) by (apply fexp_canon; [lia|done|done]).
    pose proof (shr_fexp_spec m e loc_Exact) as Hs. rewrite Hf in Hs. specialize (Hs ltac:(lia) ltac:(lia)). destruct (shr_fexp 53 1024 m e loc_Exact) as [mrs e'].
    destruct Hs as (-> & _ & ->); [|done]. cbn [shr_record_of_loc shr_m]. destruct m as [|p|p]; [lia| |lia].
    destruct (Z.leb_spec e 971) as [Hb|Hb]; cbn [good val]; split_and!; try done; [by split_and!; lia|apply Qle_refl| |lia].
    destruct Hn as [->|Hn]; [lia|]. eapply Qle_trans; [|by apply (mval_le (2 ^ 52))]. rewrite mval_pow by lia. apply bpow_le. lia.
Qed.

(** Rounding: the result is a number of the format, and at most one unit above. *)
Lemma round_aux m e l :
  0 < m -> e <= fexp64 (Zdigits2 m + e) ->
  let r := binary_round_aux 53 1024 false m e l in good r /\ (val r <= mval m e * (1 + eps) + eta)%Q.
Proof.
  intros Hm He. cbv zeta. unfold binary_round_aux. pose proof (shr_fexp_spec m e l ltac:(lia) He) as Hs.
  destruct (shr_fexp 53 1024 m e l) as [mrs e1]. destruct Hs as (He1 & Hm1 & _).
  set (m1 := shr_m mrs) in *. pose proof (round_up m1 (loc_of_shr_record mrs)) as Hr. set (m2 := round_nearest_even _ _) in *.
  assert (Hlow : -1074 <= e1) by (unfold fexp64 in He1; lia).
  rewrite Zdigits2_log2 in He1 by lia. pose proof (Z.log2_spec m Hm) as [Hl1 Hl2].
  assert (Hee : 0 <= e1 - e) by (rewrite Zdigits2_log2 in He by lia; lia). pose proof (Z.pow_pos_nonneg 2 (e1 - e) ltac:(lia) Hee) as Hp.
  assert (H1 : 0 <= m1 < 2 ^ 53 /\ (e1 = -1074 \/ 2 ^ 52 <= m1)).
  { rewrite Hm1. split; [split; [apply Z.div_pos; lia|]|].
    - apply Z.div_lt_upper_bound; [lia|]. rewrite <- Z.pow_add_r by lia. eapply Z.lt_le_trans; [exact Hl2|]. apply Z.pow_le_mono_r; unfold fexp64 in He1; lia.
    - destruct (Z.eq_dec e1 (-1074)) as [->|Hne]; [by left|right]. apply Z.div_le_lower_bound; [lia|]. rewrite <- Z.pow_add_r by lia.
      etransitivity; [|exact Hl1]. apply Z.pow_le_mono_r; unfold fexp64 in He1; lia. }
  pose proof (finish_round m2 e1 ltac:(lia) ltac:(lia) Hlow) as Hf. destruct (shr_fexp 53 1024 m2 e1 loc_Exact) as [mrs2 e2].
  destruct Hf as (Hg & Hv & _). split; [exact Hg|]. eapply Qle_trans; [exact Hv|].
  (* the unit in the last place *)
  assert (Hunit : (bpow e1 <= mval m e * eps + eta)%Q).
  { assert (Hb : (bpow (Z.log2 m + e) <= mval m e)%Q) by (rewrite <- mval_pow by apply Z.log2_nonneg; by apply mval_le).
    pose proof (bpow_pos (-1074)). pose proof (bpow_pos (Z.log2 m + e)). pose proof (bpow_pos (-52)). unfold eps, eta, fexp64 in *.
    destruct (Z.max_spec (Z.log2 m + 1 + e - 53) (-1074)) as [[_ E]|[_ E]]; rewrite E in He1; subst e1; [nra|].
    replace (Z.log2 m + 1 + e - 53) with (Z.log2 m + e + -52) by lia. rewrite bpow_add. nra. }
  assert (Hfloor : (mval m1 e1 <= mval m e)%Q).
  { rewrite <- (mval_shift m1 e1 (e1 - e)) by lia. replace (e1 - (e1 - e)) with e by lia. apply mval_le. rewrite Hm1. rewrite Z.mul_comm. apply Z.mul_div_le. lia. }
  assert (Hstep : (mval m2 e1 <= mval m1 e1 + bpow e1)%Q).
  { eapply Qle_trans; [apply (mval_le m2 (m1 + 1)); lia|]. unfold mval. rewrite inject_Z_plus. change (inject_Z 1) with 1%Q. lra. }
  lra.
Qed.

(** A number of the format is rounded to itself. *)
Lemma round_aux_canon m e : canon m e -> binary_round_aux 53 1024 false m e loc_Exact = S754_finite false (Z.to_pos m) e.
Proof.
  intros (Hm & Hn & He). pose proof (fexp_canon m e Hm Hn ltac:(lia)) as Hf. unfold binary_round_aux.
  pose proof (shr_fexp_spec m e loc_Exact ltac:(lia)) as Hs. rewrite Hf in Hs. specialize (Hs ltac:(lia)).
  destruct (shr_fexp 53 1024 m e loc_Exact) as [mrs e1] eqn:Es. destruct Hs as (-> & _ & Hs). rewrite (Hs eq_refl) in *. cbn [shr_record_of_loc shr_m loc_of_shr_record round_nearest_even].
  pose proof (finish_round m e ltac:(lia) Hn ltac:(lia)) as Hr. rewrite Es in Hr |- *. destruct Hr as (_ & _ & Hr). apply Hr; lia.
Qed.

Lemma iter_xO m d : Zpos (Pos.iter xO m d) = Zpos m * 2 ^ Zpos d.
Proof.
  induction d as [|d IH] using Pos.peano_ind; [cbn [Pos.iter]; lia|]. rewrite Pos.iter_succ, Pos2Z.inj_succ, Z.pow_succ_r by lia.
  change (Zpos (Pos.iter xO m d)~0) with (2 * Zpos (Pos.iter xO m d)). lia.
Qed.

Lemma shl_align_spec m e e' : let '(m', e1) := shl_align m e e' in e1 = Z.min e e' /\ Zpos m' = Zpos m * 2 ^ (e - e1).
Proof.
  unfold shl_align. destruct (e' - e) as [|d|d] eqn:E.
  - split; [lia|]. rewrite Z.sub_diag. lia.
  - split; [lia|]. rewrite Z.sub_diag. lia.
  - rewrite iter_xO. split; [lia|]. do 2 f_equal. lia.
Qed.

(** [binary_round] shifts to the left before it rounds, which changes nothing. *)
Lemma round_align m e :
  exists m' e', binary_round 53 1024 false m e = binary_round_aux 53 1024 false (Zpos m') e' loc_Exact /\
    e' <= fexp64 (Zdigits2 (Zpos m') + e') /\ e' = Z.min e (fexp64 (Z.log2 (Zpos m) + 1 + e)) /\ Zpos m' = Zpos m * 2 ^ (e - e') /\
    (mval (Zpos m') e' == mval (Zpos m) e)%Q.
Proof.
  unfold binary_round. rewrite fexp_64, digits2_log2. pose proof (shl_align_spec m e (fexp64 (Z.log2 (Zpos m) + 1 + e))) as Hs.
  destruct (shl_align _ _ _) as [m' e']. destruct Hs as [He Hm]. exists m', e'. split_and!; [done| |done|done|].
  - rewrite Zdigits2_log2 by lia. rewrite Hm, Z.log2_mul_pow2 by lia. replace (e - e' + Z.log2 (Zpos m) + 1 + e') with (Z.log2 (Zpos m) + 1 + e) by lia. lia.
  - rewrite Hm. rewrite <- (mval_shift (Zpos m) e (e - e')) by lia. by replace (e - (e - e')) with e' by lia.
Qed.

Lemma round_spec m e : good (binary_round 53 1024 false m e) /\ (val (binary_round 53 1024 false m e) <= mval (Zpos m) e * (1 + eps) + eta)%Q.
Proof.
  destruct (round_align m e) as (m' & e' & -> & He & _ & _ & Hv). rewrite <- Hv. by apply round_aux.
Qed.

(** ** Integers *)

Lemma of_int_exact z : 0 <= z < 2 ^ 53 -> good (of_int z) /\ (val (of_int z) == inject_Z z)%Q /\ (0 < z -> exists m e, of_int (F := float64) z = S754_finite false m e /\ canon (Zpos m) e).
Proof.
  intros Hz. cbn [of_int float64_ops]. destruct z as [|p|p]; [split_and!; [done|done|lia]| |lia]. cbn [binary_normalize].
  destruct (round_align p 0) as (m' & e' & -> & _ & He & Hm & Hv).
  pose proof (proj2 (log2_bound (Zpos p) 53 ltac:(lia) ltac:(lia)) (proj2 Hz)) as Hd. pose proof (Z.log2_nonneg (Zpos p)) as Hd0. pose proof (Z.log2_spec (Zpos p) ltac:(lia)) as [Hl1 Hl2].
  assert (e' = Z.log2 (Zpos p) - 52) as -> by (unfold fexp64 in He; lia).
  assert (Hc : canon (Zpos m') (Z.log2 (Zpos p) - 52)).
  { rewrite Hm. pose proof (Z.pow_pos_nonneg 2 (0 - (Z.log2 (Zpos p) - 52)) ltac:(lia) ltac:(lia)). split_and!; [nia| |right|lia|lia].
    - eapply Z.lt_le_trans; [apply Z.mul_lt_mono_pos_r; [done|exact Hl2]|]. rewrite <- Z.pow_add_r by lia. apply Z.pow_le_mono_r; lia.
    - etransitivity; [|apply Z.mul_le_mono_nonneg_r; [lia|exact Hl1]]. rewrite <- Z.pow_add_r by lia. apply Z.pow_le_mono_r; lia. }
  rewrite round_aux_canon by done. change (Z.to_pos (Zpos m')) with m'. split_and!; [exact Hc| |eauto]. cbn [val]. rewrite Hv. unfold mval, bpow. cbn. lra.
Qed.

(** ** Comparison *)

Lemma canon_lt m e m' e' : canon m e -> canon m' e' -> e < e' -> (mval m e < mval m' e')%Q.
Proof.
  intros (Hm & _ & He) (Hm' & Hn' & _) Hlt. eapply Qlt_le_trans; [apply (mval_lt m (2 ^ 53)); lia|]. rewrite mval_pow by lia.
  destruct Hn' as [->|Hn']; [lia|]. eapply Qle_trans; [|apply (mval_le (2 ^ 52)); exact Hn']. rewrite mval_pow by lia. apply bpow_le. lia.
Qed.

Lemma canon_inf m e : canon m e -> (mval m e < bpow 1024)%Q.
Proof.
  intros (Hm & _ & He). eapply Qlt_le_trans; [apply (mval_lt m (2 ^ 53)); lia|]. rewrite mval_pow by lia. apply bpow_le. lia.
Qed.

Lemma mval_pos m e : 0 < m -> (0 < mval m e)%Q.
Proof. intros H. unfold mval. apply Qmult_lt_0_compat; [by change 0%Q with (inject_Z 0); rewrite <- Zlt_Qlt|apply bpow_pos]. Qed.

Lemma val_nonneg x : good x -> (0 <= val x)%Q.
Proof. destruct x as [s|[]| |[] m e]; cbn [good val]; try done; intros _; first [by apply mval_nonneg|apply Qlt_le_weak, bpow_pos]. Qed.

Lemma flt_spec x y : good x -> good y -> flt x y = true <-> (val x < val y)%Q.
Proof.
  cbn [flt float64_ops]. unfold SFltb, SFcompare. pose proof (bpow_pos 1024) as Hinf.
  destruct x as [s|[]| |[] m e], y as [s'|[]| |[] m' e']; cbn [good val]; intros Hx Hy; try (exfalso; done).
  9: destruct (Z.compare_spec e e') as [->|Hlt|Hgt].
  all: try (apply canon_inf in Hx as Hx'; pose proof (mval_pos (Zpos m) e ltac:(lia))); try (apply canon_inf in Hy as Hy'; pose proof (mval_pos (Zpos m') e' ltac:(lia))).
  all: try (split; [done|lra]); try (split; [intros _; lra|done]).
  - change (Pos.compare_cont Eq m m') with (m ?= m')%positive. destruct (Pos.compare_spec m m') as [->|Hm|Hm].
    + split; [done|lra].
    + split; [intros _; apply mval_lt; lia|done].
    + split; [done|]. assert (mval (Zpos m') e' < mval (Zpos m) e')%Q by (apply mval_lt; lia). lra.
  - split; [intros _; by apply canon_lt|done].
  - split; [done|]. pose proof (canon_lt _ _ _ _ Hy Hx Hgt). lra.
Qed.

(** ** Operations *)

Lemma eps_pos : (0 < eps)%Q.
Proof. apply bpow_pos. Qed.
Lemma eta_pos : (0 < eta)%Q.
Proof. apply bpow_pos. Qed.

(** Both terms of a sum at the smaller exponent. *)
Lemma align_val m e ez : ez <= e -> (mval (Zpos (fst (shl_align m e ez))) ez == mval (Zpos m) e)%Q.
Proof.
  intros H. pose proof (shl_align_spec m e ez) as Hs. destruct (shl_align m e ez) as [m' e1]. destruct Hs as [He Hm]. cbn [fst]. rewrite Hm.
  rewrite <- (mval_shift (Zpos m) e (e - ez)) by lia. replace (e - (e - ez)) with ez by lia. by replace e1 with ez by lia.
Qed.

Lemma mval_add a b e : (mval (a + b) e == mval a e + mval b e)%Q.
Proof. unfold mval. rewrite inject_Z_plus. ring. Qed.

Lemma normalize_spec m e : 0 <= m -> good (binary_normalize 53 1024 m e false) /\ (val (binary_normalize 53 1024 m e false) <= mval m e * (1 + eps) + eta)%Q.
Proof.
  intros Hm. destruct m as [|p|p]; [|apply round_spec|lia]. cbn [binary_normalize good val]. split; [done|]. unfold mval. pose proof eta_pos. change (inject_Z 0) with 0%Q. lra.
Qed.

Lemma fadd_spec x y : good x -> good y -> good (fadd x y) /\ (val (fadd x y) <= (val x + val y) * (1 + eps) + eta)%Q.
Proof.
  pose proof eps_pos as He. pose proof eta_pos as Ht. intros Hx Hy. pose proof (val_nonneg x Hx) as Vx. pose proof (val_nonneg y Hy) as Vy. cbn [fadd float64_ops].
  assert (Hmax : forall z, (z == val x \/ z == val y)%Q -> (z <= (val x + val y) * (1 + eps) + eta)%Q) by (intros z [->| ->]; nra).
  destruct x as [s|[]| |[] m e], y as [s'|[]| |[] m' e']; try (exfalso; done); cbn [SFadd];
    try (split; [done|apply Hmax; first [by left|by right]]).
  - by destruct s, s'; (split; [done|]); apply Hmax; left.
  - cbn [cond_Zopp]. cbn [val]. rewrite <- (align_val m e (Z.min e e')), <- (align_val m' e' (Z.min e e')), <- mval_add by lia. apply normalize_spec. lia.
Qed.

(** A difference that is not negative. *)
Lemma fsub_spec x y :
  good x -> good y -> (val y <= val x)%Q -> (val x < bpow 1024)%Q -> good (fsub x y) /\ (val (fsub x y) <= (val x - val y) * (1 + eps) + eta)%Q.
Proof.
  pose proof eps_pos as He. pose proof eta_pos as Ht. intros Hx Hy Hle Hfin. pose proof (val_nonneg x Hx) as Vx. pose proof (val_nonneg y Hy) as Vy. cbn [fsub float64_ops].
  destruct x as [s|[]| |[] m e], y as [s'|[]| |[] m' e']; try done; cbn [val] in *; try lra; cbn [SFsub].
  - destruct s, s'; (split; [done|]); cbn [val]; nra.
  - exfalso. pose proof (mval_pos (Zpos m') e' ltac:(lia)). lra.
  - split; [done|]. cbn [val]. nra.
  - cbn [cond_Zopp]. rewrite <- (align_val m e (Z.min e e')) in * by lia. rewrite <- (align_val m' e' (Z.min e e')) in * by lia.
    set (a := Zpos (fst (shl_align m e _))) in *. set (b := Zpos (fst (shl_align m' e' _))) in *.
    assert (Hab : b <= a). { apply Z.nlt_ge. intros H. apply (mval_lt _ _ (Z.min e e')) in H. lra. }
    assert (E : (mval a (Z.min e e') - mval b (Z.min e e') == mval (a - b) (Z.min e e'))%Q) by (unfold mval, Z.sub; rewrite inject_Z_plus, inject_Z_opp; ring).
    rewrite E. apply normalize_spec. lia.
Qed.

Lemma mval_mul m e m' e' : (mval (m * m') (e + e') == mval m e * mval m' e')%Q.
Proof. unfold mval. rewrite inject_Z_mult, bpow_add. ring. Qed.

Lemma fmul_spec x y :
  good x -> good y -> (val x < bpow 1024)%Q -> (val y < bpow 1024)%Q -> good (fmul x y) /\ (val (fmul x y) <= val x * val y * (1 + eps) + eta)%Q.
Proof.
  pose proof eps_pos as He. pose proof eta_pos as Ht. intros Hx Hy Fx Fy. cbn [fmul float64_ops].
  destruct x as [s|[]| |[] m e], y as [s'|[]| |[] m' e']; try (exfalso; done); cbn [val good] in *; try (exfalso; lra); cbn [SFmul xorb].
  - split; [done|]. cbn [val]. nra.
  - split; [done|]. cbn [val]. nra.
  - split; [done|]. cbn [val]. nra.
  - rewrite <- mval_mul. change (Zpos m * Zpos m') with (Zpos (m * m')). apply round_aux; [lia|]. rewrite Zdigits2_log2 by lia.
    pose proof (Z.log2_mul_below (Zpos m) (Zpos m') ltac:(lia) ltac:(lia)) as Hl. change (Zpos m * Zpos m') with (Zpos (m * m')) in Hl.
    pose proof (Z.log2_nonneg (Zpos m)). pose proof (Z.log2_nonneg (Zpos m')). destruct Hx as (Hm & Hn & Hb), Hy as (Hm' & Hn' & Hb'). unfold fexp64.
    assert (e = -1074 \/ 52 <= Z.log2 (Zpos m)) by (destruct Hn; [by left|right; by apply Z.log2_le_pow2]).
    assert (e' = -1074 \/ 52 <= Z.log2 (Zpos m')) by (destruct Hn'; [by left|right; by apply Z.log2_le_pow2]). lia.
Qed.

(** The quotient before rounding, when it is not tiny: at least 53 digits. *)
Lemma div_core m e m' e' :
  canon (Zpos m) e -> canon (Zpos m') e' -> -900 <= e - e' ->
  let '(q, ez, l) := SFdiv_core_binary 53 1024 (Zpos m) e (Zpos m') e' in
  2 ^ 52 <= q /\ ez <= fexp64 (Zdigits2 q + ez) /\ (mval q ez * mval (Zpos m') e' <= mval (Zpos m) e)%Q.
Proof.
  intros (Hm & _ & _) (Hm' & _ & _) Hlow. unfold SFdiv_core_binary. rewrite fexp_64, !Zdigits2_log2 by lia.
  set (D := Z.log2 (Zpos m) + 1 + e - (Z.log2 (Zpos m') + 1 + e')). set (e1 := Z.min _ _). set (s := e - e' - e1).
  pose proof (Z.log2_nonneg (Zpos m)) as L0. pose proof (Z.log2_nonneg (Zpos m')) as L0'.
  pose proof (proj2 (log2_bound (Zpos m') 53 ltac:(lia) ltac:(lia)) ltac:(lia)) as L1.
  assert (He1 : e1 <= D - 53) by (unfold e1, D, fexp64; lia). assert (Hs0 : 0 <= s) by (unfold s, e1; lia).
  assert (E : match s with Zpos _ => Z.shiftl (Zpos m) s | Z0 => Zpos m | Zneg _ => 0 end = Zpos m * 2 ^ s).
  { destruct s as [|p|p] eqn:Es; [lia|by rewrite Z.shiftl_mul_pow2|lia]. }
  rewrite E. pose proof (Z_div_mod (Zpos m * 2 ^ s) (Zpos m') ltac:(lia)) as Hq. destruct (Z.div_eucl _ _) as [q r]. destruct Hq as [Hq Hr].
  pose proof (Z.log2_spec (Zpos m) ltac:(lia)) as [Hl _]. pose proof (Z.log2_spec (Zpos m') ltac:(lia)) as [_ Hl'].
  assert (Hbig : 2 ^ 52 * Zpos m' <= Zpos m * 2 ^ s).
  { transitivity (2 ^ 52 * 2 ^ Z.succ (Z.log2 (Zpos m'))); [apply Z.mul_le_mono_nonneg_l; lia|]. rewrite <- Z.pow_add_r by lia.
    transitivity (2 ^ Z.log2 (Zpos m) * 2 ^ s); [|apply Z.mul_le_mono_nonneg_r; [apply Z.pow_nonneg; lia|done]]. rewrite <- Z.pow_add_r by lia.
    apply Z.pow_le_mono_r; [lia|]. unfold s, D in *. lia. }
  assert (Hq52 : 2 ^ 52 <= q) by nia. split; [done|]. split.
  - rewrite Zdigits2_log2 by lia. assert (52 <= Z.log2 q) by (apply Z.log2_le_pow2; lia). unfold fexp64. lia.
  - rewrite <- mval_mul, <- (mval_shift (Zpos m) e s) by done. replace (e - s) with (e1 + e') by (unfold s; lia). apply mval_le. lia.
Qed.

Lemma fdiv_spec m e m' e' :
  canon (Zpos m) e -> canon (Zpos m') e' -> -900 <= e - e' ->
  let r := fdiv (S754_finite false m e) (S754_finite false m' e') in
  good r /\ (val r * mval (Zpos m') e' <= mval (Zpos m) e * (1 + eps) + eta * mval (Zpos m') e')%Q.
Proof.
  intros Hx Hy Hlow. cbv zeta. cbn [fdiv float64_ops SFdiv xorb]. pose proof (div_core m e m' e' Hx Hy Hlow) as H.
  destruct (SFdiv_core_binary _ _ _ _ _ _) as [[q ez] l]. destruct H as (Hq & He & Hv). destruct (round_aux q ez l ltac:(lia) He) as [Hg Hr]. split; [done|].
  pose proof (mval_pos (Zpos m') e' ltac:(lia)) as Hp. pose proof eps_pos. nra.
Qed.

(** ** Seconds *)

(** The seconds of a duration are computed with a relative error of [2 ^ -50]. *)
Definition slack : Q := bpow (-50).

Lemma Seconds_zero : Seconds (F := float64) 0 = S754_zero false.
Proof. by vm_compute. Qed.

Lemma eta_small : (3 * eta <= eps / inject_Z Second)%Q.
Proof. by vm_compute. Qed.

Lemma slack_eps : (slack == 4 * eps)%Q.
Proof. by vm_compute. Qed.

Lemma eps_small : (eps <= 1 # 1000)%Q.
Proof. by vm_compute. Qed.

(** A part of a second. *)
Lemma fraction_spec r :
  0 <= r < Second ->
  good (fdiv (F := float64) (of_int r) (of_int Second)) /\ (val (fdiv (of_int r) (of_int Second)) <= inject_Z r / inject_Z Second * (1 + eps) + eta)%Q.
Proof.
  intros Hr. destruct (Z.eq_dec r 0) as [->|Hr0].
  { split; [done|]. change (val _) with 0%Q. unfold Qdiv. change (inject_Z 0) with 0%Q. pose proof eta_pos. pose proof eps_pos. nra. }
  destruct (of_int_exact r ltac:(unfold Second in *; lia)) as (_ & Vr & (m & e & Er & Cr)); [lia|].
  destruct (of_int_exact Second ltac:(unfold Second in *; lia)) as (_ & Vs & (m' & e' & Es & Cs)); [unfold Second; lia|].
  rewrite Er, Es. rewrite Er in Vr. rewrite Es in Vs. cbn [val] in Vr, Vs. destruct (fdiv_spec m e m' e' Cr Cs) as [Hg Hv].
  { assert (e' = -23) as -> by (change (of_int Second) with (S754_finite false 8388608000000000 (-23)) in Es; congruence).
    apply Z.nlt_ge. intros Hlt. destruct Cr as (Cm & _ & _). assert (H : (1 <= mval (Zpos m) e)%Q) by (rewrite Vr; change 1%Q with (inject_Z 1); rewrite <- Zle_Qle; lia).
    assert (mval (Zpos m) e < 1)%Q; [|lra]. eapply Qlt_le_trans; [apply (mval_lt _ (2 ^ 53)); lia|]. rewrite mval_pow by lia. change 1%Q with (bpow 0). apply bpow_le. lia. }
  split; [done|]. rewrite Vr, Vs in Hv. assert (Hs : (0 < inject_Z Second)%Q) by done. apply (Qmult_le_r _ _ _ Hs).
  eapply Qle_trans; [exact Hv|]. apply Qle_lteq. right. field. discriminate.
Qed.

(** Two roundings, one after the other, of a number that is not tiny. *)
Lemma two_roundings a x t : (0 <= x -> a <= x * (1 + eps) + eta -> 3 * eta <= t -> t <= eps * x -> a * (1 + eps) + eta <= x * (1 + 4 * eps))%Q.
Proof.
  intros Hx Ha Ht Htx. pose proof eps_pos as P1. pose proof eta_pos as P2. pose proof eps_small as P3.
  assert (H1 : (a * (1 + eps) <= (x * (1 + eps) + eta) * (1 + eps))%Q) by (apply Qmult_le_compat_r; lra).
  assert (H2 : (0 <= eps * x)%Q) by (apply Qmult_le_0_compat; lra). assert (H3 : (eps * (eps * x) <= (1 # 1000) * (eps * x))%Q) by (by apply Qmult_le_compat_r).
  assert (H4 : (eta * eps <= eta * 1)%Q) by (apply Qmult_le_l; lra). lra.
Qed.

Lemma Seconds_spec d :
  0 <= d <= max_duration ->
  good (Seconds (F := float64) d) /\ (val (Seconds (F := float64) d) <= inject_Z d / inject_Z Second * (1 + slack))%Q.
Proof.
  intros Hd. destruct (Z.eq_dec d 0) as [->|Hd0]; [rewrite Seconds_zero; cbn [good val]; split; [done|by vm_compute]|].
  assert (Hq : 0 <= Z.quot d Second < 2 ^ 53) by (rewrite Z.quot_div_nonneg by (unfold Second; lia); split; [apply Z.div_pos; unfold Second; lia|apply Z.div_lt_upper_bound; unfold Second, max_duration in *; lia]).
  assert (Hr : 0 <= Z.rem d Second < Second) by (apply Z.rem_bound_pos; unfold Second; lia).
  assert (E : d = Z.quot d Second * Second + Z.rem d Second) by (rewrite Z.mul_comm; apply Z.quot_rem'; unfold Second; lia).
  unfold Seconds. set (q := Z.quot d Second) in *. set (r := Z.rem d Second) in *.
  destruct (of_int_exact q Hq) as (Gq & Vq & _). destruct (fraction_spec r Hr) as [Gf Vf].
  destruct (fadd_spec _ _ Gq Gf) as [Ga Va]. split; [done|]. eapply Qle_trans; [exact Va|]. rewrite Vq, slack_eps.
  assert (Ed : (inject_Z d / inject_Z Second == inject_Z q + inject_Z r / inject_Z Second)%Q) by (rewrite E, inject_Z_plus, inject_Z_mult; field; discriminate).
  assert (H1 : (1 / inject_Z Second <= inject_Z d / inject_Z Second)%Q).
  { apply Qmult_le_compat_r; [change 1%Q with (inject_Z 1); rewrite <- Zle_Qle; lia|by vm_compute]. }
  assert (Hq0 : (0 <= inject_Z q)%Q) by (change 0%Q with (inject_Z 0); rewrite <- Zle_Qle; lia).
  assert (Hr0 : (0 <= inject_Z r / inject_Z Second)%Q) by (apply Qmult_le_0_compat; [change 0%Q with (inject_Z 0); rewrite <- Zle_Qle; lia|by vm_compute]).
  pose proof eps_pos as P1. pose proof eta_pos as P2. pose proof eps_small as P3. pose proof eta_small as Ht.
  assert (H2 : (eps / inject_Z Second <= eps * (inject_Z d / inject_Z Second))%Q).
  { unfold Qdiv at 1. apply Qmult_le_l; [done|]. unfold Qdiv at 1 in H1. by rewrite Qmult_1_l in H1. }
  rewrite Ed in *. set (R := (inject_Z r / inject_Z Second)%Q) in *. set (V := val (fdiv _ _)) in *. set (T := (eps / inject_Z Second)%Q) in *. clearbody R V T.
  set (Q0 := inject_Z q) in *. clearbody Q0.
  apply (two_roundings (Q0 + V) (Q0 + R) T); [lra|nra|done..].
Qed.

Lemma Seconds_finite d : 0 <= d <= max_duration -> (val (Seconds (F := float64) d) < bpow 1024)%Q.
Proof.
  intros Hd. destruct (Seconds_spec d Hd) as [_ H]. eapply Qle_lt_trans; [exact H|].
  apply (Qle_lt_trans _ (inject_Z max_duration / inject_Z Second * (1 + slack))); [|by vm_compute].
  apply Qmult_le_compat_r; [|by vm_compute]. apply Qmult_le_compat_r; [rewrite <- Zle_Qle; lia|by vm_compute].
Qed.

(** ** Finite numbers that are positive, and the least of two *)

Definition positive_float (x : float64) : Prop :=
  match x with S754_finite false m e => bounded 53 1024 m e = true | _ => False end.

Lemma positive_float_good x : positive_float x -> good x /\ (0 < val x)%Q /\ (val x < bpow 1024)%Q /\ fle x (of_int 0) = false.
Proof.
  destruct x as [s|s| |[] m e]; try done. cbn [positive_float good val]. intros Hb.
  assert (Hc : canon (Zpos m) e).
  { unfold bounded, canonical_mantissa in Hb. apply andb_prop in Hb as [Hf He]. apply Z.leb_le in He. rewrite fexp_64, digits2_log2 in Hf. apply Z.eqb_eq in Hf.
    unfold fexp64 in Hf. change (1024 - 53) with 971 in He. split; [split; [lia|apply log2_bound; lia]|split; [|lia]].
    destruct (Z.eq_dec e (-1074)) as [->|Hne]; [by left|right]. apply Z.log2_le_pow2; lia. }
  split_and!; [done|by apply mval_pos|by apply canon_inf|done].
Qed.

Lemma fmin_spec x y : good x -> good y -> good (fmin x y) /\ (val (fmin x y) <= val x)%Q /\ (val (fmin x y) <= val y)%Q.
Proof.
  intros Hx Hy. assert (E : fmin x y = if flt y x then y else x) by (by destruct x, y). rewrite E. pose proof (flt_spec y x Hy Hx) as Hlt.
  destruct (flt y x) eqn:El.
  - pose proof (proj1 Hlt eq_refl). split_and!; [done|lra|apply Qle_refl].
  - split_and!; [done|apply Qle_refl|]. apply Qnot_lt_le. intros H. apply Hlt in H. congruence.
Qed.
