(* ===== verification/LimitsFacts.v ===== *)
(** * The tracker of internal/limits/limits.go

    The tracker as a transition system: its invariant, the limits it enforces,
    and the accounting of suppressed log lines. *)

From Stdlib Require Import ZArith NArith Ascii String Lia Bool List.
From stdpp Require Import base tactics list gmap strings option countable sets fin_maps.
From S2P Require Import Prelude GoStrings Netip GoFloat Limits.

Local Open Scope Z_scope.

(** ** Sums over maps *)

Section map_sum.
Context `{Countable K} {A : Type} (f : A -> Z).

Definition map_sum (m : gmap K A) : Z := map_fold (fun _ x acc => f x + acc) 0 m.

Lemma map_sum_empty : map_sum ∅ = 0.
Proof. apply map_fold_empty. Qed.

Lemma map_sum_insert_new m k x : m !! k = None -> map_sum (<[k := x]> m) = f x + map_sum m.
Proof. intros Hk. unfold map_sum. rewrite map_fold_insert_L; [done| |done]. intros. lia. Qed.

Lemma map_sum_delete m k x : m !! k = Some x -> map_sum m = f x + map_sum (delete k m).
Proof. intros Hk. rewrite <- (insert_delete_id m k x Hk) at 1. apply map_sum_insert_new, lookup_delete_eq. Qed.

Lemma map_sum_update m k x y : m !! k = Some x -> map_sum (<[k := y]> m) = map_sum m - f x + f y.
Proof.
  intros Hk. rewrite (map_sum_delete m k x Hk), <- insert_delete_eq, map_sum_insert_new by apply lookup_delete_eq. lia.
Qed.

Lemma map_sum_nonneg m : (forall k x, m !! k = Some x -> 0 <= f x) -> 0 <= map_sum m.
Proof.
  induction m as [|k x m Hk IH] using map_ind; intros Hf; [by rewrite map_sum_empty|].
  rewrite map_sum_insert_new by done. specialize (Hf k x) as Hx. rewrite lookup_insert_eq in Hx. specialize (Hx eq_refl).
  assert (0 <= map_sum m); [|lia]. apply IH. intros k' x' Hk'. apply (Hf k').
  rewrite lookup_insert_ne; [done|]. intros ->. congruence.
Qed.

Lemma map_sum_zero m : (forall k x, m !! k = Some x -> f x = 0) -> map_sum m = 0.
Proof.
  induction m as [|k x m Hk IH] using map_ind; intros Hf; [apply map_sum_empty|].
  rewrite map_sum_insert_new by done. rewrite (Hf k x) by apply lookup_insert_eq.
  rewrite IH; [done|]. intros k' x' Hk'. apply (Hf k'). rewrite lookup_insert_ne; [done|]. intros ->. congruence.
Qed.
End map_sum.

(** ** The tracker as a transition system *)

Section with_float.
Context {F : Type} `{!GoFloat F}.
Implicit Types (t : @Tracker F) (c : @client F).

Inductive label :=
| LAcquire (ip : Addr) (lim : @Client F) (maxTotal : Z) (r : result nat)
| LRelease (i : nat)
| LAllow (ip : Addr) (lim : @Client F) (ok : bool)
| LLog (ip : Addr) (action host : gostring) (ok : bool)
| LLogUnknown (ip : Addr) (ok : bool)
| LSweep (out : list Suppressed).

Inductive step t (now : Z) : label -> @Tracker F -> Prop :=
| step_acquire ip lim m t' r : Acquire t now ip lim m = (t', r) -> step t now (LAcquire ip lim m r) t'
| step_release i : step t now (LRelease i) (release t now i)
| step_allow ip lim t' ok : Allow t now ip lim = (t', ok) -> step t now (LAllow ip lim ok) t'
| step_log ip action host t' ok : Log t now ip action host = (t', ok) -> step t now (LLog ip action host ok) t'
| step_log_unknown ip t' ok : LogUnknown t now ip = (t', ok) -> step t now (LLogUnknown ip ok) t'
| step_sweep cs os t' out :
    cs ≡ₚ map_to_list (clients t) -> os ≡ₚ map_to_list (overflow t) ->
    Sweep t now cs os = (t', out) -> step t now (LSweep out) t'.

(** The runs of a fresh tracker: the operations in the order in which they
    got the mutex, and the state they lead to. *)
Inductive run : list (Z * label) -> @Tracker F -> Prop :=
| run_nil : run [] NewTracker
| run_snoc tr t now l t' : run tr t -> step t now l t' -> run (tr ++ [(now, l)]) t'.

(** ** The invariant *)

(** Where an entry is registered: under an address or under a network. *)
Definition registered t (k : Addr + Prefix) (l : nat) : Prop :=
  match k with inl ip => clients t !! ip = Some l | inr p => overflow t !! p = Some l end.

Definition is_live (l : nat) (r : nat * bool) : bool := bool_decide (r = (l, false)).
(** Connections open on entry [l], and in all. *)
Definition live_on (rs : list (nat * bool)) (l : nat) : Z := Z.of_nat (length (List.filter (is_live l) rs)).
Definition live (rs : list (nat * bool)) : Z := Z.of_nat (length (List.filter (fun r => negb (snd r)) rs)).

Definition wf_client c : Prop :=
  (size (suppressed c) <= maxSuppressedKeys)%nat /\ 0 <= other c /\
  forall k n, suppressed c !! k = Some n -> 0 < n.

(** Suppressed lines an entry has counted and not reported yet. *)
Definition weight c : Z := map_sum (fun n => n) (suppressed c) + other c.

Record tracker_inv t : Prop := {
  inv_registered : forall k l, registered t k l -> is_Some (heap t !! l);
  inv_owner : forall k k' l, registered t k l -> registered t k' l -> k = k';
  inv_conns : forall l c, heap t !! l = Some c -> conns c = live_on (releases t) l;
  inv_total : total t = live (releases t);
  inv_live : forall l, (l, false) ∈ releases t -> exists k, registered t k l;
  inv_bound : Z.of_nat (size (clients t)) <= maxClients;
  inv_entries : forall l c, heap t !! l = Some c -> wf_client c;
  inv_unknown : wf_client (unknown t);
  inv_forgotten : forall l c, heap t !! l = Some c -> (exists k, registered t k l) \/ weight c = 0
}.

Lemma wf_client_zero : wf_client client_zero.
Proof. split_and!; simpl; [rewrite map_size_empty; lia|lia|]. intros k n. by rewrite lookup_empty. Qed.

Lemma weight_zero : weight client_zero = 0.
Proof. unfold weight. simpl. by rewrite map_sum_empty. Qed.

Lemma the_entry_lookup t l c : heap t !! l = Some c -> the_entry t l = c.
Proof. unfold the_entry. by intros ->. Qed.

Lemma tracker_inv_new : tracker_inv NewTracker.
Proof.
  constructor; simpl; try done.
  - by intros [ip|p] l; simpl; rewrite lookup_empty.
  - by intros [ip|p] k' l; simpl; rewrite lookup_empty.
  - intros l Hl. by apply not_elem_of_nil in Hl.
  - apply wf_client_zero.
Qed.

(** Changing an entry in place. *)
Lemma set_entry_inv t l c c' :
  tracker_inv t -> heap t !! l = Some c -> conns c' = conns c -> wf_client c' ->
  (exists k, registered t k l) \/ weight c' = 0 -> tracker_inv (set_entry t l c').
Proof.
  intros [Hreg Hown Hconns Htot Hlive Hb He Hu Hf] Hl Hc Hwf Hk. constructor; simpl; try done.
  - intros k l' Hr. destruct (decide (l' = l)) as [->|Hne]; [by rewrite lookup_insert_eq|].
    rewrite lookup_insert_ne by done. by eapply Hreg.
  - intros l' x. destruct (decide (l' = l)) as [->|Hne].
    + rewrite lookup_insert_eq. intros [= <-]. rewrite Hc. by apply Hconns.
    + rewrite lookup_insert_ne by done. apply Hconns.
  - intros l' x. destruct (decide (l' = l)) as [->|Hne].
    + rewrite lookup_insert_eq. by intros [= <-].
    + rewrite lookup_insert_ne by done. apply He.
  - intros l' x. destruct (decide (l' = l)) as [->|Hne].
    + rewrite lookup_insert_eq. by intros [= <-].
    + rewrite lookup_insert_ne by done. apply Hf.
Qed.

Lemma alloc_fresh t : heap t !! alloc t = None.
Proof. apply not_elem_of_dom, is_fresh. Qed.

(** Creating an entry under a key that is not registered yet. *)
Definition register t (k : Addr + Prefix) : @Tracker F :=
  let l := alloc t in
  match k with
  | inl ip => mkTracker (<[l := client_zero]> (heap t)) (<[ip := l]> (clients t)) (overflow t) (unknown t) (total t) (releases t)
  | inr p => mkTracker (<[l := client_zero]> (heap t)) (clients t) (<[p := l]> (overflow t)) (unknown t) (total t) (releases t)
  end.

Lemma registered_register t k k' l :
  (forall l, ~ registered t k l) ->
  registered (register t k) k' l <-> (k' = k /\ l = alloc t) \/ registered t k' l.
Proof.
  intros Hk. destruct k as [ip|p], k' as [ip'|p']; simpl in *; try (split; [tauto|by intros [[? _]|?]]).
  - destruct (decide (ip' = ip)) as [->|Hne].
    + rewrite lookup_insert_eq. split; [intros [= <-]; auto|]. intros [[_ ->]|H]; [done|by apply Hk in H].
    + rewrite lookup_insert_ne by done. split; [tauto|]. intros [[[=] _]|?]; [|done]. congruence.
  - destruct (decide (p' = p)) as [->|Hne].
    + rewrite lookup_insert_eq. split; [intros [= <-]; auto|]. intros [[_ ->]|H]; [done|by apply Hk in H].
    + rewrite lookup_insert_ne by done. split; [tauto|]. intros [[[=] _]|?]; [|done]. congruence.
Qed.

Lemma live_on_zero rs l : (forall x, x ∈ rs -> x <> (l, false)) -> live_on rs l = 0.
Proof.
  intros H. unfold live_on. replace (List.filter (is_live l) rs) with (@nil (nat * bool)); [done|]. symmetry.
  induction rs as [|r rs IH]; [done|]. simpl. unfold is_live at 1. rewrite bool_decide_false by (apply H; left).
  apply IH. intros x Hx. apply H. by right.
Qed.

Lemma register_inv t k :
  tracker_inv t -> (forall l, ~ registered t k l) ->
  (match k with inl _ => Z.of_nat (size (clients t)) < maxClients | inr _ => True end) -> tracker_inv (register t k).
Proof.
  intros [Hreg Hown Hconns Htot Hlive Hb He Hu Hf] Hk Hsize.
  pose proof (alloc_fresh t) as Hfresh. pose proof (fun k' l => registered_register t k k' l Hk) as Hiff.
  assert (Hheap : heap (register t k) = <[alloc t := client_zero]> (heap t)) by (by destruct k).
  assert (Hrel : releases (register t k) = releases t) by (by destruct k).
  assert (Hnew : forall k' l, registered t k' l -> l <> alloc t).
  { intros k' l Hr ->. apply Hreg in Hr as [? ?]. congruence. }
  constructor; rewrite ?Hheap, ?Hrel.
  - intros k' l [[-> ->]|Hr]%Hiff; [by rewrite lookup_insert_eq|]. rewrite lookup_insert_ne by (apply not_eq_sym; eauto). eauto.
  - intros k1 k2 l [[-> ->]|H1]%Hiff [[-> H2]|H2]%Hiff; [done| | |by eapply Hown].
    + by destruct (Hnew _ _ H2).
    + by destruct (Hnew _ _ H1).
  - intros l c. destruct (decide (l = alloc t)) as [->|Hne].
    + rewrite lookup_insert_eq. intros [= <-]. simpl. symmetry. apply live_on_zero. intros x Hx ->.
      apply Hlive in Hx as [k' Hr]. by destruct (Hnew _ _ Hr).
    + rewrite lookup_insert_ne by done. apply Hconns.
  - by destruct k.
  - intros l Hl. destruct (Hlive l Hl) as [k' Hr]. exists k'. apply Hiff. by right.
  - destruct k as [ip|p]; simpl; [|done]. rewrite map_size_insert_None; [lia|].
    destruct (clients t !! ip) eqn:E; [|done]. by destruct (Hk n).
  - intros l c. destruct (decide (l = alloc t)) as [->|Hne].
    + rewrite lookup_insert_eq. intros [= <-]. apply wf_client_zero.
    + rewrite lookup_insert_ne by done. apply He.
  - by destruct k.
  - intros l c. destruct (decide (l = alloc t)) as [->|Hne].
    + rewrite lookup_insert_eq. intros [= <-]. right. apply weight_zero.
    + rewrite lookup_insert_ne by done. intros [[k' Hr]|Hw]%Hf; [|by right]. left. exists k'. apply Hiff. by right.
Qed.

(** The entry that [get] finds or creates, before [seen] is set. *)
Lemma get_cases t ip now t' l :
  tracker_inv t -> get t ip now = (t', l) ->
  exists t0 k, t' = set_entry t0 l (set_seen (the_entry t0 l) now) /\ tracker_inv t0 /\ registered t0 k l /\
    (t0 = t \/ (t0 = register t k /\ l = alloc t)).
Proof.
  intros Hinv. unfold get. destruct (clients t !! ip) as [l0|] eqn:E.
  { intros [= <- <-]. exists t, (inl ip). eauto. }
  destruct (Z.ltb_spec (Z.of_nat (size (clients t))) maxClients) as [Hlt|Hge].
  - intros [= <- <-]. assert (Hno : forall l, ~ registered t (inl ip) l) by (simpl; intros; congruence).
    exists (register t (inl ip)), (inl ip). split_and!; [done|by apply register_inv| |by right].
    apply registered_register; auto.
  - destruct (overflow t !! overflowPrefix ip) as [l0|] eqn:E'.
    { intros [= <- <-]. exists t, (inr (overflowPrefix ip)). eauto. }
    intros [= <- <-]. assert (Hno : forall l, ~ registered t (inr (overflowPrefix ip)) l) by (simpl; intros; congruence).
    exists (register t (inr (overflowPrefix ip))), (inr (overflowPrefix ip)). split_and!; [done|by apply register_inv| |by right].
    apply registered_register; auto.
Qed.

(** What [get] leaves unchanged, and what it promises about the entry. *)
Record got t t' (l : nat) (c : @client F) : Prop := {
  got_inv : tracker_inv t';
  got_registered : exists k, registered t' k l;
  got_entry : heap t' !! l = Some c;
  got_total : total t' = total t;
  got_releases : releases t' = releases t;
  got_unknown : unknown t' = unknown t;
  got_old : l ∈ dom (heap t) \/ (conns c = 0 /\ weight c = 0);
  got_others : forall l', l' <> l -> heap t' !! l' = heap t !! l';
  got_kept : forall c0, heap t !! l = Some c0 -> c = set_seen c0 (seen c);
  got_new : heap t !! l = None -> c = set_seen client_zero (seen c)
}.

(** Well-formedness is about the counted lines only. *)
Lemma wf_client_ext c c' : suppressed c' = suppressed c -> other c' = other c -> wf_client c -> wf_client c'.
Proof. unfold wf_client. by intros -> ->. Qed.

Lemma inv_entry_ext t l c c' :
  tracker_inv t -> heap t !! l = Some c -> suppressed c' = suppressed c -> other c' = other c -> wf_client c'.
Proof. intros Hinv Hc Hs Ho. eapply wf_client_ext; [done..|]. by eapply (inv_entries _ Hinv). Qed.

Lemma registered_set_entry t l c k l' : registered (set_entry t l c) k l' <-> registered t k l'.
Proof. by destruct k. Qed.

Lemma get_spec t ip now t' l : tracker_inv t -> get t ip now = (t', l) -> got t t' l (the_entry t' l).
Proof.
  intros Hinv (t0 & k & -> & Hinv0 & Hreg & Hcase)%get_cases; [|done].
  destruct (inv_registered _ Hinv0 _ _ Hreg) as [c Hc].
  assert (Hentry : heap (set_entry t0 l (set_seen (the_entry t0 l) now)) !! l = Some (set_seen c now)).
  { simpl. by rewrite lookup_insert_eq, (the_entry_lookup _ _ _ Hc). }
  rewrite (the_entry_lookup _ _ _ Hentry). rewrite (the_entry_lookup _ _ _ Hc) in *.
  assert (Hsame : heap t0 = heap t /\ is_Some (heap t !! l) \/ (heap t0 = <[l := client_zero]> (heap t) /\ heap t !! l = None)).
  { destruct Hcase as [->|[-> ->]]; [left; by split|right]. split; [by destruct k|apply alloc_fresh]. }
  assert (Hfields : total t0 = total t /\ releases t0 = releases t /\ unknown t0 = unknown t).
  { destruct Hcase as [->|[-> _]]; [done|by destruct k]. }
  destruct Hfields as (Ht & Hr & Hu).
  constructor; simpl; try done.
  - eapply set_entry_inv; [done|exact Hc|done| |by eauto]. by eapply (inv_entry_ext t0).
  - by exists k.
  - destruct Hsame as [[_ Hs]|[Hs _]]; [left; by apply elem_of_dom|right].
    rewrite Hs, lookup_insert_eq in Hc. injection Hc as <-. split; [done|apply weight_zero].
  - intros l' Hne. rewrite lookup_insert_ne by done. destruct Hsame as [[-> _]|[-> _]]; [done|]. by rewrite lookup_insert_ne.
  - intros c0 Hc0. destruct Hsame as [[Hs _]|[_ Hs]]; congruence.
  - intros Hnone. destruct Hsame as [[_ [? ?]]|[Hs _]]; [congruence|]. rewrite Hs, lookup_insert_eq in Hc. by injection Hc as <-.
Qed.

(** Sums over all entries, for measures that [seen] does not affect. *)
Lemma got_sum (f : client -> Z) t t' l c :
  (forall c now, f (set_seen c now) = f c) -> f client_zero = 0 -> got t t' l c ->
  map_sum f (heap t') = map_sum f (heap t).
Proof.
  intros Hf H0 [_ _ He _ _ _ _ Ho Hk Hn].
  assert (E : heap t' = <[l := c]> (heap t)).
  { apply map_eq. intros l'. destruct (decide (l' = l)) as [->|Hne]; [by rewrite lookup_insert_eq|].
    rewrite lookup_insert_ne by done. by apply Ho. }
  rewrite E. destruct (heap t !! l) as [c0|] eqn:El.
  - rewrite (map_sum_update _ _ _ c0) by done. rewrite (Hk c0 eq_refl), Hf. lia.
  - rewrite map_sum_insert_new by done. rewrite (Hn eq_refl), Hf, H0. lia.
Qed.

(** ** Counting open connections *)

Definition b2z (b : bool) : Z := if b then 1 else 0.

Lemma live_on_cons r rs l : live_on (r :: rs) l = b2z (is_live l r) + live_on rs l.
Proof. unfold live_on. simpl. destruct (is_live l r); simpl; lia. Qed.

Lemma live_cons r rs : live (r :: rs) = b2z (negb (snd r)) + live rs.
Proof. unfold live. simpl. destruct (negb (snd r)); simpl; lia. Qed.

Lemma live_on_snoc rs l l' : live_on (rs ++ [(l, false)]) l' = live_on rs l' + b2z (bool_decide (l' = l)).
Proof.
  induction rs as [|r rs IH]; cbn [app]; rewrite ?live_on_cons; [|rewrite IH; lia].
  change (live_on [] l') with 0. unfold is_live. repeat case_bool_decide; simplify_eq; done.
Qed.

Lemma live_snoc rs l : live (rs ++ [(l, false)]) = live rs + 1.
Proof. induction rs as [|r rs IH]; cbn [app]; rewrite ?live_cons; [done|]. rewrite IH. lia. Qed.

Lemma live_on_release rs i l l' :
  rs !! i = Some (l, false) -> live_on (<[i := (l, true)]> rs) l' = live_on rs l' - b2z (bool_decide (l' = l)).
Proof.
  revert i. induction rs as [|r rs IH]; intros [|i]; [done..| |].
  - intros [= ->]. cbn [insert list_insert]. rewrite !live_on_cons. unfold is_live.
    repeat case_bool_decide; simplify_eq; simpl; lia.
  - intros Hi. change (<[S i := (l, true)]> (r :: rs)) with (r :: <[i := (l, true)]> rs).
    rewrite !live_on_cons, IH by done. lia.
Qed.

Lemma live_release rs i l : rs !! i = Some (l, false) -> live (<[i := (l, true)]> rs) = live rs - 1.
Proof.
  revert i. induction rs as [|r rs IH]; intros [|i]; [done..| |].
  - intros [= ->]. cbn [insert list_insert]. rewrite !live_cons. simpl. lia.
  - intros Hi. change (<[S i := (l, true)]> (r :: rs)) with (r :: <[i := (l, true)]> rs).
    rewrite !live_cons, IH by done. lia.
Qed.

Lemma live_on_nonneg rs l : 0 <= live_on rs l.
Proof. unfold live_on. lia. Qed.

Lemma live_on_pos rs l : (l, false) ∈ rs -> 0 < live_on rs l.
Proof.
  induction rs as [|r rs IH]; [by intros Hl%not_elem_of_nil|]. rewrite live_on_cons. pose proof (live_on_nonneg rs l).
  intros [<-|Hl]%elem_of_cons.
  - unfold is_live. rewrite bool_decide_true by done. simpl. lia.
  - specialize (IH Hl). unfold b2z. destruct (is_live l r); lia.
Qed.

(** ** Every operation preserves the invariant *)

(** Changing the number of connections of an entry together with the list of
    release functions. *)
Lemma set_conns_inv t l c c' rs d :
  tracker_inv t -> heap t !! l = Some c -> (exists k, registered t k l) ->
  conns c' = conns c + d -> wf_client c' ->
  (forall l', live_on rs l' = live_on (releases t) l' + d * b2z (bool_decide (l' = l))) -> live rs = live (releases t) + d ->
  (forall l', (l', false) ∈ rs -> (l', false) ∈ releases t \/ l' = l) ->
  tracker_inv (mkTracker (<[l := c']> (heap t)) (clients t) (overflow t) (unknown t) (total t + d) rs).
Proof.
  intros [Hreg Hown Hconns Htot Hlive Hb He Hu Hf] Hl Hk Hc Hwf Hon Hall Hin.
  assert (Hsame : forall k l', registered (mkTracker (<[l := c']> (heap t)) (clients t) (overflow t) (unknown t) (total t + d) rs) k l'
                    <-> registered t k l') by (by intros []).
  constructor; cbn [heap clients overflow unknown total releases]; try done.
  - intros k l' Hr%Hsame. destruct (decide (l' = l)) as [->|Hne]; [by rewrite lookup_insert_eq|].
    rewrite lookup_insert_ne by done. by eapply Hreg.
  - intros l' x. rewrite Hon. destruct (decide (l' = l)) as [->|Hne].
    + rewrite lookup_insert_eq, bool_decide_true by done. intros [= <-]. rewrite Hc, (Hconns l c Hl). simpl. lia.
    + rewrite lookup_insert_ne, bool_decide_false by done. intros Hx. rewrite (Hconns _ _ Hx). simpl. lia.
  - lia.
  - intros l' Hl'. setoid_rewrite Hsame. destruct (Hin l' Hl') as [?| ->]; [by apply Hlive|done].
  - intros l' x. destruct (decide (l' = l)) as [->|Hne].
    + rewrite lookup_insert_eq. by intros [= <-].
    + rewrite lookup_insert_ne by done. apply He.
  - intros l' x. setoid_rewrite Hsame. destruct (decide (l' = l)) as [->|Hne].
    + rewrite lookup_insert_eq. intros _. by left.
    + rewrite lookup_insert_ne by done. apply Hf.
Qed.

Lemma Acquire_inv t now ip lim m t' r : tracker_inv t -> Acquire t now ip lim m = (t', r) -> tracker_inv t'.
Proof.
  intros Hinv. unfold Acquire. destruct (_ && _); [by intros [= <- _]|].
  destruct (get t ip now) as [t1 l] eqn:Eg. apply get_spec in Eg as [Hinv1 Hk He _ _ _ _ _ _ _]; [|done].
  destruct (_ && _); intros [= <- _]; [done|].
  eapply set_conns_inv; [done|exact He|done|done|by eapply (inv_entry_ext t1)| | |].
  - intros l'. rewrite live_on_snoc. simpl. lia.
  - apply live_snoc.
  - intros l' [?|[= ->]%list_elem_of_singleton]%elem_of_app; auto.
Qed.

Lemma release_inv t now i : tracker_inv t -> tracker_inv (release t now i).
Proof.
  intros Hinv. unfold release. destruct (releases t !! i) as [[l []]|] eqn:Ei; [done| |done].
  destruct (inv_live _ Hinv l) as [k Hk]; [by eapply list_elem_of_lookup_2|].
  destruct (inv_registered _ Hinv _ _ Hk) as [c Hc]. rewrite (the_entry_lookup _ _ _ Hc).
  eapply (set_conns_inv t l c _ _ (-1)); [done|exact Hc|by eauto|done|by eapply (inv_entry_ext t)| | |].
  - intros l'. rewrite live_on_release by done. simpl. lia.
  - rewrite (live_release _ _ l) by done. simpl. lia.
  - intros l' Hin. left. apply list_elem_of_lookup in Hin as [j Hj]. simpl in Hj.
    destruct (decide (j = i)) as [->|Hne].
    + rewrite list_lookup_insert_eq in Hj by (by eapply lookup_lt_Some). done.
    + rewrite list_lookup_insert_ne in Hj by done. by eapply list_elem_of_lookup_2.
Qed.

Lemma Allow_inv t now ip lim t' ok : tracker_inv t -> Allow t now ip lim = (t', ok) -> tracker_inv t'.
Proof.
  intros Hinv. unfold Allow. destruct (get t ip now) as [t1 l] eqn:Eg.
  apply get_spec in Eg as [Hinv1 Hk He _ _ _ _ _ _ _]; [|done].
  destruct (take _ _ _ _) as [b o]. intros [= <- <-].
  eapply set_entry_inv; [done|exact He|done|by eapply (inv_entry_ext t1)|by left].
Qed.

(** ** Log lines *)

Lemma map_sum_succ (m : gmap SuppressedKey Z) k :
  map_sum (fun n => n) (<[k := default 0 (m !! k) + 1]> m) = map_sum (fun n => n) m + 1.
Proof.
  destruct (m !! k) as [n|] eqn:E; simpl.
  - rewrite (map_sum_update _ _ _ n) by done. lia.
  - rewrite map_sum_insert_new by done. lia.
Qed.

(** A line is either written or counted, and counting stays bounded. *)
Lemma log_spec c now k c' ok :
  log c now k = (c', ok) -> wf_client c ->
  wf_client c' /\ conns c' = conns c /\ seen c' = seen c /\ requests c' = requests c /\ weight c' = weight c + b2z (negb ok).
Proof.
  unfold log. destruct (take _ _ _ _) as [b o]. cbn [suppressed other conns seen requests]. intros H (Hsize & Hother & Hpos).
  destruct o.
  { injection H as <- <-. split_and!; [by split_and!|done..|]. unfold weight. simpl. lia. }
  destruct (_ || _) eqn:E; injection H as <- <-; unfold weight; cbn [suppressed other b2z negb]; split_and!; try done.
  - split_and!; [|done|]; cbn [suppressed].
    + destruct (suppressed c !! k) as [n|] eqn:Ek; [by rewrite map_size_insert_Some|].
      rewrite map_size_insert_None by done. rewrite bool_decide_false in E by (by intros [? ?]). simpl in E.
      apply Nat.ltb_lt in E. lia.
    + intros k' n. destruct (decide (k' = k)) as [->|Hne]; [|rewrite lookup_insert_ne by done; apply Hpos].
      rewrite lookup_insert_eq. intros [= <-]. destruct (suppressed c !! k) as [n|] eqn:Ek; simpl; [|lia].
      apply Hpos in Ek. lia.
  - rewrite map_sum_succ. lia.
  - split_and!; [done| |done]. cbn [other]. lia.
  - lia.
Qed.

Lemma Log_inv t now ip action host t' ok :
  tracker_inv t -> Log t now ip action host = (t', ok) ->
  tracker_inv t' /\ map_sum weight (heap t') = map_sum weight (heap t) + b2z (negb ok) /\ unknown t' = unknown t.
Proof.
  intros Hinv. unfold Log. destruct (get t ip now) as [t1 l] eqn:Eg. apply get_spec in Eg; [|done].
  pose proof (got_sum weight _ _ _ _ (fun _ _ => eq_refl) weight_zero Eg) as Hsum.
  destruct Eg as [Hinv1 Hk He _ _ Hu _ _ _ _]. destruct (log _ _ _) as [c o] eqn:El. intros [= <- <-].
  apply log_spec in El as (Hwf & Hc & _ & _ & Hw); [|by eapply (inv_entries _ Hinv1)]. split_and!; [|simpl|done].
  - eapply set_entry_inv; [done|exact He|done|done|by left].
  - rewrite (map_sum_update _ _ _ (the_entry t1 l)) by done. lia.
Qed.

Lemma LogUnknown_inv t now ip t' ok :
  tracker_inv t -> LogUnknown t now ip = (t', ok) ->
  tracker_inv t' /\ heap t' = heap t /\ weight (unknown t') = weight (unknown t) + b2z (negb ok).
Proof.
  intros Hinv. unfold LogUnknown. destruct (log _ _ _) as [c o] eqn:El. intros [= <- <-].
  apply log_spec in El as (Hwf & Hc & _ & _ & Hw); [|apply (inv_unknown _ Hinv)]. split_and!; [|done|done].
  destruct Hinv as [Hreg Hown Hconns Htot Hlive Hb He Hu Hf]. by constructor.
Qed.

(** ** Sweeping *)

(** Lines in a report. *)
Definition reported (out : list Suppressed) : Z :=
  foldr (fun s acc => map_sum (fun n => n) (s_Counts s) + s_Other s + acc) 0 out.

Lemma reported_app o1 o2 : reported (o1 ++ o2) = reported o1 + reported o2.
Proof. unfold reported. induction o1 as [|s o1 IH]; simpl; [lia|]. rewrite IH. lia. Qed.

(** [take_summary] resets the counts and reports them. *)
Definition reset_of c c' : Prop :=
  conns c' = conns c /\ seen c' = seen c /\ requests c' = requests c /\ logs c' = logs c.

Lemma take_summary_spec c s c' o :
  take_summary c s = (c', o) -> wf_client c ->
  wf_client c' /\ weight c' = 0 /\ reported o = weight c /\ reset_of c c'.
Proof.
  unfold take_summary, reset_of. intros H (Hsize & Hother & Hpos).
  destruct (_ || _) eqn:E; injection H as <- <-.
  - split_and!; try done.
    + split_and!; simpl; [rewrite map_size_empty; lia|lia|]. intros k n. by rewrite lookup_empty.
    + unfold weight, reported. simpl. lia.
  - apply orb_false_iff in E as [E1 E2]. apply Nat.ltb_ge in E1. apply Z.ltb_ge in E2.
    assert (E : suppressed c = ∅) by (apply map_size_empty_iff; lia).
    assert (Hw : weight c = 0) by (unfold weight; rewrite E, map_sum_empty; lia). by rewrite Hw.
Qed.

Definition unregister t (k : Addr + Prefix) : @Tracker F :=
  match k with
  | inl ip => mkTracker (heap t) (delete ip (clients t)) (overflow t) (unknown t) (total t) (releases t)
  | inr p => mkTracker (heap t) (clients t) (delete p (overflow t)) (unknown t) (total t) (releases t)
  end.

Lemma registered_unregister t k k' l : registered (unregister t k) k' l <-> k' <> k /\ registered t k' l.
Proof.
  destruct k as [ip|p], k' as [ip'|p']; simpl; rewrite ?lookup_delete_Some; try (split; [|tauto]; intros; split; [congruence|done]).
  all: split; intros [Hne H]; split; congruence.
Qed.

Lemma unregister_inv t k l c :
  tracker_inv t -> registered t k l -> heap t !! l = Some c -> conns c = 0 -> weight c = 0 -> tracker_inv (unregister t k).
Proof.
  intros [Hreg Hown Hconns Htot Hlive Hb He Hu Hf] Hk Hc H0 Hw.
  assert (Hheap : heap (unregister t k) = heap t) by (by destruct k).
  assert (Hrel : releases (unregister t k) = releases t) by (by destruct k).
  constructor; rewrite ?Hheap, ?Hrel; try done; try (by destruct k).
  - intros k' l' [_ Hr]%registered_unregister. by eapply Hreg.
  - intros k1 k2 l' [_ H1]%registered_unregister [_ H2]%registered_unregister. by eapply Hown.
  - intros l' Hl'. destruct (Hlive l' Hl') as [k' Hr]. exists k'. apply registered_unregister. split; [|done].
    intros ->. assert (l' = l) as -> by (destruct k; simpl in *; congruence).
    rewrite (Hconns l c Hc) in H0. apply live_on_pos in Hl'. lia.
  - destruct k as [ip|p]; cbn [unregister clients]; [|done]. rewrite map_size_delete. destruct (clients t !! ip); unfold id; lia.
  - intros l' c' Hc'. destruct (Hf l' c' Hc') as [[k' Hr]|?]; [|by right].
    destruct (decide (k' = k)) as [->|Hne]; [right|left; exists k'; by apply registered_unregister].
    assert (l' = l) as -> by (destruct k; simpl in *; congruence). congruence.
Qed.

(** One round of either loop of [Sweep]. *)
Definition key_header (k : Addr + Prefix) : Suppressed :=
  match k with inl ip => mkSuppressed ip Prefix_zero false ∅ 0 | inr p => mkSuppressed AddrZero p false ∅ 0 end.
Definition sweep_step (now : Z) (st : @Tracker F * list Suppressed) (e : (Addr + Prefix) * nat) : @Tracker F * list Suppressed :=
  let '(c, o) := take_summary (the_entry (fst st) (snd e)) (key_header (fst e)) in
  let t := set_entry (fst st) (snd e) c in
  ((if idle c now then unregister t (fst e) else t), snd st ++ o).

Lemma sweep_loops t now cs os :
  fold_left (sweep_overflow now) os (fold_left (sweep_client now) cs (t, [])) =
  fold_left (sweep_step now) (((fun e => (inl (fst e), snd e)) <$> cs) ++ ((fun e => (inr (fst e), snd e)) <$> os)) (t, []).
Proof.
  rewrite fold_left_app. generalize (@nil Suppressed). revert t. induction cs as [|[ip l] cs IH]; intros t out; simpl.
  - revert t out. induction os as [|[p l] os IH]; intros t out; simpl; [done|].
    unfold sweep_step at 2. simpl. destruct (take_summary _ _) as [c o]. destruct (idle c now); apply IH.
  - unfold sweep_step at 3. simpl. destruct (take_summary _ _) as [c o]. destruct (idle c now); apply IH.
Qed.

(** What a round does to an entry: nothing but resetting its counts. *)
Lemma sweep_step_spec now t out k l c :
  tracker_inv t -> registered t k l -> heap t !! l = Some c ->
  exists t' o c', sweep_step now (t, out) (k, l) = (t', out ++ o) /\ tracker_inv t' /\
    heap t' = <[l := c']> (heap t) /\ weight c' = 0 /\ reset_of c c' /\ reported o = weight c /\
    total t' = total t /\ releases t' = releases t /\ unknown t' = unknown t /\
    (forall k' l', registered t' k' l' <-> registered t k' l' /\ ~ (k' = k /\ idle c now = true)).
Proof.
  intros Hinv Hk Hc. unfold sweep_step. cbn [fst snd]. rewrite (the_entry_lookup _ _ _ Hc).
  destruct (take_summary c (key_header k)) as [c' o] eqn:Et.
  apply take_summary_spec in Et as (Hwf & Hw & Ho & Hr); [|by eapply (inv_entries _ Hinv)].
  assert (Hidle : idle c' now = idle c now) by (destruct Hr as (E1 & E2 & _); unfold idle; by rewrite E1, E2).
  assert (Hinv1 : tracker_inv (set_entry t l c')) by (eapply set_entry_inv; [done|exact Hc|apply Hr|done|by right]).
  rewrite Hidle. destruct (idle c now) eqn:Ei.
  - exists (unregister (set_entry t l c') k), o, c'.
    assert (Hfields : heap (unregister (set_entry t l c') k) = <[l := c']> (heap t) /\
      total (unregister (set_entry t l c') k) = total t /\ releases (unregister (set_entry t l c') k) = releases t /\
      unknown (unregister (set_entry t l c') k) = unknown t) by (by destruct k).
    destruct Hfields as (Hh & Ht & Hrl & Hu). split_and!; try done.
    + eapply unregister_inv; [done|by apply registered_set_entry|simpl; by rewrite lookup_insert_eq| |done].
      unfold idle in Ei. destruct Hr as (-> & _). apply andb_true_iff in Ei as [Ei _]. by apply Z.eqb_eq.
    + intros k' l'. rewrite registered_unregister, registered_set_entry. tauto.
  - exists (set_entry t l c'), o, c'. split_and!; try done. intros k' l'. rewrite registered_set_entry.
    split; [|tauto]. intros H. split; [done|]. by intros [_ ?].
Qed.

(** The whole loop, for keys that are registered and pairwise different. *)
Lemma sweep_fold now ks t out :
  tracker_inv t -> NoDup (fst <$> ks) -> (forall k l, (k, l) ∈ ks -> registered t k l) ->
  exists t' o, fold_left (sweep_step now) ks (t, out) = (t', out ++ o) /\ tracker_inv t' /\
    reported o + map_sum weight (heap t') = map_sum weight (heap t) /\
    total t' = total t /\ releases t' = releases t /\ unknown t' = unknown t /\
    (forall l, heap t' !! l = None <-> heap t !! l = None) /\
    (forall l c c', heap t !! l = Some c -> heap t' !! l = Some c' ->
       reset_of c c' /\ (weight c = 0 \/ (exists k, (k, l) ∈ ks) -> weight c' = 0)) /\
    (forall k l, registered t' k l <-> registered t k l /\ ~ ((k, l) ∈ ks /\ idle (the_entry t l) now = true)).
Proof.
  revert t out. induction ks as [|[k l] ks IH]; intros t out Hinv Hnd Hks.
  { exists t, []. rewrite app_nil_r. simpl. split_and!; try done.
    - intros l c c' Hc Hc'. assert (c' = c) as -> by congruence. split; [done|]. intros [?|[k Hk]]; [done|]. by apply not_elem_of_nil in Hk.
    - intros k l. rewrite elem_of_nil. tauto. }
  simpl in Hnd. apply NoDup_cons in Hnd as [Hnotin Hnd].
  assert (Hk : registered t k l) by (apply Hks; left).
  destruct (inv_registered _ Hinv _ _ Hk) as [c Hc].
  destruct (sweep_step_spec now t out k l c Hinv Hk Hc) as (t1 & o1 & c1 & Hstep & Hinv1 & Hh & Hw1 & Hr1 & Ho1 & Ht & Hrl & Hu & Hreg).
  assert (Hne : forall k' l', (k', l') ∈ ks -> k' <> k).
  { intros k' l' Hin ->. apply Hnotin, list_elem_of_fmap. by exists (k, l'). }
  destruct (IH t1 (out ++ o1) Hinv1 Hnd) as (t' & o & Hfold & Hinv' & Hsum & Ht' & Hrl' & Hu' & Hnone & Hentry & Hreg').
  { intros k' l' Hin. apply Hreg. split; [apply Hks; by right|]. intros [E _]. by eapply Hne. }
  exists t', (o1 ++ o). cbn [fold_left]. rewrite Hstep, Hfold, app_assoc. split_and!; try done; try congruence.
  - rewrite reported_app. rewrite Hh, (map_sum_update _ _ _ c) in Hsum by done. lia.
  - intros l'. rewrite Hnone, Hh. destruct (decide (l' = l)) as [->|Hl']; [rewrite lookup_insert_eq; by rewrite Hc|].
    by rewrite lookup_insert_ne.
  - intros l' x x' Hx Hx'. destruct (decide (l' = l)) as [->|Hl'].
    + assert (x = c) as -> by congruence. destruct (Hentry l c1 x') as [Hr Hz]; [rewrite Hh; apply lookup_insert_eq|done|].
      split; [|intros _; apply Hz; by left]. unfold reset_of in *. destruct Hr1 as (-> & -> & -> & ->) in Hr. exact Hr.
    + destruct (Hentry l' x x') as [Hr Hz]; [by rewrite Hh, lookup_insert_ne|done|]. split; [done|].
      intros [?|[k' [[= -> ->]|Hin]%elem_of_cons]]; [apply Hz; by left|done|apply Hz; right; eauto].
  - intros k' l'. rewrite Hreg', Hreg, elem_of_cons.
    assert (Hsame : registered t k' l' -> k' <> k -> the_entry t1 l' = the_entry t l').
    { intros Hr' Hk'. unfold the_entry. rewrite Hh, lookup_insert_ne; [done|]. intros ->. apply Hk'. by eapply (inv_owner _ Hinv). }
    split.
    + intros [[Hr' Hn1] Hn2]. split; [done|]. intros [[[= -> ->]|Hin] Hi].
      * apply Hn1. split; [done|]. by rewrite (the_entry_lookup _ _ _ Hc) in Hi.
      * apply Hn2. split; [done|]. rewrite Hsame; [done..|]. by eapply Hne.
    + intros [Hr' Hn]. split; [split; [done|]|].
      * intros [-> Hi]. apply Hn. assert (l' = l) as -> by (destruct k; simpl in *; congruence).
        rewrite (the_entry_lookup _ _ _ Hc). split; [by left|done].
      * intros [Hin Hi]. apply Hn. split; [by right|]. rewrite <- Hsame; [done..|]. by eapply Hne.
Qed.
End with_float.
