(* ===== verification/TrackerFacts.v ===== *)
(** * Runs of the tracker of internal/limits/limits.go

    What holds after any sequence of operations, in any order in which they
    get the mutex and with any clock. *)

From Stdlib Require Import ZArith NArith Ascii String Lia Bool List.
From stdpp Require Import base tactics list gmap strings option countable sets fin_maps.
From S2P Require Import Prelude GoStrings Netip GoFloat Limits LimitsFacts.

Local Open Scope Z_scope.

Section with_float.
Context {F : Type} `{!GoFloat F}.
Implicit Types (t : @Tracker F) (c : @client F).

(** Suppressed lines that wait for the next summary. *)
Definition pending t : Z := map_sum weight (heap t) + weight (unknown t).

Lemma sweep_keys t cs os :
  cs ≡ₚ map_to_list (clients t) -> os ≡ₚ map_to_list (overflow t) ->
  let ks := ((fun e => (inl (fst e), snd e)) <$> cs) ++ ((fun e => (inr (fst e), snd e)) <$> os) in
  NoDup (fst <$> ks) /\ forall k l, (k, l) ∈ ks <-> registered t k l.
Proof.
  intros Hcs Hos ks. split.
  - unfold ks. rewrite fmap_app, <- !list_fmap_compose. apply NoDup_app. split_and!.
    + replace (fst ∘ (fun e => (inl (fst e), snd e)) <$> cs) with (@inl Addr Prefix <$> (fst <$> cs)) by (by rewrite <- list_fmap_compose).
      apply NoDup_fmap; [apply _|]. rewrite Hcs. apply NoDup_fst_map_to_list.
    + intros x (e & -> & _)%list_elem_of_fmap (e' & E & _)%list_elem_of_fmap. done.
    + replace (fst ∘ (fun e => (inr (fst e), snd e)) <$> os) with (@inr Addr Prefix <$> (fst <$> os)) by (by rewrite <- list_fmap_compose).
      apply NoDup_fmap; [apply _|]. rewrite Hos. apply NoDup_fst_map_to_list.
  - intros k l. unfold ks. rewrite elem_of_app. destruct k as [ip|p]; simpl.
    + rewrite <- elem_of_map_to_list, <- Hcs. split.
      * intros [(e & [= -> ->] & He)%list_elem_of_fmap|(e & [=] & _)%list_elem_of_fmap]. by destruct e.
      * intros He. left. apply list_elem_of_fmap. by exists (ip, l).
    + rewrite <- elem_of_map_to_list, <- Hos. split.
      * intros [(e & [=] & _)%list_elem_of_fmap|(e & [= -> ->] & He)%list_elem_of_fmap]. by destruct e.
      * intros He. right. apply list_elem_of_fmap. by exists (p, l).
Qed.

Lemma weight_nonneg c : wf_client c -> 0 <= weight c.
Proof.
  intros (_ & Ho & Hp). unfold weight.
  assert (0 <= map_sum (fun n => n) (suppressed c)); [|lia]. apply map_sum_nonneg. intros k n Hk. apply Hp in Hk. lia.
Qed.

(** [Sweep] reports every pending line, resets all counts, forgets exactly
    the idle entries and leaves the connections alone. *)
Lemma Sweep_spec t now cs os t' out :
  tracker_inv t -> cs ≡ₚ map_to_list (clients t) -> os ≡ₚ map_to_list (overflow t) -> Sweep t now cs os = (t', out) ->
  tracker_inv t' /\ reported out = pending t /\ pending t' = 0 /\ total t' = total t /\ releases t' = releases t /\
  (forall k l, registered t' k l <-> registered t k l /\ idle (the_entry t l) now = false) /\
  (forall l c', heap t' !! l = Some c' -> exists c, heap t !! l = Some c /\ reset_of c c').
Proof.
  intros Hinv Hcs Hos. unfold Sweep. rewrite sweep_loops. destruct (sweep_keys t cs os Hcs Hos) as [Hnd Hks].
  destruct (sweep_fold now _ t [] Hinv Hnd (fun k l => proj1 (Hks k l)))
    as (t1 & o & -> & Hinv1 & Hsum & Ht & Hr & Hu & Hnone & Hentry & Hreg). cbn [app].
  destruct (take_summary _ _) as [c o2] eqn:Et. intros [= <- <-].
  apply take_summary_spec in Et as (Hwf & Hw & Ho & Hreset); [|apply (inv_unknown _ Hinv1)].
  assert (Hzero : map_sum weight (heap t1) = 0).
  { apply map_sum_zero. intros l x Hx. destruct (inv_forgotten _ Hinv1 _ _ Hx) as [[k Hk]|?]; [|done].
    apply Hreg in Hk as [Hk _]. destruct (heap t !! l) as [y|] eqn:Ey; [|apply Hnone in Ey; congruence].
    destruct (Hentry l y x) as [_ Hz]; [done..|]. apply Hz. right. exists k. by apply Hks. }
  split_and!; try done.
  - destruct Hinv1 as [H1 H2 H3 H4 H5 H6 H7 H8 H9]. by constructor.
  - rewrite reported_app, Ho. unfold pending. rewrite Hu. lia.
  - unfold pending. simpl. lia.
  - intros k l. transitivity (registered t1 k l); [by destruct k|]. rewrite Hreg, Hks, <- not_true_iff_false. tauto.
  - cbn [heap]. intros l x Hx. destruct (heap t !! l) as [y|] eqn:Ey; [|apply Hnone in Ey; congruence].
    exists y. split; [done|]. by eapply Hentry.
Qed.

(** ** Invariance *)

Lemma step_inv t now l t' : tracker_inv t -> step t now l t' -> tracker_inv t'.
Proof.
  intros Hinv [ip lim m t1 r H|i|ip lim t1 ok H|ip a h t1 ok H|ip t1 ok H|cs os t1 out Hcs Hos H].
  - by eapply Acquire_inv.
  - by apply release_inv.
  - by eapply Allow_inv.
  - by eapply Log_inv.
  - by eapply LogUnknown_inv.
  - by eapply Sweep_spec.
Qed.

Lemma run_inv tr t : run tr t -> tracker_inv t.
Proof. induction 1; [apply tracker_inv_new|by eapply step_inv]. Qed.

(** After any sequence of operations the counters are exact: the total is the number of connections admitted and not yet released, every entry's count is the number of those made through it, and no entry with an open connection has been forgotten. *)
Theorem tracker_accounting tr t :
  run tr t ->
  total t = live (releases t) /\
  (forall l c, heap t !! l = Some c -> conns c = live_on (releases t) l) /\
  (forall l, (l, false) ∈ releases t -> exists k c, registered t k l /\ heap t !! l = Some c /\ 0 < conns c).
Proof.
  intros Hinv%run_inv. split; [apply Hinv|]. split; [apply Hinv|]. intros l Hl.
  destruct (inv_live _ Hinv l Hl) as [k Hk]. destruct (inv_registered _ Hinv _ _ Hk) as [c Hc]. exists k, c.
  split_and!; [done..|]. rewrite (inv_conns _ Hinv l c Hc). by apply live_on_pos.
Qed.

(** The tracker's memory is bounded: at most 100000 addresses are tracked individually, and an entry, also the one shared by unknown clients, counts at most 16 distinct keys of suppressed lines. *)
Theorem tracker_bounded tr t :
  run tr t ->
  Z.of_nat (Tracked t) <= maxClients /\ (size (suppressed (unknown t)) <= maxSuppressedKeys)%nat /\
  forall l c, heap t !! l = Some c -> (size (suppressed c) <= maxSuppressedKeys)%nat.
Proof.
  intros Hinv%run_inv. split; [apply Hinv|]. split; [apply Hinv|]. intros l c Hc. by apply (inv_entries _ Hinv l c).
Qed.

(** ** Conservation of log lines *)

(** Lines that an operation suppressed, and lines that it reported. *)
Definition suppressed_by (l : @label F) : Z :=
  match l with LLog _ _ _ ok => b2z (negb ok) | LLogUnknown _ ok => b2z (negb ok) | _ => 0 end.
Definition reported_by (l : @label F) : Z := match l with LSweep out => reported out | _ => 0 end.
Definition sum_over (f : @label F -> Z) (tr : list (Z * @label F)) : Z := foldr (fun e acc => f (snd e) + acc) 0 tr.

Lemma sum_over_snoc f tr now l : sum_over f (tr ++ [(now, l)]) = sum_over f tr + f l.
Proof. unfold sum_over. induction tr as [|e tr IH]; simpl; [lia|]. rewrite IH. lia. Qed.

Lemma pending_get t ip now t' l : tracker_inv t -> get t ip now = (t', l) -> pending t' = pending t.
Proof.
  intros Hinv Hg. apply get_spec in Hg; [|done]. unfold pending.
  rewrite (got_sum weight _ _ _ _ (fun _ _ => eq_refl) weight_zero Hg). by rewrite (got_unknown _ _ _ _ Hg).
Qed.

Lemma pending_set_entry t l c c' :
  heap t !! l = Some c -> weight c' = weight c -> map_sum weight (<[l := c']> (heap t)) = map_sum weight (heap t).
Proof. intros Hc Hw. rewrite (map_sum_update _ _ _ c) by done. lia. Qed.

Lemma step_pending t now l t' :
  tracker_inv t -> step t now l t' -> pending t' + reported_by l = pending t + suppressed_by l.
Proof.
  intros Hinv [ip lim m t1 r H|i|ip lim t1 ok H|ip a h t1 ok H|ip t1 ok H|cs os t1 out Hcs Hos H]; simpl; rewrite ?Z.add_0_r.
  - unfold Acquire in H. destruct (_ && _); [by injection H as <- _|]. destruct (get t ip now) as [t2 l0] eqn:Eg.
    rewrite <- (pending_get _ _ _ _ _ Hinv Eg). apply get_spec in Eg as [_ _ He _ _ _ _ _ _ _]; [|done].
    destruct (_ && _); injection H as <- _; [done|]. unfold pending. simpl. f_equal. by eapply pending_set_entry.
  - unfold release. destruct (releases t !! i) as [[l0 []]|] eqn:Ei; [done| |done].
    destruct (inv_live _ Hinv l0) as [k Hk]; [by eapply list_elem_of_lookup_2|].
    destruct (inv_registered _ Hinv _ _ Hk) as [c Hc]. rewrite (the_entry_lookup _ _ _ Hc).
    unfold pending. simpl. f_equal. by eapply pending_set_entry.
  - unfold Limits.Allow in H. destruct (get t ip now) as [t2 l0] eqn:Eg. rewrite <- (pending_get _ _ _ _ _ Hinv Eg).
    apply get_spec in Eg as [_ _ He _ _ _ _ _ _ _]; [|done]. destruct (take _ _ _ _) as [b o]. injection H as <- <-.
    unfold pending. simpl. f_equal. by eapply pending_set_entry.
  - apply Log_inv in H as (_ & Hs & Hu); [|done]. unfold pending. rewrite Hs, Hu. lia.
  - apply LogUnknown_inv in H as (_ & Hs & Hu); [|done]. unfold pending. rewrite Hs, Hu. lia.
  - apply Sweep_spec in H as (_ & Ho & Hp & _); [|done..]. lia.
Qed.

(** No suppressed log line is lost or counted twice: over any sequence of operations, the lines that were suppressed are those that some summary reported plus those that wait for the next one. *)
Theorem suppressed_conserved tr t : run tr t -> sum_over suppressed_by tr = sum_over reported_by tr + pending t.
Proof.
  induction 1 as [|tr t now l t' Hrun IH Hstep].
  { unfold pending. cbn [NewTracker heap unknown]. rewrite weight_zero. reflexivity. }
  rewrite !sum_over_snoc. apply step_pending in Hstep; [lia|by eapply run_inv].
Qed.
(** ** Connection limits *)

(** The connections that count against [ip]'s limit: those of its own entry, or
    of its network's when no more addresses are tracked. *)
Definition held t (ip : Addr) : Z :=
  match clients t !! ip with
  | Some l => conns (the_entry t l)
  | None =>
      if Z.of_nat (size (clients t)) <? maxClients then 0
      else match overflow t !! overflowPrefix ip with Some l => conns (the_entry t l) | None => 0 end
  end.

Lemma the_entry_set t l c : the_entry (set_entry t l c) l = c.
Proof. unfold the_entry. simpl. by rewrite lookup_insert_eq. Qed.

Lemma get_held t ip now t' l :
  get t ip now = (t', l) -> conns (the_entry t' l) = held t ip /\
  (clients t' !! ip = Some l \/
   (clients t' !! ip = None /\ maxClients <= Z.of_nat (size (clients t')) /\ overflow t' !! overflowPrefix ip = Some l)).
Proof.
  unfold get, held. destruct (clients t !! ip) as [l0|] eqn:E.
  { intros [= <- <-]. rewrite the_entry_set. simpl. auto. }
  destruct (Z.ltb_spec (Z.of_nat (size (clients t))) maxClients) as [Hlt|Hge].
  - intros [= <- <-]. rewrite the_entry_set. split; [|left; simpl; apply lookup_insert_eq].
    unfold the_entry. simpl. by rewrite lookup_insert_eq.
  - destruct (overflow t !! overflowPrefix ip) as [l0|] eqn:E'; intros [= <- <-]; rewrite the_entry_set.
    + split; [done|]. right. done.
    + split; [unfold the_entry; simpl; by rewrite lookup_insert_eq|]. right. simpl. split_and!; [done..|apply lookup_insert_eq].
Qed.

(** Acquire refuses exactly when a limit is reached, with the error of that limit and without taking a slot; otherwise it takes one slot, of the client and in total. A limit of zero never refuses. *)
Theorem Acquire_decides t now ip lim m :
  let '(t', r) := Acquire t now ip lim m in
  if (0 <? m) && (m <=? total t) then r = Err ErrTotalConnections /\ t' = t
  else if (0 <? MaxConnections lim) && (MaxConnections lim <=? held t ip)
  then r = Err ErrClientConnections /\ total t' = total t /\ releases t' = releases t /\ held t' ip = held t ip
  else r = Ok (length (releases t)) /\ total t' = total t + 1 /\ held t' ip = held t ip + 1.
Proof.
  unfold Acquire. destruct (_ && _); [done|]. destruct (get t ip now) as [t1 l] eqn:Eg.
  assert (Hf : total t1 = total t /\ releases t1 = releases t).
  { revert Eg. unfold get. repeat case_match; intros; by simplify_eq/=. }
  destruct Hf as [Ht Hr]. apply get_held in Eg as [<- Hcase]. destruct (_ && _).
  - split_and!; [done..|]. unfold held. destruct Hcase as [->|(-> & Hge & ->)]; [done|].
    by rewrite (proj2 (Z.ltb_ge _ _)).
  - cbn [total releases set_entry]. rewrite Hr, Ht. split_and!; [done..|]. unfold held. cbn [clients overflow set_entry].
    destruct Hcase as [->|(-> & Hge & ->)]; [|rewrite (proj2 (Z.ltb_ge _ _)) by done];
      unfold the_entry at 1; cbn [heap set_entry]; by rewrite lookup_insert_eq.
Qed.

Lemma Acquire_releases t now ip lim m t' r :
  tracker_inv t -> Acquire t now ip lim m = (t', r) ->
  releases t' = releases t \/
  exists l, r = Ok (length (releases t)) /\ releases t' = releases t ++ [(l, false)] /\
    (0 < m -> live (releases t) < m) /\ (0 < MaxConnections lim -> live_on (releases t) l < MaxConnections lim).
Proof.
  intros Hinv. unfold Acquire. destruct ((0 <? m) && (m <=? total t)) eqn:Em; [intros [= <- _]; by left|].
  destruct (get t ip now) as [t1 l] eqn:Eg. apply get_spec in Eg as [Hinv1 _ He _ Hr _ _ _ _ _]; [|done].
  destruct ((0 <? MaxConnections lim) && _) eqn:Ec; intros [= <- <-]; [by left|]. right. exists l. rewrite <- Hr. split_and!; [done..| |].
  - intros Hm. rewrite (proj2 (Z.ltb_lt _ _) Hm) in Em. apply Z.leb_gt in Em. rewrite Hr, <- (inv_total _ Hinv). lia.
  - intros Hm. rewrite (proj2 (Z.ltb_lt _ _) Hm) in Ec. apply Z.leb_gt in Ec.
    by rewrite <- (inv_conns _ Hinv1 _ _ He).
Qed.

Lemma Acquire_Ok t now ip lim m t' i :
  tracker_inv t -> Acquire t now ip lim m = (t', Ok i) -> exists l, i = length (releases t) /\ releases t' = releases t ++ [(l, false)].
Proof.
  intros Hinv. unfold Acquire. destruct (_ && _); [done|]. destruct (get t ip now) as [t1 l] eqn:Eg. apply get_spec in Eg as [_ _ _ _ Hr _ _ _ _ _]; [|done].
  destruct (_ && _); [done|]. intros [= <- <-]. exists l. cbn [releases set_entry]. by rewrite Hr.
Qed.

(** An entry keeps its key as long as a connection is open on it. *)
Lemma get_keeps t ip now t' l0 k l : get t ip now = (t', l0) -> registered t k l -> registered t' k l.
Proof.
  unfold get. destruct (clients t !! ip) as [l1|] eqn:E; [intros [= <- _]; by destruct k|].
  destruct (_ <? _).
  - intros [= <- _]. destruct k as [ip'|q]; simpl; [|done]. intros Hk. rewrite lookup_insert_ne; [done|]. intros ->. congruence.
  - destruct (overflow t !! overflowPrefix ip) as [l1|] eqn:E'; intros [= <- _]; [by destruct k|].
    destruct k as [ip'|q]; simpl; [done|]. intros Hk. rewrite lookup_insert_ne; [done|]. intros <-. congruence.
Qed.

Lemma Acquire_keeps t now ip lim m t' r k l : Acquire t now ip lim m = (t', r) -> registered t k l -> registered t' k l.
Proof.
  unfold Acquire. destruct (_ && _); [by intros [= <- _]|]. destruct (get t ip now) as [t1 l0] eqn:Eg. intros H Hk%(get_keeps _ _ _ _ _ _ _ Eg).
  destruct (_ && _); injection H as <- _; [done|by destruct k].
Qed.

Lemma step_keeps t now lb t' k l : tracker_inv t -> step t now lb t' -> registered t k l -> (l, false) ∈ releases t -> registered t' k l.
Proof.
  intros Hinv Hs Hk Hl. destruct Hs as [ip lim m t1 r H|i|ip lim t1 ok H|ip a h t1 ok H|ip t1 ok H|cs os t1 out Hcs Hos H].
  - by eapply Acquire_keeps.
  - unfold release. destruct (releases t !! i) as [[l0 []]|]; [done| |done]. by destruct k.
  - unfold Limits.Allow in H. destruct (get t ip now) as [t2 l0] eqn:Eg. apply (get_keeps _ _ _ _ _ _ _ Eg) in Hk.
    destruct (take _ _ _ _). injection H as <- _. by destruct k.
  - unfold Log in H. destruct (get t ip now) as [t2 l0] eqn:Eg. apply (get_keeps _ _ _ _ _ _ _ Eg) in Hk.
    destruct (log _ _ _). injection H as <- _. by destruct k.
  - unfold LogUnknown in H. destruct (log _ _ _). injection H as <- _. by destruct k.
  - apply Sweep_spec in H as (_ & _ & _ & _ & _ & Hreg & _); [|done..]. apply Hreg. split; [done|].
    destruct (inv_registered _ Hinv _ _ Hk) as [c Hc]. rewrite (the_entry_lookup _ _ _ Hc). unfold idle. apply live_on_pos in Hl.
    rewrite <- (inv_conns _ Hinv _ _ Hc) in Hl. by rewrite (proj2 (Z.eqb_neq _ _)) by lia.
Qed.

(** A slot is taken on the client's own entry or on its network's. *)
Lemma Acquire_slot t now ip lim m t' i :
  tracker_inv t -> Acquire t now ip lim m = (t', Ok i) ->
  exists l, i = length (releases t) /\ releases t' = releases t ++ [(l, false)] /\ (registered t' (inl ip) l \/ registered t' (inr (overflowPrefix ip)) l).
Proof.
  intros Hinv. unfold Acquire. destruct (_ && _); [done|]. destruct (get t ip now) as [t1 l] eqn:Eg. pose proof (get_held _ _ _ _ _ Eg) as [_ Hreg].
  apply get_spec in Eg as [_ _ _ _ Hr _ _ _ _ _]; [|done]. destruct (_ && _); [done|]. intros [= <- <-]. exists l. cbn [releases set_entry]. rewrite Hr.
  split_and!; [done..|]. destruct Hreg as [?|(_ & _ & ?)]; [by left|by right].
Qed.

Definition is_acquire (l : @label F) : bool := match l with LAcquire _ _ _ _ => true | _ => false end.

(** Only [Acquire] and the release functions change who holds a slot. *)
Lemma step_release_or_same t now l t' :
  tracker_inv t -> step t now l t' -> is_acquire l = false -> (exists i, t' = release t now i) \/ releases t' = releases t.
Proof.
  intros Hinv [ip lim m t1 r H|i|ip lim t1 ok H|ip a h t1 ok H|ip t1 ok H|cs os t1 out Hcs Hos H] Hno; [done|by left; exists i|..]; right.
  - unfold Limits.Allow in H. destruct (get t ip now) as [t2 l0] eqn:Eg. apply get_spec in Eg as [_ _ _ _ Hr _ _ _ _ _]; [|done].
    destruct (take _ _ _ _). by injection H as <- _.
  - unfold Log in H. destruct (get t ip now) as [t2 l0] eqn:Eg. apply get_spec in Eg as [_ _ _ _ Hr _ _ _ _ _]; [|done].
    destruct (log _ _ _). by injection H as <- _.
  - unfold LogUnknown in H. destruct (log _ _ _). by injection H as <- _.
  - by apply Sweep_spec in H as (_ & _ & _ & _ & ? & _).
Qed.

Lemma step_releases t now l t' :
  tracker_inv t -> step t now l t' ->
  is_acquire l = false -> (forall l', live_on (releases t') l' <= live_on (releases t) l') /\ live (releases t') <= live (releases t).
Proof.
  intros Hinv Hs Hno. destruct (step_release_or_same _ _ _ _ Hinv Hs Hno) as [[i ->]|E]; [|by rewrite E].
  unfold release. destruct (releases t !! i) as [[l0 []]|] eqn:Ei; [done| |done]. cbn [releases set_entry]. split.
  - intros l'. rewrite live_on_release by done. unfold b2z. case_bool_decide; lia.
  - rewrite (live_release _ _ l0) by done. lia.
Qed.

(** All connections were requested under the same limits. *)
Definition limited (maxConns maxTotal : Z) (tr : list (Z * @label F)) : Prop :=
  Forall (fun e => match snd e with LAcquire _ lim m _ => MaxConnections lim = maxConns /\ m = maxTotal | _ => True end) tr.

(** The connection limits are never exceeded: as long as the limits in force are maxConns per client and maxTotal in all, no entry ever has more than maxConns open connections and there are never more than maxTotal. *)
Theorem limits_enforced maxConns maxTotal tr t :
  run tr t -> limited maxConns maxTotal tr ->
  (0 < maxTotal -> total t <= maxTotal) /\
  (0 < maxConns -> forall l c, heap t !! l = Some c -> conns c <= maxConns).
Proof.
  intros Hrun Hlim. enough (H : (0 < maxTotal -> live (releases t) <= maxTotal) /\ (0 < maxConns -> forall l, live_on (releases t) l <= maxConns)).
  { apply run_inv in Hrun. rewrite (inv_total _ Hrun). split; [apply H|]. intros Hm l c Hc. rewrite (inv_conns _ Hrun l c Hc). by apply H. }
  revert Hlim. induction Hrun as [|tr t now l t' Hrun IH Hstep]; intros Hlim.
  { unfold live, live_on. simpl. split; intros; lia. }
  apply Forall_app in Hlim as [Hlim [Hl _]%Forall_cons_iff]. specialize (IH Hlim) as [IHt IHc]. pose proof (run_inv _ _ Hrun) as Hinv.
  destruct (is_acquire l) eqn:Ha.
  2: { destruct (step_releases _ _ _ _ Hinv Hstep Ha) as [Hc Ht].
       split; [intros Hm; specialize (IHt Hm); lia|]. intros Hm l0. specialize (IHc Hm l0). specialize (Hc l0). lia. }
  inversion Hstep as [ip lim m t1 r Hacq| | | | |]; subst; try done. simpl in Hl. destruct Hl as [<- <-].
  destruct (Acquire_releases _ _ _ _ _ _ _ Hinv Hacq) as [->|(l0 & -> & -> & Hm & Hc)]; [done|]. split.
  - intros H. specialize (Hm H). rewrite live_snoc. lia.
  - intros H l'. rewrite live_on_snoc. specialize (Hc H). specialize (IHc H l'). unfold b2z. case_bool_decide; [subst; lia|lia].
Qed.
(** ** Releasing *)

Lemma release_twice t now now' i : release (release t now i) now' i = release t now i.
Proof.
  unfold release at 2 3. destruct (releases t !! i) as [[l []]|] eqn:Ei; [by unfold release; rewrite Ei| |by unfold release; rewrite Ei].
  unfold release. cbn [releases set_entry]. rewrite list_lookup_insert_eq by (by eapply lookup_lt_Some). done.
Qed.

(** Releasing a connection gives back exactly the slot that was acquired, to the entry it was taken from and to the total, also when other addresses share the entry; calling the release function again changes nothing. *)
Theorem Acquire_release tr t now ip lim m t1 i now1 now2 :
  run tr t -> Acquire t now ip lim m = (t1, Ok i) ->
  total t1 = total t + 1 /\ total (release t1 now1 i) = total t /\
  (forall l, live_on (releases (release t1 now1 i)) l = live_on (releases t) l) /\
  release (release t1 now1 i) now2 i = release t1 now1 i.
Proof.
  intros Hinv%run_inv Ha. pose proof (Acquire_inv _ _ _ _ _ _ _ Hinv Ha) as Hinv1.
  pose proof (release_inv _ now1 i Hinv1) as Hinv2.
  destruct (Acquire_releases _ _ _ _ _ _ _ Hinv Ha) as [E|(l & [= ->] & E & _)].
  { exfalso. pose proof (Acquire_decides t now ip lim m) as Hd. rewrite Ha in Hd.
    repeat (destruct (_ && _); [by destruct Hd|]). destruct Hd as (_ & Ht & _).
    rewrite (inv_total _ Hinv1), (inv_total _ Hinv), E in Ht. lia. }
  assert (Hi : releases t1 !! length (releases t) = Some (l, false)) by (rewrite E; by apply list_lookup_middle).
  assert (Hrel : releases (release t1 now1 (length (releases t))) = <[length (releases t) := (l, true)]> (releases t1)).
  { unfold release. by rewrite Hi. }
  split_and!.
  - rewrite (inv_total _ Hinv1), (inv_total _ Hinv), E, live_snoc. done.
  - rewrite (inv_total _ Hinv2), Hrel, (live_release _ _ l Hi), E, live_snoc, (inv_total _ Hinv). lia.
  - intros l'. rewrite Hrel, live_on_release by done. rewrite E, live_on_snoc. lia.
  - apply release_twice.
Qed.

(** A sweep forgets exactly the entries that have no open connection and have not been used for more than five minutes; it reports every suppressed line that was pending, leaves none, and changes no connection count. *)
Theorem Sweep_forgets tr t now cs os t' out :
  run tr t -> cs ≡ₚ map_to_list (clients t) -> os ≡ₚ map_to_list (overflow t) -> Sweep t now cs os = (t', out) ->
  (forall k l, registered t' k l <->
     registered t k l /\ ~ (live_on (releases t) l = 0 /\ 5 * 60 * 1000000000 < Sub now (seen (the_entry t l)))) /\
  reported out = pending t /\ pending t' = 0 /\ releases t' = releases t /\ total t' = total t.
Proof.
  intros Hinv%run_inv Hcs Hos H. apply Sweep_spec in H as (_ & Ho & Hp & Ht & Hr & Hreg & _); [|done..]. split_and!; try done.
  intros k l. rewrite Hreg. split; intros [Hk Hi]; (split; [done|]); destruct (inv_registered _ Hinv _ _ Hk) as [c Hc];
    rewrite (the_entry_lookup _ _ _ Hc) in *; rewrite <- (inv_conns _ Hinv _ _ Hc) in *; unfold idle in *.
  - apply andb_false_iff in Hi. rewrite Z.eqb_neq, Z.ltb_ge in Hi. unfold forgetAfter, Minute, Second in Hi. lia.
  - apply not_true_is_false. rewrite andb_true_iff, Z.eqb_eq, Z.ltb_lt. intros [? ?]. apply Hi. split; [done|].
    unfold forgetAfter, Minute, Second in *. lia.
Qed.

(** ** Isolation *)

(** The key under which [ip] is accounted. *)
Definition key_of t (ip : Addr) : Addr + Prefix :=
  match clients t !! ip with
  | Some _ => inl ip
  | None => if Z.of_nat (size (clients t)) <? maxClients then inl ip else inr (overflowPrefix ip)
  end.

Lemma get_isolated t ip now t' l k l' :
  tracker_inv t -> get t ip now = (t', l) -> registered t k l' -> k <> key_of t ip ->
  registered t' k l' /\ l' <> l /\ heap t' !! l' = heap t !! l'.
Proof.
  intros Hinv Hg Hk Hne. pose proof (get_spec _ _ _ _ _ Hinv Hg) as Hgot.
  enough (H : registered t' k l' /\ registered t' (key_of t ip) l).
  { destruct H as [H1 H2]. assert (l' <> l) as Hl.
    { intros ->. by apply Hne, (inv_owner _ (got_inv _ _ _ _ Hgot) _ _ l). }
    split_and!; [done..|]. by apply (got_others _ _ _ _ Hgot). }
  revert Hg. unfold get, key_of in *. destruct (clients t !! ip) as [l0|] eqn:E.
  { intros [= <- <-]. split; [by destruct k|done]. }
  destruct (Z.ltb_spec (Z.of_nat (size (clients t))) maxClients).
  - intros [= <- <-]. split; [|apply lookup_insert_eq]. destruct k as [ip'|p]; simpl in *; [|done].
    rewrite lookup_insert_ne; [done|congruence].
  - destruct (overflow t !! overflowPrefix ip) as [l0|] eqn:E'; intros [= <- <-].
    { split; [by destruct k|done]. }
    split; [|apply lookup_insert_eq]. destruct k as [ip'|p]; simpl in *; [done|].
    rewrite lookup_insert_ne; [done|congruence].
Qed.

(** Clients are isolated from each other: a connection, request or log line of one client leaves the entry of every other key, with its counts, its request budget and its log budget, exactly as it was. *)
Theorem clients_isolated tr t now ip k l t' :
  run tr t -> registered t k l -> k <> key_of t ip ->
  (exists lim m r, Acquire t now ip lim m = (t', r)) \/ (exists lim ok, Limits.Allow t now ip lim = (t', ok)) \/
  (exists action host ok, Log t now ip action host = (t', ok)) ->
  registered t' k l /\ heap t' !! l = heap t !! l.
Proof.
  intros Hinv%run_inv Hk Hne Hop.
  destruct (get t ip now) as [t1 l1] eqn:Eg. destruct (get_isolated _ _ _ _ _ _ _ Hinv Eg Hk Hne) as (Hk1 & Hl & Hh).
  assert (Hset : forall c, heap (set_entry t1 l1 c) !! l = heap t !! l) by (intros c; simpl; by rewrite lookup_insert_ne).
  destruct Hop as [(lim & m & r & H)|[(lim & ok & H)|(action & host & ok & H)]].
  - unfold Acquire in H. destruct (_ && _); [by injection H as <- _|]. rewrite Eg in H.
    destruct (_ && _); injection H as <- _; [done|]. split; [by destruct k|apply Hset].
  - unfold Limits.Allow in H. rewrite Eg in H. destruct (take _ _ _ _). injection H as <- _. split; [by destruct k|apply Hset].
  - unfold Log in H. rewrite Eg in H. destruct (log _ _ _). injection H as <- _. split; [by destruct k|apply Hset].
Qed.
End with_float.

(** ** An example, with binary64 numbers *)

Definition ipA : Addr := Addr4 167772161.   (* 10.0.0.1 *)
Definition one_conn : @Client float64 := mkLimits 1 (of_int 10) 5 0.

(** Log lines of unknown clients, all at the same instant. *)
Fixpoint log_run (n : nat) : @Tracker float64 := match n with O => NewTracker | S n => fst (LogUnknown (log_run n) 0 ipA) end.

Example log_budget : pending (log_run 203) = 3.
Proof. vm_compute. reflexivity. Qed.
