(* ===== verification/BucketFacts.v ===== *)
(** * Token buckets of internal/limits/limits.go

    The rate a bucket admits on binary64 numbers, with the rounding errors of
    the operations it uses (of [FloatFacts]) in the bound; the rate it admits
    and the rate it guarantees in exact arithmetic, for comparison. *)

From Stdlib Require Import ZArith QArith Lia Bool List Qminmax Lqa String SpecFloat.
From stdpp Require Import base tactics list gmap fin_maps.
From S2P Require Import Prelude GoStrings Netip GoFloat Limits FloatFacts LimitsFacts TrackerFacts.

(** Successive takes at the given times: the bucket left and how many were
    allowed. *)
Fixpoint take_all {F} `{!GoFloat F} (b : @bucket F) (times : list Z) (rate : F) (burst : Z) : @bucket F * Z :=
  match times with
  | [] => (b, 0%Z)
  | now :: times =>
      let '(b, ok) := take b now rate burst in
      let '(b, n) := take_all b times rate burst in
      (b, (b2z ok + n)%Z)
  end.

Local Open Scope Q_scope.

Definition capacity (burst : Z) : Q := inject_Z (Z.max burst 1).

(** Seconds between two times. *)
Definition elapsed (a b : Z) : Q := inject_Z (b - a) / inject_Z Second.

Lemma capacity_ge_1 burst : 1 <= capacity burst.
Proof. unfold capacity. change 1 with (inject_Z 1). rewrite <- Zle_Qle. lia. Qed.

Lemma elapsed_add a b c : elapsed a b + elapsed b c == elapsed a c.
Proof. unfold elapsed. replace (c - a)%Z with (b - a + (c - b))%Z by lia. rewrite inject_Z_plus. field. discriminate. Qed.

Lemma Second_pos : 0 < inject_Z Second.
Proof. by vm_compute. Qed.

Lemma elapsed_nonneg a b : (a <= b)%Z -> 0 <= elapsed a b.
Proof.
  intros H. unfold elapsed. apply Qle_shift_div_l; [apply Second_pos|]. rewrite Qmult_0_l.
  change 0 with (inject_Z 0). rewrite <- Zle_Qle. lia.
Qed.

Lemma Seconds_elapsed now last : (last <= now)%Z -> 0 <= Seconds (F := Q) (Sub now last) <= elapsed last now.
Proof.
  intros H. rewrite Seconds_exact. destruct (Sub_le now last) as [H0 H1]; [lia|]. unfold elapsed, Qdiv.
  assert (Hinv : 0 <= / inject_Z Second) by (by vm_compute).
  split.
  - apply Qmult_le_0_compat; [|done]. change 0 with (inject_Z 0). by rewrite <- Zle_Qle.
  - apply Qmult_le_compat_r; [|done]. by rewrite <- Zle_Qle.
Qed.

(** A bucket in use holds between zero and [capacity] tokens. *)
Definition bucket_ok (burst : Z) (b : @bucket Q) : Prop :=
  primed b = true -> 0 <= tokens b /\ tokens b <= capacity burst.

(** One take of a bucket in use never spends more than what was there plus
    what time has added. *)
Lemma take_spec b now rate burst b' ok :
  0 < rate -> take b now rate burst = (b', ok) -> bucket_ok burst b -> (primed b = true -> (last_take b <= now)%Z) ->
  bucket_ok burst b' /\ primed b' = true /\ last_take b' = now /\
  tokens b' + inject_Z (b2z ok) <= capacity burst /\
  (primed b = true -> tokens b' + inject_Z (b2z ok) <= tokens b + rate * elapsed (last_take b) now).
Proof.
  intros Hrate. unfold take. destruct (fle rate (of_int 0)) eqn:Hr.
  { apply Qle_ops in Hr. simpl in Hr. change (inject_Z 0) with 0 in Hr. lra. }
  set (tk := if primed b then _ else _). intros H Hok Hlast.
  assert (Htk : 0 <= tk <= capacity burst /\ (primed b = true -> tk <= tokens b + rate * elapsed (last_take b) now)).
  { subst tk. pose proof (capacity_ge_1 burst) as Hcap. destruct (primed b) eqn:Hp.
    - destruct (Hok Hp) as [H0 H1]. destruct (Seconds_elapsed now (last_take b) (Hlast eq_refl)) as [S0 S1].
      cbn [fmin fadd fmul rational_ops]. change (of_int (Z.max burst 1)) with (capacity burst).
      assert (Hadd : 0 <= tokens b + Seconds (Sub now (last_take b)) * rate /\
                     tokens b + Seconds (Sub now (last_take b)) * rate <= tokens b + rate * elapsed (last_take b) now).
      { split; [nra|]. assert (Seconds (Sub now (last_take b)) * rate <= elapsed (last_take b) now * rate); [|lra].
        apply Qmult_le_compat_r; lra. }
      pose proof (Q.le_min_l (capacity burst) (tokens b + Seconds (Sub now (last_take b)) * rate)).
      pose proof (Q.le_min_r (capacity burst) (tokens b + Seconds (Sub now (last_take b)) * rate)).
      split; [|intros _; lra]. split; [|done]. apply Q.min_glb; lra.
    - change (of_int (Z.max burst 1)) with (capacity burst). split; [lra|done]. }
  destruct Htk as [[Ht0 Ht1] Ht2]. destruct (flt tk (of_int 1)) eqn:Hlt.
  - injection H as <- <-. simpl. change (inject_Z 0) with 0. split_and!; try done; [lra|]. intros Hp. specialize (Ht2 Hp). lra.
  - assert (Hge : 1 <= tk). { apply Qnot_lt_le. intros Hc. apply Qlt_ops in Hc. simpl in Hlt, Hc. change (inject_Z 1) with 1 in Hlt. congruence. }
    injection H as <- <-. simpl. change (inject_Z 1) with 1.
    split_and!; try done; [split; simpl; change (inject_Z 1) with 1; lra|lra|]. intros Hp. specialize (Ht2 Hp). lra.
Qed.

(** Times that do not go back. *)
Fixpoint nondecreasing (from : Z) (times : list Z) : Prop :=
  match times with [] => True | t :: times => (from <= t)%Z /\ nondecreasing t times end.

Lemma last_cons (x d : Z) l : List.last (x :: l) d = List.last l x.
Proof.
  revert x d. induction l as [|y l IH]; intros x d; [done|]. transitivity (List.last (y :: l) d); [done|]. by rewrite !IH.
Qed.

Lemma take_all_spec b times rate burst b' n :
  0 < rate -> take_all b times rate burst = (b', n) -> bucket_ok burst b -> primed b = true -> nondecreasing (last_take b) times ->
  bucket_ok burst b' /\ inject_Z n <= tokens b + rate * elapsed (last_take b) (List.last times (last_take b)).
Proof.
  intros Hrate. revert b n. induction times as [|now times IH]; intros b n H Hok Hp Hnd; simpl in H.
  { injection H as <- <-. simpl. split; [done|]. destruct (Hok Hp) as [H0 _]. unfold elapsed. rewrite Z.sub_diag.
    change (inject_Z 0) with 0. unfold Qdiv. rewrite Qmult_0_l, Qmult_0_r. lra. }
  destruct Hnd as [Hle Hnd]. destruct (take b now rate burst) as [b1 ok] eqn:Et.
  destruct (take_all b1 times rate burst) as [b2 m] eqn:Ea. injection H as <- <-.
  destruct (take_spec _ _ _ _ _ _ Hrate Et Hok (fun _ => Hle)) as (Hok1 & Hp1 & Hl1 & _ & Hpot). specialize (Hpot Hp).
  destruct (IH b1 m Ea Hok1 Hp1) as [Hok2 Hm]; [by rewrite Hl1|]. split; [done|]. rewrite Hl1 in Hm.
  rewrite last_cons, <- (elapsed_add _ now), inject_Z_plus. clear -Hpot Hm. nra.
Qed.

(** In exact arithmetic a bucket never admits more than its burst plus the rate times the time that has passed: over any window of requests at non-decreasing times, from any state the bucket can be in, at most max(burst, 1) + rate * (last - first) requests are allowed. *)
Theorem bucket_rate_bound_exact b first times rate burst b' n :
  0 < rate -> bucket_ok burst b -> (primed b = true -> (last_take b <= first)%Z) -> nondecreasing first times ->
  take_all b (first :: times) rate burst = (b', n) ->
  inject_Z n <= capacity burst + rate * elapsed first (List.last times first).
Proof.
  intros Hrate Hok Hlast Hnd H. cbn [take_all] in H. destruct (take b first rate burst) as [b1 ok] eqn:Et.
  destruct (take_all b1 times rate burst) as [b2 m] eqn:Ea. injection H as <- <-.
  destruct (take_spec _ _ _ _ _ _ Hrate Et Hok Hlast) as (Hok1 & Hp1 & Hl1 & Hcap & _).
  destruct (take_all_spec _ _ _ _ _ _ Hrate Ea Hok1 Hp1) as [_ Hm]; [by rewrite Hl1|]. rewrite Hl1 in Hm.
  rewrite inject_Z_plus. clear -Hcap Hm. nra.
Qed.

(** A bucket does not starve a client that keeps to the rate: a request is allowed whenever at least 1/rate seconds have passed since the previous one, and the first request always is (in exact arithmetic). *)
Theorem bucket_no_starvation b now rate burst :
  0 < rate -> bucket_ok burst b ->
  (primed b = true -> (last_take b <= now)%Z /\ (now - last_take b <= max_duration)%Z /\ 1 <= rate * elapsed (last_take b) now) ->
  snd (take b now rate burst) = true.
Proof.
  intros Hrate Hok Hwait. unfold take. destruct (fle rate (of_int 0)) eqn:Hr; [done|].
  set (tk := if primed b then _ else _). enough (1 <= tk) as Hge.
  { destruct (flt tk (of_int 1)) eqn:Hlt; [|done]. apply Qlt_ops in Hlt. simpl in Hlt. change (inject_Z 1) with 1 in Hlt. lra. }
  subst tk. pose proof (capacity_ge_1 burst) as Hcap. destruct (primed b) eqn:Hp; [|exact Hcap].
  destruct (Hwait eq_refl) as (Hle & Hmax & Hw). destruct (Hok Hp) as [H0 _].
  assert (E : Seconds (F := Q) (Sub now (last_take b)) == elapsed (last_take b) now).
  { rewrite Seconds_exact, Sub_exact; [reflexivity|]. unfold min_duration. lia. }
  cbn [fmin fadd fmul rational_ops]. apply Q.min_glb; [exact Hcap|]. rewrite E. lra.
Qed.

(** ** Binary64 *)

(** What the rounding of one take may add, as a part of the capacity; twice as
    much, as a part of what time adds. *)
Definition rounding : Q := slack.

(** The capacities for which taking one token off a full bucket is exact. *)
Definition exact_burst (burst : Z) : Prop := (Z.max burst 1 <= 2 ^ 52)%Z.

(** A bucket in use holds a number of the format that is not negative. *)
Definition bucket_good (b : @bucket float64) : Prop := primed b = true -> good (tokens b).

Lemma capacity_float burst : exact_burst burst -> good (of_int (Z.max burst 1)) /\ val (of_int (Z.max burst 1)) == capacity burst.
Proof. intros H. unfold exact_burst in H. destruct (of_int_exact (Z.max burst 1)) as (Hg & Hv & _); [lia|]. by split. Qed.

Lemma capacity_eps burst : exact_burst burst -> capacity burst * eps <= 1.
Proof.
  intros H. apply (Qle_trans _ (inject_Z (2 ^ 52) * eps)); [|by vm_compute]. apply Qmult_le_compat_r; [|apply Qlt_le_weak, eps_pos].
  unfold capacity. by rewrite <- Zle_Qle.
Qed.

Lemma eta_eps : 3 * eta <= eps.
Proof. by vm_compute. Qed.

(** What time adds to a bucket, rounded three times. *)
Lemma refill_spec tok now last rate burst :
  positive_float rate -> exact_burst burst -> good tok -> (last <= now)%Z ->
  let tk := fadd tok (fmul (Seconds (Sub now last)) rate) in
  good tk /\ (val tok <= capacity burst -> val tk <= val tok + val rate * elapsed last now * (1 + 2 * rounding) + 2 * (capacity burst * eps)).
Proof.
  intros Hrate Hburst Htok Hle. cbv zeta. destruct (positive_float_good rate Hrate) as (Gr & Pr & Fr & _).
  assert (Hd : (0 <= Sub now last <= max_duration)%Z) by (unfold Sub, min_duration, max_duration; lia).
  destruct (Seconds_spec _ Hd) as [Gs Vs]. pose proof (Seconds_finite _ Hd) as Fs. pose proof (val_nonneg _ Gs) as Ps.
  destruct (fmul_spec _ _ Gs Gr Fs Fr) as [Gm Vm]. destruct (fadd_spec _ _ Htok Gm) as [Ga Va]. split; [done|]. intros Hcap.
  pose proof (capacity_ge_1 burst) as Hc1. pose proof eps_pos as P1. pose proof eta_pos as P2. pose proof eps_small as P3. pose proof eta_eps as P4. pose proof slack_eps as P5.
  pose proof (elapsed_nonneg last now Hle) as Pe.
  assert (Vs' : val (Seconds (F := float64) (Sub now last)) <= elapsed last now * (1 + 4 * eps)).
  { eapply Qle_trans; [exact Vs|]. rewrite P5. apply Qmult_le_compat_r; [|lra]. apply Qmult_le_compat_r; [|by vm_compute].
    destruct (Sub_le now last) as [_ H]; [lia|]. by rewrite <- Zle_Qle. }
  set (S := val (Seconds _)) in *. set (P := val (fmul _ _)) in *. set (A := val (fadd _ _)) in *. set (T := val tok) in *. set (R := val rate) in *. set (E := elapsed _ _) in *. set (C := capacity _) in *.
  unfold rounding. rewrite P5. clearbody S P A T R E C.
  assert (H1 : S * R <= E * (1 + 4 * eps) * R) by (apply Qmult_le_compat_r; lra). assert (PX : 0 <= R * E) by (apply Qmult_le_0_compat; lra).
  assert (H2 : S * R * (1 + eps) <= E * (1 + 4 * eps) * R * (1 + eps)) by (apply Qmult_le_compat_r; lra).
  assert (H3 : (T + P) * (1 + eps) <= (T + (E * (1 + 4 * eps) * R * (1 + eps) + eta)) * (1 + eps)) by (apply Qmult_le_compat_r; lra).
  assert (H4 : eps * T <= eps * C) by (by apply Qmult_le_l). assert (H5 : eps * 1 <= eps * C) by (by apply Qmult_le_l). assert (H6 : eta * eps <= eta * 1) by (apply Qmult_le_l; lra).
  assert (H7 : 0 <= eps * (R * E)) by (apply Qmult_le_0_compat; lra). assert (H8 : eps * (eps * (R * E)) <= (1 # 1000) * (eps * (R * E))) by (by apply Qmult_le_compat_r).
  assert (H9 : eps * (eps * (eps * (R * E))) <= (1 # 1000) * (eps * (eps * (R * E)))) by (apply Qmult_le_compat_r; [done|apply Qmult_le_0_compat; lra]).
  lra.
Qed.

(** One take of a bucket in use spends what was there plus what time has added,
    and the rounding. *)
Lemma take_float_spec b now rate burst b' ok :
  positive_float rate -> exact_burst burst -> take b now rate burst = (b', ok) -> bucket_good b -> (primed b = true -> (last_take b <= now)%Z) ->
  good (tokens b') /\ primed b' = true /\ last_take b' = now /\ val (tokens b') <= capacity burst /\
  val (tokens b') + inject_Z (b2z ok) <= capacity burst + capacity burst * rounding /\
  (primed b = true -> val (tokens b) <= capacity burst ->
   val (tokens b') + inject_Z (b2z ok) <= val (tokens b) + val rate * elapsed (last_take b) now * (1 + 2 * rounding) + capacity burst * rounding).
Proof.
  intros Hrate Hburst H Hok Hlast. unfold take in H. destruct (positive_float_good rate Hrate) as (_ & _ & _ & Hpos). rewrite Hpos in H.
  destruct (capacity_float burst Hburst) as [Gc Vc]. pose proof (capacity_ge_1 burst) as Hc1. pose proof (capacity_eps burst Hburst) as Hce. pose proof eps_pos as P1. pose proof eta_pos as P2. pose proof eta_eps as P4.
  set (tk := if primed b then _ else _) in *.
  assert (Htk : good tk /\ val tk <= capacity burst /\
    (primed b = true -> val (tokens b) <= capacity burst -> val tk <= val (tokens b) + val rate * elapsed (last_take b) now * (1 + 2 * rounding) + 2 * (capacity burst * eps))).
  { subst tk. destruct (primed b) eqn:Hp; [|split_and!; [done|by rewrite Vc; apply Qle_refl|done]].
    destruct (refill_spec (tokens b) now (last_take b) rate burst Hrate Hburst (Hok Hp) (Hlast eq_refl)) as [Ga Va].
    destruct (fmin_spec _ _ Gc Ga) as (Gm & V1 & V2). rewrite Vc in V1. split_and!; [done|done|]. intros _ Hcap. eapply Qle_trans; [exact V2|]. by apply Va. }
  destruct Htk as (Gt & Vt & Pt). assert (Hr4 : capacity burst * rounding == 4 * (capacity burst * eps)) by (unfold rounding; rewrite slack_eps; ring).
  assert (H5 : 0 <= capacity burst * eps) by (apply Qmult_le_0_compat; lra). assert (H6 : eps * 1 <= eps * capacity burst) by (by apply Qmult_le_l).
  destruct (of_int_exact 1 ltac:(lia)) as (G1 & V1 & _). change (inject_Z 1) with 1 in V1.
  destruct (flt tk (of_int 1)) eqn:Hlt; apply pair_equal_spec in H as [<- <-]; cbn [tokens primed last_take b2z].
  - change (inject_Z 0) with 0. split_and!; [done|done|done|done|lra|]. intros Hp Hcap. specialize (Pt Hp Hcap). lra.
  - assert (Hge : 1 <= val tk). { apply Qnot_lt_le. intros Hc. rewrite <- V1 in Hc. apply (flt_spec _ _ Gt G1) in Hc. congruence. }
    destruct (fsub_spec tk (of_int 1) Gt G1) as [Gs Vs]; [by rewrite V1|eapply Qle_lt_trans; [exact Vt|]|].
    { unfold exact_burst in Hburst. apply (Qle_lt_trans _ (inject_Z (2 ^ 52))); [unfold capacity; by rewrite <- Zle_Qle|by vm_compute]. }
    rewrite V1 in Vs. change (inject_Z 1) with 1. set (S := val (fsub _ _)) in *. assert (H7 : val tk * eps <= capacity burst * eps) by (apply Qmult_le_compat_r; lra).
    assert (HS : S <= val tk - 1 + capacity burst * eps) by lra.
    split_and!; [done|done|done|lra|lra|]. intros Hp Hcap. specialize (Pt Hp Hcap). lra.
Qed.

Lemma take_all_float_spec b times rate burst b' n :
  positive_float rate -> exact_burst burst -> take_all b times rate burst = (b', n) -> primed b = true -> good (tokens b) -> val (tokens b) <= capacity burst -> nondecreasing (last_take b) times ->
  bucket_good b' /\
  inject_Z n <= val (tokens b) + val rate * elapsed (last_take b) (List.last times (last_take b)) * (1 + 2 * rounding) + inject_Z (Z.of_nat (length times)) * (capacity burst * rounding).
Proof.
  intros Hrate Hburst. revert b n. induction times as [|now times IH]; intros b n H Hp Hg Hcap Hnd; cbn [take_all] in H.
  { injection H as <- <-. split; [by intros _|]. cbn [List.last length]. unfold elapsed. rewrite Z.sub_diag. pose proof (val_nonneg _ Hg).
    change (inject_Z (Z.of_nat 0)) with 0. change (inject_Z 0) with 0. unfold Qdiv. rewrite !Qmult_0_l, Qmult_0_r, Qmult_0_l. lra. }
  destruct Hnd as [Hle Hnd]. destruct (take b now rate burst) as [b1 ok] eqn:Et.
  destruct (take_all b1 times rate burst) as [b2 m] eqn:Ea. injection H as <- <-.
  destruct (take_float_spec _ _ _ _ _ _ Hrate Hburst Et (fun _ => Hg) (fun _ => Hle)) as (Hg1 & Hp1 & Hl1 & Hcap1 & _ & Hpot). specialize (Hpot Hp Hcap).
  destruct (IH b1 m Ea Hp1 Hg1 Hcap1) as [Hgood Hm]; [by rewrite Hl1|]. split; [done|]. rewrite Hl1 in Hm.
  rewrite last_cons, <- (elapsed_add _ now), inject_Z_plus. cbn [length]. rewrite Nat2Z.inj_succ. unfold Z.succ. rewrite inject_Z_plus. change (inject_Z 1) with 1.
  clear -Hpot Hm. lra.
Qed.

(** C24: a bucket, as the program runs it on binary64 numbers, never admits more than its burst plus the rate times the time that has passed, up to rounding: of any sequence of requests at non-decreasing times, from any state the bucket can be in, at most max(burst, 1) + rate * (last - first) * (1 + 2^-49) + requests * max(burst, 1) * 2^-50 are allowed, where the rate is any positive finite binary64 number and the burst is at most 2^52. *)
Theorem bucket_rate_bound b first times rate burst b' n :
  positive_float rate -> exact_burst burst -> bucket_good b -> (primed b = true -> (last_take b <= first)%Z) -> nondecreasing first times ->
  take_all b (first :: times) rate burst = (b', n) ->
  bucket_good b' /\
  inject_Z n <= capacity burst + val rate * elapsed first (List.last times first) * (1 + 2 * rounding)
                + inject_Z (Z.of_nat (length (first :: times))) * (capacity burst * rounding).
Proof.
  intros Hrate Hburst Hok Hlast Hnd H. cbn [take_all] in H. destruct (take b first rate burst) as [b1 ok] eqn:Et.
  destruct (take_all b1 times rate burst) as [b2 m] eqn:Ea. injection H as <- <-.
  destruct (take_float_spec _ _ _ _ _ _ Hrate Hburst Et Hok Hlast) as (Hg1 & Hp1 & Hl1 & Hcap1 & Hcap & _).
  destruct (take_all_float_spec _ _ _ _ _ _ Hrate Hburst Ea Hp1 Hg1 Hcap1) as [Hgood Hm]; [by rewrite Hl1|]. split; [done|]. rewrite Hl1 in Hm.
  rewrite inject_Z_plus. cbn [length]. rewrite Nat2Z.inj_succ. unfold Z.succ. rewrite inject_Z_plus. change (inject_Z 1) with 1.
  clear -Hcap Hm. lra.
Qed.

(** 0.3, one request every 100 ms for ten seconds. *)
Definition rate_03 : float64 := S754_finite false 5404319552844595 (-54).
Definition tenths : list Z := map (fun i => (Z.of_nat i * (100 * Millisecond))%Z) (seq 1 100).

Lemma tenths_nondecreasing i from n : (from <= Z.of_nat i * (100 * Millisecond))%Z -> nondecreasing from (map (fun i => (Z.of_nat i * (100 * Millisecond))%Z) (seq i n)).
Proof. revert i from. induction n as [|n IH]; intros i from H; [done|]. split; [done|]. apply IH. unfold Millisecond in *. lia. Qed.

(** The rounding is needed: with a burst of 2, five requests are admitted, one
    more than the bound of exact arithmetic allows. *)
Lemma bucket_rate_bound_witness :
  exists b' n, take_all (bucket_zero (F := float64)) (0%Z :: tenths) rate_03 2 = (b', n) /\ n = 5%Z /\
    capacity 2 + val rate_03 * elapsed 0 (10 * Second) < inject_Z n /\
    inject_Z n <= capacity 2 + val rate_03 * elapsed 0 (10 * Second) * (1 + 2 * rounding) + inject_Z 101 * (capacity 2 * rounding).
Proof.
  destruct (take_all (bucket_zero (F := float64)) (0%Z :: tenths) rate_03 2) as [b' n] eqn:E. exists b', n.
  assert (n = 5%Z) as Hn by (apply (f_equal snd) in E; vm_compute in E; by symmetry).
  split; [reflexivity|]. split; [exact Hn|]. split; [rewrite Hn; by vm_compute|].
  apply (bucket_rate_bound bucket_zero 0 tenths rate_03 2 b' n); [reflexivity|discriminate|discriminate|discriminate|by apply tenths_nondecreasing|exact E].
Defined.

(** The schedule of the tracker's own test: a burst of 5, three tokens back
    after 300 ms at 10 per second, and the burst again after an hour. *)
Definition count_allowed (burst_times : list Z) : Z :=
  snd (take_all (F := float64) bucket_zero burst_times (of_int 10) 5).

Example float64_schedule :
  (count_allowed (repeat 0 20) = 5 /\
   count_allowed (repeat 0 20 ++ repeat (300 * Millisecond) 20) = 8 /\
   count_allowed (repeat 0 20 ++ repeat (300 * Millisecond) 20 ++ repeat (3600 * Second) 20) = 13)%Z.
Proof. by vm_compute. Qed.

(** ** Forgetting an entry refills its bucket *)

Inductive cmd := CAllow (ip : Addr) (lim : @Client float64) | CSweep.

Fixpoint exec (t : @Tracker float64) (cmds : list (Z * cmd)) : list (Z * @label float64) * @Tracker float64 :=
  match cmds with
  | [] => ([], t)
  | (now, c) :: cmds =>
      let '(l, t) := match c with
                     | CAllow ip lim => let '(t', ok) := Limits.Allow t now ip lim in (LAllow ip lim ok, t')
                     | CSweep => let '(t', out) := Sweep t now (map_to_list (clients t)) (map_to_list (overflow t)) in (LSweep out, t')
                     end in
      let '(tr, t) := exec t cmds in ((now, l) :: tr, t)
  end.

Lemma exec_run tr0 t0 cmds tr t : run tr0 t0 -> exec t0 cmds = (tr, t) -> run (tr0 ++ tr) t.
Proof.
  revert tr0 t0 tr. induction cmds as [|[now c] cmds IH]; intros tr0 t0 tr Hrun; cbn [exec].
  { intros [= <- <-]. by rewrite app_nil_r. }
  assert (Hstep : forall l t1, step t0 now l t1 -> exec t1 cmds = (tail tr, t) -> tr = (now, l) :: tail tr -> run (tr0 ++ tr) t).
  { intros l t1 Hs He ->. rewrite cons_middle, app_assoc. apply (IH _ t1); [by econstructor|done]. }
  destruct c as [ip lim|].
  - destruct (Limits.Allow t0 now ip lim) as [t' ok] eqn:E. destruct (exec t' cmds) as [tr' t''] eqn:Ex. intros [= <- ->].
    by eapply Hstep; [constructor|..].
  - destruct (Sweep t0 now _ _) as [t' out] eqn:E. destruct (exec t' cmds) as [tr' t''] eqn:Ex. intros [= <- ->].
    by eapply Hstep; [econstructor; [| |exact E]|..].
Qed.

Definition slow : @Client float64 := mkLimits 0 (fdiv (of_int 1) (of_int 1000)) 2 0.
(** The labels and times of a script's run are those of its commands. *)
Lemma exec_labels t cmds :
  Forall (fun e => match snd e with CAllow ip lim => ip = ipA /\ lim = slow | CSweep => True end) cmds ->
  Forall (fun e => match snd e with LAllow ip lim _ => ip = ipA /\ lim = slow | LSweep _ => True | _ => False end) (fst (exec t cmds)) /\
  fst <$> fst (exec t cmds) = fst <$> cmds.
Proof.
  intros H. revert t. induction H as [|[now c] cmds Hc _ IH]; intros t; [done|]. cbn [exec].
  destruct c as [ip lim|].
  - destruct (Limits.Allow t now ip lim) as [t' ok]. specialize (IH t'). destruct (exec t' cmds) as [tr t'']. simpl in *.
    destruct IH as [IH1 IH2]. split; [by constructor|by f_equal].
  - destruct (Sweep t now _ _) as [t' out]. specialize (IH t'). destruct (exec t' cmds) as [tr t'']. simpl in *.
    destruct IH as [IH1 IH2]. split; [by constructor|by f_equal].
Qed.

Definition slow_script : list (Z * cmd) :=
  [(0, CAllow ipA slow); (0, CAllow ipA slow); (0, CAllow ipA slow); (300 * Second + 1, CSweep);
   (300 * Second + 1, CAllow ipA slow); (300 * Second + 1, CAllow ipA slow)]%Z.

Definition allowed (tr : list (Z * @label float64)) : Z :=
  sum_over (fun l => match l with LAllow _ _ ok => b2z ok | _ => 0%Z end) tr.

(** Forgetting an idle entry refills its bucket: with a limit of one request per 1000 seconds and a burst of 2, four requests of one client are allowed within 301 seconds, because the sweep after five idle minutes drops the entry and the next request gets a full bucket. *)
Theorem forgetting_refills :
  exists tr t, run tr t /\ allowed tr = 4%Z /\
    Forall (fun e => 0 <= fst e <= 301 * Second)%Z tr /\
    Forall (fun e => match snd e with LAllow ip lim _ => ip = ipA /\ lim = slow | LSweep _ => True | _ => False end) tr.
Proof.
  exists (fst (exec NewTracker slow_script)), (snd (exec NewTracker slow_script)).
  split; [exact (exec_run [] NewTracker slow_script _ _ run_nil (surjective_pairing _))|].
  split; [vm_compute; reflexivity|].
  destruct (exec_labels NewTracker slow_script) as [Hlabels Htimes]; [by repeat constructor|]. split; [|exact Hlabels].
  enough (Forall (fun now => 0 <= now <= 301 * Second)%Z (fst <$> fst (exec NewTracker slow_script))) as H by (by apply Forall_fmap in H).
  rewrite Htimes. unfold slow_script. cbn [fmap list_fmap fst]. repeat constructor; unfold Second; lia.
Qed.
