(* ===== verification/DnsCacheFacts.v ===== *)
(** * The caching resolver of internal/dnscache/dnscache.go

    Invariants of the concurrent program, by induction on its steps: bounded
    concurrency, in all and per client, one lookup per name at a time, no
    waiter left behind, answers that belong to the name asked for. *)

From Stdlib Require Import ZArith NArith Ascii String Lia Bool List.
From stdpp Require Import base tactics list gmap strings option countable sets fin_maps.
From S2P Require Import Prelude GoStrings Netip GoFloat DnsCache.

(** ** Counting goroutines *)

Definition b2n (b : bool) : nat := if b then 1 else 0.
Definition count (P : thread -> bool) (l : list thread) : nat := length (List.filter P l).

Lemma count_cons P x l : count P (x :: l) = b2n (P x) + count P l.
Proof. unfold count. simpl. by destruct (P x). Qed.

Lemma count_nil P : count P [] = 0.
Proof. done. Qed.

Lemma count_app P l l' : count P (l ++ l') = count P l + count P l'.
Proof. unfold count. by rewrite List.filter_app, length_app. Qed.

Lemma count_update P l i x x' : l !! i = Some x -> count P (<[i := x']> l) + b2n (P x) = count P l + b2n (P x').
Proof.
  revert i. induction l as [|y l IH]; intros [|i]; [done..| |].
  - intros [= ->]. cbn [insert list_insert]. rewrite !count_cons. lia.
  - intros Hi. change (<[S i := x']> (y :: l)) with (y :: <[i := x']> l). rewrite !count_cons. specialize (IH i Hi). lia.
Qed.

Lemma count_same P l i x x' : l !! i = Some x -> P x' = P x -> count P (<[i := x']> l) = count P l.
Proof. intros Hi E. pose proof (count_update P l i x x' Hi) as H. rewrite E in H. lia. Qed.

Lemma count_step P l i x x' new :
  l !! i = Some x -> count P (<[i := x']> l ++ new) + b2n (P x) = count P l + b2n (P x') + count P new.
Proof. intros Hi. rewrite count_app. pose proof (count_update P l i x x' Hi). lia. Qed.

Lemma count_pos P l : 0 < count P l <-> exists i x, l !! i = Some x /\ P x = true.
Proof.
  induction l as [|y l IH]; [split; [unfold count; simpl; lia|by intros (i & x & Hi & _)]|]. rewrite count_cons. split.
  - destruct (P y) eqn:Hy; [intros _; by exists 0, y|]. intros H. simpl in H. apply IH in H as (i & x & Hi & Hx). by exists (S i), x.
  - intros ([|i] & x & Hi & Hx); simpl in Hi; [injection Hi as ->; rewrite Hx; simpl; lia|].
    assert (0 < count P l) by (apply IH; eauto). lia.
Qed.

Lemma count_le P Q l : (forall x, P x = true -> Q x = true) -> count P l <= count Q l.
Proof.
  intros H. induction l as [|y l IH]; [done|]. rewrite !count_cons. specialize (H y). destruct (P y), (Q y); simpl; naive_solver lia.
Qed.

Lemma count_two P l i j x y :
  l !! i = Some x -> l !! j = Some y -> P x = true -> P y = true -> count P l <= 1 -> i = j.
Proof.
  revert i j. induction l as [|z l IH]; intros [|i] [|j] Hi Hj Hx Hy; simpl in *; try done; rewrite count_cons.
  - injection Hi as ->. rewrite Hx. simpl. intros H. assert (0 < count P l) by (apply count_pos; eauto). lia.
  - injection Hj as ->. rewrite Hy. simpl. intros H. assert (0 < count P l) by (apply count_pos; eauto). lia.
  - intros H. f_equal. apply IH; try done. lia.
Qed.

(** The goroutines after a step: the old ones, the one that moved, new ones. *)
Lemma step_threads (l : list thread) i (x x' : thread) new y j :
  l !! i = Some x -> (<[i := x']> l ++ new) !! j = Some y -> (j = i /\ y = x') \/ (j <> i /\ l !! j = Some y) \/ y ∈ new.
Proof.
  intros Hi [Hj|[_ Hj]]%lookup_app_Some; [|right; right; by eapply list_elem_of_lookup_2].
  destruct (decide (j = i)) as [->|Hne].
  - rewrite list_lookup_insert_eq in Hj by (by eapply lookup_lt_Some). injection Hj as <-. by left.
  - rewrite list_lookup_insert_ne in Hj by done. auto.
Qed.

Lemma step_thread_old (l : list thread) i (x x' : thread) new y j :
  l !! i = Some x -> j <> i -> l !! j = Some y -> (<[i := x']> l ++ new) !! j = Some y.
Proof. intros Hi Hne Hj. rewrite lookup_app_l; [|rewrite length_insert; by eapply lookup_lt_Some]. by rewrite list_lookup_insert_ne. Qed.

Lemma step_thread_new (l : list thread) i (x x' : thread) new : l !! i = Some x -> (<[i := x']> l ++ new) !! i = Some x'.
Proof. intros Hi. rewrite lookup_app_l, list_lookup_insert_eq; [done|by eapply lookup_lt_Some|rewrite length_insert; by eapply lookup_lt_Some]. Qed.

(** ** What the slot operations leave alone *)

(** The parts of the state that have nothing to do with slots. *)
Definition main_part (r : Resolver) := (global r, entries r, flights r, flight_heap r, history r).

Lemma leave_main r s : main_part (leave r s) = main_part r.
Proof. unfold leave. by repeat case_match. Qed.

Lemma free_slot_main r s : main_part (free_slot r s) = main_part r.
Proof. unfold free_slot. by case_match. Qed.

Lemma enter_main r a r' i : enter r a = (r', i) -> main_part r' = main_part r.
Proof. unfold enter. by repeat case_match; intros; simplify_eq/=. Qed.

Ltac thread_cases :=
  repeat match goal with
  | s : option slot |- _ => destruct s
  | k : resume |- _ => destruct k
  | c : option Addr |- _ => destruct c
  end.

(** ** The total number of lookups *)

(** Goroutines that hold a place in [r.global]. *)
Definition in_global (x : thread) : bool := match x with RLookup _ _ _ | RGot _ _ _ _ => true | _ => false end.
(** Goroutines inside the underlying resolver. *)
Definition looking_up (x : thread) : bool := match x with RLookup _ _ _ => true | _ => false end.

Definition inv_global (r : Resolver) (l : list thread) : Prop := global r = count in_global l /\ global r <= maxConcurrent.

Lemma main_global r r' : main_part r' = main_part r -> global r' = global r.
Proof. unfold main_part. by intros [=]. Qed.

Lemma inv_global_step now r l i x r' x' new :
  inv_global r l -> l !! i = Some x -> tstep now r x r' x' new -> inv_global r' (<[i := x']> l ++ new).
Proof.
  intros [Hg Hb] Hi Hs. pose proof (count_step in_global l i x x' new Hi) as Hc. unfold inv_global.
  destruct Hs; rewrite ?(main_global _ _ (leave_main _ _)), ?(main_global _ _ (free_slot_main _ _));
    try match goal with H : enter _ _ = _ |- _ => rewrite (main_global _ _ (enter_main _ _ _ _ H)) end;
    try match goal with H : start_flight _ _ = _ |- _ => injection H as <- <- end;
    thread_cases; rewrite ?count_cons, ?count_nil in Hc; simpl in *; lia.
Qed.

(** ** Slots per client *)

(** The slot a goroutine uses, and whether it holds a place in its channel. *)
Definition slot_of (x : thread) : option (bool * slot) :=
  match x with
  | TSem s _ | TLeave s _ _ | RLeave s => Some (false, s)
  | TRelease s _ _ | RRelease s => Some (true, s)
  | TFind2 (Some s) _ | RStart (Some s) _ _ | RSelect (Some s) _ _ _ | RLookup (Some s) _ _ | RGot (Some s) _ _ _
  | RStore (Some s) _ _ _ | RPut (Some s) _ _ _ | RDelete (Some s) _ _ | RClose (Some s) _ _ => Some (true, s)
  | _ => None
  end.
Definition holds (i : nat) (x : thread) : bool := match slot_of x with Some (true, (_, j)) => Nat.eqb i j | _ => false end.
Definition uses (i : nat) (x : thread) : bool := match slot_of x with Some (_, (_, j)) => Nat.eqb i j | _ => false end.

Lemma holds_eq j x b a k : slot_of x = Some (b, (a, k)) -> holds j x = b && Nat.eqb j k.
Proof. unfold holds. intros ->. by destruct b. Qed.

Lemma uses_eq j x b a k : slot_of x = Some (b, (a, k)) -> uses j x = Nat.eqb j k.
Proof. unfold uses. by intros ->. Qed.

Lemma no_slot j x : slot_of x = None -> holds j x = false /\ uses j x = false.
Proof. unfold holds, uses. by intros ->. Qed.

Record inv_slots (r : Resolver) (l : list thread) : Prop := {
  sl_counts : forall i cs, slots_heap r !! i = Some cs ->
    sem cs = count (holds i) l /\ users cs = Z.of_nat (count (uses i) l) /\ sem cs <= maxPerClient;
  sl_client : forall j x b a i, l !! j = Some x -> slot_of x = Some (b, (a, i)) -> clients r !! a = Some i;
  sl_range : forall a i, clients r !! a = Some i -> i < length (slots_heap r);
  sl_inj : forall a a' i, clients r !! a = Some i -> clients r !! a' = Some i -> a = a';
  sl_used : forall a i, clients r !! a = Some i -> 0 < count (uses i) l
}.

Lemma uses_registered r l i :
  inv_slots r l -> 0 < count (uses i) l -> exists a, clients r !! a = Some i.
Proof.
  intros Hinv (j & x & Hj & Hx)%count_pos. unfold uses in Hx. destruct (slot_of x) as [[b [a i']]|] eqn:E; [|done].
  apply Nat.eqb_eq in Hx as <-. exists a. by eapply (sl_client _ _ Hinv).
Qed.

Lemma holds_uses i l : count (holds i) l <= count (uses i) l.
Proof. apply count_le. unfold holds, uses. intros x. destruct (slot_of x) as [[[] [a j]]|]; done. Qed.

(** A step that hands the slot on without touching it. *)
Lemma inv_slots_pass r l i x r' x' new :
  inv_slots r l -> l !! i = Some x -> slots_heap r' = slots_heap r -> clients r' = clients r ->
  (match new with [] => slot_of x' = slot_of x | [y] => slot_of x' = None /\ slot_of y = slot_of x | _ => False end) ->
  inv_slots r' (<[i := x']> l ++ new).
Proof.
  intros Hinv Hi Hs Hc Hnew.
  assert (Hcount : forall P, (forall y z, slot_of y = slot_of z -> P y = P z) -> (forall y, slot_of y = None -> P y = false) ->
            count P (<[i := x']> l ++ new) = count P l).
  { intros P HP HN. pose proof (count_step P l i x x' new Hi) as H. destruct new as [|y [|]]; [| |done].
    - rewrite count_nil, (HP _ _ Hnew) in H. lia.
    - destruct Hnew as [Hn Hy]. rewrite count_cons, count_nil, (HP _ _ Hy), (HN _ Hn) in H. simpl in H. lia. }
  constructor; rewrite ?Hs, ?Hc.
  - intros j cs Hcs. rewrite !Hcount; [by apply (sl_counts _ _ Hinv)|..]; unfold holds, uses; intros;
      repeat match goal with H : slot_of _ = _ |- _ => rewrite H end; done.
  - intros j y b a k Hj Hy. destruct (step_threads _ _ _ _ _ _ _ Hi Hj) as [[-> ->]|[[_ Hold]|Hin]].
    + destruct new as [|z [|]]; [rewrite Hnew in Hy; by eapply (sl_client _ _ Hinv)|destruct Hnew; congruence|done].
    + by eapply (sl_client _ _ Hinv).
    + destruct new as [|z [|]]; [by apply not_elem_of_nil in Hin| |done].
      apply list_elem_of_singleton in Hin as ->. destruct Hnew as [_ Hz]. rewrite Hz in Hy. by eapply (sl_client _ _ Hinv).
  - apply Hinv.
  - apply Hinv.
  - intros a k Hk. rewrite Hcount; [by apply (sl_used _ _ Hinv a)|..]; unfold uses; intros;
      repeat match goal with H : slot_of _ = _ |- _ => rewrite H end; done.
Qed.

(** A step that changes one [clientSlots] in place, and the slot state of the
    goroutine with it. *)
Lemma inv_slots_update r l i x r' x' b b' a k cs cs' :
  inv_slots r l -> l !! i = Some x -> slot_of x = Some (b, (a, k)) -> slot_of x' = Some (b', (a, k)) ->
  slots_heap r !! k = Some cs -> slots_heap r' = <[k := cs']> (slots_heap r) -> clients r' = clients r ->
  users cs' = users cs -> sem cs' + b2n b = sem cs + b2n b' -> sem cs' <= maxPerClient ->
  inv_slots r' (<[i := x']> l ++ []).
Proof.
  intros Hinv Hi Hx Hx' Hk Hs Hc Hu Hsem Hb. rewrite app_nil_r.
  pose proof (fun P => count_update P l i x x' Hi) as Hcount.
  constructor; rewrite ?Hs, ?Hc.
  - intros j cs0. pose proof (Hcount (holds j)) as Hh. pose proof (Hcount (uses j)) as Hus.
    rewrite (holds_eq _ _ _ _ _ Hx), (holds_eq _ _ _ _ _ Hx') in Hh. rewrite (uses_eq _ _ _ _ _ Hx), (uses_eq _ _ _ _ _ Hx') in Hus.
    destruct (decide (j = k)) as [->|Hne].
    + rewrite list_lookup_insert_eq by (by eapply lookup_lt_Some). intros [= <-].
      destruct (sl_counts _ _ Hinv k cs Hk) as (H1 & H2 & H3). rewrite Nat.eqb_refl in Hh, Hus. split_and!; [destruct b, b'; simpl in *; lia|simpl in *; lia|done].
    + rewrite list_lookup_insert_ne by done. intros Hcs. apply Nat.eqb_neq in Hne. rewrite Hne in Hh, Hus.
      destruct (sl_counts _ _ Hinv j cs0 Hcs) as (H1 & H2 & H3). split_and!; [destruct b, b'; simpl in *; lia|simpl in *; lia|done].
  - intros j y b0 a0 k0 Hj Hy. destruct (decide (j = i)) as [->|Hne].
    + rewrite list_lookup_insert_eq in Hj by (by eapply lookup_lt_Some). injection Hj as <-.
      rewrite Hx' in Hy. injection Hy as <- <- <-. by eapply (sl_client _ _ Hinv).
    + rewrite list_lookup_insert_ne in Hj by done. by eapply (sl_client _ _ Hinv).
  - intros a0 k0 H. rewrite length_insert. by eapply (sl_range _ _ Hinv).
  - apply Hinv.
  - intros a0 j Hj. pose proof (Hcount (uses j)) as Hus. rewrite (uses_eq _ _ _ _ _ Hx), (uses_eq _ _ _ _ _ Hx') in Hus.
    pose proof (sl_used _ _ Hinv a0 j Hj). lia.
Qed.

Lemma inv_slots_enter r l i x r' x' a k :
  inv_slots r l -> l !! i = Some x -> slot_of x = None -> slot_of x' = Some (false, (a, k)) -> enter r a = (r', k) ->
  inv_slots r' (<[i := x']> l ++ []).
Proof.
  intros Hinv Hi Hx Hx' He. rewrite app_nil_r. unfold enter in He.
  assert (Hcount : forall j, count (holds j) (<[i := x']> l) = count (holds j) l /\
                             count (uses j) (<[i := x']> l) = count (uses j) l + b2n (Nat.eqb j k)).
  { intros j. pose proof (count_update (holds j) l i x x' Hi) as Hh. pose proof (count_update (uses j) l i x x' Hi) as Hu.
    destruct (no_slot j x Hx) as [E1 E2]. rewrite E1, (holds_eq _ _ _ _ _ Hx') in Hh. rewrite E2, (uses_eq _ _ _ _ _ Hx') in Hu.
    simpl in Hh, Hu. lia. }
  assert (Hclient : forall (m : gmap Addr nat), m !! a = Some k -> (forall a' j, clients r !! a' = Some j -> m !! a' = Some j) ->
            forall j y b a' k', <[i := x']> l !! j = Some y -> slot_of y = Some (b, (a', k')) -> m !! a' = Some k').
  { intros m Hm Hsub j y b a' k' Hj Hy. destruct (decide (j = i)) as [->|Hne].
    - rewrite list_lookup_insert_eq in Hj by (by eapply lookup_lt_Some). injection Hj as <-. rewrite Hx' in Hy. by injection Hy as <- <- <-.
    - rewrite list_lookup_insert_ne in Hj by done. apply Hsub. by eapply (sl_client _ _ Hinv). }
  destruct (clients r !! a) as [k0|] eqn:Ea.
  - destruct (slots_heap r !! k0) as [cs|] eqn:Ek; [|apply lookup_ge_None in Ek; apply (sl_range _ _ Hinv) in Ea; lia].
    injection He as <- <-. constructor; cbn [slots_heap clients with_slots].
    + intros j cs0. destruct (Hcount j) as [-> ->]. destruct (decide (j = k0)) as [->|Hne].
      * rewrite list_lookup_insert_eq by (by eapply lookup_lt_Some). intros [= <-]. rewrite Nat.eqb_refl. simpl.
        destruct (sl_counts _ _ Hinv k0 cs Ek) as (H1 & H2 & H3). split_and!; [done|lia|done].
      * rewrite list_lookup_insert_ne by done. apply Nat.eqb_neq in Hne. rewrite Hne, Nat.add_0_r. apply (sl_counts _ _ Hinv).
    + by apply Hclient.
    + intros a' j Hj. rewrite length_insert. by eapply (sl_range _ _ Hinv).
    + apply Hinv.
    + intros a' j Hj. destruct (Hcount j) as [_ ->]. pose proof (sl_used _ _ Hinv a' j Hj). lia.
  - injection He as <- <-. constructor; cbn [slots_heap clients].
    + intros j cs0 [Hj|[Hge Hj]]%lookup_app_Some; destruct (Hcount j) as [-> ->].
      * apply lookup_lt_Some in Hj as Hlt. rewrite (proj2 (Nat.eqb_neq _ _)) by lia. rewrite Nat.add_0_r. by apply (sl_counts _ _ Hinv).
      * apply list_lookup_singleton_Some in Hj as [Hj <-]. assert (j = length (slots_heap r)) as -> by lia.
        rewrite Nat.eqb_refl. simpl. assert (Hz : count (uses (length (slots_heap r))) l = 0).
        { destruct (count (uses (length (slots_heap r))) l) eqn:E; [done|].
          destruct (uses_registered _ _ (length (slots_heap r)) Hinv) as [a' Ha']; [lia|]. apply (sl_range _ _ Hinv) in Ha'. lia. }
        pose proof (holds_uses (length (slots_heap r)) l). split_and!; [lia|lia|unfold maxPerClient; lia].
    + apply Hclient; [apply lookup_insert_eq|]. intros a' j Hj. rewrite lookup_insert_ne; [done|]. intros ->. congruence.
    + intros a' j. rewrite length_app. simpl. intros [[<- <-]|[_ Hj]]%lookup_insert_Some; [lia|]. apply (sl_range _ _ Hinv) in Hj. lia.
    + intros a1 a2 j [[<- <-]|[_ H1]]%lookup_insert_Some [[<- Hj]|[_ H2]]%lookup_insert_Some; [done| | |by eapply (sl_inj _ _ Hinv)].
      * apply (sl_range _ _ Hinv) in H2. lia.
      * apply (sl_range _ _ Hinv) in H1. lia.
    + intros a' j Hj. destruct (Hcount j) as [_ ->]. apply lookup_insert_Some in Hj as [[<- <-]|[_ Hj]].
      * rewrite Nat.eqb_refl. simpl. lia.
      * pose proof (sl_used _ _ Hinv a' j Hj). lia.
Qed.

Lemma inv_slots_leave r l i x x' a k :
  inv_slots r l -> l !! i = Some x -> slot_of x = Some (false, (a, k)) -> slot_of x' = None ->
  inv_slots (leave r (a, k)) (<[i := x']> l ++ []).
Proof.
  intros Hinv Hi Hx Hx'. rewrite app_nil_r. pose proof (sl_client _ _ Hinv _ _ _ _ _ Hi Hx) as Ha.
  unfold leave. cbn [snd fst]. destruct (slots_heap r !! k) as [cs|] eqn:Ek; [|apply lookup_ge_None in Ek; apply (sl_range _ _ Hinv) in Ha; lia].
  destruct (sl_counts _ _ Hinv k cs Ek) as (H1 & H2 & H3).
  assert (Hcount : forall j, count (holds j) (<[i := x']> l) = count (holds j) l /\
                             count (uses j) (<[i := x']> l) + b2n (Nat.eqb j k) = count (uses j) l).
  { intros j. pose proof (count_update (holds j) l i x x' Hi) as Hh. pose proof (count_update (uses j) l i x x' Hi) as Hu.
    destruct (no_slot j x' Hx') as [E1 E2]. rewrite E1, (holds_eq _ _ _ _ _ Hx) in Hh. rewrite E2, (uses_eq _ _ _ _ _ Hx) in Hu.
    simpl in Hh, Hu. lia. }
  assert (Hcounts : forall j cs0, <[k := mkSlots (sem cs) (users cs - 1)]> (slots_heap r) !! j = Some cs0 ->
    sem cs0 = count (holds j) (<[i := x']> l) /\ users cs0 = Z.of_nat (count (uses j) (<[i := x']> l)) /\ sem cs0 <= maxPerClient).
  { intros j cs0. destruct (Hcount j) as [-> Hu]. destruct (decide (j = k)) as [->|Hne].
    - rewrite list_lookup_insert_eq by (by eapply lookup_lt_Some). intros [= <-]. rewrite Nat.eqb_refl in Hu. simpl in *. split_and!; [done|lia|done].
    - rewrite list_lookup_insert_ne by done. apply Nat.eqb_neq in Hne. rewrite Hne, Nat.add_0_r in Hu. rewrite Hu. apply (sl_counts _ _ Hinv). }
  assert (Hold : forall j y b a' k', <[i := x']> l !! j = Some y -> slot_of y = Some (b, (a', k')) -> clients r !! a' = Some k').
  { intros j y b a' k' Hj Hy. destruct (decide (j = i)) as [->|Hne].
    - rewrite list_lookup_insert_eq in Hj by (by eapply lookup_lt_Some). injection Hj as <-. congruence.
    - rewrite list_lookup_insert_ne in Hj by done. by eapply (sl_client _ _ Hinv). }
  destruct (Z.eqb_spec (users cs - 1) 0) as [Hz|Hnz]; constructor; cbn [slots_heap clients with_slots]; try done.
  - intros j y b a' k' Hj Hy. pose proof (Hold _ _ _ _ _ Hj Hy) as Ha'. rewrite lookup_delete_ne; [done|]. intros <-.
    assert (k' = k) as -> by congruence. destruct (Hcount k) as [_ Hu]. rewrite Nat.eqb_refl in Hu. simpl in Hu.
    assert (0 < count (uses k) (<[i := x']> l)); [|lia]. apply count_pos. exists j, y. split; [done|]. rewrite (uses_eq _ _ _ _ _ Hy). apply Nat.eqb_refl.
  - intros a' j [_ Hj]%lookup_delete_Some. rewrite length_insert. by eapply (sl_range _ _ Hinv).
  - intros a1 a2 j [_ Hj1]%lookup_delete_Some [_ Hj2]%lookup_delete_Some. by eapply (sl_inj _ _ Hinv).
  - intros a' j [Hne Hj]%lookup_delete_Some. destruct (Hcount j) as [_ Hu]. pose proof (sl_used _ _ Hinv a' j Hj).
    rewrite (proj2 (Nat.eqb_neq j k)) in Hu by (intros ->; by apply Hne, (sl_inj _ _ Hinv _ _ k)). simpl in Hu. lia.
  - intros a' j Hj. rewrite length_insert. by eapply (sl_range _ _ Hinv).
  - apply Hinv.
  - intros a' j Hj. destruct (Hcount j) as [_ Hu]. pose proof (sl_used _ _ Hinv a' j Hj).
    destruct (Nat.eqb_spec j k) as [->|_]; simpl in Hu; lia.
Qed.

Lemma inv_slots_free r l i x x' a k :
  inv_slots r l -> l !! i = Some x -> slot_of x = Some (true, (a, k)) -> slot_of x' = Some (false, (a, k)) ->
  inv_slots (free_slot r (a, k)) (<[i := x']> l ++ []).
Proof.
  intros Hinv Hi Hx Hx'. pose proof (sl_client _ _ Hinv _ _ _ _ _ Hi Hx) as Hk. apply (sl_range _ _ Hinv) in Hk.
  apply lookup_lt_is_Some in Hk as [cs Hcs]. unfold free_slot. cbn [snd]. rewrite Hcs.
  destruct (sl_counts _ _ Hinv k cs Hcs) as (H1 & H2 & H3).
  assert (0 < sem cs).
  { rewrite H1. apply count_pos. exists i, x. split; [done|]. rewrite (holds_eq _ _ _ _ _ Hx). apply Nat.eqb_refl. }
  eapply inv_slots_update; try done; simpl; lia.
Qed.

(** Every step preserves the accounting of slots. *)
Lemma inv_slots_step now r l i x r' x' new :
  inv_slots r l -> l !! i = Some x -> tstep now r x r' x' new -> inv_slots r' (<[i := x']> l ++ new).
Proof.
  intros Hinv Hi Hs. destruct Hs;
    try match goal with H : start_flight _ _ = _ |- _ => injection H as <- <- end;
    try (thread_cases; by eapply inv_slots_pass).
  - by eapply inv_slots_enter.
  - destruct s as [a k]. destruct (sl_counts _ _ Hinv k cs) as (H1 & H2 & H3); [done|].
    eapply inv_slots_update; try done. simpl. lia.
  - destruct s. by eapply inv_slots_free.
  - destruct s. thread_cases; by eapply inv_slots_leave.
  - destruct s. by eapply inv_slots_free.
  - destruct s. by eapply inv_slots_leave.
Qed.

(** ** One flight per key *)

(** The flight that a goroutine is to finish, while it is registered. *)
Definition flying (x : thread) : option (gostring * nat) :=
  match x with
  | RStart _ k f | RSelect _ k f _ | RLookup _ k f | RGot _ k f _ | RStore _ k f _ | RPut _ k f _ | RDelete _ k f => Some (k, f)
  | _ => None
  end.
(** The flight whose channel a goroutine is to close. *)
Definition closing (x : thread) : option (gostring * nat) :=
  match x with RClose _ k f => Some (k, f) | _ => flying x end.
(** The flight a caller waits for, now or after giving back its slot. *)
Definition waiting (x : thread) : option (gostring * nat) :=
  match x with TWait k f | TRelease _ k (KWait f) | TLeave _ k (KWait f) => Some (k, f) | _ => None end.

Definition flies (k : gostring) (x : thread) : bool := bool_decide (fst <$> flying x = Some k).
Definition closes (f : nat) (x : thread) : bool := bool_decide (snd <$> closing x = Some f).

Record inv_flights (r : Resolver) (l : list thread) : Prop := {
  fl_one : forall k, count (flies k) l = b2n (bool_decide (is_Some (flights r !! k)));
  fl_mine : forall j x k f, l !! j = Some x -> flying x = Some (k, f) -> flights r !! k = Some f;
  fl_range : forall k f, flights r !! k = Some f -> f < length (flight_heap r);
  fl_closer : forall f fl, flight_heap r !! f = Some fl -> count (closes f) l = b2n (negb (fl_done fl));
  fl_keys : forall j x k f, l !! j = Some x -> closing x = Some (k, f) \/ waiting x = Some (k, f) ->
    exists fl, flight_heap r !! f = Some fl /\ fl_key fl = k;
  fl_inj : forall k k' f, flights r !! k = Some f -> flights r !! k' = Some f -> k = k'
}.

(** A registered flight exists, for the key it is registered under. *)
Lemma flight_exists r l k f :
  inv_flights r l -> flights r !! k = Some f -> exists fl, flight_heap r !! f = Some fl /\ fl_key fl = k.
Proof.
  intros Hinv Hk. pose proof (fl_one _ _ Hinv k) as Hone. rewrite bool_decide_true in Hone by eauto.
  assert (0 < count (flies k) l) as (j & x & Hj & Hx)%count_pos by (rewrite Hone; simpl; lia).
  apply bool_decide_eq_true in Hx. apply fmap_Some in Hx as ([k' f'] & Hx & E). simpl in E. subst k'.
  assert (f' = f) as -> by (pose proof (fl_mine _ _ Hinv _ _ _ _ Hj Hx); congruence).
  apply (fl_keys _ _ Hinv j x); [done|]. left. by destruct x.
Qed.

(** What the invariant needs to know about the flights. *)
Definition flight_shape (r : Resolver) := (flights r, (fun fl => (fl_key fl, fl_done fl)) <$> flight_heap r).

Lemma shape_lookup r r' f fl :
  flight_shape r' = flight_shape r -> flight_heap r' !! f = Some fl ->
  exists fl', flight_heap r !! f = Some fl' /\ fl_key fl' = fl_key fl /\ fl_done fl' = fl_done fl.
Proof.
  unfold flight_shape. intros [= _ E] Hf. apply (f_equal (fun l => l !! f)) in E. rewrite !list_lookup_fmap, Hf in E. simpl in E.
  symmetry in E. apply fmap_Some in E as (fl' & Hf' & [= E1 E2]). eauto.
Qed.

(** A step that leaves the flights alone, apart from the result of one. *)
Lemma inv_flights_pass r l i x r' x' :
  inv_flights r l -> l !! i = Some x -> flight_shape r' = flight_shape r ->
  flying x' = flying x -> closing x' = closing x ->
  (forall k f, waiting x' = Some (k, f) -> waiting x = Some (k, f) \/ flights r !! k = Some f) ->
  inv_flights r' (<[i := x']> l ++ []).
Proof.
  intros Hinv Hi Hshape Hfly Hclose Hwait. rewrite app_nil_r.
  assert (Hf : flights r' = flights r) by (unfold flight_shape in Hshape; congruence).
  assert (Hlen : length (flight_heap r') = length (flight_heap r)).
  { apply (f_equal (fun p => length (snd p))) in Hshape. simpl in Hshape. by rewrite !length_fmap in Hshape. }
  assert (Hback : forall f fl, flight_heap r !! f = Some fl -> exists fl', flight_heap r' !! f = Some fl' /\ fl_key fl' = fl_key fl).
  { intros f fl H. destruct (shape_lookup r' r f fl (eq_sym Hshape) H) as (fl' & ? & ? & _). eauto. }
  constructor; rewrite ?Hf, ?Hlen.
  - intros k. rewrite <- (fl_one _ _ Hinv k). apply (count_same (flies k) l i x); [done|]. unfold flies. by rewrite Hfly.
  - intros j y k f Hj Hy. destruct (decide (j = i)) as [->|Hne].
    + rewrite list_lookup_insert_eq in Hj by (by eapply lookup_lt_Some). injection Hj as <-. rewrite Hfly in Hy. by eapply (fl_mine _ _ Hinv).
    + rewrite list_lookup_insert_ne in Hj by done. by eapply (fl_mine _ _ Hinv).
  - apply Hinv.
  - intros f fl H. destruct (shape_lookup _ _ _ _ Hshape H) as (fl' & H' & _ & E). rewrite <- E, <- (fl_closer _ _ Hinv f fl' H').
    apply (count_same (closes f) l i x); [done|]. unfold closes. by rewrite Hclose.
  - intros j y k f Hj Hy. enough (exists fl, flight_heap r !! f = Some fl /\ fl_key fl = k) as (fl & H & <-) by (by apply Hback).
    destruct (decide (j = i)) as [->|Hne].
    + rewrite list_lookup_insert_eq in Hj by (by eapply lookup_lt_Some). injection Hj as <-. rewrite Hclose in Hy.
      destruct Hy as [Hy|Hy]; [by eapply (fl_keys _ _ Hinv); eauto|]. apply Hwait in Hy as [Hy|Hy]; [by eapply (fl_keys _ _ Hinv); eauto|].
      by eapply flight_exists.
    + rewrite list_lookup_insert_ne in Hj by done. by eapply (fl_keys _ _ Hinv).
  - apply Hinv.
Qed.

Lemma main_shape r r' : main_part r' = main_part r -> flight_shape r' = flight_shape r.
Proof. unfold main_part, flight_shape. by intros [= _ _ -> -> _]. Qed.

(** The open flight of a goroutine that is to close it. *)
Lemma closing_open r l i x k f :
  inv_flights r l -> l !! i = Some x -> closing x = Some (k, f) ->
  exists fl, flight_heap r !! f = Some fl /\ fl_key fl = k /\ fl_done fl = false.
Proof.
  intros Hinv Hi Hx. destruct (fl_keys _ _ Hinv i x k f Hi (or_introl Hx)) as (fl & Hf & Hk). exists fl. split_and!; [done..|].
  pose proof (fl_closer _ _ Hinv f fl Hf) as Hc. assert (0 < count (closes f) l); [|destruct (fl_done fl); [simpl in Hc; lia|done]].
  apply count_pos. exists i, x. split; [done|]. unfold closes. rewrite Hx. by apply bool_decide_eq_true.
Qed.

(** Setting the result of one's own flight keeps the shape. *)
Lemma set_result_shape r l i x k f res r' :
  inv_flights r l -> l !! i = Some x -> closing x = Some (k, f) -> flights r' = flights r ->
  flight_heap r' = <[f := mkFlight k false res]> (flight_heap r) -> flight_shape r' = flight_shape r.
Proof.
  intros Hinv Hi Hx Hf Hh. destruct (closing_open _ _ _ _ _ _ Hinv Hi Hx) as (fl & Hfl & Hk & Hd).
  unfold flight_shape. rewrite Hf, Hh, list_fmap_insert. f_equal. cbn [fl_key fl_done]. apply list_insert_id.
  rewrite list_lookup_fmap, Hfl. simpl. by rewrite Hk, Hd.
Qed.

Lemma findLocked_flight r now k f : fst (findLocked r now k) = Some f -> flights r !! k = Some f.
Proof. unfold findLocked. destruct (entries r !! k) as [e|]; [|done]. by destruct (now <? e_expires e)%Z. Qed.

Lemma findLocked_none r now k : findLocked r now k = (None, None) -> flights r !! k = None.
Proof. unfold findLocked. destruct (entries r !! k) as [e|]; [|by intros [= ->]]. destruct (now <? e_expires e)%Z; [done|by intros [= ->]]. Qed.

Lemma flies_eq k x k' f : flying x = Some (k', f) -> flies k x = bool_decide (k' = k).
Proof. unfold flies. intros ->. simpl. apply bool_decide_ext. split; congruence. Qed.

Lemma closes_eq f x k f' : closing x = Some (k, f') -> closes f x = bool_decide (f' = f).
Proof. unfold closes. intros ->. simpl. apply bool_decide_ext. split; congruence. Qed.

Lemma inv_flights_start now r l i s k r' f :
  inv_flights r l -> l !! i = Some (TFind2 s k) -> findLocked r now k = (None, None) -> start_flight r k = (r', f) ->
  inv_flights r' (<[i := TWait k f]> l ++ [RStart s k f]).
Proof.
  intros Hinv Hi Hnone%findLocked_none [= <- <-]. set (f := length (flight_heap r)).
  assert (Hcount : forall P, P (TFind2 s k) = false -> P (TWait k f) = false ->
            count P (<[i := TWait k f]> l ++ [RStart s k f]) = count P l + b2n (P (RStart s k f))).
  { intros P E1 E2. pose proof (count_step P l i _ (TWait k f) [RStart s k f] Hi) as H.
    rewrite E1, E2, count_cons, count_nil in H. simpl in H. lia. }
  assert (Hfresh : forall j x k' f', l !! j = Some x -> closing x = Some (k', f') \/ waiting x = Some (k', f') -> f' < f).
  { intros j x k' f' Hj Hx. destruct (fl_keys _ _ Hinv j x k' f' Hj Hx) as (fl & Hfl & _). by apply lookup_lt_Some in Hfl. }
  constructor; cbn [flights flight_heap].
  - intros k'. rewrite Hcount by done. rewrite (flies_eq k' (RStart s k f) k f) by done. rewrite (fl_one _ _ Hinv k').
    destruct (decide (k' = k)) as [->|Hne].
    + rewrite lookup_insert_eq, Hnone. rewrite bool_decide_false by (by intros []). rewrite !bool_decide_true; [done|eauto|done].
    + rewrite lookup_insert_ne by done. rewrite (bool_decide_false (k = k')) by congruence. simpl. lia.
  - intros j y k' f' Hj Hy. destruct (step_threads _ _ _ _ _ _ _ Hi Hj) as [[-> ->]|[[_ Hold]| ->%list_elem_of_singleton]]; [done| |].
    + pose proof (fl_mine _ _ Hinv _ _ _ _ Hold Hy) as H. rewrite lookup_insert_ne; [done|]. intros ->. congruence.
    + injection Hy as <- <-. apply lookup_insert_eq.
  - intros k' f'. rewrite length_app. simpl. intros [[<- <-]|[_ H]]%lookup_insert_Some; [subst f; lia|]. apply (fl_range _ _ Hinv) in H. lia.
  - intros f' fl [Hf|[Hge Hf]]%lookup_app_Some; rewrite Hcount by done; rewrite (closes_eq f' (RStart s k f) k f) by done.
    + rewrite (fl_closer _ _ Hinv f' fl Hf). apply lookup_lt_Some in Hf. rewrite bool_decide_false by (subst f; lia). simpl. lia.
    + apply list_lookup_singleton_Some in Hf as [Hf <-]. assert (f' = f) as -> by (subst f; lia). rewrite bool_decide_true by done.
      assert (count (closes f) l = 0) as ->; [|done]. destruct (count (closes f) l) eqn:E; [done|].
      assert (0 < count (closes f) l) as (j & x & Hj & Hx)%count_pos by lia. apply bool_decide_eq_true, fmap_Some in Hx as ([k' f'] & Hx & E').
      simpl in E'. subst f'. specialize (Hfresh _ _ _ _ Hj (or_introl Hx)). lia.
  - intros j y k' f' Hj Hy. destruct (step_threads _ _ _ _ _ _ _ Hi Hj) as [[-> ->]|[[_ Hold]| ->%list_elem_of_singleton]].
    + destruct Hy as [|[= <- <-]]; [done|]. exists (mkFlight k false (Ok [])). split; [by apply list_lookup_middle|done].
    + destruct (fl_keys _ _ Hinv j y k' f' Hold Hy) as (fl & Hfl & Hk). exists fl. split; [by apply lookup_app_l_Some|done].
    + destruct Hy as [[= <- <-]|]; [|done]. exists (mkFlight k false (Ok [])). split; [by apply list_lookup_middle|done].
  - intros k1 k2 f' [[<- <-]|[_ H1]]%lookup_insert_Some [[<- Hf]|[_ H2]]%lookup_insert_Some; [done| | |by eapply (fl_inj _ _ Hinv)].
    + apply (fl_range _ _ Hinv) in H2. lia.
    + apply (fl_range _ _ Hinv) in H1. subst f. lia.
Qed.

Lemma inv_flights_delete r l i s k f r' :
  inv_flights r l -> l !! i = Some (RDelete s k f) -> flights r' = delete k (flights r) -> flight_heap r' = flight_heap r ->
  inv_flights r' (<[i := RClose s k f]> l ++ []).
Proof.
  intros Hinv Hi Hf Hh. rewrite app_nil_r. pose proof (fl_mine _ _ Hinv _ _ _ _ Hi eq_refl) as Hk.
  assert (Hone : count (flies k) l = 1) by (rewrite (fl_one _ _ Hinv k), bool_decide_true by eauto; done).
  constructor; rewrite ?Hf, ?Hh.
  - intros k'. pose proof (count_update (flies k') l i _ (RClose s k f) Hi) as H.
    rewrite (flies_eq k' (RDelete s k f) k f) in H by done. change (flies k' (RClose s k f)) with false in H.
    rewrite (fl_one _ _ Hinv k') in H. destruct (decide (k' = k)) as [->|Hne].
    + rewrite lookup_delete_eq. rewrite (bool_decide_false (is_Some None)) by (by intros []).
      rewrite !bool_decide_true in H by eauto. simpl in *. lia.
    + rewrite lookup_delete_ne by done. rewrite (bool_decide_false (k = k')) in H by congruence. simpl in H. lia.
  - intros j y k' f' Hj Hy. destruct (decide (j = i)) as [->|Hne].
    + rewrite list_lookup_insert_eq in Hj by (by eapply lookup_lt_Some). injection Hj as <-. done.
    + rewrite list_lookup_insert_ne in Hj by done. rewrite lookup_delete_ne; [by eapply (fl_mine _ _ Hinv)|]. intros <-.
      apply Hne. eapply (count_two (flies k)); [exact Hj|exact Hi|by rewrite (flies_eq _ _ _ _ Hy), bool_decide_true| |lia].
      by rewrite (flies_eq k (RDelete s k f) k f), bool_decide_true.
  - intros k' f' [_ H]%lookup_delete_Some. by eapply (fl_range _ _ Hinv).
  - intros f' fl Hfl. rewrite <- (fl_closer _ _ Hinv f' fl Hfl). by apply (count_same _ _ _ (RDelete s k f)).
  - intros j y k' f' Hj Hy. destruct (decide (j = i)) as [->|Hne].
    + rewrite list_lookup_insert_eq in Hj by (by eapply lookup_lt_Some). injection Hj as <-. by eapply (fl_keys _ _ Hinv _ (RDelete s k f)).
    + rewrite list_lookup_insert_ne in Hj by done. by eapply (fl_keys _ _ Hinv).
  - intros k1 k2 f' [_ H1]%lookup_delete_Some [_ H2]%lookup_delete_Some. by eapply (fl_inj _ _ Hinv).
Qed.

Lemma inv_flights_close r l i s k f res r' :
  inv_flights r l -> l !! i = Some (RClose s k f) -> flights r' = flights r ->
  flight_heap r' = <[f := mkFlight k true res]> (flight_heap r) -> inv_flights r' (<[i := after_close s]> l ++ []).
Proof.
  intros Hinv Hi Hf Hh. rewrite app_nil_r. destruct (closing_open _ _ _ _ k f Hinv Hi eq_refl) as (fl0 & Hfl0 & Hk0 & Hd0).
  assert (Hafter : flying (after_close s) = None /\ closing (after_close s) = None /\ waiting (after_close s) = None) by (by destruct s).
  destruct Hafter as (Ea1 & Ea2 & Ea3).
  constructor; rewrite ?Hf, ?Hh, ?length_insert.
  - intros k'. rewrite <- (fl_one _ _ Hinv k'). apply (count_same _ _ _ (RClose s k f)); [done|]. unfold flies. by rewrite Ea1.
  - intros j y k' f' Hj Hy. destruct (decide (j = i)) as [->|Hne].
    + rewrite list_lookup_insert_eq in Hj by (by eapply lookup_lt_Some). congruence.
    + rewrite list_lookup_insert_ne in Hj by done. by eapply (fl_mine _ _ Hinv).
  - apply Hinv.
  - intros f' fl. pose proof (count_update (closes f') l i _ (after_close s) Hi) as H.
    rewrite (closes_eq f' (RClose s k f) k f) in H by done. assert (closes f' (after_close s) = false) as E by (unfold closes; by rewrite Ea2).
    rewrite E in H. destruct (decide (f' = f)) as [->|Hne].
    + rewrite list_lookup_insert_eq by (by eapply lookup_lt_Some). intros [= <-].
      rewrite (fl_closer _ _ Hinv f fl0 Hfl0), Hd0, bool_decide_true in H by done. simpl in *. lia.
    + rewrite list_lookup_insert_ne by done. intros Hfl. rewrite (fl_closer _ _ Hinv f' fl Hfl), bool_decide_false in H by congruence. simpl in H. lia.
  - intros j y k' f' Hj Hy. assert (exists fl, flight_heap r !! f' = Some fl /\ fl_key fl = k') as (fl & Hfl & Hk).
    { destruct (decide (j = i)) as [->|Hne].
      - rewrite list_lookup_insert_eq in Hj by (by eapply lookup_lt_Some). injection Hj as <-. destruct Hy; congruence.
      - rewrite list_lookup_insert_ne in Hj by done. by eapply (fl_keys _ _ Hinv). }
    destruct (decide (f' = f)) as [->|Hne].
    + exists (mkFlight k true res). rewrite list_lookup_insert_eq by (by eapply lookup_lt_Some). split; [done|]. simpl. congruence.
    + exists fl. by rewrite list_lookup_insert_ne.
  - apply Hinv.
Qed.

(** Every step preserves the accounting of flights. *)
Lemma inv_flights_step now r l i x r' x' new :
  inv_flights r l -> l !! i = Some x -> tstep now r x r' x' new -> inv_flights r' (<[i := x']> l ++ new).
Proof.
  intros Hinv Hi Hs. destruct Hs;
    try (thread_cases; eapply inv_flights_pass; try done; naive_solver);
    try (thread_cases; eapply inv_flights_pass; try done; try (intros ? ? [= <- <-]; right; by eapply findLocked_flight); naive_solver).
  - eapply inv_flights_pass; try done. by eapply main_shape, enter_main.
  - by eapply inv_flights_start.
  - thread_cases; eapply inv_flights_pass; try done; try apply main_shape, free_slot_main; naive_solver.
  - thread_cases; eapply inv_flights_pass; try done; try apply main_shape, leave_main; naive_solver.
  - eapply inv_flights_pass; try done. by eapply set_result_shape.
  - eapply inv_flights_pass; try done. by eapply set_result_shape.
  - by eapply inv_flights_delete.
  - by eapply inv_flights_close.
  - eapply inv_flights_pass; try done. apply main_shape, free_slot_main.
  - eapply inv_flights_pass; try done. apply main_shape, leave_main.
Qed.
