(* ===== verification/DnsCacheRuns.v ===== *)
(** * Runs of the caching resolver of internal/dnscache/dnscache.go

    Where answers come from, how long they are kept, and what holds in every
    state the concurrent program can reach. *)

From Stdlib Require Import ZArith NArith Ascii String Lia Bool List.
From stdpp Require Import base tactics list gmap strings option countable sets fin_maps relations.
From S2P Require Import Prelude GoStrings Netip GoFloat DnsCache DnsCacheFacts.

(** ** Answers *)

(** [res] is what the underlying resolver answered for [k], or the error of a
    context that was done. *)
Definition answer_ok (h : list (gostring * result (list Addr))) (k : gostring) (res : result (list Addr)) : Prop :=
  (k, res) ∈ h \/ exists e, ctx_err e /\ res = Err e.

(** The flight has its final result. *)
Definition settled (r : Resolver) (f : nat) : Prop :=
  exists fl, flight_heap r !! f = Some fl /\ answer_ok (history r) (fl_key fl) (fl_res fl).

Definition thread_ok (r : Resolver) (x : thread) : Prop :=
  match x with
  | TReturn k res | TRelease _ k (KReturn res) | TLeave _ k (KReturn res) => answer_ok (history r) k res
  | RGot _ k f res | RStore _ k f res => (k, res) ∈ history r /\ settled r f
  | RPut _ k f e => (k, e_res e) ∈ history r /\ settled r f
  | RDelete _ _ f | RClose _ _ f => settled r f
  | _ => True
  end.

Record inv_answers (r : Resolver) (l : list thread) : Prop := {
  an_entries : forall k e, entries r !! k = Some e -> (k, e_res e) ∈ history r;
  an_done : forall f fl, flight_heap r !! f = Some fl -> fl_done fl = true -> answer_ok (history r) (fl_key fl) (fl_res fl);
  an_threads : forall j x, l !! j = Some x -> thread_ok r x
}.

(** The history grows, and final results stay. *)
Definition grows (r r' : Resolver) : Prop :=
  (forall y, y ∈ history r -> y ∈ history r') /\ (forall f, settled r f -> settled r' f).

Lemma answer_ok_grows r r' k res : grows r r' -> answer_ok (history r) k res -> answer_ok (history r') k res.
Proof. intros [Hh _] [?|?]; [left; by apply Hh|by right]. Qed.

Lemma thread_ok_grows r r' x : grows r r' -> thread_ok r x -> thread_ok r' x.
Proof.
  intros Hg. pose proof (fun k res => answer_ok_grows r r' k res Hg) as Ha. destruct Hg as [Hh Hs].
  destruct x; simpl; try done; try (intros []; split; auto); try apply Hs; try (case_match; auto); apply Ha.
Qed.

(** Operations that only touch slots, counters and maps of flights. *)
Lemma grows_same r r' : flight_heap r' = flight_heap r -> history r' = history r -> grows r r'.
Proof. intros Hf Hh. split; [by rewrite Hh|]. unfold settled. by rewrite Hf, Hh. Qed.

Lemma main_heap r r' : main_part r' = main_part r -> flight_heap r' = flight_heap r /\ history r' = history r /\ entries r' = entries r.
Proof. unfold main_part. by intros [= _ -> _ -> ->]. Qed.

(** Setting a flight to an acceptable result. *)
Lemma grows_set r r' f fl0 fl :
  flight_heap r !! f = Some fl0 -> flight_heap r' = <[f := fl]> (flight_heap r) ->
  (forall y, y ∈ history r -> y ∈ history r') -> answer_ok (history r') (fl_key fl) (fl_res fl) -> grows r r' /\ settled r' f.
Proof.
  intros Hf Hh Hhist Ha.
  assert (Hset : settled r' f).
  { exists fl. rewrite Hh, list_lookup_insert_eq by (by eapply lookup_lt_Some). done. }
  split; [|done]. split; [done|]. intros f' (fl' & Hf' & Ha'). destruct (decide (f' = f)) as [->|Hne]; [done|].
  exists fl'. rewrite Hh, list_lookup_insert_ne by done. split; [done|]. destruct Ha' as [?|?]; [left; by apply Hhist|by right].
Qed.

Lemma inv_answers_step_threads r l i x r' x' new :
  inv_answers r l -> l !! i = Some x -> grows r r' -> thread_ok r' x' -> Forall (thread_ok r') new ->
  forall j y, (<[i := x']> l ++ new) !! j = Some y -> thread_ok r' y.
Proof.
  intros Hinv Hi Hg Hx Hnew j y Hj. destruct (step_threads _ _ _ _ _ _ _ Hi Hj) as [[_ ->]|[[_ Hold]|Hin]]; [done| |].
  - eapply thread_ok_grows; [done|]. by eapply (an_threads _ _ Hinv).
  - apply list_elem_of_In in Hin. by apply (proj1 (List.Forall_forall _ _) Hnew) in Hin.
Qed.

(** Steps that leave answers, entries and results alone. *)
Lemma inv_answers_pass r l i x r' x' new :
  inv_answers r l -> l !! i = Some x -> flight_heap r' = flight_heap r -> history r' = history r -> entries r' = entries r ->
  thread_ok r x' -> Forall (thread_ok r) new -> inv_answers r' (<[i := x']> l ++ new).
Proof.
  intros Hinv Hi Hf Hh He Hx Hnew. pose proof (grows_same _ _ Hf Hh) as Hg. constructor.
  - rewrite He, Hh. apply Hinv.
  - rewrite Hf, Hh. apply Hinv.
  - eapply inv_answers_step_threads; [done..|by eapply thread_ok_grows|]. eapply Forall_impl; [done|]. intros y. by apply thread_ok_grows.
Qed.

Lemma filter_lookup_incl (P : gostring * entry -> Prop) `{forall x, Decision (P x)} (m : gmap gostring entry) k e :
  filter P m !! k = Some e -> m !! k = Some e.
Proof. by intros [? _]%map_lookup_filter_Some. Qed.

Lemma evict_lookup order m k e : evict order m !! k = Some e -> m !! k = Some e.
Proof.
  revert m. induction order as [|k' order IH]; intros m; simpl; [done|]. destruct (size m <? maxEntries); [done|].
  intros [_ H]%IH%lookup_delete_Some. done.
Qed.

Lemma store_entries_lookup order now m key e k e' :
  store_entries order now m key e !! k = Some e' -> (k = key /\ e' = e) \/ m !! k = Some e'.
Proof.
  unfold store_entries. intros [[<- <-]|[_ H]]%lookup_insert_Some; [by left|right]. destruct (maxEntries <=? size m); [|done].
  apply evict_lookup in H. unfold drop_expired in H. by apply filter_lookup_incl in H.
Qed.

Lemma entry_of_res now res e : entry_of now res = Some e -> e_res e = res.
Proof. unfold entry_of. destruct res as [[|a l]|er]; [done|..]; by intros [= <-]. Qed.

(** A step that gives a flight a result. *)
Lemma inv_answers_result r l i x r' x' k f d res :
  inv_flights r l -> inv_answers r l -> l !! i = Some x -> closing x = Some (k, f) ->
  flight_heap r' = <[f := mkFlight k d res]> (flight_heap r) -> entries r' = entries r ->
  (forall y, y ∈ history r -> y ∈ history r') -> answer_ok (history r') k res -> (settled r' f -> thread_ok r' x') ->
  inv_answers r' (<[i := x']> l ++ []).
Proof.
  intros Hfl Hinv Hi Hx Hh He Hhist Ha Hx'. destruct (closing_open _ _ _ _ _ _ Hfl Hi Hx) as (fl0 & Hf0 & _ & _).
  destruct (grows_set r r' f fl0 (mkFlight k d res) Hf0 Hh Hhist Ha) as [Hg Hset]. constructor.
  - intros k' e. rewrite He. intros H%(an_entries _ _ Hinv). by apply Hhist.
  - intros f' fl. rewrite Hh. destruct (decide (f' = f)) as [->|Hne].
    + rewrite list_lookup_insert_eq by (by eapply lookup_lt_Some). by intros [= <-].
    + rewrite list_lookup_insert_ne by done. intros H1 H2. eapply answer_ok_grows; [done|]. by eapply (an_done _ _ Hinv).
  - eapply inv_answers_step_threads; [done..|by apply Hx'|constructor].
Qed.

(** Answers are only ever taken from the resolver. *)
Lemma inv_answers_step now r l i x r' x' new :
  inv_flights r l -> inv_answers r l -> l !! i = Some x -> tstep now r x r' x' new -> inv_answers r' (<[i := x']> l ++ new).
Proof.
  intros Hfl Hinv Hi Hs. pose proof (an_threads _ _ Hinv i x Hi) as Hok.
  assert (Hcached : forall key e, findLocked r now key = (None, Some e) -> answer_ok (history r) key (e_res e)).
  { intros key e H. left. apply (an_entries _ _ Hinv). unfold findLocked in H. destruct (entries r !! key) as [e'|]; [|done].
    destruct (now <? e_expires e')%Z; [|done]. by injection H as ->. }
  destruct Hs; simpl in Hok;
    try (thread_cases; by eapply inv_answers_pass; [..|constructor]);
    try (thread_cases; eapply inv_answers_pass; [done|done|done|done|done| |by constructor]; simpl; by (apply Hcached || (right; eauto))).
  all: try (match goal with H : enter _ _ = _ |- _ => apply enter_main in H; apply main_heap in H as (? & ? & ?) end;
            by eapply inv_answers_pass; [..|constructor]).
  all: try (match goal with |- context [leave ?r ?s] => destruct (main_heap _ _ (leave_main r s)) as (? & ? & ?) end;
            thread_cases; by eapply inv_answers_pass; [..|constructor]).
  all: try (match goal with |- context [free_slot ?r ?s] => destruct (main_heap _ _ (free_slot_main r s)) as (? & ? & ?) end;
            thread_cases; by eapply inv_answers_pass; [..|constructor]).
  - eapply inv_answers_pass; [done..| |constructor]. simpl. by apply Hcached.
  - destruct s; (eapply inv_answers_pass; [done..| |constructor]); simpl; by apply Hcached.
  - match goal with H : start_flight _ _ = _ |- _ => injection H as <- <- end. constructor; cbn [entries flight_heap history].
    + apply Hinv.
    + intros f fl [Hf|[_ Hf]]%lookup_app_Some; [by apply (an_done _ _ Hinv f)|]. apply list_lookup_singleton_Some in Hf as [_ <-]. done.
    + apply (inv_answers_step_threads r l i (TFind2 s key)); [done..| |done|by repeat constructor]. split; [done|].
      intros f (fl & Hf & Ha). exists fl. split; [by apply lookup_app_l_Some|done].
  - eapply inv_answers_pass; [done..| |constructor]. simpl.
    destruct (fl_keys _ _ Hfl i (TWait key f) key f Hi (or_intror eq_refl)) as (fl' & Hf' & <-).
    assert (fl' = fl) as -> by congruence. by apply (an_done _ _ Hinv f).
  - eapply inv_answers_result; try done. right. exists EDeadline. split; [by right|done].
  - eapply inv_answers_result; try done; cbn [history].
    + intros y Hy. apply elem_of_app. by left.
    + left. apply elem_of_app. right. left.
    + intros Hset. split; [|done]. apply elem_of_app. right. left.
  - eapply inv_answers_pass; [done..| |constructor]. simpl. by rewrite (entry_of_res _ _ _ H).
  - constructor; cbn [entries flight_heap history].
    + intros k e' [[-> ->]|H']%store_entries_lookup; [apply Hok|by apply (an_entries _ _ Hinv)].
    + apply Hinv.
    + apply (inv_answers_step_threads r l i (RPut s key f e)); [done..|by apply grows_same|apply Hok|constructor].
  - eapply inv_answers_pass; [done..|apply Hok|constructor].
  - destruct Hok as (fl' & Hf' & Ha). assert (fl' = fl) as -> by congruence.
    destruct (fl_keys _ _ Hfl i (RClose s key f) key f Hi (or_introl eq_refl)) as (fl'' & Hf'' & Hk).
    assert (fl'' = fl) as -> by congruence. eapply inv_answers_result; try done; [by rewrite <- Hk|]. intros _. by destruct s.
Qed.

(** ** The cache *)

Lemma evict_size order m :
  order ≡ₚ fst <$> map_to_list m -> size (evict order m) < maxEntries.
Proof.
  revert m. induction order as [|k order IH]; intros m Ho; simpl.
  - apply Permutation_nil, fmap_nil_inv in Ho. apply map_to_list_empty_iff in Ho as ->. rewrite map_size_empty. unfold maxEntries. lia.
  - destruct (Nat.ltb_spec (size m) maxEntries) as [|Hge]; [done|]. apply IH.
    assert (Hk : k ∈ fst <$> map_to_list m) by (rewrite <- Ho; left).
    apply list_elem_of_fmap in Hk as ([k' e] & -> & Hk%elem_of_map_to_list). simpl in *.
    rewrite <- (map_to_list_delete m k' e Hk) in Ho. simpl in Ho. by apply Permutation_cons_inv in Ho.
Qed.

Lemma store_entries_size order now m key e :
  order ≡ₚ fst <$> map_to_list (drop_expired now m) -> size (store_entries order now m key e) <= maxEntries.
Proof.
  intros Ho. unfold store_entries. pose proof (evict_size _ _ Ho) as He.
  assert (Hins : forall m' : gmap gostring entry, size m' < maxEntries -> size (<[key := e]> m') <= maxEntries).
  { intros m' Hm'. rewrite map_size_insert. destruct (m' !! key); unfold id; lia. }
  destruct (Nat.leb_spec maxEntries (size m)); apply Hins; lia.
Qed.

Local Open Scope Z_scope.

(** An entry is kept for at most [ttl]. *)
Definition inv_cache (now : Z) (r : Resolver) (l : list thread) : Prop :=
  (size (entries r) <= maxEntries)%nat /\
  (forall k e, entries r !! k = Some e -> e_expires e <= now + ttl) /\
  (forall j s k f e, l !! j = Some (RPut s k f e) -> e_expires e <= now + ttl).

Lemma entry_of_expires now res e : entry_of now res = Some e -> now < e_expires e <= now + ttl.
Proof.
  unfold entry_of, ttl, negativeTTL, failureTTL, Second. destruct res as [[|a l]|er]; [done|..]; intros [= <-]; simpl; [lia|].
  destruct (as_dns er) as [[]|]; lia.
Qed.

Lemma main_entries r r' : main_part r' = main_part r -> entries r' = entries r.
Proof. by intros (_ & _ & ?)%main_heap. Qed.

Lemma inv_cache_step now r l i x r' x' new :
  inv_cache now r l -> l !! i = Some x -> tstep now r x r' x' new -> inv_cache now r' (<[i := x']> l ++ new).
Proof.
  intros (Hsize & Hexp & Hput) Hi Hs.
  assert (Hputs : (forall s k f e, x' = RPut s k f e -> e_expires e <= now + ttl) -> (forall s k f e, RPut s k f e ∉ new) ->
            forall j s k f e, (<[i := x']> l ++ new) !! j = Some (RPut s k f e) -> e_expires e <= now + ttl).
  { intros H1 H2 j s k f e Hj. destruct (step_threads _ _ _ _ _ _ _ Hi Hj) as [[_ E]|[[_ Hold]|Hin]]; [by eapply H1|by eapply Hput|by apply H2 in Hin]. }
  assert (Hpass : entries r' = entries r -> (forall s k f e, x' = RPut s k f e -> e_expires e <= now + ttl) -> (forall s k f e, RPut s k f e ∉ new) ->
            inv_cache now r' (<[i := x']> l ++ new)).
  { intros He H1 H2. split_and!; [by rewrite He|by rewrite He|by apply Hputs]. }
  assert (Hnil : forall s k f e, RPut s k f e ∉ @nil thread) by (intros; apply not_elem_of_nil).
  destruct Hs; try (apply Hpass; [done|intros; thread_cases; simplify_eq|done]; fail).
  - apply Hpass; [by eapply main_entries, enter_main|done|done].
  - match goal with H : start_flight _ _ = _ |- _ => injection H as <- <- end. apply Hpass; [done|done|].
    intros s0 k0 f0 e0 Hin%list_elem_of_singleton. done.
  - apply Hpass; [apply main_entries, free_slot_main|done|done].
  - apply Hpass; [apply main_entries, leave_main|intros; by destruct k|done].
  - apply Hpass; [done| |done]. intros s0 k0 f0 e0 [= <- <- <- <-]. apply entry_of_expires in H. lia.
  - split_and!; cbn [entries].
    + by apply store_entries_size.
    + intros k e' [[-> ->]|H']%store_entries_lookup; [by eapply Hput|by eapply Hexp].
    + by apply Hputs.
  - apply Hpass; [apply main_entries, free_slot_main|done|done].
  - apply Hpass; [apply main_entries, leave_main|done|done].
Qed.

(** ** Reachable states *)

Record sys_inv (σ : system) : Prop := {
  si_global : inv_global (res σ) (threads σ);
  si_slots : inv_slots (res σ) (threads σ);
  si_flights : inv_flights (res σ) (threads σ);
  si_answers : inv_answers (res σ) (threads σ);
  si_cache : inv_cache (clock σ) (res σ) (threads σ)
}.

Lemma sys_step_inv σ σ' : sys_inv σ -> sys_step σ σ' -> sys_inv σ'.
Proof.
  intros [Hg Hs Hf Ha Hc] Hstep. destruct Hstep as [σ now Hle|σ c network host|σ i x r' x' new Hi Ht].
  - constructor; simpl; try done. destruct Hc as (H1 & H2 & H3). split_and!; [done|..].
    + intros k e He. specialize (H2 k e He). lia.
    + intros j s k f e He. specialize (H3 j s k f e He). lia.
  - set (x := TFind c (cache_key network host)). simpl.
    assert (Hcount : forall P, P x = false -> count P (threads σ ++ [x]) = count P (threads σ)).
    { intros P E. rewrite count_app, count_cons, count_nil, E. simpl. lia. }
    assert (Hold : forall j y, (threads σ ++ [x]) !! j = Some y -> threads σ !! j = Some y \/ y = x).
    { intros j y [H|[_ H]]%lookup_app_Some; [by left|]. apply list_lookup_singleton_Some in H as [_ <-]. by right. }
    constructor; simpl.
    + destruct Hg as [E Hb]. split; [by rewrite Hcount|done].
    + destruct Hs as [H1 H2 H3 H4 H5]. constructor; try done.
      * intros j cs Hcs. rewrite !Hcount by done. by apply H1.
      * intros j y b a k [Hj| ->]%Hold Hy; [by eapply H2|done].
      * intros a j Hj. rewrite Hcount by done. by eapply H5.
    + destruct Hf as [H1 H2 H3 H4 H5 H6]. constructor; try done.
      * intros k. by rewrite Hcount.
      * intros j y k f [Hj| ->]%Hold Hy; [by eapply H2|done].
      * intros f fl Hfl. rewrite Hcount by done. by apply H4.
      * intros j y k f [Hj| ->]%Hold Hy; [by eapply H5|naive_solver].
    + destruct Ha as [H1 H2 H3]. constructor; try done. intros j y [Hj| ->]%Hold; [by eapply H3|done].
    + destruct Hc as (H1 & H2 & H3). split_and!; try done. intros j s k f e [Hj|?]%Hold; [by eapply H3|done].
  - constructor; simpl.
    + by eapply inv_global_step.
    + by eapply inv_slots_step.
    + by eapply inv_flights_step.
    + by eapply inv_answers_step.
    + by eapply inv_cache_step.
Qed.

Lemma reachable_inv σ : reachable σ -> sys_inv σ.
Proof.
  induction 1 as [now|σ σ' _ IH Hstep]; [|by eapply sys_step_inv]. constructor; simpl.
  - split; [done|unfold maxConcurrent; simpl; lia].
  - by constructor.
  - constructor; simpl; try done.
  - by constructor.
  - split_and!; [|done|done]. change (size (∅ : gmap gostring entry) <= maxEntries)%nat. rewrite map_size_empty. lia.
Qed.

(** ** What the resolver promises *)

Lemma count_le_in P Q l : (forall j x, l !! j = Some x -> P x = true -> Q x = true) -> (count P l <= count Q l)%nat.
Proof.
  induction l as [|y l IH]; intros H; [done|]. rewrite !count_cons. specialize (IH (fun j => H (S j))). specialize (H 0%nat y eq_refl).
  destruct (P y), (Q y); simpl; naive_solver lia.
Qed.

(** Lookups in progress on behalf of [a]. *)
Definition lookup_for (a : Addr) (x : thread) : bool :=
  match x with RLookup (Some (a', _)) _ _ => bool_decide (a' = a) | _ => false end.

Lemma lookup_for_true a x : lookup_for a x = true -> exists i k f, x = RLookup (Some (a, i)) k f.
Proof. destruct x; try done. simpl. destruct s as [[a' i]|]; [|done]. intros ->%bool_decide_eq_true. eauto. Qed.

(** C25: lookups are bounded: at no time are more than 256 calls of the underlying resolver in progress, nor more than 32 on behalf of one client, whatever the interleaving and however long they take. *)
Theorem lookups_bounded σ :
  reachable σ -> (count looking_up (threads σ) <= 256)%nat /\ forall a, (count (lookup_for a) (threads σ) <= 32)%nat.
Proof.
  intros [[Hg Hb] Hs _ _ _]%reachable_inv. split.
  - rewrite Hg in Hb. etransitivity; [|exact Hb]. apply count_le. by intros [].
  - intros a. destruct (count (lookup_for a) (threads σ)) eqn:E; [lia|]. rewrite <- E.
    assert (0 < count (lookup_for a) (threads σ))%nat as (j & x & Hj & Hx)%count_pos by lia.
    apply lookup_for_true in Hx as (i & key & f & ->).
    pose proof (sl_client _ _ Hs _ _ _ _ _ Hj eq_refl) as Ha. apply (sl_range _ _ Hs) in Ha as Hlt.
    apply lookup_lt_is_Some in Hlt as [cs Hcs]. destruct (sl_counts _ _ Hs i cs Hcs) as (H1 & _ & H3). rewrite H1 in H3.
    etransitivity; [|exact H3]. apply count_le_in. intros j' y Hj' Hy.
    apply lookup_for_true in Hy as (i' & key' & f' & ->).
    pose proof (sl_client _ _ Hs _ _ _ _ _ Hj' eq_refl) as Ha'. assert (i' = i) as -> by congruence.
    unfold holds. simpl. apply Nat.eqb_refl.
Qed.

(** C26: concurrent requests for one name share a single lookup: two calls of the underlying resolver for the same key are never in progress at once. *)
Theorem single_flight σ i j s s' key f f' :
  reachable σ -> threads σ !! i = Some (RLookup s key f) -> threads σ !! j = Some (RLookup s' key f') -> i = j /\ f = f'.
Proof.
  intros [_ _ Hf _ _]%reachable_inv Hi Hj.
  pose proof (fl_mine _ _ Hf _ _ _ _ Hi eq_refl) as H1. pose proof (fl_mine _ _ Hf _ _ _ _ Hj eq_refl) as H2.
  split; [|congruence]. eapply (count_two (flies key)); [exact Hi|exact Hj|by apply bool_decide_eq_true..|].
  rewrite (fl_one _ _ Hf key). by case_bool_decide; simpl; lia.
Qed.

Lemma returned_answer σ i key r : reachable σ -> threads σ !! i = Some (TReturn key r) -> answer_ok (history (res σ)) key r.
Proof. intros [_ _ _ Ha _]%reachable_inv Hi. exact (an_threads _ _ Ha _ _ Hi). Qed.

(** C27: an answer always belongs to the name that was asked for: what a call returns for a key is an answer the underlying resolver gave for that very key, or the error of a context that was done. *)
Theorem answers_belong σ i key r :
  reachable σ -> threads σ !! i = Some (TReturn key r) ->
  (key, r) ∈ history (res σ) \/ r = Err ECanceled \/ r = Err EDeadline.
Proof.
  intros Hr Hi. destruct (returned_answer _ _ _ _ Hr Hi) as [?|(e & [->| ->] & ->)]; auto.
Qed.

(** *** The age of cached answers *)

(** How long an answer may be served from the cache: 30 seconds if it has
    addresses, 5 if the name does not exist, 3 for any other error; an answer
    without addresses is not kept. *)
Definition keeps (a : result (list Addr)) : Z :=
  match a with
  | Ok [] => 0
  | Ok _ => 30 * Second
  | Err e => if bool_decide (as_dns e = Some true) then 5 * Second else 3 * Second
  end.

Lemma keeps_nonneg a : 0 <= keeps a.
Proof. unfold keeps, Second. destruct a as [[|x l]|e]; [lia..|]. case_bool_decide; lia. Qed.

Lemma entry_of_keeps now a : entry_of now a = if keeps a =? 0 then None else Some (mkEntry a (now + keeps a)).
Proof.
  destruct a as [[|x l]|e]; [done..|]. unfold entry_of, keeps. case_bool_decide as H; [by rewrite H|]. by destruct (as_dns e) as [[]|].
Qed.

(** At time [t] a lookup of [key] had the answer [a] and was about to cache it. *)
Definition stored (σ : system) (t : Z) (key : gostring) (a : result (list Addr)) : Prop :=
  exists σ0 i s f, reachable σ0 /\ clock σ0 = t /\ threads σ0 !! i = Some (RStore s key f a) /\ rtc sys_step σ0 σ.

Lemma stored_step σ σ' t key a : sys_step σ σ' -> stored σ t key a -> stored σ' t key a.
Proof. intros Hs (σ0 & i & s & f & Hr & Ht & Hi & H0). exists σ0, i, s, f. split_and!; [done..|]. by eapply rtc_r. Qed.

Lemma clock_steps σ σ' : rtc sys_step σ σ' -> clock σ <= clock σ'.
Proof. induction 1 as [|σ σ1 σ' Hs _ IH]; [lia|]. destruct Hs; cbn [clock] in *; lia. Qed.

(** Where an entry comes from, and when it expires. *)
Definition made (σ : system) (key : gostring) (e : entry) : Prop := exists t, stored σ t key (e_res e) /\ e_expires e = t + keeps (e_res e).

Lemma made_step σ σ' key e : sys_step σ σ' -> made σ key e -> made σ' key e.
Proof. intros Hs (t & H & He). exists t. split; [by eapply stored_step|done]. Qed.

Definition inv_made (σ : system) : Prop :=
  (forall key e, entries (res σ) !! key = Some e -> made σ key e) /\
  (forall i s key f e, threads σ !! i = Some (RPut s key f e) -> made σ key e).

(** A step either keeps the entries or puts one of them. *)
Lemma tstep_entries now r x r' x' new :
  tstep now r x r' x' new ->
  (entries r' = entries r \/ exists s key f e order, x = RPut s key f e /\ entries r' = store_entries order now (entries r) key e) /\
  (forall s key f e, x' = RPut s key f e -> exists a, x = RStore s key f a /\ entry_of now a = Some e) /\ (forall s key f e, RPut s key f e ∉ new).
Proof.
  assert (Hm : forall r1 r2, main_part r1 = main_part r2 -> entries r1 = entries r2) by (unfold main_part; congruence).
  intros Hs. split_and!.
  - destruct Hs; try (left; done); try (right; by eauto 10); left;
      first [apply Hm, free_slot_main|apply Hm, leave_main|by eapply Hm, enter_main|unfold start_flight in *; by simplify_eq/=].
  - intros ? ? ? ? Hx'. destruct Hs; try discriminate Hx'; unfold after_close in *; repeat case_match; simplify_eq; eauto.
  - intros ? ? ? ?. destruct Hs; try apply not_elem_of_nil. by intros [=]%list_elem_of_singleton.
Qed.

Lemma reachable_made σ : reachable σ -> inv_made σ.
Proof.
  induction 1 as [now|σ σ' Hreach [IHe IHt] Hs]; [split; [intros key e; cbn [res New entries]; by rewrite lookup_empty|done]|].
  pose proof (fun key e => made_step σ σ' key e Hs) as Hstep. destruct Hs as [σ now Hnow|σ c network host|σ i x r' x' new Hi Ht].
  - split; eauto.
  - split; [eauto|]. intros i s key f e. cbn [threads]. rewrite lookup_app_Some. intros [?|[_ H]]; [eauto|]. by destruct (_ - _)%nat as [|[]].
  - destruct (tstep_entries _ _ _ _ _ _ Ht) as (Hent & Hput & Hnew). split.
    + cbn [res]. intros key e. destruct Hent as [->|(s & key' & f & e' & order & -> & ->)]; [eauto|].
      intros [[-> ->]|?]%store_entries_lookup; eauto.
    + cbn [threads]. intros j s key f e Hj. destruct (step_threads _ _ _ _ _ _ _ Hi Hj) as [[_ Hx]|[[_ Hold]|Hin]]; [|by eauto|by apply Hnew in Hin].
      symmetry in Hx. destruct (Hput _ _ _ _ Hx) as (a & -> & He). rewrite entry_of_keeps in He. destruct (keeps a =? 0); [done|]. injection He as <-.
      exists (clock σ). split; [|done]. exists σ, i, s, f. split_and!; [done..|]. apply rtc_once. by eapply s_thread.
Qed.

(** A step in which a call gets its result from the cache, at the first or at
    the second look. *)
Inductive serves : thread -> thread -> gostring -> result (list Addr) -> Prop :=
| serves_first c key a : serves (TFind c key) (TReturn key a) key a
| serves_second key a : serves (TFind2 None key) (TReturn key a) key a
| serves_slot s key a : serves (TFind2 (Some s) key) (TRelease s key (KReturn a)) key a.

Lemma serves_found now r x r' x' new key a :
  tstep now r x r' x' new -> serves x x' key a -> exists e, findLocked r now key = (None, Some e) /\ e_res e = a.
Proof.
  intros Hs Hv. destruct Hv; inversion Hs; subst; try (by case_match); eauto.
  all: match goal with H : match ?o with _ => _ end = _ |- _ => destruct o; by simplify_eq/= end.
Qed.

(** C29: the cache is bounded and short-lived: it never holds more than 10000 entries, and a call gets an answer from the cache only within 30 seconds of the moment at which a lookup of that very name stored it, 5 seconds if the answer was that the name does not exist and 3 if it was another failure; an answer without addresses is never served again. *)
Theorem cache_bounded σ :
  reachable σ ->
  Z.of_nat (size (entries (res σ))) <= 10000 /\
  forall i x r' x' new key a, threads σ !! i = Some x -> tstep (clock σ) (res σ) x r' x' new -> serves x x' key a ->
    exists t, stored σ t key a /\ t <= clock σ < t + keeps a.
Proof.
  intros Hr. split; [pose proof (reachable_inv _ Hr) as [_ _ _ _ (Hsize & _)]; unfold maxEntries in Hsize; lia|]. intros i x r' x' new key a Hi Hs Hv.
  destruct (serves_found _ _ _ _ _ _ _ _ Hs Hv) as (e & He & <-). revert He. unfold findLocked. destruct (entries (res σ) !! key) as [e'|] eqn:E; [|done].
  destruct (Z.ltb_spec (clock σ) (e_expires e')); [|done]. intros [= <-]. destruct (proj1 (reachable_made _ Hr) _ _ E) as (t & Hst & Hexp).
  exists t. split; [done|]. rewrite <- Hexp. split; [|done]. destruct Hst as (σ0 & _ & _ & _ & _ & <- & _ & H0). by apply clock_steps.
Qed.

(** ** Nothing is left behind *)

Definition finished (x : thread) : Prop := match x with TReturn _ _ | RDone => True | _ => False end.

Lemma count_finished P l : Forall finished l -> (forall x, finished x -> P x = false) -> count P l = 0%nat.
Proof. intros Hl HP. induction Hl as [|x l Hx _ IH]; [done|]. by rewrite count_cons, IH, HP. Qed.

(** The resolver leaks nothing: once all calls have returned and all lookups have ended, no flight is registered, no place in the total is taken, and the table of clients is empty. *)
Theorem nothing_left_behind σ :
  reachable σ -> Forall finished (threads σ) ->
  global (res σ) = 0%nat /\ flights (res σ) = ∅ /\ clients (res σ) = ∅.
Proof.
  intros [[Hg _] Hs Hf _ _]%reachable_inv Hfin. split_and!.
  - rewrite Hg. apply count_finished; [done|]. by intros [].
  - apply map_eq. intros k. rewrite lookup_empty. pose proof (fl_one _ _ Hf k) as H.
    rewrite (count_finished _ _ Hfin) in H by (by intros []). case_bool_decide as Hn; [done|]. by apply eq_None_not_Some.
  - apply map_eq. intros a. rewrite lookup_empty. destruct (clients (res σ) !! a) as [i|] eqn:Ea; [|done].
    apply (sl_used _ _ Hs) in Ea. rewrite (count_finished _ _ Hfin) in Ea by (by intros []). lia.
Qed.

(** ** No waiter is left behind *)

Definition steps : system -> system -> Prop := rtc sys_step.

Lemma steps_inv σ σ' : sys_inv σ -> steps σ σ' -> sys_inv σ'.
Proof. intros Hinv. induction 1 as [|σ1 σ2 σ3 Hs _ IH]; [done|]. apply IH. by eapply sys_step_inv. Qed.

(** The flight [f] is closed. *)
Definition closed (σ : system) (f : nat) : Prop := exists fl, flight_heap (res σ) !! f = Some fl /\ fl_done fl = true.

(** How many steps a goroutine is away from closing its flight, at most. *)
Definition rank (x : thread) : nat :=
  match x with
  | RClose _ _ _ => 0 | RDelete _ _ _ => 1 | RPut _ _ _ _ => 2 | RStore _ _ _ _ => 3 | RGot _ _ _ _ => 4
  | RLookup _ _ _ => 5 | RSelect _ _ _ _ => 6 | RStart _ _ _ => 7 | _ => 8
  end.

(** A goroutine that has to close a flight can always do its next step, if
    need be after some time. *)
Lemma closer_next σ i x k f :
  sys_inv σ -> threads σ !! i = Some x -> closing x = Some (k, f) -> (0 < rank x)%nat ->
  exists now r' x', clock σ <= now /\ tstep now (res σ) x r' x' [] /\ closing x' = Some (k, f) /\ (rank x' < rank x)%nat.
Proof.
  intros Hinv Hi Hx Hr. destruct x; simpl in Hx, Hr; try done; try lia; injection Hx as <- <-.
  - do 3 eexists. split; [reflexivity|]. split; [apply t_start|]. simpl. split; [done|lia].
  - exists (Z.max (clock σ) deadline). do 2 eexists. split; [lia|]. split; [apply t_select_timeout; lia|]. simpl. split; [done|lia].
  - do 3 eexists. split; [reflexivity|]. split; [apply (t_lookup _ _ _ _ _ (Ok []))|]. simpl. split; [done|lia].
  - do 3 eexists. split; [reflexivity|]. split; [apply t_got|]. simpl. split; [done|lia].
  - match goal with |- context [RStore _ _ _ ?q] => destruct (entry_of (clock σ) q) as [e|] eqn:E end.
    + do 3 eexists. split; [reflexivity|]. split; [by eapply t_store|]. simpl. split; [done|lia].
    + do 3 eexists. split; [reflexivity|]. split; [by eapply t_store_none|]. simpl. split; [done|lia].
  - do 3 eexists. split; [reflexivity|]. split; [by eapply t_put|]. simpl. split; [done|lia].
  - do 3 eexists. split; [reflexivity|]. split; [apply t_delete|]. simpl. split; [done|lia].
Qed.

Lemma closer_finishes n σ i x k f :
  (rank x <= n)%nat -> sys_inv σ -> threads σ !! i = Some x -> closing x = Some (k, f) ->
  exists σ', steps σ σ' /\ closed σ' f /\ forall j, j <> i -> threads σ' !! j = threads σ !! j.
Proof.
  revert σ x. induction n as [|n IH]; intros σ x Hr Hinv Hi Hx.
  { destruct x; simpl in Hr, Hx; try lia; try done. injection Hx as -> ->.
    destruct (closing_open _ _ _ _ k f (si_flights _ Hinv) Hi eq_refl) as (fl & Hf & _ & _).
    eexists. split; [apply rtc_once; eapply s_thread; [exact Hi|by apply t_close]|]. split.
    - eexists. cbn [res flight_heap with_flight]. rewrite list_lookup_insert_eq by (by eapply lookup_lt_Some). done.
    - intros j Hj. simpl. rewrite app_nil_r. by rewrite list_lookup_insert_ne. }
  destruct (rank x) eqn:Erank; [apply (IH σ x); [lia|done..]|].
  destruct (closer_next σ i x k f Hinv Hi Hx) as (now & r' & x' & Hle & Hstep & Hx' & Hr'); [lia|].
  set (σ1 := mkSys now (res σ) (threads σ)). set (σ2 := mkSys now r' (<[i := x']> (threads σ) ++ [])).
  assert (H1 : sys_step σ σ1) by (by constructor).
  assert (H2 : sys_step σ1 σ2) by (by eapply (s_thread σ1)).
  assert (Hinv2 : sys_inv σ2) by (eapply sys_step_inv; [|done]; by eapply sys_step_inv).
  destruct (IH σ2 x') as (σ' & Hs & Hc & Ho); [lia|done|by apply (step_thread_new _ _ x)|done|].
  exists σ'. split; [by eapply rtc_l, rtc_l|]. split; [done|]. intros j Hj. rewrite Ho by done. simpl. rewrite app_nil_r.
  by rewrite list_lookup_insert_ne.
Qed.

(** C28: no waiter is left behind: whenever a call waits for a lookup started by someone else, the program can go on to a state where that lookup is finished and the call, still waiting, gets its answer; no call waits for a flight that nobody will close. *)
Theorem waiter_served σ j key f :
  reachable σ -> threads σ !! j = Some (TWait key f) ->
  exists σ' r, steps σ σ' /\ threads σ' !! j = Some (TReturn key r) /\ exists fl, flight_heap (res σ') !! f = Some fl /\ fl_res fl = r /\ fl_done fl = true.
Proof.
  intros Hinv%reachable_inv Hj. pose proof (si_flights _ Hinv) as Hf.
  destruct (fl_keys _ _ Hf j _ key f Hj (or_intror eq_refl)) as (fl & Hfl & Hk).
  enough (exists σ', steps σ σ' /\ closed σ' f /\ threads σ' !! j = Some (TWait key f)) as (σ' & Hs & (fl' & Hfl' & Hd) & Hj').
  { exists (mkSys (clock σ') (res σ') (<[j := TReturn key (fl_res fl')]> (threads σ') ++ [])), (fl_res fl'). split; [|split].
    - eapply rtc_r; [done|]. eapply s_thread; [done|]. by apply t_wait_done.
    - by eapply step_thread_new.
    - by exists fl'. }
  destruct (fl_done fl) eqn:Hd. { exists σ. split; [apply rtc_refl|]. split; [by exists fl|done]. }
  pose proof (fl_closer _ _ Hf f fl Hfl) as Hc. rewrite Hd in Hc.
  assert (0 < count (closes f) (threads σ))%nat as (i & x & Hi & Hx)%count_pos by (rewrite Hc; simpl; lia).
  apply bool_decide_eq_true, fmap_Some in Hx as ([k f'] & Hx & E). simpl in E. subst f'.
  destruct (closer_finishes (rank x) σ i x k f) as (σ' & Hs & Hcl & Ho); [done..|]. exists σ'. split; [done|]. split; [done|].
  rewrite Ho; [done|]. intros ->. rewrite Hj in Hi. injection Hi as <-. done.
Qed.

(** ** A run for the witnesses: a client asks for a name, its lookup is
    started and answered, and everything comes to rest. *)

Definition exA : Addr := Addr4 167772161.
Definition ex_key : gostring := cache_key (str "ip") (str "a.com").
Definition ex_res : result (list Addr) := Ok [Addr4 1572395042].

(** Lets goroutine [i] take a step. *)
Tactic Notation "advance" hyp(H) constr(i) tactic3(tac) :=
  let H' := fresh in
  eassert (reachable _) as H' by (eapply (reach_step _ _ H), (s_thread _ i); [reflexivity|cbn [clock res]; tac]);
  clear H; rename H' into H;
  cbn [clock res threads app insert list_insert lookup list_lookup length global entries flights clients flight_heap slots_heap
       history with_flight with_slots free_slot leave enter start_flight fst snd sem users pred fl_res New after_close] in H.

(** The run up to the call of the underlying resolver. *)
Ltac to_lookup H :=
  pose proof (reach_step _ _ (reach_init 0) (s_call _ (Some exA) (str "ip") (str "a.com"))) as H;
  fold ex_key in H; cbn [clock res threads app] in H;
  advance H 0%nat (apply t_find_none; reflexivity);
  advance H 0%nat (apply t_enter; reflexivity);
  advance H 0%nat (eapply t_sem; [reflexivity|unfold maxPerClient; simpl; lia]);
  advance H 0%nat (eapply t_find2_none; reflexivity);
  advance H 1%nat (apply t_start);
  advance H 1%nat (apply t_select; unfold maxConcurrent; simpl; lia).

Lemma ex_waiting : exists σ, reachable σ /\ threads σ = [TWait ex_key 0; RLookup (Some (exA, 0%nat)) ex_key 0].
Proof. to_lookup H. eexists. split; [exact H|reflexivity]. Qed.

Lemma ex_finished : exists σ e, reachable σ /\ threads σ = [TReturn ex_key ex_res; RDone] /\
  entries (res σ) !! ex_key = Some e /\ e_res e = ex_res /\ clock σ < e_expires e.
Proof.
  to_lookup H. advance H 1%nat (apply (t_lookup _ _ _ _ _ ex_res)). advance H 1%nat (apply t_got).
  advance H 1%nat (eapply t_store; reflexivity). advance H 1%nat (eapply t_put; reflexivity).
  advance H 1%nat (apply t_delete). advance H 1%nat (eapply t_close; reflexivity).
  advance H 1%nat (apply t_rrelease). advance H 1%nat (apply t_rleave).
  advance H 0%nat (eapply t_wait_done; reflexivity).
  eexists. eexists. split; [exact H|]. split; [reflexivity|]. split; [apply lookup_insert_eq|]. split; [reflexivity|]. vm_compute. reflexivity.
Qed.

Lemma lookups_bounded_witness :
  exists σ, reachable σ /\ count (lookup_for exA) (threads σ) = 1%nat /\ (count looking_up (threads σ) <= 256)%nat.
Proof.
  destruct ex_waiting as (σ & H & E). exists σ. split; [exact H|]. split; [rewrite E; reflexivity|].
  exact (proj1 (lookups_bounded σ H)).
Defined.

Lemma single_flight_witness :
  exists σ, reachable σ /\ threads σ !! 1%nat = Some (RLookup (Some (exA, 0%nat)) ex_key 0) /\
    (1%nat = 1%nat /\ 0%nat = 0%nat).
Proof.
  destruct ex_waiting as (σ & H & E). exists σ. split; [exact H|].
  assert (E1 : threads σ !! 1%nat = Some (RLookup (Some (exA, 0%nat)) ex_key 0)) by (rewrite E; reflexivity).
  split; [exact E1|]. exact (single_flight σ 1 1 _ _ _ _ _ H E1 E1).
Defined.

Lemma answers_belong_witness :
  exists σ, reachable σ /\ ((ex_key, ex_res) ∈ history (res σ) \/ ex_res = Err ECanceled \/ ex_res = Err EDeadline).
Proof.
  destruct ex_finished as (σ & e & H & E & _). exists σ. split; [exact H|].
  apply (answers_belong σ 0 ex_key ex_res H). rewrite E. reflexivity.
Defined.

Lemma cache_bounded_witness :
  exists σ t, reachable σ /\ stored σ t ex_key ex_res /\ t <= clock σ < t + 30 * Second.
Proof.
  destruct ex_finished as (σ & e & H & E & He & Hres & Hlt).
  pose proof (reach_step _ _ H (s_call σ None (str "ip") (str "a.com"))) as H'. fold ex_key in H'. set (σ' := mkSys _ _ _) in H'.
  assert (Hfind : findLocked (res σ') (clock σ') ex_key = (None, Some e)).
  { unfold findLocked, σ'. cbn [res clock]. rewrite He. destruct (Z.ltb_spec (clock σ) (e_expires e)) as [|Hge]; [reflexivity|].
    exfalso. lia. }
  assert (Hi : threads σ' !! 2%nat = Some (TFind None ex_key)) by (unfold σ'; cbn [threads]; rewrite E; reflexivity).
  destruct (proj2 (cache_bounded σ' H') 2%nat _ _ _ _ ex_key (e_res e) Hi (t_find_cached _ _ _ _ _ Hfind) (serves_first _ _ _)) as (t & Ht & Hc).
  rewrite Hres in Ht, Hc. exists σ', t. split; [exact H'|]. split; [exact Ht|exact Hc].
Defined.

Lemma waiter_served_witness :
  exists σ σ' r, reachable σ /\ threads σ !! 0%nat = Some (TWait ex_key 0) /\ steps σ σ' /\ threads σ' !! 0%nat = Some (TReturn ex_key r).
Proof.
  destruct ex_waiting as (σ & H & E).
  assert (E0 : threads σ !! 0%nat = Some (TWait ex_key 0)) by (rewrite E; reflexivity).
  destruct (waiter_served σ 0 ex_key 0 H E0) as (σ' & r & Hs & Hr & _).
  exists σ, σ', r. split; [exact H|]. split; [exact E0|]. split; [exact Hs|exact Hr].
Defined.
