(* ===== verification/CacheSpec.v ===== *)
(** * What the caching resolver promises to the policy

    An abstract cache, a map with expiry times in front of a resolver, and the
    refinement of it by the concurrent program of internal/dnscache: whichever
    way a call runs that is made while no other is in progress, it does what
    the abstract cache may do, and it can run to its end. The program is
    thereby an instance of the interface through which the policy resolves
    names, [Policy.Resolver], with the law that makes its answers trustworthy,
    [Cached]. *)

From Stdlib Require Import ZArith NArith Ascii String Lia Bool List.
From stdpp Require Import base tactics list gmap strings option countable sets fin_maps relations.
From S2P Require Import Prelude GoStrings Netip GoFloat Policy DnsCache DnsCacheFacts DnsCacheRuns.

Local Open Scope Z_scope.

Lemma insert_last {A} (l : list A) x y : <[length l := x]> (l ++ [y]) = l ++ [x].
Proof. by rewrite insert_app_r_alt, Nat.sub_diag by done. Qed.

Lemma reachable_steps σ σ' : reachable σ -> rtc sys_step σ σ' -> reachable σ'.
Proof. intros H. induction 1 as [|σ σ1 σ' Hs _ IH]; [done|]. apply IH. by eapply reach_step. Qed.

(** ** The abstract cache *)

(** [m'] is [m] with the answer [a] for [key], kept from some time between [t0]
    and [t1] for as long as its kind allows ([keeps]), or [m] itself if its kind
    is not kept. Other entries do not change, and are lost only from a full
    cache. *)
Definition remembers (m : gmap gostring entry) (key : gostring) (t0 t1 : Z) (a : result (list Addr)) (m' : gmap gostring entry) : Prop :=
  if keeps a =? 0 then m' = m else
  exists t, t0 <= t <= t1 /\ m' !! key = Some (mkEntry a (t + keeps a)) /\
    (forall k e, k <> key -> m' !! k = Some e -> m !! k = Some e) /\
    (Z.of_nat (size m) < 10000 -> forall k, k <> key -> m' !! k = m !! k).

(** A call for [key] between [t0] and [t1] on the cache [m]: what it returns, the
    cache it leaves and the answers it got from the resolver underneath. It
    returns an entry that has not expired; or, if there is none, it asks and
    returns the answer; or its context, or the one of the lookup, is done before
    the answer has come. *)
Inductive cache_call (m : gmap gostring entry) (key : gostring) (t0 t1 : Z) :
    result (list Addr) -> gmap gostring entry -> list (result (list Addr)) -> Prop :=
| cc_hit t e : t0 <= t <= t1 -> m !! key = Some e -> t < e_expires e -> cache_call m key t0 t1 (e_res e) m []
| cc_miss t a m' :
    t0 <= t <= t1 -> (forall e, m !! key = Some e -> e_expires e <= t) -> remembers m key t0 t1 a m' -> cache_call m key t0 t1 a m' [a]
| cc_gave_up t e m' asked :
    t0 <= t <= t1 -> (forall e, m !! key = Some e -> e_expires e <= t) -> ctx_err e ->
    (asked = [] /\ m' = m \/ exists a, asked = [a] /\ remembers m key t0 t1 a m') -> cache_call m key t0 t1 (Err e) m' asked.

(** ** Steps of the goroutines alone: no call begins *)

Inductive own_step : system -> system -> Prop :=
| o_tick σ now : clock σ <= now -> own_step σ (mkSys now (res σ) (threads σ))
| o_thread σ i x r' x' new :
    threads σ !! i = Some x -> tstep (clock σ) (res σ) x r' x' new -> own_step σ (mkSys (clock σ) r' (<[i := x']> (threads σ) ++ new)).

Lemma own_sys_step σ σ' : own_step σ σ' -> sys_step σ σ'.
Proof. destruct 1; [by apply s_tick|by eapply s_thread]. Qed.

Lemma own_sys_steps σ σ' : rtc own_step σ σ' -> rtc sys_step σ σ'.
Proof. induction 1; [done|]. eapply rtc_l; [by apply own_sys_step|done]. Qed.

(** ** The program between calls *)

Section spec.
(** The resolver underneath, by cache key. *)
Context (next : gostring -> result (list Addr)).

Definition fresh_entry (m : gmap gostring entry) (now : Z) (key : gostring) : option entry :=
  match m !! key with Some e => if now <? e_expires e then Some e else None | None => None end.

(** An order in which room is made. *)
Definition some_order (m : gmap gostring entry) (now : Z) : list gostring := fst <$> map_to_list (drop_expired now m).

Record quiet (r : DnsCache.Resolver) : Prop := {
  q_flights : flights r = ∅;
  q_clients : clients r = ∅;
  q_global : global r = 0%nat
}.

Lemma quiet_New : quiet DnsCache.New.
Proof. by split. Qed.

Lemma find_fresh r now key e : fresh_entry (entries r) now key = Some e -> findLocked r now key = (None, Some e).
Proof. unfold fresh_entry, findLocked. destruct (entries r !! key) as [e'|]; [|done]. destruct (now <? e_expires e'); [by intros [= ->]|done]. Qed.

Lemma find_none r now key : flights r !! key = None -> fresh_entry (entries r) now key = None -> findLocked r now key = (None, None).
Proof. unfold fresh_entry, findLocked. intros Hf. destruct (entries r !! key) as [e'|]; [destruct (now <? e_expires e'); [done|]|]; by rewrite Hf. Qed.

(** A step of the goroutine that stands after [ts]. *)
Lemma thread_at σ now r ts x us r' x' new :
  σ = mkSys now r (ts ++ x :: us) -> tstep now r x r' x' new -> own_step σ (mkSys now r' (ts ++ x' :: us ++ new)).
Proof.
  intros -> Hs. assert (Hl : (ts ++ x :: us) !! length ts = Some x) by (by apply list_lookup_middle).
  pose proof (o_thread (mkSys now r (ts ++ x :: us)) (length ts) x r' x' new Hl Hs) as H. cbn [clock threads] in H.
  rewrite insert_app_r_alt, Nat.sub_diag in H by lia. cbn [list_insert insert] in H. by rewrite <- app_assoc in H.
Qed.

(** *** The lookup in flight *)

(** The shared state when the runner of flight [f] is done with it. *)
Definition landed (r : DnsCache.Resolver) (now : Z) (key : gostring) (f : nat) (a : result (list Addr)) : DnsCache.Resolver :=
  mkResolver (global r) (match entry_of now a with Some e => store_entries (some_order (entries r) now) now (entries r) key e | None => entries r end)
    (delete key (flights r)) (clients r) (<[f := mkFlight key true a]> (flight_heap r)) (slots_heap r) (history r ++ [(key, a)]).

Ltac go := eapply rtc_l; [eapply thread_at; [reflexivity|]|].

Lemma runner_lands now r ts s key f fl :
  (global r < maxConcurrent)%nat -> flight_heap r !! f = Some fl ->
  rtc own_step (mkSys now r (ts ++ [RStart s key f])) (mkSys now (landed r now key f (next key)) (ts ++ [after_close s])).
Proof.
  intros Hg Hf. go; [apply t_start|]. go; [by apply t_select|]. go; [apply (t_lookup _ _ _ _ _ (next key))|]. go; [apply t_got|].
  assert (Hl : forall fl', (<[f := fl']> (flight_heap r)) !! f = Some fl') by (intros; apply list_lookup_insert_eq; by eapply lookup_lt_Some).
  unfold landed. destruct (entry_of now (next key)) as [e|] eqn:Ee.
  - go; [by apply t_store|]. go; [by apply (t_put _ _ _ _ _ _ (some_order (entries r) now))|]. go; [apply t_delete|].
    go; [apply t_close; cbn [flight_heap]; apply Hl|]. cbn [app]. unfold with_flight. cbn. rewrite list_insert_insert_eq. apply rtc_refl.
  - go; [by apply t_store_none|]. go; [apply t_delete|]. go; [apply t_close; cbn [flight_heap]; apply Hl|].
    cbn [app]. unfold with_flight. cbn. rewrite list_insert_insert_eq. apply rtc_refl.
Qed.
(** *** A whole call *)

(** The shared state after a call that had to ask the resolver underneath. *)
Definition looked_up (r : DnsCache.Resolver) (now : Z) (c : option Addr) (key : gostring) : DnsCache.Resolver :=
  let a := next key in
  mkResolver (global r) (match entry_of now a with Some e => store_entries (some_order (entries r) now) now (entries r) key e | None => entries r end)
    (flights r) (clients r) (flight_heap r ++ [mkFlight key true a]) (slots_heap r ++ match c with Some _ => [mkSlots 0 0] | None => [] end)
    (history r ++ [(key, a)]).

(** The system after a call by client [c], run to its end, and its result. *)
Definition seq_lookup (σ : system) (c : option Addr) (key : gostring) : system * result (list Addr) :=
  match fresh_entry (entries (res σ)) (clock σ) key with
  | Some e => (mkSys (clock σ) (res σ) (threads σ ++ [TReturn key (e_res e)]), e_res e)
  | None => (mkSys (clock σ) (looked_up (res σ) (clock σ) c key) (threads σ ++ [TReturn key (next key); RDone]), next key)
  end.

(** From the second look at the cache on: the slot [s] is held. *)
Lemma flight_run now r ts s key :
  (global r < maxConcurrent)%nat -> flights r !! key = None -> fresh_entry (entries r) now key = None ->
  let r1 := mkResolver (global r) (entries r) (<[key := length (flight_heap r)]> (flights r)) (clients r)
    (flight_heap r ++ [mkFlight key false (Ok [])]) (slots_heap r) (history r) in
  rtc own_step (mkSys now r (ts ++ [TFind2 s key]))
    (mkSys now (landed r1 now key (length (flight_heap r)) (next key)) (ts ++ [TWait key (length (flight_heap r)); after_close s])).
Proof.
  intros Hg Hf He r1. go; [apply t_find2_none; [by apply find_none|done]|]. cbn [app].
  change (ts ++ [TWait ?k ?f; ?x]) with (ts ++ [TWait k f] ++ [x]). rewrite !app_assoc. eapply runner_lands; [done|]. by apply list_lookup_middle.
Qed.

(** The caller is woken by its flight. *)
Lemma waiter_wakes now r ts key f a x :
  flight_heap r !! f = Some (mkFlight key true a) ->
  rtc own_step (mkSys now r (ts ++ [TWait key f; x])) (mkSys now r (ts ++ [TReturn key a; x])).
Proof. intros Hf. go; [by eapply (t_wait_done _ _ _ _ _ Hf)|]. apply rtc_refl. Qed.

Lemma uncached_none now r ts key :
  quiet r -> fresh_entry (entries r) now key = None ->
  rtc own_step (mkSys now r (ts ++ [TFind None key])) (mkSys now (looked_up r now None key) (ts ++ [TReturn key (next key); RDone])).
Proof.
  intros [Hf Hc Hg] He. go; [apply t_find_none, find_none; [by rewrite Hf|done]|]. cbn [app].
  etrans; [apply flight_run; [rewrite Hg; unfold maxConcurrent; lia|by rewrite Hf|done]|]. cbn [after_close].
  etrans; [apply waiter_wakes; unfold landed; cbn [flight_heap]; rewrite insert_last; by apply list_lookup_middle|].
  unfold landed, looked_up. cbn [global entries flights clients flight_heap slots_heap history]. rewrite insert_last, app_nil_r, Hf, delete_insert_id by done. apply rtc_refl.
Qed.

(** The slots of a client with a single user. *)
Lemma release_last now r ts a h m :
  slots_heap r = h ++ [mkSlots 1 1] -> clients r = <[a := length h]> m -> m !! a = None ->
  rtc own_step (mkSys now r (ts ++ [RRelease (a, length h)]))
    (mkSys now (mkResolver (global r) (entries r) (flights r) m (flight_heap r) (h ++ [mkSlots 0 0]) (history r)) (ts ++ [RDone])).
Proof.
  intros Hs Hc Hm. assert (Hl : forall x, (h ++ [x]) !! length h = Some x) by (intros; by apply list_lookup_middle).
  go; [apply t_rrelease|]. go; [apply t_rleave|]. cbn [app]. unfold leave, free_slot. cbn [snd fst]. rewrite Hs, Hl. unfold with_slots. cbn [slots_heap].
  rewrite Hs, insert_last, Hl. cbn [sem users]. cbn. rewrite insert_last, Hc, delete_insert_id by done. apply rtc_refl.
Qed.

Lemma uncached_some now r ts a key :
  quiet r -> fresh_entry (entries r) now key = None ->
  rtc own_step (mkSys now r (ts ++ [TFind (Some a) key])) (mkSys now (looked_up r now (Some a) key) (ts ++ [TReturn key (next key); RDone])).
Proof.
  intros [Hf Hc Hg] He. assert (Hl : forall x, (slots_heap r ++ [x]) !! length (slots_heap r) = Some x) by (intros; by apply list_lookup_middle).
  go; [apply t_find_none, find_none; [by rewrite Hf|done]|]. go; [apply t_enter; unfold enter; by rewrite Hc|].
  go; [eapply t_sem; [cbn [snd slots_heap]; apply Hl|cbn [sem]; unfold maxPerClient; lia]|].
  unfold with_slots. cbn [app snd sem users global entries flights clients flight_heap slots_heap history]. rewrite insert_last.
  etrans; [apply flight_run; cbn [global flights entries]; [rewrite Hg; unfold maxConcurrent; lia|by rewrite Hf|done]|].
  cbn [after_close global entries flights clients flight_heap slots_heap history].
  change (ts ++ [TWait ?k ?f; ?x]) with (ts ++ [TWait k f] ++ [x]). rewrite app_assoc.
  etrans; [eapply release_last; unfold landed; cbn [slots_heap clients]; [done|done|apply lookup_empty]|]. rewrite <- app_assoc. cbn [app].
  unfold landed. cbn [global entries flights clients flight_heap slots_heap history]. rewrite insert_last.
  etrans; [apply waiter_wakes; cbn [flight_heap]; by apply list_lookup_middle|]. unfold looked_up. rewrite Hf, Hc, delete_insert_id by done. apply rtc_refl.
Qed.

(** A call by client [c] begins. *)
Definition call (σ : system) (c : option Addr) (key : gostring) : system := mkSys (clock σ) (res σ) (threads σ ++ [TFind c key]).

Lemma call_run σ c key : quiet (res σ) -> rtc own_step (call σ c key) (fst (seq_lookup σ c key)).
Proof.
  intros Hq. unfold seq_lookup, call. destruct (fresh_entry _ _ _) as [e|] eqn:E; cbn [fst].
  - go; [apply t_find_cached; by apply find_fresh|]. apply rtc_refl.
  - destruct c as [a|]; [by apply uncached_some|by apply uncached_none].
Qed.

Lemma seq_lookup_run σ c network host :
  quiet (res σ) -> rtc sys_step σ (fst (seq_lookup σ c (cache_key network host))).
Proof. intros Hq. eapply rtc_l; [apply (s_call σ c network host)|]. by apply own_sys_steps, call_run. Qed.

End spec.

(** ** Every run of a single call *)

Lemma finished_no_step now r x r' x' new : finished x -> ~ tstep now r x r' x' new.
Proof. intros Hx Hs. by destruct Hs. Qed.

Lemma remembers_mono m key t0 t1 t1' a m' : t1 <= t1' -> remembers m key t0 t1 a m' -> remembers m key t0 t1' a m'.
Proof. intros Hle. unfold remembers. destruct (_ =? _); [done|]. intros (t & Ht & H). exists t. split; [lia|done]. Qed.

(** What [store] does is remembering. *)
Lemma store_remembers m key t0 now t a e order :
  entry_of t a = Some e -> t0 <= t <= now -> remembers m key t0 now a (store_entries order now m key e).
Proof.
  rewrite entry_of_keeps. unfold remembers. destruct (keeps a =? 0); [done|]. intros [= <-] Ht. exists t. split; [done|].
  split; [apply lookup_insert_eq|]. split.
  - intros k e Hk [[-> _]|H]%store_entries_lookup; done.
  - intros Hsize k Hk. unfold store_entries. rewrite lookup_insert_ne by done. by rewrite (proj2 (Nat.leb_gt _ _)) by (unfold maxEntries; lia).
Qed.

Section one_call.
(** The call is for [key], and began at [t0] with the cache [m] and the history
    [h], when all goroutines [ts] had finished. *)
Context (key : gostring) (t0 : Z) (m : gmap gostring entry) (h : list (gostring * result (list Addr))) (ts : list thread).

Definition hit (now : Z) (a : result (list Addr)) : Prop := exists t e, t0 <= t <= now /\ m !! key = Some e /\ t < e_expires e /\ a = e_res e.
Definition stale (now : Z) : Prop := exists t, t0 <= t <= now /\ forall e, m !! key = Some e -> e_expires e <= t.
Definition gave_up (a : result (list Addr)) : Prop := exists e, ctx_err e /\ a = Err e.

(** The caller as long as it has no flight. *)
Definition caller (now : Z) (x : thread) : Prop :=
  match x with
  | TFind _ k => k = key
  | TEnter _ k | TSem _ k | TFind2 _ k => k = key /\ stale now
  | TRelease _ k (KReturn a) | TLeave _ k (KReturn a) | TReturn k a => k = key /\ (hit now a \/ stale now /\ gave_up a)
  | _ => False
  end.

(** The caller when flight [f] has begun. *)
Definition waiter (r : DnsCache.Resolver) (f : nat) (x : thread) : Prop :=
  x = TWait key f \/
  exists a, x = TReturn key a /\ (gave_up a \/ exists fl, flight_heap r !! f = Some fl /\ fl_done fl = true /\ fl_res fl = a).

(** The flight's result [a] is final. *)
Definition landed_with (now : Z) (r : DnsCache.Resolver) (a : result (list Addr)) : Prop :=
  history r = h /\ entries r = m /\ gave_up a \/ history r = h ++ [(key, a)] /\ remembers m key t0 now a (entries r).

Definition runner (now : Z) (r : DnsCache.Resolver) (f : nat) (y : thread) : Prop :=
  match y with
  | RStart _ k f' | RSelect _ k f' _ | RLookup _ k f' =>
      k = key /\ f' = f /\ entries r = m /\ history r = h /\ exists a, flight_heap r !! f = Some (mkFlight key false a)
  | RGot _ k f' a | RStore _ k f' a =>
      k = key /\ f' = f /\ entries r = m /\ history r = h ++ [(key, a)] /\ flight_heap r !! f = Some (mkFlight key false a)
  | RPut _ k f' e => k = key /\ f' = f /\ exists a t, t0 <= t <= now /\ entry_of t a = Some e /\
      entries r = m /\ history r = h ++ [(key, a)] /\ flight_heap r !! f = Some (mkFlight key false a)
  | RDelete _ k f' | RClose _ k f' => k = key /\ f' = f /\ exists a, landed_with now r a /\ flight_heap r !! f = Some (mkFlight key false a)
  | RRelease _ | RLeave _ | RDone => exists a, landed_with now r a /\ flight_heap r !! f = Some (mkFlight key true a)
  | _ => False
  end.

Inductive during : system -> Prop :=
| before_flight now r x : t0 <= now -> caller now x -> flights r = ∅ -> entries r = m -> history r = h -> during (mkSys now r (ts ++ [x]))
| in_flight now r x y f : stale now -> waiter r f x -> runner now r f y -> during (mkSys now r (ts ++ [x; y])).

(** *** Time passes *)

Lemma hit_mono now now' a : now <= now' -> hit now a -> hit now' a.
Proof. intros Hle (t & e & Ht & H). exists t, e. split; [lia|done]. Qed.
Lemma stale_mono now now' : now <= now' -> stale now -> stale now'.
Proof. intros Hle (t & Ht & H). exists t. split; [lia|done]. Qed.

Lemma caller_mono now now' x : now <= now' -> caller now x -> caller now' x.
Proof.
  intros Hle. pose proof (fun a => hit_mono now now' a Hle) as Hh. pose proof (stale_mono now now' Hle) as Hs.
  destruct x; simpl; try done; try naive_solver; destruct k; naive_solver.
Qed.

Lemma landed_mono now now' r a : now <= now' -> landed_with now r a -> landed_with now' r a.
Proof. intros Hle [?|[? ?]]; [by left|right]. split; [done|]. by eapply remembers_mono. Qed.

Lemma runner_mono now now' r f y : now <= now' -> runner now r f y -> runner now' r f y.
Proof.
  intros Hle. pose proof (fun a => landed_mono now now' r a Hle) as Hl. destruct y; simpl; try done; try naive_solver.
  intros (-> & -> & a & t & Ht & H). split_and!; [done..|]. exists a, t. split; [lia|done].
Qed.

(** *** Steps *)

Lemma main_fields r r' : main_part r' = main_part r ->
  entries r' = entries r /\ flights r' = flights r /\ flight_heap r' = flight_heap r /\ history r' = history r.
Proof. unfold main_part. by intros [= _ -> -> -> ->]. Qed.

Lemma find_hit r now e : findLocked r now key = (None, Some e) -> t0 <= now -> entries r = m -> hit now (e_res e).
Proof.
  unfold findLocked. intros Hf Ht Hm. rewrite Hm in Hf. destruct (m !! key) as [e'|] eqn:E; [|done]. destruct (Z.ltb_spec now (e_expires e')); [|done].
  injection Hf as ->. exists now, e. by split_and!.
Qed.

Lemma find_stale r now : findLocked r now key = (None, None) -> t0 <= now -> entries r = m -> stale now.
Proof.
  unfold findLocked. intros Hf Ht Hm. exists now. split; [lia|]. intros e He. rewrite Hm, He in Hf. by destruct (Z.ltb_spec now (e_expires e)).
Qed.

Lemma find_flight r now f : fst (findLocked r now key) = Some f -> flights r <> ∅.
Proof. intros Hf%findLocked_flight Hempty. by rewrite Hempty, lookup_empty in Hf. Qed.

Lemma caller_step now r x r' x' new :
  t0 <= now -> caller now x -> flights r = ∅ -> entries r = m -> history r = h -> tstep now r x r' x' new ->
  (new = [] /\ caller now x' /\ flights r' = ∅ /\ entries r' = m /\ history r' = h) \/
  exists s f, new = [RStart s key f] /\ stale now /\ waiter r' f x' /\ runner now r' f (RStart s key f).
Proof.
  intros Ht Hx Hf He Hh Hs. destruct Hs; simpl in Hx; try done; first [subst key0|destruct k; [done|]; destruct Hx as [-> Hx]|destruct Hx as [-> Hx]].
  all: try (by exfalso; eapply find_flight).
  - left. split_and!; try done. split; [done|left; by eapply find_hit].
  - left. split_and!; try done. pose proof (find_stale _ _ H Ht He). by destruct c.
  - left. apply enter_main, main_fields in H as (-> & -> & _ & ->). by split_and!.
  - by left.
  - left. split_and!; try done. split; [done|right]. split; [done|]. by exists e.
  - left. split_and!; try done. pose proof (find_hit _ _ _ H Ht He). destruct s; (split; [done|by left]).
  - right. injection H0 as <- <-. exists s, (length (flight_heap r)). split; [done|]. split; [done|]. split; [by left|].
    split_and!; try done. exists (Ok []). by apply list_lookup_middle.
  - left. destruct (main_fields _ _ (free_slot_main r s)) as (-> & -> & _ & ->). by split_and!.
  - left. destruct (main_fields _ _ (leave_main r s)) as (-> & -> & _ & ->). by split_and!.
Qed.

Lemma waiter_step now r f x r' x' new : waiter r f x -> tstep now r x r' x' new -> r' = r /\ new = [] /\ waiter r f x'.
Proof.
  intros [-> |(a & -> & _)] Hs; inversion Hs; subst; split_and!; try done; right; eexists; split; try done; [right; by eauto|left; by eexists].
Qed.

(** Setting the result of a flight that is not done. *)
Lemma set_flight (heap : list flight) f a b c :
  heap !! f = Some (mkFlight key false a) ->
  <[f := mkFlight key b c]> heap !! f = Some (mkFlight key b c) /\
  forall fl, heap !! f = Some fl -> fl_done fl = true -> <[f := mkFlight key b c]> heap !! f = Some fl.
Proof. intros Hf. split; [apply list_lookup_insert_eq; by eapply lookup_lt_Some|]. rewrite Hf. by intros fl [= <-]. Qed.

Lemma runner_step now r f y r' y' new :
  t0 <= now -> runner now r f y -> tstep now r y r' y' new ->
  new = [] /\ runner now r' f y' /\ (forall fl, flight_heap r !! f = Some fl -> fl_done fl = true -> flight_heap r' !! f = Some fl).
Proof.
  intros Ht Hy Hs. destruct Hs; cbn [runner] in Hy |- *; try done; try (destruct Hy as (-> & -> & Hy)).
  - destruct Hy as (He & Hh & a & Hf). destruct (set_flight _ _ _ false (Err EDeadline) Hf) as [H1 H2].
    split_and!; try done. exists (Err EDeadline). split; [left; split_and!; [done..|]|done]. exists EDeadline. split; [by right|done].
  - destruct Hy as (He & Hh & a & Hf). destruct (set_flight _ _ _ false res Hf) as [H1 H2]. split_and!; try done.
    cbn [history]. by rewrite Hh.
  - split_and!; try done. destruct Hy as (He & Hh & Hf). exists res, now. by split_and!.
  - destruct Hy as (a & t & Hta & Hea & He & Hh & Hf). split_and!; try done. exists a. split; [|done]. right. cbn [history entries].
    split; [done|]. rewrite He. by eapply store_remembers.
  - destruct Hy as (He & Hh & Hf). split_and!; try done. exists res. split; [|done]. right. split; [done|]. unfold remembers.
    rewrite entry_of_keeps in H. by destruct (keeps res =? 0).
  - destruct Hy as (a & Hl & Hf). assert (fl = mkFlight key false a) as -> by congruence.
    destruct (set_flight _ _ _ true a Hf) as [H1 H2].
    split_and!; try done. destruct s; by exists a.
  - destruct Hy as (a & Hl & Hf). destruct (main_fields _ _ (free_slot_main r s)) as (He & _ & Hh & Hi). split_and!; [done| |by rewrite Hh].
    exists a. unfold landed_with. by rewrite He, Hh, Hi.
  - destruct Hy as (a & Hl & Hf). destruct (main_fields _ _ (leave_main r s)) as (He & _ & Hh & Hi). split_and!; [done| |by rewrite Hh].
    exists a. unfold landed_with. by rewrite He, Hh, Hi.
Qed.

(** A goroutine that takes a step stands after the finished ones. *)
Lemma stepping l i x now r r' x' new :
  Forall finished ts -> (ts ++ l) !! i = Some x -> tstep now r x r' x' new ->
  exists j, l !! j = Some x /\ <[i := x']> (ts ++ l) = ts ++ <[j := x']> l.
Proof.
  intros Hts [Hi|[Hle Hi]]%lookup_app_Some Hs.
  - exfalso. eapply finished_no_step; [|exact Hs]. by eapply Forall_lookup_1.
  - exists (i - length ts)%nat. split; [done|]. by rewrite insert_app_r_alt.
Qed.

Lemma during_step σ σ' : Forall finished ts -> during σ -> own_step σ σ' -> during σ'.
Proof.
  intros Hts Hd Hs. destruct Hs as [σ now' Hle|σ i z r' z' new Hi Hs].
  { destruct Hd as [now r x Ht Hx Hf He Hh|now r x y f Hst Hx Hy]; cbn [clock res threads] in *.
    - constructor; [lia|by eapply caller_mono|done..].
    - econstructor; [by eapply stale_mono|done|by eapply runner_mono]. }
  destruct Hd as [now r x Ht Hx Hf He Hh|now r x y f Hst Hx Hy]; cbn [clock res threads] in *;
    destruct (stepping _ _ _ _ _ _ _ _ Hts Hi Hs) as (j & Hj & ->).
  - destruct j as [|j]; [|done]. injection Hj as ->. cbn [list_insert insert].
    destruct (caller_step _ _ _ _ _ _ Ht Hx Hf He Hh Hs) as [(-> & Hx' & Hf' & He' & Hh')|(s & f & -> & Hst & Hw & Hr)].
    + rewrite app_nil_r. by constructor.
    + rewrite <- app_assoc. by econstructor.
  - assert (Ht : t0 <= now) by (destruct Hst as (t & ? & _); lia). destruct j as [|[|j]]; [| |done]; injection Hj as ->; cbn [list_insert insert].
    + destruct (waiter_step _ _ _ _ _ _ _ Hx Hs) as (-> & -> & Hx'). rewrite app_nil_r. by econstructor.
    + destruct (runner_step _ _ _ _ _ _ _ Ht Hy Hs) as (-> & Hy' & Hdone). rewrite app_nil_r. econstructor; [done| |done].
      destruct Hx as [-> |(a & -> & [Hg|(fl & Hfl & Hd & Ha)])]; [by left|right..]; exists a; (split; [done|]); [by left|right].
      exists fl. split_and!; [by apply Hdone|done|done].
Qed.

(** What is left when the call has ended. *)
Lemma during_end σ :
  during σ -> Forall finished (threads σ) ->
  exists a asked, threads σ !! length ts = Some (TReturn key a) /\ cache_call m key t0 (clock σ) a (entries (res σ)) asked /\
    history (res σ) = h ++ (pair key <$> asked).
Proof.
  intros Hd Hfin. destruct Hd as [now r x Ht Hx Hf He Hh|now r x y f (t & Ht & Hst) Hx Hy]; cbn [threads clock res] in *;
    apply Forall_app in Hfin as [_ Hfin].
  - apply Forall_cons_iff in Hfin as [Hfin _]. destruct x; try done. simpl in Hx. destruct Hx as [-> Hx]. exists res, []. split; [by apply list_lookup_middle|].
    rewrite He, Hh. split; [|by rewrite app_nil_r]. destruct Hx as [(t & e & Ht' & Hm & Hlt & ->)|[(t & Ht' & Hst) (e & Hc & ->)]].
    + by eapply cc_hit.
    + eapply cc_gave_up; [done..|]. by left.
  - apply Forall_cons_iff in Hfin as [Hfx [Hfy _]%Forall_cons_iff]. destruct y; try done. simpl in Hy. destruct Hy as (b & Hl & Hfl).
    destruct Hx as [-> |(a & -> & Ha)]; [done|].
    assert (Hres : gave_up a \/ a = b). { destruct Ha as [?|(fl & Hfl' & _ & <-)]; [by left|right]. rewrite Hfl in Hfl'. by injection Hfl' as <-. }
    destruct Hl as [(Hh & He & Hg)|(Hh & Hrem)].
    + exists a, []. split; [by apply list_lookup_middle|]. split; [|by rewrite Hh, app_nil_r].
      assert (gave_up a) as (e & Hc & ->) by (by destruct Hres as [?| ->]). eapply cc_gave_up; [done..|]. by left.
    + exists a, [b]. split; [by apply list_lookup_middle|]. split; [|done]. destruct Hres as [(e & Hc & ->)| ->]; [|by eapply cc_miss].
      eapply cc_gave_up; [done..|]. right. by exists b.
Qed.
End one_call.

(** C7: used by one caller at a time, the caching resolver is a map with expiry times in front of the resolver underneath. Whenever a call is made while no other is in progress, and in whatever way it then runs, once it has ended it has done what the abstract cache may do: it returned an entry that had not expired and asked nobody, or there was none and it asked the resolver underneath exactly once and returned the answer, which is now kept for the time its kind allows, or it returned the error of a context that was done first; no other entry changed, none was lost unless the cache was full, and no goroutine, flight or slot is left behind. And it can always run to its end, whatever the resolver underneath answers. *)
Theorem cache_refines σ c network host :
  reachable σ -> Forall finished (threads σ) ->
  let key := cache_key network host in
  (forall σ', rtc own_step (call σ c key) σ' -> Forall finished (threads σ') ->
     exists a asked, threads σ' !! length (threads σ) = Some (TReturn key a) /\
       cache_call (entries (res σ)) key (clock σ) (clock σ') a (entries (res σ')) asked /\
       history (res σ') = history (res σ) ++ (pair key <$> asked) /\
       reachable σ' /\ Z.of_nat (size (entries (res σ'))) <= 10000 /\ quiet (res σ')) /\
  (forall answer, exists σ', rtc own_step (call σ c key) σ' /\ Forall finished (threads σ') /\
     threads σ' !! length (threads σ) = Some (TReturn key (match fresh_entry (entries (res σ)) (clock σ) key with Some e => e_res e | None => answer end))).
Proof.
  intros Hreach Hfin key. split.
  - intros σ' Hrun Hfin'.
    assert (Hr' : reachable σ').
    { eapply reachable_steps; [exact Hreach|]. eapply rtc_l; [apply (s_call σ c network host)|]. by apply own_sys_steps. }
    assert (Hd : during key (clock σ) (entries (res σ)) (history (res σ)) (threads σ) σ').
    { assert (H0 : during key (clock σ) (entries (res σ)) (history (res σ)) (threads σ) (call σ c key)).
      { constructor; try done. by apply nothing_left_behind. }
      clear -Hrun H0 Hfin. induction Hrun as [|σ1 σ2 σ3 Hs _ IH]; [done|]. apply IH. by eapply during_step. }
    destruct (during_end _ _ _ _ _ _ Hd Hfin') as (a & asked & H1 & H2 & H3). exists a, asked. split_and!; try done.
    + pose proof (reachable_inv _ Hr') as [_ _ _ _ (Hsize & _)]. unfold maxEntries in Hsize. lia.
    + destruct (nothing_left_behind _ Hr' Hfin') as (? & ? & ?). by split.
  - intros answer. assert (Hq : quiet (res σ)) by (destruct (nothing_left_behind _ Hreach Hfin) as (? & ? & ?); by split).
    exists (fst (seq_lookup (fun _ => answer) σ c key)). split; [by apply call_run|]. unfold seq_lookup. destruct (fresh_entry _ _ _) as [e|]; cbn [fst threads].
    + split; [apply Forall_app; split; [done|by repeat constructor]|by apply list_lookup_middle].
    + split; [apply Forall_app; split; [done|by repeat constructor]|by apply list_lookup_middle].
Qed.
(** ** The interface *)

(** The addresses of an answer fit their width, as their type guarantees in Go. *)
Definition answer_wf (x : gostring * result (list Addr)) : Prop :=
  match snd x with Ok found => Forall (fun a => wf_addr a = true) found | Err _ => True end.

(** A resolver for the policy that is the caching resolver: its state contains
    a reachable state of the program, a lookup takes steps of the program (of
    any of its goroutines) and returns what some call in the program returned
    for that name. *)
Class Cached (St : Type) `{!Policy.Resolver St} := {
  cache_of : St -> system;
  cached_reachable st : reachable (cache_of st);
  cached_wf st : Forall answer_wf (history (res (cache_of st)));
  cached_lookup ctx network host st :
    let '(st', r) := LookupNetIP ctx network host st in
    rtc sys_step (cache_of st) (cache_of st') /\
    exists i, threads (cache_of st) !! i = None /\ threads (cache_of st') !! i = Some (TReturn (cache_key network host) r)
}.

(** What the underlying resolver said is never forgotten. *)
Lemma history_step σ σ' x : sys_step σ σ' -> x ∈ history (res σ) -> x ∈ history (res σ').
Proof.
  destruct 1 as [| |σ i y r' y' new _ Hs]; [done..|]. cbn [res]. destruct Hs; cbn [history with_flight with_slots]; try done; try (intros; apply elem_of_app; by left).
  all: try (unfold enter in *; repeat case_match; by simplify_eq/=).
  all: try (unfold start_flight in *; by simplify_eq/=).
  all: unfold leave, free_slot; repeat case_match; by simplify_eq/=.
Qed.

Lemma history_steps σ σ' x : rtc sys_step σ σ' -> x ∈ history (res σ) -> x ∈ history (res σ').
Proof. induction 1; eauto using history_step. Qed.

(** The law that clients use: an answer with addresses was given by the
    resolver underneath for the very name. *)
Lemma cached_answer `{Cached St} ctx network host (st st' : St) found :
  LookupNetIP ctx network host st = (st', Ok found) -> (cache_key network host, Ok found) ∈ history (res (cache_of st')).
Proof.
  intros Hl. pose proof (cached_lookup ctx network host st) as Hc. rewrite Hl in Hc. destruct Hc as (_ & i & _ & Hi).
  apply returned_answer in Hi as [?|(e & _ & [=])]; [done|apply cached_reachable].
Qed.

(** ** An instance *)

(** The program between calls, as the state of a resolver. *)
Record idle_cache := mkIdle {
  ic_sys : system;
  ic_reachable : reachable ic_sys;
  ic_quiet : quiet (res ic_sys);
  ic_wf : Forall answer_wf (history (res ic_sys))
}.

Definition new_cache (now : Z) : idle_cache := mkIdle (mkSys now DnsCache.New []) (reach_init now) quiet_New (Forall_nil_2 _).

Section instance.
Context (next : gostring -> result (list Addr)) (next_wf : forall key, answer_wf (key, next key)).

Lemma seq_lookup_wf σ c key : Forall answer_wf (history (res σ)) -> Forall answer_wf (history (res (fst (seq_lookup next σ c key)))).
Proof.
  intros H. unfold seq_lookup. destruct (fresh_entry _ _ _); [done|]. cbn [fst res looked_up history]. apply Forall_app. split; [done|]. by apply Forall_singleton.
Qed.

Lemma seq_lookup_quiet σ c key : quiet (res σ) -> quiet (res (fst (seq_lookup next σ c key))).
Proof. intros [H1 H2 H3]. unfold seq_lookup. by destruct (fresh_entry _ _ _). Qed.

Definition idle_lookup (st : idle_cache) (c : option Addr) (network host : gostring) : idle_cache * result (list Addr) :=
  let σ' := seq_lookup next (ic_sys st) c (cache_key network host) in
  (mkIdle (fst σ') (reachable_steps _ _ (ic_reachable st) (seq_lookup_run next (ic_sys st) c network host (ic_quiet st)))
     (seq_lookup_quiet _ _ _ (ic_quiet st)) (seq_lookup_wf _ _ _ (ic_wf st)), snd σ').

Definition idle_resolver : Policy.Resolver idle_cache := fun ctx network host st => idle_lookup st (ctx_client ctx) network host.

Definition idle_cached : Cached (H := idle_resolver) idle_cache.
Proof.
  refine {| cache_of := ic_sys; cached_reachable := ic_reachable; cached_wf := ic_wf |}. intros ctx network host st. cbn [LookupNetIP idle_resolver idle_lookup ic_sys].
  split; [apply seq_lookup_run, ic_quiet|]. exists (length (threads (ic_sys st))). split; [by apply lookup_ge_None|].
  unfold seq_lookup. destruct (fresh_entry _ _ _); cbn [fst snd threads]; by apply list_lookup_middle.
Defined.
End instance.

(** ** Witness: a name is asked for twice within its lifetime *)

Definition asked_once (key : gostring) : result (list Addr) := Ok [Addr4 (code "a")].
Definition first_call : system := fst (seq_lookup asked_once (mkSys 0 DnsCache.New []) (Some (Addr4 1)) (cache_key (str "ip") (str "a.com"))).

Lemma cache_refines_witness :
  exists σ' a asked, rtc own_step (call first_call None (cache_key (str "ip") (str "a.com"))) σ' /\ threads σ' !! 2%nat = Some (TReturn (cache_key (str "ip") (str "a.com")) a) /\
    cache_call (entries (res first_call)) (cache_key (str "ip") (str "a.com")) (clock first_call) (clock σ') a (entries (res σ')) asked.
Proof.
  assert (Hr : reachable first_call).
  { eapply reachable_steps; [apply (reach_init 0)|]. apply seq_lookup_run. exact quiet_New. }
  assert (Hf : Forall finished (threads first_call)) by (vm_compute; repeat constructor).
  destruct (cache_refines first_call None (str "ip") (str "a.com") Hr Hf) as [Hall Hend].
  destruct (Hend (Ok [])) as (σ' & Hrun & Hfin & _). destruct (Hall σ' Hrun Hfin) as (a & asked & H1 & H2 & _).
  exists σ', a, asked. split; [exact Hrun|]. split; [exact H1|exact H2].
Defined.
