(* ===== verification/Dial.v ===== *)
(** * Dial: internal/proxy/dial.go

    Connecting to a vetted destination. [dialParallel] races two goroutines,
    one per address family, so a call of [vetted.dial] is a transition system:
    a step is one operation of the caller, of a racing goroutine or of the
    goroutine that closes the loser's connection, one call of [dialAddr]
    finishing, or the context ending. Connections are numbered in the order in
    which they are made and the state records which are open. *)

From Stdlib Require Import ZArith NArith Ascii String Lia Bool List.
From stdpp Require Import base tactics list gmap strings option sets.
From S2P Require Import Prelude GoStrings Netip GoFloat Regexp Rules HostFacts HostPort.

Local Open Scope Z_scope.

Definition errNotVetted : error := ENew (str "proxy-acl: refusing to dial a destination the ACL did not approve").

Definition dialBudget : Z := 30 * Second.
Definition fallbackDelay : Z := 300 * Millisecond.
Definition maxAddrsPerFamily : nat := 3.
Definition minAttemptTimeout : Z := 2 * Second.

(** [vetted]: an approved destination. *)
Record vetted := mkVetted { v_host : gostring; v_port : Z; v_addrs : list Addr; v_idle : Z }.

(** The guard of [vetted.dial]: [addr] is the text that was checked. *)
Definition dial_guard (v : vetted) (addr : gostring) : bool :=
  match SplitHostPort addr with
  | Ok (host, port) => bool_decide (host = v_host v) && bool_decide (port = Itoa (v_port v)) && negb (bool_decide (v_addrs v = []))
  | Err _ => false
  end.

(** The loop of [dialParallel] that splits the addresses by family. *)
Definition add_addr (first : Addr) (st : list Addr * list Addr) (a : Addr) : list Addr * list Addr :=
  let '(primary, fallback) := st in
  if eqb (Is4 a) (Is4 first) then
    if (length primary <? maxAddrsPerFamily)%nat then (primary ++ [a], fallback) else st
  else if (length fallback <? maxAddrsPerFamily)%nat then (primary, fallback ++ [a]) else st.

Definition families (addrs : list Addr) : list Addr * list Addr :=
  match addrs with
  | [] => ([], [])
  | first :: _ => fold_left (add_addr first) addrs ([], [])
  end.

(** The deadline of one attempt in [dialSerial], started at [now] with [left]
    addresses to go under a context that ends at [deadline]. *)
Definition attempt_until (deadline now left : Z) : Z :=
  Z.min deadline (now + Z.max (Z.quot (Sub deadline now) left) minAttemptTimeout).

(** ** State *)

Abbreviation conn := nat.

(** A call of [dialAddr]: its argument and the deadline of its context. *)
Record call := mkCall { c_addr : gostring; c_start : Z; c_until : Z }.

(** What the goroutines share: the clock, [ctx.Err()], the calls of [dialAddr]
    so far, and the connections made, each with its peer and whether it is
    open. *)
Record world := mkWorld {
  now : Z;
  ctx_err : option error;
  calls : list call;
  conns : list (gostring * bool)
}.

(** A goroutine in [dialSerial]. *)
Inductive dialer :=
| Attempt (i : nat) (errs : list error)      (* at the head of the loop *)
| Dialing (i : nat) (errs : list error)      (* in dialAddr for addrs[i] *)
| Ended (r : result conn)                    (* dialSerial has returned *)
| Sent (r : result conn).                    (* the result is in the channel, or was there *)

(** The caller of [dialParallel]. [timer] is when the timer will fire. *)
Inductive caller :=
| InSerial                                   (* one family only: in dialSerial itself *)
| Select (pending : Z) (errs : list error) (timer : option Z)
| Returned (r : result conn).

(** [drain]: the goroutine that waits for the loser. *)
Record dialing := mkDialing {
  shared : world;
  prim : dialer;
  fall : option dialer;
  results : list (result conn);
  main : caller;
  drain : bool
}.

(** ** Steps *)

(** [errors.Join(errs...)], or the refusal of an empty list. *)
Definition serial_error (errs : list error) : error := match errs with [] => errNotVetted | _ => EJoin errs end.

(** [cancel()] *)
Definition cancel (w : world) : world :=
  mkWorld (now w) (match ctx_err w with None => Some ECanceled | e => e end) (calls w) (conns w).

Definition close (w : world) (c : conn) : world :=
  mkWorld (now w) (ctx_err w) (calls w) (alter (fun x => (fst x, false)) c (conns w)).

Section job.
(** The address lists, the port and the deadline of the context. *)
Context (primary fallback : list Addr) (port deadline : Z).

(** One step of [dialSerial] over [addrs]. *)
Inductive dstep (addrs : list Addr) (w : world) : dialer -> world -> dialer -> Prop :=
| d_call i errs a :
    addrs !! i = Some a ->
    dstep addrs w (Attempt i errs)
      (mkWorld (now w) (ctx_err w)
         (calls w ++ [mkCall (AddrPort_String a port) (now w) (attempt_until deadline (now w) (Z.of_nat (length addrs - i)))])
         (conns w))
      (Dialing i errs)
| d_none_left i errs :
    addrs !! i = None -> dstep addrs w (Attempt i errs) w (Ended (Err (serial_error errs)))
| d_connected i errs a :
    addrs !! i = Some a ->
    dstep addrs w (Dialing i errs)
      (mkWorld (now w) (ctx_err w) (calls w) (conns w ++ [(AddrPort_String a port, true)]))
      (Ended (Ok (length (conns w))))
| d_failed i errs e :
    ctx_err w = None -> dstep addrs w (Dialing i errs) w (Attempt (S i) (errs ++ [e]))
| d_stopped i errs e x :
    ctx_err w = Some x -> dstep addrs w (Dialing i errs) w (Ended (Err (serial_error (errs ++ [e])))).

(** [startFallback] *)
Definition startFallback (fall : option dialer) (pending : Z) : option dialer * Z :=
  match fall with
  | None => (Some (Attempt 0 []), pending + 1)
  | Some _ => (fall, pending)
  end.

(** Steps of the program and of [dialAddr]. *)
Inductive pstep : dialing -> dialing -> Prop :=
| p_prim w d f rs m dr w' d' :
    dstep primary w d w' d' -> pstep (mkDialing w d f rs m dr) (mkDialing w' d' f rs m dr)
| p_fall w p d rs m dr w' d' :
    dstep fallback w d w' d' -> pstep (mkDialing w p (Some d) rs m dr) (mkDialing w' p (Some d') rs m dr)
| p_serial w r rs dr :
    pstep (mkDialing w (Ended r) None rs InSerial dr) (mkDialing (cancel w) (Sent r) None rs (Returned r) dr)
| p_send_prim w r f rs m dr :
    m <> InSerial -> pstep (mkDialing w (Ended r) f rs m dr) (mkDialing w (Sent r) f (rs ++ [r]) m dr)
| p_send_fall w p r rs m dr :
    pstep (mkDialing w p (Some (Ended r)) rs m dr) (mkDialing w p (Some (Sent r)) (rs ++ [r]) m dr)
| p_timer w p f rs n errs t f' n' dr :
    t <= now w -> startFallback f n = (f', n') ->
    pstep (mkDialing w p f rs (Select n errs (Some t)) dr) (mkDialing w p f' rs (Select n' errs None) dr)
| p_won w p f c rs n errs tm dr :
    pstep (mkDialing w p f (Ok c :: rs) (Select n errs tm) dr)
          (mkDialing (cancel w) p f rs (Returned (Ok c)) (0 <? n - 1))
| p_lost w p f e rs n errs tm f' n' dr :
    startFallback f (n - 1) = (f', n') -> n' <> 0 ->
    pstep (mkDialing w p f (Err e :: rs) (Select n errs tm) dr)
          (mkDialing w p f' rs (Select n' (errs ++ [e]) tm) dr)
| p_lost_all w p f e rs n errs tm f' dr :
    startFallback f (n - 1) = (f', 0) ->
    pstep (mkDialing w p f (Err e :: rs) (Select n errs tm) dr)
          (mkDialing (cancel w) p f' rs (Returned (Err (EJoin (errs ++ [e])))) dr)
| p_drain_conn w p f c rs m :
    pstep (mkDialing w p f (Ok c :: rs) m true) (mkDialing (close w c) p f rs m false)
| p_drain_err w p f e rs m :
    pstep (mkDialing w p f (Err e :: rs) m true) (mkDialing w p f rs m false).

(** Steps of the surroundings: time passes, the parent context is cancelled,
    the deadline passes. *)
Inductive estep : world -> world -> Prop :=
| e_tick w t : now w <= t -> estep w (mkWorld t (ctx_err w) (calls w) (conns w))
| e_cancel w : ctx_err w = None -> estep w (mkWorld (now w) (Some ECanceled) (calls w) (conns w))
| e_deadline w : ctx_err w = None -> deadline <= now w -> estep w (mkWorld (now w) (Some EDeadline) (calls w) (conns w)).

(** The first argument counts the steps of the program. *)
Inductive run : nat -> dialing -> dialing -> Prop :=
| run_refl s : run 0 s s
| run_prog n s s' s'' : run n s s' -> pstep s' s'' -> run (S n) s s''
| run_env n s s' w : run n s s' -> estep (shared s') w ->
    run n s (mkDialing w (prim s') (fall s') (results s') (main s') (drain s')).
End job.

(** ** [vetted.dial]

    The state in which a call starts, at time [t] and under a context that ends
    at [parent], if it has a deadline. *)
Definition dial_deadline (parent : option Z) (t : Z) : Z :=
  match parent with Some p => Z.min p (t + dialBudget) | None => t + dialBudget end.

Definition dial_start (v : vetted) (addr : gostring) (t : Z) (done : option error) : dialing :=
  let w := mkWorld t done [] [] in
  if negb (dial_guard v addr) then mkDialing w (Sent (Err errNotVetted)) None [] (Returned (Err errNotVetted)) false
  else match families (v_addrs v) with
       | (_, []) => mkDialing w (Attempt 0 []) None [] InSerial false
       | _ => mkDialing w (Attempt 0 []) None [] (Select 1 [] (Some (t + fallbackDelay))) false
       end.

(** The states a call of [v.dial(ctx, network, addr)] can reach after [n] steps
    of the program. *)
Definition dial (v : vetted) (addr : gostring) (t : Z) (done : option error) (parent : option Z) (n : nat) (s : dialing) : Prop :=
  let '(primary, fallback) := families (v_addrs v) in
  run primary fallback (v_port v) (dial_deadline parent t) n (dial_start v addr t done) s.
