(* ===== verification/DialFacts.v ===== *)
(** * Dialing, internal/proxy/dial.go

    What holds in every state a call of [vetted.dial] can reach, however the
    racing goroutines interleave: only checked addresses are dialed, no
    connection leaks, the call ends, and it fails only for a reason. *)

From Stdlib Require Import ZArith NArith Ascii String Lia Bool List.
From stdpp Require Import base tactics list gmap strings option sets.
From S2P Require Import Prelude GoStrings Netip GoFloat Regexp Rules HostFacts HostPort Dial.

Local Open Scope Z_scope.

(** ** The address lists *)

(** The addresses of one family, in their order. *)
Definition family (v4 : bool) (addrs : list Addr) : list Addr := filter (fun a => Is4 a = v4) addrs.

Lemma take_snoc_lt {A} (l : list A) (n : nat) a :
  (if (length (take n l) <? n)%nat then take n l ++ [a] else take n l) = take n (l ++ [a]).
Proof.
  rewrite length_take. destruct (Nat.ltb_spec (n `min` length l) n).
  - rewrite take_ge by lia. rewrite take_ge by (rewrite length_app; simpl; lia). done.
  - rewrite take_app_le by lia. done.
Qed.

Lemma add_addr_take first p f a :
  add_addr first (take maxAddrsPerFamily p, take maxAddrsPerFamily f) a =
  if eqb (Is4 a) (Is4 first) then (take maxAddrsPerFamily (p ++ [a]), take maxAddrsPerFamily f)
  else (take maxAddrsPerFamily p, take maxAddrsPerFamily (f ++ [a])).
Proof. unfold add_addr. rewrite <- !take_snoc_lt. destruct (eqb _ _); by destruct (_ <? _)%nat. Qed.

Lemma add_addr_fold first addrs p f :
  fold_left (add_addr first) addrs (take maxAddrsPerFamily p, take maxAddrsPerFamily f) =
  (take maxAddrsPerFamily (p ++ family (Is4 first) addrs), take maxAddrsPerFamily (f ++ family (negb (Is4 first)) addrs)).
Proof.
  revert p f. induction addrs as [|a addrs IH]; intros p f; [by rewrite !app_nil_r|].
  cbn [fold_left]. rewrite add_addr_take. unfold family in *. rewrite !filter_cons.
  destruct (eqb (Is4 a) (Is4 first)) eqn:E; rewrite IH, <- app_assoc.
  - apply eqb_prop in E. rewrite decide_True by done. by rewrite decide_False by (rewrite E; by destruct (Is4 first)).
  - apply eqb_false_iff in E. rewrite decide_False by done. by rewrite decide_True by (by destruct (Is4 a), (Is4 first)).
Qed.

(** The two lists are the first three addresses of each family. *)
Lemma families_spec first rest :
  families (first :: rest) =
  (take maxAddrsPerFamily (family (Is4 first) (first :: rest)), take maxAddrsPerFamily (family (negb (Is4 first)) (first :: rest))).
Proof. unfold families. apply (add_addr_fold first (first :: rest) [] []). Qed.

Lemma family_elem b addrs a : a ∈ take maxAddrsPerFamily (family b addrs) -> a ∈ addrs.
Proof. intros H%elem_of_take. destruct H as (i & H%list_elem_of_lookup_2 & _). by apply list_elem_of_filter in H as [_ ?]. Qed.

Lemma families_elem addrs p f a : families addrs = (p, f) -> a ∈ p \/ a ∈ f -> a ∈ addrs.
Proof.
  destruct addrs as [|first rest]; [intros [= <- <-]; set_solver|]. rewrite families_spec.
  intros [= <- <-] [H|H]; by eapply family_elem.
Qed.

Lemma families_length addrs p f : families addrs = (p, f) -> (length p <= 3 /\ length f <= 3)%nat.
Proof.
  destruct addrs as [|first rest]; [intros [= <- <-]; simpl; lia|]. rewrite families_spec.
  intros [= <- <-]. rewrite !length_take. unfold maxAddrsPerFamily. lia.
Qed.

Lemma families_primary first rest p f : families (first :: rest) = (p, f) -> head p = Some first.
Proof. rewrite families_spec. intros [= <- _]. unfold family. rewrite filter_cons, decide_True by done. done. Qed.

(** ** Induction over runs *)

Section invariant.
Context (primary fallback : list Addr) (port deadline : Z).

Lemma dial_run_inv (I : dialing -> Prop) n s s' :
  run primary fallback port deadline n s s' -> I s ->
  (forall s1 s2, I s1 -> pstep primary fallback port deadline s1 s2 -> I s2) ->
  (forall s1 w, I s1 -> estep deadline (shared s1) w -> I (mkDialing w (prim s1) (fall s1) (results s1) (main s1) (drain s1))) -> I s'.
Proof. intros Hr Hi Hp He. induction Hr; eauto. Qed.

(** ** Calls *)

Definition call_ok (c : call) : Prop :=
  (exists a, (a ∈ primary \/ a ∈ fallback) /\ c_addr c = AddrPort_String a port) /\ c_until c <= deadline.

Definition inv_calls (s : dialing) : Prop :=
  Forall call_ok (calls (shared s)) /\ Forall (fun c => fst c ∈ c_addr <$> calls (shared s)) (conns (shared s)).

(** Which addresses a goroutine has dialed. *)
Definition tried (addrs : list Addr) (n : nat) (w : world) : Prop :=
  forall j a, (j < n)%nat -> addrs !! j = Some a -> AddrPort_String a port ∈ c_addr <$> calls w.

Definition inv_dialer (addrs : list Addr) (w : world) (d : dialer) : Prop :=
  match d with
  | Attempt i _ => (i <= length addrs)%nat /\ tried addrs i w
  | Dialing i _ => (i < length addrs)%nat /\ tried addrs (S i) w
  | Ended (Err _) | Sent (Err _) => ctx_err w <> None \/ tried addrs (length addrs) w
  | Ended (Ok c) | Sent (Ok c) => (c < length (conns w))%nat
  end.

Definition inv_dialers (s : dialing) : Prop :=
  inv_dialer primary (shared s) (prim s) /\ match fall s with Some d => inv_dialer fallback (shared s) d | None => True end.

(** The shared state only grows. *)
Definition grows (w w' : world) : Prop :=
  (exists cs, calls w' = calls w ++ cs) /\ (length (conns w) <= length (conns w'))%nat /\ (ctx_err w <> None -> ctx_err w' <> None).

Lemma dial_grows_same w : grows w w.
Proof. split_and!; [exists []; by rewrite app_nil_r|lia|done]. Qed.

Lemma tried_grows addrs n w w' : grows w w' -> tried addrs n w -> tried addrs n w'.
Proof. intros [[cs Hc] _] Ht j a Hj Ha. rewrite Hc, fmap_app. apply elem_of_app. left. eauto. Qed.

Lemma inv_dialer_grows addrs w w' d : grows w w' -> inv_dialer addrs w d -> inv_dialer addrs w' d.
Proof.
  intros Hg. pose proof (tried_grows addrs) as Ht. pose proof Hg as (_ & Hl & Hx).
  destruct d as [i e|i e|[c|e]|[c|e]]; simpl; intros H; destruct_and?; split_and?; eauto; try lia; destruct H; eauto.
Qed.

Lemma dstep_grows addrs w d w' d' : dstep port deadline addrs w d w' d' -> grows w w'.
Proof.
  destruct 1; try apply dial_grows_same; unfold grows; simpl; (split; [|split; [rewrite ?length_app; simpl; lia|done]]).
  - by eexists.
  - exists []. by rewrite app_nil_r.
Qed.

Lemma estep_grows w w' : estep deadline w w' -> grows w w'.
Proof. destruct 1; unfold grows; simpl; (split; [exists []; by rewrite app_nil_r|]); split; done || lia. Qed.

Lemma cancel_grows w : grows w (cancel w).
Proof. unfold grows, cancel. simpl. split_and!; [exists []; by rewrite app_nil_r|lia|by destruct (ctx_err w)]. Qed.

Lemma close_grows w c : grows w (close w c).
Proof. unfold grows, close. simpl. split_and!; [exists []; by rewrite app_nil_r|by rewrite length_alter|done]. Qed.

Lemma dstep_inv_dialer addrs w d w' d' :
  dstep port deadline addrs w d w' d' -> inv_dialer addrs w d -> inv_dialer addrs w' d'.
Proof.
  intros Hs. pose proof (dstep_grows _ _ _ _ _ Hs) as Hg. destruct Hs as [i errs a Ha|i errs Hn|i errs a Ha|i errs e Hx|i errs e x Hx]; simpl.
  - intros [_ Ht]. split; [by eapply lookup_lt_Some|]. intros j b Hj Hb. destruct (decide (j = i)) as [->|Hne].
    + simplify_eq. simpl. rewrite fmap_app. apply elem_of_app. right. left.
    + eapply tried_grows; [exact Hg|exact Ht| |done]. lia.
  - intros [Hl Ht]. right. apply lookup_ge_None in Hn. by replace (length addrs) with i by lia.
  - intros _. rewrite length_app. simpl. lia.
  - intros [Hl Ht]. split; [lia|done].
  - intros _. left. by rewrite Hx.
Qed.

Lemma dstep_calls w d w' d' addrs :
  dstep port deadline addrs w d w' d' -> (forall a, a ∈ addrs -> a ∈ primary \/ a ∈ fallback) -> inv_dialer addrs w d ->
  Forall call_ok (calls w) /\ Forall (fun c => fst c ∈ c_addr <$> calls w) (conns w) ->
  Forall call_ok (calls w') /\ Forall (fun c => fst c ∈ c_addr <$> calls w') (conns w').
Proof.
  destruct 1 as [i errs a Ha| |i errs a Ha| |]; intros Hin Hd [Hc Hn]; simpl; try by split.
  - split.
    + apply Forall_app_2; [done|]. apply Forall_singleton. split; simpl; [|unfold attempt_until; lia].
      exists a. split; [|done]. apply Hin. by eapply list_elem_of_lookup_2.
    + eapply Forall_impl; [exact Hn|]. intros c Hx. rewrite fmap_app. apply elem_of_app. by left.
  - split; [done|]. apply Forall_app_2; [done|]. apply Forall_singleton. simpl. destruct Hd as [_ Ht]. by eapply (Ht i); [lia|].
Qed.

Lemma inv_calls_same w w' :
  calls w' = calls w -> (forall c, c ∈ conns w' -> exists b, (fst c, b) ∈ conns w) ->
  Forall call_ok (calls w) /\ Forall (fun c => fst c ∈ c_addr <$> calls w) (conns w) ->
  Forall call_ok (calls w') /\ Forall (fun c => fst c ∈ c_addr <$> calls w') (conns w').
Proof.
  intros -> Hc [Ho Hn]. split; [done|]. apply List.Forall_forall. intros c Hin%list_elem_of_In. apply Hc in Hin as [b Hb].
  rewrite List.Forall_forall in Hn. apply list_elem_of_In, Hn in Hb. done.
Qed.

Lemma close_conns w c x : x ∈ conns (close w c) -> exists b, (fst x, b) ∈ conns w.
Proof.
  simpl. intros [i Hi]%list_elem_of_lookup. rewrite list_lookup_alter in Hi.
  case_decide; [|destruct x; eauto using list_elem_of_lookup_2].
  apply fmap_Some in Hi as ([y b] & Hy & ->). exists b. eauto using list_elem_of_lookup_2.
Qed.

Lemma inv_dialers_grows s w :
  grows (shared s) w -> inv_dialers s -> inv_dialer primary w (prim s) /\ match fall s with Some d => inv_dialer fallback w d | None => True end.
Proof. intros Hg [Hp Hf]. split; [by eapply inv_dialer_grows|]. destruct (fall s); [by eapply inv_dialer_grows|done]. Qed.

Lemma startFallback_inv f n f' n' w :
  startFallback f n = (f', n') -> match f with Some d => inv_dialer fallback w d | None => True end ->
  match f' with Some d => inv_dialer fallback w d | None => True end.
Proof.
  unfold startFallback. destruct f as [d|]; intros [= <- <-]; [done|]. intros _. split; [lia|]. intros j a Hj. lia.
Qed.

Lemma pstep_dialers s s' : pstep primary fallback port deadline s s' -> inv_dialers s -> inv_dialers s'.
Proof.
  unfold inv_dialers. intros Hs Hi. pose proof (inv_dialers_grows s) as Hg. unfold inv_dialers in Hg.
  destruct Hs; simpl in *; try (apply Hg; [|done]; apply cancel_grows || apply close_grows).
  - destruct Hi as [Hp Hf]. split; [by eapply dstep_inv_dialer|]. destruct f; [|done].
    eapply inv_dialer_grows; [by eapply dstep_grows|done].
  - destruct Hi as [Hp Hf]. split; [|by eapply dstep_inv_dialer]. eapply inv_dialer_grows; [by eapply dstep_grows|done].
  - destruct Hi as [Hp _]. split; [|done]. exact (inv_dialer_grows primary _ _ (Sent r) (cancel_grows w) Hp).
  - done.
  - done.
  - destruct Hi as [Hp Hf]. split; [done|]. by eapply startFallback_inv.
  - destruct Hi as [Hp Hf]. split; [done|]. by eapply startFallback_inv.
  - destruct (Hg _ (cancel_grows w) Hi) as [Hp Hf]. split; [done|]. by eapply startFallback_inv.
  - done.
Qed.

Lemma pstep_calls s s' : pstep primary fallback port deadline s s' -> inv_dialers s -> inv_calls s -> inv_calls s'.
Proof.
  unfold inv_calls, inv_dialers. intros Hs [Hp Hf] Hc. destruct Hs; simpl in *; try done.
  - eapply dstep_calls; [done| |done..]. auto.
  - eapply dstep_calls; [done| |done..]. auto.
  - apply (inv_calls_same w (close w c)); [done|apply close_conns|done].
Qed.

(** ** Outstanding results *)

Definition busy (d : dialer) : nat := match d with Sent _ => 0 | _ => 1 end.
Definition busy_fall (f : option dialer) : nat := match f with Some d => busy d | None => 0 end.
Definition started (f : option dialer) : Z := match f with Some _ => 1 | None => 0 end.
(** Results that are still to come or wait in the channel. *)
Definition outstanding (s : dialing) : nat := (busy (prim s) + busy_fall (fall s) + length (results s))%nat.

Definition inv_pending (s : dialing) : Prop :=
  match main s with
  | InSerial => fallback = [] /\ fall s = None /\ results s = [] /\ busy (prim s) = 1%nat /\ drain s = false
  | Select n _ _ => n = Z.of_nat (outstanding s) /\ 0 < n <= 1 + started (fall s) /\ drain s = false
  | Returned r => outstanding s = (if drain s then 1 else 0)%nat /\ (drain s = true -> is_ok r = true)
  end.

Lemma dstep_busy addrs w d w' d' : dstep port deadline addrs w d w' d' -> busy d = 1%nat /\ busy d' = 1%nat.
Proof. by destruct 1. Qed.

Lemma startFallback_busy f n f' n' : startFallback f n = (f', n') ->
  n' - Z.of_nat (busy_fall f') = n - Z.of_nat (busy_fall f) /\ (busy_fall f <= busy_fall f')%nat /\
  n' - started f' = n - started f /\ started f' = 1.
Proof. unfold startFallback. destruct f; intros [= <- <-]; simpl; lia. Qed.

Lemma started_le f : 0 <= started f <= 1.
Proof. destruct f; simpl; lia. Qed.

Lemma pstep_pending s s' : pstep primary fallback port deadline s s' -> inv_pending s -> inv_pending s'.
Proof.
  unfold inv_pending, outstanding. destruct 1; cbn [main drain shared prim fall results busy busy_fall started length];
    repeat match goal with
    | H : dstep _ _ _ _ _ _ _ |- _ => apply dstep_busy in H as [? ?]
    | H : startFallback _ _ = _ |- _ => apply startFallback_busy in H as (? & ? & ? & ?)
    | |- context [length (_ ++ _)] => rewrite length_app
    | m : caller |- _ => destruct m
    end; cbn [length]; intros; destruct_and?; simplify_eq; try done; try (split_and?; done || lia).
  pose proof (started_le f). destruct (Z.ltb_spec 0 (Z.of_nat (busy p + busy_fall f + S (length rs)) - 1)); split; done || lia.
Qed.

(** ** Who holds which connection *)

Definition of_result (r : result conn) : list conn := match r with Ok c => [c] | Err _ => [] end.
Definition of_dialer (d : dialer) : list conn := match d with Ended r => of_result r | _ => [] end.
Definition of_fall (f : option dialer) : list conn := match f with Some d => of_dialer d | None => [] end.
Definition of_main (m : caller) : list conn := match m with Returned r => of_result r | _ => [] end.
(** The connections that a goroutine, the channel or the caller holds. *)
Definition owners (s : dialing) : list conn :=
  of_main (main s) ++ of_dialer (prim s) ++ of_fall (fall s) ++ (results s ≫= of_result).

Definition is_open (w : world) (c : conn) : Prop := snd <$> conns w !! c = Some true.

(** Every open connection has exactly one owner. *)
Definition inv_open (w : world) (os : list conn) : Prop := NoDup os /\ forall c, is_open w c <-> c ∈ os.

#[local] Instance inv_open_perm w : Proper ((≡ₚ) ==> iff) (inv_open w).
Proof. intros l l' H. unfold inv_open. by setoid_rewrite H. Qed.

Lemma inv_open_same w w' os : conns w' = conns w -> inv_open w os -> inv_open w' os.
Proof. unfold inv_open, is_open. by intros ->. Qed.

Lemma inv_open_connect w w' t os : conns w' = conns w ++ [(t, true)] -> inv_open w os -> inv_open w' (length (conns w) :: os).
Proof.
  unfold inv_open, is_open. intros E [Hn Ho]. split.
  - constructor; [|done]. rewrite <- Ho, lookup_ge_None_2 by lia. done.
  - intros c. rewrite E, elem_of_cons, <- Ho. destruct (decide (c < length (conns w))%nat).
    + rewrite lookup_app_l by done. naive_solver lia.
    + rewrite (lookup_ge_None_2 (conns w) c), lookup_app_r by lia. destruct (c - length (conns w))%nat as [|k] eqn:Ek.
      * simpl. naive_solver lia.
      * simpl. naive_solver lia.
Qed.

Lemma inv_open_close w c os : inv_open w (c :: os) -> inv_open (close w c) os.
Proof.
  unfold inv_open, is_open. intros [[Hc Hn]%NoDup_cons Ho]. split; [done|]. intros d. specialize (Ho d).
  rewrite elem_of_cons in Ho. unfold close. cbn [conns]. rewrite list_lookup_alter. case_decide as E.
  - subst d. rewrite <- option_fmap_compose. destruct (conns w !! c); simpl; naive_solver.
  - naive_solver.
Qed.

Lemma dstep_open addrs w d w' d' os :
  dstep port deadline addrs w d w' d' -> inv_open w (of_dialer d ++ os) -> inv_open w' (of_dialer d' ++ os).
Proof. destruct 1; cbn [of_dialer of_result app]; try done. by eapply inv_open_connect. Qed.

Lemma startFallback_owners f n f' n' : startFallback f n = (f', n') -> of_fall f' = of_fall f.
Proof. unfold startFallback. by destruct f; intros [= <- <-]. Qed.

Lemma owners_snoc (rs : list (result conn)) r : (rs ++ [r]) ≫= of_result = (rs ≫= of_result) ++ of_result r.
Proof. rewrite bind_app. simpl. by rewrite app_nil_r. Qed.

Lemma owners_cons r (rs : list (result conn)) : (r :: rs) ≫= of_result = of_result r ++ (rs ≫= of_result).
Proof. done. Qed.

Lemma pstep_open s s' :
  pstep primary fallback port deadline s s' -> inv_open (shared s) (owners s) -> inv_open (shared s') (owners s').
Proof.
  unfold owners. destruct 1; cbn [main drain shared prim fall results of_main of_dialer of_fall of_result bind_cons];
    repeat match goal with
    | H : startFallback _ _ = _ |- _ => rewrite (startFallback_owners _ _ _ _ H)
    end; intros Ho; try (by eapply inv_open_same; [|exact Ho]).
  - apply (inv_open_perm w' (of_dialer d' ++ of_main m ++ of_fall f ++ (rs ≫= of_result))); [solve_Permutation|].
    eapply dstep_open; [done|]. eapply inv_open_perm; [|exact Ho]. solve_Permutation.
  - apply (inv_open_perm w' (of_dialer d' ++ of_main m ++ of_dialer p ++ (rs ≫= of_result))); [solve_Permutation|].
    eapply dstep_open; [done|]. eapply inv_open_perm; [|exact Ho]. solve_Permutation.
  - rewrite owners_snoc. eapply inv_open_perm; [|exact Ho]. solve_Permutation.
  - rewrite owners_snoc. eapply inv_open_perm; [|exact Ho]. solve_Permutation.
  - rewrite owners_cons in Ho. apply (inv_open_same w); [done|]. eapply inv_open_perm; [|exact Ho]. simpl. solve_Permutation.
  - rewrite owners_cons in Ho. apply inv_open_close. eapply inv_open_perm; [|exact Ho]. simpl. solve_Permutation.
Qed.

(** Before a connection is returned, none is closed. *)
Definition inv_unclosed (s : dialing) : Prop :=
  match main s with Returned (Ok _) => True | _ => Forall (fun c => snd c = true) (conns (shared s)) end.

Lemma dstep_unclosed addrs w d w' d' :
  dstep port deadline addrs w d w' d' -> Forall (fun c => snd c = true) (conns w) -> Forall (fun c => snd c = true) (conns w').
Proof. destruct 1; simpl; try done. intros. apply Forall_app_2; [done|]. by apply Forall_singleton. Qed.

Lemma pstep_unclosed s s' :
  pstep primary fallback port deadline s s' -> inv_pending s -> inv_unclosed s -> inv_unclosed s'.
Proof.
  unfold inv_unclosed, inv_pending. destruct 1; cbn [main drain shared prim fall results]; intros Hp Hu; try done.
  - destruct m as [| |[|]]; try done; by eapply dstep_unclosed.
  - destruct m as [| |[|]]; try done; by eapply dstep_unclosed.
  - by destruct r.
  - destruct m as [| |[|]]; naive_solver.
Qed.

(** How many addresses a goroutine has dialed, at most. *)
Definition dialed (addrs : list Addr) (d : dialer) : nat :=
  match d with Attempt i _ => i | Dialing i _ => S i | Ended _ | Sent _ => length addrs end.
Definition dialed_fall (f : option dialer) : nat := match f with Some d => dialed fallback d | None => 0 end.
Definition inv_count (s : dialing) : Prop := (length (calls (shared s)) <= dialed primary (prim s) + dialed_fall (fall s))%nat.

Lemma dstep_count addrs w d w' d' :
  dstep port deadline addrs w d w' d' -> inv_dialer addrs w d ->
  (length (calls w') - length (calls w) <= dialed addrs d' - dialed addrs d)%nat /\ (dialed addrs d <= dialed addrs d')%nat /\
  (length (calls w) <= length (calls w'))%nat.
Proof. destruct 1; simpl; rewrite ?length_app; simpl; lia. Qed.

Lemma pstep_count s s' : pstep primary fallback port deadline s s' -> inv_dialers s -> inv_count s -> inv_count s'.
Proof.
  unfold inv_count, inv_dialers. destruct 1; cbn [main drain shared prim fall results dialed dialed_fall cancel close calls]; intros [Hp Hf] Hc; try done.
  - apply dstep_count in H; [lia|done].
  - apply dstep_count in H; [lia|done].
  - unfold startFallback in *. destruct f; simplify_eq/=; lia.
  - unfold startFallback in *. destruct f; simplify_eq/=; lia.
  - unfold startFallback in *. destruct f; simplify_eq/=; lia.
Qed.

(** ** Progress and termination *)

Definition weight (addrs : list Addr) (d : dialer) : nat :=
  match d with
  | Attempt i _ => 2 * (length addrs - i) + 3
  | Dialing i _ => 2 * (length addrs - i) + 2
  | Ended _ => 2
  | Sent _ => 0
  end.
Definition weight_fall (f : option dialer) : nat := match f with Some d => weight fallback d | None => 2 * length fallback + 3 end.
Definition weight_main (m : caller) : nat := match m with Select _ _ (Some _) => 1 | _ => 0 end.
(** An upper bound on the steps that are left. *)
Definition steps_left (s : dialing) : nat :=
  (weight primary (prim s) + weight_fall (fall s) + weight_main (main s) + length (results s))%nat.

Lemma dstep_weight addrs w d w' d' :
  dstep port deadline addrs w d w' d' -> inv_dialer addrs w d -> (weight addrs d' < weight addrs d)%nat.
Proof. destruct 1; simpl; lia. Qed.

Lemma startFallback_weight f n f' n' : startFallback f n = (f', n') -> weight_fall f' = weight_fall f.
Proof. unfold startFallback. destruct f; intros [= <- <-]; simpl; lia. Qed.

Lemma pstep_steps s s' : pstep primary fallback port deadline s s' -> inv_dialers s -> (steps_left s' < steps_left s)%nat.
Proof.
  unfold steps_left, inv_dialers. destruct 1; cbn [main drain shared prim fall results weight weight_fall weight_main length];
    intros [Hp Hf]; rewrite ?length_app; cbn [length];
    repeat match goal with
    | H : dstep _ _ _ _ _ _ _ |- _ => apply dstep_weight in H; [|done]
    | H : startFallback _ _ = _ |- _ => apply startFallback_weight in H; rewrite H
    end; try lia.
Qed.

Lemma dstep_progress addrs w d : busy d = 1%nat -> (forall r, d <> Ended r) -> exists w' d', dstep port deadline addrs w d w' d'.
Proof.
  destruct d as [i errs|i errs|r|r]; intros Hb Hd; try done.
  - destruct (addrs !! i) eqn:E; eauto using dstep.
  - destruct (ctx_err w) eqn:E.
    + do 2 eexists. by eapply (d_stopped _ _ _ _ _ _ ECanceled).
    + do 2 eexists. by eapply (d_failed _ _ _ _ _ _ ECanceled).
  - by destruct (Hd r).
Qed.

(** A goroutine that has not delivered its result can go on. *)
Lemma busy_progress s :
  inv_pending s -> (0 < busy (prim s) + busy_fall (fall s))%nat -> exists s', pstep primary fallback port deadline s s'.
Proof.
  destruct s as [w p f rs m dr]. unfold inv_pending. cbn [prim fall main results drain]. intros Hi Hb.
  destruct (decide (busy p = 0%nat)) as [Hp|Hp].
  - destruct f as [d|]; simpl in Hb; [|lia]. destruct d as [i e|i e|r|r]; [| |eauto using pstep|simpl in Hb; lia].
    + destruct (dstep_progress fallback w (Attempt i e)) as (w' & d' & H); [done..|]. eauto using pstep.
    + destruct (dstep_progress fallback w (Dialing i e)) as (w' & d' & H); [done..|]. eauto using pstep.
  - destruct p as [i e|i e|r|r]; [| | |done].
    + destruct (dstep_progress primary w (Attempt i e)) as (w' & d' & H); [done..|]. eauto using pstep.
    + destruct (dstep_progress primary w (Dialing i e)) as (w' & d' & H); [done..|]. eauto using pstep.
    + destruct m as [|n errs tm|r']; [destruct Hi as (_ & -> & _); eauto using pstep|..]; eexists; by apply p_send_prim.
Qed.

Definition returned (s : dialing) : Prop := exists r, main s = Returned r.

Lemma progress s :
  inv_pending s -> ~ returned s \/ drain s = true -> exists s', pstep primary fallback port deadline s s'.
Proof.
  intros Hi Hw. destruct (decide (busy (prim s) + busy_fall (fall s) = 0)%nat) as [Hb|Hb]; [|apply busy_progress; [done|lia]].
  destruct s as [w p f rs m dr]. unfold inv_pending, outstanding, returned in *. cbn [prim fall main results drain] in *.
  destruct m as [|n errs tm|r].
  - lia.
  - destruct rs as [|[c|e] rs]; [simpl in Hi; lia|eauto using pstep|].
    destruct (startFallback f (n - 1)) as [f' n'] eqn:E. destruct (decide (n' = 0)) as [->|]; eauto using pstep.
  - destruct Hw as [Hw| ->]; [by destruct Hw; eauto|]. destruct rs as [|[c|e] rs]; [simpl in Hi; lia|eauto using pstep..].
Qed.

(** ** Everything together *)

Record dial_inv (s : dialing) : Prop := {
  di_dialers : inv_dialers s;
  di_calls : inv_calls s;
  di_pending : inv_pending s;
  di_open : inv_open (shared s) (owners s);
  di_unclosed : inv_unclosed s;
  di_count : inv_count s
}.

Lemma pstep_inv s s' : pstep primary fallback port deadline s s' -> dial_inv s -> dial_inv s'.
Proof.
  intros Hs []. split; eauto using pstep_dialers, pstep_calls, pstep_pending, pstep_open, pstep_unclosed, pstep_count.
Qed.

Lemma estep_same w w' : estep deadline w w' -> calls w' = calls w /\ conns w' = conns w.
Proof. by destruct 1. Qed.

Lemma estep_inv s w :
  estep deadline (shared s) w -> dial_inv s -> dial_inv (mkDialing w (prim s) (fall s) (results s) (main s) (drain s)).
Proof.
  intros He [Hd Hc Hp Ho Hu Hn]. pose proof (inv_dialers_grows s w (estep_grows _ _ He) Hd) as Hd'.
  apply estep_same in He as [Ec En]. split; try done.
  - unfold inv_calls in *. cbn [shared]. by rewrite Ec, En.
  - eapply inv_open_same; [exact En|exact Ho].
  - unfold inv_unclosed in *. cbn [shared main]. by rewrite En.
  - unfold inv_count in *. cbn [shared prim fall]. by rewrite Ec.
Qed.

Lemma run_dial_inv n s s' :
  run primary fallback port deadline n s s' -> dial_inv s -> dial_inv s' /\ (n + steps_left s' <= steps_left s)%nat.
Proof.
  intros Hr Hi. induction Hr as [s|n s s1 s2 _ IH Hs|n s s1 w _ IH He]; [split; [done|lia]| |].
  - destruct (IH Hi) as [H1 Hn]. split; [by eapply pstep_inv|]. apply pstep_steps in Hs; [lia|apply H1].
  - destruct (IH Hi) as [H1 Hn]. split; [by apply estep_inv|exact Hn].
Qed.

Lemma start_inv w m :
  calls w = [] -> conns w = [] -> (m = InSerial /\ fallback = []) \/ (exists tm, m = Select 1 [] tm) ->
  dial_inv (mkDialing w (Attempt 0 []) None [] m false).
Proof.
  intros Hc Hn Hm. assert (Ho : of_main m = []) by (destruct Hm as [[-> ->]|[tm ->]]; done). split.
  - split; [|done]. split; [lia|]. intros j a Hj. lia.
  - unfold inv_calls. simpl. by rewrite Hc, Hn.
  - destruct Hm as [[-> ->]|[tm ->]]; done.
  - unfold owners. simpl. rewrite Ho. split; [constructor|]. intros c. unfold is_open. simpl. rewrite Hn. split; [done|set_solver].
  - unfold inv_unclosed. simpl. rewrite Hn. by destruct Hm as [[-> ->]|[tm ->]].
  - unfold inv_count. simpl. by rewrite Hc.
Qed.

Lemma no_steps_left w m s n :
  run primary fallback port deadline n (mkDialing w (Sent m) None [] (Returned m) false) s ->
  n = 0%nat /\ exists w', calls w' = calls w /\ conns w' = conns w /\ s = mkDialing w' (Sent m) None [] (Returned m) false.
Proof.
  remember (mkDialing w (Sent m) None [] (Returned m) false) as s0 eqn:E. induction 1 as [s|n s s1 s2 _ IH Hs|n s s1 w1 _ IH He]; subst.
  - split; [done|]. by exists w.
  - destruct (IH eq_refl) as (_ & w' & _ & _ & ->). inversion Hs; simplify_eq; by match goal with H : dstep _ _ _ _ _ _ _ |- _ => inversion H end.
  - destruct (IH eq_refl) as (-> & w' & <- & <- & ->). split; [done|]. simpl in *. apply estep_same in He as [<- <-]. by exists w1.
Qed.
(** Once no result is outstanding, the caller holds every open connection. *)
Lemma quiet_owners s r :
  dial_inv s -> main s = Returned r -> drain s = false ->
  busy (prim s) = 0%nat /\ busy_fall (fall s) = 0%nat /\ owners s = of_result r.
Proof.
  intros [_ _ Hp _ _ _] Hr Hd. unfold inv_pending in Hp. rewrite Hr, Hd in Hp. destruct Hp as [Hout _]. unfold outstanding in Hout.
  assert (Hrs : results s = []) by (apply length_zero_iff_nil; lia). unfold owners. rewrite Hr, Hrs.
  split_and!; [lia..|]. destruct (prim s); try (simpl in Hout; lia).
  destruct (fall s) as [[]|]; try (simpl in Hout; lia); simpl; by rewrite app_nil_r.
Qed.

(** After a failure there is no connection and no goroutine. *)
Lemma error_return s e :
  dial_inv s -> main s = Returned (Err e) ->
  conns (shared s) = [] /\ drain s = false /\ busy (prim s) = 0%nat /\ busy_fall (fall s) = 0%nat.
Proof.
  intros Hi Hr. assert (Hd : drain s = false).
  { destruct Hi as [_ _ Hp _ _ _]. unfold inv_pending in Hp. rewrite Hr in Hp. destruct (drain s); naive_solver. }
  destruct (quiet_owners s _ Hi Hr Hd) as (Hb & Hf & Ho). split_and!; try done.
  destruct Hi as [_ _ _ [_ Hop] Hu _]. unfold inv_unclosed in Hu. rewrite Hr in Hu. rewrite Ho in Hop.
  destruct (conns (shared s)) as [|[x b] cs] eqn:En; [done|]. apply Forall_cons_iff in Hu as [Hb' _]. simpl in Hb'. subst b.
  exfalso. apply (not_elem_of_nil 0%nat), Hop. unfold is_open. by rewrite En.
Qed.
End invariant.

(** ** Calls of [vetted.dial] *)

Lemma dial_cases v addr t done parent n s :
  dial v addr t done parent n s ->
  (dial_guard v addr = false /\ n = 0%nat /\ calls (shared s) = [] /\ conns (shared s) = [] /\
   main s = Returned (Err errNotVetted) /\ drain s = false) \/
  (dial_guard v addr = true /\ exists p f, families (v_addrs v) = (p, f) /\
   dial_inv p f (v_port v) (dial_deadline parent t) s /\ (n + steps_left p f s <= 19)%nat).
Proof.
  unfold dial, dial_start. destruct (families (v_addrs v)) as [p f] eqn:Ef. destruct (dial_guard v addr); simpl; intros Hr.
  - right. split; [done|]. exists p, f. split; [done|]. apply families_length in Ef as [Hp Hf].
    destruct f as [|b f]; eapply run_dial_inv in Hr as [Hi Hn]; try (apply start_inv; eauto).
    + split; [done|]. unfold steps_left in Hn at 2. simpl in Hn. lia.
    + split; [done|]. unfold steps_left in Hn at 2. simpl in Hn, Hf. lia.
  - left. apply no_steps_left in Hr as (-> & w' & Hc & Hn & ->). done.
Qed.

(** What a vetted destination may be dialed at. *)
Definition vetted_addr (v : vetted) (text : gostring) : Prop := exists a, a ∈ v_addrs v /\ text = AddrPort_String a (v_port v).

(** What is dialed and what the connections lead to. *)
Lemma dial_vetted v addr t done parent n s :
  dial v addr t done parent n s ->
  Forall (fun c => vetted_addr v (c_addr c) /\ c_until c <= dial_deadline parent t) (calls (shared s)) /\
  Forall (fun c => vetted_addr v (fst c)) (conns (shared s)).
Proof.
  intros [(Hg & _ & Hc & Hn & Hm & _)|(Hg & p & f & Ef & [Hd [Hc Hn] _ _ _ Hl] & _)]%dial_cases.
  { rewrite Hc, Hn. by split; constructor. }
  assert (Hv : Forall (fun c => vetted_addr v (c_addr c) /\ c_until c <= dial_deadline parent t) (calls (shared s))).
  { eapply Forall_impl; [exact Hc|]. intros c [(a & Ha & E) Hu]. split; [|done]. exists a. split; [|done]. by eapply families_elem. }
  split; [done|]. eapply Forall_impl; [exact Hn|]. intros c (k & -> & Hk%list_elem_of_In)%list_elem_of_fmap.
  rewrite List.Forall_forall in Hv. by apply Hv in Hk as [? _].
Qed.

(** C16: nothing is ever dialed but the addresses the policy checked, at the checked port: in every state of a call of dial, every address passed to the dialer and the peer of every connection is the text of one of the vetted addresses with the vetted port; there are at most six calls, none with a deadline past the thirty-second budget or the caller's own deadline; and when the requested host:port is not the one that was checked, or no address was, nothing is dialed and the result is errNotVetted. *)
Theorem dial_only_vetted v addr t done parent n s :
  dial v addr t done parent n s ->
  Forall (fun c => vetted_addr v (c_addr c) /\ c_until c <= dial_deadline parent t) (calls (shared s)) /\
  Forall (fun c => vetted_addr v (fst c)) (conns (shared s)) /\
  dial_deadline parent t <= t + 30 * Second /\ (length (calls (shared s)) <= 6)%nat /\
  (dial_guard v addr = false -> calls (shared s) = [] /\ main s = Returned (Err errNotVetted)).
Proof.
  intros H. destruct (dial_vetted _ _ _ _ _ _ _ H) as [Hv1 Hv2]. split; [done|]. split; [done|].
  split; [unfold dial_deadline, dialBudget; destruct parent; lia|].
  apply dial_cases in H as [(Hg & _ & Hc & Hn & Hm & _)|(Hg & p & f & Ef & [[Hd1 Hd2] _ _ _ _ Hl] & _)].
  { rewrite Hc. split; [simpl; lia|done]. }
  split; [|congruence]. apply families_length in Ef as [Hp Hf]. unfold inv_count, dialed_fall in Hl.
  assert (Hk : forall L d, inv_dialer (v_port v) L (shared s) d -> (dialed L d <= length L)%nat).
  { intros L [i e|i e|r|r]; simpl; lia. }
  apply Hk in Hd1. destruct (fall s) as [d|]; [apply Hk in Hd2|]; lia.
Qed.

(** C17: no connection leaks: once the call has returned, the connection it returned is open, and when the goroutine that waits for the loser has finished, which it can always do, it is the only open one; a call that failed leaves none open and never made one. *)
Theorem dial_no_leak v addr t done parent n s r :
  dial v addr t done parent n s -> main s = Returned r ->
  (forall c, r = Ok c -> is_open (shared s) c) /\
  (drain s = false -> forall c, is_open (shared s) c -> r = Ok c) /\
  (is_ok r = false -> conns (shared s) = [] /\ drain s = false) /\
  (drain s = true -> exists p f s', families (v_addrs v) = (p, f) /\ pstep p f (v_port v) (dial_deadline parent t) s s').
Proof.
  intros [(_ & _ & _ & Hn & Hm & Hdr)|(_ & p & f & Ef & Hi & _)]%dial_cases Hr.
  { assert (r = Err errNotVetted) as -> by congruence. unfold is_open. rewrite Hn. split_and!; [done|done|done|congruence]. }
  pose proof (di_open _ _ _ _ _ Hi) as [_ Ho]. split_and!.
  - intros c ->. apply Ho. unfold owners. rewrite Hr. left.
  - intros Hd c Hc%Ho. destruct (quiet_owners _ _ _ _ _ _ Hi Hr Hd) as (_ & _ & E). rewrite E in Hc.
    destruct r; simpl in Hc; [apply list_elem_of_singleton in Hc; by subst|by apply not_elem_of_nil in Hc].
  - destruct r as [|e]; [done|]. intros _. by destruct (error_return _ _ _ _ _ _ Hi Hr) as (? & ? & _).
  - intros Hd. destruct (progress p f (v_port v) (dial_deadline parent t) s) as [s' Hs']; [apply Hi|by right|by exists p, f, s'].
Qed.

(** C18: dialing ends: whatever the network answers, a call takes at most 19 steps, and until it has returned some step is possible; each attempt ends by itself because it runs under a deadline. *)
Theorem dial_terminates v addr t done parent n s :
  dial v addr t done parent n s ->
  (n <= 19)%nat /\
  (returned s \/ exists p f s', families (v_addrs v) = (p, f) /\ pstep p f (v_port v) (dial_deadline parent t) s s').
Proof.
  intros [(_ & -> & _ & _ & Hm & _)|(_ & p & f & Ef & [_ _ Hp _ _ _] & Hn)]%dial_cases.
  { split; [lia|]. left. by eexists. }
  split; [lia|]. destruct (main s) as [| |r] eqn:E; [right..|left; by exists r];
    (destruct (progress p f (v_port v) (dial_deadline parent t) s Hp) as [s' Hs'];
      [left; intros [r Hr]; congruence|by exists p, f, s']).
Qed.

(** C19: a call fails only for a reason: at the moment it returns an error while its context has not ended, every one of the addresses it may use, the first three of each family, has been dialed and no connection was made. *)
Theorem dial_fails_only_when_all_do v addr t done parent n s p f s' e :
  dial v addr t done parent n s -> families (v_addrs v) = (p, f) -> ~ returned s ->
  pstep p f (v_port v) (dial_deadline parent t) s s' -> main s' = Returned (Err e) -> ctx_err (shared s) = None ->
  conns (shared s) = [] /\ forall a, a ∈ p \/ a ∈ f -> AddrPort_String a (v_port v) ∈ c_addr <$> calls (shared s).
Proof.
  intros [(_ & _ & _ & _ & Hm & _)|(_ & p' & f' & Ef & Hi & _)]%dial_cases Ef' Hnr Hs Hret Hctx; [by destruct Hnr; eexists|].
  rewrite Ef in Ef'. injection Ef' as -> ->.
  destruct (error_return _ _ _ _ _ _ (pstep_inv _ _ _ _ _ _ Hs Hi) Hret) as (Hn & _ & Hb & Hbf).
  assert (Hw : conns (shared s) = []).
  { rewrite <- Hn. destruct Hs; simpl in *; try done; destruct Hnr; by eexists. }
  split; [done|].
  assert (Hin : forall L r a, inv_dialer (v_port v) L (shared s) (Sent r) -> a ∈ L -> AddrPort_String a (v_port v) ∈ c_addr <$> calls (shared s)).
  { intros L r a Ht [j Hj]%list_elem_of_lookup. destruct r as [c|x]; simpl in Ht; [rewrite Hw in Ht; simpl in Ht; lia|].
    destruct Ht as [?|Ht]; [done|]. eapply Ht; [|done]. by eapply lookup_lt_Some. }
  destruct Hi as [[Hi1 Hi2] _ Hip _ _ _]. unfold inv_pending in Hip.
  destruct Hs as [| |w r rs dr| | | | | |w pd fd x rs m errs tm f' dr Hf| |]; simpl in *; try done; try (by destruct Hnr; eexists).
  - destruct Hip as (-> & _). intros a [Ha|Ha%not_elem_of_nil]; [|done]. by eapply Hin.
  - unfold startFallback in Hf. destruct fd as [d|]; [|exfalso; injection Hf as _ Hf; simpl in Hip; lia].
    injection Hf as <- _. destruct pd; try done. destruct d; try done. intros a [Ha|Ha]; eauto.
Qed.

(** ** Examples *)

Definition dual : vetted := mkVetted (str "www.example.com") 443 [Addr6 (2 ^ 125 + 1) []; Addr4 1572394766] (60 * Second).
Definition single : vetted := mkVetted (str "v4.example.com") 80 [Addr4 1572394766] (60 * Second).

(** Takes the step given by a tactic in the run [H]. *)
Ltac prog H tac := eapply run_prog in H; [|solve [tac]]; cbn [shared prim fall results main drain] in H.

(** The IPv6 address does not answer within 300 ms, the IPv4 one connects and
    wins, and the IPv6 connection that is made after all is closed. *)
Lemma race_run :
  exists s, dial dual (str "www.example.com:443") 0 None None 9 s /\
    main s = Returned (Ok 0%nat) /\ drain s = false /\ snd <$> conns (shared s) = [true; false].
Proof.
  unfold dial. change (families (v_addrs dual)) with ([Addr6 (2 ^ 125 + 1) []], [Addr4 1572394766]).
  set (P := [Addr6 (2 ^ 125 + 1) []]). set (F := [Addr4 1572394766]).
  pose proof (run_refl P F 443 (dial_deadline None 0) (dial_start dual (str "www.example.com:443") 0 None)) as H.
  change (dial_start dual (str "www.example.com:443") 0 None) with
    (mkDialing (mkWorld 0 None [] []) (Attempt 0 []) None [] (Select 1 [] (Some (0 + fallbackDelay))) false) in H at 2.
  prog H ltac:(apply p_prim, d_call; reflexivity).
  eapply run_env in H; [|apply (e_tick _ _ (400 * Millisecond)); by vm_compute].
  prog H ltac:(by eapply p_timer; [by vm_compute|reflexivity]).
  prog H ltac:(apply p_fall, d_call; reflexivity).
  prog H ltac:(apply p_fall; by eapply d_connected).
  prog H ltac:(apply p_send_fall).
  prog H ltac:(apply p_won).
  prog H ltac:(apply p_prim; by eapply d_connected).
  prog H ltac:(by apply p_send_prim).
  prog H ltac:(apply p_drain_conn).
  eexists. split; [exact H|split_and!; reflexivity].
Qed.

(** The only address refuses the connection. *)
Lemma refused_run :
  exists s s', dial single (str "v4.example.com:80") 0 None None 3 s /\ ctx_err (shared s) = None /\ ~ returned s /\
    pstep [Addr4 1572394766] [] 80 (dial_deadline None 0) s s' /\ main s' = Returned (Err (EJoin [EOther 111])).
Proof.
  unfold dial. change (families (v_addrs single)) with ([Addr4 1572394766], @nil Addr). set (P := [Addr4 1572394766]).
  pose proof (run_refl P [] 80 (dial_deadline None 0) (dial_start single (str "v4.example.com:80") 0 None)) as H.
  change (dial_start single (str "v4.example.com:80") 0 None) with (mkDialing (mkWorld 0 None [] []) (Attempt 0 []) None [] InSerial false) in H at 2.
  prog H ltac:(apply p_prim, d_call; reflexivity).
  prog H ltac:(apply p_prim; by apply (d_failed _ _ _ _ _ _ (EOther 111))).
  prog H ltac:(apply p_prim; by apply d_none_left).
  eexists _, _. split; [exact H|]. split; [done|]. split; [by intros [r Hr]|]. split; [apply p_serial|reflexivity].
Qed.

Lemma dial_only_vetted_witness :
  exists s, dial dual (str "www.example.com:443") 0 None None 9 s /\ (length (calls (shared s)) <= 6)%nat.
Proof.
  destruct race_run as (s & Hs & _). exists s. split; [exact Hs|].
  exact (proj1 (proj2 (proj2 (proj2 (dial_only_vetted dual (str "www.example.com:443") 0 None None 9 s Hs))))).
Defined.

Lemma dial_no_leak_witness :
  exists s, main s = Returned (Ok 0%nat) /\ length (conns (shared s)) = 2%nat /\ is_open (shared s) 0 /\ (forall c, is_open (shared s) c -> Ok 0%nat = Ok c).
Proof.
  destruct race_run as (s & Hs & Hm & Hd & Hc). exists s. split; [exact Hm|].
  split; [rewrite <- (length_fmap snd), Hc; reflexivity|].
  destruct (dial_no_leak dual (str "www.example.com:443") 0 None None 9 s (Ok 0%nat) Hs Hm) as (H1 & H2 & _).
  split; [apply H1; reflexivity|exact (H2 Hd)].
Defined.

Lemma dial_terminates_witness : exists s, dial dual (str "www.example.com:443") 0 None None 9 s /\ (9 <= 19)%nat.
Proof.
  destruct race_run as (s & Hs & _). exists s. split; [exact Hs|].
  exact (proj1 (dial_terminates dual (str "www.example.com:443") 0 None None 9 s Hs)).
Defined.

Lemma dial_fails_only_when_all_do_witness :
  exists s, dial single (str "v4.example.com:80") 0 None None 3 s /\ conns (shared s) = [] /\
    AddrPort_String (Addr4 1572394766) 80 ∈ c_addr <$> calls (shared s).
Proof.
  destruct refused_run as (s & s' & Hs & Hc & Hn & Hp & Hr). exists s. split; [exact Hs|].
  destruct (dial_fails_only_when_all_do single (str "v4.example.com:80") 0 None None 3 s [Addr4 1572394766] [] s' _ Hs eq_refl Hn Hp Hr Hc) as [H1 H2].
  split; [exact H1|]. apply H2. left. left.
Defined.
