(* ===== verification/Config.v ===== *)
(** * Config: internal/config/config.go and internal/config/store.go

    The config file, its defaults and limits, and the store that reloads it.
    The YAML decoder and the parser of log levels are libraries of other
    projects and parameters here; the decoder is given the program's own
    [UnmarshalYAML] methods, which it calls on nodes. *)

From Stdlib Require Import ZArith NArith Ascii String Lia Bool List SpecFloat.
From stdpp Require Import base tactics list gmap strings option sets.
From S2P Require Import Prelude GoStrings Netip GoFloat GoTime Regexp Rules Policy Limits.

Local Open Scope Z_scope.

(** ** Limits *)

Definition DefaultTotalConnections : Z := 20000.

Definition DefaultClientLimits : Client (F := float64) := mkLimits 512 (of_int 200) 1000 (60 * Minute).

(** [math.IsNaN(x)] and [math.IsInf(x, 0)] *)
Definition IsNaN (x : float64) : bool := match x with S754_nan => true | _ => false end.
Definition IsInf (x : float64) : bool := match x with S754_infinity _ => true | _ => false end.

(** A limit that is absent from the file is [None]. *)
Record fileClientLimits := mkFileLimits {
  fl_ClientConnections : option Z;
  fl_RequestsPerSecond : option float64;
  fl_RequestBurst : option Z;
  fl_TunnelIdleTimeout : option Z
}.

(** The limits with the fields that are set in [f]. *)
Definition override (f : fileClientLimits) (base : Client (F := float64)) : Client (F := float64) :=
  mkLimits (default (MaxConnections base) (fl_ClientConnections f))
           (default (RequestsPerSecond base) (fl_RequestsPerSecond f))
           (default (RequestBurst base) (fl_RequestBurst f))
           (default (TunnelIdleTimeout base) (fl_TunnelIdleTimeout f)).

(** [fileClientLimits.apply] *)
Definition apply (f : fileClientLimits) (base : Client (F := float64)) : result (Client (F := float64)) :=
  let l := override f base in
  if IsNaN (RequestsPerSecond l) || IsInf (RequestsPerSecond l)
  then Err (ENew (str "client_requests_per_second must be a finite number"))
  else if (MaxConnections l <? 0) || flt (RequestsPerSecond l) (of_int 0) || (RequestBurst l <? 0) || (TunnelIdleTimeout l <? 0)
  then Err (ENew (str "values must not be negative"))
  else if flt (of_int 0) (RequestsPerSecond l) && (RequestBurst l <? 1)
  then Err (ENew (str "client_request_burst must be at least 1 when client_requests_per_second is set"))
  else Ok l.

(** ** YAML nodes and the program's methods on them *)

Inductive NodeKind := DocumentNode | SequenceNode | MappingNode | ScalarNode | AliasNode.

#[export] Instance NodeKind_eq_dec : EqDecision NodeKind.
Proof. solve_decision. Defined.

(** A node: kind, short tag, value, line, content, and what an alias stands
    for. *)
Inductive Node := mkNode (kind : NodeKind) (shortTag value : gostring) (line : Z) (content : list Node) (alias : option Node).

Definition n_Kind (n : Node) : NodeKind := let 'mkNode k _ _ _ _ _ := n in k.
Definition n_ShortTag (n : Node) : gostring := let 'mkNode _ t _ _ _ _ := n in t.
Definition n_Value (n : Node) : gostring := let 'mkNode _ _ v _ _ _ := n in v.
Definition n_Line (n : Node) : Z := let 'mkNode _ _ _ l _ _ := n in l.
Definition n_Content (n : Node) : list Node := let 'mkNode _ _ _ _ c _ := n in c.
Definition n_Alias (n : Node) : option Node := let 'mkNode _ _ _ _ _ a := n in a.

Definition line_error {A} (line : Z) (msg : String.string) : result A := Err (EWrap (str "line " ++ Itoa line) (ENew (str msg))).

(** The loop of [list.UnmarshalYAML]. Following a nil alias would panic. *)
Fixpoint unmarshal_entries (l : list gostring) (content : list Node) : result (list gostring) :=
  match content with
  | [] => Ok l
  | c :: content =>
      let* c := (if bool_decide (n_Kind c = AliasNode) then match n_Alias c with Some a => Ok a | None => Err EPanic end else Ok c) in
      if negb (bool_decide (n_Kind c = ScalarNode)) || bool_decide (n_ShortTag c = str "!!null")
      then line_error (n_Line c) "list entries must be plain non-empty values"
      else unmarshal_entries (l ++ [n_Value c]) content
  end.

(** [list.UnmarshalYAML] *)
Definition unmarshal_list (l : list gostring) (n : Node) : result (list gostring) :=
  if negb (bool_decide (n_Kind n = SequenceNode)) then line_error (n_Line n) "expected a list"
  else unmarshal_entries l (n_Content n).

(** [duration.UnmarshalYAML] *)
Definition unmarshal_duration (n : Node) : result Z :=
  match ParseDuration (n_Value n) with
  | Ok v => if negb (bool_decide (n_Kind n = ScalarNode)) then line_error (n_Line n) "expected a duration such as 30s, 10m or 1h" else Ok v
  | Err _ => line_error (n_Line n) "expected a duration such as 30s, 10m or 1h"
  end.

(** ** The file *)

Record fileSubnet := mkFileSubnet {
  fs_Name : gostring;
  fs_CIDRs : list gostring;
  fs_Ports : list gostring;
  fs_Allow : list gostring;
  fs_Deny : list gostring;
  fs_Limits : fileClientLimits
}.

(** [file], with the inlined [fileLimits]. *)
Record file := mkFile {
  f_LogLevel : gostring;
  f_TotalConnections : option Z;
  f_Limits : fileClientLimits;
  f_Subnets : list fileSubnet
}.

Record Config := mkConfig {
  LogLevel : Z;
  cfg_Policy : Policy;
  TotalConnections : Z;
  clientLimits : Client (F := float64);
  subnetLimits : gmap nat (Client (F := float64))
}.

(** [Config.ClientLimits]; the map is keyed by the pointer, which is the
    subnet's position. *)
Definition ClientLimits (c : Config) (subnet : option Subnet) : Client (F := float64) :=
  match subnet with
  | Some s => default (clientLimits c) (subnetLimits c !! sn_id s)
  | None => clientLimits c
  end.

(** What a strict decoder makes of the data: nothing, an error, or the first
    document and whether something follows it. *)
Inductive decoded := DEOF | DError (e : error) | DFile (f : file) (more : bool).

Definition spec_of (s : fileSubnet) : SubnetSpec := mkSpec (fs_Name s) (fs_CIDRs s) (fs_Ports s) (fs_Allow s) (fs_Deny s).

Section parse.
Context (engine : gostring -> option (gostring -> bool)).
Context (Decode : (list gostring -> Node -> result (list gostring)) -> (Node -> result Z) -> gostring -> decoded).
Context (ParseLevel : gostring -> result Z).

Definition InfoLevel : Z := 1.

(** The last loop of [Parse]. *)
Fixpoint attach_limits (fsubnets : list fileSubnet) (base : Client (F := float64)) (i : nat) (ss : list Subnet)
    (m : gmap nat (Client (F := float64))) : result (gmap nat (Client (F := float64))) :=
  match ss with
  | [] => Ok m
  | s :: ss =>
      match fsubnets !! i with
      | None => Err EPanic
      | Some fs =>
          let* l := rwrap (sn_name s) (apply (fs_Limits fs) base) in
          attach_limits fsubnets base (S i) ss (<[sn_id s := l]> m)
      end
  end.

Definition Parse (data : gostring) : result Config :=
  match Decode unmarshal_list unmarshal_duration data with
  | DEOF => Err (ENew (str "config is empty"))
  | DError e => Err e
  | DFile f true => Err (ENew (str "config must be a single YAML document"))
  | DFile f false =>
      let* level := (if bool_decide (f_LogLevel f = []) then Ok InfoLevel else rwrap (str "log_level") (ParseLevel (f_LogLevel f))) in
      let* total := match f_TotalConnections f with
                    | None => Ok DefaultTotalConnections
                    | Some n => if n <? 0 then Err (ENew (str "limits: total_connections must not be negative")) else Ok n
                    end in
      let* base := rwrap (str "limits") (apply (f_Limits f) DefaultClientLimits) in
      let* policy := New engine (spec_of <$> f_Subnets f) in
      let* m := attach_limits (f_Subnets f) base 0 (subnets policy) ∅ in
      Ok (mkConfig level policy total base m)
  end.

(** [Load]: [contents] is what [os.ReadFile] returns. *)
Definition Load (contents : result gostring) : result Config := let* data := contents in Parse data.

(** ** The store *)

(** [Store]. [st_applied] are the configs passed to [apply], in order. *)
Record Store := mkStore { st_path : gostring; st_cur : option Config; st_applied : list Config }.

Definition Reload (s : Store) (contents : result gostring) : Store * option error :=
  match Load contents with
  | Err e => (s, Some e)
  | Ok cfg => (mkStore (st_path s) (Some cfg) (st_applied s ++ [cfg]), None)
  end.

(** [filepath.Clean] on Unix: components are read from left to right, ".."
    removes the one before it. [out] is in reverse. *)
Fixpoint clean_components (rooted : bool) (out parts : list gostring) : list gostring :=
  match parts with
  | [] => rev out
  | p :: parts =>
      if bool_decide (p = []) || bool_decide (p = str ".") then clean_components rooted out parts
      else if bool_decide (p = str "..") then
        match out with
        | q :: out' => if bool_decide (q = str "..") then clean_components rooted (p :: out) parts else clean_components rooted out' parts
        | [] => if rooted then clean_components rooted [] parts else clean_components rooted [p] parts
        end
      else clean_components rooted (p :: out) parts
  end.

Definition Clean (path : gostring) : gostring :=
  let rooted := HasPrefix path (str "/") in
  let body := Join (clean_components rooted [] (Split path "/")) "/" in
  if rooted then str "/" ++ body else if bool_decide (body = []) then str "." else body.

(** [filepath.Abs], with the working directory as an argument. *)
Definition Abs (cwd : result gostring) (path : gostring) : result gostring :=
  if HasPrefix path (str "/") then Ok (Clean path)
  else let* wd := cwd in Ok (Clean (wd ++ str "/" ++ path)).

(** [NewStore]: the store and the error of the first load. *)
Definition NewStore (cwd : result gostring) (path : gostring) (contents : result gostring) : result (Store * option error) :=
  let* abs := Abs cwd path in Ok (Reload (mkStore abs None []) contents).

(** ** Watching *)

Definition reloadDebounce : Z := 250 * Millisecond.

(** What the select of [watchLoop] can receive. A reload reads the file, whose
    contents come with the event. *)
Inductive watch_event :=
| WDone                                             (* ctx.Done() *)
| WEvent (name : gostring) (chmod_only : bool)      (* a file event; whether its Op is Chmod *)
| WClosed                                           (* one of the watcher's channels is closed *)
| WError                                            (* an error of the watcher *)
| WTimer (contents : result gostring)               (* the debounce timer fires *)
| WHup (contents : result gostring).                (* SIGHUP *)

(** The loop's state: the store, when the timer fires, whether the loop runs,
    and the reload errors it logged. *)
Record watcher := mkWatcher { w_store : Store; w_timer : option Z; w_running : bool; w_errors : list error }.

Definition watch_start (s : Store) : watcher := mkWatcher s None true [].

(** The closure [reload]. *)
Definition watch_reload (w : watcher) (timer : option Z) (contents : result gostring) : watcher :=
  let '(s, err) := Reload (w_store w) contents in
  mkWatcher s timer (w_running w) (w_errors w ++ match err with Some e => [e] | None => [] end).

(** One round of the loop at time [now]; [None]: the event cannot happen. *)
Definition watchLoop_step (w : watcher) (now : Z) (ev : watch_event) : option watcher :=
  if negb (w_running w) then None else
  match ev with
  | WDone | WClosed => Some (mkWatcher (w_store w) (w_timer w) false (w_errors w))
  | WEvent name chmod_only =>
      Some (if bool_decide (Clean name = st_path (w_store w)) && negb chmod_only
            then mkWatcher (w_store w) (Some (now + reloadDebounce)) true (w_errors w) else w)
  | WError => Some w
  | WTimer contents =>
      match w_timer w with
      | Some t => if t <=? now then Some (watch_reload w None contents) else None
      | None => None
      end
  | WHup contents => Some (watch_reload w (w_timer w) contents)
  end.

(** The loop over a sequence of events. *)
Fixpoint watchLoop (w : watcher) (evs : list (Z * watch_event)) : option watcher :=
  match evs with
  | [] => Some w
  | (now, ev) :: evs => match watchLoop_step w now ev with Some w => watchLoop w evs | None => None end
  end.
End parse.
