(* ===== verification/ConfigFacts.v ===== *)
(** * Configs and reloading, internal/config

    A config that is accepted has usable limits, the ones written in the file
    where they are and the defaults elsewhere; nothing in a list is dropped;
    the store keeps the last config that loaded, and a burst of file events
    makes one reload. *)

From Stdlib Require Import ZArith NArith Ascii String Lia Bool List SpecFloat.
From stdpp Require Import base tactics list gmap strings option sets.
From S2P Require Import Prelude GoStrings Netip GoFloat GoTime Regexp Rules Policy Limits SubnetFacts Config.

Local Open Scope Z_scope.

(** ** Limits *)

(** What the tracker and the tunnels rely on: a finite rate, nothing negative,
    and room for a first request when there is a rate. *)
Record valid_limits (l : Client (F := float64)) : Prop := {
  vl_finite : IsNaN (RequestsPerSecond l) = false /\ IsInf (RequestsPerSecond l) = false;
  vl_conns : 0 <= MaxConnections l;
  vl_rate : flt (RequestsPerSecond l) (of_int 0) = false;
  vl_burst : 0 <= RequestBurst l;
  vl_idle : 0 <= TunnelIdleTimeout l;
  vl_first : flt (of_int 0) (RequestsPerSecond l) = true -> 1 <= RequestBurst l
}.

Lemma apply_Ok f base l : apply f base = Ok l <-> l = override f base /\ valid_limits l.
Proof.
  unfold apply. set (o := override f base). split.
  - destruct (IsNaN _ || _) eqn:E1; [done|]. destruct (_ || _ || _ || _) eqn:E2; [done|]. destruct (_ && _) eqn:E3; [done|].
    intros [= <-]. split; [done|]. split_bools. rewrite ?Z.ltb_ge in *. split; try done; try lia.
    intros Hr. rewrite Hr in E3. cbn [andb] in E3. by apply Z.ltb_ge in E3.
  - intros [-> [[-> ->] Hc Hr Hb Hi Hf]]. cbn [orb]. rewrite Hr.
    rewrite (proj2 (Z.ltb_ge _ _) Hc), (proj2 (Z.ltb_ge _ _) Hb), (proj2 (Z.ltb_ge _ _) Hi). cbn [orb].
    destruct (flt (of_int 0) _); [|done]. cbn [andb]. by rewrite (proj2 (Z.ltb_ge _ _) (Hf eq_refl)).
Qed.

Lemma default_limits_valid : valid_limits DefaultClientLimits.
Proof. split; vm_compute; done. Qed.

(** ** Lists and durations *)

(** A list entry after following an alias. *)
Definition target (c : Node) : option Node := if bool_decide (n_Kind c = AliasNode) then n_Alias c else Some c.

(** [v] is the plain, non-empty value of entry [c]. *)
Definition entry_value (c : Node) (v : gostring) : Prop :=
  exists t, target c = Some t /\ n_Kind t = ScalarNode /\ n_ShortTag t <> str "!!null" /\ v = n_Value t.

Lemma unmarshal_entries_Ok l content l' :
  unmarshal_entries l content = Ok l' <-> exists vs, l' = l ++ vs /\ Forall2 entry_value content vs.
Proof.
  revert l. induction content as [|c content IH]; intros l; cbn [unmarshal_entries].
  { split; [intros [= <-]; exists []; by rewrite app_nil_r|]. intros (vs & -> & Hvs). inversion Hvs. by rewrite app_nil_r. }
  rewrite rbind_Ok.
  assert (Ht : forall t, (if bool_decide (n_Kind c = AliasNode) then match n_Alias c with Some a => Ok a | None => Err EPanic end else Ok c) = Ok t
                         <-> target c = Some t).
  { intros t. unfold target. case_bool_decide; [destruct (n_Alias c)|]; naive_solver. }
  setoid_rewrite Ht. split.
  - intros (t & Hc & H). destruct (negb _ || _) eqn:E; [done|]. split_bools. apply bool_decide_eq_true in H0. apply bool_decide_eq_false in H1.
    apply IH in H as (vs & -> & Hvs). exists (n_Value t :: vs). rewrite <- app_assoc. split; [done|]. constructor; [|done]. by exists t.
  - intros (vs & -> & Hvs). inversion Hvs as [|? v ? vs' (t & Hc & Hk & Hn & ->) Hvs']; subst. exists t. split; [done|].
    rewrite bool_decide_true, bool_decide_false by done. simpl. apply IH. exists vs'. by rewrite <- app_assoc.
Qed.

(** A YAML list is taken over entry by entry or refused: it is accepted exactly when the node is a sequence and every entry, aliases followed, is a plain scalar other than null; the result has the value of every entry in order, so no rule is dropped. *)
Theorem unmarshal_list_exact l n l' :
  unmarshal_list l n = Ok l' <->
  n_Kind n = SequenceNode /\ exists vs, l' = l ++ vs /\ Forall2 entry_value (n_Content n) vs /\ length vs = length (n_Content n).
Proof.
  unfold unmarshal_list. case_bool_decide as Hk; simpl.
  - rewrite unmarshal_entries_Ok. split.
    + intros (vs & Hl & Hvs). split; [done|]. exists vs. split; [done|]. split; [done|]. symmetry. by eapply Forall2_length.
    + intros (_ & vs & Hl & Hvs & _). eauto.
  - split; [done|]. by intros [? _].
Qed.

(** A timeout needs a unit: an accepted duration comes from a scalar and fits 64 bits, and a bare number, which would be read as nanoseconds, is refused, except 0. *)
Theorem duration_needs_unit n :
  (forall d, unmarshal_duration n = Ok d -> n_Kind n = ScalarNode /\ ParseDuration (n_Value n) = Ok d /\ - 2 ^ 63 <= d < 2 ^ 63) /\
  (Forall (fun c => is_digit c = true) (n_Value n) -> n_Value n <> str "0" -> is_ok (unmarshal_duration n) = false).
Proof.
  unfold unmarshal_duration. split.
  - intros d. destruct (ParseDuration (n_Value n)) as [v|] eqn:E; [|done]. case_bool_decide; simpl; [|done]. intros [= <-].
    apply ParseDuration_range in E. unfold min_duration, max_duration in E. split_and!; [done..|lia|lia].
  - intros Hd H0. pose proof (bare_number_rejected _ Hd H0) as H. by destruct (ParseDuration (n_Value n)).
Qed.

Section parse.
Context (engine : gostring -> option (gostring -> bool)).
Context (Decode : (list gostring -> Node -> result (list gostring)) -> (Node -> result Z) -> gostring -> decoded).
Context (ParseLevel : gostring -> result Z).

(** ** Parsing *)

(** The limits of the [i]-th subnet. *)
Definition limits_at (fsubnets : list fileSubnet) (base : Client (F := float64)) (i : nat) : option (Client (F := float64)) :=
  (fun fs => override (fs_Limits fs) base) <$> fsubnets !! i.

Lemma attach_limits_Ok fsubnets base i ss m m' :
  sn_id <$> ss = seq i (length ss) -> attach_limits fsubnets base i ss m = Ok m' ->
  (forall j, (i <= j < i + length ss)%nat -> m' !! j = limits_at fsubnets base j /\ exists l, m' !! j = Some l /\ valid_limits l) /\
  (forall j, ~ (i <= j < i + length ss)%nat -> m' !! j = m !! j).
Proof.
  revert i m. induction ss as [|s ss IH]; intros i m Hid; cbn [attach_limits].
  { intros [= <-]. split; [intros j Hj; simpl in Hj; lia|done]. }
  cbn [fmap list_fmap length seq] in Hid. injection Hid as Hi Hid. destruct (fsubnets !! i) as [fs|] eqn:Ef; [|done].
  intros H. inv_ok. apply apply_Ok in H0 as [-> Hv]. destruct (IH _ _ Hid H) as [H1 H2]. cbn [length]. split.
  - intros j Hj. destruct (decide (j = i)) as [->|Hne]; [|apply H1; lia].
    assert (E : m' !! i = Some (override (fs_Limits fs) base)) by (rewrite H2 by lia; rewrite Hi; apply lookup_insert_eq).
    rewrite E. unfold limits_at. rewrite Ef. split; [done|]. eauto.
  - intros j Hj. rewrite H2 by lia. apply lookup_insert_ne. lia.
Qed.

(** What [Parse] guarantees of a config, in terms of the decoded file. *)
Definition config_of (f : file) (cfg : Config) : Prop :=
  New engine (spec_of <$> f_Subnets f) = Ok (cfg_Policy cfg) /\
  TotalConnections cfg = default DefaultTotalConnections (f_TotalConnections f) /\
  clientLimits cfg = override (f_Limits f) DefaultClientLimits /\
  forall i s, subnets (cfg_Policy cfg) !! i = Some s -> subnetLimits cfg !! sn_id s = limits_at (f_Subnets f) (clientLimits cfg) i.

Lemma Parse_Ok data cfg :
  Parse engine Decode ParseLevel data = Ok cfg ->
  exists f, Decode unmarshal_list unmarshal_duration data = DFile f false /\ config_of f cfg /\
    0 <= TotalConnections cfg /\ valid_limits (clientLimits cfg) /\
    forall s, s ∈ subnets (cfg_Policy cfg) -> exists l, subnetLimits cfg !! sn_id s = Some l /\ valid_limits l.
Proof.
  unfold Parse. destruct (Decode _ _ _) as [|e|f [|]]; try done. intros H. exists f. split; [done|].
  apply rbind_Ok in H as (level & _ & H). apply rbind_Ok in H as (total & Ht & H). apply rbind_Ok in H as (base & Hb & H).
  apply rwrap_Ok, apply_Ok in Hb as [Eb Hv]. apply rbind_Ok in H as (policy & Hp & H). apply rbind_Ok in H as (m & Hm & H).
  injection H as <-. cbn [cfg_Policy TotalConnections clientLimits subnetLimits].
  pose proof (New_Ok _ _ _ Hp) as [[_ [_ _ _ Hids]] _]. destruct (attach_limits_Ok _ _ _ _ _ _ Hids Hm) as [Hin _].
  assert (Hlk : forall i s, subnets policy !! i = Some s -> sn_id s = i /\ (i < length (subnets policy))%nat).
  { intros i s Hs. split; [|by eapply lookup_lt_Some]. assert (E : (sn_id <$> subnets policy) !! i = Some (sn_id s)) by (by rewrite list_lookup_fmap, Hs).
    rewrite Hids in E. apply lookup_seq in E as [E _]. lia. }
  unfold config_of. cbn [cfg_Policy TotalConnections clientLimits subnetLimits]. split_and!; try done.
  - destruct (f_TotalConnections f) as [n|]; [destruct (n <? 0); [done|]|]; by injection Ht as <-.
  - intros i s Hs. cbn [cfg_Policy subnetLimits clientLimits] in *. destruct (Hlk _ _ Hs) as [-> Hl]. apply Hin. lia.
  - destruct (f_TotalConnections f) as [n|]; [destruct (Z.ltb_spec n 0); [done|]|]; injection Ht as <-; [done|unfold DefaultTotalConnections; lia].
  - intros s [i Hs]%list_elem_of_lookup. destruct (Hlk _ _ Hs) as [-> Hl]. apply Hin. lia.
Qed.

(** C33: in an accepted config every client has usable limits, and they are the intended ones: the limits of a subnet are the subnet's own values, where the file sets them, over the file's top-level values, over the defaults; clients outside every subnet get the top-level ones. All of them are finite and not negative, with room for a first request where a rate is set, and the total is not negative; the policy is the compiled list of subnets. *)
Theorem Parse_limits data cfg :
  Parse engine Decode ParseLevel data = Ok cfg ->
  exists f, Decode unmarshal_list unmarshal_duration data = DFile f false /\
    New engine (spec_of <$> f_Subnets f) = Ok (cfg_Policy cfg) /\
    TotalConnections cfg = default DefaultTotalConnections (f_TotalConnections f) /\ 0 <= TotalConnections cfg /\
    ClientLimits cfg None = override (f_Limits f) DefaultClientLimits /\ valid_limits (ClientLimits cfg None) /\
    forall i s, subnets (cfg_Policy cfg) !! i = Some s ->
      exists fs, f_Subnets f !! i = Some fs /\
        ClientLimits cfg (Some s) = override (fs_Limits fs) (override (f_Limits f) DefaultClientLimits) /\
        valid_limits (ClientLimits cfg (Some s)).
Proof.
  intros (f & Hd & (Hp & Ht & Hl & Hs) & H0 & Hv & Hvs)%Parse_Ok. exists f. split_and!; try done.
  intros i s Hi. specialize (Hs _ _ Hi). destruct (Hvs s) as (l & El & Hvl); [by eapply list_elem_of_lookup_2|].
  unfold ClientLimits. rewrite El in *. simpl. unfold limits_at in Hs. rewrite Hl in Hs.
  destruct (f_Subnets f !! i) as [fs|]; [|done]. injection Hs as ->. eauto.
Qed.

(** ** The store *)

Abbreviation reload := (Reload engine Decode ParseLevel).
Abbreviation load := (Load engine Decode ParseLevel).
Abbreviation watch := (watchLoop engine Decode ParseLevel).

(** The contents a run of the watcher tried to load, in order. *)
Definition attempt (ev : watch_event) : option (result gostring) :=
  match ev with WTimer c | WHup c => Some c | _ => None end.
Definition attempts (evs : list (Z * watch_event)) : list (result gostring) := omap (fun e => attempt (snd e)) evs.

Definition to_option {A} (r : result A) : option A := match r with Ok a => Some a | Err _ => None end.
Definition to_error {A} (r : result A) : option error := match r with Ok _ => None | Err e => Some e end.

(** Of these, the configs that loaded, and the errors of the others. *)
Definition loaded (evs : list (Z * watch_event)) : list Config := omap (fun c => to_option (load c)) (attempts evs).
Definition failed (evs : list (Z * watch_event)) : list error := omap (fun c => to_error (load c)) (attempts evs).

Lemma watch_reload_spec w timer c :
  let w' := watch_reload engine Decode ParseLevel w timer c in
  st_path (w_store w') = st_path (w_store w) /\ w_timer w' = timer /\ w_running w' = w_running w /\
  match load c with
  | Ok cfg => st_cur (w_store w') = Some cfg /\ st_applied (w_store w') = st_applied (w_store w) ++ [cfg] /\ w_errors w' = w_errors w
  | Err e => w_store w' = w_store w /\ w_errors w' = w_errors w ++ [e]
  end.
Proof. unfold watch_reload, Reload. destruct (load c); cbn; split_and!; try done. by rewrite app_nil_r. Qed.

(** The effect of one event on the store and the log. *)
Lemma watch_step_store w now ev w' :
  watchLoop_step engine Decode ParseLevel w now ev = Some w' ->
  st_path (w_store w') = st_path (w_store w) /\
  match attempt ev with
  | Some c => match load c with
              | Ok cfg => st_cur (w_store w') = Some cfg /\ st_applied (w_store w') = st_applied (w_store w) ++ [cfg] /\ w_errors w' = w_errors w
              | Err e => w_store w' = w_store w /\ w_errors w' = w_errors w ++ [e]
              end
  | None => w_store w' = w_store w /\ w_errors w' = w_errors w
  end.
Proof.
  unfold watchLoop_step. destruct (negb (w_running w)); [done|]. destruct ev as [|name ch| | |c|c]; cbn [attempt].
  - by intros [= <-].
  - intros [= <-]. by destruct (_ && _).
  - by intros [= <-].
  - by intros [= <-].
  - destruct (w_timer w) as [t|]; [|done]. destruct (t <=? now); [|done]. intros [= <-].
    destruct (watch_reload_spec w None c) as (H1 & _ & _ & H2). by split.
  - intros [= <-]. destruct (watch_reload_spec w (w_timer w) c) as (H1 & _ & _ & H2). by split.
Qed.

Lemma reload_path w evs w' : watch w evs = Some w' -> st_path (w_store w') = st_path (w_store w).
Proof.
  revert w. induction evs as [|[now ev] evs IH]; intros w; cbn [watchLoop]; [by intros [= <-]|].
  destruct (watchLoop_step _ _ _ w now ev) as [w1|] eqn:E; [|done]. intros ->%IH. by apply watch_step_store in E as [? _].
Qed.

(** C34: reloading never loses the working config: after any run of the watch loop the active config is the last one that loaded without error, or the one active before if none did; every config that became active, and no other, was applied, in order; and every failed attempt was logged. *)
Theorem reload_keeps_last w evs w' :
  watch w evs = Some w' ->
  st_cur (w_store w') = (match last (loaded evs) with Some c => Some c | None => st_cur (w_store w) end) /\
  st_applied (w_store w') = st_applied (w_store w) ++ loaded evs /\
  w_errors w' = w_errors w ++ failed evs /\ st_path (w_store w') = st_path (w_store w).
Proof.
  revert w. induction evs as [|[now ev] evs IH]; intros w; cbn [watchLoop].
  { intros [= <-]. unfold loaded, failed. simpl. by rewrite !app_nil_r. }
  destruct (watchLoop_step _ _ _ w now ev) as [w1|] eqn:E; [|done]. intros (Hc & Ha & He & Hp)%IH.
  apply watch_step_store in E as [Hp1 H1]. rewrite Hc, Ha, He, Hp. unfold loaded, failed, attempts. cbn [omap list_omap snd].
  destruct (attempt ev) as [c|]; [|destruct H1 as [-> ->]; done]. cbn [omap list_omap].
  destruct (load c) as [cfg|e]; cbn [to_option to_error].
  - destruct H1 as (-> & -> & ->). rewrite <- app_assoc. split_and!; try done. rewrite last_cons. by destruct (last _).
  - destruct H1 as (-> & ->). by rewrite <- app_assoc.
Qed.

(** ** Debouncing *)

(** An event that announces a change of the file at [path]. *)
Definition changes (path : gostring) (ev : watch_event) : Prop :=
  exists name, ev = WEvent name false /\ Clean name = path.
Definition timer_event (ev : watch_event) : Prop := exists c, ev = WTimer c.

(** A change is waiting to be loaded, and may be from time [d] on. *)
Definition pending_change (path : gostring) (evs : list (Z * watch_event)) (d : Z) : Prop :=
  exists evs1 t ev evs2, evs = evs1 ++ (t, ev) :: evs2 /\ changes path ev /\ d = t + reloadDebounce /\
    Forall (fun e => ~ changes path (snd e) /\ ~ timer_event (snd e)) evs2.

Lemma pending_snoc path evs t ev d :
  pending_change path (evs ++ [(t, ev)]) d <->
  (changes path ev /\ d = t + reloadDebounce) \/ (~ changes path ev /\ ~ timer_event ev /\ pending_change path evs d).
Proof.
  unfold pending_change. split.
  - intros (evs1 & t' & ev' & evs2 & E & Hc & Hd & Hq). destruct evs2 as [|x evs2 _] using rev_ind.
    + apply app_inj_tail in E as [_ [= -> ->]]. by left.
    + rewrite app_comm_cons, app_assoc in E. apply app_inj_tail in E as [-> <-].
      apply Forall_app in Hq as [Hq [[H1 H2] _]%Forall_cons_iff]. right. split_and!; [done..|]. by exists evs1, t', ev', evs2.
  - intros [[Hc Hd]|(H1 & H2 & evs1 & t' & ev' & evs2 & -> & Hc & Hd & Hq)].
    + exists evs, t, ev, []. by split_and!.
    + exists evs1, t', ev', (evs2 ++ [(t, ev)]). rewrite app_comm_cons, app_assoc. split_and!; try done.
      apply Forall_app_2; [done|]. by apply Forall_cons_2.
Qed.

Lemma watch_app w evs1 evs2 : watch w (evs1 ++ evs2) = watch w evs1 ≫= fun w' => watch w' evs2.
Proof.
  revert w. induction evs1 as [|[t ev] evs1 IH]; intros w; [done|]. simpl.
  destruct (watchLoop_step _ _ _ w t ev); [apply IH|done].
Qed.

(** The timer after one event. *)
Lemma watch_step_timer w now ev w' :
  watchLoop_step engine Decode ParseLevel w now ev = Some w' ->
  (changes (st_path (w_store w)) ev /\ w_timer w' = Some (now + reloadDebounce)) \/
  (~ changes (st_path (w_store w)) ev /\
   ((timer_event ev /\ w_timer w' = None /\ exists d, w_timer w = Some d /\ d <= now) \/ (~ timer_event ev /\ w_timer w' = w_timer w))).
Proof.
  unfold watchLoop_step, changes, timer_event. destruct (negb (w_running w)); [done|]. destruct ev as [|name ch| | |c|c].
  - intros [= <-]. right. split; [naive_solver|]. right. split; [naive_solver|done].
  - intros [= <-]. case_bool_decide as Hn; [destruct ch|]; cbn [andb negb].
    + right. split; [naive_solver|]. right. split; [naive_solver|done].
    + left. split; [by exists name|done].
    + right. split; [naive_solver|]. right. split; [naive_solver|done].
  - intros [= <-]. right. split; [naive_solver|]. right. split; [naive_solver|done].
  - intros [= <-]. right. split; [naive_solver|]. right. split; [naive_solver|done].
  - destruct (w_timer w) as [t|]; [|done]. destruct (Z.leb_spec t now); [|done]. intros [= <-]. right. split; [naive_solver|].
    left. split; [eauto|]. split; [|eauto]. apply (watch_reload_spec w None c).
  - intros [= <-]. right. split; [naive_solver|]. right. split; [naive_solver|]. apply (watch_reload_spec w (w_timer w) c).
Qed.

Lemma timer_pending s evs w' d :
  watch (watch_start s) evs = Some w' -> w_timer w' = Some d <-> pending_change (st_path s) evs d.
Proof.
  revert w' d. induction evs as [|[t ev] evs IH] using rev_ind; intros w' d.
  { intros [= <-]. split; [done|]. intros (evs1 & t & ev & evs2 & E & _). by destruct evs1. }
  rewrite watch_app, bind_Some. intros (w & Hw & Hs). cbn [watchLoop] in Hs.
  destruct (watchLoop_step _ _ _ w t ev) as [w1|] eqn:E; [|done]. injection Hs as ->.
  assert (Hp : st_path (w_store w) = st_path s) by (by apply reload_path in Hw).
  apply watch_step_timer in E. rewrite Hp in E. rewrite pending_snoc, <- (IH w d Hw).
  destruct E as [[H1 H2]|(H1 & [(H2 & H3 & _)|(H2 & H3)])]; rewrite ?H2, ?H3; split.
  - intros [= <-]. by left.
  - intros [[_ ->]|[? _]]; done.
  - done.
  - intros [[? _]|(_ & ? & _)]; done.
  - intros Hd. by right.
  - intros [[? _]|(_ & _ & ?)]; done.
Qed.

(** C37: reloads are debounced and no change is lost: after any run of the watch loop the timer is set exactly when a change of the file has not been loaded yet, and for 250 ms after the latest change; and whenever the timer made the loop reload, the latest change was at least 250 ms old. *)
Theorem reload_debounced s evs w' :
  watch (watch_start s) evs = Some w' ->
  (forall d, w_timer w' = Some d <-> pending_change (st_path s) evs d) /\
  (forall evs1 now c evs2, evs = evs1 ++ (now, WTimer c) :: evs2 -> exists d, pending_change (st_path s) evs1 d /\ d <= now).
Proof.
  intros H. split; [intros d; by apply timer_pending|]. intros evs1 now c evs2 ->. rewrite watch_app in H.
  apply bind_Some in H as (w & Hw & Hs). cbn [watchLoop] in Hs. destruct (watchLoop_step _ _ _ w now (WTimer c)) as [w1|] eqn:E; [|done].
  apply watch_step_timer in E as [[(name & ? & _) _]|(_ & [(_ & _ & d & Hd & Hle)|(Hn & _)])]; [done| |destruct Hn; by exists c].
  exists d. split; [|done]. by apply (timer_pending s evs1 w).
Qed.
End parse.

(** ** Paths *)

(** The components of a cleaned path. *)
Definition clean_part (p : gostring) : Prop := p <> [] /\ p <> str "." /\ "/"%char ∉ p.

(** A list of components that [clean_components] leaves alone: ".." only at the
    front, and not at all in a rooted path. *)
Fixpoint clean_list (rooted up : bool) (ps : list gostring) : Prop :=
  match ps with
  | [] => True
  | p :: ps => clean_part p /\ (p = str ".." -> rooted = false /\ up = true) /\ clean_list rooted (up && bool_decide (p = str "..")) ps
  end.

Lemma clean_list_snoc rooted up ps p :
  clean_list rooted up (ps ++ [p]) <->
  clean_list rooted up ps /\ clean_part p /\ (p = str ".." -> rooted = false /\ up = true /\ Forall (.= str "..") ps).
Proof.
  revert up. induction ps as [|q ps IH]; intros up; cbn [clean_list app].
  - naive_solver.
  - rewrite IH, Forall_cons_iff. destruct up; cbn [andb]; [case_bool_decide|]; naive_solver.
Qed.

Lemma clean_list_app rooted up ps qs : clean_list rooted up (ps ++ qs) -> clean_list rooted up ps.
Proof. revert up. induction ps as [|p ps IH]; intros up; cbn [clean_list app]; [done|]. naive_solver. Qed.

Lemma clean_components_clean rooted out parts :
  clean_list rooted true (rev out) -> Forall (fun p => "/"%char ∉ p) parts -> clean_list rooted true (clean_components rooted out parts).
Proof.
  revert out. induction parts as [|p parts IH]; intros out Ho Hp; cbn [clean_components]; [done|].
  apply Forall_cons_iff in Hp as [Hs Hp]. case_bool_decide as H1; [by apply IH|]. case_bool_decide as H2; [by apply IH|]. cbn [orb].
  case_bool_decide as H3.
  - destruct out as [|q out].
    + destruct rooted; apply IH; done.
    + cbn [rev] in Ho. pose proof Ho as (Ho' & Hq & Hup)%clean_list_snoc. case_bool_decide as H4; apply IH; try done.
      destruct (Hup H4) as (-> & _ & Hall). cbn [rev]. apply clean_list_snoc. split; [done|]. split; [done|].
      intros _. split_and!; [done..|]. apply Forall_app_2; [done|]. by apply Forall_singleton.
  - apply IH; [|done]. cbn [rev]. apply clean_list_snoc. by split_and!.
Qed.

Lemma clean_components_fixed rooted out ps :
  clean_list rooted true (rev out ++ ps) -> clean_components rooted out ps = rev out ++ ps.
Proof.
  revert out. induction ps as [|p ps IH]; intros out Hc; cbn [clean_components]; [by rewrite app_nil_r|].
  assert (Hc' : clean_list rooted true (rev (p :: out) ++ ps)) by (cbn [rev]; by rewrite <- app_assoc).
  pose proof (clean_list_app _ _ _ _ Hc') as (_ & (Hne & Hdot & _) & Hup)%clean_list_snoc.
  rewrite !bool_decide_false by done. cbn [orb]. specialize (IH (p :: out) Hc'). cbn [rev] in IH. rewrite <- app_assoc in IH.
  case_bool_decide as H3; [|done]. destruct (Hup H3) as (-> & _ & Hall). destruct out as [|q out]; [done|].
  cbn [rev] in Hall. apply Forall_app in Hall as [_ [-> _]%Forall_cons_iff]. by rewrite bool_decide_true.
Qed.

Lemma Split_no_slash path : Forall (fun p => "/"%char ∉ p) (Split path "/").
Proof. apply List.Forall_forall. intros p Hp%list_elem_of_In. by eapply Split_no_sep. Qed.

Lemma clean_list_parts rooted up ps : clean_list rooted up ps -> Forall clean_part ps.
Proof. revert up. induction ps as [|p ps IH]; intros up; cbn [clean_list]; [constructor|]. intros (H & _ & Hps). constructor; eauto. Qed.

Lemma clean_split rooted ps :
  clean_list rooted true ps -> clean_components rooted [] (Split (Join ps "/") "/") = ps.
Proof.
  intros Hc. destruct ps as [|p ps]; [done|]. rewrite Split_Join; [|done|].
  - by apply clean_components_fixed.
  - eapply Forall_impl; [by eapply clean_list_parts|]. intros q Hq. apply Hq.
Qed.

Lemma Join_head p ps : p <> [] -> exists c r, p = c :: r /\ exists t, Join (p :: ps) "/" = c :: t.
Proof. destruct p as [|c r]; [done|]. intros _. exists c, r. split; [done|]. destruct ps; simpl; eauto. Qed.

(** Cleaning a path twice changes nothing. *)
Lemma Clean_idemp path : Clean (Clean path) = Clean path.
Proof.
  unfold Clean at 2 3. set (ps := clean_components _ [] _).
  assert (Hc : clean_list (HasPrefix path (str "/")) true ps) by (apply clean_components_clean; [done|apply Split_no_slash]).
  clearbody ps. destruct (HasPrefix path (str "/")).
  - unfold Clean. rewrite (proj2 (HasPrefix_true _ _)) by eauto. f_equal. f_equal.
    change (Split (str "/" ++ Join ps "/") "/") with (Split ([] ++ "/"%char :: Join ps "/") "/"). rewrite Split_app_sep by (by apply not_elem_of_nil).
    cbn [clean_components]. by apply clean_split.
  - destruct ps as [|p ps]; [done|]. pose proof (clean_list_parts _ _ _ Hc) as [(Hne & _ & Hns) _]%Forall_cons_iff.
    destruct (Join_head p ps Hne) as (c & r & -> & t & Et). rewrite bool_decide_false by (by rewrite Et). unfold Clean.
    assert (Hnp : HasPrefix (Join ((c :: r) :: ps) "/") (str "/") = false).
    { apply not_true_iff_false. rewrite HasPrefix_true, Et. intros [u [= -> _]]. apply Hns. left. }
    rewrite Hnp, clean_split by done. by rewrite bool_decide_false by (by rewrite Et).
Qed.

(** A change of the file, named as the store names it, is noticed. *)
Lemma watched_path engine Decode ParseLevel cwd path contents s err :
  NewStore engine Decode ParseLevel cwd path contents = Ok (s, err) -> changes (st_path s) (WEvent (st_path s) false).
Proof.
  unfold NewStore. intros (abs & Ha & H)%rbind_Ok. assert (Hs : st_path s = abs) by (revert H; unfold Reload; by destruct (Load _ _ _ _); intros [= <- _]).
  exists (st_path s). split; [done|]. rewrite Hs. unfold Abs in Ha. destruct (HasPrefix path (str "/")); [injection Ha as <-; apply Clean_idemp|].
  apply rbind_Ok in Ha as (wd & _ & [= <-]). apply Clean_idemp.
Qed.

(** ** Examples *)

Example Clean_ex :
  Clean (str "/etc//proxy/../proxy-acl/./config.yaml") = str "/etc/proxy-acl/config.yaml" /\
  Clean (str "../a/..") = str ".." /\ Clean (str "a/..") = str "." /\ Clean (str "/..") = str "/".
Proof. split_and!; vm_compute; reflexivity. Qed.

(** A decoder that knows two files: one with a subnet that overrides two limits,
    and one whose subnet has no CIDR. *)
Definition no_limits : fileClientLimits := mkFileLimits None None None None.
Definition good_file : file :=
  mkFile [] (Some 100) (mkFileLimits (Some 64) None None None)
    [mkFileSubnet (str "iot") [str "10.0.20.0/24"] [] [str ".example.com"] [] (mkFileLimits None (Some (of_int 5)) (Some 10) None)].
Definition bad_file : file := mkFile [] None no_limits [mkFileSubnet (str "iot") [] [] [] [] no_limits].
Definition toy_decode (data : gostring) : decoded :=
  if bool_decide (data = str "good") then DFile good_file false
  else if bool_decide (data = str "bad") then DFile bad_file false
  else if bool_decide (data = []) then DEOF else DError (EOther 0).
Definition toy_parse := Parse (fun _ => None) (fun _ _ => toy_decode) (fun _ => Ok 1).
Definition toy_watch := watchLoop (fun _ => None) (fun _ _ => toy_decode) (fun _ => Ok 1).

Definition config_test (data : gostring) (f : Config -> bool) : bool := match toy_parse data with Ok c => f c | Err _ => false end.
Lemma config_test_true data f : config_test data f = true -> exists c, toy_parse data = Ok c /\ f c = true.
Proof. unfold config_test. destruct (toy_parse data) as [c|]; [eauto|done]. Qed.

Lemma Parse_limits_witness :
  exists cfg s, toy_parse (str "good") = Ok cfg /\ subnets (cfg_Policy cfg) !! 0%nat = Some s /\
    ClientLimits cfg (Some s) = mkLimits 64 (of_int 5) 10 (60 * Minute) /\ valid_limits (ClientLimits cfg (Some s)).
Proof.
  destruct (config_test_true (str "good") (fun c => bool_decide (is_Some (subnets (cfg_Policy c) !! 0%nat)))) as (cfg & Hc & Hs); [vm_compute; reflexivity|].
  apply bool_decide_eq_true in Hs as [s Hs]. exists cfg, s. split; [exact Hc|]. split; [exact Hs|].
  destruct (Parse_limits _ _ _ _ _ Hc) as (f & Hd & _ & _ & _ & _ & _ & Hall). destruct (Hall 0%nat s Hs) as (fs & Hfs & Hl & Hv).
  change (DFile good_file false = DFile f false) in Hd. injection Hd as <-. injection Hfs as <-. split; [rewrite Hl; reflexivity|exact Hv].
Defined.

(** A change arrives in two events 100 ms apart; the reload fails, and a later
    SIGHUP finds the file repaired. *)
Definition example_events : list (Z * watch_event) :=
  [(0, WEvent (str "/etc/proxy//acl.yaml") false); (100 * Millisecond, WEvent (str "/etc/proxy/acl.yaml") false);
   (120 * Millisecond, WEvent (str "/etc/proxy/acl.yaml") true); (400 * Millisecond, WTimer (Ok (str "bad"))); (Second, WHup (Ok (str "good")))].

Definition example_store : Store := mkStore (str "/etc/proxy/acl.yaml") None [].

Definition watch_test (f : watcher -> bool) : bool := match toy_watch (watch_start example_store) example_events with Some w => f w | None => false end.
Lemma watch_test_true f : watch_test f = true -> exists w, toy_watch (watch_start example_store) example_events = Some w /\ f w = true.
Proof. unfold watch_test. destruct (toy_watch _ _) as [w|]; [eauto|done]. Qed.

Lemma reload_keeps_last_witness :
  exists w, toy_watch (watch_start example_store) example_events = Some w /\ length (w_errors w) = 1%nat /\
    length (st_applied (w_store w)) = 1%nat /\ st_cur (w_store w) = last (st_applied (w_store w)).
Proof.
  destruct (watch_test_true (fun w => (length (w_errors w) =? 1)%nat && (length (st_applied (w_store w)) =? 1)%nat)) as (w & Hw & Ht); [vm_compute; reflexivity|].
  apply andb_true_iff in Ht as [H1%Nat.eqb_eq H2%Nat.eqb_eq]. exists w. split; [exact Hw|]. split; [exact H1|]. split; [exact H2|].
  destruct (reload_keeps_last _ _ _ _ _ _ Hw) as (Hc & Ha & _). rewrite Hc, Ha in *. destruct (last (loaded _ _ _ _)) eqn:E; [|by rewrite last_None in E; rewrite E in H2].
  change (st_applied (w_store (watch_start example_store))) with (@nil Config). symmetry. exact E.
Defined.

Lemma reload_debounced_witness :
  exists d, pending_change (str "/etc/proxy/acl.yaml") (firstn 3 example_events) d /\ d <= 400 * Millisecond.
Proof.
  destruct (watch_test_true (fun _ => true)) as (w & Hw & _); [vm_compute; reflexivity|].
  exact (proj2 (reload_debounced _ _ _ example_store example_events w Hw) (firstn 3 example_events) (400 * Millisecond) (Ok (str "bad")) (skipn 4 example_events) eq_refl).
Defined.
