(* ===== verification/Upstream.v ===== *)
(** * Upstream: internal/proxy/upstream.go

    Pools of plain-HTTP upstream connections. An [http.Transport] is a library
    object that keeps idle connections and dials with the function it was given;
    here it is an identity and the vetted destination whose [dial] method it
    holds. Every operation runs under the pools' mutex. *)

From Stdlib Require Import ZArith NArith Ascii String Lia Bool List.
From stdpp Require Import base tactics list gmap strings option sets sorting.
From S2P Require Import Prelude GoStrings Netip GoFloat Dial.

Local Open Scope Z_scope.

Definition maxResponseHeaderBytes : Z := Z.shiftl 1 20.
Definition maxUpstreamPools : nat := 1024.
Definition upstreamIdleTimeout : Z := 30 * Second.
Definition maxIdlePerDestination : Z := 32.

(** The fields of [http.Transport] the program sets. *)
Record Transport := mkTransport {
  tr_id : nat;
  tr_DialContext : vetted;
  tr_MaxIdleConnsPerHost : Z;
  tr_IdleConnTimeout : Z;
  tr_TLSHandshakeTimeout : Z;
  tr_MaxResponseHeaderBytes : Z;
  tr_DisableCompression : bool
}.

Record upstreamPool := mkPool { up_tr : Transport; up_used : Z }.

(** [upstreamPools], with the identity the next transport gets and the
    transports whose idle connections were closed. *)
Record upstreamPools := mkPools { pools : gmap gostring upstreamPool; up_next : nat; up_closed : list Transport }.

Definition newUpstreamPools : upstreamPools := mkPools ∅ 0 [].

Definition newUpstreamTransport (id : nat) (v : vetted) : Transport :=
  mkTransport id v maxIdlePerDestination upstreamIdleTimeout (10 * Second) maxResponseHeaderBytes true.

(** ** Keys *)

(** Go compares strings byte by byte. *)
Fixpoint string_leb (a b : gostring) : bool :=
  match a, b with
  | [], _ => true
  | _ :: _, [] => false
  | c :: a, d :: b => if code c =? code d then string_leb a b else code c <? code d
  end.
Definition string_le (a b : gostring) : Prop := string_leb a b = true.
#[export] Instance string_le_dec : RelDecision string_le.
Proof. intros a b. unfold string_le. apply _. Defined.

Definition poolKey (scheme : gostring) (v : vetted) : gostring :=
  scheme ++ str "|" ++ v_host v ++ str "|" ++ Itoa (v_port v) ++ str "|" ++ Join (merge_sort string_le (addr_string <$> v_addrs v)) ",".

(** ** Operations *)

(** The loop of [dropOldestLocked]; [order] is the order in which Go visits the
    keys. *)
Fixpoint oldest_key (m : gmap gostring upstreamPool) (oldest : gostring) (order : list gostring) : gostring :=
  match order with
  | [] => oldest
  | k :: order =>
      let used k := match m !! k with Some p => up_used p | None => 0 end in
      oldest_key m (if bool_decide (oldest = []) || (used k <? used oldest) then k else oldest) order
  end.

Definition drop_pool (u : upstreamPools) (k : gostring) : upstreamPools :=
  match pools u !! k with
  | Some p => mkPools (delete k (pools u)) (up_next u) (up_closed u ++ [up_tr p])
  | None => u
  end.

Definition dropOldestLocked (u : upstreamPools) (order : list gostring) : upstreamPools :=
  let oldest := oldest_key (pools u) [] order in
  if bool_decide (oldest = []) then u else drop_pool u oldest.

Definition transport (u : upstreamPools) (now : Z) (order : list gostring) (scheme : gostring) (v : vetted) : upstreamPools * Transport :=
  let key := poolKey scheme v in
  match pools u !! key with
  | Some p => (mkPools (<[key := mkPool (up_tr p) now]> (pools u)) (up_next u) (up_closed u), up_tr p)
  | None =>
      let u := if (maxUpstreamPools <=? size (pools u))%nat then dropOldestLocked u order else u in
      let tr := newUpstreamTransport (up_next u) v in
      (mkPools (<[key := mkPool tr now]> (pools u)) (S (up_next u)) (up_closed u), tr)
  end.

(** [roundTrip]: the transport the request is sent on, or the refusal. *)
Definition roundTrip (u : upstreamPools) (now : Z) (order : list gostring) (scheme : gostring) (v : option vetted) : upstreamPools * result Transport :=
  match v with
  | None => (u, Err errNotVetted)
  | Some v => if bool_decide (v_addrs v = []) then (u, Err errNotVetted)
              else let '(u, tr) := transport u now order scheme v in (u, Ok tr)
  end.

(** [sweep]: one round of the loop, and the loop over the keys in Go's order. *)
Definition sweep_pool (now : Z) (u : upstreamPools) (k : gostring) : upstreamPools :=
  match pools u !! k with
  | Some p => if upstreamIdleTimeout <? Sub now (up_used p) then drop_pool u k else u
  | None => u
  end.
Definition sweep (u : upstreamPools) (now : Z) (order : list gostring) : upstreamPools := fold_left (sweep_pool now) order u.
