(* ===== verification/UpstreamFacts.v ===== *)
(** * Connection pools, internal/proxy/upstream.go

    A pool is only ever used for requests that were approved for exactly where
    its connections lead, and there are never more than 1024 pools. *)

From Stdlib Require Import ZArith NArith Ascii String Lia Bool List.
From stdpp Require Import base tactics list gmap strings option sets sorting fin_maps.
From S2P Require Import Prelude GoStrings Netip AddrText GoFloat Dial DialFacts Upstream.

Local Open Scope Z_scope.

(** ** Keys *)

(** What the policy guarantees of a destination it approved. *)
Record good_dest (v : vetted) : Prop := {
  gd_host : "|"%char ∉ v_host v;
  gd_port : 0 <= v_port v < 65536;
  gd_addrs : v_addrs v <> [];
  gd_plain : Forall plain_addr (v_addrs v)
}.

Definition good_scheme (s : gostring) : Prop := "|"%char ∉ s.

Lemma digits_no_char c n : 0 <= n -> is_digit c = false -> c ∉ Itoa n.
Proof.
  intros Hn Hc Hin. pose proof (Itoa_digits n Hn) as Hd. rewrite List.Forall_forall in Hd. apply list_elem_of_In, Hd in Hin. congruence.
Qed.

(** The addresses of a key. *)
Definition key_addrs (v : vetted) : list gostring := merge_sort string_le (addr_string <$> v_addrs v).

Lemma key_addrs_perm v : key_addrs v ≡ₚ addr_string <$> v_addrs v.
Proof. apply merge_sort_Permutation. Qed.

Lemma key_addrs_chars v c : Forall plain_addr (v_addrs v) -> hex_val c = None -> c <> ":"%char -> c <> "."%char -> Forall (fun s => c ∉ s) (key_addrs v).
Proof.
  intros Hp H1 H2 H3. rewrite key_addrs_perm. apply Forall_fmap. eapply Forall_impl; [exact Hp|]. intros a Ha Hin.
  apply addr_string_chars in Hin as [[d Hd]|[?|?]]; [congruence|done..].
Qed.

Lemma key_addrs_nonempty v : v_addrs v <> [] -> key_addrs v <> [].
Proof.
  intros Hne E. pose proof (key_addrs_perm v) as Hp. rewrite E in Hp. symmetry in Hp. apply Permutation_nil_r, fmap_nil_inv in Hp. done.
Qed.

Lemma Join_no_char c d ls : c <> d -> Forall (fun s => c ∉ s) ls -> c ∉ Join ls d.
Proof.
  intros Hcd. induction 1 as [|l ls Hl Hls IH]; [apply not_elem_of_nil|]. destruct ls as [|m ls]; [done|].
  rewrite Join_cons by done. rewrite not_elem_of_app, not_elem_of_cons. done.
Qed.

Lemma Split_poolKey scheme v :
  good_scheme scheme -> good_dest v -> Split (poolKey scheme v) "|" = [scheme; v_host v; Itoa (v_port v); Join (key_addrs v) ","].
Proof.
  intros Hs [Hh Hp Hne Hpl]. unfold poolKey. cbn [str String.list_ascii_of_string app].
  rewrite !Split_app_sep; [|apply digits_no_char; [lia|done]|done|done]. do 3 f_equal. apply Split_no_occ.
  apply Join_no_char; [done|]. by apply key_addrs_chars.
Qed.

Lemma omap_addr_string l : Forall plain_addr l -> omap (fun s => match ParseAddr s with Ok a => Some a | Err _ => None end) (addr_string <$> l) = l.
Proof. induction 1 as [|a l Ha _ IH]; [done|]. cbn. rewrite ParseAddr_addr_string by done. by f_equal. Qed.

(** A key determines the scheme, the host, the port and the addresses. *)
Lemma poolKey_inj s s' v v' :
  good_scheme s -> good_scheme s' -> good_dest v -> good_dest v' -> poolKey s v = poolKey s' v' ->
  s = s' /\ v_host v = v_host v' /\ v_port v = v_port v' /\ v_addrs v ≡ₚ v_addrs v'.
Proof.
  intros Hs Hs' Hv Hv' E. apply (f_equal (fun k => Split k "|")) in E. rewrite !Split_poolKey in E by done. injection E as -> Hh Hp Ha.
  destruct Hv as [_ Hr Hne Hpl], Hv' as [_ Hr' Hne' Hpl']. split; [done|]. split; [done|]. split; [apply Itoa_inj in Hp; lia|].
  apply (f_equal (fun k => Split k ",")) in Ha. rewrite !Split_Join in Ha by (by apply key_addrs_nonempty || apply key_addrs_chars).
  rewrite <- (omap_addr_string (v_addrs v)), <- (omap_addr_string (v_addrs v')) by done.
  rewrite <- !key_addrs_perm. by rewrite Ha.
Qed.

Lemma poolKey_nonempty s v : poolKey s v <> [].
Proof. unfold poolKey. intros [_ [H _]%app_nil]%app_nil. discriminate H. Qed.

(** ** The pools *)

(** A pool's key belongs to the destination its transport dials. *)
Definition inv_keys (u : upstreamPools) : Prop :=
  forall k p, pools u !! k = Some p -> exists s, good_scheme s /\ good_dest (tr_DialContext (up_tr p)) /\ k = poolKey s (tr_DialContext (up_tr p)).

(** The identities of the transports in the pools. *)
Definition ids (m : gmap gostring upstreamPool) : list nat := (fun e => tr_id (up_tr (snd e))) <$> map_to_list m.

(** Every transport that was made is in a pool or had its idle connections
    closed. *)
Definition inv_ids (u : upstreamPools) : Prop := ids (pools u) ++ (tr_id <$> up_closed u) ≡ₚ seq 0 (up_next u).

Lemma ids_insert m k p : m !! k = None -> ids (<[k := p]> m) ≡ₚ tr_id (up_tr p) :: ids m.
Proof. intros Hk. unfold ids. by rewrite map_to_list_insert. Qed.

Lemma ids_delete m k p : m !! k = Some p -> ids m ≡ₚ tr_id (up_tr p) :: ids (delete k m).
Proof. intros Hk. unfold ids. by rewrite <- (map_to_list_delete m k p Hk). Qed.

Lemma ids_replace m k p now : m !! k = Some p -> ids (<[k := mkPool (up_tr p) now]> m) ≡ₚ ids m.
Proof.
  intros Hk. rewrite <- insert_delete_eq, ids_insert by apply lookup_delete_eq. symmetry. by apply (ids_delete m k p).
Qed.

Lemma drop_pool_keys u k : inv_keys u -> inv_keys (drop_pool u k).
Proof.
  unfold inv_keys, drop_pool. intros Hi. destruct (pools u !! k) as [p|]; [|done]. cbn [pools]. intros k' p' [_ H]%lookup_delete_Some. eauto.
Qed.

Lemma drop_pool_ids u k : inv_ids u -> inv_ids (drop_pool u k).
Proof.
  unfold inv_ids, drop_pool. intros Hi. destruct (pools u !! k) as [p|] eqn:E; [|done]. cbn [pools up_closed up_next].
  rewrite <- Hi, (ids_delete _ _ _ E), fmap_app. cbn [fmap list_fmap]. solve_Permutation.
Qed.

Lemma drop_pool_size u k : (size (pools (drop_pool u k)) <= size (pools u))%nat.
Proof.
  unfold drop_pool. destruct (pools u !! k) as [p|] eqn:E; [|done]. cbn [pools]. rewrite map_size_delete_Some by (by eexists). lia.
Qed.

(** *** The least recently used pool *)

Definition used_of (m : gmap gostring upstreamPool) (k : gostring) : Z := match m !! k with Some p => up_used p | None => 0 end.

Lemma oldest_key_spec m order oldest :
  Forall (fun k => k <> []) order ->
  let k := oldest_key m oldest order in
  (k = oldest \/ k ∈ order) /\ (k = [] -> oldest = [] /\ order = []) /\
  (forall k', k' ∈ order \/ (k' = oldest /\ oldest <> []) -> used_of m k <= used_of m k').
Proof.
  intros Ho. revert oldest. induction Ho as [|k order Hk Ho IH]; intros oldest; cbn [oldest_key].
  { split_and!; [by left|done|]. intros k' [H|[-> _]]; [by apply not_elem_of_nil in H|lia]. }
  fold (used_of m k). fold (used_of m oldest). set (b := if bool_decide (oldest = []) || (used_of m k <? used_of m oldest) then k else oldest).
  assert (Hb : (b = k \/ b = oldest) /\ b <> [] /\ used_of m b <= used_of m k /\ (oldest <> [] -> used_of m b <= used_of m oldest)).
  { subst b. case_bool_decide; cbn [orb]; [split_and!; [by left|done|lia|done]|].
    destruct (Z.ltb_spec (used_of m k) (used_of m oldest)); split_and!; auto; lia. }
  clearbody b. destruct Hb as (Hb & Hne & H1 & H2). destruct (IH b) as (Hin & Hn & Hmin). split_and!.
  - destruct Hin as [->|Hin]; [destruct Hb as [->| ->]|]; set_solver.
  - intros E. destruct (Hn E) as [-> _]. done.
  - specialize (Hmin b (or_intror (conj eq_refl Hne))) as Hbb. intros k' [[->|H]%elem_of_cons|[-> H]]; [lia|by apply Hmin; left|]. specialize (H2 H). lia.
Qed.

(** Go visits every key once. *)
Definition visits (u : upstreamPools) (order : list gostring) : Prop := order ≡ₚ (map_to_list (pools u)).*1.

Lemma visits_elem u order k : visits u order -> k ∈ order <-> is_Some (pools u !! k).
Proof.
  intros ->. rewrite list_elem_of_fmap. split.
  - intros ([k' p] & -> & H%elem_of_map_to_list). by exists p.
  - intros [p Hp]. exists (k, p). by rewrite elem_of_map_to_list.
Qed.

Lemma inv_keys_nonempty u order : inv_keys u -> visits u order -> Forall (fun k => k <> []) order.
Proof.
  intros Hi Hv. apply List.Forall_forall. intros k Hk%list_elem_of_In. rewrite (visits_elem u order k Hv) in Hk. destruct Hk as [p Hp].
  destruct (Hi _ _ Hp) as (s & _ & _ & ->). apply poolKey_nonempty.
Qed.

(** Some pool with the smallest time of use goes. *)
Lemma dropOldest_spec u order :
  inv_keys u -> visits u order -> pools u <> ∅ ->
  exists k p, pools u !! k = Some p /\ (forall k' p', pools u !! k' = Some p' -> up_used p <= up_used p') /\
    dropOldestLocked u order = mkPools (delete k (pools u)) (up_next u) (up_closed u ++ [up_tr p]).
Proof.
  intros Hi Hv Hne. destruct (oldest_key_spec (pools u) order [] (inv_keys_nonempty _ _ Hi Hv)) as (Hin & Hn & Hmin).
  unfold dropOldestLocked. set (k := oldest_key (pools u) [] order) in *.
  assert (Hk : k <> []).
  { intros E. destruct (Hn E) as [_ ->]. destruct Hne. apply map_to_list_empty_iff. unfold visits in Hv. symmetry in Hv. by apply Permutation_nil_r, fmap_nil_inv in Hv. }
  destruct Hin as [?|Hin]; [done|]. apply (visits_elem u order k Hv) in Hin as [p Hp]. exists k, p. split; [done|]. split.
  - intros k' p' Hp'. specialize (Hmin k'). unfold used_of in Hmin. rewrite Hp, Hp' in Hmin. apply Hmin. left. apply (visits_elem u order k' Hv). by eexists.
  - rewrite bool_decide_false by done. unfold drop_pool. by rewrite Hp.
Qed.

(** *** What every operation keeps *)

Record pools_inv (u : upstreamPools) : Prop := {
  pi_keys : inv_keys u;
  pi_ids : inv_ids u;
  pi_size : (size (pools u) <= maxUpstreamPools)%nat
}.

Lemma new_inv : pools_inv newUpstreamPools.
Proof.
  split; unfold newUpstreamPools.
  - intros k p H. cbn [pools] in H. by rewrite lookup_empty in H.
  - unfold inv_ids, ids. cbn [pools up_closed up_next]. by rewrite map_to_list_empty.
  - cbn [pools]. rewrite map_size_empty. lia.
Qed.

Lemma drop_pool_inv u k : pools_inv u -> pools_inv (drop_pool u k).
Proof.
  intros [Hk Hi Hs]. split; [by apply drop_pool_keys|by apply drop_pool_ids|]. etrans; [apply drop_pool_size|done].
Qed.

(** The pools before a new one is added. *)
Definition make_room (u : upstreamPools) (order : list gostring) : upstreamPools :=
  if (maxUpstreamPools <=? size (pools u))%nat then dropOldestLocked u order else u.

Lemma dropOldest_inv u order : pools_inv u -> pools_inv (dropOldestLocked u order).
Proof. unfold dropOldestLocked. case_bool_decide; [done|]. apply drop_pool_inv. Qed.

Lemma make_room_inv u order : pools_inv u -> pools_inv (make_room u order).
Proof. unfold make_room. destruct (_ <=? _)%nat; [apply dropOldest_inv|done]. Qed.

Lemma make_room_size u order : pools_inv u -> visits u order -> (size (pools (make_room u order)) < maxUpstreamPools)%nat.
Proof.
  intros [Hk _ Hs] Hv. unfold make_room. destruct (Nat.leb_spec maxUpstreamPools (size (pools u))) as [Hge|]; [|done].
  destruct (dropOldest_spec u order Hk Hv) as (k & p & Hp & _ & ->).
  - intros E. rewrite E, map_size_empty in Hge. unfold maxUpstreamPools in Hge. lia.
  - cbn [pools]. rewrite map_size_delete_Some by (by eexists). assert (size (pools u) <> 0)%nat by (intros E%map_size_empty_inv; by rewrite E in Hp). lia.
Qed.

Lemma make_room_none u order k : pools u !! k = None -> pools (make_room u order) !! k = None.
Proof.
  intros Hk. unfold make_room, dropOldestLocked, drop_pool. destruct (_ <=? _)%nat; [|done]. case_bool_decide; [done|].
  destruct (pools u !! oldest_key _ _ _); [|done]. cbn [pools]. rewrite lookup_delete_None. by right.
Qed.

Lemma transport_inv u now order scheme v :
  pools_inv u -> visits u order -> good_scheme scheme -> good_dest v -> pools_inv (fst (transport u now order scheme v)).
Proof.
  intros Hi Hv Hs Hd. unfold transport. destruct (pools u !! poolKey scheme v) as [p|] eqn:E.
  - destruct Hi as [Hk Hid Hsz]. cbn [fst]. split.
    + intros k q. cbn [pools]. rewrite lookup_insert_Some. intros [[<- <-]|[_ H]]; [|eauto]. cbn [up_tr]. eauto.
    + unfold inv_ids. cbn [pools up_closed up_next]. by rewrite ids_replace.
    + cbn [pools]. by rewrite map_size_insert_Some by (by eexists).
  - fold (make_room u order). pose proof (make_room_size u order Hi Hv) as Hsz. pose proof (make_room_none u order _ E) as Hn.
    apply (make_room_inv u order) in Hi as [Hk Hid _]. cbn [fst]. set (u' := make_room u order) in *. split.
    + intros k q. cbn [pools]. rewrite lookup_insert_Some. intros [[<- <-]|[_ H]]; [|eauto]. cbn. by exists scheme.
    + unfold inv_ids in *. cbn [pools up_closed up_next]. rewrite ids_insert by done. cbn [app]. rewrite Hid, seq_S.
      cbn [up_tr newUpstreamTransport tr_id]. by rewrite Permutation_app_comm.
    + cbn [pools]. rewrite map_size_insert_None by done. lia.
Qed.

Lemma sweep_inv u now order : pools_inv u -> pools_inv (sweep u now order).
Proof.
  unfold sweep. revert u. induction order as [|k order IH]; intros u Hu; [done|]. apply IH. unfold sweep_pool.
  destruct (pools u !! k); [|done]. destruct (_ <? _); [by apply drop_pool_inv|done].
Qed.

(** ** Reachable pools *)

(** Pools after any sequence of requests to approved destinations and sweeps. *)
Inductive pools_reach : upstreamPools -> Prop :=
| pr_new : pools_reach newUpstreamPools
| pr_transport u now order scheme v :
    pools_reach u -> visits u order -> good_scheme scheme -> good_dest v -> pools_reach (fst (transport u now order scheme v))
| pr_sweep u now order : pools_reach u -> visits u order -> pools_reach (sweep u now order).

Lemma reach_inv u : pools_reach u -> pools_inv u.
Proof. induction 1; [apply new_inv|by apply transport_inv|by apply sweep_inv]. Qed.

(** The destination a request's transport dials is the request's own. *)
Lemma transport_same u now order scheme v tr :
  pools_reach u -> good_scheme scheme -> good_dest v -> snd (roundTrip u now order scheme (Some v)) = Ok tr ->
  v_host (tr_DialContext tr) = v_host v /\ v_port (tr_DialContext tr) = v_port v /\ v_addrs (tr_DialContext tr) ≡ₚ v_addrs v.
Proof.
  intros [Hk _ _]%reach_inv Hs Hd. unfold roundTrip. rewrite bool_decide_false by apply Hd.
  unfold transport. destruct (pools u !! poolKey scheme v) as [p|] eqn:E; cbn [snd]; intros [= <-]; [|done].
  destruct (Hk _ _ E) as (s & Hs' & Hd' & Ek). by apply poolKey_inj in Ek as (_ & ? & ? & ?).
Qed.

Lemma transport_vetted u now order scheme v tr text :
  pools_reach u -> good_scheme scheme -> good_dest v -> snd (roundTrip u now order scheme (Some v)) = Ok tr ->
  vetted_addr (tr_DialContext tr) text <-> vetted_addr v text.
Proof.
  intros Hr Hs Hd Ht. destruct (transport_same _ _ _ _ _ _ Hr Hs Hd Ht) as (_ & Hp & Ha). unfold vetted_addr. rewrite Hp. by setoid_rewrite Ha.
Qed.

(** C20: a pooled connection never serves a request that was not approved for where it leads: whatever requests and sweeps came before, the transport a request is sent on dials exactly the host and port the request was checked for, and exactly its checked addresses. *)
Theorem pooled_transport_vetted u now order scheme v tr :
  pools_reach u -> visits u order -> good_scheme scheme -> good_dest v -> snd (roundTrip u now order scheme (Some v)) = Ok tr ->
  v_host (tr_DialContext tr) = v_host v /\ v_port (tr_DialContext tr) = v_port v /\ v_addrs (tr_DialContext tr) ≡ₚ v_addrs v /\
  forall text, vetted_addr (tr_DialContext tr) text <-> vetted_addr v text.
Proof.
  intros Hr Hv Hs Hd Ht. destruct (transport_same _ _ _ _ _ _ Hr Hs Hd Ht) as (? & ? & ?). split_and!; try done.
  intros text. by eapply transport_vetted.
Qed.

(** C40: there are never more than 1024 pools; when one more is needed, a least recently used one goes and its idle connections are closed; and every transport ever made is in exactly one pool or had its idle connections closed. *)
Theorem pools_bounded u now order scheme v :
  pools_reach u -> visits u order -> pools u !! poolKey scheme v = None ->
  (size (pools u) <= 1024)%nat /\ ids (pools u) ++ (tr_id <$> up_closed u) ≡ₚ seq 0 (up_next u) /\
  (size (pools u) = 1024%nat ->
   exists k p, pools u !! k = Some p /\ (forall k' p', pools u !! k' = Some p' -> up_used p <= up_used p') /\
     let u' := fst (transport u now order scheme v) in
     delete (poolKey scheme v) (pools u') = delete k (pools u) /\ up_closed u' = up_closed u ++ [up_tr p]).
Proof.
  intros [Hk Hi Hs]%reach_inv Hv Hn. split_and!; [exact Hs|exact Hi|]. intros E.
  destruct (dropOldest_spec u order Hk Hv) as (k & p & Hp & Hmin & Hd); [intros ?; rewrite H, map_size_empty in E; lia|].
  exists k, p. split; [done|]. split; [done|]. unfold transport. rewrite Hn. rewrite (proj2 (Nat.leb_le _ _)) by (rewrite E; done).
  rewrite Hd. cbn [fst pools up_closed]. split; [|done]. rewrite delete_insert_eq. apply delete_id. rewrite lookup_delete_None. by right.
Qed.

(** *** Sweeping *)

Definition idle_pool (now : Z) (p : upstreamPool) : Prop := upstreamIdleTimeout < Sub now (up_used p).

Lemma sweep_pool_lookup now u k k' :
  pools (sweep_pool now u k) !! k' =
  if decide (k' = k) then (match pools u !! k with Some p => if upstreamIdleTimeout <? Sub now (up_used p) then None else Some p | None => None end)
  else pools u !! k'.
Proof.
  unfold sweep_pool, drop_pool. destruct (decide (k' = k)) as [->|Hne].
  - destruct (pools u !! k) as [p|] eqn:E; [|done]. destruct (_ <? _); [|done]. cbn [pools]. apply lookup_delete_eq.
  - destruct (pools u !! k) as [p|]; [|done]. destruct (_ <? _); [|done]. cbn [pools]. by apply lookup_delete_ne.
Qed.

Lemma sweep_lookup u now order k :
  NoDup order -> pools (sweep u now order) !! k =
  if decide (k ∈ order) then (match pools u !! k with Some p => if upstreamIdleTimeout <? Sub now (up_used p) then None else Some p | None => None end)
  else pools u !! k.
Proof.
  intros Hnd. unfold sweep. revert u. induction Hnd as [|k0 order Hk0 _ IH]; intros u; [done|]. cbn [fold_left]. rewrite IH, sweep_pool_lookup.
  repeat case_decide; set_solver.
Qed.

(** A sweep drops exactly the pools that were not used for thirty seconds. *)
Lemma sweep_drops u now order k p :
  visits u order -> pools (sweep u now order) !! k = Some p <-> pools u !! k = Some p /\ ~ idle_pool now p.
Proof.
  intros Hv. assert (Hnd : NoDup order) by (rewrite Hv; apply NoDup_fst_map_to_list). rewrite sweep_lookup by done. unfold idle_pool.
  case_decide as Hin.
  - destruct (pools u !! k) as [q|]; [|naive_solver]. destruct (Z.ltb_spec upstreamIdleTimeout (Sub now (up_used q))); naive_solver lia.
  - rewrite (visits_elem u order k Hv) in Hin. split; [intros E; destruct Hin; by exists p|]. intros [E _]. destruct Hin. by exists p.
Qed.

(** ** Examples *)

Definition keys_of (u : upstreamPools) : list gostring := (map_to_list (pools u)).*1.
Definition a1 : Addr := Addr4 1572394766.
Definition a2 : Addr := Addr6 (2 ^ 125 + 2 ^ 64 + 1) [].
Definition dest (host : gostring) (addrs : list Addr) : vetted := mkVetted host 80 addrs (60 * Second).

Lemma dest_good host : "|"%char ∉ host -> good_dest (dest host [a1; a2]) /\ good_dest (dest host [a2; a1]).
Proof.
  intros Hh. assert (H1 : plain_addr a1) by (split_and!; vm_compute; reflexivity). assert (H2 : plain_addr a2) by (split_and!; vm_compute; reflexivity).
  split; (split; [exact Hh|cbn; lia|done|]); cbn [dest v_addrs]; repeat (apply Forall_cons_2; [done|]); apply Forall_nil_2.
Qed.

(** Pools for [n] different hosts. *)
Fixpoint fill (n : nat) : upstreamPools :=
  match n with
  | O => newUpstreamPools
  | S n => let u := fill n in fst (transport u (Z.of_nat n) (keys_of u) (str "http") (dest (Itoa (Z.of_nat n)) [a1; a2]))
  end.

Lemma http_scheme : good_scheme (str "http").
Proof. by apply ContainsByte_false. Qed.

Lemma fill_reach n : pools_reach (fill n).
Proof.
  induction n as [|n IH]; [constructor|]. cbn [fill]. apply pr_transport; [done|unfold visits; reflexivity|apply http_scheme|].
  apply dest_good. apply digits_no_char; [lia|done].
Qed.

Lemma pooled_transport_vetted_witness :
  exists tr, snd (roundTrip (fill 3) 5 (keys_of (fill 3)) (str "http") (Some (dest (str "1") [a2; a1]))) = Ok tr /\
    tr_id tr = 1%nat /\ v_addrs (tr_DialContext tr) = [a1; a2] /\ (forall text, vetted_addr (tr_DialContext tr) text <-> vetted_addr (dest (str "1") [a2; a1]) text).
Proof.
  destruct (snd (roundTrip (fill 3) 5 (keys_of (fill 3)) (str "http") (Some (dest (str "1") [a2; a1])))) as [tr|e] eqn:E;
    [|vm_compute in E; discriminate E].
  exists tr. split; [reflexivity|]. split; [vm_compute in E; injection E as <-; reflexivity|]. split; [vm_compute in E; injection E as <-; reflexivity|].
  apply (pooled_transport_vetted (fill 3) 5 (keys_of (fill 3)) (str "http") (dest (str "1") [a2; a1]) tr).
  - apply fill_reach.
  - unfold visits. reflexivity.
  - apply http_scheme.
  - apply dest_good. by apply ContainsByte_false.
  - exact E.
Defined.

Lemma key_host_inj h h' : "|"%char ∉ h -> "|"%char ∉ h' -> poolKey (str "http") (dest h [a1; a2]) = poolKey (str "http") (dest h' [a1; a2]) -> h = h'.
Proof.
  intros H H' E. apply poolKey_inj in E as (_ & E & _); [done|apply http_scheme..|by apply dest_good|by apply dest_good].
Qed.

Lemma fill_size n : (n <= 1024)%nat ->
  size (pools (fill n)) = n /\
  forall k, is_Some (pools (fill n) !! k) -> exists i, (i < n)%nat /\ k = poolKey (str "http") (dest (Itoa (Z.of_nat i)) [a1; a2]).
Proof.
  induction n as [|n IH]; intros Hn; [split; [done|]; intros k [p Hp]; cbn in Hp; by rewrite lookup_empty in Hp|].
  destruct IH as [Hs Hk]; [lia|]. cbn [fill]. unfold transport. set (key := poolKey _ _).
  assert (Hnone : pools (fill n) !! key = None).
  { apply eq_None_not_Some. intros (i & Hi & E)%Hk. apply key_host_inj in E; try (apply digits_no_char; [lia|done]). apply Itoa_inj in E; lia. }
  rewrite Hnone. rewrite (proj2 (Nat.leb_gt _ _)) by (rewrite Hs; unfold maxUpstreamPools; lia). cbn [fst pools]. split.
  - by rewrite map_size_insert_None, Hs.
  - intros k [p Hp]. apply lookup_insert_Some in Hp as [[<- _]|[_ Hp]]; [exists n; split; [lia|done]|].
    destruct (Hk k) as (i & Hi & ->); [by eexists|]. exists i. split; [lia|done].
Qed.

(** The 1025th destination: the least recently used of 1024 pools goes. *)
Lemma pools_bounded_witness :
  exists u v, pools_reach u /\ size (pools u) = 1024%nat /\
    exists k p, pools u !! k = Some p /\ (forall k' p', pools u !! k' = Some p' -> up_used p <= up_used p') /\
      let u' := fst (transport u 2000 (keys_of u) (str "http") v) in
      delete (poolKey (str "http") v) (pools u') = delete k (pools u) /\ up_closed u' = up_closed u ++ [up_tr p].
Proof.
  exists (fill 1024), (dest (Itoa 1024) [a1; a2]). pose proof (fill_reach 1024) as Hr. destruct (fill_size 1024 (Nat.le_refl _)) as [Hs Hk].
  split; [exact Hr|]. split; [exact Hs|]. generalize dependent (fill 1024). intros u Hr Hs Hk.
  apply (pools_bounded u 2000 (keys_of u) (str "http") (dest (Itoa 1024) [a1; a2])); [exact Hr|unfold visits; reflexivity| |exact Hs].
  apply eq_None_not_Some. intros Hin. destruct (Hk _ Hin) as (i & Hi & E). apply key_host_inj in E; try (apply digits_no_char; [lia|done]). apply Itoa_inj in E; lia.
Defined.
