(* ===== verification/Http.v ===== *)
(** * The part of Go's [net/http], [net/url] and [net/textproto] the proxy uses

    Header maps with canonical keys, the host and port of a URL, requests and
    responses with the fields the proxy reads or writes, and [http.Error]. *)

From Stdlib Require Import ZArith NArith Ascii String Lia Bool List.
From stdpp Require Import base tactics list gmap strings option sets.
From S2P Require Import Prelude GoStrings HostPort.

Local Open Scope Z_scope.

(** ** Headers *)

Abbreviation Header := (gmap gostring (list gostring)).

(** The characters of a token (RFC 9110). *)
Definition validHeaderFieldByte (c : ascii) : bool :=
  is_digit c || is_lower c || is_upper c || ContainsByte (str "!#$%&'*+-.^_`|~") c.

Definition to_upper_byte (c : ascii) : ascii := if is_lower c then ascii_of_N (N_of_ascii c - 32) else c.

(** First letters and those after a hyphen in upper case, others in lower. *)
Fixpoint canonical_bytes (upper : bool) (s : gostring) : gostring :=
  match s with
  | [] => []
  | c :: s => (if upper then to_upper_byte c else to_lower_byte c) :: canonical_bytes (Ascii.eqb c "-") s
  end.

(** [textproto.CanonicalMIMEHeaderKey]: what is not a token is left alone. *)
Definition CanonicalMIMEHeaderKey (s : gostring) : gostring :=
  if forallb validHeaderFieldByte s then canonical_bytes true s else s.

Definition Header_Values (h : Header) (key : gostring) : list gostring := default [] (h !! CanonicalMIMEHeaderKey key).
Definition Header_Del (h : Header) (key : gostring) : Header := delete (CanonicalMIMEHeaderKey key) h.
Definition Header_Set (h : Header) (key value : gostring) : Header := <[CanonicalMIMEHeaderKey key := [value]]> h.

(** [textproto.TrimString] *)
Definition isASCIISpace (c : ascii) : bool := ContainsByte [byte 32; byte 9; byte 10; byte 13] c.
Fixpoint trim_left (s : gostring) : gostring := match s with c :: s' => if isASCIISpace c then trim_left s' else s | [] => [] end.
Definition TrimString (s : gostring) : gostring := rev (trim_left (rev (trim_left s))).

(** ** URLs *)

Record URL := mkURL { u_Scheme : gostring; u_Host : gostring }.

(** [u.IsAbs()] *)
Definition IsAbs (u : URL) : bool := negb (bool_decide (u_Scheme u = [])).

Definition validOptionalPort (port : gostring) : bool :=
  match port with
  | [] => true
  | c :: port => Ascii.eqb c ":" && forallb is_digit port
  end.

(** [url.splitHostPort], not to be confused with [net.SplitHostPort]. *)
Definition url_splitHostPort (hostPort : gostring) : gostring * gostring :=
  let '(host, port) :=
    match LastIndexByte hostPort ":" with
    | Some colon => if validOptionalPort (drop colon hostPort) then (take colon hostPort, drop (S colon) hostPort) else (hostPort, [])
    | None => (hostPort, [])
    end in
  (match CutPrefix host (str "[") with
   | Some h => match CutSuffix h (str "]") with Some h => h | None => host end
   | None => host
   end, port).

Definition Hostname (u : URL) : gostring := fst (url_splitHostPort (u_Host u)).
Definition URL_Port (u : URL) : gostring := snd (url_splitHostPort (u_Host u)).

(** ** Requests and responses *)

Record Request := mkRequest {
  r_Method : gostring;
  r_URL : URL;
  r_Proto : Z * Z;
  r_Host : gostring;
  r_RemoteAddr : gostring;
  r_Header : Header;
  r_RequestURI : gostring;
  r_Close : bool
}.

(** A response of an upstream server. *)
Record Response := mkResponse {
  rs_StatusCode : Z;
  rs_Header : Header;
  rs_ContentLength : Z;
  rs_Trailer : Header
}.

(** What the proxy itself answers: status, header and body. *)
Record Answer := mkAnswer { an_status : Z; an_header : Header; an_body : gostring }.

Definition StatusSwitchingProtocols : Z := 101.
Definition StatusBadRequest : Z := 400.
Definition StatusForbidden : Z := 403.
Definition StatusTooManyRequests : Z := 429.
Definition StatusBadGateway : Z := 502.

(** [http.Error(w, msg, code)] on a writer whose header is [h]. *)
Definition Error (h : Header) (msg : gostring) (code : Z) : Answer :=
  let h := Header_Del h (str "Content-Length") in
  let h := Header_Set h (str "Content-Type") (str "text/plain; charset=utf-8") in
  let h := Header_Set h (str "X-Content-Type-Options") (str "nosniff") in
  mkAnswer code h (msg ++ [byte 10]).

Example canonical_ex :
  CanonicalMIMEHeaderKey (str "keep-ALIVE") = str "Keep-Alive" /\ CanonicalMIMEHeaderKey (str "te") = str "Te" /\
  CanonicalMIMEHeaderKey (str "bad key") = str "bad key".
Proof. split_and!; vm_compute; reflexivity. Qed.

Example url_ex :
  url_splitHostPort (str "[2001:db8::1]:8080") = (str "2001:db8::1", str "8080") /\
  url_splitHostPort (str "example.com") = (str "example.com", []) /\ url_splitHostPort (str "example.com:") = (str "example.com", []) /\
  url_splitHostPort (str "example.com:http") = (str "example.com:http", []).
Proof. split_and!; vm_compute; reflexivity. Qed.
