(* ===== verification/Proxy.v ===== *)
(** * Proxy: internal/proxy/proxy.go, log.go and listener.go

    The request handlers with everything they do to the proxy's state: the
    tracker, the resolver, the connection pools and the access log. What the
    HTTP server, the network and the upstream servers do are arguments: the
    clock, the result of taking over a connection, of a dial or of a round
    trip. A handler's own result says what is done with the connection. *)

From Stdlib Require Import ZArith NArith Ascii String Lia Bool List.
From stdpp Require Import base tactics list gmap strings option sets fin_maps.
From S2P Require Import Prelude GoStrings Netip AddrText GoFloat Regexp Rules Policy Limits HostFacts HostPort Dial Config Upstream Http.

Local Open Scope Z_scope.

(** ** Log lines *)

Definition DebugLevel : Z := 0.
Definition WarnLevel : Z := 2.

Definition maxLogHost : nat := 253.
Definition maxLogMethod : nat := 32.
Definition maxLogPort : nat := 16.

(** Whom a summary is about. *)
Inductive summary_of := SUnknown | SNetwork (p : Prefix) (subnet : gostring) | SClient (a : gostring) (subnet : gostring).

Inductive log_line :=
| LDecision (lvl : Z) (action client subnet method host port : gostring) (r : reason) (rule msg : gostring)
| LRejected (client subnet reason : gostring)
| LUpstream (lvl : Z) (e : error) (client method host : gostring)
| LDebug (msg : gostring) (e : error)
| LServer (msg : gostring)
| LSummary (lvl : Z) (who : summary_of) (total : Z) (actions : gmap gostring (gmap gostring Z)) (other : Z).

(** ** State *)

Record Proxy (St : Type) := mkProxy {
  px_config : Config;
  px_resolver : St;
  px_clients : Tracker (F := float64);
  px_upstream : upstreamPools;
  px_log : list log_line
}.
Arguments mkProxy {St}.
Arguments px_config {St}.
Arguments px_resolver {St}.
Arguments px_clients {St}.
Arguments px_upstream {St}.
Arguments px_log {St}.

(** [New] *)
Definition NewProxy {St : Type} (cfg : Config) (resolver : St) : Proxy St := mkProxy cfg resolver NewTracker newUpstreamPools [].

(** [clip] *)
Definition clip (s : gostring) (n : nat) : gostring :=
  if (length s <=? n)%nat then s else firstn n s ++ str "...(" ++ Itoa (Z.of_nat (length s)) ++ str " bytes)".

(** [clientAddr] *)
Definition clientAddr (r : Request) : Addr := match ParseAddrPort_addr (r_RemoteAddr r) with Ok a => Unmap a | Err _ => AddrZero end.

(** [net.Addr]: a TCP address, or one of which only the text is known. *)
Inductive NetAddr := TCPAddr (a : Addr) (port : Z) | OtherAddr (s : gostring).

(** [remoteAddr] *)
Definition remoteAddr (a : NetAddr) : Addr :=
  match a with
  | TCPAddr a _ => Unmap a
  | OtherAddr s => match ParseAddrPort_addr s with Ok a => Unmap a | Err _ => AddrZero end
  end.

(** ** Hop-by-hop headers *)

Definition hopByHop : list gostring :=
  str <$> ["Connection"; "Keep-Alive"; "Proxy-Authenticate"; "Proxy-Authorization"; "Proxy-Connection"; "Te"; "Trailer"; "Transfer-Encoding"; "Upgrade"]%string.

(** The inner loop: the names listed in one field. *)
Definition del_listed (h : Header) (name : gostring) : Header :=
  let name := TrimString name in if bool_decide (name <> []) then Header_Del h name else h.

Definition removeHopByHop (h : Header) : Header :=
  let fields := Header_Values h (str "Connection") in
  let h := fold_left (fun h field => fold_left del_listed (Split field ",") h) fields h in
  fold_left Header_Del hopByHop h.

(** [outbound] *)
Definition outbound (r : Request) : Request :=
  mkRequest (r_Method r) (r_URL r) (r_Proto r) (r_Host r) (r_RemoteAddr r) (removeHopByHop (r_Header r)) [] false.

(** ** Answers *)

(** [deny] *)
Definition deny : Answer := Error (Header_Set ∅ (str "Connection") (str "close")) (str "Blocked by proxy ACL") StatusForbidden.
Definition tooManyRequests : Answer := Error (Header_Set ∅ (str "Retry-After") (str "1")) (str "Too many requests") StatusTooManyRequests.
Definition notAProxyRequest : Answer := Error ∅ (str "This is a forward proxy; requests must use an absolute URL.") StatusBadRequest.
Definition badGatewayAnswer : Answer := Error ∅ (str "Bad gateway") StatusBadGateway.

Definition crlf : gostring := [byte 13; byte 10].
Definition badGatewayConnect : gostring :=
  str "HTTP/1.1 502 Bad Gateway" ++ crlf ++ str "Content-Length: 0" ++ crlf ++ str "Connection: close" ++ crlf ++ crlf.

Definition errUpgradeNotSupported : error := ENew (str "upstream answered 101 to a request with no Upgrade header").

(** [strings.HasPrefix(d.Reason, "invalid host")] *)
Definition reason_invalid_host (r : reason) : bool :=
  match r with RInvalidHost _ => true | RText s => HasPrefix s (str "invalid host") | _ => false end.

(** [errors.Is(err, context.Canceled)] *)
Definition is_canceled (e : error) : bool := errors_Is (fun e => match e with ECanceled => true | _ => false end) e.

Section handlers.
Context {St : Type} `{!Resolver St} (Enabled : Z -> bool).
Implicit Type p : Proxy St.

(** ** The access log *)

Definition with_clients p (t : Tracker (F := float64)) : Proxy St := mkProxy (px_config p) (px_resolver p) t (px_upstream p) (px_log p).
Definition write p (l : log_line) : Proxy St := mkProxy (px_config p) (px_resolver p) (px_clients p) (px_upstream p) (px_log p ++ [l]).

(** [sample] *)
Definition sample p (now : Z) (lvl : Z) (client : Addr) (action host : gostring) : Proxy St * bool :=
  if negb (Enabled lvl) then (p, false)
  else let '(t, ok) := Log (px_clients p) now client action host in (with_clients p t, ok).

Definition logDecision p (now : Z) (r : Request) (client : Addr) (host port : gostring) (d : Decision) : Proxy St :=
  let '(action, msg, lvl) := if Policy.Allow d then (str "allow", str "allowed", InfoLevel) else (str "deny", str "denied", WarnLevel) in
  let host := clip host maxLogHost in
  let key := if reason_invalid_host (Reason d) then str "(invalid host)" else host in
  let '(p, ok) := sample p now lvl client action key in
  if ok then write p (LDecision lvl action (addr_string client) (dSubnet d) (clip (r_Method r) maxLogMethod) host (clip port maxLogPort) (Reason d) (Rule d) msg)
  else p.

Definition logRejected p (now : Z) (client : Addr) (subnet reason : gostring) : Proxy St :=
  if negb (Enabled WarnLevel) then p else
  let '(t, ok) := if bool_decide (subnet = []) then LogUnknown (px_clients p) now client
                  else Log (px_clients p) now client (str "deny") (str "(connection)") in
  let p := with_clients p t in
  if ok then write p (LRejected (addr_string client) subnet reason) else p.

Definition logUpstreamError p (now : Z) (r : Request) (host : gostring) (err : error) : Proxy St :=
  let lvl := if is_canceled err then DebugLevel else WarnLevel in
  let client := clientAddr r in
  let host := clip host maxLogHost in
  let '(p, ok) := sample p now lvl client (str "error") host in
  if ok then write p (LUpstream lvl err (addr_string client) (clip (r_Method r) maxLogMethod) host) else p.

(** *** Summaries *)

Definition by_action (counts : gmap SuppressedKey Z) : gmap gostring (gmap gostring Z) :=
  map_fold (fun k n m => <[k_Action k := <[k_Host k := n]> (default ∅ (m !! k_Action k))]> m) ∅ counts.

Definition counts_total (counts : gmap SuppressedKey Z) : Z := map_fold (fun _ n acc => acc + n) 0 counts.

Definition subnet_name (cfg : Config) (a : Addr) : gostring := match SubnetOf (cfg_Policy cfg) a with Some s => sn_name s | None => [] end.

(** The line written for one summary. *)
Definition summary_line (cfg : Config) (s : Suppressed) : log_line :=
  let actions := by_action (s_Counts s) in
  let total := s_Other s + counts_total (s_Counts s) in
  let lvl := if bool_decide (is_Some (actions !! str "deny")) || bool_decide (is_Some (actions !! str "error")) then WarnLevel else InfoLevel in
  if s_Unknown s then
    LSummary lvl SUnknown total (match actions !! str "deny" with Some c => {[str "deny" := c]} | None => ∅ end) (s_Other s)
  else if Prefix_IsValid (s_Prefix s) then
    LSummary lvl (SNetwork (s_Prefix s) (subnet_name cfg (pfx_addr (s_Prefix s)))) total actions (s_Other s)
  else LSummary lvl (SClient (addr_string (s_Client s)) (subnet_name cfg (s_Client s))) total actions (s_Other s).

Definition line_level (l : log_line) : Z :=
  match l with LDecision lvl _ _ _ _ _ _ _ _ _ | LUpstream lvl _ _ _ _ | LSummary lvl _ _ _ _ => lvl | LRejected _ _ _ => WarnLevel | LDebug _ _ | LServer _ => DebugLevel end.

(** One round of the loop of [Proxy.sweep]. *)
Definition write_summary p (s : Suppressed) : Proxy St :=
  let l := summary_line (px_config p) s in if Enabled (line_level l) then write p l else p.

(** [Proxy.sweep]; the orders of Go's iterations are arguments. *)
Definition sweep_log p (now : Z) (cs : list (Addr * nat)) (os : list (Prefix * nat)) : Proxy St :=
  let '(t, out) := Sweep (px_clients p) now cs os in
  fold_left write_summary out (with_clients p t).

(** One round of [maintain]. *)
Definition maintain_tick p (now : Z) (cs : list (Addr * nat)) (os : list (Prefix * nat)) (order : list gostring) : Proxy St :=
  let p := sweep_log p now cs os in
  mkProxy (px_config p) (px_resolver p) (px_clients p) (Upstream.sweep (px_upstream p) now order) (px_log p).

(** ** The listener *)

(** [Proxy_admit]: the release function of the slot, or the connection is closed.
    [t1] and [t2] are the times at which the tracker is asked. *)
Definition Proxy_admit p (t1 t2 : Z) (remote : NetAddr) : Proxy St * option nat :=
  let client := remoteAddr remote in
  let cfg := px_config p in
  match SubnetOf (cfg_Policy cfg) client with
  | None => (logRejected p t2 client [] (str "client not in any subnet"), None)
  | Some subnet =>
      let '(t, r) := Acquire (px_clients p) t1 client (ClientLimits cfg (Some subnet)) (TotalConnections cfg) in
      let p := with_clients p t in
      match r with
      | Ok release => (p, Some release)
      | Err e => (logRejected p t2 client (sn_name subnet) (match e with ENew m => m | _ => [] end), None)
      end
  end.

(** [listener.Accept] over the connections that arrive, each with the times at
    which it is handled: the first that is admitted, or the listener's error. *)
Fixpoint Accept p (incoming : list (Z * Z * result NetAddr)) : Proxy St * option (result (NetAddr * nat)) :=
  match incoming with
  | [] => (p, None)
  | (t1, t2, Err e) :: _ => (p, Some (Err e))
  | (t1, t2, Ok remote) :: incoming =>
      match Proxy_admit p t1 t2 remote with
      | (p, Some release) => (p, Some (Ok (remote, release)))
      | (p, None) => Accept p incoming
      end
  end.

(** [clientConn.Close]: frees the slot, whichever code path closes it. *)
Definition clientConn_Close p (now : Z) (release : nat) : Proxy St := with_clients p (Limits.release (px_clients p) now release).

(** ** Requests *)

(** What happens around a request: the times at which the tracker, the log and
    the pools are used, the time left to the request's context, the order in
    which Go visits the pools, and what the other goroutines do to the shared
    state before the lookup and before the destination is used. *)
Record around := mkAround {
  at_allow : Z;
  at_log : Z;
  at_pool : Z;
  ctx_time : option Z;
  pool_order : upstreamPools -> list gostring;
  before_lookup : Proxy St -> Proxy St;
  before_use : Proxy St -> Proxy St
}.

(** [check]: an answer, or the vetted destination. *)
Definition check (e : around) p (r : Request) (host port : gostring) : Proxy St * (Answer + vetted) :=
  let client := clientAddr r in
  let cfg := px_config p in
  let subnet := SubnetOf (cfg_Policy cfg) client in
  let lim := ClientLimits cfg subnet in
  let '(t, ok) := Limits.Allow (px_clients p) (at_allow e) client lim in
  let p := with_clients p t in
  if negb ok then
    (logDecision p (at_log e) r client host port (denied (match subnet with Some s => sn_name s | None => [] end) [] (RText (str "rate limited"))), inl tooManyRequests)
  else
  match subnet with
  | None => (logDecision p (at_log e) r client host port (denied [] [] (RText (str "client not in any subnet"))), inl deny)
  | Some subnet =>
      let p := before_lookup e p in
      let '(st, d) := Check subnet (WithClient (mkCtx None (ctx_time e)) client) host port (px_resolver p) in
      let p := mkProxy (px_config p) st (px_clients p) (px_upstream p) (px_log p) in
      let p := logDecision p (at_log e) r client host port d in
      if negb (Policy.Allow d) then (p, inl deny)
      else (p, inr (mkVetted host (Port d) (Addrs d) (TunnelIdleTimeout lim)))
  end.

(** What becomes of a request: the proxy answers, nothing more can be done with
    the connection, the connection is taken over and [addr] is dialed, or the
    request goes out on a transport. *)
Inductive outcome :=
| OAnswer (a : Answer)
| ODropped (closed : bool)
| OTunnel (v : vetted) (addr early : gostring)
| OForward (v : vetted) (out : Request) (tr : result Transport).

(** What the HTTP server does when the connection is taken over: the writer may
    not support it, and then the server gives the bytes it had read ahead, of
    which reading may fail. *)
Record hijackable := mkHijackable { hj_supported : bool; hj_taken : result gostring; hj_readFull : result unit }.

(** [hijack]: the bytes read ahead, or the error and whether the connection was
    taken and closed. *)
Definition hijack (w : hijackable) : gostring + (error * bool) :=
  if negb (hj_supported w) then inr (ENew (str "connection does not support hijacking"), false)
  else match hj_taken w with
       | Err e => inr (e, false)
       | Ok buffered =>
           if bool_decide (buffered = []) then inl []
           else match hj_readFull w with Err e => inr (e, true) | Ok _ => inl buffered end
       end.

Definition serveConnect (e : around) p (w : hijackable) (r : Request) : Proxy St * outcome :=
  let '(host, port) := match SplitHostPort (u_Host (r_URL r)) with Ok hp => hp | Err _ => (u_Host (r_URL r), []) end in
  let '(p, v) := check e p r host port in
  match v with
  | inl a => (p, OAnswer a)
  | inr v =>
      match hijack w with
      | inr (err, closed) => ((if Enabled DebugLevel then write p (LDebug (str "cannot hijack the client connection for a tunnel") err) else p), ODropped closed)
      | inl early => (p, OTunnel v (JoinHostPort (v_host v) (Itoa (v_port v))) early)
      end
  end.

(** [serveRequest] once the port is known. *)
Definition checkAndForward (e : around) p (r : Request) (port : gostring) : Proxy St * outcome :=
  let '(p, v) := check e p r (Hostname (r_URL r)) port in
  match v with
  | inl a => (p, OAnswer a)
  | inr v =>
      let p := before_use e p in
      let '(u, tr) := roundTrip (px_upstream p) (at_pool e) (pool_order e (px_upstream p)) (u_Scheme (r_URL r)) (Some v) in
      (mkProxy (px_config p) (px_resolver p) (px_clients p) u (px_log p), OForward v (outbound r) tr)
  end.

Definition serveRequest (e : around) p (r : Request) : Proxy St * outcome :=
  let host := Hostname (r_URL r) in
  let port := URL_Port (r_URL r) in
  let scheme := u_Scheme (r_URL r) in
  if bool_decide (scheme = str "http") then checkAndForward e p r (if bool_decide (port = []) then str "80" else port)
  else if bool_decide (scheme = str "https") then checkAndForward e p r (if bool_decide (port = []) then str "443" else port)
  else (logDecision p (at_log e) r (clientAddr r) host port (denied [] [] (RScheme (clip scheme 16))), OAnswer deny).

(** [handler.ServeHTTP] *)
Definition ServeHTTP (e : around) p (w : hijackable) (r : Request) : Proxy St * outcome :=
  if bool_decide (r_Method r = str "CONNECT") then serveConnect e p w r
  else if IsAbs (r_URL r) then serveRequest e p r
  else (logDecision p (at_log e) r (clientAddr r) (r_Host r) [] (denied [] [] (RText (str "not a proxy request"))), OAnswer notAProxyRequest).

(** *** After the dial *)

(** What [tunnel] does to the two connections. [ECopy]: the goroutine copies
    until the tunnel ends, which closes both, and then closes the client's. *)
Inductive effect := EWriteClient (s : gostring) | EWriteUpstream (s : gostring) | ECloseClient | ECloseUpstream | ECopy (idle : Z).

(** [tunnel], given the result of the dial and of the two writes. *)
Definition tunnel p (now : Z) (r : Request) (early : gostring) (v : vetted) (dialed : result nat) (wrote wroteEarly : result unit) : Proxy St * list effect :=
  match dialed with
  | Err e => (logUpstreamError p now r (v_host v) e, [EWriteClient badGatewayConnect; ECloseClient])
  | Ok _ =>
      let '(major, minor) := if fst (r_Proto r) =? 0 then (1, 1) else r_Proto r in
      let hello := EWriteClient (str "HTTP/" ++ Itoa major ++ str "." ++ Itoa minor ++ str " 200 Connection established" ++ crlf ++ crlf) in
      match wrote with
      | Err _ => (p, [hello; ECloseClient; ECloseUpstream])
      | Ok _ =>
          if bool_decide (early = []) then (p, [hello; ECopy (v_idle v); ECloseClient])
          else match wroteEarly with
               | Err _ => (p, [hello; EWriteUpstream early; ECloseClient; ECloseUpstream])
               | Ok _ => (p, [hello; EWriteUpstream early; ECopy (v_idle v); ECloseClient])
               end
      end
  end.

(** *** After the round trip *)

(** The reply to a plain request: the proxy's own, or the upstream's status,
    header and trailers, flushed chunk by chunk or not. *)
Inductive reply := RAnswer (a : Answer) | RRelay (status : Z) (header trailers : Header) (flush : bool).

(** [bodyWriter]: whether every chunk is flushed. *)
Definition bodyWriter (resp : Response) : bool := negb (0 <=? rs_ContentLength resp).

(** [badGateway] *)
Definition badGateway p (now : Z) (r : Request) (host : gostring) (err : error) : Proxy St * reply :=
  (logUpstreamError p now r host err, RAnswer badGatewayAnswer).

(** The rest of [serveRequest]; [resp] is what the transport returned. *)
Definition finishRequest p (now : Z) (r : Request) (resp : result Response) : Proxy St * reply :=
  let host := Hostname (r_URL r) in
  match resp with
  | Err e => badGateway p now r host e
  | Ok resp =>
      if rs_StatusCode resp =? StatusSwitchingProtocols then badGateway p now r host errUpgradeNotSupported
      else (p, RRelay (rs_StatusCode resp) (removeHopByHop (rs_Header resp)) (kmap (fun k => str "Trailer:" ++ k) (rs_Trailer resp)) (bodyWriter resp))
  end.
End handlers.
