(* ===== verification/ProxyFacts.v ===== *)
(** * The request handlers of internal/proxy

    The shared state of the proxy as a transition system of the small steps that
    goroutines take, and the handlers as sequences of such steps with the other
    goroutines' steps in between. Every connection the proxy makes is to an
    address that the client's subnet allows, and the answers of the proxy itself
    say nothing about why a request was refused. *)

From Stdlib Require Import ZArith NArith Ascii String Lia Bool List.
From stdpp Require Import base tactics list gmap strings option sets fin_maps relations.
From S2P Require Import Prelude GoStrings Netip AddrText GoFloat Regexp Rules Policy Limits AddrFacts HostFacts.
From S2P Require Import HostPort PolicyFacts LimitsFacts TrackerFacts Dial DialFacts Config ConfigFacts Upstream UpstreamFacts Http Proxy.

Local Open Scope Z_scope.

Section handlers.
Context {St : Type} `{!Resolver St} (Enabled : Z -> bool) (valid : Config -> Prop).
Implicit Type p : Proxy St.

(** ** The shared state *)

(** One step of some goroutine: an operation of the tracker, of the pools or of
    the resolver, a line in the log, a config reload. [valid] are the configs
    that may be loaded. *)
Inductive act p : Proxy St -> Prop :=
| act_tracker now l t : is_acquire l = false -> LimitsFacts.step (px_clients p) now l t -> act p (with_clients p t)
| act_acquire now a s t r :
    SubnetOf (cfg_Policy (px_config p)) a = Some s ->
    Acquire (px_clients p) now a (ClientLimits (px_config p) (Some s)) (TotalConnections (px_config p)) = (t, r) -> act p (with_clients p t)
| act_write l : act p (write p l)
| act_lookup ctx network host :
    act p (mkProxy (px_config p) (fst (LookupNetIP ctx network host (px_resolver p))) (px_clients p) (px_upstream p) (px_log p))
| act_transport now order scheme v :
    visits (px_upstream p) order -> good_scheme scheme -> good_dest v ->
    act p (mkProxy (px_config p) (px_resolver p) (px_clients p) (fst (transport (px_upstream p) now order scheme v)) (px_log p))
| act_sweep now order :
    visits (px_upstream p) order ->
    act p (mkProxy (px_config p) (px_resolver p) (px_clients p) (Upstream.sweep (px_upstream p) now order) (px_log p))
| act_reload cfg : valid cfg -> act p (mkProxy cfg (px_resolver p) (px_clients p) (px_upstream p) (px_log p)).

Inductive proxy_reach : Proxy St -> Prop :=
| px_new cfg st : valid cfg -> proxy_reach (NewProxy cfg st)
| px_act p p' : proxy_reach p -> act p p' -> proxy_reach p'.

Abbreviation acts := (rtc act).

Lemma acts_reach p p' : proxy_reach p -> acts p p' -> proxy_reach p'.
Proof. intros Hp. induction 1 as [|p p1 p' Ha _ IH]; [done|]. apply IH. by eapply px_act. Qed.

Lemma reach_pools p : proxy_reach p -> pools_reach (px_upstream p).
Proof. induction 1 as [cfg st _|p p' _ IH Ha]; [constructor|]. destruct Ha; try done; by constructor. Qed.

Lemma reach_tracker p : proxy_reach p -> tracker_inv (px_clients p).
Proof.
  induction 1 as [cfg st _|p p' _ IH Ha]; [apply tracker_inv_new|]. destruct Ha; try done.
  - by eapply step_inv.
  - by eapply Acquire_inv.
Qed.

(** *** Logging takes such steps *)

Lemma act_Log p now a action host t ok : Log (px_clients p) now a action host = (t, ok) -> acts p (with_clients p t).
Proof. intros H. apply rtc_once. eapply act_tracker; [|by eapply step_log]. done. Qed.

Lemma act_LogUnknown p now a t ok : LogUnknown (px_clients p) now a = (t, ok) -> acts p (with_clients p t).
Proof. intros H. apply rtc_once. eapply act_tracker; [|by eapply step_log_unknown]. done. Qed.

Lemma act_Allow p now a lim t ok : Limits.Allow (px_clients p) now a lim = (t, ok) -> acts p (with_clients p t).
Proof. intros H. apply rtc_once. eapply act_tracker; [|by eapply step_allow]. done. Qed.

Lemma acts_write p p' l : acts p p' -> acts p (write p' l).
Proof. intros H. etrans; [exact H|]. apply rtc_once, act_write. Qed.

#[local] Hint Resolve act_Log act_LogUnknown act_Allow acts_write rtc_refl : goacl.

Lemma sample_acts p now lvl client action host p' ok : sample Enabled p now lvl client action host = (p', ok) -> acts p p'.
Proof. unfold sample. destruct (negb (Enabled lvl)); [by intros [= <- _]|]. destruct (Log _ _ _ _ _) as [t o] eqn:E. intros [= <- _]. eauto with goacl. Qed.

Lemma logDecision_acts p now r client host port d : acts p (logDecision Enabled p now r client host port d).
Proof.
  unfold logDecision. destruct (if Policy.Allow d then _ else _) as [[action msg] lvl].
  destruct (sample _ _ _ _ _ _ _) as [p' ok] eqn:E. apply sample_acts in E. destruct ok; auto with goacl.
Qed.

Lemma logRejected_acts p now client subnet reason : acts p (logRejected Enabled p now client subnet reason).
Proof.
  unfold logRejected. destruct (negb _); [done|]. destruct (if bool_decide _ then _ else _) as [t ok] eqn:E.
  assert (acts p (with_clients p t)) by (revert E; case_bool_decide; eauto with goacl). destruct ok; auto with goacl.
Qed.

Lemma logUpstreamError_acts p now r host e : acts p (logUpstreamError Enabled p now r host e).
Proof.
  unfold logUpstreamError. destruct (sample _ _ _ _ _ _ _) as [p' ok] eqn:E. apply sample_acts in E. destruct ok; auto with goacl.
Qed.

#[local] Hint Resolve logDecision_acts logRejected_acts logUpstreamError_acts : goacl.

(** *** So do maintenance, the listener and the ends of requests *)

Lemma maintain_acts p now cs os order :
  cs ≡ₚ map_to_list (clients (px_clients p)) -> os ≡ₚ map_to_list (overflow (px_clients p)) -> visits (px_upstream p) order ->
  acts p (maintain_tick Enabled p now cs os order).
Proof.
  intros Hcs Hos Hv. unfold maintain_tick, sweep_log. destruct (Sweep _ _ _ _) as [t out] eqn:E.
  assert (Ht : acts p (with_clients p t)) by (apply rtc_once; eapply act_tracker; [|by eapply step_sweep]; done).
  assert (H : forall q, acts p q -> px_upstream q = px_upstream p ->
    let q' := fold_left (write_summary Enabled) out q in
    acts p q' /\ px_upstream q' = px_upstream p).
  { clear -Ht. induction out as [|s out IH]; intros q Hq Hu; [done|]. cbn [fold_left]. apply IH; unfold write_summary; destruct (Enabled _); auto with goacl. }
  destruct (H _ Ht eq_refl) as [Hq Hu]. etrans; [exact Hq|]. apply rtc_once, act_sweep. rewrite <- Hu in Hv. exact Hv.
Qed.

Lemma admit_acts p t1 t2 remote : acts p (fst (Proxy_admit Enabled p t1 t2 remote)).
Proof.
  unfold Proxy_admit. destruct (SubnetOf _ _) as [s|] eqn:Es; [|apply logRejected_acts]. destruct (Acquire _ _ _ _ _) as [t o] eqn:E.
  assert (Ht : acts p (with_clients p t)) by (eapply rtc_once, act_acquire; done). destruct o as [release|e]; [done|].
  cbn [fst]. etrans; [exact Ht|auto with goacl].
Qed.

Lemma close_acts p now i : acts p (clientConn_Close p now i).
Proof. eapply rtc_once, act_tracker; [|apply step_release]. done. Qed.

Lemma tunnel_acts p now r early v dialed w1 w2 : acts p (fst (tunnel Enabled p now r early v dialed w1 w2)).
Proof.
  unfold tunnel. destruct dialed; [|apply logUpstreamError_acts]. destruct (if fst (r_Proto r) =? 0 then (1, 1) else r_Proto r) as [major minor].
  destruct w1; [|apply rtc_refl]. case_bool_decide; [apply rtc_refl|]. destruct w2; apply rtc_refl.
Qed.

(** On every path a tunnel closes the client's connection, which frees its slot,
    and the upstream's if there is one; only the copy runs in between. *)
Lemma tunnel_closes p now r early v dialed w1 w2 :
  let effects := snd (tunnel Enabled p now r early v dialed w1 w2) in
  ECloseClient ∈ effects /\ (is_ok dialed = true -> ECloseUpstream ∈ effects \/ ECopy (v_idle v) ∈ effects).
Proof.
  unfold tunnel. destruct dialed; [|split; [set_solver|done]]. destruct (if fst (r_Proto r) =? 0 then (1, 1) else r_Proto r) as [major minor].
  destruct w1; [case_bool_decide; [|destruct w2]|]; cbn [snd]; (split; [set_solver|intros _; set_solver]).
Qed.

Lemma finishRequest_acts p now r resp : acts p (fst (finishRequest Enabled p now r resp)).
Proof. unfold finishRequest, badGateway. destruct resp as [resp|]; [destruct (_ =? _)|]; cbn [fst]; auto with goacl. Qed.

(** ** Approval *)

(** What the other goroutines do while a request is handled. *)
Record wf_around (e : around (St := St)) : Prop := {
  others_lookup : forall q, acts q (before_lookup e q);
  others_use : forall q, acts q (before_use e q);
  order_visits : forall u, visits u (pool_order e u)
}.

(** The client of [r] may send a request to [host] and [port], and [v] is what
    the policy checked for it: the rate limit admits the request, the client is
    in a subnet, and the subnet's decision, made with the resolver as it was at
    the time, is to allow. *)
Definition approved (e : around) p (r : Request) (host port : gostring) (v : vetted) : Prop :=
  exists s, SubnetOf (cfg_Policy (px_config p)) (clientAddr r) = Some s /\
    let '(t, ok) := Limits.Allow (px_clients p) (at_allow e) (clientAddr r) (ClientLimits (px_config p) (Some s)) in
    ok = true /\
    let d := snd (Check s (WithClient (mkCtx None (ctx_time e)) (clientAddr r)) host port (px_resolver (before_lookup e (with_clients p t)))) in
    Policy.Allow d = true /\ v = mkVetted host (Port d) (Addrs d) (TunnelIdleTimeout (ClientLimits (px_config p) (Some s))).

(** The lookup for the request has been made by the time the state is [p']. *)
Definition after_lookup (e : around) p (r : Request) (host port : gostring) p' : Prop :=
  exists s q, SubnetOf (cfg_Policy (px_config p)) (clientAddr r) = Some s /\ acts q p' /\
    px_resolver q = fst (Check s (WithClient (mkCtx None (ctx_time e)) (clientAddr r)) host port
      (px_resolver (before_lookup e (with_clients p (fst (Limits.Allow (px_clients p) (at_allow e) (clientAddr r) (ClientLimits (px_config p) (Some s)))))))).

Lemma after_lookup_acts e p r host port p' p'' : after_lookup e p r host port p' -> acts p' p'' -> after_lookup e p r host port p''.
Proof. intros (s & q & Hs & Hq & Hr) H. exists s, q. split_and!; [done|by etrans|done]. Qed.

(** The resolver after a decision: as it was, or after one lookup. *)
Lemma check_state_acts p s ctx host port :
  acts p (mkProxy (px_config p) (fst (Check s ctx host port (px_resolver p))) (px_clients p) (px_upstream p) (px_log p)).
Proof.
  destruct (Check_state s ctx host port (px_resolver p)) as [->|(ctx' & name & ->)]; [by destruct p|]. apply rtc_once, act_lookup.
Qed.

Lemma check_spec e p r host port p' res :
  wf_around e -> check Enabled e p r host port = (p', res) ->
  acts p p' /\
  match res with
  | inl a => (a = deny \/ a = tooManyRequests) /\ forall v, ~ approved e p r host port v
  | inr v => approved e p r host port v /\ after_lookup e p r host port p'
  end.
Proof.
  intros He. unfold check, approved, after_lookup. destruct (SubnetOf _ _) as [s|]; destruct (Limits.Allow _ _ _ _) as [t ok] eqn:El;
    pose proof (act_Allow _ _ _ _ _ _ El) as Hl0; destruct ok; cbn [negb].
  2-4: intros [= <- <-]; (split; [etrans; [exact Hl0|auto with goacl]|split; [auto|]]); intros v (s' & Hs' & Hv);
    first [discriminate Hs'|injection Hs' as <-; rewrite El in Hv; by destruct Hv].
  destruct (Check s _ host port _) as [st d] eqn:Ec.
  assert (Hl : acts p (mkProxy (px_config (before_lookup e (with_clients p t))) st (px_clients (before_lookup e (with_clients p t)))
    (px_upstream (before_lookup e (with_clients p t))) (px_log (before_lookup e (with_clients p t))))).
  { etrans; [exact Hl0|]. etrans; [apply (others_lookup _ He)|]. pose proof (check_state_acts (before_lookup e (with_clients p t)) s (WithClient (mkCtx None (ctx_time e)) (clientAddr r)) host port) as Hc.
    by rewrite Ec in Hc. }
  destruct (Policy.Allow d) eqn:Ea; cbn [negb]; intros [= <- <-]; (split; [etrans; [exact Hl|apply logDecision_acts]|]);
    [|split; [by left|]; intros v (s' & [= <-] & Hv); rewrite El in Hv; cbv zeta in Hv; rewrite Ec in Hv; destruct Hv as (_ & Hv & _); cbn [snd] in Hv; congruence].
  split.
  - exists s. split; [done|]. cbv zeta. rewrite El. by rewrite Ec.
  - eexists s, (mkProxy _ st _ _ _). split; [done|]. split; [apply logDecision_acts|]. rewrite El. cbn [fst px_resolver]. by rewrite Ec.
Qed.

(** The addresses a resolver returns fit their width, which their type
    guarantees in Go. *)
Definition wf_resolver : Prop :=
  forall ctx network host st st' found, LookupNetIP ctx network host st = (st', Ok found) -> Forall (fun a => wf_addr a = true) found.

Lemma addresses_plain ctx host dst (st : St) addrs :
  wf_resolver -> parseHost host = Ok dst -> addresses ctx dst st = Ok addrs -> Forall plain_addr addrs.
Proof.
  intros Hwf Hh Ha. destruct (addresses_usable _ _ _ _ _ Hh Ha) as [_ Hu].
  assert (Hw : Forall (fun a => wf_addr a = true) addrs).
  { revert Ha. unfold addresses, resolve. apply parseHost_shape in Hh as [(Hn & _ & _ & Hw)|(Hn & _)].
    - rewrite bool_decide_true by done. intros [= <-]. by repeat constructor.
    - rewrite bool_decide_false by done. destruct (LookupNetIP _ _ _ _) as [st' [found|]] eqn:E; simpl; [|done].
      case_bool_decide; [done|]. intros [-> _]%usable_addrs_Ok. apply Hwf in E. apply Forall_fmap. eapply Forall_impl; [exact E|].
      intros a. apply Unmap_wf. }
  clear -Hw Hu. induction Hu as [|a addrs [H1 H2] _ IH]; [constructor|]. apply Forall_cons_iff in Hw as [H3 Hw]. constructor; [done|by apply IH].
Qed.

(** What an approval means for the vetted destination. *)
Lemma approved_spec e p r host port v :
  wf_resolver -> approved e p r host port v ->
  exists s, SubnetOf (cfg_Policy (px_config p)) (clientAddr r) = Some s /\ good_dest v /\ Forall (addr_ok s) (v_addrs v) /\
    allowsPort s (v_port v) = true /\ v_host v = host /\ exists dst, parseHost host = Ok dst.
Proof.
  intros Hwf (s & Hs & Ha). exists s. split; [done|]. destruct (Limits.Allow _ _ _ _) as [t ok]. destruct Ha as (_ & Ha & ->).
  apply Check_allow in Ha as (dst & n & rule & addrs & (Hh & Hp & _ & _ & Hport) & Hadd & Hok & ->). cbn [Port Addrs v_addrs v_port v_host].
  destruct (addresses_usable _ _ _ _ _ Hh Hadd) as [Hne _]. pose proof (parsePort_bounds _ _ Hp) as Hn. split_and!; try done.
  - split; cbn [v_host v_port v_addrs]; [by eapply parseHost_no_bar|lia|done|by eapply addresses_plain].
  - by apply allowsPort_true.
  - eauto.
Qed.

(** The text a tunnel dials passes the guard of [vetted.dial]. *)
Lemma approved_guard e p r host port v :
  wf_resolver -> approved e p r host port v -> dial_guard v (JoinHostPort (v_host v) (Itoa (v_port v))) = true.
Proof.
  intros Hwf (s & _ & [_ Hp Hne _] & _ & _ & Ev & dst & Hh)%approved_spec; [|done]. unfold dial_guard.
  rewrite SplitHostPort_Join; [|rewrite Ev; by eapply parseHost_no_brackets|apply Itoa_no_special; lia].
  by rewrite (bool_decide_true (v_host v = v_host v)), (bool_decide_true (Itoa _ = _)), (bool_decide_false (v_addrs v = [])).
Qed.

(** ** The handlers *)

(** The port a plain request is for. *)
Definition effective_port (r : Request) : option gostring :=
  let port := URL_Port (r_URL r) in
  if bool_decide (u_Scheme (r_URL r) = str "http") then Some (if bool_decide (port = []) then str "80" else port)
  else if bool_decide (u_Scheme (r_URL r) = str "https") then Some (if bool_decide (port = []) then str "443" else port)
  else None.

Lemma effective_scheme r port : effective_port r = Some port -> good_scheme (u_Scheme (r_URL r)).
Proof. unfold effective_port. case_bool_decide as H; [intros _|case_bool_decide as H1; [intros _|done]]; rewrite ?H, ?H1; by apply ContainsByte_false. Qed.

(** The host and port a request is for: those of the authority of a CONNECT, or
    those of an absolute URL with a scheme the proxy speaks. *)
Definition asked (r : Request) (host port : gostring) : Prop :=
  if bool_decide (r_Method r = str "CONNECT") then SplitHostPort (u_Host (r_URL r)) = Ok (host, port)
  else IsAbs (r_URL r) = true /\ host = Hostname (r_URL r) /\ effective_port r = Some port.

(** A request that is refused: no approval for what it asked for exists. *)
Definition refused (e : around) p (r : Request) : Prop := forall host port v, asked r host port -> ~ approved e p r host port v.

Definition fixed_answer (a : Answer) : Prop := a = deny \/ a = tooManyRequests \/ a = notAProxyRequest.

(** What each outcome of a handler says about the request. *)
Definition outcome_spec (e : around) p (w : hijackable) (r : Request) p' (o : outcome) : Prop :=
  match o with
  | OAnswer a => fixed_answer a /\ refused e p r
  | ODropped closed => exists host port v err, asked r host port /\ approved e p r host port v /\ hijack w = inr (err, closed)
  | OTunnel v addr early =>
      addr = JoinHostPort (v_host v) (Itoa (v_port v)) /\ hijack w = inl early /\
      exists host port, SplitHostPort (u_Host (r_URL r)) = Ok (host, port) /\ asked r host port /\ approved e p r host port v /\ after_lookup e p r host port p'
  | OForward v out tr =>
      out = outbound r /\
      (exists port, effective_port r = Some port /\ asked r (Hostname (r_URL r)) port /\
        approved e p r (Hostname (r_URL r)) port v /\ after_lookup e p r (Hostname (r_URL r)) port p') /\
      exists q, acts p q /\ tr = snd (roundTrip (px_upstream q) (at_pool e) (pool_order e (px_upstream q)) (u_Scheme (r_URL r)) (Some v))
  end.

Lemma approved_port e p r host port v : approved e p r host port v -> port <> [].
Proof.
  intros (s & _ & Ha) ->. destruct (Limits.Allow _ _ _ _) as [t ok]. destruct Ha as (_ & Ha & _).
  by apply Check_allow in Ha as (dst & n & rule & addrs & (_ & Hp & _) & _).
Qed.

Lemma serveConnect_spec e p w r p' o :
  wf_around e -> r_Method r = str "CONNECT" -> serveConnect Enabled e p w r = (p', o) -> acts p p' /\ outcome_spec e p w r p' o.
Proof.
  intros He Hm. assert (Hask : forall host port, asked r host port <-> SplitHostPort (u_Host (r_URL r)) = Ok (host, port)).
  { intros host port. unfold asked. by rewrite bool_decide_true. }
  unfold serveConnect. destruct (SplitHostPort _) as [[host port]|err] eqn:Es;
    destruct (check _ _ _ _ _ _) as [p1 res] eqn:Ec; apply check_spec in Ec as (Hc & Hr); try done.
  - destruct res as [a|v].
    + intros [= <- <-]. split; [done|]. destruct Hr as [Ha Hno]. split; [unfold fixed_answer; tauto|]. intros h q v Hq%Hask. by injection Hq as <- <-.
    + destruct Hr as [Ha Hl]. destruct (hijack w) as [early|[err closed]] eqn:Eh; intros [= <- <-].
      * split; [done|]. split_and!; [done..|]. exists host, port. split_and!; try done. by apply Hask.
      * split; [destruct (Enabled DebugLevel); auto with goacl|]. exists host, port, v, err. split_and!; [by apply Hask|done|done].
  - destruct res as [a|v]; [|by destruct Hr as [?%approved_port _]].
    intros [= <- <-]. split; [done|]. destruct Hr as [Ha _]. split; [unfold fixed_answer; tauto|]. by intros h q v Hq%Hask.
Qed.

Lemma roundTrip_acts p now order scheme v :
  visits (px_upstream p) order -> good_scheme scheme -> good_dest v ->
  acts p (mkProxy (px_config p) (px_resolver p) (px_clients p) (fst (roundTrip (px_upstream p) now order scheme (Some v))) (px_log p)).
Proof.
  intros Hv Hs Hg. unfold roundTrip. rewrite bool_decide_false by apply Hg. apply rtc_once.
  replace (fst (let '(u, tr) := _ in _)) with (fst (transport (px_upstream p) now order scheme v)) by (by destruct (transport _ _ _ _ _)).
  by apply act_transport.
Qed.

Lemma checkAndForward_spec e p w r port p' o :
  wf_resolver -> wf_around e -> (forall host q, asked r host q <-> host = Hostname (r_URL r) /\ q = port) -> effective_port r = Some port ->
  checkAndForward Enabled e p r port = (p', o) -> acts p p' /\ outcome_spec e p w r p' o.
Proof.
  intros Hwf He Hask Hport. unfold checkAndForward, outcome_spec. destruct (check _ _ _ _ _ _) as [p2 res] eqn:Ec.
  apply check_spec in Ec as (Hc & Hr); [|done]. destruct res as [a|v].
  { intros [= <- <-]. split; [done|]. destruct Hr as [Ha Hno]. split; [unfold fixed_answer; tauto|]. by intros h q v [-> ->]%Hask. }
  assert (Hu : acts p (before_use e p2)) by (etrans; [exact Hc|apply (others_use _ He)]).
  destruct (roundTrip _ _ _ _ _) as [u tr] eqn:Er. intros [= <- <-]. destruct Hr as [Hr Hlook].
  pose proof (approved_spec _ _ _ _ _ _ Hwf Hr) as (_ & _ & Hg & _). pose proof (roundTrip_acts (before_use e p2) (at_pool e) _ _ v (order_visits _ He _) (effective_scheme _ _ Hport) Hg) as Ha.
  rewrite Er in Ha. split; [by etrans|]. split_and!; [done| |exists (before_use e p2); by rewrite Er]. exists port. split_and!; [done|by apply Hask|done|].
  eapply after_lookup_acts; [exact Hlook|]. etrans; [apply (others_use _ He)|exact Ha].
Qed.

Lemma serveRequest_spec e p w r p' o :
  wf_resolver -> wf_around e -> r_Method r <> str "CONNECT" -> IsAbs (r_URL r) = true ->
  serveRequest Enabled e p r = (p', o) -> acts p p' /\ outcome_spec e p w r p' o.
Proof.
  intros Hwf He Hm Habs. assert (Hask : forall host q, asked r host q <-> host = Hostname (r_URL r) /\ effective_port r = Some q).
  { intros host q. unfold asked. rewrite bool_decide_false by done. tauto. }
  unfold serveRequest. destruct (effective_port r) as [port|] eqn:Ep.
  - assert (Hask' : forall host q, asked r host q <-> host = Hostname (r_URL r) /\ q = port) by (intros host q; rewrite Hask; naive_solver).
    pose proof Ep as Ep'. unfold effective_port in Ep. do 2 (case_bool_decide; [injection Ep as <-; by apply checkAndForward_spec|]). done.
  - unfold effective_port in Ep. do 2 (case_bool_decide; [done|]). intros [= <- <-]. split; [auto with goacl|]. split; [by left|]. intros h q v Hq%Hask. by destruct Hq.
Qed.

Lemma ServeHTTP_spec e p w r p' o :
  wf_resolver -> wf_around e -> ServeHTTP Enabled e p w r = (p', o) -> acts p p' /\ outcome_spec e p w r p' o.
Proof.
  intros Hwf He. unfold ServeHTTP. case_bool_decide as Hm; [by apply serveConnect_spec|]. destruct (IsAbs (r_URL r)) eqn:Ha; [by apply serveRequest_spec|].
  intros [= <- <-]. split; [auto with goacl|]. split; [by right; right|]. intros h q v Hq. unfold asked in Hq. rewrite bool_decide_false in Hq by done. by destruct Hq as [Hq _]; rewrite Ha in Hq.
Qed.

(** ** What the proxy connects to *)

(** The subnet of the request's client allows connections to [text]: an
    address that no deny rule covers and that is public or explicitly allowed,
    at a port of the subnet's list. *)
Definition allowed_target p (r : Request) (text : gostring) : Prop :=
  exists s a n, SubnetOf (cfg_Policy (px_config p)) (clientAddr r) = Some s /\ text = AddrPort_String a n /\ addr_ok s a /\ allowsPort s n = true.

(** The dials an outcome can lead to. *)
Definition dials (o : outcome) (v : vetted) (addr : gostring) : Prop :=
  match o with
  | OTunnel v' addr' _ => v = v' /\ addr = addr'
  | OForward _ _ (Ok tr) => v = tr_DialContext tr
  | _ => False
  end.

Lemma approved_target e p r host port v text :
  wf_resolver -> approved e p r host port v -> vetted_addr v text -> allowed_target p r text.
Proof.
  intros Hwf (s & Hs & _ & Hok & Hport & _)%approved_spec; [|done]. intros (a & Ha & ->). exists s, a, (v_port v). split_and!; try done.
  apply list_elem_of_In in Ha. by apply (proj1 (List.Forall_forall _ _) Hok).
Qed.

(** The host a request that leads to a dial is for. *)
Definition requested_host (o : outcome) (r : Request) : gostring :=
  match o with
  | OTunnel _ _ _ => match SplitHostPort (u_Host (r_URL r)) with Ok (host, _) => host | Err _ => [] end
  | _ => Hostname (r_URL r)
  end.

(** Whatever is dialed was approved for this request. *)
Lemma dials_approved e p w r p' o v addr :
  wf_resolver -> wf_around e -> proxy_reach p -> ServeHTTP Enabled e p w r = (p', o) -> dials o v addr ->
  exists v0 port, approved e p r (requested_host o r) port v0 /\ after_lookup e p r (requested_host o r) port p' /\
    forall text, vetted_addr v text -> vetted_addr v0 text.
Proof.
  intros Hwf He Hreach Hs Hd. apply ServeHTTP_spec in Hs as [_ Ho]; [|exact Hwf|exact He]. destruct o as [a|closed|v' addr' early|v' out tr]; try contradiction.
  - destruct Hd as [-> ->]. destruct Ho as (_ & _ & host & port & Hsp & _ & Ha & Hl). exists v', port. unfold requested_host. by rewrite Hsp.
  - destruct Ho as (_ & (port & Hp & _ & Ha & Hl) & q & Hq & Hr). destruct tr as [tr|]; [|contradiction]. simpl in Hd. subst v.
    pose proof (approved_spec _ _ _ _ _ _ Hwf Ha) as (_ & _ & Hg & _). exists v', port. split; [done|]. split; [done|]. intros text.
    eapply transport_vetted; [apply reach_pools; by eapply acts_reach|by eapply effective_scheme|exact Hg|by symmetry].
Qed.

(** C1: every connection the proxy makes for a request, through a tunnel or a pooled transport, is to an address the client's subnet allows: whatever the proxy did before, whatever other goroutines do in the meantime, whatever config it runs, and whatever the network does, each address dialed and the peer of each connection is an address that no deny rule of the client's subnet covers and that is public or explicitly allowed, at a port in the subnet's list. *)
Theorem every_connection_allowed e p w r p' o v addr t done parent n s :
  wf_resolver -> wf_around e -> proxy_reach p -> ServeHTTP Enabled e p w r = (p', o) -> dials o v addr -> dial v addr t done parent n s ->
  Forall (fun c => allowed_target p r (c_addr c)) (calls (shared s)) /\ Forall (fun c => allowed_target p r (fst c)) (Dial.conns (shared s)).
Proof.
  intros Hwf He Hreach Hs Hd Hdial. destruct (dials_approved _ _ _ _ _ _ _ _ Hwf He Hreach Hs Hd) as (v0 & port & Ha & _ & Hv).
  apply dial_vetted in Hdial as [Hc Hn].
  split; [eapply Forall_impl; [exact Hc|]; intros c [H _]|eapply Forall_impl; [exact Hn|]; intros c H]; by eapply approved_target; [|exact Ha|apply Hv].
Qed.

(** C2: nothing gets past the checks: a request leads to a dial or goes upstream only if the rate limit admits it, its client is in a subnet and that subnet's decision on exactly the requested host and port is to allow, and then only with the addresses of that decision, stripped of hop-by-hop headers if it is forwarded, and a tunnel's dial is never refused as unvetted. A request is refused exactly when it is not approved in this way, with one of three fixed answers (403, 429, 400), which do not depend on why it was refused (an approved one may still get a 502 later, when the upstream fails). An approved CONNECT is left without an answer only when its connection could not be taken over, or was and its read-ahead bytes could not be read. *)
Theorem requests_mediated e p w r p' o :
  wf_resolver -> wf_around e -> ServeHTTP Enabled e p w r = (p', o) ->
  match o with
  | OAnswer a => (a = deny \/ a = tooManyRequests \/ a = notAProxyRequest) /\ forall host port v, asked r host port -> ~ approved e p r host port v
  | ODropped closed => exists host port v err, asked r host port /\ approved e p r host port v /\ hijack w = inr (err, closed)
  | OTunnel v addr early => dial_guard v addr = true /\ hijack w = inl early /\
      exists host port, asked r host port /\ approved e p r host port v
  | OForward v out tr => out = outbound r /\ is_ok tr = true /\
      exists host port, asked r host port /\ approved e p r host port v
  end.
Proof.
  intros Hwf He [_ Ho]%ServeHTTP_spec; [|done..]. destruct o as [a|closed|v addr early|v out tr]; [done|done| |].
  - destruct Ho as (-> & Hj & host & port & _ & Hq & Ha & _). split; [by eapply approved_guard|eauto].
  - destruct Ho as (-> & (port & Hp & Hq & Ha & _) & q & _ & ->). split_and!; eauto. apply approved_spec in Ha as (s & _ & Hg & _); [|done].
    unfold roundTrip. rewrite bool_decide_false by apply Hg. by destruct (transport _ _ _ _ _).
Qed.
End handlers.

(** ** Witnesses: a proxy with one subnet and a resolver that knows two names *)

#[local] Instance example_resolver : Resolver (list gostring) := logging_resolver.

Lemma example_resolver_wf : wf_resolver (St := list gostring) (Resolver0 := example_resolver).
Proof.
  intros ctx network host st st' found. unfold LookupNetIP, example_resolver, logging_resolver. case_bool_decide; [|case_bool_decide].
  3: intros [=].
  all: intros [= _ <-]; apply Forall_singleton; vm_compute; reflexivity.
Qed.

(** Other goroutines write to the log meanwhile. *)
Definition example_around : around (St := list gostring) :=
  mkAround 0 1 2 None (fun u => (map_to_list (pools u)).*1) (fun p => write p (LRejected [] [] [])) (fun p => p).

Lemma example_around_wf : wf_around (fun _ => True) example_around.
Proof. split; [|intros q; apply rtc_refl|unfold visits; reflexivity]. intros q. apply rtc_once, act_write. Qed.

Definition connect_request : Request :=
  mkRequest (str "CONNECT") (mkURL [] (str "WWW.example.com:443")) (1, 1) (str "WWW.example.com:443") (str "10.0.20.5:4242") ∅ [] false.
Definition get_request : Request :=
  mkRequest (str "GET") (mkURL (str "http") (str "www.example.com:443")) (1, 1) (str "www.example.com:443") (str "10.0.20.5:4242") ∅ [] true.

Definition example_serve (r : Request) (cfg : Config) : Proxy (list gostring) * outcome :=
  ServeHTTP (Resolver0 := example_resolver) (fun _ => true) example_around (NewProxy cfg []) (mkHijackable true (Ok []) (Ok tt)) r.

Definition example_vetted (host : gostring) : vetted := mkVetted host 443 [Addr4 1572394766] (60 * Minute).
Definition same_vetted (v w : vetted) : bool :=
  bool_decide (v_host v = v_host w) && (v_port v =? v_port w) && bool_decide (v_addrs v = v_addrs w) && (v_idle v =? v_idle w).

Lemma same_vetted_true v w : same_vetted v w = true -> v = w.
Proof.
  unfold same_vetted. rewrite !andb_true_iff, !bool_decide_eq_true, !Z.eqb_eq. intros [[[H1 H2] H3] H4]. destruct v, w. simpl in *. congruence.
Qed.

(** Any dial of the example starts with a call. *)
Lemma example_dial host addr :
  dial_guard (example_vetted host) addr = true ->
  exists s, dial (example_vetted host) addr 0 None None 1 s /\ length (calls (shared s)) = 1%nat.
Proof.
  intros Hg. unfold dial. change (families (v_addrs (example_vetted host))) with ([Addr4 1572394766], @nil Addr).
  pose proof (run_refl [Addr4 1572394766] [] 443 (dial_deadline None 0) (dial_start (example_vetted host) addr 0 None)) as H.
  eexists. split.
  - eapply run_prog; [exact H|]. unfold dial_start. rewrite Hg. apply p_prim, d_call. reflexivity.
  - reflexivity.
Qed.

Lemma every_connection_allowed_witness :
  exists cfg s, toy_parse (str "good") = Ok cfg /\ length (calls (shared s)) = 1%nat /\
    Forall (fun c => allowed_target (St := list gostring) (NewProxy cfg []) connect_request (c_addr c)) (calls (shared s)).
Proof.
  destruct (config_test_true (str "good") (fun cfg => match snd (example_serve connect_request cfg) with
    | OTunnel v addr _ => same_vetted v (example_vetted (str "WWW.example.com")) && bool_decide (addr = str "WWW.example.com:443") | _ => false end)) as (cfg & Hc & Hs);
    [vm_compute; reflexivity|].
  destruct (example_serve connect_request cfg) as [p' o] eqn:Eo. cbn [snd] in Hs. destruct o as [a|closed|v addr early|v out tr]; try discriminate Hs.
  apply andb_true_iff in Hs as [->%same_vetted_true ->%bool_decide_eq_true].
  destruct (example_dial (str "WWW.example.com") (str "WWW.example.com:443")) as (s & Hd & Hl); [vm_compute; reflexivity|].
  exists cfg, s. split; [exact Hc|]. split; [exact Hl|].
  refine (proj1 (every_connection_allowed (Resolver0 := example_resolver) (fun _ => true) (fun _ => True) example_around _ _ connect_request p' _ _ _ _ _ _ _ s
    example_resolver_wf example_around_wf (px_new _ cfg [] I) Eo _ Hd)). split; reflexivity.
Defined.

Lemma requests_mediated_witness :
  exists cfg v out tr, toy_parse (str "good") = Ok cfg /\ snd (example_serve get_request cfg) = OForward v out tr /\
    r_Close out = false /\ approved (Resolver0 := example_resolver) example_around (NewProxy cfg []) get_request (str "www.example.com") (str "443") v.
Proof.
  destruct (config_test_true (str "good") (fun cfg => match snd (example_serve get_request cfg) with OForward _ _ _ => true | _ => false end)) as (cfg & Hc & Hs);
    [vm_compute; reflexivity|].
  destruct (example_serve get_request cfg) as [p' o] eqn:Eo. cbn [snd] in Hs. destruct o as [a|closed|v addr early|v out tr]; try discriminate Hs.
  destruct (requests_mediated (Resolver0 := example_resolver) (fun _ => true) (fun _ => True) example_around (NewProxy cfg []) (mkHijackable true (Ok []) (Ok tt)) get_request p' _ example_resolver_wf example_around_wf Eo)
    as (Hout & _ & host & port & Hp & Ha).
  change (true = true /\ host = str "www.example.com" /\ Some (str "443") = Some port) in Hp. destruct Hp as (_ & -> & [= <-]). exists cfg, v, out, tr. split; [exact Hc|]. split; [exact (f_equal snd Eo)|].
  split; [rewrite Hout; reflexivity|exact Ha].
Defined.
