(* ===== verification/HeaderFacts.v ===== *)
(** * Hop-by-hop headers of internal/proxy/proxy.go

    Exactly the headers that concern one connection are removed from what is
    forwarded, in both directions and whatever their spelling. *)

From Stdlib Require Import ZArith NArith Ascii String Lia Bool List.
From stdpp Require Import base tactics list gmap strings option sets fin_maps.
From S2P Require Import Prelude GoStrings Netip GoFloat Policy Limits Dial Config Http Proxy.

Local Open Scope Z_scope.

(** ** Names without regard to case *)

Definition EqualFold (a b : gostring) : Prop := to_lower_byte <$> a = to_lower_byte <$> b.

(** A check over all bytes. *)
Definition all_ascii (f : ascii -> bool) : bool := forallb (fun n => f (ascii_of_nat n)) (seq 0 256).

Lemma all_ascii_true f : all_ascii f = true -> forall c, f c = true.
Proof.
  unfold all_ascii. rewrite forallb_forall. intros H c. rewrite <- (ascii_nat_embedding c). apply H, in_seq.
  pose proof (nat_ascii_bounded c). lia.
Qed.

Lemma lower_valid c : validHeaderFieldByte (to_lower_byte c) = validHeaderFieldByte c.
Proof.
  apply eqb_prop. revert c. apply all_ascii_true. vm_compute. reflexivity.
Qed.

Lemma lower_dash c : Ascii.eqb (to_lower_byte c) "-" = Ascii.eqb c "-".
Proof. apply eqb_prop. revert c. apply all_ascii_true. vm_compute. reflexivity. Qed.

Lemma lower_upper c : to_upper_byte (to_lower_byte c) = to_upper_byte c.
Proof. apply Ascii.eqb_eq. revert c. apply all_ascii_true. vm_compute. reflexivity. Qed.

Lemma upper_lower c : to_lower_byte (to_upper_byte c) = to_lower_byte c.
Proof. apply Ascii.eqb_eq. revert c. apply all_ascii_true. vm_compute. reflexivity. Qed.

Lemma lower_lower c : to_lower_byte (to_lower_byte c) = to_lower_byte c.
Proof. apply Ascii.eqb_eq. revert c. apply all_ascii_true. vm_compute. reflexivity. Qed.

Lemma canonical_lower b s : canonical_bytes b (to_lower_byte <$> s) = canonical_bytes b s.
Proof. revert b. induction s as [|c s IH]; intros b; [done|]. cbn [fmap list_fmap canonical_bytes]. rewrite lower_dash, IH, lower_upper, lower_lower. done. Qed.

Lemma lower_canonical b s : to_lower_byte <$> canonical_bytes b s = to_lower_byte <$> s.
Proof. revert b. induction s as [|c s IH]; intros b; [done|]. cbn [canonical_bytes fmap list_fmap]. rewrite IH. by destruct b; rewrite ?upper_lower, ?lower_lower. Qed.

Lemma forallb_lower s : forallb validHeaderFieldByte (to_lower_byte <$> s) = forallb validHeaderFieldByte s.
Proof. induction s as [|c s IH]; [done|]. cbn [fmap list_fmap forallb]. by rewrite lower_valid, IH. Qed.

Lemma valid_fold a b : EqualFold a b -> forallb validHeaderFieldByte a = forallb validHeaderFieldByte b.
Proof. intros H. rewrite <- (forallb_lower a), <- (forallb_lower b). by rewrite H. Qed.

(** Header names that are tokens have one key per name without regard to case. *)
Lemma canonical_fold a b :
  forallb validHeaderFieldByte b = true -> CanonicalMIMEHeaderKey b = b -> CanonicalMIMEHeaderKey a = b <-> EqualFold a b.
Proof.
  intros Hv Hb. unfold CanonicalMIMEHeaderKey in *. rewrite Hv in Hb. split.
  - destruct (forallb _ a); intros <-; unfold EqualFold; by rewrite ?lower_canonical.
  - intros H. rewrite (valid_fold _ _ H), Hv, <- Hb, <- (canonical_lower _ a), H. by rewrite canonical_lower.
Qed.

(** ** Removal *)

(** The keys of a header that was read from a connection. *)
Definition parsed (h : Header) : Prop :=
  forall k, is_Some (h !! k) -> forallb validHeaderFieldByte k = true /\ CanonicalMIMEHeaderKey k = k.

(** [name] is one of the names that a Connection field of [h] lists. *)
Definition listed (h : Header) (name : gostring) : Prop :=
  exists field, field ∈ Header_Values h (str "Connection") /\ name ∈ TrimString <$> Split field "," /\ name <> [].

(** The header [k] of [h] concerns one connection only. *)
Definition connection_only (h : Header) (k : gostring) : Prop := exists name, EqualFold name k /\ (name ∈ hopByHop \/ listed h name).

Lemma delete_keys_lookup (names : list gostring) (h : Header) k v :
  fold_left Header_Del names h !! k = Some v <-> h !! k = Some v /\ k ∉ CanonicalMIMEHeaderKey <$> names.
Proof.
  revert h. induction names as [|n names IH]; intros h; cbn [fold_left fmap list_fmap].
  - rewrite elem_of_nil. tauto.
  - rewrite IH. unfold Header_Del. rewrite lookup_delete_Some, elem_of_cons. naive_solver.
Qed.

Definition names_of (field : gostring) : list gostring := List.filter (fun n => bool_decide (n <> [])) (TrimString <$> Split field ",").

Lemma del_listed_names (l : list gostring) (h : Header) :
  fold_left del_listed l h = fold_left Header_Del (List.filter (fun n => bool_decide (n <> [])) (TrimString <$> l)) h.
Proof.
  revert h. induction l as [|n l IH]; intros h; [done|]. cbn [fold_left fmap list_fmap List.filter]. unfold del_listed at 2.
  destruct (bool_decide _); cbn [fold_left]; apply IH.
Qed.

Lemma removeHopByHop_names (h : Header) :
  removeHopByHop h = fold_left Header_Del (concat (names_of <$> Header_Values h (str "Connection")) ++ hopByHop) h.
Proof.
  unfold removeHopByHop. rewrite fold_left_app. f_equal. generalize (Header_Values h (str "Connection")) as fields. intros fields.
  revert h. induction fields as [|f fields IH]; intros h; [done|].
  cbn [fold_left fmap list_fmap concat]. rewrite fold_left_app, IH. f_equal. apply del_listed_names.
Qed.

Lemma listed_names (h : Header) name : name ∈ concat (names_of <$> Header_Values h (str "Connection")) <-> listed h name.
Proof.
  unfold listed. rewrite list_elem_of_In, in_concat. split.
  - intros (l & (field & -> & Hf)%list_elem_of_In%list_elem_of_fmap & Hn). exists field. unfold names_of in Hn.
    apply filter_In in Hn as [Hn Hb]. apply bool_decide_eq_true in Hb. split_and!; [done|by apply list_elem_of_In|done].
  - intros (field & Hf & Hn & Hb). exists (names_of field). split; [by apply list_elem_of_In, list_elem_of_fmap_2|].
    unfold names_of. apply filter_In. split; [by apply list_elem_of_In|by apply bool_decide_eq_true].
Qed.

Lemma removeHopByHop_lookup (h : Header) k v :
  parsed h -> removeHopByHop h !! k = Some v <-> h !! k = Some v /\ ~ connection_only h k.
Proof.
  intros Hh. rewrite removeHopByHop_names, delete_keys_lookup. split; intros [Hk Hn]; (split; [done|]); contradict Hn.
  all: destruct (Hh k) as [Hv Hc]; [by eexists|].
  - destruct Hn as (name & Hf%canonical_fold & Hn); [|done..]. rewrite <- Hf. apply list_elem_of_fmap_2, elem_of_app. rewrite listed_names. tauto.
  - apply list_elem_of_fmap in Hn as (name & Hf & Hn). symmetry in Hf. apply canonical_fold in Hf; [|done..]. exists name. split; [done|].
    rewrite elem_of_app, listed_names in Hn. tauto.
Qed.

(** C21: exactly the headers that concern one connection are kept back, in both directions: a header of the client's request reaches the upstream, and one of the upstream's response the client, if and only if its name, without regard to case, is neither one of the nine hop-by-hop names nor listed in a Connection field of the same message; the status is passed on, except that a switch of protocols is answered with a bare 502. *)
Theorem hop_by_hop_removed {St} Enabled (p : Proxy St) now r resp k v :
  parsed (r_Header r) -> parsed (rs_Header resp) ->
  (r_Header (outbound r) !! k = Some v <-> r_Header r !! k = Some v /\ ~ connection_only (r_Header r) k) /\
  match snd (finishRequest Enabled p now r (Ok resp)) with
  | RRelay status h _ _ =>
      status = rs_StatusCode resp /\ status <> 101 /\ (h !! k = Some v <-> rs_Header resp !! k = Some v /\ ~ connection_only (rs_Header resp) k)
  | RAnswer a => a = badGatewayAnswer /\ rs_StatusCode resp = 101
  end.
Proof.
  intros Hr Hs. split; [by apply removeHopByHop_lookup|]. unfold finishRequest, badGateway. destruct (Z.eqb_spec (rs_StatusCode resp) StatusSwitchingProtocols); [done|].
  cbn [snd]. split_and!; [done..|by apply removeHopByHop_lookup].
Qed.

Definition example_header : Header :=
  {[ str "Connection" := [str "close, x-hop"; str "X-Other"]; str "X-Hop" := [str "1"]; str "X-Other" := [str "2"];
     str "Te" := [str "trailers"]; str "Accept" := [str "*/*"] ]}.

Lemma example_header_parsed : parsed example_header.
Proof.
  intros k Hk. apply elem_of_dom in Hk. unfold example_header in Hk. rewrite !dom_insert, dom_singleton in Hk.
  repeat (apply elem_of_union in Hk as [->%elem_of_singleton|Hk]; [vm_compute; by split|]). apply elem_of_singleton in Hk as ->. vm_compute. by split.
Qed.

Definition example_request : Request := mkRequest (str "GET") (mkURL (str "http") (str "a.com")) (1, 1) [] [] example_header [] true.

Lemma hop_by_hop_removed_witness :
  ~ connection_only example_header (str "Accept") /\ r_Header (outbound example_request) !! str "X-Hop" = None /\
  r_Header (outbound example_request) !! str "Accept" = Some [str "*/*"].
Proof.
  destruct (hop_by_hop_removed (St := unit) (fun _ => true) (NewProxy (mkConfig 0 (mkPolicy []) 0 (mkLimits 0 (of_int 0) 0 0) ∅) tt) 0 example_request
    (mkResponse 200 ∅ 0 ∅) (str "Accept") [str "*/*"] example_header_parsed) as [H _].
  { intros k [x Hx]. discriminate Hx. }
  split; [apply H; vm_compute; reflexivity|]. split; vm_compute; reflexivity.
Defined.
