(* ===== verification/AdmissionFacts.v ===== *)
(** * The listener of internal/proxy/listener.go

    Connections are admitted under the limits of the config in force, the
    limits hold in every reachable state, and the listener and the request
    handlers agree on who the client is. *)

From Stdlib Require Import ZArith NArith Ascii String Lia Bool List.
From stdpp Require Import base tactics list gmap strings option sets fin_maps relations.
From S2P Require Import Prelude GoStrings Netip AddrText GoFloat Rules Policy Limits LimitsFacts.
From S2P Require Import TrackerFacts HostFacts HostPort PolicyFacts Config ConfigFacts Http Proxy ProxyFacts.

Local Open Scope Z_scope.

(** ** Admission *)

Lemma Log_slots (t t' : Tracker (F := float64)) now ip action host ok :
  Log t now ip action host = (t', ok) -> total t' = total t /\ releases t' = releases t.
Proof. unfold Log, get. repeat case_match; intros; by simplify_eq/=. Qed.

Lemma logRejected_slots {St} Enabled (p : Proxy St) now client subnet reason :
  let t := px_clients p in let t' := px_clients (logRejected Enabled p now client subnet reason) in
  total t' = total t /\ releases t' = releases t /\
  (subnet = [] -> heap t' = heap t /\ clients t' = clients t /\ overflow t' = overflow t).
Proof.
  unfold logRejected. destruct (negb _); [done|]. case_bool_decide as Hs.
  - unfold LogUnknown. destruct (log _ _ _) as [c ok]. by destruct ok.
  - destruct (Log _ _ _ _ _) as [t ok] eqn:E. apply Log_slots in E as [H1 H2]. by destruct ok.
Qed.

(** C13: a connection is admitted exactly when its client is in a subnet and neither the total nor the client's limit of the config in force is reached; it then takes one slot, of the client and in total. A refused connection takes no slot, and one from outside every subnet leaves no trace in the table of clients. *)
Theorem admission {St} Enabled (p : Proxy St) t1 t2 remote :
  let '(p', r) := Proxy_admit Enabled p t1 t2 remote in
  let t := px_clients p in let t' := px_clients p' in
  let client := remoteAddr remote in
  let cfg := px_config p in
  match SubnetOf (cfg_Policy cfg) client with
  | None => r = None /\ total t' = total t /\ releases t' = releases t /\ heap t' = heap t /\ clients t' = clients t /\ overflow t' = overflow t
  | Some s =>
      let max := MaxConnections (ClientLimits cfg (Some s)) in
      if ((0 <? TotalConnections cfg) && (TotalConnections cfg <=? total t)) || ((0 <? max) && (max <=? held t client))
      then r = None /\ total t' = total t /\ releases t' = releases t
      else r = Some (length (releases t)) /\ total t' = total t + 1 /\ held t' client = held t client + 1
  end.
Proof.
  unfold Proxy_admit. destruct (SubnetOf _ _) as [s|].
  - pose proof (Acquire_decides (px_clients p) t1 (remoteAddr remote) (ClientLimits (px_config p) (Some s)) (TotalConnections (px_config p))) as H.
    destruct (Acquire _ _ _ _ _) as [t r]. destruct (_ && _) eqn:E1; [|destruct (_ && (_ <=? held _ _)) eqn:E2]; cbn [orb].
    + destruct H as [-> ->]. destruct (logRejected_slots Enabled (with_clients p (px_clients p)) t2 (remoteAddr remote) (sn_name s) (str "proxy connection limit reached")) as (H1 & H2 & _).
      split; [done|]. split; [exact H1|exact H2].
    + destruct H as (-> & H3 & H4 & _).
      destruct (logRejected_slots Enabled (with_clients p t) t2 (remoteAddr remote) (sn_name s) (str "client connection limit reached")) as (H1 & H2 & _).
      split; [done|]. split; [by etrans|by etrans].
    + by destruct H as (-> & H3 & H4).
  - destruct (logRejected_slots Enabled p t2 (remoteAddr remote) [] (str "client not in any subnet")) as (H1 & H2 & H3). by destruct (H3 eq_refl) as (H4 & H5 & H6).
Qed.

(** ** The limits in force *)

Section limits.
Context {St : Type} `{!Resolver St} (valid : Config -> Prop) (perClient : Addr -> Z) (all : Z).

(** The config sets limits: at most [all] connections, and at most [perClient a]
    of a client [a], by the limits of the subnet it is in. *)
Definition bounded_by (cfg : Config) : Prop :=
  0 < TotalConnections cfg <= all /\
  forall a, 0 <= perClient a /\ forall s, SubnetOf (cfg_Policy cfg) a = Some s -> 0 < MaxConnections (ClientLimits cfg (Some s)) <= perClient a.

Lemma reach_config (p : Proxy St) : proxy_reach valid p -> valid (px_config p).
Proof. induction 1 as [|p p' _ IH Ha]; [done|]. by destruct Ha. Qed.

(** *** Whose connections are open *)

(** Steps of the proxy together with the clients of all connections admitted so
    far, in the order of their release functions. *)
Inductive opens (os : list Addr) (p : Proxy St) : list Addr -> Proxy St -> Prop :=
| opens_acquire now a s t r :
    SubnetOf (cfg_Policy (px_config p)) a = Some s ->
    Acquire (px_clients p) now a (ClientLimits (px_config p) (Some s)) (TotalConnections (px_config p)) = (t, r) ->
    opens os p (if is_ok r then os ++ [a] else os) (with_clients p t)
| opens_other p' : act valid p p' -> length (releases (px_clients p')) = length (releases (px_clients p)) -> opens os p os p'.

Inductive opened : list Addr -> Proxy St -> Prop :=
| opened_new cfg st : valid cfg -> opened [] (NewProxy cfg st)
| opened_step os p os' p' : opened os p -> opens os p os' p' -> opened os' p'.

(** The connections of [a] that are open. *)
Definition open_of (os : list Addr) (rs : list (nat * bool)) (a : Addr) : Z :=
  Z.of_nat (length (List.filter (fun x => bool_decide (fst x = a) && negb (snd (snd x))) (zip os rs))).

Lemma opens_act os p os' p' : opens os p os' p' -> act valid p p'.
Proof. destruct 1; [by eapply act_acquire|done]. Qed.

Lemma opened_reach os p : opened os p -> proxy_reach valid p.
Proof. induction 1 as [|os p os' p' _ IH Ho]; [by constructor|]. eapply px_act; [exact IH|]. by eapply opens_act. Qed.

(** Every reachable state has its clients. *)
Lemma reach_opened p : proxy_reach valid p -> exists os, opened os p.
Proof.
  induction 1 as [cfg st Hc|p p' Hp [os IH] Ha]; [exists []; by constructor|].
  destruct (decide (length (releases (px_clients p')) = length (releases (px_clients p)))) as [E|E].
  { exists os. eapply opened_step; [exact IH|]. by apply opens_other. }
  pose proof (reach_tracker _ _ Hp) as Hi. destruct Ha as [now l t Hl Hs|now a s t r Hs Ha| | | | |]; try done.
  - exfalso. apply E. cbn [with_clients px_clients]. destruct (step_release_or_same _ _ _ _ Hi Hs Hl) as [[j ->]| ->]; [|done].
    unfold release. destruct (releases _ !! j) as [[l0 []]|]; [done| |done]. cbn [releases set_entry]. apply length_insert.
  - eexists. eapply opened_step; [exact IH|]. by eapply opens_acquire.
Qed.

Record owned (os : list Addr) (t : Tracker (F := float64)) : Prop := {
  ow_length : length os = length (releases t);
  ow_entry : forall i a l, os !! i = Some a -> releases t !! i = Some (l, false) -> registered t (inl a) l \/ registered t (inr (overflowPrefix a)) l
}.

Lemma owned_step os t now lb t' :
  tracker_inv t -> owned os t -> LimitsFacts.step t now lb t' -> is_acquire lb = false -> owned os t'.
Proof.
  intros Hi [Hlen How] Hs Hl. assert (Hrel : length (releases t') = length (releases t) /\ forall i l, releases t' !! i = Some (l, false) -> releases t !! i = Some (l, false)).
  { destruct (step_release_or_same _ _ _ _ Hi Hs Hl) as [[j ->]| ->]; [|done]. unfold release. destruct (releases t !! j) as [[l0 []]|]; [done| |done].
    cbn [releases set_entry]. split; [apply length_insert|]. intros i l. by intros [(_ & [=] & _)|[_ ?]]%list_lookup_insert_Some. }
  destruct Hrel as [Hn Hold]. split; [lia|]. intros i a l Ha Hr%Hold. specialize (How _ _ _ Ha Hr).
  assert (Hin : (l, false) ∈ releases t) by (by eapply list_elem_of_lookup_2). destruct How; [left|right]; by eapply step_keeps.
Qed.

Lemma opened_owned os p : opened os p -> owned os (px_clients p).
Proof.
  induction 1 as [|os p os' p' Hp IH Ho]; [by split|]. pose proof (reach_tracker _ _ (opened_reach _ _ Hp)) as Hi.
  destruct Ho as [now a s t r Hs Ha|p' Ha Hlen]; cbn [with_clients px_clients].
  - destruct r as [i|e]; cbn [is_ok].
    + destruct (Acquire_slot _ _ _ _ _ _ _ Hi Ha) as (l & _ & Hr & Hreg). destruct IH as [Hn How]. split; [rewrite Hr, !length_app; simpl; lia|].
      intros j b l' Hb Hl'. rewrite Hr in Hl'. apply lookup_app_Some in Hb as [Hb|[Hge Hb]].
      * rewrite lookup_app_l in Hl' by (rewrite <- Hn; by eapply lookup_lt_Some). destruct (How _ _ _ Hb Hl'); [left|right]; by eapply Acquire_keeps.
      * rewrite lookup_app_r in Hl' by lia. rewrite Hn in Hb. destruct (j - _)%nat; [|done]. injection Hb as <-. injection Hl' as <-. done.
    + destruct IH as [Hn How]. assert (Hr : releases t = releases (px_clients p)) by (by destruct (Acquire_releases _ _ _ _ _ _ _ Hi Ha) as [?|(l & [=] & _)]).
      split; [by rewrite Hr|]. intros j b l. rewrite Hr. intros Hb Hl. destruct (How _ _ _ Hb Hl); [left|right]; by eapply Acquire_keeps.
  - destruct Ha as [now l t Hl Hs|now a s t r Hs Ha| | | | |]; try done; [by eapply owned_step|]. cbn [with_clients px_clients] in *. destruct r as [i|e].
    + destruct (Acquire_slot _ _ _ _ _ _ _ Hi Ha) as (l & _ & Hr & _). rewrite Hr, length_app in Hlen. simpl in Hlen. lia.
    + assert (Hr : releases t = releases (px_clients p)) by (by destruct (Acquire_releases _ _ _ _ _ _ _ Hi Ha) as [?|(l & [=] & _)]).
      destruct IH as [Hn How]. split; [by rewrite Hr|]. intros j b l. rewrite Hr. intros Hb Hl. destruct (How _ _ _ Hb Hl); [left|right]; by eapply Acquire_keeps.
Qed.

(** The connections of [a] that are open on entry [l]. *)
Definition open_on (os : list Addr) (rs : list (nat * bool)) (a : Addr) (l : nat) : Z :=
  Z.of_nat (length (List.filter (fun x => bool_decide (fst x = a) && is_live l (snd x)) (zip os rs))).

Definition on_entries (os : list Addr) (rs : list (nat * bool)) (a : Addr) (ls : list nat) : Z := foldr (fun l n => open_on os rs a l + n) 0 ls.

Lemma open_on_cons b os r rs a l : open_on (b :: os) (r :: rs) a l = b2z (bool_decide (b = a) && is_live l r) + open_on os rs a l.
Proof. unfold open_on. cbn [zip zip_with List.filter fst snd]. destruct (_ && _); simpl; lia. Qed.

Lemma on_entries_nonneg os rs a ls : 0 <= on_entries os rs a ls.
Proof. unfold on_entries. induction ls as [|l ls IH]; simpl; [lia|]. unfold open_on at 1. lia. Qed.

Lemma on_entries_cons b os r rs a ls : on_entries os rs a ls <= on_entries (b :: os) (r :: rs) a ls.
Proof. unfold on_entries. induction ls as [|l ls IH]; simpl; [lia|]. rewrite open_on_cons. destruct (_ && _); simpl; lia. Qed.

Lemma on_entries_live a l os rs ls : l ∈ ls -> on_entries os rs a ls + 1 <= on_entries (a :: os) ((l, false) :: rs) a ls.
Proof.
  induction ls as [|l1 ls IH]; [by intros H%not_elem_of_nil|]. pose proof (on_entries_cons a os (l, false) rs a ls) as Hm. unfold on_entries in *. simpl. rewrite open_on_cons.
  rewrite bool_decide_true by done. intros [<- |H]%elem_of_cons; [unfold is_live; rewrite bool_decide_true by done; simpl; lia|]. specialize (IH H). destruct (is_live _ _); simpl; lia.
Qed.

(** Connections are counted where they are open. *)
Lemma open_of_le os rs a (ls : list nat) :
  (forall i l, os !! i = Some a -> rs !! i = Some (l, false) -> l ∈ ls) -> open_of os rs a <= on_entries os rs a ls.
Proof.
  revert rs. induction os as [|b os IH]; intros rs H; [apply on_entries_nonneg|]. destruct rs as [|[l f] rs]; [apply on_entries_nonneg|].
  specialize (IH rs (fun i => H (S i))). pose proof (on_entries_cons b os (l, f) rs a ls) as Hm. unfold open_of in *. cbn [zip zip_with List.filter fst snd].
  case_bool_decide as Hb; [subst b|simpl; lia]. destruct f; simpl; [lia|].
  pose proof (on_entries_live a l os rs ls (H 0%nat l eq_refl eq_refl)). lia.
Qed.

Lemma open_on_live os rs a l : open_on os rs a l <= live_on rs l.
Proof.
  revert rs. induction os as [|b os IH]; intros rs; [apply live_on_nonneg|]. destruct rs as [|r rs]; [done|]. rewrite open_on_cons, live_on_cons. specialize (IH rs).
  destruct (bool_decide _), (is_live _ _); simpl; lia.
Qed.

Lemma open_on_snoc os rs a b l l0 :
  length os = length rs -> open_on (os ++ [b]) (rs ++ [(l0, false)]) a l = open_on os rs a l + b2z (bool_decide (b = a) && bool_decide (l0 = l)).
Proof.
  intros Hlen. unfold open_on. rewrite zip_with_app by done. rewrite List.filter_app, length_app. cbn [zip zip_with List.filter fst snd].
  assert (is_live l (l0, false) = bool_decide (l0 = l)) as -> by (unfold is_live; repeat case_bool_decide; naive_solver).
  destruct (_ && _); simpl; lia.
Qed.

Lemma open_on_release os rs i l0 a l : rs !! i = Some (l0, false) -> open_on os (<[i := (l0, true)]> rs) a l <= open_on os rs a l.
Proof.
  revert os i. induction rs as [|r rs IH]; intros os i Hi; [done|]. destruct os as [|b os]; [done|]. destruct i as [|i].
  - injection Hi as ->. change (<[0%nat := (l0, true)]> ((l0, false) :: rs)) with ((l0, true) :: rs). rewrite !open_on_cons.
    assert (is_live l (l0, true) = false) as -> by (unfold is_live; case_bool_decide; naive_solver). rewrite andb_false_r. destruct (_ && _); simpl; lia.
  - change (<[S i := (l0, true)]> (r :: rs)) with (r :: <[i := (l0, true)]> rs). rewrite !open_on_cons. specialize (IH os i Hi). lia.
Qed.

(** No more than [all] connections in total, and of a client no more than its
    limit on any entry. *)
Lemma reach_total p : (forall cfg, valid cfg -> bounded_by cfg) -> proxy_reach valid p -> live (releases (px_clients p)) <= all.
Proof.
  intros Hv. induction 1 as [cfg st Hcfg|p p' Hp IHt Ha]; [destruct (Hv _ Hcfg) as [? _]; unfold live; simpl; lia|].
  pose proof (reach_tracker _ _ Hp) as Hi. destruct Ha as [now l t Hl Hs|now a s t r Hs Ha| | | | |]; try done; cbn [with_clients px_clients].
  - destruct (step_releases _ _ _ _ Hi Hs Hl) as [_ Ht]. lia.
  - destruct (Hv _ (reach_config _ Hp)) as [Htot _]. destruct (Acquire_releases _ _ _ _ _ _ _ Hi Ha) as [->|(l0 & _ & -> & Hm & _)]; [done|]. rewrite live_snoc. lia.
Qed.

(** Only admitting one of its connections gives a client more of them. *)
Lemma open_of_snoc os rs a b l : length os = length rs -> open_of (os ++ [a]) (rs ++ [(l, false)]) b = open_of os rs b + b2z (bool_decide (a = b)).
Proof.
  intros Hlen. unfold open_of. rewrite zip_with_app by done. rewrite List.filter_app, length_app. cbn [zip zip_with List.filter fst snd negb].
  rewrite andb_true_r. destruct (bool_decide (a = b)); simpl; lia.
Qed.

Lemma open_of_release os rs i l b : rs !! i = Some (l, false) -> open_of os (<[i := (l, true)]> rs) b <= open_of os rs b.
Proof.
  revert os i. induction rs as [|r rs IH]; intros os i Hi; [done|]. destruct os as [|a os]; [done|]. destruct i as [|i].
  - injection Hi as ->. unfold open_of. cbn [insert list_insert zip zip_with List.filter fst snd negb]. rewrite andb_false_r, andb_true_r. destruct (bool_decide _); simpl; lia.
  - specialize (IH os i Hi). change (<[S i := (l, true)]> (r :: rs)) with (r :: <[i := (l, true)]> rs). unfold open_of in *.
    cbn [zip zip_with List.filter fst snd]. destruct (_ && _); simpl; lia.
Qed.

Lemma act_not_acquired os (p p' : Proxy St) b :
  proxy_reach valid p -> act valid p p' -> length (releases (px_clients p')) = length (releases (px_clients p)) ->
  open_of os (releases (px_clients p')) b <= open_of os (releases (px_clients p)) b /\ total (px_clients p') <= total (px_clients p) /\
  forall l, open_on os (releases (px_clients p')) b l <= open_on os (releases (px_clients p)) b l.
Proof.
  intros Hp Ha Hlen. pose proof (reach_tracker _ _ Hp) as Hi. pose proof (reach_tracker _ _ (px_act _ _ _ Hp Ha)) as Hi'.
  rewrite (inv_total _ Hi), (inv_total _ Hi'). destruct Ha as [now l t Hl Hs|now a s t r Hs Ha| | | | |]; try done; cbn [with_clients px_clients] in *.
  - destruct (step_releases _ _ _ _ Hi Hs Hl) as [_ Ht]. split_and!; [|done|]; destruct (step_release_or_same _ _ _ _ Hi Hs Hl) as [[j ->]| ->]; try done;
      unfold release; destruct (releases _ !! j) as [[l0 []]|] eqn:Ej; try done; [by apply open_of_release|intros l1; by apply open_on_release].
  - destruct (Acquire_releases _ _ _ _ _ _ _ Hi Ha) as [->|(l & _ & Hr & _)]; [done|]. rewrite Hr, length_app in Hlen. simpl in Hlen. lia.
Qed.

Lemma opened_on os p : (forall cfg, valid cfg -> bounded_by cfg) -> opened os p -> forall a l, open_on os (releases (px_clients p)) a l <= perClient a.
Proof.
  intros Hv. induction 1 as [cfg st Hcfg|os p os' p' Hop IH Ho]; intros a l.
  { destruct (Hv _ Hcfg) as [_ H]. destruct (H a) as [H0 _]. exact H0. }
  pose proof (opened_reach _ _ Hop) as Hp. pose proof (reach_tracker _ _ Hp) as Hi. destruct (opened_owned _ _ Hop) as [Hlen _].
  destruct Ho as [now b s t r Hs Ha|p' Ha Hn].
  2: { destruct (act_not_acquired os _ _ a Hp Ha Hn) as (_ & _ & H). specialize (H l). specialize (IH a l). lia. }
  cbn [with_clients px_clients]. destruct (Acquire_releases _ _ _ _ _ _ _ Hi Ha) as [E|(l0 & -> & Hr & _ & Hc)].
  - destruct r as [i|e]; [|rewrite E; apply IH]. destruct (Acquire_slot _ _ _ _ _ _ _ Hi Ha) as (l0 & _ & Hr & _). rewrite E in Hr. apply (f_equal length) in Hr. rewrite length_app in Hr. simpl in Hr. lia.
  - cbn [is_ok]. rewrite Hr, open_on_snoc by done. specialize (IH a l). destruct (Hv _ (reach_config _ Hp)) as [_ Hb]. destruct (Hb b) as [_ Hmax].
    specialize (Hmax s Hs). specialize (Hc (proj1 Hmax)). pose proof (open_on_live os (releases (px_clients p)) b l0).
    case_bool_decide; [subst b|simpl; lia]. case_bool_decide; [subst l0|]; simpl; lia.
Qed.

(** C12: client connections stay within the limits. Whatever requests, admissions, releases, sweeps and reloads come in any order: there are never more open connections than the largest total that any of the configs allows, and never more of one client than the largest limit that any of them sets for the client's subnet, or twice as many if the client is tracked by itself and its network has a shared entry too. After a reload to lower limits the connections above them stay open, but as long as a limit in force is reached the total, or the client's number, does not grow. *)
Theorem connections_limited os (p : Proxy St) :
  (forall cfg, valid cfg -> bounded_by cfg) -> opened os p ->
  let t := px_clients p in
  length os = length (releases t) /\ total t = live (releases t) /\ total t <= all /\
  (forall a, open_of os (releases t) a <= if bool_decide (is_Some (clients t !! a) /\ is_Some (overflow t !! overflowPrefix a)) then 2 * perClient a else perClient a) /\
  (forall os' p', opens os p os' p' ->
    (TotalConnections (px_config p) <= total t -> total (px_clients p') <= total t) /\
    (forall a s, SubnetOf (cfg_Policy (px_config p)) a = Some s -> MaxConnections (ClientLimits (px_config p) (Some s)) <= held t a ->
       open_of os' (releases (px_clients p')) a <= open_of os (releases t) a)).
Proof.
  intros Hv Hop t. pose proof (opened_reach _ _ Hop) as Hp. pose proof (reach_tracker _ _ Hp) as Hi. destruct (opened_owned _ _ Hop) as [Hlen How].
  pose proof (reach_total p Hv Hp) as Hlive. split_and!; [done|apply (inv_total _ Hi)|unfold t; by rewrite (inv_total _ Hi)| |].
  - intros a. assert (Hall : open_of os (releases t) a <= on_entries os (releases t) a (option_list (clients t !! a) ++ option_list (overflow t !! overflowPrefix a))).
    { apply open_of_le. intros i l Ha Hl. apply elem_of_app. destruct (How _ _ _ Ha Hl) as [H1|H1]; [left|right]; simpl in H1; unfold t; rewrite H1; left. }
    pose proof (fun l => opened_on os p Hv Hop a l : open_on os (releases t) a l <= perClient a) as Hon'.
    assert (H0 : 0 <= perClient a) by (destruct (Hv _ (reach_config _ Hp)) as [_ H]; apply H). clear -Hall Hon' H0.
    unfold on_entries in Hall. destruct (clients t !! a) as [l1|], (overflow t !! _) as [l2|]; simpl in Hall.
    + rewrite bool_decide_true by (split; eauto). pose proof (Hon' l1). pose proof (Hon' l2). lia.
    + rewrite bool_decide_false by (by intros [_ [? ?]]). pose proof (Hon' l1). lia.
    + rewrite bool_decide_false by (by intros [[? ?] _]). pose proof (Hon' l2). lia.
    + rewrite bool_decide_false by (by intros [[? ?] _]). lia.
  - intros os' p' Ho. destruct Ho as [now b s0 t' r Hs Ha|p' Ha Hn].
    2: { split; [intros _|intros a s _ _]; [apply (act_not_acquired [] _ _ AddrZero Hp Ha Hn)|by apply act_not_acquired]. }
    cbn [with_clients px_clients]. destruct (Hv _ (reach_config _ Hp)) as [Htot Hmax].
    pose proof (Acquire_decides t now b (ClientLimits (px_config p) (Some s0)) (TotalConnections (px_config p))) as Hd. unfold t in *. rewrite Ha in Hd. split.
    + intros Hfull. rewrite (proj2 (Z.ltb_lt _ _)), (proj2 (Z.leb_le _ _)) in Hd by lia. by destruct Hd as [_ ->].
    + intros a s Hsa Hheld. destruct (Acquire_releases _ _ _ _ _ _ _ Hi Ha) as [E|(l & -> & Hr & _)].
      { rewrite E. destruct r as [i|e]; [|done]. destruct (Acquire_slot _ _ _ _ _ _ _ Hi Ha) as (l & _ & Hr & _). rewrite E in Hr. apply (f_equal length) in Hr. rewrite length_app in Hr. simpl in Hr. lia. }
      cbn [is_ok]. rewrite Hr, open_of_snoc by done. case_bool_decide as Eb; [subst b|simpl; lia]. assert (s0 = s) as -> by congruence. exfalso.
      destruct (_ && _); [by destruct Hd|]. rewrite (proj2 (Z.ltb_lt _ _)), (proj2 (Z.leb_le _ _)) in Hd; [by destruct Hd|done|]. by apply (proj2 (Hmax a)).
Qed.

(** A release function keeps its entry, and once it has run that is final. *)
Lemma act_releases (p p' : Proxy St) i l b :
  proxy_reach valid p -> act valid p p' -> releases (px_clients p) !! i = Some (l, b) ->
  exists b', releases (px_clients p') !! i = Some (l, b') /\ (b = true -> b' = true).
Proof.
  intros Hp%reach_tracker Ha Hi. destruct Ha as [now lb t Hl Hs|now a s t r Hs Ha| | | | |]; try by exists b.
  - destruct (step_release_or_same _ _ _ _ Hp Hs Hl) as [[j ->]|E]; cbn [with_clients px_clients]; [|rewrite E; eauto].
    unfold release. destruct (releases (px_clients p) !! j) as [[l' [|]]|] eqn:Ej; [eauto| |eauto]. cbn [releases set_entry].
    destruct (decide (i = j)) as [->|Hne]; [|rewrite list_lookup_insert_ne by done; eauto]. rewrite Ej in Hi. injection Hi as -> <-.
    rewrite list_lookup_insert_eq by (by eapply lookup_lt_Some). eauto.
  - cbn [with_clients px_clients]. destruct (Acquire_releases _ _ _ _ _ _ _ Hp Ha) as [->|(l0 & _ & -> & _)]; [eauto|].
    exists b. split; [|done]. by apply lookup_app_l_Some.
Qed.

Lemma acts_releases (p p' : Proxy St) i l b :
  proxy_reach valid p -> rtc (act valid) p p' -> releases (px_clients p) !! i = Some (l, b) ->
  exists b', releases (px_clients p') !! i = Some (l, b') /\ (b = true -> b' = true).
Proof.
  intros Hp Ha. revert b. induction Ha as [p|p p1 p' Ha _ IH]; intros b Hi; [eauto|].
  destruct (act_releases _ _ _ _ _ Hp Ha Hi) as (b1 & H1 & H2). destruct (IH (px_act _ _ _ Hp Ha) b1 H1) as (b2 & H3 & H4). eauto.
Qed.

(** C14: closing an admitted connection gives its slot back exactly once: whatever happens between, there is one entry, fixed when it was admitted, from whose count and from the total the first close takes one, and every later close, from whichever code path, changes nothing. *)
Theorem slot_freed_once Enabled (p : Proxy St) t1 t2 remote p' i q :
  proxy_reach valid p -> Proxy_admit Enabled p t1 t2 remote = (p', Some i) -> rtc (act valid) p' q ->
  exists l (freed : bool), releases (px_clients q) !! i = Some (l, freed) /\
    (forall now, total (px_clients (clientConn_Close q now i)) = total (px_clients q) - (if freed then 0 else 1) /\
      (forall l', live_on (releases (px_clients (clientConn_Close q now i))) l' =
        live_on (releases (px_clients q)) l' - (if negb freed && bool_decide (l' = l) then 1 else 0))) /\
    (forall now now', clientConn_Close (clientConn_Close q now i) now' i = clientConn_Close q now i).
Proof.
  intros Hp Ha Hq. assert (H : exists l, releases (px_clients p') !! i = Some (l, false)).
  { revert Ha. unfold Proxy_admit. destruct (SubnetOf _ _); [|done]. destruct (Acquire _ _ _ _ _) as [t [rel|]] eqn:E; [|done]. intros [= <- <-].
    destruct (Acquire_Ok _ _ _ _ _ _ _ (reach_tracker _ _ Hp) E) as (l & -> & Hr). exists l. cbn [with_clients px_clients]. rewrite Hr. apply list_lookup_middle. done. }
  destruct H as [l Hl]. pose proof (admit_acts Enabled valid p t1 t2 remote) as Hacts. rewrite Ha in Hacts.
  destruct (acts_releases _ _ _ _ _ (acts_reach _ _ _ Hp Hacts) Hq Hl) as (freed & Hf & _). exists l, freed. split; [done|]. split.
  - intros now. unfold clientConn_Close, release. cbn [with_clients px_clients]. rewrite Hf. destruct freed; cbn [negb andb]; [split; intros; lia|].
    cbn [total releases set_entry]. split; [done|]. intros l'. rewrite (live_on_release _ _ _ _ Hf). unfold b2z. by destruct (bool_decide _).
  - intros now now'. unfold clientConn_Close. cbn [with_clients px_clients px_config px_resolver px_upstream px_log]. by rewrite release_twice.
Qed.
End limits.

(** ** Who the client is *)

(** The text of a [net.TCPAddr] without zone: its [IP] prints an IPv4-mapped
    address as IPv4. *)
Definition TCPAddr_String (a : Addr) (port : Z) : gostring := JoinHostPort (addr_string (Unmap a)) (Itoa port).

Lemma Unmap_plain a : plain_addr a -> plain_addr (Unmap a).
Proof.
  intros (H1 & H2 & H3). split; [by apply Unmap_wf|]. destruct a as [|v|v z]; [done..|]. cbn [Unmap]. by destruct (_ =? _).
Qed.

Lemma Unmap_not_mapped a : Is4In6 (Unmap a) = false.
Proof. destruct a as [|v|v z]; [done..|]. cbn [Unmap]. destruct (_ =? _) eqn:E; [done|exact E]. Qed.

Lemma Unmap_idemp a : Unmap (Unmap a) = Unmap a.
Proof. destruct a as [|v|v z]; [done..|]. cbn [Unmap]. destruct (_ =? _) eqn:E; [done|]. cbn [Unmap]. by rewrite E. Qed.

Lemma AddrPort_String_Join a port : plain_addr a -> Is4In6 a = false -> AddrPort_String a port = JoinHostPort (addr_string a) (Itoa port).
Proof.
  intros (Hw & Hv & Hz) Hm. unfold JoinHostPort. destruct a as [|v|v z]; [done| |].
  - rewrite (proj2 (ContainsByte_false _ _)); [done|]. intros Hc. destruct (string4_chars v ":" (wf_bounds4 v Hw) Hc); discriminate.
  - simpl in Hz. subst z. unfold AddrPort_String, addr_string. rewrite Hm, app_nil_r. rewrite (proj2 (ContainsByte_true _ _) (string6_colon v)). reflexivity.
Qed.

(** C15: the listener and the handlers see the same client: for every TCP peer, IPv4, IPv6 or IPv4-mapped, the address that the handler reads back from the text the HTTP server puts into the request is the one under which the connection was admitted. *)
Theorem client_identity a port r :
  plain_addr a -> 0 <= port <= 65535 -> r_RemoteAddr r = TCPAddr_String a port ->
  clientAddr r = remoteAddr (TCPAddr a port) /\ remoteAddr (OtherAddr (TCPAddr_String a port)) = remoteAddr (TCPAddr a port).
Proof.
  intros Ha Hp Hr. unfold clientAddr, remoteAddr. rewrite Hr. unfold TCPAddr_String.
  rewrite <- AddrPort_String_Join, ParseAddrPort_string by (try apply Unmap_plain; try done; apply Unmap_not_mapped).
  by rewrite Unmap_idemp.
Qed.

(** ** Witnesses *)

#[local] Existing Instance logging_resolver.

Definition tight (cfg : Config) : Config := mkConfig 1 (cfg_Policy cfg) 3 one_conn ∅.
Definition peer : NetAddr := TCPAddr (Addr6 (0xffff * 2 ^ 32 + 167777285) []) 4242.   (* ::ffff:10.0.20.5 *)
Definition admit_peer (cfg : Config) : Proxy (list gostring) * option nat := Proxy_admit (fun _ => true) (NewProxy (tight cfg) []) 0 1 peer.

Lemma connections_limited_witness :
  exists cfg t, toy_parse (str "good") = Ok cfg /\ Acquire NewTracker 0 (remoteAddr peer) one_conn 3 = (t, Ok 0%nat) /\
    open_of [remoteAddr peer] (releases t) (remoteAddr peer) = 1 /\ total t <= 3.
Proof.
  destruct (config_test_true (str "good") (fun cfg => match SubnetOf (cfg_Policy cfg) (remoteAddr peer) with Some _ => true | None => false end)) as (cfg & Hc & Hs);
    [vm_compute; reflexivity|].
  destruct (SubnetOf (cfg_Policy cfg) (remoteAddr peer)) as [s|] eqn:Es; [|discriminate Hs].
  destruct (Acquire NewTracker 0 (remoteAddr peer) one_conn 3) as [t r] eqn:Ea. exists cfg, t. split; [exact Hc|].
  assert (E : r = Ok 0%nat /\ open_of [remoteAddr peer] (releases t) (remoteAddr peer) = 1).
  { replace t with (fst (Acquire NewTracker 0 (remoteAddr peer) one_conn 3)) by (rewrite Ea; reflexivity).
    replace r with (snd (Acquire NewTracker 0 (remoteAddr peer) one_conn 3)) by (rewrite Ea; reflexivity). split; vm_compute; reflexivity. }
  destruct E as [-> Eo]. split; [reflexivity|]. split; [exact Eo|].
  refine (proj1 (proj2 (proj2 (connections_limited (fun c => c = tight cfg) (fun _ => 1) 3 [remoteAddr peer] (with_clients (NewProxy (tight cfg) []) t) _ _)))).
  - intros c ->. split; [cbn; lia|]. intros a. split; [lia|]. intros s' _. change (0 < 1 <= 1). lia.
  - apply (opened_step _ [] (NewProxy (tight cfg) [])); [by apply opened_new|]. exact (opens_acquire _ [] (NewProxy (tight cfg) []) 0 (remoteAddr peer) s t (Ok 0%nat) Es Ea).
Defined.

Lemma slot_freed_once_witness :
  exists cfg, toy_parse (str "good") = Ok cfg /\ snd (admit_peer cfg) = Some 0%nat /\
    clientConn_Close (clientConn_Close (fst (admit_peer cfg)) 5 0) 6 0 = clientConn_Close (fst (admit_peer cfg)) 5 0.
Proof.
  destruct (config_test_true (str "good") (fun cfg => bool_decide (snd (admit_peer cfg) = Some 0%nat))) as (cfg & Hc & Hs); [vm_compute; reflexivity|].
  apply bool_decide_eq_true in Hs. exists cfg. split; [exact Hc|]. split; [exact Hs|].
  destruct (slot_freed_once (fun _ => True) (fun _ => true) (NewProxy (tight cfg) []) 0 1 peer (fst (admit_peer cfg)) 0 (fst (admit_peer cfg)))
    as (l & freed & _ & _ & H).
  - by apply px_new.
  - rewrite <- Hs. apply surjective_pairing.
  - apply rtc_refl.
  - apply H.
Defined.

Lemma client_identity_witness :
  exists r, r_RemoteAddr r = str "10.0.20.5:4242" /\ clientAddr r = remoteAddr peer.
Proof.
  exists (mkRequest [] (mkURL [] []) (1, 1) [] (str "10.0.20.5:4242") ∅ [] false). split; [reflexivity|].
  refine (proj1 (client_identity (Addr6 (0xffff * 2 ^ 32 + 167777285) []) 4242 _ _ _ _)).
  - split; [vm_compute; reflexivity|]. split; reflexivity.
  - lia.
  - vm_compute. reflexivity.
Defined.
