(* ===== verification/LogFacts.v ===== *)
(** * The access log of internal/proxy/log.go

    Every decision is in the log, as a line of its own or in the count of a
    summary, and a summary says what was counted. *)

From Stdlib Require Import ZArith NArith Ascii String Lia Bool List.
From stdpp Require Import base tactics list gmap strings option sets fin_maps relations.
From S2P Require Import Prelude GoStrings Netip GoFloat Rules Policy Limits LimitsFacts TrackerFacts Config ConfigFacts PolicyFacts Http Proxy ProxyFacts.

Local Open Scope Z_scope.

(** ** Summaries *)

Lemma by_action_lookup counts a h : by_action counts !! a ≫= (fun m => m !! h) = counts !! mkKey a h.
Proof.
  unfold by_action. revert a h.
  refine (map_fold_weak_ind (fun (m : gmap gostring (gmap gostring Z)) (c : gmap SuppressedKey Z) =>
    forall a h, m !! a ≫= (fun m => m !! h) = c !! mkKey a h) _ _ _ _ counts).
  - intros a h. by rewrite !lookup_empty.
  - intros [a' h'] n c m Hnone IH a h. cbn [k_Action k_Host]. destruct (decide (a = a')) as [->|Ha].
    + rewrite lookup_insert_eq. simpl. destruct (decide (h = h')) as [->|Hh]; [by rewrite !lookup_insert_eq|].
      rewrite !lookup_insert_ne by congruence. rewrite <- IH. by destruct (m !! a').
    + rewrite !lookup_insert_ne by congruence. apply IH.
Qed.

(** An action has an entry if and only if some line with it was counted. *)
Lemma by_action_some counts a : is_Some (by_action counts !! a) <-> exists h, is_Some (counts !! mkKey a h).
Proof.
  split.
  - unfold by_action. revert a. refine (map_fold_weak_ind (fun (m : gmap gostring (gmap gostring Z)) (c : gmap SuppressedKey Z) =>
      forall a, is_Some (m !! a) -> exists h, is_Some (c !! mkKey a h)) _ _ _ _ counts).
    + intros a [x Hx]. by rewrite lookup_empty in Hx.
    + intros [a' h'] n c m Hnone IH a. cbn [k_Action k_Host]. destruct (decide (a = a')) as [->|Ha].
      * intros _. exists h'. rewrite lookup_insert_eq. eauto.
      * rewrite lookup_insert_ne by congruence. intros [h Hh]%IH. exists h. rewrite lookup_insert_ne by congruence. done.
  - intros [h Hh]. rewrite <- by_action_lookup in Hh. destruct (by_action counts !! a); [eauto|by destruct Hh].
Qed.

Lemma counts_total_sum counts : counts_total counts = map_sum (fun n => n) counts.
Proof.
  unfold counts_total, map_sum. rewrite !map_fold_foldr. induction (map_to_list counts) as [|[k n] l IH]; [done|]. simpl. rewrite IH. lia.
Qed.

(** A summary line is exact: its total is the number of lines that were counted instead of written, including those without a key of their own, and it shows every count under its action and host; it is a warning exactly if a refusal or an error is among them. *)
Theorem summary_exact cfg s :
  match summary_line cfg s with
  | LSummary lvl _ total actions other =>
      total = map_sum (fun n => n) (s_Counts s) + s_Other s /\ other = s_Other s /\
      (forall a h, s_Unknown s = false \/ a = str "deny" -> actions !! a ≫= (fun m => m !! h) = s_Counts s !! mkKey a h) /\
      (lvl = WarnLevel <-> exists a h, (a = str "deny" \/ a = str "error") /\ is_Some (s_Counts s !! mkKey a h))
  | _ => False
  end.
Proof.
  assert (Hlvl : (if bool_decide (is_Some (by_action (s_Counts s) !! str "deny")) || bool_decide (is_Some (by_action (s_Counts s) !! str "error"))
    then WarnLevel else InfoLevel) = WarnLevel <-> exists a h, (a = str "deny" \/ a = str "error") /\ is_Some (s_Counts s !! mkKey a h)).
  { transitivity (is_Some (by_action (s_Counts s) !! str "deny") \/ is_Some (by_action (s_Counts s) !! str "error")).
    - do 2 case_bool_decide; cbn [orb]; (split; [intros; first [by left|by right|discriminate]|intros; first [done|tauto]]).
    - rewrite !by_action_some. naive_solver. }
  unfold summary_line. destruct (s_Unknown s); [|destruct (Prefix_IsValid _)]; (split_and!; [rewrite counts_total_sum; lia|done| |exact Hlvl]).
  2-3: intros a h _; apply by_action_lookup.
  intros a h [?| ->]; [done|]. rewrite <- by_action_lookup. destruct (by_action _ !! str "deny") as [m|]; [by rewrite lookup_singleton_eq|by rewrite lookup_empty].
Qed.

(** ** Conservation *)

(** The access log lines a line of the log stands for. *)
Definition line_count (l : log_line) : Z := match l with LSummary _ _ total _ _ => total | LDebug _ _ | LServer _ => 0 | _ => 1 end.
Definition lines_of (ls : list log_line) : Z := foldr (fun l acc => line_count l + acc) 0 ls.

Lemma lines_snoc ls l : lines_of (ls ++ [l]) = lines_of ls + line_count l.
Proof. unfold lines_of. induction ls as [|x ls IH]; simpl; [lia|]. rewrite IH. lia. Qed.

Section log.
Context {St : Type} (Enabled : Z -> bool).
Implicit Type p : Proxy St.

(** Lines written, and lines waiting for the next summary. *)
Definition accounted p : Z := lines_of (px_log p) + pending (px_clients p).

Lemma accounted_write p l : accounted (write p l) = accounted p + line_count l.
Proof. unfold accounted, write. cbn [px_log px_clients]. rewrite lines_snoc. lia. Qed.

Lemma pending_Log (t t' : Tracker (F := float64)) now ip action host ok :
  tracker_inv t -> Log t now ip action host = (t', ok) -> pending t' = pending t + b2z (negb ok).
Proof. intros Hi H. apply Log_inv in H as (_ & H1 & H2); [|done]. unfold pending. rewrite H1, H2. lia. Qed.

Lemma pending_LogUnknown (t t' : Tracker (F := float64)) now ip ok :
  tracker_inv t -> LogUnknown t now ip = (t', ok) -> pending t' = pending t + b2z (negb ok).
Proof. intros Hi H. apply LogUnknown_inv in H as (_ & H1 & H2); [|done]. unfold pending. rewrite H1, H2. lia. Qed.

(** A line that is sampled and then written counts once. *)
Lemma accounted_sampled p t ok l :
  pending t = pending (px_clients p) + b2z (negb ok) -> line_count l = 1 ->
  accounted (if ok then write (with_clients p t) l else with_clients p t) = accounted p + 1.
Proof. intros Ht Hl. destruct ok; rewrite ?accounted_write; unfold accounted; cbn [with_clients px_log px_clients]; rewrite Ht; simpl b2z; lia. Qed.

Lemma sample_accounted p now lvl client action host p' ok l :
  tracker_inv (px_clients p) -> Enabled lvl = true -> sample Enabled p now lvl client action host = (p', ok) -> line_count l = 1 ->
  accounted (if ok then write p' l else p') = accounted p + 1.
Proof.
  intros Hi He. unfold sample. rewrite He. cbn [negb]. destruct (Log _ _ _ _ _) as [t o] eqn:E. intros [= <- <-]. apply accounted_sampled.
  by eapply pending_Log.
Qed.

Lemma write_summary_accounted p s :
  Enabled InfoLevel = true -> Enabled WarnLevel = true ->
  px_clients (write_summary Enabled p s) = px_clients p /\
  accounted (write_summary Enabled p s) = accounted p + (map_sum (fun n => n) (s_Counts s) + s_Other s).
Proof.
  intros He Hw. unfold write_summary. assert (Hl : Enabled (line_level (summary_line (px_config p) s)) = true).
  { unfold summary_line. by destruct (s_Unknown s), (Prefix_IsValid (s_Prefix s)); cbn [line_level]; destruct (_ || _). }
  rewrite Hl, accounted_write. split; [done|]. f_equal.
  unfold summary_line. destruct (s_Unknown s), (Prefix_IsValid (s_Prefix s)); cbn [line_count]; rewrite counts_total_sum; lia.
Qed.

(** The lines that a summary stands for are the pending ones. *)
Lemma sweep_accounted p now cs os :
  tracker_inv (px_clients p) -> cs ≡ₚ map_to_list (clients (px_clients p)) -> os ≡ₚ map_to_list (overflow (px_clients p)) ->
  Enabled InfoLevel = true -> Enabled WarnLevel = true ->
  accounted (sweep_log Enabled p now cs os) = accounted p /\ pending (px_clients (sweep_log Enabled p now cs os)) = 0.
Proof.
  intros Hi Hcs Hos He Hw. unfold sweep_log. destruct (Sweep _ _ _ _) as [t out] eqn:E. apply Sweep_spec in E as (_ & Hr & Hz & _); [|done..].
  assert (H : forall q, px_clients (fold_left (write_summary Enabled) out q) = px_clients q /\
    accounted (fold_left (write_summary Enabled) out q) = accounted q + reported out).
  { clear -He Hw. induction out as [|s out IH]; intros q; cbn [fold_left]; [simpl; split; [done|lia]|].
    destruct (IH (write_summary Enabled q s)) as [-> ->]. destruct (write_summary_accounted q s) as [-> ->]; [done..|]. split; [done|].
    unfold reported. cbn [foldr]. lia. }
  destruct (H (with_clients p t)) as [-> ->]. split; [|done]. unfold accounted.
  cbn [with_clients px_log px_clients]. lia.
Qed.

(** C23: no refusal, no allowed request and no upstream failure goes missing from the access log: with warnings and information enabled each is one line, or one more in the count that the next summary will show; a sweep turns all pending counts into summaries that stand for just as many lines. *)
Theorem log_conserved valid `{!Resolver St} p now r client host port d reason subnet err cs os :
  proxy_reach valid p -> Enabled InfoLevel = true -> Enabled WarnLevel = true ->
  cs ≡ₚ map_to_list (clients (px_clients p)) -> os ≡ₚ map_to_list (overflow (px_clients p)) ->
  accounted (logDecision Enabled p now r client host port d) = accounted p + 1 /\
  accounted (logRejected Enabled p now client subnet reason) = accounted p + 1 /\
  accounted (logUpstreamError Enabled p now r host err) = accounted p + (if is_canceled err && negb (Enabled DebugLevel) then 0 else 1) /\
  accounted (sweep_log Enabled p now cs os) = accounted p /\ pending (px_clients (sweep_log Enabled p now cs os)) = 0.
Proof.
  intros Hi%reach_tracker He Hw Hcs Hos. split_and!; [| | |by apply sweep_accounted..].
  - unfold logDecision. destruct (Policy.Allow d); destruct (sample _ _ _ _ _ _ _) as [p' ok] eqn:E; eapply sample_accounted; try exact E; done.
  - unfold logRejected. rewrite Hw. cbn [negb]. destruct (if bool_decide _ then _ else _) as [t ok] eqn:E. apply accounted_sampled; [|done].
    revert E. case_bool_decide; intros; by eauto using pending_Log, pending_LogUnknown.
  - unfold logUpstreamError. destruct (sample _ _ _ _ _ _ _) as [p' ok] eqn:E. destruct (is_canceled err); cbn [andb].
    + destruct (Enabled DebugLevel) eqn:Ed; cbn [negb]; [eapply sample_accounted; try exact E; done|]. unfold sample in E. rewrite Ed in E. injection E as <- <-. lia.
    + eapply sample_accounted; try exact E; done.
Qed.
End log.

#[local] Existing Instance logging_resolver.

Lemma log_conserved_witness :
  exists cfg, toy_parse (str "good") = Ok cfg /\
    accounted (logRejected (fun _ => true) (NewProxy cfg (@nil gostring)) 0 ipA (str "iot") (str "client connection limit reached")) = 1.
Proof.
  destruct (config_test_true (str "good") (fun _ => true)) as (cfg & Hc & _); [vm_compute; reflexivity|]. exists cfg. split; [exact Hc|].
  destruct (log_conserved (fun _ => true) (fun _ => True) (NewProxy cfg (@nil gostring)) 0 get_request ipA [] [] (denied [] [] (RText []))
    (str "client connection limit reached") (str "iot") ECanceled [] []) as (_ & H & _).
  - by apply px_new.
  - reflexivity.
  - reflexivity.
  - reflexivity.
  - reflexivity.
  - rewrite H. reflexivity.
Defined.
