(* ===== verification/ResolvedFacts.v ===== *)
(** * The proxy with the caching resolver

    The request handlers of internal/proxy, the decisions of internal/acl and
    the caching resolver of internal/dnscache together: what is dialed for a
    name is what the resolver underneath the cache said about that very name. *)

From Stdlib Require Import ZArith NArith Ascii String Lia Bool List.
From stdpp Require Import base tactics list gmap strings option sets fin_maps relations.
From S2P Require Import Prelude GoStrings Netip AddrText GoFloat Regexp Rules Policy Limits HostFacts HostPort PolicyFacts.
From S2P Require Import Dial DialFacts Config ConfigFacts DnsCache DnsCacheRuns CacheSpec Upstream UpstreamFacts Http Proxy ProxyFacts.

Local Open Scope Z_scope.

(** [a] is in an answer that the resolver underneath gave for [name]; IPv4-mapped
    addresses are dialed as IPv4. *)
Definition answered (σ : system) (name : gostring) (a : Addr) : Prop :=
  exists found a', (cache_key (str "ip") name, Ok found) ∈ history (res σ) /\ a' ∈ found /\ a = Unmap a'.

(** Where the addresses of an allow decision come from. *)
Lemma Check_resolved {St} `{!Policy.Resolver St} s ctx host port (st : St) :
  Policy.Allow (snd (Check s ctx host port st)) = true ->
  exists dst, parseHost host = Ok dst /\
    if bool_decide (d_name dst = []) then Addrs (snd (Check s ctx host port st)) = [d_addr dst]
    else exists found, LookupNetIP (WithTimeout ctx resolveTimeout) (str "ip") (d_name dst) st = (fst (Check s ctx host port st), Ok found) /\
      Addrs (snd (Check s ctx host port st)) = Unmap <$> found.
Proof.
  destruct (Check_cases s ctx host port st) as [(dst & n & rule & (Hh & _) & -> & ->)|[_ (r & rl & ->)]]; [|done].
  intros Ha. exists dst. split; [done|]. revert Ha. unfold addresses. case_bool_decide; [by destruct (check_addrs s _) as [[]|]|].
  unfold resolve. destruct (LookupNetIP _ _ _ _) as [st' [found|err]]; cbn [fst snd rbind]; [|done]. case_bool_decide; [done|].
  destruct (usable_addrs found) as [addrs|] eqn:Eu; [|done]. apply usable_addrs_Ok in Eu as [-> _]. destruct (check_addrs s _) as [[]|]; [done|].
  intros _. by exists found.
Qed.

Section resolved.
Context {St : Type} `{!Policy.Resolver St, !Cached St} (Enabled : Z -> bool) (valid : Config -> Prop).
Implicit Type p : Proxy St.

(** The cache takes its own steps only. *)
Lemma acts_cache p q : rtc (act valid) p q -> rtc sys_step (cache_of (px_resolver p)) (cache_of (px_resolver q)).
Proof.
  induction 1 as [|p p1 q Ha _ IH]; [done|]. etrans; [|exact IH]. destruct Ha as [| | |ctx network host| | |]; try done.
  cbn [px_resolver]. pose proof (cached_lookup ctx network host (px_resolver p)) as Hl. by destruct (LookupNetIP _ _ _ _) as [st' r]; destruct Hl.
Qed.

Lemma cached_wf_resolver : wf_resolver (St := St).
Proof.
  intros ctx network host st st' found Hl. apply cached_answer in Hl. apply list_elem_of_In in Hl.
  exact (proj1 (List.Forall_forall _ _) (cached_wf st') _ Hl).
Qed.

(** Every address of an approved destination is the requested one or an answer
    for the requested name. *)
Lemma approved_answered e p r host port v p' :
  approved e p r host port v -> after_lookup valid e p r host port p' ->
  exists dst, parseHost host = Ok dst /\
    forall a, a ∈ v_addrs v -> if bool_decide (d_name dst = []) then a = d_addr dst else answered (cache_of (px_resolver p')) (d_name dst) a.
Proof.
  intros (s & Hs & Ha) (s' & q & Hs' & Hq & Hr). assert (s' = s) as -> by congruence. destruct (Limits.Allow _ _ _ _) as [t ok]. destruct Ha as (_ & Ha & ->).
  cbn [v_addrs fst] in *. destruct (Check_resolved _ _ _ _ _ Ha) as (dst & Hd & Hres). exists dst. split; [done|]. case_bool_decide.
  - rewrite Hres. by intros a ->%list_elem_of_singleton.
  - destruct Hres as (found & Hl & ->). intros a (a' & -> & Ha')%list_elem_of_fmap. exists found, a'. split; [|done].
    apply (history_steps _ _ _ (acts_cache _ _ Hq)). rewrite Hr. by eapply cached_answer.
Qed.

(** C3: with the caching resolver in use, every connection made for a request by name leads to an address that the resolver underneath gave, by the time of the dial, as an answer for exactly the requested name in its normal form, never for another name, another client's request or from a mixed-up cache entry; a request for an IP address leads to that address. This holds in every reachable state, with any number of concurrent lookups and other requests in between. *)
Theorem dialed_as_resolved e p w r p' o v addr t done parent n s :
  wf_around valid e -> proxy_reach valid p -> ServeHTTP Enabled e p w r = (p', o) -> dials o v addr -> dial v addr t done parent n s ->
  exists dst, parseHost (requested_host o r) = Ok dst /\
    let right_address text := exists a port, text = AddrPort_String a port /\
      if bool_decide (d_name dst = []) then a = d_addr dst else answered (cache_of (px_resolver p')) (d_name dst) a in
    Forall (fun c => right_address (c_addr c)) (calls (shared s)) /\ Forall (fun c => right_address (fst c)) (Dial.conns (shared s)).
Proof.
  intros He Hreach Hs Hd Hdial. destruct (dials_approved Enabled valid _ _ _ _ _ _ _ _ cached_wf_resolver He Hreach Hs Hd) as (v0 & port & Ha & Hl & Hv).
  destruct (approved_answered _ _ _ _ _ _ _ Ha Hl) as (dst & Hdst & Haddr). exists dst. split; [exact Hdst|].
  assert (Ht : forall text, vetted_addr v text -> exists a port, text = AddrPort_String a port /\
    if bool_decide (d_name dst = []) then a = d_addr dst else answered (cache_of (px_resolver p')) (d_name dst) a).
  { intros text (a & Hin & ->)%Hv. exists a, (v_port v0). split; [reflexivity|by apply Haddr]. }
  apply dial_vetted in Hdial as [Hc Hn]. split; [eapply Forall_impl; [exact Hc|]; intros c [Hv0 _]; auto|eapply Forall_impl; [exact Hn|]; auto].
Qed.
End resolved.

(** ** Witnesses *)

(** A resolver that knows one name. *)
Definition one_name (key : gostring) : result (list Addr) :=
  if bool_decide (key = str "ip|www.example.com") then Ok [Addr6 (0xffff * 2 ^ 32 + 1572394766) []] else Err (EDns true 0).

Lemma one_name_wf key : answer_wf (key, one_name key).
Proof. unfold answer_wf, one_name. cbn [snd]. case_bool_decide; [|done]. apply Forall_singleton. vm_compute. reflexivity. Qed.

#[local] Instance name_resolver : Policy.Resolver idle_cache := idle_resolver one_name one_name_wf.
#[local] Instance name_cached : Cached idle_cache := idle_cached one_name one_name_wf.

Definition quiet_around : around (St := idle_cache) :=
  mkAround 0 1 2 None (fun u => (map_to_list (pools u)).*1) (fun p => p) (fun p => p).

Lemma quiet_around_wf : wf_around (fun _ => True) quiet_around.
Proof. split; [intros q; apply rtc_refl..|]. unfold visits. reflexivity. Qed.

Definition cached_serve (cfg : Config) : Proxy idle_cache * outcome :=
  ServeHTTP (fun _ => true) quiet_around (NewProxy cfg (new_cache 0)) (mkHijackable true (Ok []) (Ok tt)) connect_request.

Lemma dialed_as_resolved_witness :
  exists cfg s, toy_parse (str "good") = Ok cfg /\ length (calls (shared s)) = 1%nat /\
    Forall (fun c => exists a port, c_addr c = AddrPort_String a port /\
      answered (cache_of (px_resolver (fst (cached_serve cfg)))) (str "www.example.com") a) (calls (shared s)).
Proof.
  destruct (config_test_true (str "good") (fun cfg => match snd (cached_serve cfg) with
    | OTunnel v addr _ => same_vetted v (example_vetted (str "WWW.example.com")) && bool_decide (addr = str "WWW.example.com:443") | _ => false end)) as (cfg & Hc & Hs);
    [vm_compute; reflexivity|].
  destruct (cached_serve cfg) as [p' o] eqn:Eo. cbn [snd] in Hs. destruct o as [a|closed|v addr early|v out tr]; try discriminate Hs.
  apply andb_true_iff in Hs as [->%same_vetted_true ->%bool_decide_eq_true].
  destruct (example_dial (str "WWW.example.com") (str "WWW.example.com:443")) as (s & Hd & Hl); [vm_compute; reflexivity|].
  exists cfg, s. split; [exact Hc|]. split; [exact Hl|]. rewrite Eo.
  destruct (dialed_as_resolved (fun _ => true) (fun _ => True) quiet_around (NewProxy cfg (new_cache 0)) (mkHijackable true (Ok []) (Ok tt)) connect_request p' _ _ _ _ _ _ _ s
    quiet_around_wf (px_new _ cfg (new_cache 0) I) Eo (conj eq_refl eq_refl) Hd) as (dst & Hdst & Hcalls & _).
  vm_compute in Hdst. injection Hdst as <-. exact Hcalls.
Defined.
