(* ===== verification/Tunnel.v ===== *)
(** * Tunnel: internal/proxy/tunnel.go

    A call of [tunnelCopy] as a transition system: two pipes, one per direction,
    that share the two connections and the time of the last data. A step is an
    operation of a pipe, data carried by an [io.Copy] in progress, an [io.Copy]
    returning, or time passing. [touch] and [idleFor] read the clock and the
    shared time in one step. *)

From Stdlib Require Import ZArith NArith Ascii String Lia Bool List.
From stdpp Require Import base tactics list strings option.
From S2P Require Import Prelude GoStrings GoFloat.

Local Open Scope Z_scope.

Definition errTunnelIdle : error := ENew (str "tunnel idle timeout").

Definition is_deadline (e : error) : bool := errors_Is (fun e => match e with EDeadline => true | _ => false end) e.
Definition is_closed (e : error) : bool := errors_Is (fun e => match e with EClosed => true | _ => false end) e.

(** Whether [err] is [os.ErrDeadlineExceeded]; a nil error is not. *)
Definition timed_out (err : option error) : bool := match err with Some e => is_deadline e | None => false end.

(** ** State *)

(** [Up]: [pipe(upstream, client)]; [Down]: [pipe(client, upstream)]. *)
Inductive dir := Up | Down.
#[export] Instance dir_eq_dec : EqDecision dir.
Proof. solve_decision. Defined.

Inductive endpoint := TheClient | TheUpstream.

(** Where a pipe is: at the head of its loop, in [io.Copy] (started at [since],
    [n] bytes so far, with the read deadline it set), after [io.Copy] returned,
    at the [switch], or returned. *)
Inductive pipe :=
| Head (total : Z)
| Copying (total n since : Z) (deadline : option Z)
| Copied (total n since : Z) (err : option error)
| Switch (total : Z) (err : option error)
| Finished (total : Z) (err : option error).

(** [tunnelState] with the state of its two pipes. [t_once]: [closeOnce] has run.
    [t_carried] records what was carried: the direction, the time, the bytes. *)
Record tunnelState := mkTunnel {
  t_now : Z;
  t_last : Z;
  t_once : bool;
  t_closes : list endpoint;
  t_half : list dir;
  t_up : pipe;
  t_down : pipe;
  t_carried : list (dir * Z * Z);
  t_result : option (Z * Z * option error)
}.

Definition the_pipe (s : tunnelState) (d : dir) : pipe := match d with Up => t_up s | Down => t_down s end.
Definition set_pipe (s : tunnelState) (d : dir) (x : pipe) : tunnelState :=
  mkTunnel (t_now s) (t_last s) (t_once s) (t_closes s) (t_half s)
    (match d with Up => x | Down => t_up s end) (match d with Up => t_down s | Down => x end) (t_carried s) (t_result s).

Definition touch (s : tunnelState) : tunnelState :=
  mkTunnel (t_now s) (t_now s) (t_once s) (t_closes s) (t_half s) (t_up s) (t_down s) (t_carried s) (t_result s).

Definition idleFor (s : tunnelState) : Z := t_now s - t_last s.

Definition closeBoth (s : tunnelState) : tunnelState :=
  if t_once s then s
  else mkTunnel (t_now s) (t_last s) true (t_closes s ++ [TheClient; TheUpstream]) (t_half s) (t_up s) (t_down s) (t_carried s) (t_result s).

Definition half_close (s : tunnelState) (d : dir) : tunnelState :=
  mkTunnel (t_now s) (t_last s) (t_once s) (t_closes s) (t_half s ++ [d]) (t_up s) (t_down s) (t_carried s) (t_result s).

Definition carry (s : tunnelState) (d : dir) (k : Z) : tunnelState :=
  mkTunnel (t_now s) (t_last s) (t_once s) (t_closes s) (t_half s) (t_up s) (t_down s) (t_carried s ++ [(d, t_now s, k)]) (t_result s).

Definition set_result (s : tunnelState) (r : Z * Z * option error) : tunnelState :=
  mkTunnel (t_now s) (t_last s) (t_once s) (t_closes s) (t_half s) (t_up s) (t_down s) (t_carried s) (Some r).

(** [errors.Join] *)
Definition join_errors (a b : option error) : option error :=
  match a, b with
  | None, None => None
  | Some a, None => Some (EJoin [a])
  | None, Some b => Some (EJoin [b])
  | Some a, Some b => Some (EJoin [a; b])
  end.

(** ** Steps *)

Section tunnel.
(** The timeout, and whether the connection that a direction writes to has a
    [CloseWrite] method. *)
Context (idle : Z) (has_CloseWrite : dir -> bool).

(** How long one [io.Copy] runs. *)
Definition check_interval : Z := Z.max (Z.quot idle 4) (10 * Millisecond).

(** [finish]: the new state and what the pipe returns. *)
Definition finish (s : tunnelState) (d : dir) (err : option error) : tunnelState * option error :=
  match err with
  | None => if has_CloseWrite d then (half_close s d, None) else (closeBoth s, None)
  | Some e => (closeBoth s, if is_closed e then None else Some e)
  end.

(** When [io.Copy] can return [err]: at the end of the data, because of its
    deadline, because the connections were closed, or for any other error. *)
Definition copy_returns (s : tunnelState) (deadline : option Z) (err : option error) : Prop :=
  match err with
  | None => t_once s = false
  | Some e =>
      (is_deadline e = true -> t_once s = false /\ exists t, deadline = Some t /\ t <= t_now s) /\
      (is_closed e = true -> t_once s = true)
  end.

Inductive tstep (s : tunnelState) : tunnelState -> Prop :=
| ts_copy d total :
    the_pipe s d = Head total ->
    tstep s (set_pipe s d (Copying total 0 (t_now s) (if 0 <? idle then Some (t_now s + check_interval) else None)))
| ts_data d total n since deadline k :
    the_pipe s d = Copying total n since deadline -> t_once s = false -> 0 < k ->
    tstep s (carry (set_pipe s d (Copying total (n + k) since deadline)) d k)
| ts_copied d total n since deadline err :
    the_pipe s d = Copying total n since deadline -> copy_returns s deadline err ->
    tstep s (set_pipe s d (Copied total n since err))
| ts_touch d total n since err :
    the_pipe s d = Copied total n since err ->
    tstep s (let s := set_pipe s d (Switch (total + n) err) in if 0 <? n then touch s else s)
| ts_finish d total err s' r :
    the_pipe s d = Switch total err -> timed_out err = false -> finish s d err = (s', r) ->
    tstep s (set_pipe s' d (Finished total r))
| ts_idle d total err :
    the_pipe s d = Switch total err -> timed_out err = true -> idle <= idleFor s ->
    tstep s (set_pipe (closeBoth s) d (Finished total (Some errTunnelIdle)))
| ts_again d total err :
    the_pipe s d = Switch total err -> timed_out err = true -> idleFor s < idle ->
    tstep s (set_pipe s d (Head total))
| ts_return sent e received e' :
    t_up s = Finished sent e -> t_down s = Finished received e' -> t_result s = None ->
    tstep s (set_result (closeBoth s) (sent, received, join_errors e' e)).

(** Time passes. *)
Definition tick (s : tunnelState) (t : Z) : tunnelState :=
  mkTunnel t (t_last s) (t_once s) (t_closes s) (t_half s) (t_up s) (t_down s) (t_carried s) (t_result s).

(** Runs, with the number of steps of the program. *)
Inductive trun (s : tunnelState) : nat -> tunnelState -> Prop :=
| tr_refl : trun s 0 s
| tr_step n s' s'' : trun s n s' -> tstep s' s'' -> trun s (S n) s''
| tr_tick n s' t : trun s n s' -> t_now s' <= t -> trun s n (tick s' t).
End tunnel.

(** [tunnelCopy], called at time [t]. *)
Definition tunnel_start (t : Z) : tunnelState := mkTunnel t t false [] [] (Head 0) (Head 0) [] None.
Definition tunnelCopy (idle : Z) (has_CloseWrite : dir -> bool) (t : Z) (s : tunnelState) : Prop :=
  exists n, trun idle has_CloseWrite (tunnel_start t) n s.
