(* ===== verification/TunnelFacts.v ===== *)
(** * Tunnels of internal/proxy/tunnel.go

    The bytes are counted, both connections are closed once, the tunnel is over
    soon after they are closed, and what the idle timeout guarantees. *)

From Stdlib Require Import ZArith NArith Ascii String Lia Bool List.
From stdpp Require Import base tactics list strings option.
From S2P Require Import Prelude GoStrings GoFloat Tunnel.

Local Open Scope Z_scope.

(** ** The invariant *)

(** Bytes carried in a direction. *)
Definition bytes_of (d : dir) (cs : list (dir * Z * Z)) : Z :=
  foldr (fun c acc => (if decide (fst (fst c) = d) then snd c else 0) + acc) 0 cs.

Lemma bytes_of_snoc d cs c : bytes_of d (cs ++ [c]) = bytes_of d cs + (if decide (fst (fst c) = d) then snd c else 0).
Proof. unfold bytes_of. induction cs as [|x cs IH]; cbn [app foldr]; [lia|]. rewrite IH. lia. Qed.

Definition pipe_bytes (x : pipe) : Z :=
  match x with Head t | Switch t _ | Finished t _ => t | Copying t n _ _ | Copied t n _ _ => t + n end.

(** Data at time [t] belongs to the [io.Copy] that [x] is in or comes from. *)
Definition in_this_copy (x : pipe) (t : Z) : Prop :=
  match x with Copying _ n since _ | Copied _ n since _ => 0 < n /\ since <= t | _ => False end.

Section tunnel.
Context (idle : Z) (has_CloseWrite : dir -> bool).
Implicit Types (s : tunnelState) (d : dir) (x : pipe).

Definition pipe_wf (now : Z) x : Prop :=
  match x with
  | Copying _ n since dl => 0 <= n /\ since <= now /\ dl = (if 0 <? idle then Some (since + check_interval idle) else None)
  | Copied _ n since err => 0 <= n /\ (timed_out err = true -> 0 < idle)
  | Switch _ err => timed_out err = true -> 0 < idle
  | _ => True
  end.

(** What one direction carried, and how it has been taken note of. *)
Record pipe_inv (now last : Z) (cs : list (dir * Z * Z)) d x : Prop := {
  pi_bytes : bytes_of d cs = pipe_bytes x;
  pi_times : forall t k, (d, t, k) ∈ cs -> t <= now /\ (t <= last \/ in_this_copy x t);
  pi_wf : pipe_wf now x
}.

Record tunnel_inv s : Prop := {
  ti_last : t_last s <= t_now s;
  ti_pipe : forall d, pipe_inv (t_now s) (t_last s) (t_carried s) d (the_pipe s d);
  ti_closes : t_closes s = (if t_once s then [TheClient; TheUpstream] else []);
  ti_result : forall sent received e, t_result s = Some (sent, received, e) ->
    t_once s = true /\ exists e1 e2, t_up s = Finished sent e1 /\ t_down s = Finished received e2
}.

Lemma the_pipe_set s d x d' : the_pipe (set_pipe s d x) d' = if decide (d' = d) then x else the_pipe s d'.
Proof. by destruct d, d'. Qed.

Lemma pipe_inv_mono now now' last last' cs d x :
  now <= now' -> last <= last' -> pipe_inv now last cs d x -> pipe_inv now' last' cs d x.
Proof.
  intros Hn Hl [H1 H2 H3]. split; [done| |].
  - intros t k [Ht Hc]%H2. split; [lia|]. destruct Hc; [left; lia|by right].
  - destruct x; simpl in *; try done. split_and!; try apply H3. lia.
Qed.

(** The pipe moves on and all it carried so far is taken note of or still in
    the same copy. *)
Lemma pipe_inv_move now last cs d x x' :
  pipe_inv now last cs d x -> pipe_bytes x' = pipe_bytes x -> pipe_wf now x' ->
  (forall t, in_this_copy x t -> t <= now -> t <= last \/ in_this_copy x' t) -> pipe_inv now last cs d x'.
Proof.
  intros [H1 H2 H3] Hb Hw Hc. split; [congruence| |done]. intros t k [Ht Ho]%H2. split; [done|]. destruct Ho; [by left|]. auto.
Qed.

(** A step of one pipe, which may also have changed the shared state to [s0]:
    the time of the last data may have moved forward and the connections may
    have been closed. *)
Lemma tunnel_inv_set s s0 d x :
  tunnel_inv s -> (forall t r, the_pipe s d <> Finished t r) -> pipe_inv (t_now s) (t_last s0) (t_carried s) d x ->
  t_now s0 = t_now s -> t_last s <= t_last s0 <= t_now s -> t_carried s0 = t_carried s -> (forall d', the_pipe s0 d' = the_pipe s d') ->
  t_closes s0 = (if t_once s0 then [TheClient; TheUpstream] else []) -> t_result s0 = t_result s -> tunnel_inv (set_pipe s0 d x).
Proof.
  intros [H1 H2 H3 H4] Hf Hx Hn Hl Hc Hp Hcl Hr. split; cbn [set_pipe t_now t_last t_carried t_closes t_once t_result]; [lia| |done|].
  - intros d'. rewrite the_pipe_set, Hn, Hc, Hp. destruct (decide (d' = d)) as [->|]; [done|]. eapply pipe_inv_mono; [| |apply H2]; lia.
  - intros sent received e. rewrite Hr. intros (Ho' & e1 & e2 & Hu & Hd)%H4. exfalso. destruct d; [by apply (Hf sent e1)|by apply (Hf received e2)].
Qed.

(** The shared state did not change. *)
Lemma tunnel_inv_move s d x :
  tunnel_inv s -> (forall t r, the_pipe s d <> Finished t r) -> pipe_bytes x = pipe_bytes (the_pipe s d) -> pipe_wf (t_now s) x ->
  (forall t, in_this_copy (the_pipe s d) t -> t <= t_now s -> t <= t_last s \/ in_this_copy x t) -> tunnel_inv (set_pipe s d x).
Proof.
  intros Hi Hf Hb Hw Hc. apply (tunnel_inv_set s s); try done; try apply Hi.
  - eapply pipe_inv_move; [apply (ti_pipe _ Hi)|done..].
  - split; [done|apply Hi].
Qed.

Lemma closeBoth_fields s :
  t_now (closeBoth s) = t_now s /\ t_last (closeBoth s) = t_last s /\ t_carried (closeBoth s) = t_carried s /\
  t_result (closeBoth s) = t_result s /\ t_once (closeBoth s) = true /\ (forall d, the_pipe (closeBoth s) d = the_pipe s d) /\
  (t_closes s = (if t_once s then [TheClient; TheUpstream] else []) -> t_closes (closeBoth s) = [TheClient; TheUpstream]).
Proof. unfold closeBoth. destruct (t_once s) eqn:E; split_and!; try done; try by intros []. cbn [t_closes]. by intros ->. Qed.

(** The states in which [finish] and the idle timeout leave the tunnel. *)
Lemma finish_fields s d err s' r :
  finish has_CloseWrite s d err = (s', r) -> t_closes s = (if t_once s then [TheClient; TheUpstream] else []) ->
  t_now s' = t_now s /\ t_last s' = t_last s /\ t_carried s' = t_carried s /\ t_result s' = t_result s /\
  (t_once s = true -> t_once s' = true) /\ (forall d, the_pipe s' d = the_pipe s d) /\ t_closes s' = (if t_once s' then [TheClient; TheUpstream] else []).
Proof.
  intros Hf Hc. destruct (closeBoth_fields s) as (H1 & H2 & H3 & H4 & H5 & H6 & H7). unfold finish in Hf.
  destruct err as [e|]; [|destruct (has_CloseWrite d)]; injection Hf as <- _; try (split_and!; try done; rewrite H5; by apply H7).
Qed.

(** Data is carried. *)
Lemma carry_inv s d total n since dl k :
  tunnel_inv s -> the_pipe s d = Copying total n since dl -> 0 < k ->
  tunnel_inv (carry (set_pipe s d (Copying total (n + k) since dl)) d k).
Proof.
  intros [H1 H2 H3 H4] Hp Hk. split; [done| |done|].
  - intros d'. pose proof (H2 d') as [Hb Ht Hw]. change (the_pipe (carry ?s ?d ?k) d') with (the_pipe s d'). rewrite the_pipe_set. cbn [carry t_now t_last t_carried set_pipe]. split.
    + rewrite bytes_of_snoc, Hb. cbn [fst snd]. destruct (decide (d' = d)) as [->|]; [|rewrite decide_False by congruence; lia].
      rewrite decide_True, Hp by done. simpl. lia.
    + intros t k' [Hin|Hin]%elem_of_app.
      * apply Ht in Hin as [Hle Ho]. split; [done|]. destruct Ho as [?|Ho]; [by left|right]. destruct (decide (d' = d)) as [->|]; [|done].
        rewrite Hp in Ho. simpl in *. lia.
      * apply list_elem_of_singleton in Hin as [= -> -> ->]. split; [done|right]. rewrite decide_True by done. rewrite Hp in Hw. simpl in *. lia.
    + destruct (decide (d' = d)) as [->|]; [|done]. rewrite Hp in Hw. simpl in *. split_and!; [lia|apply Hw..].
  - intros sent received e (Ho & e1 & e2 & Hu & Hd)%H4. exfalso. destruct d; simpl in Hp; congruence.
Qed.

Lemma tstep_inv s s' : tunnel_inv s -> tstep idle has_CloseWrite s s' -> tunnel_inv s'.
Proof.
  intros Hi [d total Hp|d total n since dl k Hp Ho Hk|d total n since dl err Hp Hr|d total n since err Hp|d total err s1 r Hp Ht Hf|d total err Hp Ht Hidle|d total err Hp Ht Hidle|sent e received e' Hu Hd Hr];
    try (pose proof (ti_pipe _ Hi d) as Hx; rewrite Hp in Hx; pose proof (pi_wf _ _ _ _ _ Hx) as Hw; simpl in Hw;
         assert (Hf0 : forall t r, the_pipe s d <> Finished t r) by (by rewrite Hp)).
  - apply tunnel_inv_move; rewrite ?Hp; try done; simpl; lia.
  - by apply carry_inv.
  - apply tunnel_inv_move; rewrite ?Hp; try done; [|by right]. destruct Hw as (Hn & _ & ->). split; [done|]. destruct err as [er|]; [|done].
    intros [_ (t & Ht & _)]%Hr. by destruct (Z.ltb_spec 0 idle).
  - cbv zeta. destruct (Z.ltb_spec 0 n) as [Hn|Hn].
    + change (touch (set_pipe s d ?x)) with (set_pipe (touch s) d x). apply (tunnel_inv_set s); try done; try apply Hi; [|split; [apply Hi|done]].
      eapply pipe_inv_move; [eapply pipe_inv_mono; [| |exact Hx]; [done|apply Hi]|done|exact (proj2 Hw)|by left].
    + apply tunnel_inv_move; rewrite ?Hp; try done; [exact (proj2 Hw)|]. intros t [? _]. lia.
  - apply finish_fields in Hf as (H1 & H2 & H3 & H4 & H5 & H6 & H7); [|apply Hi]. apply (tunnel_inv_set s); try done; rewrite H2; [|split; [done|apply Hi]].
    by eapply pipe_inv_move.
  - destruct (closeBoth_fields s) as (H1 & H2 & H3 & H4 & H5 & H6 & H7). apply (tunnel_inv_set s); try done; rewrite ?H2, ?H5;
      [by eapply pipe_inv_move|split; [done|apply Hi]|apply H7, Hi].
  - apply tunnel_inv_move; by rewrite ?Hp.
  - destruct (closeBoth_fields s) as (H1 & H2 & H3 & H4 & H5 & H6 & H7). split; cbn [set_result t_now t_last t_carried t_closes t_once t_result].
    + rewrite H1, H2. apply Hi.
    + intros d. rewrite H1, H2, H3. specialize (H6 d). destruct d; cbn [the_pipe set_result t_up t_down] in *; rewrite H6; apply (ti_pipe _ Hi).
    + rewrite H5. apply H7, Hi.
    + intros ? ? ? [= <- <- _]. split; [done|]. exists e, e'. specialize (H6 Up) as HU. specialize (H6 Down) as HD. simpl in HU, HD. cbn [set_result t_up t_down]. split; congruence.
Qed.

Lemma trun_inv s n s' : tunnel_inv s -> trun idle has_CloseWrite s n s' -> tunnel_inv s'.
Proof.
  intros Hi. induction 1 as [|n s' s'' _ IH Hs|n s' t _ [H1 H2 H3 H4] Ht]; [done|by eapply tstep_inv|].
  split; cbn [tick t_now t_last t_carried t_closes t_once t_result t_up t_down]; [lia| |done|done].
  intros d. change (the_pipe (tick s' t) d) with (the_pipe s' d). eapply pipe_inv_mono; [exact Ht|done|apply H2].
Qed.

Lemma start_tunnel_inv t : tunnel_inv (tunnel_start t).
Proof. split; cbn; [done| |done|done]. intros d. split; [by destruct d| |by destruct d]. intros ? ? []%elem_of_nil. Qed.

Lemma tunnelCopy_inv t s : tunnelCopy idle has_CloseWrite t s -> tunnel_inv s.
Proof. intros [n Hr]. eapply trun_inv; [apply start_tunnel_inv|exact Hr]. Qed.

(** ** The idle timeout *)

(** A pipe that was woken by its deadline returns only if the tunnel is idle. *)
Lemma switch_timed_out s s' d total total' err r :
  tstep idle has_CloseWrite s s' -> the_pipe s d = Switch total err -> timed_out err = true -> the_pipe s' d = Finished total' r ->
  r = Some errTunnelIdle /\ t_once s' = true /\ idle <= idleFor s.
Proof.
  intros Hs Hp Ht Hf. destruct (closeBoth_fields s) as (_ & _ & _ & _ & Ho & Hc & _).
  destruct Hs as [d0 ? H|d0 ? ? ? ? ? H ? ?|d0 ? ? ? ? ? H ?|d0 ? n ? ? H|d0 ? err0 s1 ? H ? Hfin|d0 ? ? H ? ?|d0 ? ? H ? ?|? ? ? ? Hu Hd ?].
  8: { specialize (Hc d). destruct d; simpl in *; congruence. }
  all: change (the_pipe (carry ?s ?d ?k)) with (the_pipe s) in Hf.
  4: cbv zeta in Hf; destruct (0 <? n); [change (the_pipe (touch ?s)) with (the_pipe s) in Hf|].
  all: rewrite the_pipe_set in Hf; destruct (decide (d = d0)) as [->|]; try congruence.
  - assert (Hs1 : the_pipe s1 d = the_pipe s d) by (unfold finish in Hfin; destruct err0, (has_CloseWrite d0); injection Hfin as <- _; try apply Hc; by destruct d). congruence.
  - by injection Hf as _ <-.
Qed.

(** C30: the idle timeout never cuts a tunnel whose data it has taken note of: when a pipe that was woken by its read deadline gives up, a timeout is configured, it closes both connections, its own direction carried nothing within the timeout, and the other direction carried nothing within the timeout except in the copy it is in or comes from, whose read deadline is a quarter of the timeout (at least 10 ms) after its start. *)
Theorem idle_close_sound t s s' d total total' err r :
  tunnelCopy idle has_CloseWrite t s -> tstep idle has_CloseWrite s s' ->
  the_pipe s d = Switch total err -> timed_out err = true -> the_pipe s' d = Finished total' r ->
  0 < idle /\ r = Some errTunnelIdle /\ t_once s' = true /\
  forall d' when k, (d', when, k) ∈ t_carried s ->
    when <= t_now s - idle \/
    (d' <> d /\ match the_pipe s d' with
     | Copying _ _ since deadline => since <= when /\ deadline = Some (since + Z.max (Z.quot idle 4) (10 * Millisecond))
     | Copied _ _ since _ => since <= when
     | _ => False
     end).
Proof.
  intros Hi%tunnelCopy_inv Hs Hp Hto Hf. pose proof (pi_wf _ _ _ _ _ (ti_pipe _ Hi d)) as Hidle. rewrite Hp in Hidle. specialize (Hidle Hto).
  destruct (switch_timed_out _ _ _ _ _ _ _ Hs Hp Hto Hf) as (-> & Ho & Hle). split_and!; try done.
  intros d' when k Hin. destruct (pi_times _ _ _ _ _ (ti_pipe _ Hi d') when k Hin) as [_ [Hl|Hc]]; [left; unfold idleFor in Hle; lia|].
  right. split; [intros ->; by rewrite Hp in Hc|]. pose proof (pi_wf _ _ _ _ _ (ti_pipe _ Hi d')) as Hw. destruct (the_pipe s d'); simpl in Hc, Hw; try done.
  - destruct Hw as (_ & _ & ->). rewrite (proj2 (Z.ltb_lt _ _) Hidle). split; [apply Hc|done].
  - apply Hc.
Qed.

(** ** The end *)

(** C31: when a tunnel is over, both connections have been closed, each exactly once, and the byte counts it reports are those of the data carried in each direction, over all the copies that deadlines interrupted. *)
Theorem tunnel_accounts t s sent received err :
  tunnelCopy idle has_CloseWrite t s -> t_result s = Some (sent, received, err) ->
  t_closes s = [TheClient; TheUpstream] /\ sent = bytes_of Up (t_carried s) /\ received = bytes_of Down (t_carried s).
Proof.
  intros Hi%tunnelCopy_inv Hr. destruct (ti_result _ Hi _ _ _ Hr) as (Ho & e1 & e2 & Hu & Hd). split_and!.
  - rewrite (ti_closes _ Hi). by rewrite Ho.
  - rewrite (pi_bytes _ _ _ _ _ (ti_pipe _ Hi Up)). simpl. by rewrite Hu.
  - rewrite (pi_bytes _ _ _ _ _ (ti_pipe _ Hi Down)). simpl. by rewrite Hd.
Qed.

(** Steps a pipe takes at most once the connections are closed. *)
Definition steps_left x : nat :=
  match x with
  | Finished _ _ => 0
  | Switch _ err => if timed_out err then 5 else 1
  | Copied _ _ _ err => if timed_out err then 6 else 2
  | Copying _ _ _ _ => 3
  | Head _ => 4
  end.
Definition tunnel_left s : nat := steps_left (t_up s) + steps_left (t_down s) + match t_result s with Some _ => 0 | None => 1 end.

Lemma left_set s d x : (steps_left x < steps_left (the_pipe s d) -> tunnel_left (set_pipe s d x) < tunnel_left s)%nat.
Proof. unfold tunnel_left. destruct d; simpl; destruct (t_result s); lia. Qed.

Lemma closed_same s : t_once s = true -> closeBoth s = s.
Proof. unfold closeBoth. by intros ->. Qed.

Lemma closed_step s s' : t_once s = true -> tstep idle has_CloseWrite s s' -> t_once s' = true /\ (tunnel_left s' < tunnel_left s)%nat.
Proof.
  intros Ho [d total Hp|d total n since dl k Hp Ho' Hk|d total n since dl err Hp Hr|d total n since err Hp|d total err s1 r Hp Ht Hf|d total err Hp Ht Hidle|d total err Hp Ht Hidle|sent e received e' Hu Hd Hr];
    rewrite ?(closed_same s Ho).
  - split; [done|]. apply left_set. rewrite Hp. simpl. lia.
  - congruence.
  - split; [done|]. apply left_set. rewrite Hp. simpl. destruct err as [e|]; [|simpl in Hr; congruence]. destruct Hr as [Hr _]. simpl.
    destruct (is_deadline e); [|lia]. destruct (Hr eq_refl). congruence.
  - cbv zeta. assert (H : (tunnel_left (set_pipe s d (Switch (total + n) err)) < tunnel_left s)%nat).
    { apply left_set. rewrite Hp. simpl. destruct (timed_out err); lia. }
    destruct (0 <? n); by split.
  - assert (Hs1 : t_once s1 = true /\ (forall d, the_pipe s1 d = the_pipe s d) /\ tunnel_left s1 = tunnel_left s).
    { unfold finish in Hf. rewrite (closed_same s Ho) in Hf. destruct err, (has_CloseWrite d); injection Hf as <- _; split_and!; try done; by intros []. }
    destruct Hs1 as (H1 & H2 & <-). split; [done|]. apply left_set. rewrite H2, Hp. simpl. rewrite Ht. lia.
  - split; [done|]. apply left_set. rewrite Hp. simpl. rewrite Ht. lia.
  - split; [done|]. apply left_set. rewrite Hp. simpl. rewrite Ht. lia.
  - split; [done|]. unfold tunnel_left. cbn [set_result t_up t_down t_result]. rewrite Hr. lia.
Qed.

(** A pipe that has not returned can take a step. *)
Lemma closed_pipe_steps s d : t_once s = true -> (exists total r, the_pipe s d = Finished total r) \/ exists s', tstep idle has_CloseWrite s s'.
Proof.
  intros Ho. destruct (the_pipe s d) as [total|total n since dl|total n since err|total err|total r] eqn:E; [right..|left; eauto].
  - eexists. by eapply ts_copy.
  - eexists. eapply (ts_copied _ _ _ _ _ _ _ _ (Some EClosed)); [exact E|]. split; [done|by intros _].
  - eexists. by eapply ts_touch.
  - destruct (timed_out err) eqn:Et.
    + destruct (Z.le_gt_cases idle (idleFor s)); eexists; [by eapply ts_idle|by eapply ts_again].
    + destruct (finish has_CloseWrite s d err) as [s' r] eqn:Ef. eexists. by eapply ts_finish.
Qed.

(** C32: once the connections are closed, whichever pipe closed them, the tunnel is over after at most 13 more steps, however the steps of the two pipes interleave, and until it has returned there always is a step to take. *)
Theorem tunnel_shuts_down s n s' :
  t_once s = true -> trun idle has_CloseWrite s n s' ->
  (n <= 13)%nat /\ (t_result s' = None -> exists s'', tstep idle has_CloseWrite s' s'').
Proof.
  intros Ho Hr. assert (H : t_once s' = true /\ (n + tunnel_left s' <= tunnel_left s)%nat).
  { induction Hr as [|n s' s'' _ [H1 H2] Hs|n s' t _ [H1 H2] Ht]; [by split| |by split]. destruct (closed_step _ _ H1 Hs). split; [done|lia]. }
  destruct H as [H1 H2]. split.
  - assert (forall x, (steps_left x <= 6)%nat) by (intros []; simpl; try destruct (timed_out _); lia).
    pose proof (H (t_up s)). pose proof (H (t_down s)). unfold tunnel_left in H2 at 2. destruct (t_result s); lia.
  - intros Hn. destruct (closed_pipe_steps s' Up H1) as [(t1 & r1 & Hu)|?]; [|done]. destruct (closed_pipe_steps s' Down H1) as [(t2 & r2 & Hd)|?]; [|done].
    eexists. by eapply ts_return.
Qed.
End tunnel.

(** ** Executing runs *)

(** What happens next: a pipe takes its next step, data arrives, an [io.Copy]
    returns, the tunnel returns, time passes. *)
Inductive tcmd := CNext (d : dir) | CData (d : dir) (k : Z) | CEnd (d : dir) (err : option error) | CReturn | CTick (t : Z).

Section exec.
Context (idle : Z) (has_CloseWrite : dir -> bool).

Definition can_return (s : tunnelState) (deadline : option Z) (err : option error) : bool :=
  match err with
  | None => negb (t_once s)
  | Some e =>
      (negb (is_deadline e) || (negb (t_once s) && match deadline with Some t => t <=? t_now s | None => false end)) &&
      (negb (is_closed e) || t_once s)
  end.

Definition texec1 (s : tunnelState) (c : tcmd) : option tunnelState :=
  match c with
  | CNext d =>
      match the_pipe s d with
      | Head total => Some (set_pipe s d (Copying total 0 (t_now s) (if 0 <? idle then Some (t_now s + check_interval idle) else None)))
      | Copied total n _ err => Some (let s := set_pipe s d (Switch (total + n) err) in if 0 <? n then touch s else s)
      | Switch total err =>
          if timed_out err then
            if idle <=? idleFor s then Some (set_pipe (closeBoth s) d (Finished total (Some errTunnelIdle))) else Some (set_pipe s d (Head total))
          else let '(s', r) := finish has_CloseWrite s d err in Some (set_pipe s' d (Finished total r))
      | _ => None
      end
  | CData d k =>
      match the_pipe s d with
      | Copying total n since deadline => if negb (t_once s) && (0 <? k) then Some (carry (set_pipe s d (Copying total (n + k) since deadline)) d k) else None
      | _ => None
      end
  | CEnd d err =>
      match the_pipe s d with
      | Copying total n since deadline => if can_return s deadline err then Some (set_pipe s d (Copied total n since err)) else None
      | _ => None
      end
  | CReturn =>
      match t_up s, t_down s, t_result s with
      | Finished sent e, Finished received e', None => Some (set_result (closeBoth s) (sent, received, join_errors e' e))
      | _, _, _ => None
      end
  | CTick t => if t_now s <=? t then Some (tick s t) else None
  end.

Fixpoint texec (s : tunnelState) (cs : list tcmd) : option tunnelState :=
  match cs with
  | [] => Some s
  | c :: cs => match texec1 s c with Some s => texec s cs | None => None end
  end.

Lemma can_return_true s deadline err : can_return s deadline err = true -> copy_returns s deadline err.
Proof.
  destruct err as [e|]; simpl; [|by destruct (t_once s)]. rewrite andb_true_iff, !orb_true_iff, !negb_true_iff, andb_true_iff, negb_true_iff.
  intros [H1 H2]. split.
  - intros He. destruct H1 as [H1|[Ho Hd]]; [congruence|]. split; [done|]. destruct deadline as [t|]; [|done]. apply Z.leb_le in Hd. eauto.
  - intros He. destruct H2; congruence.
Qed.

Lemma texec1_sound s c s' : texec1 s c = Some s' -> tstep idle has_CloseWrite s s' \/ exists t, t_now s <= t /\ s' = tick s t.
Proof.
  destruct c as [d|d k|d err| |t]; simpl.
  - destruct (the_pipe s d) as [total|total n since dl|total n since err|total err|total r] eqn:E; try done.
    + intros [= <-]. left. by apply ts_copy.
    + intros [= <-]. left. by eapply ts_touch.
    + destruct (timed_out err) eqn:Et.
      * destruct (Z.leb_spec idle (idleFor s)); intros [= <-]; left; [by eapply ts_idle|by eapply ts_again].
      * destruct (finish _ _ _ _) as [s1 r] eqn:Ef. intros [= <-]. left. by eapply ts_finish.
  - destruct (the_pipe s d) eqn:E; try done. destruct (negb _ && _) eqn:Ec; [|done]. apply andb_true_iff in Ec as [H1%negb_true_iff H2%Z.ltb_lt].
    intros [= <-]. left. by apply ts_data.
  - destruct (the_pipe s d) eqn:E; try done. destruct (can_return _ _ _) eqn:Ec; [|done]. intros [= <-]. left. eapply ts_copied; [exact E|].
    by apply can_return_true.
  - destruct (t_up s) eqn:E1, (t_down s) eqn:E2, (t_result s) eqn:E3; try done. intros [= <-]. left. by apply ts_return.
  - destruct (Z.leb_spec (t_now s) t); [|done]. intros [= <-]. right. by exists t.
Qed.

Lemma texec_run s0 n s cs s' :
  trun idle has_CloseWrite s0 n s -> texec s cs = Some s' -> exists m, trun idle has_CloseWrite s0 m s'.
Proof.
  revert n s. induction cs as [|c cs IH]; intros n s Hr; simpl; [intros [= <-]; eauto|].
  destruct (texec1 s c) as [s1|] eqn:E; [|done]. apply texec1_sound in E as [Hs|(t & Ht & ->)].
  - apply (IH (S n)). by eapply tr_step.
  - apply (IH n). by apply tr_tick.
Qed.

Lemma texec_tunnel t cs s : texec (tunnel_start t) cs = Some s -> tunnelCopy idle has_CloseWrite t s.
Proof. intros H. eapply texec_run; [apply tr_refl|exact H]. Qed.
End exec.

(** *** Examples *)

(** Both pipes start a copy; one that was woken by its deadline looks again. *)
Definition wake (d : dir) : list tcmd := [CEnd d (Some (EWrap (str "read") EDeadline)); CNext d; CNext d].
Definition quiet_second (n : Z) : list tcmd := [CNext Up; CNext Down; CTick (n * Second)] ++ wake Up ++ wake Down.

(** With a timeout of four seconds the upstream sends after three and a half;
    the pipe from the client, which wakes first, closes the tunnel at four. *)
Definition cut_script : list tcmd :=
  concat (quiet_second <$> [1; 2; 3]) ++
  [CNext Up; CNext Down; CTick (3500 * Millisecond); CData Down 1000; CTick (4 * Second); CEnd Up (Some (EWrap (str "read") EDeadline)); CNext Up].

Definition full_duplex : dir -> bool := fun _ => true.

Definition tunnel_test (idle : Z) (cs : list tcmd) (f : tunnelState -> bool) : bool :=
  match texec idle full_duplex (tunnel_start 0) cs with Some s => f s | None => false end.
Lemma tunnel_test_true idle cs f : tunnel_test idle cs f = true -> exists s, tunnelCopy idle full_duplex 0 s /\ f s = true.
Proof. unfold tunnel_test. destruct (texec _ _ _ _) as [s|] eqn:E; [|done]. intros H. exists s. split; [by eapply texec_tunnel|done]. Qed.

Definition at_switch (x : pipe) : bool := match x with Switch total err => (total =? 0) && timed_out err | _ => false end.

(** The state of the script before the pipe gives up. *)
Lemma cut_state :
  exists s err, tunnelCopy (4 * Second) full_duplex 0 s /\ t_up s = Switch 0 err /\ timed_out err = true /\ t_now s = 4 * Second /\
    t_carried s = [(Down, 3500 * Millisecond, 1000)] /\ t_last s = 0.
Proof.
  destruct (tunnel_test_true (4 * Second) cut_script (fun s => at_switch (t_up s) && (t_now s =? 4 * Second) &&
    bool_decide (t_carried s = [(Down, 3500 * Millisecond, 1000)]) && (t_last s =? 0))) as (s & Hs & Ht); [vm_compute; reflexivity|].
  rewrite !andb_true_iff, !Z.eqb_eq, bool_decide_eq_true in Ht. destruct Ht as [[[Hu Hn] Hc] Hl]. unfold at_switch in Hu. destruct (t_up s) as [| | |total err|] eqn:E; try done.
  apply andb_true_iff in Hu as [->%Z.eqb_eq Hto]. exists s, err. by split_and!.
Qed.

(** A tunnel can be cut although data was carried within the timeout, even if every read deadline fires on time: data that the other direction's copy in progress has carried is not taken note of until that copy returns. With a timeout of four seconds there is a run in which the upstream sends 1000 bytes half a second before the tunnel is closed as idle. *)
Theorem idle_cuts_active_tunnel :
  exists s s', tunnelCopy (4 * Second) full_duplex 0 s /\ tstep (4 * Second) full_duplex s s' /\
    t_up s' = Finished 0 (Some errTunnelIdle) /\ t_once s' = true /\
    t_now s = 4 * Second /\ (Down, 3500 * Millisecond, 1000) ∈ t_carried s.
Proof.
  destruct cut_state as (s & err & Hs & Hu & Ht & Hn & Hc & Hl). exists s, (set_pipe (closeBoth s) Up (Finished 0 (Some errTunnelIdle))).
  split; [done|]. split; [eapply ts_idle; [exact Hu|done|unfold idleFor; rewrite Hn, Hl; lia]|]. split_and!; [done| |done|rewrite Hc; left].
  cbn [set_pipe t_once]. unfold closeBoth. by destruct (t_once s) eqn:E.
Qed.

Lemma idle_close_sound_witness :
  exists s s', tunnelCopy (4 * Second) full_duplex 0 s /\ tstep (4 * Second) full_duplex s s' /\ t_once s' = true /\
    match t_down s with
    | Copying _ _ since deadline => since <= 3500 * Millisecond /\ deadline = Some (since + Second)
    | Copied _ _ since _ => since <= 3500 * Millisecond
    | _ => False
    end.
Proof.
  destruct cut_state as (s & err & Hs & Hu & Ht & Hn & Hc & Hl).
  assert (Hstep : tstep (4 * Second) full_duplex s (set_pipe (closeBoth s) Up (Finished 0 (Some errTunnelIdle))))
    by (eapply ts_idle; [exact Hu|exact Ht|unfold idleFor; rewrite Hn, Hl; lia]).
  exists s, (set_pipe (closeBoth s) Up (Finished 0 (Some errTunnelIdle))). split; [exact Hs|]. split; [exact Hstep|].
  destruct (idle_close_sound (4 * Second) full_duplex 0 s _ Up 0 0 err _ Hs Hstep Hu Ht eq_refl) as (_ & _ & Ho & H). split; [exact Ho|].
  destruct (H Down (3500 * Millisecond) 1000) as [H1|[_ H1]]; [rewrite Hc; left|rewrite Hn in H1; vm_compute in H1; destruct H1; reflexivity|].
  exact H1.
Defined.

(** The client sends, both sides end, and the tunnel returns. *)
Definition end_script : list tcmd :=
  [CNext Up; CData Up 10; CNext Down; CData Down 20; CData Up 5; CEnd Up None; CNext Up; CNext Up; CData Down 1; CEnd Down None; CNext Down; CNext Down; CReturn].

Lemma tunnel_accounts_witness :
  exists s, tunnelCopy 0 full_duplex 0 s /\ t_result s = Some (15, 21, None) /\ t_closes s = [TheClient; TheUpstream] /\ bytes_of Up (t_carried s) = 15.
Proof.
  destruct (tunnel_test_true 0 end_script (fun s => match t_result s with Some (a, b, None) => (a =? 15) && (b =? 21) | _ => false end)) as (s & Hs & Ht);
    [vm_compute; reflexivity|].
  destruct (t_result s) as [[[a b] [e|]]|] eqn:Er; try discriminate Ht. apply andb_true_iff in Ht as [->%Z.eqb_eq ->%Z.eqb_eq].
  destruct (tunnel_accounts 0 full_duplex 0 s _ _ _ Hs Er) as (H1 & H2 & _). exists s. split; [exact Hs|]. split; [exact Er|]. split; [exact H1|]. symmetry. exact H2.
Defined.

Lemma tunnel_shuts_down_witness :
  exists s n s', t_once s = true /\ trun 0 full_duplex s n s' /\ (n <= 13)%nat.
Proof.
  pose (s := closeBoth (tunnel_start 0)).
  assert (Hr : trun 0 full_duplex s 1 (set_pipe s Up (Copying 0 0 0 None))) by (eapply tr_step; [apply tr_refl|by apply (ts_copy 0 full_duplex s Up 0)]).
  exists s, 1%nat, (set_pipe s Up (Copying 0 0 0 None)). split; [reflexivity|]. split; [exact Hr|].
  exact (proj1 (tunnel_shuts_down 0 full_duplex s 1 _ eq_refl Hr)).
Defined.
