(* ===== verification/Relay.v ===== *)
(** * Relay: response bodies and the wrapped client connection

    [io.Copy] with the writers the proxy gives it: [bodyWriter] and
    [flushWriter] of proxy.go, and [clientConn] of listener.go, whose
    [CloseWrite] and [ReadFrom] forward to the connection. What a writer
    promises is the class [Writes]; the wrappers keep the promise, and the
    theorems about [io.Copy] are proved from it. *)

From Stdlib Require Import ZArith NArith Ascii String Lia Bool List.
From stdpp Require Import base tactics list gmap strings option.
From S2P Require Import Prelude GoStrings Policy Config Http Proxy.

Local Open Scope Z_scope.

(** ** Readers, writers, io.Copy *)

(** What is read from a body: the chunks that successive reads return, and the
    error that ends them, none at the end of the data. *)
Record Body := mkBody { bd_chunks : list gostring; bd_end : option error }.

Definition bd_bytes (src : Body) : gostring := concat (bd_chunks src).

(** An [io.Writer] over the state [W], which may be an [io.ReaderFrom] too. *)
Record Writer (W : Type) := mkWriter {
  wr_Write : W -> gostring -> W * (Z * option error);
  wr_ReadFrom : option (W -> Body -> W * (Z * option error))
}.
Arguments mkWriter {W}.
Arguments wr_Write {W}.
Arguments wr_ReadFrom {W}.

Definition errInvalidWrite : error := ENew (str "invalid write result").
Definition ErrShortWrite : error := ENew (str "short write").

Section copy.
Context {W : Type}.

(** The loop of [io.Copy] when the writer is no [io.ReaderFrom]. *)
Fixpoint copyBuffer (write : W -> gostring -> W * (Z * option error)) (w : W) (written : Z) (chunks : list gostring) (err : option error) :
    W * (Z * option error) :=
  match chunks with
  | [] => (w, (written, err))
  | b :: chunks =>
      if bool_decide (b = []) then copyBuffer write w written chunks err else
      let nr := Z.of_nat (length b) in
      let '(w, (nw, ew)) := write w b in
      let '(nw, ew) := if (nw <? 0) || (nr <? nw) then (0, Some (default errInvalidWrite ew)) else (nw, ew) in
      match ew with
      | Some e => (w, (written + nw, Some e))
      | None => if nr =? nw then copyBuffer write w (written + nw) chunks err else (w, (written + nw, Some ErrShortWrite))
      end
  end.

Definition io_Copy (dst : Writer W) (w : W) (src : Body) : W * (Z * option error) :=
  match wr_ReadFrom dst with
  | Some rf => rf w src
  | None => copyBuffer (wr_Write dst) w 0 (bd_chunks src) (bd_end src)
  end.
End copy.

(** ** flushWriter, bodyWriter *)

(** [http.ResponseWriter] as far as bodies go: [Flush] is what the response
    controller does, with an error when the writer does not support it. *)
Class ResponseWriter (W : Type) := { rw_Writer : Writer W; Flush : W -> W * option error }.

Section response.
Context {W : Type} `{!ResponseWriter W}.

(** [flushWriter.Write] *)
Definition flushWriter_Write (w : W) (b : gostring) : W * (Z * option error) :=
  let '(w, (n, err)) := wr_Write rw_Writer w b in
  match err with
  | None => (fst (Flush w), (n, None))
  | Some e => (w, (n, Some e))
  end.

(** [flushWriter] has no other method. *)
Definition flushWriter : Writer W := mkWriter flushWriter_Write None.

(** The writer that [bodyWriter] returns. *)
Definition body_writer (resp : Response) : Writer W := if bodyWriter resp then flushWriter else rw_Writer.

Context {St : Type} (Enabled : Z -> bool).

(** Copying the body in [serveRequest], after the status and the header. *)
Definition relayBody (p : Proxy St) (w : W) (resp : Response) (src : Body) : Proxy St * W :=
  let '(w, (_, err)) := io_Copy (body_writer resp) w src in
  (match err with
   | Some e => if Enabled DebugLevel then write p (LDebug (str "response body truncated") e) else p
   | None => p
   end, w).

(** [serverLog.Write] *)
Definition serverLog_Write (p : Proxy St) (b : gostring) : Proxy St * (Z * option error) :=
  (if Enabled DebugLevel then write p (LServer (TrimSpace b)) else p, (Z.of_nat (length b), None)).
End response.

(** ** clientConn *)

(** A connection as a writer, which may have a [CloseWrite] method. *)
Class Conn (C : Type) := { conn_Writer : Writer C; conn_CloseWrite : option (C -> C * option error) }.

Record clientConn (C : Type) := mkClientConn { cc_Conn : C; cc_release : nat }.
Arguments mkClientConn {C}.
Arguments cc_Conn {C}.
Arguments cc_release {C}.

Section wrapped.
Context {C : Type} `{!Conn C}.

(** A method of the wrapped connection. *)
Definition on_conn {A} (f : C -> C * A) (c : clientConn C) : clientConn C * A :=
  let '(x, a) := f (cc_Conn c) in (mkClientConn x (cc_release c), a).

(** [clientConn.CloseWrite] *)
Definition clientConn_CloseWrite (c : clientConn C) : clientConn C * option error :=
  match conn_CloseWrite with Some cw => on_conn cw c | None => (c, None) end.

(** [clientConn.ReadFrom]: the connection's own method, or [io.Copy] to its
    [Write] alone. *)
Definition clientConn_ReadFrom (c : clientConn C) (r : Body) : clientConn C * (Z * option error) :=
  match wr_ReadFrom (conn_Writer (C := C)) with
  | Some rf => on_conn (fun x => rf x r) c
  | None => on_conn (fun x => io_Copy (mkWriter (wr_Write conn_Writer) None) x r) c
  end.

Definition clientConn_Writer : Writer (clientConn C) :=
  mkWriter (fun c b => on_conn (fun x => wr_Write conn_Writer x b) c) (Some clientConn_ReadFrom).

#[export] Instance clientConn_Conn : Conn (clientConn C) := {| conn_Writer := clientConn_Writer; conn_CloseWrite := Some clientConn_CloseWrite |}.

(** [unwrap] *)
Definition unwrap (c : clientConn C + C) : C := match c with inl cc => cc_Conn cc | inr c => c end.
End wrapped.

(** ** What a writer promises *)

(** [taken] is what the writer has accepted so far. The outcome of copying
    [src]: a leading part of it was accepted, all of it when there is no error. *)
Definition copied {W} (taken : W -> gostring) (w : W) (src : Body) (res : W * (Z * option error)) : Prop :=
  let '(w', (n, err)) := res in
  (exists k, taken w' = taken w ++ firstn k (bd_bytes src)) /\
  (err = None -> taken w' = taken w ++ bd_bytes src /\ n = Z.of_nat (length (bd_bytes src)) /\ bd_end src = None).

(** The contracts of [io.Writer] and [io.ReaderFrom]. *)
Class Writes {W} (taken : W -> gostring) (dst : Writer W) : Prop := {
  Write_taken w b w' n err :
    wr_Write dst w b = (w', (n, err)) ->
    0 <= n <= Z.of_nat (length b) /\ taken w' = taken w ++ firstn (Z.to_nat n) b /\ (n < Z.of_nat (length b) -> err <> None);
  ReadFrom_taken rf w src : wr_ReadFrom dst = Some rf -> copied taken w src (rf w src)
}.

Section contract.
Context {W : Type} (taken : W -> gostring).

Lemma copyBuffer_copied dst w written chunks err :
  Writes taken dst ->
  let '(w', (n, e)) := copyBuffer (wr_Write dst) w written chunks err in
  (exists k, taken w' = taken w ++ firstn k (concat chunks)) /\
  (e = None -> taken w' = taken w ++ concat chunks /\ n = written + Z.of_nat (length (concat chunks)) /\ err = None).
Proof.
  intros Hdst. revert w written. induction chunks as [|b chunks IH]; intros w written; cbn [copyBuffer concat].
  { split; [exists 0%nat; by rewrite app_nil_r|]. rewrite app_nil_r. cbn. intros ->. split_and!; [done|lia|done]. }
  case_bool_decide as Hb; [subst b; apply IH|]. destruct (wr_Write dst w b) as [w1 [nw ew]] eqn:Hw.
  apply Write_taken in Hw as (Hn & Ht & Hs). rewrite (proj2 (orb_false_iff _ _)) by (split; apply Z.ltb_ge; lia).
  assert (Hpart : exists k, taken w1 = taken w ++ firstn k (b ++ concat chunks)).
  { exists (Z.to_nat nw). rewrite Ht, firstn_app. replace (Z.to_nat nw - length b)%nat with 0%nat by lia. by rewrite firstn_O, app_nil_r. }
  destruct ew as [e|]; [by split|]. destruct (Z.eqb_spec (Z.of_nat (length b)) nw) as [E|E]; [|by split].
  rewrite <- E, Nat2Z.id, firstn_all in Ht. specialize (IH w1 (written + nw)). destruct (copyBuffer _ _ _ _ _) as [w' [n e]].
  destruct IH as [[k Hk] Hall]. rewrite Ht, <- app_assoc in Hk, Hall. split.
  - exists (length b + k)%nat. rewrite Hk. f_equal. rewrite firstn_app, (firstn_all2 b) by lia. by rewrite Nat.add_comm, Nat.add_sub.
  - intros He. destruct (Hall He) as (H1 & H2 & H3). split_and!; [done| |done]. rewrite length_app. lia.
Qed.

(** [io.Copy] to a writer that keeps the contract. *)
Lemma io_Copy_copied dst w src : Writes taken dst -> copied taken w src (io_Copy dst w src).
Proof.
  intros Hdst. unfold io_Copy. destruct (wr_ReadFrom dst) as [rf|] eqn:E; [by apply ReadFrom_taken|].
  exact (copyBuffer_copied dst w 0 (bd_chunks src) (bd_end src) Hdst).
Qed.

Lemma Writes_only dst : Writes taken dst -> Writes taken (mkWriter (wr_Write dst) None).
Proof. intros Hdst. split; [exact (Write_taken (dst := dst))|done]. Qed.

(** A copy that goes on after [pre] passes through the state after [pre]. *)
Lemma copyBuffer_app (write : W -> gostring -> W * (Z * option error)) w written pre post err :
  copyBuffer write w written (pre ++ post) err =
  match copyBuffer write w written pre None with
  | (w', (n, None)) => copyBuffer write w' n post err
  | stopped => stopped
  end.
Proof.
  revert w written. induction pre as [|b pre IH]; intros w written; cbn [copyBuffer app]; [done|].
  case_bool_decide; [apply IH|]. destruct (write w b) as [w1 [nw ew]]. destruct (_ || _); [done|]. destruct ew; [done|].
  destruct (_ =? _); [apply IH|done].
Qed.
End contract.

(** The wrapped connection keeps the contract of the connection, with
    [ReadFrom] or without. *)
#[export] Instance clientConn_Writes {C} `{!Conn C} (taken : C -> gostring) :
  Writes taken conn_Writer -> Writes (fun c => taken (cc_Conn c)) (clientConn_Writer (C := C)).
Proof.
  intros Hc. split.
  - intros c b c' n err. cbn [clientConn_Writer wr_Write]. unfold on_conn. destruct (wr_Write _ _ _) as [x [n' err']] eqn:E.
    intros [= <- <- <-]. by apply Write_taken in E.
  - intros rf c src [= <-]. unfold clientConn_ReadFrom. destruct (wr_ReadFrom _) as [f|] eqn:E; unfold on_conn.
    + pose proof (ReadFrom_taken (taken := taken) f (cc_Conn c) src E) as Hf. by destruct (f _ _) as [x [n err]].
    + pose proof (io_Copy_copied taken (mkWriter (wr_Write conn_Writer) None) (cc_Conn c) src (Writes_only taken _ Hc)) as Hf.
      by destruct (io_Copy _ _ _) as [x [n err]].
Qed.

(** ** Relaying a body *)

(** What a response writer promises besides: [delivered] is what has left its
    buffer, and a flush that succeeds delivers everything. *)
Class Flushes (W : Type) `{!ResponseWriter W} (taken delivered : W -> gostring) : Prop := {
  rw_Writes :: Writes taken (rw_Writer (W := W));
  Flush_taken w : taken (fst (Flush w)) = taken w;
  Flush_delivered w : snd (Flush w) = None -> delivered (fst (Flush w)) = taken w
}.

Section relay.
Context {W : Type} `{!ResponseWriter W} (taken delivered : W -> gostring) `{!Flushes W taken delivered}.

Lemma flushWriter_Write_taken w b w' n err :
  flushWriter_Write w b = (w', (n, err)) ->
  exists w1, wr_Write rw_Writer w b = (w1, (n, err)) /\ taken w' = taken w1 /\ (err = None -> w' = fst (Flush w1)).
Proof.
  unfold flushWriter_Write. destruct (wr_Write _ w b) as [w1 [n1 [e|]]]; intros [= <- <- <-]; exists w1; split_and!; try done.
  apply Flush_taken.
Qed.

#[local] Instance flushWriter_Writes : Writes taken (flushWriter (W := W)).
Proof.
  split; [|done]. intros w b w' n err (w1 & E & -> & _)%flushWriter_Write_taken. by apply Write_taken in E.
Qed.

#[local] Instance body_writer_Writes resp : Writes taken (body_writer (W := W) resp).
Proof. unfold body_writer. destruct (bodyWriter resp); exact _. Qed.

(** Chunk by chunk: after any part of the body that was written without error
    nothing of it is left in the buffer. *)
Lemma flushed_prefix (Hflush : forall w, snd (Flush w) = None) w written pre w' n :
  copyBuffer flushWriter_Write w written pre None = (w', (n, None)) -> delivered w = taken w ->
  delivered w' = taken w' /\ taken w' = taken w ++ concat pre.
Proof.
  revert w written. induction pre as [|b pre IH]; intros w written; cbn [copyBuffer concat].
  { intros [= <- _] Hd. by rewrite app_nil_r. }
  case_bool_decide as Hb; [subst b; apply IH|]. destruct (flushWriter_Write w b) as [w1 [nw ew]] eqn:Hw.
  destruct (Write_taken (dst := flushWriter) _ _ _ _ _ Hw) as (Hn & Ht & _). rewrite (proj2 (orb_false_iff _ _)) by (split; apply Z.ltb_ge; lia).
  destruct ew as [e|]; [done|]. destruct (Z.eqb_spec (Z.of_nat (length b)) nw) as [E|E]; [|done]. intros Hc _.
  apply flushWriter_Write_taken in Hw as (w2 & _ & Ht2 & Hf). rewrite <- E, Nat2Z.id, firstn_all in Ht.
  destruct (IH _ _ Hc) as [H1 H2]; [|split; [done|by rewrite H2, Ht, <- app_assoc]].
  rewrite (Hf eq_refl) at 1. by rewrite Flush_delivered, Ht2.
Qed.

Context {St : Type} (Enabled : Z -> bool).

(** C22: the server's writer is given the body of a response unchanged: a leading part of it, in order; when that is not the whole body, or the body itself ended with an error, the truncation is logged if the debug level is enabled, and nothing else is ever logged. Of a body of unknown length, a stream, every part that was read and written has left the server's buffer before the next read, so a slow stream is not held back, provided the writer can flush; a copy that does not get that far stopped with an error. *)
Theorem body_relayed (p p' : Proxy St) w w' resp src :
  relayBody Enabled p w resp src = (p', w') ->
  (exists k, taken w' = taken w ++ firstn k (bd_bytes src)) /\
  (taken w' <> taken w ++ bd_bytes src \/ bd_end src <> None -> Enabled DebugLevel = true ->
     exists e, p' = write p (LDebug (str "response body truncated") e)) /\
  (p' = p \/ Enabled DebugLevel = true /\ exists e, p' = write p (LDebug (str "response body truncated") e)) /\
  (rs_ContentLength resp < 0 -> delivered w = taken w -> (forall w, snd (Flush w) = None) -> forall pre post, bd_chunks src = pre ++ post ->
     (exists w1 n, io_Copy (body_writer resp) w src = copyBuffer flushWriter_Write w1 n post (bd_end src) /\ delivered w1 = taken w ++ concat pre) \/
     (exists n e, io_Copy (body_writer resp) w src = (w', (n, Some e)) /\ io_Copy (body_writer resp) w (mkBody pre None) = (w', (n, Some e)))).
Proof.
  unfold relayBody. pose proof (io_Copy_copied taken (body_writer resp) w src _) as Hc. intros E. split_and!.
  - destruct (io_Copy _ w src) as [w1 [n err]]. injection E as _ <-. apply Hc.
  - destruct (io_Copy _ w src) as [w1 [n [e|]]]; injection E as <- <-; intros Ht Hd; [rewrite Hd; by exists e|]. destruct Hc as [_ Hc]. naive_solver.
  - destruct (io_Copy _ w src) as [w1 [n [e|]]]; injection E as <- <-; [|by left]. destruct (Enabled DebugLevel); [right; eauto|by left].
  - intros Hlen Hw Hflush pre post Hsrc. assert (Hb : body_writer resp = flushWriter (W := W)).
    { unfold body_writer, bodyWriter. by rewrite (proj2 (Z.leb_gt _ _)). }
    rewrite Hb in *. unfold io_Copy in *. cbn [flushWriter wr_ReadFrom wr_Write bd_chunks bd_end] in *. rewrite Hsrc, copyBuffer_app in *.
    destruct (copyBuffer _ w 0 pre None) as [w1 [n [e|]]] eqn:Ep; [right|left].
    + injection E as _ <-. by exists n, e.
    + exists w1, n. split; [done|]. destruct (flushed_prefix Hflush _ _ _ _ _ Ep Hw) as [-> ->]. done.
Qed.
End relay.

(** ** Witness: a writer with a buffer of four bytes *)

Record buffered := mkBuffered { bf_sent : gostring; bf_buf : gostring }.
Definition bf_taken (w : buffered) : gostring := bf_sent w ++ bf_buf w.
Definition bf_Write (w : buffered) (b : gostring) : buffered * (Z * option error) :=
  let all := bf_buf w ++ b in
  (if (4 <? length all)%nat then mkBuffered (bf_sent w ++ all) [] else mkBuffered (bf_sent w) all, (Z.of_nat (length b), None)).
Definition bf_Flush (w : buffered) : buffered * option error := (mkBuffered (bf_taken w) [], None).
#[local] Instance buffered_writer : ResponseWriter buffered := {| rw_Writer := mkWriter bf_Write None; Flush := bf_Flush |}.

#[local] Instance buffered_flushes : Flushes buffered bf_taken bf_sent.
Proof.
  split; [split; [|done]|..].
  - intros w b w' n err [= <- <- <-]. rewrite Nat2Z.id, firstn_all. split_and!; [lia..| |lia].
    unfold bf_taken. destruct (_ <? _)%nat; cbn [bf_sent bf_buf]; by rewrite ?app_nil_r, <- ?app_assoc.
  - intros w. unfold bf_taken. cbn. by rewrite app_nil_r.
  - done.
Qed.

Definition stream : Body := mkBody [str "ab"; str "c"] None.
Definition streamed : Response := mkResponse 200 ∅ (-1) ∅.

Lemma body_relayed_witness :
  exists w1 n, io_Copy (body_writer streamed) (mkBuffered [] []) stream = copyBuffer flushWriter_Write w1 n [str "c"] None /\ bf_sent w1 = str "ab".
Proof.
  destruct (body_relayed bf_taken bf_sent (fun _ => true) (NewProxy (mkConfig 0 (mkPolicy []) 0 DefaultClientLimits ∅) tt) _ (mkBuffered [] []) _ streamed stream (surjective_pairing _))
    as (_ & _ & _ & Hs).
  destruct (Hs eq_refl eq_refl (fun _ => eq_refl) [str "ab"] [str "c"] eq_refl) as [(w1 & n & H1 & H2)|(n & e & H1 & _)].
  - exists w1, n. split; [exact H1|exact H2].
  - exfalso. vm_compute in H1. discriminate H1.
Defined.
