(* ===== verification/Main.v ===== *)
(** * Main: cmd/proxy-acl/main.go, Store.Watch, Proxy.Serve

    Starting the program and what runs afterwards: the watcher of the config
    file and the proxy, which reads the active config from the store. What the
    operating system and net/http's server return are the fields of [startup]. *)

From Stdlib Require Import ZArith NArith Ascii String Lia Bool List.
From stdpp Require Import base tactics list gmap strings option sets relations.
From S2P Require Import Prelude GoStrings Netip GoFloat Rules Policy Limits HostPort Config Upstream Http Proxy.

Local Open Scope Z_scope.

(** ** Store.Watch *)

(** [filepath.Dir] on Unix: what stands before the last separator. *)
Definition Dir (path : gostring) : gostring :=
  Clean (match LastIndexByte path "/" with Some i => firstn (S i) path | None => [] end).

(** [Watch]: the error, or the directory that is watched and the loop that was
    started. A watcher that cannot be used is closed again. *)
Definition Watch (newWatcher : result unit) (add : gostring -> result unit) (s : Store) : result (gostring * watcher) :=
  let* _ := newWatcher in
  let* _ := add (Dir (st_path s)) in
  Ok (Dir (st_path s), watch_start s).

(** ** Proxy.Serve *)

(** The fields of [http.Server] the program sets. *)
Record Server := mkServer { ReadHeaderTimeout : Z; IdleTimeout : Z; MaxHeaderBytes : Z }.
Definition newServer : Server := mkServer (10 * Second) Minute (Z.shiftl 64 10).

Definition sweepInterval : Z := 10 * Second.
Definition shutdownGrace : Z := 5 * Second.

Definition ErrServerClosed : error := ENew (str "http: Server closed").
Definition is_ErrServerClosed (e : error) : bool :=
  errors_Is (fun e => match e with ENew m => bool_decide (m = str "http: Server closed") | _ => false end) e.

(** What [Serve] returns when the server's own [Serve] has returned [err]. *)
Definition Serve_result (err : error) : option error := if is_ErrServerClosed err then None else Some err.

(** A call of [Serve]: whether its context is cancelled, the deadline of the
    call of [Shutdown] once the goroutine that waits for the context has made
    it, whether [maintain] runs, and what [Serve] has returned. *)
Record serving := mkServing { sv_cancelled : bool; sv_shutdown : option Z; sv_maintain : bool; sv_returned : option (option error) }.

Definition serve_start : serving := mkServing false None true None.

(** What happens to it: the context is cancelled, the waiting goroutine calls
    [Shutdown], [maintain] sees that the context is done, the server returns.
    net/http documents that it returns [ErrServerClosed] after [Shutdown]. *)
Inductive serve_event := SvCancel | SvShutdown (now : Z) | SvMaintainDone | SvServed (err : error).

Definition serve_step (s : serving) (ev : serve_event) : option serving :=
  match ev with
  | SvCancel => Some (mkServing true (sv_shutdown s) (sv_maintain s) (sv_returned s))
  | SvShutdown now =>
      if sv_cancelled s && bool_decide (sv_shutdown s = None)
      then Some (mkServing true (Some (now + shutdownGrace)) (sv_maintain s) (sv_returned s)) else None
  | SvMaintainDone => if sv_cancelled s then Some (mkServing true (sv_shutdown s) false (sv_returned s)) else None
  | SvServed err =>
      if bool_decide (sv_returned s = None) && (negb (is_ErrServerClosed err) || bool_decide (is_Some (sv_shutdown s)))
      then Some (mkServing (sv_cancelled s) (sv_shutdown s) (sv_maintain s) (Some (Serve_result err))) else None
  end.

Section maintain.
Context {St : Type} (Enabled : Z -> bool).

(** What the select of [maintain] can receive: the context is done, or a tick,
    with the orders in which Go then visits its maps. *)
Inductive maintain_event := MDone | MTick (now : Z) (cs : list (Addr * nat)) (os : list (Prefix * nat)) (order : list gostring).

(** [maintain] over a sequence of events. *)
Fixpoint maintain (p : Proxy St) (evs : list maintain_event) : Proxy St :=
  match evs with
  | [] | MDone :: _ => p
  | MTick now cs os order :: evs => maintain (maintain_tick Enabled p now cs os order) evs
  end.
End maintain.

(** ** main.run *)

Record flags := mkFlags { fl_config : gostring; fl_listen : gostring; fl_logFormat : gostring; fl_version : bool }.

(** What the outside world returns during a start: the working directory, the
    contents of the config file, the file watcher, the listener, and the HTTP
    server in the end. *)
Record startup := mkStartup {
  su_cwd : result gostring;
  su_contents : result gostring;
  su_newWatcher : result unit;
  su_add : gostring -> result unit;
  su_listen : gostring -> result unit;
  su_serve : error
}.

(** What [run] does, in order. *)
Inductive main_step :=
| MPrint (s : gostring)
| MConsole
| MLevel (lvl : Z)
| MWatch (dir : gostring)
| MListen (addr : gostring)
| MServe.

Section run.
Context (engine : gostring -> option (gostring -> bool)).
Context (Decode : (list gostring -> Node -> result (list gostring)) -> (Node -> result Z) -> gostring -> decoded).
Context (ParseLevel : gostring -> result Z).
Context (version : gostring).

Definition main_run (f : flags) (w : startup) : list main_step * option error :=
  if fl_version f then ([MPrint version], None) else
  if negb (bool_decide (fl_logFormat f = str "json") || bool_decide (fl_logFormat f = str "console"))
  then ([], Some (EWrap (fl_logFormat f) (ENew (str "unknown log format")))) else
  let steps := if bool_decide (fl_logFormat f = str "console") then [MConsole] else [] in
  let failed ctx e := Some (EWrap ctx e) in
  match NewStore engine Decode ParseLevel (su_cwd w) (fl_config f) (su_contents w) with
  | Err e => (steps, failed (str "load config " ++ fl_config f) e)
  | Ok (s, err) =>
      (* the level of every config that becomes active *)
      let steps := steps ++ ((fun cfg => MLevel (LogLevel cfg)) <$> st_applied s) in
      match err with
      | Some e => (steps, failed (str "load config " ++ fl_config f) e)
      | None =>
          match Watch (su_newWatcher w) (su_add w) s with
          | Err e => (steps, failed (str "watch config") e)
          | Ok (dir, _) =>
              let steps := steps ++ [MWatch dir] in
              match su_listen w (fl_listen f) with
              | Err e => (steps, failed (str "listen on " ++ fl_listen f) e)
              | Ok _ => (steps ++ [MListen (fl_listen f); MServe], Serve_result (su_serve w))
              end
          end
      end
  end.

End run.

(** ** The running program *)

(** The watcher with its store, the proxy that reads the store's config, and the
    call of [Serve]. *)
Record program (St : Type) := mkProgram { pg_watcher : watcher; pg_proxy : Proxy St; pg_serving : serving }.
Arguments mkProgram {St}.
Arguments pg_watcher {St}.
Arguments pg_proxy {St}.
Arguments pg_serving {St}.

(** [store.Current]; [New] is given the method itself, so the proxy sees every
    change at once. *)
Definition Current (s : Store) : option Config := st_cur s.

Definition with_current {St} (p : Proxy St) (s : Store) : Proxy St :=
  match Current s with
  | Some cfg => mkProxy cfg (px_resolver p) (px_clients p) (px_upstream p) (px_log p)
  | None => p
  end.
