(* ===== verification/MainFacts.v ===== *)
(** * The program as a whole

    Starting fails closed; the directory that is watched is the one in which
    changes of the config file are seen; and the running program, store, watcher
    and proxy, is a run of the proxy of [ProxyFacts] in which every config in
    force was accepted by [Parse]. *)

From Stdlib Require Import ZArith NArith Ascii String Lia Bool List.
From stdpp Require Import base tactics list gmap strings option sets fin_maps relations.
From S2P Require Import Prelude GoStrings Netip AddrText GoFloat Rules Policy Limits LimitsFacts TrackerFacts HostPort PolicyFacts.
From S2P Require Import Config ConfigFacts Upstream UpstreamFacts Http Proxy ProxyFacts Main.

Local Open Scope Z_scope.

(** ** Paths *)

Lemma Split_app s t c : Split (s ++ c :: t) c = Split s c ++ Split t c.
Proof.
  rewrite <- (Join_Split s c) at 1. pose proof (fun l => Split_no_sep s c l) as Hn. pose proof (Split_nonempty s c) as Hne.
  induction (Split s c) as [|l ls IH]; [done|]. destruct ls as [|l' ls].
  - cbn [Join app]. by rewrite Split_app_sep by (apply Hn; left).
  - rewrite Join_cons, <- app_assoc by done. cbn [app]. rewrite Split_app_sep by (apply Hn; left). cbn [app]. f_equal. apply IH; [|done].
    intros x Hx. apply Hn. by right.
Qed.

Lemma LastIndexByte_Some s c i :
  LastIndexByte s c = Some i -> s = firstn i s ++ c :: skipn (S i) s /\ (c ∉ skipn (S i) s) /\ firstn (S i) s = firstn i s ++ [c].
Proof.
  revert i. induction s as [|d s IH]; intros i; cbn [LastIndexByte]; [done|]. destruct (LastIndexByte s c) as [j|] eqn:E.
  - intros [= <-]. destruct (IH j eq_refl) as (H1 & H2 & H3). cbn [firstn skipn app]. split; [by f_equal|]. split; [done|]. f_equal. exact H3.
  - destruct (Ascii.eqb_spec c d) as [->|]; [|done]. intros [= <-]. cbn [firstn skipn app]. split; [done|]. split; [|done]. by apply LastIndexByte_None.
Qed.

Lemma clean_components_empty_last rooted out ps : clean_components rooted out (ps ++ [[]]) = clean_components rooted out ps.
Proof.
  revert out. induction ps as [|p ps IH]; intros out; [done|]. cbn [app clean_components]. rewrite !IH.
  destruct out as [|q out]; [done|]. by rewrite !IH.
Qed.

Lemma Clean_rooted s ps : Split s "/" = [] :: ps -> ps <> [] -> Clean s = str "/" ++ Join (clean_components true [] ps) "/".
Proof.
  intros Hs Hne. assert (Hp : HasPrefix s (str "/") = true).
  { apply HasPrefix_true. exists (Join ps "/"). rewrite <- (Join_Split s "/"), Hs. by rewrite Join_cons. }
  unfold Clean. rewrite Hp, Hs. done.
Qed.

(** The directory of a cleaned absolute path, and what is found in it. *)
Lemma Dir_entries qs b :
  clean_list true true (qs ++ [b]) ->
  let path := str "/" ++ Join (qs ++ [b]) "/" in
  Dir path = str "/" ++ Join qs "/" /\
  forall b', clean_part b' -> b' <> str ".." -> Clean (Dir path ++ str "/" ++ b') = str "/" ++ Join (qs ++ [b']) "/".
Proof.
  intros Hc path. pose proof (clean_list_app _ _ _ _ Hc) as Hq. pose proof (clean_list_parts _ _ _ Hc) as Hparts.
  assert (Hns : Forall (fun p => "/"%char ∉ p) (qs ++ [b])) by (eapply Forall_impl; [exact Hparts|]; intros q Hp; apply Hp).
  assert (Hsp : Split path "/" = ([] :: qs) ++ [b]).
  { unfold path. change (str "/" ++ ?x) with ([] ++ "/"%char :: x). rewrite Split_app_sep by apply not_elem_of_nil. rewrite Split_Join; [done|by destruct qs|done]. }
  assert (Hdir : Dir path = str "/" ++ Join qs "/").
  { unfold Dir. destruct (LastIndexByte path "/") as [i|] eqn:Ei.
    - apply LastIndexByte_Some in Ei as (H1 & H2 & H3). rewrite H3. pose proof Hsp as Hsp'. rewrite H1, Split_app, (Split_no_occ _ _ H2) in Hsp'.
      apply app_inj_tail in Hsp' as [Hs _]. rewrite (Clean_rooted _ (qs ++ [[]])); [|by rewrite Split_app, Hs|by destruct qs].
      rewrite clean_components_empty_last. f_equal. f_equal. by apply (clean_components_fixed true []).
    - apply LastIndexByte_None in Ei. destruct Ei. left. }
  split; [done|]. intros b' Hb' Hup. rewrite Hdir.
  assert (Hc' : clean_list true true (qs ++ [b'])) by (apply clean_list_snoc; split_and!; done).
  rewrite <- app_assoc. change (str "/" ++ ?x) with ([] ++ "/"%char :: x) at 1. change (str "/" ++ b') with ("/"%char :: b').
  destruct qs as [|q qs].
  - rewrite (Clean_rooted _ [[]; b']); [| |done].
    + f_equal. f_equal. by apply (clean_components_fixed true [] [b']).
    + change (Split _ _) with ([] :: [] :: Split b' "/"). by rewrite (Split_no_occ b') by apply Hb'.
  - rewrite (Clean_rooted _ ((q :: qs) ++ [b'])); [|rewrite (Split_app []), Split_app, (Split_no_occ b') by apply Hb'|done].
    + f_equal. f_equal. by apply (clean_components_fixed true []).
    + rewrite Split_Join; [done|done|]. by apply Forall_app in Hns as [? _].
Qed.

Lemma Clean_form path :
  HasPrefix path (str "/") = true -> exists ps, clean_list true true ps /\ Clean path = str "/" ++ Join ps "/".
Proof.
  intros H. exists (clean_components true [] (Split path "/")). split; [apply clean_components_clean; [done|apply Split_no_slash]|]. unfold Clean. by rewrite H.
Qed.

Section parse.
Context (engine : gostring -> option (gostring -> bool)).
Context (Decode : (list gostring -> Node -> result (list gostring)) -> (Node -> result Z) -> gostring -> decoded).
Context (ParseLevel : gostring -> result Z).

Lemma NewStore_path cwd path contents s err :
  (forall wd, cwd = Ok wd -> HasPrefix wd (str "/") = true) -> NewStore engine Decode ParseLevel cwd path contents = Ok (s, err) ->
  exists ps, clean_list true true ps /\ st_path s = str "/" ++ Join ps "/".
Proof.
  intros Hwd (abs & Ha & H)%rbind_Ok. assert (Hs : st_path s = abs) by (revert H; unfold Reload; by destruct (Load _ _ _ _); intros [= <- _]).
  rewrite Hs. unfold Abs in Ha. destruct (HasPrefix path (str "/")) eqn:Hp; [injection Ha as <-; by apply Clean_form|].
  apply rbind_Ok in Ha as (wd & Hc & [= <-]). apply Clean_form. apply Hwd, HasPrefix_true in Hc as [t ->]. apply HasPrefix_true. rewrite <- app_assoc. eauto.
Qed.

(** C36: watching the directory is watching the file: among the names in the directory that Watch watches, which a file watcher reports joined to the directory's name, exactly one counts as a change of the config file, and that is the file's own, whether the path on the command line was absolute or relative, cleaned or not. *)
Theorem watch_sees_file cwd path contents s err :
  (forall wd, cwd = Ok wd -> HasPrefix wd (str "/") = true) -> NewStore engine Decode ParseLevel cwd path contents = Ok (s, err) -> st_path s <> str "/" ->
  exists base, clean_part base /\ Clean (Dir (st_path s) ++ str "/" ++ base) = st_path s /\
    forall name, clean_part name -> name <> str ".." -> changes (st_path s) (WEvent (Dir (st_path s) ++ str "/" ++ name) false) <-> name = base.
Proof.
  intros Hwd Hs Hne. destruct (NewStore_path _ _ _ _ _ Hwd Hs) as (ps & Hc & Hp). rewrite Hp in *.
  destruct ps as [|b qs _] using rev_ind; [done|]. destruct (Dir_entries qs b Hc) as [_ Hent].
  pose proof Hc as (_ & Hb & Hup)%clean_list_snoc. assert (Hb' : b <> str "..") by (intros E; by destruct (Hup E)).
  exists b. split; [done|]. split; [by apply Hent|]. intros name Hn Hnu. split.
  - intros (nm & Hev & Hcl). assert (nm = Dir (str "/" ++ Join (qs ++ [b]) "/") ++ str "/" ++ name) as -> by congruence. rewrite (Hent name Hn Hnu) in Hcl. apply app_inv_head in Hcl. apply (f_equal (fun t => Split t "/")) in Hcl.
    assert (Hns : forall x, clean_part x -> Forall (fun p => "/"%char ∉ p) (qs ++ [x])).
    { intros x Hx. apply Forall_app. split; [|apply Forall_singleton, Hx]. apply clean_list_app, clean_list_parts in Hc. eapply Forall_impl; [exact Hc|]. intros q Hq. apply Hq. }
    rewrite !Split_Join in Hcl by (auto || by destruct qs). by apply app_inj_tail in Hcl as [_ ->].
  - intros ->. eexists. split; [done|]. by apply Hent.
Qed.

(** ** Starting *)

(** Nothing is served. *)
Definition not_serving (steps : list main_step) : Prop := (MServe ∉ steps) /\ forall a, (MListen a ∉ steps).

(** What a start may do and return. *)
Definition start_spec (f : flags) (w : startup) (steps : list main_step) (err : option error) : Prop :=
  (MServe ∈ steps \/ (exists a, MListen a ∈ steps) -> exists cfg dir,
     Load engine Decode ParseLevel (su_contents w) = Ok cfg /\ su_listen w (fl_listen f) = Ok tt /\ su_newWatcher w = Ok tt /\ su_add w dir = Ok tt /\
     exists pre, steps = pre ++ [MLevel (LogLevel cfg); MWatch dir; MListen (fl_listen f); MServe]) /\
  (err = None <-> fl_version f = true \/ (MServe ∈ steps /\ is_ErrServerClosed (su_serve w) = true)).

Lemma start_failed f w steps e : not_serving steps -> fl_version f = false -> start_spec f w steps (Some e).
Proof. intros [H1 H2] Hv. split; [intros [?|[a ?]]; naive_solver|]. rewrite Hv. naive_solver. Qed.

Lemma not_serving_app steps steps' : not_serving steps -> not_serving steps' -> not_serving (steps ++ steps').
Proof. intros [H1 H2] [H3 H4]. split; [|intros a]; rewrite elem_of_app; naive_solver. Qed.

Lemma not_serving_levels l : not_serving ((fun cfg => MLevel (LogLevel cfg)) <$> l).
Proof. split; [|intros a]; by intros (c & [=] & _)%list_elem_of_fmap. Qed.

Lemma not_serving_one x : x <> MServe -> (forall a, x <> MListen a) -> not_serving [x].
Proof. intros H1 H2. split; [|intros a]; intros E%list_elem_of_singleton; [by apply H1|by apply (H2 a)]. Qed.

#[local] Hint Resolve not_serving_app not_serving_levels not_serving_one : goacl.

(** C35: starting fails closed: the program listens, and serves, only after the config file was parsed, its log level set and its directory watched; an unknown log format, a config that does not load, a watcher or a listener that fails end the program with an error before it serves; and it ends without an error only after printing its version or after the server was shut down. *)
Theorem startup_fails_closed version f w :
  let '(steps, err) := main_run engine Decode ParseLevel version f w in start_spec f w steps err.
Proof.
  unfold main_run. destruct (fl_version f) eqn:Ev; [split; [intros [?|[? ?]]; set_solver|rewrite Ev; naive_solver]|].
  assert (Hnil : not_serving []) by (split; [|intros a]; apply not_elem_of_nil).
  destruct (negb _); [by apply start_failed|]. set (s0 := if bool_decide _ then _ else _).
  assert (H0 : not_serving s0) by (unfold s0; case_bool_decide; auto with goacl). clearbody s0.
  destruct (NewStore _ _ _ _ _ _) as [[s err]|e] eqn:En; [|by apply start_failed].
  apply rbind_Ok in En as (abs & _ & Hr). unfold Reload in Hr.
  destruct (Load engine Decode ParseLevel (su_contents w)) as [cfg|e] eqn:El; injection Hr as <- <-; [|apply start_failed; auto with goacl].
  unfold Watch. cbn [st_applied app st_path]. destruct (su_newWatcher w) as [[]|e] eqn:Ew; cbn [rbind]; [|apply start_failed; auto with goacl].
  destruct (su_add w (Dir abs)) as [[]|e] eqn:Ea; cbn [rbind]; [|apply start_failed; auto with goacl].
  destruct (su_listen w (fl_listen f)) as [[]|e] eqn:Eli; [|apply start_failed; auto 10 with goacl]. split.
  - intros _. exists cfg, (Dir abs). split_and!; try done. exists s0. cbn [fmap list_fmap]. by rewrite <- !app_assoc.
  - rewrite Ev. unfold Serve_result. destruct (is_ErrServerClosed _); split; try done; [|naive_solver]. intros _. right. split; [|done].
    rewrite !elem_of_app. right. right. left.
Qed.

(** ** The running program *)

Section program.
Context {St : Type} `{!Policy.Resolver St}.

(** The configs that the parser accepts. *)
Definition accepted (cfg : Config) : Prop := exists data, Parse engine Decode ParseLevel data = Ok cfg.

(** The states of the program: started with the first config, then steps of
    the handlers' goroutines, rounds of [maintain], rounds of the watch loop
    and events of [Serve] in any order. The watch loop and [Serve] have the
    same context, which a signal cancels. Which levels the log has enabled may
    differ from one round of maintenance to the next, since a reload sets the
    level again. *)
Inductive program_reach : program St -> Prop :=
| pg_start cwd path contents nw add s cfg dir w st :
    NewStore engine Decode ParseLevel cwd path contents = Ok (s, None) -> Current s = Some cfg -> Watch nw add s = Ok (dir, w) ->
    program_reach (mkProgram w (NewProxy cfg st) serve_start)
| pg_step w p sv p' : program_reach (mkProgram w p sv) -> act (fun _ => False) p p' -> program_reach (mkProgram w p' sv)
| pg_tick (Enabled : Z -> bool) w p sv now cs os order :
    program_reach (mkProgram w p sv) -> sv_maintain sv = true ->
    cs ≡ₚ map_to_list (clients (px_clients p)) -> os ≡ₚ map_to_list (overflow (px_clients p)) -> visits (px_upstream p) order ->
    program_reach (mkProgram w (maintain Enabled p [MTick now cs os order]) sv)
| pg_round w p sv w' now ev :
    program_reach (mkProgram w p sv) -> (ev = WDone -> sv_cancelled sv = true) -> watchLoop_step engine Decode ParseLevel w now ev = Some w' ->
    program_reach (mkProgram w' (with_current p (w_store w')) sv)
| pg_serve w p sv ev sv' : program_reach (mkProgram w p sv) -> serve_step sv ev = Some sv' -> program_reach (mkProgram w p sv').

Lemma act_mono (valid valid' : Config -> Prop) (p p' : Proxy St) : (forall c, valid c -> valid' c) -> act valid p p' -> act valid' p p'.
Proof. intros Himp [now l t Hl Hs|now a s t r Hs Ha|l|ctx network host|now order scheme v Hv Hs Hg|now order Hv|cfg Hc]; try (econstructor; eauto; fail). Qed.

Lemma act_keeps_config (p p' : Proxy St) : act (fun _ => False) p p' -> px_config p' = px_config p.
Proof. by destruct 1. Qed.

Lemma Reload_current s contents s' err :
  Reload engine Decode ParseLevel s contents = (s', err) -> s' = s \/ exists cfg, Current s' = Some cfg /\ accepted cfg.
Proof.
  unfold Reload, Load. destruct contents as [data|e]; cbn [rbind]; [|intros [= <- _]; by left].
  destruct (Parse _ _ _ data) as [cfg|e] eqn:E; intros [= <- _]; [|by left]. right. exists cfg. split; [done|]. by exists data.
Qed.

Lemma watch_step_current w now ev w' :
  watchLoop_step engine Decode ParseLevel w now ev = Some w' ->
  w_store w' = w_store w \/ exists cfg, Current (w_store w') = Some cfg /\ accepted cfg.
Proof.
  unfold watchLoop_step, watch_reload. destruct (negb _); [done|]. destruct ev as [|name b| | |c|c]; try (intros [= <-]; by left).
  - intros [= <-]. left. by destruct (_ && _).
  - destruct (w_timer w); [|done]. destruct (_ <=? _); [|done]. destruct (Reload _ _ _ _ _) as [s err] eqn:E. intros [= <-]. by apply Reload_current in E.
  - destruct (Reload _ _ _ _ _) as [s err] eqn:E. intros [= <-]. by apply Reload_current in E.
Qed.

Lemma acts_keep_config (p p' : Proxy St) : rtc (act (fun _ => False)) p p' -> px_config p' = px_config p.
Proof. induction 1 as [|p p1 p' Ha _ IH]; [done|]. by rewrite IH, (act_keeps_config _ _ Ha). Qed.

Lemma acts_mono (valid valid' : Config -> Prop) (p p' : Proxy St) : (forall c, valid c -> valid' c) -> rtc (act valid) p p' -> rtc (act valid') p p'.
Proof. intros Himp. induction 1 as [|p p1 p' Ha _ IH]; [done|]. eapply rtc_l; [by eapply act_mono|done]. Qed.

(** The proxy's own steps keep what is claimed of the proxy and its store. *)
Definition consistent (w : watcher) (p : Proxy St) : Prop :=
  proxy_reach accepted p /\ Current (w_store w) = Some (px_config p) /\ accepted (px_config p).

Lemma consistent_acts w p p' : consistent w p -> rtc (act (fun _ => False)) p p' -> consistent w p'.
Proof.
  intros (Hp & Hc & Ha) Hacts. unfold consistent. rewrite (acts_keep_config _ _ Hacts). split_and!; [|done..].
  eapply acts_reach; [exact Hp|]. by eapply acts_mono; [|exact Hacts].
Qed.

(** Serving ends without an error only by a shutdown, which only a cancelled
    context causes; maintenance goes on until then. *)
Definition orderly (sv : serving) : Prop :=
  (is_Some (sv_shutdown sv) -> sv_cancelled sv = true) /\ (sv_returned sv = Some None -> is_Some (sv_shutdown sv)) /\
  (sv_maintain sv = false -> sv_cancelled sv = true).

Lemma serve_start_orderly : orderly serve_start.
Proof. split_and!; [by intros [? ?]|done|done]. Qed.

Lemma serve_step_orderly sv ev sv' : orderly sv -> serve_step sv ev = Some sv' -> orderly sv'.
Proof.
  intros (H1 & H2 & H3). unfold orderly. destruct ev as [|now| |err]; cbn [serve_step].
  - intros [= <-]. by cbn.
  - destruct (_ && _); intros [= <-]. cbn. split_and!; [done|by eauto|done].
  - destruct (sv_cancelled sv); intros [= <-]. by cbn.
  - destruct (_ && _) eqn:E; intros [= <-]. apply andb_true_iff in E as [_ E]. cbn. split_and!; [done| |done].
    unfold Serve_result. destruct (is_ErrServerClosed err); [|done]. intros _. by apply bool_decide_eq_true in E.
Qed.

(** C6: the running program refines the proxy of the other theorems: in every state that the handlers, the maintenance loop, the watch loop and Serve can reach together, the config in force is the store's current one and was accepted by the parser, never a half-applied or rejected one, and the proxy's state is one that the proxy reaches by its own steps and reloads of accepted configs, so that everything proved about those states holds of the program; and Serve ends without an error only by a shutdown after its context was cancelled, the maintenance loop running until then. *)
Theorem program_refines g :
  program_reach g ->
  proxy_reach accepted (pg_proxy g) /\ Current (w_store (pg_watcher g)) = Some (px_config (pg_proxy g)) /\ accepted (px_config (pg_proxy g)) /\
  (sv_returned (pg_serving g) = Some None -> is_Some (sv_shutdown (pg_serving g)) /\ sv_cancelled (pg_serving g) = true) /\
  (sv_cancelled (pg_serving g) = false -> sv_maintain (pg_serving g) = true).
Proof.
  intros Hg. assert (consistent (pg_watcher g) (pg_proxy g) /\ orderly (pg_serving g)) as [Hc (H1 & H2 & H3)].
  { induction Hg as [cwd path contents nw add s cfg dir w st Hs Hcfg Hw|w p sv p' _ [Hc Ho] Hact|Enabled w p sv now cs os order _ [Hc Ho] _ Hcs Hos Hv
      |w p sv w' now ev _ [Hc Ho] _ Hstep|w p sv ev sv' _ [Hc Ho] Hstep];
      cbn [pg_proxy pg_watcher pg_serving] in *; (split; [|by eauto using serve_step_orderly, serve_start_orderly]).
    - apply rbind_Ok in Hs as (abs & _ & Hr). injection Hr as Hr. apply Reload_current in Hr as [-> |(c & Hc & Ha)]; [done|]. assert (c = cfg) as -> by congruence.
      apply rbind_Ok in Hw as ([] & _ & Hw). apply rbind_Ok in Hw as ([] & _ & [= _ <-]). split_and!; [by constructor|done|done].
    - eapply consistent_acts; [exact Hc|]. by apply rtc_once.
    - eapply consistent_acts; [exact Hc|]. by apply maintain_acts.
    - destruct Hc as (Hp & Hcur & Ha). unfold consistent, with_current. destruct (watch_step_current _ _ _ _ Hstep) as [-> |(cfg & Hcfg & Hacc)].
      + rewrite Hcur. by destruct p.
      + rewrite Hcfg. split_and!; [|done..]. eapply px_act; [exact Hp|]. by apply act_reload.
    - done. }
  destruct Hc as (Hp & Hcur & Ha). split_and!; [done..|by auto|]. destruct (sv_maintain _); [done|]. intros E. by rewrite H3 in E.
Qed.
End program.
End parse.

(** ** Witnesses *)

Definition toy_store (data : String.string) : result (Store * option error) :=
  NewStore (fun _ => None) (fun _ _ => toy_decode) (fun _ => Ok 1) (Ok (str "/srv")) (str "etc/../acl.yaml") (Ok (str data)).

Definition store_test (f : Store -> option error -> bool) : bool := match toy_store "good" with Ok (s, err) => f s err | Err _ => false end.
Lemma store_test_true f : store_test f = true -> exists s err, toy_store "good" = Ok (s, err) /\ f s err = true.
Proof. unfold store_test. destruct (toy_store "good") as [[s err]|]; [eauto|done]. Qed.

Lemma watch_sees_file_witness :
  exists s err base, toy_store "good" = Ok (s, err) /\ st_path s = str "/srv/acl.yaml" /\ clean_part base /\
    Clean (Dir (st_path s) ++ str "/" ++ base) = st_path s.
Proof.
  destruct (store_test_true (fun s _ => bool_decide (st_path s = str "/srv/acl.yaml"))) as (s & err & Hs & Hp); [vm_compute; reflexivity|].
  apply bool_decide_eq_true in Hp. destruct (watch_sees_file (fun _ => None) (fun _ _ => toy_decode) (fun _ => Ok 1) (Ok (str "/srv")) (str "etc/../acl.yaml") (Ok (str "good")) s err) as (base & Hb & Hcl & _).
  - intros wd [= <-]. reflexivity.
  - exact Hs.
  - rewrite Hp. discriminate.
  - exists s, err, base. split; [exact Hs|]. split; [exact Hp|]. split; [exact Hb|exact Hcl].
Defined.

Lemma program_refines_witness :
  exists s cfg, toy_store "good" = Ok (s, None) /\ Current s = Some cfg /\ accepted (fun _ => None) (fun _ _ => toy_decode) (fun _ => Ok 1) cfg.
Proof.
  destruct (store_test_true (fun s err => match err, Current s with None, Some _ => true | _, _ => false end)) as (s & err & Hs & Hp); [vm_compute; reflexivity|].
  destruct err as [e|]; [discriminate Hp|]. destruct (Current s) as [cfg|] eqn:Ec; [|discriminate Hp]. exists s, cfg. split; [exact Hs|]. split; [exact Ec|].
  refine (proj1 (proj2 (proj2 (program_refines (H := logging_resolver) (fun _ => None) (fun _ _ => toy_decode) (fun _ => Ok 1)
    (mkProgram (watch_start s) (NewProxy cfg []) (mkServing true (Some (7 + shutdownGrace)) true (Some None))) _)))).
  apply (pg_serve _ _ _ _ _ (mkServing true (Some (7 + shutdownGrace)) true None) (SvServed ErrServerClosed)); [|vm_compute; reflexivity].
  apply (pg_serve _ _ _ _ _ (mkServing true None true None) (SvShutdown 7)); [|vm_compute; reflexivity].
  apply (pg_serve _ _ _ _ _ serve_start SvCancel); [|vm_compute; reflexivity].
  by apply (pg_start _ _ _ (Ok (str "/srv")) (str "etc/../acl.yaml") (Ok (str "good")) (Ok tt) (fun _ => Ok tt) s cfg (Dir (st_path s))).
Defined.
